(* ===== verification/_CoqProject ===== *)
-Q . S2P
Prelude.v
GoStrings.v
Codec.v
FastJson.v
Acl.v
Effects.v
WorkerPool.v
Store.v
GoFloat.v
GoFlag.v
Config.v
Util.v
Model.v
Health.v
Prober.v
Lifecycle.v
RemotingClient.v
Collector.v
Service.v
Adapter.v
Main.v
Task.v
Parallel.v
Wire.v
Page.v
Entries.v
Scrape.v
Peers.v
Logic.v
Tame.v
Cycle.v
Jobs.v
EndToEnd.v
Exact.v
