(* ===== verification/Prelude.v ===== *)
(** * rocketmq-exporter-go: a verification library

    The program (src/) exports the state of RocketMQ clusters to Prometheus.
    Cron jobs (internal/task) ask name servers and brokers for topology, offsets
    and statistics through an admin client (internal/service) that speaks the
    remoting protocol over pooled TCP connections (internal/rmqremote), and write
    what they learn into a metric store whose entries expire
    (internal/collector).  An active probe (internal/health) sends and receives
    messages on every cluster and writes its verdicts to the same collector.
    GET /metrics renders the collector, GET /healthz the probe's view.  The
    command (cmd/rmq-exporter) reads its settings from flags, environment and a
    YAML file (internal/config), starts all of this and takes it down again.

    ** Conventions

    A Go function is a Rocq function with the same name (methods without their
    receiver's name, or with it as a prefix where two would clash).  A call
    returns a value, an error or panics: [outcome].  Integers are [Z] with their
    width written out ([int32], [int64] truncate as Go does); float64 is IEEE
    binary64 ([spec_float] with 53 and 1024); byte slices are [list byte]; maps
    are [gmap], nil told from empty by [option] where the code can tell them
    apart.  The order of a map iteration is an instance of [MapRange] (one map) or
    [GoRange] (all maps): a theorem with such an argument holds for every order.
    Goroutines are labelled transition systems or step relations whose steps are
    the critical sections and blocking points of the code; a theorem over
    reachable states holds for every interleaving.  Effects of the service and
    task layers are trees ([prog]) whose answers are universally quantified.
    Third-party code is a parameter: jsoniter ([jsonCodec]), encoding/json
    ([JsonLib]), rocketmq-client-go (the labels and the flag of [Prober], the
    constructors of [Adapter]), yaml.v3 and the parser of robfig/cron ([Config]),
    expfmt ([textFormat] of Main states what its text format documents).

    ** Files

    - Prelude: this file; outcomes, machine integers, big-endian bytes, map
      iteration, invariants of step relations.
    - GoStrings, GoFloat: what the code uses of strings, strconv and float64
      ([parseIntWith] and [ParseFloat] follow strconv; [FormatInt] inverts
      [ParseInt]).
    - Codec (rmqremote/codec.go): frames and headers at byte level for both
      serializers.  [decode] inverts [encode]; the header parser terminates and
      what it returns is well typed; truncated frames are errors; a negative
      length panics.
    - FastJson (rmqremote/fastjson.go): the scanner that quotes bare object keys.
      Its output on every document of the dialect is the standard document with
      exactly the bare keys quoted; it terminates on every input.
    - Acl (rmqremote/acl.go): SHA-1, HMAC and base64 written out, and the request
      signature as a function of the sorted fields, for every map order.
    - RemotingClient (rmqremote/remote_client.go): one exchange on a connection,
      and the per-address pools with concurrent callers and [Shutdown].  A
      connection has one owner, is open, and goes to the right address; nothing
      leaks; [Shutdown] closes every connection.
    - Effects: trees of effects, their traversal and execution.
    - Service (internal/service, rmqremote/codes.go): all RPCs of the admin
      client.  Every request has the code and fields of its operation, and the
      signature of these fields when signing is on, and only then; the merged answers of
      the brokers of a route; deduplication, lag and store timestamps.
    - Wire: [InvokeSync] of rmqremote/remote_client.go under the operations of
      Service, against peers that answer frames with frames over connections that
      may go stale.  An operation returns what it returns against the abstract
      network.
    - Store (collector/store.go): the cache with expiry, refined by the history of
      its writes.
    - Model (model/broker_runtime_stats.go), Util (internal/util): the parser of
      the broker's runtime table (which tables are read, refused or crash the process,
      and where each field comes from), decimal rounding, byte counts.
    - Health (collector/health.go, health/http.go): the health store, the /healthz
      view and handler.
    - Prober (health/probe.go, lifecycle.go, adapter.go): all goroutines of the
      prober.  A removed cluster leaves no samples behind; a removed probe is
      quiet; one evaluation; reconciliation with the discovered clusters.
    - Lifecycle (health/lifecycle.go): [Start], the two loops, reconciliation and
      [Shutdown] around the goroutines of Prober.  A round of reconciliation does
      what the sequential one does in every interleaving; [Shutdown] can complete
      from every state (or [refreshLoop] ends the process, if the interval is not
      positive), and leaves no goroutine and no probe behind, and no sample if the
      client's consumer shutdown waits for its callbacks ([drains]).
    - Adapter (health/adapter.go): the options the message clients are built with
      agree with those of the admin client.
    - GoFlag: what the code uses of the flag package and of time.ParseDuration;
      [Parse] accepts exactly the sequences of defined flags with proper values.
    - Config (config/config.go): settings, environment, flags, overlay of the file
      and validation.  What the overlay changes and where it stops; the early
      search for the file's path agrees with the flag parser.
    - Main (cmd/rmq-exporter): the precedence of the sources of every setting; how
      a run ends, as the first of its start-up checks that does not pass; what it
      starts, in which order, and that it takes down exactly what it
      started whatever fails; the text of the metrics page; the log settings.
    - Collector (collector/collector.go, catalog.go): all caches and setters,
      [Sweep] and [Gather].  Every scrape of a reachable collector returns the
      same 94 families, with the live entries and without duplicate series (but
      for the two put families, which are labelled by broker name and kept by
      broker address).
    - WorkerPool (task/workerpool.go): mutex, condition variable and workers.
      [Submit] refines a discard-oldest queue; no task is lost or run twice; no
      wake-up is lost; [Shutdown] drains.
    - Task (task/collect.go, client_metric.go): the six cron tasks and the
      client-metric task.
    - Parallel: the parallel sections of the tasks, with the semaphore and every
      interleaving.  They end; no group is claimed twice; the collector stays
      reachable.
    - Page: what a scrape shows after any sequence of setter calls: the last write
      to each entry, in its family and under its labels.
    - Entries, Scrape (collector/collector.go, store.go): the critical sections of
      the setters, of [Sweep] and of [Gather], and their interleaving.  Run without
      interruption they are the operations of Collector; in any interleaving a
      finished scrape shows no torn family, only newest writes within the TTL,
      and every one that was not overwritten meanwhile.  Two families of one page
      may come from two reports of a broker ([report_torn]).
    - Peers: what the operations of Service answer, against peers that may answer
      anything ([yields]) and against peers that are functions ([ask]).
    - Logic: postconditions of task programs and of parallel sections over what
      their effects add to the shared state ([Observer], [post], [parallel_post]).
    - Tame: no task panics and every section runs to its end, for all answers that
      decode without a panic ([no_panic]) and, for the two jobs that read runtime
      tables, with well-formed disk capacities ([reporting]).
    - Cycle: what each goroutine of the tasks writes, as a function of the answers.
    - Jobs: the scheduled jobs from the call to the end of their sections, what
      they write, and the client-metric tasks they submit: one for each group with
      clients online.
    - EndToEnd: Jobs and Page put together: what the peers answer about offsets,
      consumer groups, producers and brokers is what a scrape shows, while the
      other jobs, which write other entries, run beside; the store-time latencies
      are taken at clock readings of the run ([Readings]).
    - Exact: the other direction: what a job adds to the families it feeds is
      nothing but what the answers of the peers determine.

    ** Fuel

    [normalizeKeys] runs its loop with the length of the input as fuel and
    [normalizeKeys_total] shows that it never runs out; [rmq_decodeHeader] likewise
    ([rmq_decodeHeader_total]), the loops of [ParseDuration] and [Parse] likewise
    ([ParseDuration_no_panic], [Parse_no_panic]).  [formatUint] uses one more than the binary
    logarithm, which bounds the number of decimal digits.  All other recursion is
    structural; the termination of parallel sections is well-foundedness of the
    step relation, that of [WorkerPool] and [RemotingClient] shutdown a measure.

    ** Not modelled

    The text of log lines, cronLogger and the file rotation of lumberjack;
    internal/otlp, a package comment; deadlines and the TCP layer, whose outcomes
    are arbitrary; the HTTP server beyond its registration, its handlers and the
    order of its start and stop.  A panic of one goroutine ends the process and
    the model of its section.  Strings are byte strings: case folding covers ASCII
    and the two letters outside it that fold into it.  The race on the cached
    cluster name is modelled as two atomic accesses.  Go leaves the conversion of
    a float64 outside the target's range to the implementation: it is an argument
    of [toInt64] and [produceInterval].  In Scrape a read lock is as exclusive as a
    write lock, which readers that do not write cannot tell, and a critical section
    is one step: waiting for a lock is not modelled.  What is left of the
    sources is log output ([handleTopicNotExist] only decides whether to log),
    import lists, the interfaces and trivial adapters of third-party clients, and
    [snapshotProbes], which only the tests call. *)

From Stdlib Require Import ZArith Lia Ascii String.
From Stdlib Require Export Strings.Byte.
From stdpp Require Export base list gmap strings relations.

#[global] Open Scope Z_scope.

(** ** Errors and outcomes

    A Go call returns a value, returns a non-nil [error], or panics.  A format
    string of [fmt.Errorf] is kept with its arguments, uninterpreted; [EWrap]
    is the [%w] verb, so that [errors.As] can walk the chain. *)

Inductive error : Type :=
| EEOF
| EUnexpectedEOF
| ESyntax (fn s : string)
| ERange (fn s : string)
| ERpc (code : Z) (remark : string)
| EExternal (msg : string)
| EMsg (fmt : string) (args : list string)
| EWrap (fmt : string) (args : list string) (cause : error).

Inductive outcome (A : Type) : Type :=
| Ret (a : A)
| Fail (e : error)
| Panic (msg : string).
Arguments Ret {_} _.
Arguments Fail {_} _.
Arguments Panic {_} _.

#[export] Instance outcome_ret : MRet outcome := @Ret.
#[export] Instance outcome_bind : MBind outcome := λ A B f m,
  match m with Ret a => f a | Fail e => Fail e | Panic s => Panic s end.
#[export] Instance outcome_fmap : FMap outcome := λ A B f m,
  match m with Ret a => Ret (f a) | Fail e => Fail e | Panic s => Panic s end.

(** [fmt.Errorf(fmt, args..., err)]: wrap the error of a failing call. *)
Definition wrapErr {A} (fmt : string) (args : list string) (m : outcome A) : outcome A :=
  match m with Fail e => Fail (EWrap fmt args e) | _ => m end.

Definition is_ret {A} (m : outcome A) : bool :=
  match m with Ret _ => true | _ => false end.

Lemma bind_ret_inv {A B} (m : outcome A) (f : A → outcome B) b :
  (m ≫= f) = Ret b → ∃ a, m = Ret a ∧ f a = Ret b.
Proof. destruct m; simpl; naive_solver. Qed.

Lemma wrapErr_ret {A} fmt args (m : outcome A) a :
  wrapErr fmt args m = Ret a ↔ m = Ret a.
Proof. destruct m; simpl; naive_solver. Qed.

(** Split a [Ret] produced by a chain of binds into its intermediate values. *)
Ltac inv_bind :=
  repeat match goal with
  | H : (_ ≫= _) = Ret _ |- _ =>
      let a := fresh "a" in let E := fresh "E" in
      apply bind_ret_inv in H as (a & E & H)
  | H : wrapErr _ _ _ = Ret _ |- _ => apply wrapErr_ret in H
  | H : Ret _ = Ret _ |- _ => injection H as H; subst
  | H : Fail _ = Ret _ |- _ => discriminate H
  | H : Panic _ = Ret _ |- _ => discriminate H
  end.

(** A call that either returns or reports an error. *)
Definition no_panic {A} (m : outcome A) : Prop := ∀ msg, m ≠ Panic msg.

Lemma bind_panic {A B} (m : outcome A) (f : A → outcome B) msg :
  (m ≫= f) = Panic msg → m = Panic msg ∨ ∃ a, m = Ret a ∧ f a = Panic msg.
Proof. destruct m as [a|e|msg']; simpl; intros H; [right; eauto|done|left; congruence]. Qed.

Lemma wrapErr_no_panic {A} fmt args (m : outcome A) : no_panic m → no_panic (wrapErr fmt args m).
Proof. intros Hm msg. specialize (Hm msg). destruct m; done. Qed.

(** ** Machine integers *)

(** Two's-complement truncation of a mathematical integer to [w] bits. *)
Definition swrap (w z : Z) : Z := (z + 2 ^ (w - 1)) mod 2 ^ w - 2 ^ (w - 1).
Definition int16 : Z → Z := swrap 16.
Definition int32 : Z → Z := swrap 32.
Definition int64 : Z → Z := swrap 64.

Definition in_int (w z : Z) : Prop := - 2 ^ (w - 1) ≤ z < 2 ^ (w - 1).

Lemma pow2_half w : 0 < w → 2 ^ w = 2 * 2 ^ (w - 1).
Proof.
  intros. rewrite <- (Z.pow_succ_r 2 (w - 1)) by lia. f_equal; lia.
Qed.

Lemma swrap_range w z : 0 < w → in_int w (swrap w z).
Proof.
  intros Hw. unfold in_int, swrap. rewrite (pow2_half w) by done.
  assert (0 < 2 ^ (w - 1)) by (apply Z.pow_pos_nonneg; lia).
  pose proof (Z.mod_pos_bound (z + 2 ^ (w - 1)) (2 * 2 ^ (w - 1))). lia.
Qed.

Lemma swrap_id w z : 0 < w → in_int w z → swrap w z = z.
Proof.
  unfold in_int, swrap. intros Hw Hz. rewrite (pow2_half w) in * by done.
  rewrite Z.mod_small; lia.
Qed.

Lemma int16_id z : - 2 ^ 15 ≤ z < 2 ^ 15 → int16 z = z.
Proof. intros. apply swrap_id; [lia|done]. Qed.
Lemma int32_id z : - 2 ^ 31 ≤ z < 2 ^ 31 → int32 z = z.
Proof. intros. apply swrap_id; [lia|done]. Qed.
Lemma int64_id z : - 2 ^ 63 ≤ z < 2 ^ 63 → int64 z = z.
Proof. intros. apply swrap_id; [lia|done]. Qed.

Lemma swrap_mod w z : 0 < w → swrap w (z mod 2 ^ w) = swrap w z.
Proof.
  intros. unfold swrap. rewrite Z.add_mod_idemp_l; [done|].
  apply Z.pow_nonzero; lia.
Qed.

Lemma swrap_add_l w a b : 0 < w → swrap w (swrap w a + b) = swrap w (a + b).
Proof.
  intros. unfold swrap.
  replace ((a + 2 ^ (w - 1)) mod 2 ^ w - 2 ^ (w - 1) + b + 2 ^ (w - 1))
    with ((a + 2 ^ (w - 1)) mod 2 ^ w + b) by lia.
  rewrite Z.add_mod_idemp_l by (apply Z.pow_nonzero; lia).
  do 2 f_equal. lia.
Qed.

(** ** Bytes *)

Abbreviation bytes := (list byte).

#[export] Instance byte_eq_dec : EqDecision byte := Byte.byte_eq_dec.
#[export] Program Instance byte_countable : Countable byte :=
  inj_countable Byte.to_N Byte.of_N _.
Next Obligation. intros b. apply Byte.of_to_N. Qed.

Definition u8 (b : byte) : Z := Z.of_N (Byte.to_N b).
Definition byte_of_Z (z : Z) : byte := default x00 (Byte.of_N (Z.to_N (z mod 256))).

Lemma u8_range b : 0 ≤ u8 b < 256.
Proof. unfold u8. pose proof (Byte.to_N_bounded b). lia. Qed.

Lemma u8_byte_of_Z z : u8 (byte_of_Z z) = z mod 256.
Proof.
  unfold u8, byte_of_Z. pose proof (Z.mod_pos_bound z 256).
  destruct (Byte.of_N _) as [b|] eqn:E; simpl.
  - apply Byte.to_of_N in E. rewrite E, Z2N.id; lia.
  - apply Byte.of_N_None_iff in E. lia.
Qed.

Lemma byte_of_Z_u8 b : byte_of_Z (u8 b) = b.
Proof. destruct b; reflexivity. Qed.

(** Go strings are byte sequences, and so is [string] here. *)
Definition bytes_of (s : string) : bytes := list_byte_of_string s.
Definition str_of (b : bytes) : string := string_of_list_byte b.

Lemma str_of_bytes_of s : str_of (bytes_of s) = s.
Proof. apply string_of_list_byte_of_string. Qed.
Lemma bytes_of_str_of b : bytes_of (str_of b) = b.
Proof. apply list_byte_of_string_of_list_byte. Qed.

Definition len {A} (l : list A) : Z := Z.of_nat (length l).
Definition slen (s : string) : Z := len (bytes_of s).

(** [encoding/binary.BigEndian]: the [n] low bytes of [z], high byte first. *)
Fixpoint be_bytes (n : nat) (z : Z) : bytes :=
  match n with
  | O => []
  | S n' => byte_of_Z (Z.shiftr z (8 * Z.of_nat n')) :: be_bytes n' z
  end.

Fixpoint be_val (bs : bytes) : Z :=
  match bs with
  | [] => 0
  | b :: bs' => u8 b * 2 ^ (8 * len bs') + be_val bs'
  end.

Lemma length_be_bytes n z : length (be_bytes n z) = n.
Proof. induction n; simpl; congruence. Qed.

Lemma len_be_bytes n z : len (be_bytes n z) = Z.of_nat n.
Proof. unfold len. by rewrite length_be_bytes. Qed.

Lemma be_val_bytes n z : be_val (be_bytes n z) = z mod 2 ^ (8 * Z.of_nat n).
Proof.
  induction n as [|n IH]; [simpl; by rewrite Z.mod_1_r|].
  simpl be_bytes. simpl be_val. rewrite len_be_bytes, IH, u8_byte_of_Z.
  rewrite Z.shiftr_div_pow2 by lia.
  replace (8 * Z.of_nat (S n)) with (8 * Z.of_nat n + 8) by lia.
  rewrite Z.pow_add_r by lia. change (2 ^ 8) with 256.
  rewrite Z.rem_mul_r by lia. lia.
Qed.

Lemma be_val_range bs : 0 ≤ be_val bs < 2 ^ (8 * len bs).
Proof.
  induction bs as [|b bs IH]; [done|].
  simpl be_val. pose proof (u8_range b).
  replace (8 * len (b :: bs)) with (8 * len bs + 8) by (unfold len; simpl; lia).
  rewrite Z.pow_add_r by (unfold len; lia). change (2 ^ 8) with 256. nia.
Qed.

(** A fixed-width signed read is the inverse of the write. *)
Definition get_int (bs : bytes) : Z := swrap (8 * len bs) (be_val bs).

Lemma get_be_bytes n z :
  (0 < n)%nat → get_int (be_bytes n z) = swrap (8 * Z.of_nat n) z.
Proof.
  intros. unfold get_int. rewrite be_val_bytes, len_be_bytes.
  apply swrap_mod. lia.
Qed.

Lemma get_be_bytes_id n z :
  (0 < n)%nat → in_int (8 * Z.of_nat n) z → get_int (be_bytes n z) = z.
Proof. intros. rewrite get_be_bytes by done. apply swrap_id; [lia|done]. Qed.

Arguments be_bytes : simpl never.
Arguments get_int : simpl never.
Arguments swrap : simpl never.

(** ** Readers

    A reader is the list of bytes not read yet.  [io.ReadFull] (and
    [binary.Read], which calls it) reports [io.EOF] when nothing was read and
    [io.ErrUnexpectedEOF] when the input ends early. *)

Definition readFull (n : nat) (buf : bytes) : outcome (bytes * bytes) :=
  if decide (n ≤ length buf)%nat then Ret (take n buf, drop n buf)
  else if decide (buf = []) then Fail EEOF else Fail EUnexpectedEOF.

(** [binary.Read(buf, binary.BigEndian, &x)] for a signed [x] of [n] bytes. *)
Definition readInt (n : nat) (buf : bytes) : outcome (Z * bytes) :=
  '(bs, rest) ← readFull n buf; Ret (get_int bs, rest).

(** [make([]byte, n)] panics on a negative length. *)
Definition makeLen (n : Z) : outcome nat :=
  if decide (n < 0) then Panic "makeslice: len out of range" else Ret (Z.to_nat n).

Lemma readFull_app bs rest : readFull (length bs) (bs ++ rest) = Ret (bs, rest).
Proof.
  unfold readFull. rewrite decide_True by (rewrite length_app; lia).
  by rewrite take_app_length, drop_app_length.
Qed.

Lemma readFull_app_n n bs rest :
  length bs = n → readFull n (bs ++ rest) = Ret (bs, rest).
Proof. intros <-. apply readFull_app. Qed.

Lemma readInt_app n z rest :
  (0 < n)%nat → in_int (8 * Z.of_nat n) z → readInt n (be_bytes n z ++ rest) = Ret (z, rest).
Proof.
  intros. unfold readInt. rewrite readFull_app_n by apply length_be_bytes.
  simpl. by rewrite get_be_bytes_id.
Qed.

Lemma readFull_ret n buf bs rest :
  readFull n buf = Ret (bs, rest) → buf = bs ++ rest ∧ length bs = n.
Proof.
  unfold readFull. repeat case_decide; intros; simplify_eq.
  rewrite take_drop, length_take. split; [done|lia].
Qed.

Lemma readFull_no_panic n buf msg : readFull n buf ≠ Panic msg.
Proof. unfold readFull. repeat case_decide; done. Qed.

(** ** Ranging over a map

    [for k, v := range m] visits every entry once, in an order the language
    does not fix.  An instance of [MapRange] is one such choice of order; a
    theorem with a [MapRange] argument holds for all of them. *)

Class MapRange (K V : Type) `{Countable K} := {
  range : gmap K V → list (K * V);
  range_perm : ∀ m, range m ≡ₚ map_to_list m
}.

(** The order used to run the definitions on concrete inputs. *)
Definition std_range {K V} `{Countable K} : MapRange K V :=
  {| range := map_to_list; range_perm := λ m, reflexivity _ |}.

Section map_range.
Context {K V : Type} `{Countable K} `{!MapRange K V}.
Implicit Types m : gmap K V.

Lemma elem_of_range m k v : (k, v) ∈ range m ↔ m !! k = Some v.
Proof. rewrite range_perm. apply elem_of_map_to_list. Qed.

Lemma NoDup_fst_range m : NoDup (range m).*1.
Proof. rewrite range_perm. apply NoDup_fst_map_to_list. Qed.

Lemma list_to_map_range m : list_to_map (range m) = m.
Proof.
  transitivity (list_to_map (map_to_list m) : gmap K V);
    [|apply list_to_map_to_list].
  apply list_to_map_proper; [apply NoDup_fst_range|apply range_perm].
Qed.

Lemma range_empty : range (∅ : gmap K V) = [].
Proof.
  apply Permutation_nil_r. rewrite range_perm. by rewrite map_to_list_empty.
Qed.

Lemma length_range m : length (range m) = size m.
Proof. rewrite range_perm. apply length_map_to_list. Qed.

(** Writing the entries one by one into an empty map rebuilds the map. *)
Lemma foldl_insert_app (l : list (K * V)) (acc : gmap K V) :
  NoDup l.*1 →
  foldl (λ a '(k, v), <[k := v]> a) acc l = list_to_map l ∪ acc.
Proof.
  revert acc. induction l as [|[k v] l IH]; intros acc Hnd.
  - simpl. by rewrite (left_id_L ∅ (∪)).
  - rewrite fmap_cons in Hnd. apply NoDup_cons in Hnd as [Hk Hnd].
    simpl in *. rewrite IH by done.
    rewrite <- insert_union_l, <- insert_union_r; [done|].
    by apply not_elem_of_list_to_map_1.
Qed.

Lemma foldl_insert_range m :
  foldl (λ a '(k, v), <[k := v]> a) ∅ (range m) = m.
Proof.
  rewrite foldl_insert_app by apply NoDup_fst_range.
  by rewrite list_to_map_range, (right_id_L ∅ (∪)).
Qed.
End map_range.

(** A choice of iteration order for every map of a program at once. *)
Class GoRange : Type := goRange (K V : Type) (E : EqDecision K) (C : Countable K) : MapRange K V.
#[export] Instance goRange_map `{GR : GoRange} {K V} `{C : Countable K} : MapRange K V :=
  goRange K V _ C.

Definition std_goRange : GoRange := λ K V E C, std_range.

(** ** Lists *)

Lemma filter_all {A} (P : A → Prop) `{∀ x, Decision (P x)} l :
  Forall P l → filter P l = l.
Proof. induction 1; [done|]. rewrite filter_cons_True by done. by f_equal. Qed.

(** Replacing one element of a list changes what is collected by that element. *)
Lemma bind_insert_perm {A B} (f : A → list B) (l : list A) i x y :
  l !! i = Some x → (<[i := y]> l ≫= f) ++ f x ≡ₚ (l ≫= f) ++ f y.
Proof.
  intros H. rewrite insert_take_drop by eauto using lookup_lt_Some.
  rewrite <- (take_drop_middle l i x H) at 3.
  rewrite !bind_app, !bind_cons. solve_Permutation.
Qed.

(** Removing an element that contributes nothing. *)
Lemma bind_delete_nil {A B} (f : A → list B) (l : list A) i x :
  l !! i = Some x → f x = [] → delete i l ≫= f = l ≫= f.
Proof.
  intros Hi Hf. rewrite delete_take_drop. rewrite <- (take_drop_middle l i x Hi) at 3.
  by rewrite !bind_app, bind_cons, Hf.
Qed.

(** ** Invariants of a step relation *)

Section invariants.
Context {S : Type} (step : S → S → Prop).

Lemma rtc_invariant (Inv : S → Prop) :
  (∀ s s', Inv s → step s s' → Inv s') →
  ∀ s s', rtc step s s' → Inv s → Inv s'.
Proof. intros Hstep s s'. induction 1; eauto. Qed.
End invariants.

(** Running a labelled transition system on a list of labels. *)
Section runs.
Context {S L : Type} (step : L → S → option S).

Definition lts_step (s s' : S) : Prop := ∃ l, step l s = Some s'.

Definition lts_run (ls : list L) (s : S) : option S := foldl (λ os l, os ≫= step l) (Some s) ls.

Lemma lts_run_none ls : foldl (λ os l, os ≫= step l) None ls = None.
Proof. induction ls; done. Qed.

Lemma lts_run_rtc ls s s' : lts_run ls s = Some s' → rtc lts_step s s'.
Proof.
  unfold lts_run. revert s. induction ls as [|l ls IH]; intros s H; simpl in H.
  - simplify_eq. constructor.
  - destruct (step l s) as [s1|] eqn:E; [|by rewrite lts_run_none in H].
    apply rtc_l with s1; [by exists l|]. by apply IH.
Qed.
End runs.

Create HintDb exporter.
Create Rewrite HintDb exporter.
#[export] Hint Resolve u8_range be_val_range : exporter.
#[export] Hint Rewrite @length_app length_be_bytes : exporter.
