(* ===== verification/GoStrings.v ===== *)
(** * What the exporter uses of Go's [strings] and [strconv]

    Go strings are byte sequences; so is [string].  Separators are given as
    one character, because every separator in the sources has one.  Case
    folding and white space are the ASCII ones: bytes from 128 up are left
    alone (two exceptions are in [foldByte]). *)

From Stdlib Require Import ZArith Lia Ascii String.
From S2P Require Import Prelude.

Local Open Scope string_scope.
Local Open Scope Z_scope.

(** ** strings *)

Definition code (c : ascii) : Z := Z.of_N (N_of_ascii c).
Definition chr (z : Z) : ascii := ascii_of_N (Z.to_N z).

(** What is left of [s] after the prefix [p]. *)
Fixpoint afterPrefix (s p : string) : option string :=
  match p, s with
  | EmptyString, _ => Some s
  | String a p', String c s' => if Ascii.eqb a c then afterPrefix s' p' else None
  | String _ _, EmptyString => None
  end.

Definition HasPrefix (s p : string) : bool :=
  match afterPrefix s p with Some _ => true | None => false end.

Definition TrimPrefix (s p : string) : string := default s (afterPrefix s p).

Fixpoint Split (sep : ascii) (s : string) : list string :=
  match s with
  | EmptyString => [""]
  | String c s' =>
      if Ascii.eqb c sep then "" :: Split sep s'
      else match Split sep s' with
           | [] => [String c ""]
           | x :: r => String c x :: r
           end
  end.

(** The text before and after the first separator. *)
Fixpoint cut (sep : ascii) (s : string) : option (string * string) :=
  match s with
  | EmptyString => None
  | String c s' =>
      if Ascii.eqb c sep then Some ("", s')
      else match cut sep s' with
           | Some (a, b) => Some (String c a, b)
           | None => None
           end
  end.

(** [strings.SplitN(s, sep, 2)]. *)
Definition SplitN2 (sep : ascii) (s : string) : list string :=
  match cut sep s with Some (a, b) => [a; b] | None => [s] end.

Fixpoint Join (sep : string) (l : list string) : string :=
  match l with
  | [] => ""
  | [x] => x
  | x :: l' => x ++ sep ++ Join sep l'
  end.

(** [strings.ReplaceAll(s, old, new)] for an [old] of one character. *)
Fixpoint ReplaceAll (s : string) (old : ascii) (new : string) : string :=
  match s with
  | EmptyString => ""
  | String c s' =>
      if Ascii.eqb c old then new ++ ReplaceAll s' old new
      else String c (ReplaceAll s' old new)
  end.

Definition isSpace (c : ascii) : bool :=
  bool_decide (9 ≤ code c ≤ 13) || bool_decide (code c = 32).

Fixpoint TrimLeft (s : string) : string :=
  match s with
  | EmptyString => ""
  | String c s' => if isSpace c then TrimLeft s' else s
  end.

Fixpoint TrimRight (s : string) : string :=
  match s with
  | EmptyString => ""
  | String c s' =>
      match TrimRight s' with
      | EmptyString => if isSpace c then "" else String c ""
      | r => String c r
      end
  end.

Definition TrimSpace (s : string) : string := TrimRight (TrimLeft s).

(** [strings.TrimSuffix(s, suf)] for a suffix of one character. *)
Fixpoint TrimSuffix (s : string) (suf : ascii) : string :=
  match s with
  | EmptyString => ""
  | String c EmptyString => if Ascii.eqb c suf then "" else s
  | String c s' => String c (TrimSuffix s' suf)
  end.

Definition lowerByte (c : ascii) : ascii :=
  if bool_decide (65 ≤ code c ≤ 90) then chr (code c + 32) else c.

Fixpoint ToLower (s : string) : string :=
  match s with EmptyString => "" | String c s' => String (lowerByte c) (ToLower s') end.

(** [strings.EqualFold] against an ASCII string.  Outside ASCII only U+017F
    (bytes C5 BF) folds to [s] and U+212A (bytes E2 84 AA) folds to [k]. *)
Fixpoint foldByte (s : string) : string :=
  match s with
  | EmptyString => ""
  | String c s1 =>
      match s1 with
      | String c1 s2 =>
          if Z.eqb (code c) 197 && Z.eqb (code c1) 191 then String "s" (foldByte s2)
          else match s2 with
               | String c2 s3 =>
                   if Z.eqb (code c) 226 && Z.eqb (code c1) 132 && Z.eqb (code c2) 170
                   then String "k" (foldByte s3)
                   else String (lowerByte c) (foldByte s1)
               | EmptyString => String (lowerByte c) (foldByte s1)
               end
      | EmptyString => String (lowerByte c) (foldByte s1)
      end
  end.
Definition EqualFold (s t : string) : bool := String.eqb (foldByte s) (foldByte t).

(** ** strconv *)

Definition maxUint64 : Z := 2 ^ 64 - 1.

Definition isDigit (c : ascii) : bool := bool_decide (48 ≤ code c ≤ 57).

(** The digit loop of [ParseUint] in base 10. *)
Fixpoint parseUintLoop (fn orig s : string) (n : Z) : outcome Z :=
  match s with
  | EmptyString => Ret n
  | String c s' =>
      if isDigit c then
        let n1 := n * 10 + (code c - 48) in
        if decide (maxUint64 < n1) then Fail (ERange fn orig)
        else parseUintLoop fn orig s' n1
      else Fail (ESyntax fn orig)
  end.

Definition parseUint (fn orig s : string) : outcome Z :=
  match s with
  | EmptyString => Fail (ESyntax fn orig)
  | _ => parseUintLoop fn orig s 0
  end.

Definition parseIntWith (fn s : string) : outcome Z :=
  match s with
  | EmptyString => Fail (ESyntax fn s)
  | String c s' =>
      let neg := Ascii.eqb c "-" in
      let body := if neg || Ascii.eqb c "+" then s' else s in
      un ← parseUint fn s body;
      if neg then (if decide (2 ^ 63 < un) then Fail (ERange fn s) else Ret (- un))
      else (if decide (2 ^ 63 ≤ un) then Fail (ERange fn s) else Ret un)
  end.

(** [strconv.ParseInt(s, 10, 64)] and [strconv.Atoi] ([int] has 64 bits). *)
Definition ParseInt (s : string) : outcome Z := parseIntWith "ParseInt" s.
Definition Atoi (s : string) : outcome Z := parseIntWith "Atoi" s.

Fixpoint decDigits (fuel : nat) (n : Z) : list Z :=
  match fuel with
  | O => []
  | S f => if decide (n < 10) then [n] else app (decDigits f (n / 10)) [n mod 10]
  end.

Fixpoint digitString (ds : list Z) : string :=
  match ds with [] => "" | d :: ds' => String (chr (48 + d)) (digitString ds') end.

(** [strconv.FormatInt(n, 10)] and [strconv.Itoa]; a number below [2^k] has at
    most [k] decimal digits. *)
Definition formatUint (n : Z) : string := digitString (decDigits (S (Z.to_nat (Z.log2 n))) n).
Definition FormatInt (n : Z) : string :=
  if decide (n < 0) then String "-" (formatUint (- n)) else formatUint n.

(** ** Lemmas *)

Lemma code_chr z : 0 ≤ z < 256 → code (chr z) = z.
Proof. intros. unfold code, chr. rewrite N_ascii_embedding; lia. Qed.

Lemma code_range c : 0 ≤ code c < 256.
Proof. unfold code. pose proof (N_ascii_bounded c). lia. Qed.

Lemma Split_nonempty sep s : Split sep s ≠ [].
Proof. destruct s as [|c s]; simpl; [done|]. destruct (Ascii.eqb c sep); [done|]. by destruct (Split sep s). Qed.

Lemma Split_single sep s : cut sep s = None → Split sep s = [s].
Proof.
  induction s as [|c s IH]; [done|]. simpl. destruct (Ascii.eqb c sep); [done|].
  destruct (cut sep s) as [[]|]; [done|]. intros _. by rewrite IH.
Qed.

Lemma Split_app sep a b : cut sep a = None → Split sep (a ++ String sep b) = a :: Split sep b.
Proof.
  induction a as [|c a IH]; simpl; [by rewrite Ascii.eqb_refl|].
  destruct (Ascii.eqb c sep); [done|]. destruct (cut sep a) as [[]|]; [done|]. intros _.
  by rewrite IH.
Qed.

(** Splitting the joined parts gives them back. *)
Lemma Split_Join sep l :
  l ≠ [] → Forall (λ x, cut sep x = None) l → Split sep (Join (String sep "") l) = l.
Proof.
  intros Hne Hl. induction Hl as [|x l Hx Hl IH]; [done|]. destruct l as [|y l].
  - by apply Split_single.
  - change (Join (String sep "") (x :: y :: l)) with (x ++ String sep (Join (String sep "") (y :: l))).
    rewrite Split_app by done. by rewrite IH.
Qed.

(** Joining the parts with the separator gives the string back. *)
Lemma Join_Split sep s : Join (String sep "") (Split sep s) = s.
Proof.
  induction s as [|c s IH]; [done|]. simpl.
  destruct (Ascii.eqb_spec c sep) as [->|Hne].
  - pose proof (Split_nonempty sep s). destruct (Split sep s) as [|x r]; [done|].
    simpl in *. by rewrite IH.
  - destruct (Split sep s) as [|x [|y r]]; simpl in *; by rewrite <- IH.
Qed.

(** No part contains the separator. *)
Lemma Split_no_sep sep s x : x ∈ Split sep s → cut sep x = None.
Proof.
  revert x. induction s as [|c s IH]; intros x; simpl.
  - intros ->%list_elem_of_singleton. done.
  - destruct (Ascii.eqb_spec c sep) as [->|Hne].
    + intros [->|Hx]%elem_of_cons; [done|by apply IH].
    + destruct (Split sep s) as [|y r] eqn:E.
      * intros ->%list_elem_of_singleton. simpl. by destruct (Ascii.eqb_spec c sep).
      * intros [->|Hx]%elem_of_cons.
        -- simpl. destruct (Ascii.eqb_spec c sep); [done|]. rewrite (IH y); [done|left].
        -- apply IH. by right.
Qed.

Lemma append_cons c a b : String c a +:+ b = String c (a +:+ b).
Proof. reflexivity. Qed.
Lemma append_nil a : "" +:+ a = a.
Proof. reflexivity. Qed.

Lemma cut_app sep a b : cut sep a = None → cut sep (a +:+ b) =
  match cut sep b with Some (x, y) => Some (a +:+ x, y) | None => None end.
Proof.
  induction a as [|c a IH]; [rewrite append_nil; intros _; destruct (cut sep b) as [[x y]|]; reflexivity|].
  rewrite append_cons. cbn [cut].
  destruct (Ascii.eqb c sep); [done|]. destruct (cut sep a) as [[]|]; [done|]. intros _.
  rewrite IH by done. by destruct (cut sep b) as [[]|].
Qed.

Lemma append_nil_r s : s +:+ "" = s.
Proof. induction s as [|c s IH]; [done|]. by rewrite append_cons, IH. Qed.

Lemma cut_inv sep s a b : cut sep s = Some (a, b) → s = a ++ String sep b ∧ cut sep a = None.
Proof.
  revert a. induction s as [|c s IH]; intros a; simpl; [done|].
  destruct (Ascii.eqb_spec c sep) as [->|Hne].
  - by intros [= <- <-].
  - destruct (cut sep s) as [[a' b']|]; [|done]. intros [= <- <-].
    destruct (IH a' eq_refl) as [-> Ha]. split; [done|]. simpl.
    destruct (Ascii.eqb_spec c sep); [done|]. by rewrite Ha.
Qed.

Lemma cut_app_sep sep a b : cut sep a = None → cut sep (a ++ String sep b) = Some (a, b).
Proof. intros H. rewrite cut_app by done. cbn [cut]. by rewrite Ascii.eqb_refl, append_nil_r. Qed.

(** *** Prefixes *)

Lemma afterPrefix_app s p r : afterPrefix s p = Some r ↔ s = p ++ r.
Proof.
  revert s. induction p as [|a p IH]; intros s; simpl.
  - split; [intros; destruct s; by simplify_eq/=|intros ->; by destruct r].
  - destruct s as [|c s]; simpl; [done|]. destruct (Ascii.eqb_spec a c) as [->|Hne].
    + rewrite IH. split; [by intros ->|by intros [= ->]].
    + split; [done|]. by intros [= -> _].
Qed.

Lemma HasPrefix_inv s p : HasPrefix s p = true → s = p ++ TrimPrefix s p.
Proof.
  unfold HasPrefix, TrimPrefix. destruct (afterPrefix s p) as [r|] eqn:E; [|done]. intros _.
  by apply afterPrefix_app in E.
Qed.

Lemma TrimPrefix_inj s t p : HasPrefix s p = true → HasPrefix t p = true → TrimPrefix s p = TrimPrefix t p → s = t.
Proof. intros Hs%HasPrefix_inv Ht%HasPrefix_inv E. by rewrite Hs, Ht, E. Qed.

Definition decValue (acc : Z) (ds : list Z) : Z := foldl (λ a d, a * 10 + d) acc ds.

Lemma decValue_ge acc ds : 0 ≤ acc → Forall (λ d, 0 ≤ d < 10) ds → acc ≤ decValue acc ds.
Proof.
  revert acc. induction ds as [|d ds IH]; intros acc Ha Hds; [done|].
  inversion Hds as [|? ? Hd Hds']; subst. unfold decValue in *. simpl.
  specialize (IH (acc * 10 + d) ltac:(lia) Hds'). lia.
Qed.

Lemma isDigit_chr d : 0 ≤ d < 10 → isDigit (chr (48 + d)) = true.
Proof. intros. unfold isDigit. rewrite code_chr by lia. apply bool_decide_eq_true. lia. Qed.

Lemma parseUintLoop_digits fn orig ds acc :
  Forall (λ d, 0 ≤ d < 10) ds → 0 ≤ acc → decValue acc ds ≤ maxUint64 →
  parseUintLoop fn orig (digitString ds) acc = Ret (decValue acc ds).
Proof.
  revert acc. induction ds as [|d ds IH]; intros acc Hds Ha Hv; [done|].
  inversion Hds as [|? ? Hd Hds']; subst. cbn [digitString parseUintLoop].
  rewrite isDigit_chr by done. rewrite code_chr by lia.
  pose proof (decValue_ge (acc * 10 + d) ds ltac:(lia) Hds') as Hge. unfold decValue in *. cbn [foldl] in *.
  replace (acc * 10 + (48 + d - 48)) with (acc * 10 + d) by lia.
  rewrite decide_False by lia. rewrite IH by (done || lia). done.
Qed.

Lemma decDigits_range fuel n : 0 ≤ n → Forall (λ d, 0 ≤ d < 10) (decDigits fuel n).
Proof.
  revert n. induction fuel as [|f IH]; intros n Hn; simpl; [constructor|].
  case_decide.
  - repeat constructor; lia.
  - apply Forall_app; split; [apply IH; apply Z.div_pos; lia|].
    repeat constructor; apply Z.mod_pos_bound; lia.
Qed.

Lemma decDigits_value fuel n : 0 ≤ n < 10 ^ Z.of_nat fuel → decValue 0 (decDigits fuel n) = n.
Proof.
  revert n. induction fuel as [|f IH]; intros n Hn;
    [change (10 ^ Z.of_nat 0) with 1 in Hn; cbn; lia|].
  simpl decDigits. case_decide; [done|].
  unfold decValue in *. rewrite foldl_app. simpl. rewrite IH.
  - pose proof (Z.div_mod n 10 ltac:(done)). lia.
  - rewrite Nat2Z.inj_succ, Z.pow_succ_r in Hn by lia.
    split; [apply Z.div_pos; lia|]. apply Z.div_lt_upper_bound; lia.
Qed.

Lemma decDigits_nonempty fuel n : decDigits (S fuel) n ≠ [].
Proof. simpl. case_decide; [done|]. by destruct (decDigits fuel (n / 10)). Qed.

Lemma log2_fuel n : 0 ≤ n → n < 10 ^ Z.of_nat (S (Z.to_nat (Z.log2 n))).
Proof.
  intros Hn. destruct (decide (n = 0)) as [->|]; [simpl; lia|].
  rewrite Nat2Z.inj_succ, Z2Nat.id by apply Z.log2_nonneg.
  pose proof (Z.log2_spec n). pose proof (Z.log2_nonneg n).
  assert (2 ^ Z.succ (Z.log2 n) ≤ 10 ^ Z.succ (Z.log2 n)) by (apply Z.pow_le_mono_l; lia).
  lia.
Qed.

Lemma parseUint_format fn orig n :
  0 ≤ n ≤ maxUint64 → parseUint fn orig (formatUint n) = Ret n.
Proof.
  intros Hn. unfold parseUint, formatUint.
  pose proof (decDigits_nonempty (Z.to_nat (Z.log2 n)) n) as Hne.
  pose proof (decDigits_value (S (Z.to_nat (Z.log2 n))) n) as Hv.
  pose proof (decDigits_range (S (Z.to_nat (Z.log2 n))) n) as Hr.
  pose proof (log2_fuel n). pose proof (parseUintLoop_digits fn orig) as Hl.
  specialize (Hl (decDigits (S (Z.to_nat (Z.log2 n))) n) 0).
  rewrite Hv in Hl by lia.
  destruct (decDigits (S (Z.to_nat (Z.log2 n))) n) as [|d ds] eqn:E; [done|].
  apply Hl; [apply Hr; lia|lia|lia].
Qed.

Lemma formatUint_head n : 0 ≤ n → ∃ d s, 0 ≤ d < 10 ∧ formatUint n = String (chr (48 + d)) s.
Proof.
  intros Hn. unfold formatUint.
  pose proof (decDigits_nonempty (Z.to_nat (Z.log2 n)) n).
  pose proof (decDigits_range (S (Z.to_nat (Z.log2 n))) n Hn) as Hr.
  destruct (decDigits _ _) as [|d ds]; [done|]. inversion Hr; subst. simpl. eauto.
Qed.

Lemma chr_digit_not_sign d : 0 ≤ d < 10 →
  Ascii.eqb (chr (48 + d)) "-" = false ∧ Ascii.eqb (chr (48 + d)) "+" = false.
Proof.
  intros. pose proof (code_chr (48 + d) ltac:(lia)) as E.
  split; apply Ascii.eqb_neq; intros Hc; rewrite Hc in E.
  - change (code "-") with 45 in E. lia.
  - change (code "+") with 43 in E. lia.
Qed.

(** [ParseInt] inverts [FormatInt] on every 64-bit integer. *)
Lemma parseIntWith_FormatInt fn n : in_int 64 n → parseIntWith fn (FormatInt n) = Ret n.
Proof.
  unfold in_int. change (64 - 1) with 63. intros Hn.
  unfold FormatInt, parseIntWith. case_decide as Hneg.
  - cbn -[parseUint formatUint Z.pow Z.opp]. rewrite parseUint_format by (unfold maxUint64; lia).
    cbn -[Z.pow Z.opp]. rewrite decide_False by lia. f_equal; lia.
  - destruct (formatUint_head n) as (d & s & Hd & E); [lia|].
    pose proof (parseUint_format fn (formatUint n) n) as Hp.
    rewrite E in *. destruct (chr_digit_not_sign d Hd) as [-> ->].
    cbn -[parseUint Z.pow chr]. rewrite Hp by (unfold maxUint64; lia).
    cbn -[Z.pow]. rewrite decide_False by lia. done.
Qed.

Lemma ParseInt_FormatInt n : in_int 64 n → ParseInt (FormatInt n) = Ret n.
Proof. apply parseIntWith_FormatInt. Qed.
Lemma Atoi_FormatInt n : in_int 64 n → Atoi (FormatInt n) = Ret n.
Proof. apply parseIntWith_FormatInt. Qed.

(** A result of [ParseInt] fits in 64 bits. *)
Lemma parseUintLoop_range fn orig s n r :
  0 ≤ n ≤ maxUint64 → parseUintLoop fn orig s n = Ret r → 0 ≤ r ≤ maxUint64.
Proof.
  revert n. induction s as [|c s IH]; simpl; intros n Hn; [by intros [= <-]|].
  unfold isDigit. case_bool_decide; [|done]. case_decide; [done|].
  apply IH. lia.
Qed.

Lemma ParseInt_range fn s n : parseIntWith fn s = Ret n → in_int 64 n.
Proof.
  unfold parseIntWith. destruct s as [|c s]; [done|]. intros H.
  apply bind_ret_inv in H as (un & Hun & H).
  assert (0 ≤ un ≤ maxUint64).
  { unfold parseUint in Hun. destruct (if _ : bool then _ else _); [done|].
    eapply parseUintLoop_range; [|done]. unfold maxUint64; lia. }
  unfold in_int. change (64 - 1) with 63.
  destruct (Ascii.eqb c "-"); case_decide; inv_bind; lia.
Qed.

Lemma parseUintLoop_no_panic fn orig s n : no_panic (parseUintLoop fn orig s n).
Proof.
  revert n. induction s as [|c s IH]; intros n msg; simpl; [done|].
  destruct (isDigit c); [|done]. case_decide; [done|]. apply IH.
Qed.

Lemma parseIntWith_no_panic fn s : no_panic (parseIntWith fn s).
Proof.
  intros msg. unfold parseIntWith. destruct s as [|c s]; [done|]. intros H.
  apply bind_panic in H as [H|(un & _ & H)].
  - unfold parseUint in H. destruct (if _ : bool then _ else _); [done|].
    by apply parseUintLoop_no_panic in H.
  - destruct (Ascii.eqb c "-"); case_decide; done.
Qed.
