(* ===== verification/Codec.v ===== *)
(** * The remoting codec: internal/rmqremote/codec.go

    The command record, the two header serializers behind one interface, the
    frame writers [encode] and [EncodeTo], and the frame reader [decode]. *)

From Stdlib Require Import ZArith Lia.
From S2P Require Import Prelude GoStrings.

(** ** Data *)

Definition RPCType : Z := 0.
Definition ResponseType : Z := 1.
Definition Version317 : Z := 317.
Definition JsonCodecs : Z := 0.
Definition RocketMQCodecs : Z := 1.
Definition headerFixedLength : Z := 21.

(** [LanguageCode] is a byte. *)
Definition lang_Java : Z := 0.
Definition lang_Go : Z := 9.
Definition lang_Unknown : Z := 127.

Definition quoted (s : string) : bytes := x22 :: bytes_of s ++ [x22].

Definition LanguageCode_MarshalJSON (lc : Z) : bytes := quoted "GO".

Definition LanguageCode_UnmarshalJSON (b : bytes) : Z :=
  if decide (b = bytes_of "JAVA") then lang_Java
  else if decide (b = bytes_of "GO" ∨ b = quoted "GO") then lang_Go
  else lang_Unknown.

Definition LanguageCode_String (lc : Z) : string :=
  if decide (lc = lang_Java) then "JAVA"
  else if decide (lc = lang_Go) then "GO" else "unknown".

(** [ExtFields] is a Go map, [None] when nil. *)
Record RemotingCommand : Type := mkCommand {
  Code : Z;
  Language : Z;
  Version : Z;
  Opaque : Z;
  Flag : Z;
  Remark : string;
  ExtFields : option (gmap string string);
  Body : bytes
}.

Definition set_ext (e : option (gmap string string)) (c : RemotingCommand) : RemotingCommand :=
  mkCommand (Code c) (Language c) (Version c) (Opaque c) (Flag c) (Remark c) e (Body c).
Definition set_flag (f : Z) (c : RemotingCommand) : RemotingCommand :=
  mkCommand (Code c) (Language c) (Version c) (Opaque c) f (Remark c) (ExtFields c) (Body c).
Definition set_body (b : bytes) (c : RemotingCommand) : RemotingCommand :=
  mkCommand (Code c) (Language c) (Version c) (Opaque c) (Flag c) (Remark c) (ExtFields c) b.

(** Reading a nil map gives the zero value, as reading a missing key does. *)
Definition ext_get (e : option (gmap string string)) (k : string) : option string :=
  m ← e; m !! k.

(** [NewRemotingCommand]: the package counter [opaque] is threaded through;
    [header] is what [CustomHeader.Encode] returned, [None] for a nil header. *)
Definition NewRemotingCommand (code : Z) (header : option (gmap string string))
    (body : bytes) (opaque : Z) : RemotingCommand * Z :=
  let opaque' := int32 (opaque + 1) in
  let cmd := mkCommand code lang_Go Version317 opaque' 0 "" (Some ∅) body in
  (match header with
   | Some m => set_ext (Some m) cmd
   | None => cmd
   end, opaque').

Definition isResponseType (c : RemotingCommand) : bool :=
  bool_decide (Z.land (Flag c) ResponseType = ResponseType).

Definition markResponseType (c : RemotingCommand) : RemotingCommand :=
  set_flag (Z.lor (Flag c) ResponseType) c.

(** ** The serializer interface *)

Record serializer : Type := {
  encodeHeader : RemotingCommand → outcome bytes;
  decodeHeader : bytes → outcome RemotingCommand
}.

(** What the frame layer needs of a serializer: on the commands [ok] admits,
    a written header reads back as [norm] of the command. *)
Class SerializerOk (s : serializer) (ok : RemotingCommand → Prop)
    (norm : RemotingCommand → RemotingCommand) : Prop := {
  ser_roundtrip : ∀ c h, ok c → encodeHeader s c = Ret h → decodeHeader s h = Ret (norm c);
  ser_norm_body : ∀ c, Body (norm c) = []
}.

(** *** The private RocketMQ protocol *)

Section rmqCodec.
Context `{!MapRange string string}.

Definition encodeEntry (kv : string * string) : bytes :=
  be_bytes 2 (int16 (slen kv.1)) ++ bytes_of kv.1 ++
  be_bytes 4 (int32 (slen kv.2)) ++ bytes_of kv.2.

Definition encodeMaps (maps : option (gmap string string)) : bytes :=
  match maps with
  | None => []
  | Some m => if decide (m = ∅) then [] else concat (encodeEntry <$> range m)
  end.

Definition rmq_encodeHeader (c : RemotingCommand) : outcome bytes :=
  let ext := encodeMaps (ExtFields c) in
  Ret (be_bytes 2 (int16 (Code c)) ++
       be_bytes 1 lang_Go ++
       be_bytes 2 (int16 (Version c)) ++
       be_bytes 4 (Opaque c) ++
       be_bytes 4 (Flag c) ++
       be_bytes 4 (int32 (slen (Remark c))) ++
       (if decide (0 < slen (Remark c)) then bytes_of (Remark c) else []) ++
       be_bytes 4 (int32 (len ext)) ++
       (if decide (0 < len ext) then ext else [])).

Definition getExtFieldsData (buf : bytes) (length : Z) : outcome (string * bytes) :=
  n ← makeLen length;
  '(d, rest) ← readFull n buf;
  Ret (str_of d, rest).

(** The [for buf.Len() > 0] loop; every turn reads at least the two bytes of
    [kLen], so [length buf] turns are enough ([extLoop_fuel]). *)
Fixpoint extLoop (fuel : nat) (buf : bytes) (m : gmap string string)
    : outcome (gmap string string) :=
  match buf with
  | [] => Ret m
  | _ :: _ =>
      match fuel with
      | O => Panic "out of fuel"
      | S fuel' =>
          '(kLen, b1) ← readInt 2 buf;
          '(key, b2) ← getExtFieldsData b1 kLen;
          '(vLen, b3) ← readInt 4 b2;
          '(value, b4) ← getExtFieldsData b3 vLen;
          extLoop fuel' b4 (<[key := value]> m)
      end
  end.

Definition rmq_decodeHeader (data : bytes) : outcome RemotingCommand :=
  '(code, b) ← readInt 2 data;
  '(l, b) ← readFull 1 b;
  '(version, b) ← readInt 2 b;
  '(opq, b) ← readInt 4 b;
  '(flag, b) ← readInt 4 b;
  '(remarkLen, b) ← readInt 4 b;
  '(remark, b) ←
    (if decide (0 < remarkLen)
     then '(d, b') ← readFull (Z.to_nat remarkLen) b; Ret (str_of d, b')
     else Ret (EmptyString, b));
  '(extFieldsLen, b) ← readInt 4 b;
  ext ←
    (if decide (0 < extFieldsLen)
     then '(d, _) ← readFull (Z.to_nat extFieldsLen) b;
          m ← extLoop (length d) d ∅; Ret (Some m)
     else Ret None);
  Ret (mkCommand code (be_val l) version opq flag remark ext []).

Definition rmqCodec : serializer :=
  {| encodeHeader := rmq_encodeHeader; decodeHeader := rmq_decodeHeader |}.
End rmqCodec.

(** *** The JSON protocol

    [jsoniter.Marshal] and [jsoniter.Unmarshal] are a third-party package:
    [marshal] and [unmarshal] stand for them at the type [RemotingCommand];
    [unmarshal] fills in a given struct. *)

Section jsonCodec.
Context (marshal : RemotingCommand → outcome bytes).
Context (unmarshal : bytes → RemotingCommand → outcome RemotingCommand).

Definition json_encodeHeader (c : RemotingCommand) : outcome bytes := marshal c.

Definition json_decodeHeader (header : bytes) : outcome RemotingCommand :=
  unmarshal header (mkCommand 0 0 0 0 0 "" (Some ∅) []).

Definition jsonCodec : serializer :=
  {| encodeHeader := json_encodeHeader; decodeHeader := json_decodeHeader |}.
End jsonCodec.

(** ** Frames *)

Section frames.
Context (jsonSerializer rocketMqSerializer : serializer).

Definition markProtocolType (codecType source : Z) : bytes :=
  [byte_of_Z codecType;
   byte_of_Z (Z.land (Z.shiftr source 16) 255);
   byte_of_Z (Z.land (Z.shiftr source 8) 255);
   byte_of_Z (Z.land source 255)].

(** The [switch codecType] of [encode] and [EncodeTo]: no default case. *)
Definition headerOf (codecType : Z) (c : RemotingCommand) : outcome bytes :=
  if decide (codecType = JsonCodecs) then encodeHeader jsonSerializer c
  else if decide (codecType = RocketMQCodecs) then encodeHeader rocketMqSerializer c
  else Ret [].

Definition encode (codecType : Z) (c : RemotingCommand) : outcome bytes :=
  header ← headerOf codecType c;
  let frameSize := 4 + len header + len (Body c) in
  Ret (be_bytes 4 (int32 frameSize) ++
       markProtocolType codecType (int32 (len header)) ++ header ++ Body c).

(** An [io.Writer] is a state with a write function that may fail. *)
Definition EncodeTo {W} (write : W → bytes → W * option error)
    (codecType : Z) (c : RemotingCommand) (w : W) : W * outcome unit :=
  match headerOf codecType c with
  | Fail e => (w, Fail e)
  | Panic s => (w, Panic s)
  | Ret header =>
      let frameSize := 4 + len header + len (Body c) in
      let '(w, err) := write w (be_bytes 4 (int32 frameSize)) in
      match err with Some e => (w, Fail e) | None =>
      let '(w, err) := write w (markProtocolType codecType (int32 (len header))) in
      match err with Some e => (w, Fail e) | None =>
      let '(w, err) := write w header in
      match err with Some e => (w, Fail e) | None =>
      let '(w, err) := write w (Body c) in
      match err with Some e => (w, Fail e) | None => (w, Ret tt) end
      end end end
  end.

Definition decode (data : bytes) : outcome RemotingCommand :=
  let length := int32 (len data) in
  '(oriHeaderLen, buf) ← readInt 4 data;
  let headerLength := Z.land oriHeaderLen 16777215 in
  n ← makeLen headerLength;
  '(headerData, buf) ← readFull n buf;
  let codeType := Z.land (Z.shiftr oriHeaderLen 24) 255 in
  command ←
    (if decide (codeType = JsonCodecs) then decodeHeader jsonSerializer headerData
     else if decide (codeType = RocketMQCodecs) then decodeHeader rocketMqSerializer headerData
     else Fail (EMsg "unknown codec type: %d" [FormatInt codeType]));
  let bodyLength := int32 (int32 (length - 4) - headerLength) in
  if decide (0 < bodyLength)
  then '(bodyData, _) ← readFull (Z.to_nat bodyLength) buf;
       Ret (set_body bodyData command)
  else Ret command.
End frames.

(** ** The private protocol reads back what it writes *)

Lemma len_app {A} (l k : list A) : len (l ++ k) = len l + len k.
Proof. unfold len. rewrite length_app. lia. Qed.

Lemma len_nonneg {A} (l : list A) : 0 ≤ len l.
Proof. unfold len. lia. Qed.

Lemma readFull_len (b rest : bytes) : readFull (Z.to_nat (len b)) (b ++ rest) = Ret (b, rest).
Proof. unfold len. rewrite Nat2Z.id. apply readFull_app. Qed.

Lemma readFull_all (b : bytes) : readFull (Z.to_nat (len b)) b = Ret (b, []).
Proof. rewrite <- (app_nil_r b) at 2. apply readFull_len. Qed.

Lemma len_pos_or_nil {A} (l : list A) : (if decide (0 < len l) then l else []) = l.
Proof. case_decide; [done|]. destruct l; [done|]. unfold len in *. simpl in *. lia. Qed.

Lemma str_of_nil_remark (s : string) :
  (if decide (0 < slen s) then bytes_of s else []) = bytes_of s.
Proof. apply len_pos_or_nil. Qed.

(** The sizes the wire format can carry: a key length has 15 bits, a value,
    remark or table length 31 bits. *)
Definition entry_ok (kv : string * string) : Prop :=
  slen kv.1 < 2 ^ 15 ∧ slen kv.2 < 2 ^ 31.

Lemma readInt_len n z rest :
  (0 < n)%nat → 0 ≤ z < 2 ^ (8 * Z.of_nat n - 1) →
  readInt n (be_bytes n (swrap (8 * Z.of_nat n) z) ++ rest) = Ret (z, rest).
Proof.
  intros Hn Hz. assert (in_int (8 * Z.of_nat n) z) by (unfold in_int; lia).
  rewrite swrap_id by (done || lia). by apply readInt_app.
Qed.

Lemma readInt_len16 z rest :
  0 ≤ z < 2 ^ 15 → readInt 2 (be_bytes 2 (int16 z) ++ rest) = Ret (z, rest).
Proof. intros. apply (readInt_len 2); [lia|done]. Qed.

Lemma readInt_len32 z rest :
  0 ≤ z < 2 ^ 31 → readInt 4 (be_bytes 4 (int32 z) ++ rest) = Ret (z, rest).
Proof. intros. apply (readInt_len 4); [lia|done]. Qed.

Lemma getExtFieldsData_app s rest :
  getExtFieldsData (bytes_of s ++ rest) (slen s) = Ret (s, rest).
Proof.
  unfold getExtFieldsData, makeLen, slen. pose proof (len_nonneg (bytes_of s)).
  rewrite decide_False by lia. simpl.
  rewrite readFull_len. simpl. by rewrite str_of_bytes_of.
Qed.

Lemma encodeEntry_nonempty kv : encodeEntry kv ≠ [].
Proof. destruct kv. simpl. done. Qed.

Lemma extLoop_entry fuel kv rest m :
  entry_ok kv →
  extLoop (S fuel) (encodeEntry kv ++ rest) m = extLoop fuel rest (<[kv.1 := kv.2]> m).
Proof.
  intros [Hk Hv]. destruct kv as [k v]. cbn [fst snd] in *.
  assert (0 ≤ slen k ∧ 0 ≤ slen v) by (unfold slen; split; apply len_nonneg).
  unfold encodeEntry. cbn [fst snd].
  set (b := (be_bytes 2 (int16 (slen k)) ++ _) ++ rest).
  replace (extLoop (S fuel) b m) with
    ('(kLen, b1) ← readInt 2 b; '(key, b2) ← getExtFieldsData b1 kLen;
     '(vLen, b3) ← readInt 4 b2; '(value, b4) ← getExtFieldsData b3 vLen;
     extLoop fuel b4 (<[key := value]> m)) by done.
  unfold b. rewrite <- !app_assoc.
  rewrite readInt_len16 by lia. cbn [mbind outcome_bind].
  rewrite getExtFieldsData_app. cbn [mbind outcome_bind].
  rewrite readInt_len32 by lia. cbn [mbind outcome_bind].
  by rewrite getExtFieldsData_app.
Qed.

Lemma extLoop_entries l fuel m :
  Forall entry_ok l → (length l ≤ fuel)%nat →
  extLoop fuel (concat (encodeEntry <$> l)) m = Ret (foldl (λ a '(k, v), <[k := v]> a) m l).
Proof.
  revert fuel m. induction l as [|[k v] l IH]; intros fuel m Hl Hf.
  - by destruct fuel.
  - inversion Hl; subst. destruct fuel as [|fuel]; [simpl in Hf; lia|].
    cbn [fmap list_fmap concat]. rewrite extLoop_entry by done.
    apply IH; [done|simpl in Hf; lia].
Qed.

Lemma length_concat_entries l : (length l ≤ length (concat (encodeEntry <$> l)))%nat.
Proof.
  induction l as [|kv l IH]; [done|].
  cbn [fmap list_fmap concat]. rewrite length_app.
  pose proof (encodeEntry_nonempty kv). destruct (encodeEntry kv); [done|]. simpl in *. lia.
Qed.

(** A command the private protocol can carry. *)
Record rmq_ok `{!MapRange string string} (c : RemotingCommand) : Prop := {
  ok_code : in_int 16 (Code c);
  ok_version : in_int 16 (Version c);
  ok_opaque : in_int 32 (Opaque c);
  ok_flag : in_int 32 (Flag c);
  ok_remark : slen (Remark c) < 2 ^ 31;
  ok_ext : len (encodeMaps (ExtFields c)) < 2 ^ 31;
  ok_entries : ∀ m k v, ExtFields c = Some m → m !! k = Some v → entry_ok (k, v)
}.

(** The header does not record the sender's language (it always says Go), an
    empty table reads back as nil, and the body travels outside the header. *)
Definition rmq_norm (c : RemotingCommand) : RemotingCommand :=
  mkCommand (Code c) lang_Go (Version c) (Opaque c) (Flag c) (Remark c)
    (m ← ExtFields c; if decide (m = ∅) then None else Some m) [].

Section rmq_roundtrip.
Context `{!MapRange string string}.

Lemma readFull_opt s rest :
  (if decide (0 < slen s)
   then '(d, b') ← readFull (Z.to_nat (slen s)) (bytes_of s ++ rest); Ret (str_of d, b')
   else Ret (EmptyString, bytes_of s ++ rest)) = Ret (s, rest).
Proof.
  unfold slen. rewrite readFull_len. cbn [mbind outcome_bind].
  rewrite str_of_bytes_of. case_decide as Hl; [done|]. unfold len in Hl.
  pose proof (str_of_bytes_of s) as Hs.
  destruct (bytes_of s); [by rewrite <- Hs|simpl in Hl; lia].
Qed.

Lemma encodeMaps_nil_inv (e : option (gmap string string)) :
  encodeMaps e = [] → (m ← e; if decide (m = ∅) then None else Some m) = None.
Proof.
  destruct e as [m|]; [|done]. simpl. case_decide as Hm; [done|].
  intros Hc. exfalso. apply Hm. apply map_empty. intros k.
  destruct (m !! k) as [v|] eqn:E; [|done].
  apply elem_of_range in E. destruct (range m) as [|kv l]; [by apply not_elem_of_nil in E|].
  cbn [fmap list_fmap concat] in Hc. apply app_nil in Hc as [Hc _].
  by apply encodeEntry_nonempty in Hc.
Qed.

Lemma extLoop_encodeMaps (e : option (gmap string string)) :
  encodeMaps e ≠ [] → (∀ m k v, e = Some m → m !! k = Some v → entry_ok (k, v)) →
  ∃ m, e = Some m ∧ m ≠ ∅ ∧
    extLoop (length (encodeMaps e)) (encodeMaps e) ∅ = Ret m.
Proof.
  destruct e as [m|]; [|done]. simpl. case_decide as Hm; [done|].
  intros _ Hok. exists m. split_and!; [done|done|].
  rewrite extLoop_entries.
  - by rewrite foldl_insert_range.
  - apply Forall_forall. intros [k v] Hkv. apply (Hok m); [done|].
    by apply elem_of_range.
  - apply length_concat_entries.
Qed.

Lemma read_ext (e : option (gmap string string)) :
  (∀ m k v, e = Some m → m !! k = Some v → entry_ok (k, v)) →
  (if decide (0 < len (encodeMaps e))
   then '(d, _) ← readFull (Z.to_nat (len (encodeMaps e))) (encodeMaps e);
        m ← extLoop (length d) d ∅; Ret (Some m)
   else Ret None) = Ret (m ← e; if decide (m = ∅) then None else Some m).
Proof.
  intros Hok. case_decide as Hl.
  - rewrite readFull_all. cbn [mbind outcome_bind].
    destruct (extLoop_encodeMaps e) as (m & -> & Hne & ->); [|done|].
    + intros Hn. rewrite Hn in Hl. done.
    + simpl. by rewrite decide_False.
  - rewrite encodeMaps_nil_inv; [done|]. unfold len in Hl.
    destruct (encodeMaps e); [done|simpl in Hl; lia].
Qed.

Lemma rmq_header_roundtrip c h :
  rmq_ok c → rmq_encodeHeader c = Ret h → rmq_decodeHeader h = Ret (rmq_norm c).
Proof.
  intros [Hc Hv Ho Hf Hr He Hes] Hh.
  apply (f_equal (λ o, match o with Ret x => x | _ => [] end)) in Hh.
  unfold rmq_encodeHeader in Hh. cbv beta iota zeta in Hh. subst h.
  pose proof (len_nonneg (bytes_of (Remark c))). pose proof (len_nonneg (encodeMaps (ExtFields c))).
  rewrite str_of_nil_remark, len_pos_or_nil. unfold rmq_decodeHeader.
  rewrite (int16_id (Code c)), (int16_id (Version c)) by done.
  rewrite (readInt_app 2) by (done || lia). cbn [mbind outcome_bind].
  rewrite (readFull_app_n 1) by apply length_be_bytes. cbn [mbind outcome_bind].
  rewrite (readInt_app 2) by (done || lia). cbn [mbind outcome_bind].
  rewrite (readInt_app 4) by (done || lia). cbn [mbind outcome_bind].
  rewrite (readInt_app 4) by (done || lia). cbn [mbind outcome_bind].
  rewrite readInt_len32 by (unfold slen in *; lia). cbn [mbind outcome_bind].
  rewrite readFull_opt. cbn [mbind outcome_bind].
  rewrite readInt_len32 by lia. cbn [mbind outcome_bind].
  by rewrite read_ext.
Qed.

#[export] Instance rmqCodec_ok : SerializerOk rmqCodec rmq_ok rmq_norm.
Proof. split; [apply rmq_header_roundtrip|done]. Qed.
End rmq_roundtrip.

(** ** Frames *)

Lemma byte_of_Z_congr a b : a mod 256 = b mod 256 → byte_of_Z a = byte_of_Z b.
Proof. unfold byte_of_Z. by intros ->. Qed.

(** The marked length is the 32-bit word [codec type | 24-bit length]. *)
Lemma markProtocolType_word ct n :
  0 ≤ n → markProtocolType ct n = be_bytes 4 (ct * 2 ^ 24 + n mod 2 ^ 24).
Proof.
  intros Hn. unfold markProtocolType, be_bytes. change 255 with (Z.ones 8).
  rewrite !Z.land_ones by lia. rewrite !Z.shiftr_div_pow2 by lia.
  repeat (apply f_equal2; [apply byte_of_Z_congr|]); [..|done];
    change (Z.of_nat 3) with 3; change (Z.of_nat 2) with 2;
    change (Z.of_nat 1) with 1; change (Z.of_nat 0) with 0;
    rewrite ?Z.pow_0_r, ?Z.div_1_r; Z.to_euclidean_division_equations; lia.
Qed.

Lemma decode_header_len ct n :
  0 ≤ ct < 128 → 0 ≤ n < 2 ^ 24 →
  Z.land (ct * 2 ^ 24 + n) 16777215 = n ∧ Z.land (Z.shiftr (ct * 2 ^ 24 + n) 24) 255 = ct.
Proof.
  intros. change 16777215 with (Z.ones 24). change 255 with (Z.ones 8).
  rewrite !Z.land_ones, Z.shiftr_div_pow2 by lia.
  split; Z.to_euclidean_division_equations; lia.
Qed.

Section frame_roundtrip.
Context (js rs : serializer).

(** Which serializer a codec type selects. *)
Definition selected (ct : Z) : serializer :=
  if decide (ct = JsonCodecs) then js else rs.

(** Reading the payload of a frame: everything after the size word. *)
Lemma decode_payload ct h body :
  ct = JsonCodecs ∨ ct = RocketMQCodecs →
  len h < 2 ^ 24 → 4 + len h + len body < 2 ^ 31 →
  decode js rs (markProtocolType ct (int32 (len h)) ++ h ++ body) =
  (c ← decodeHeader (selected ct) h;
   if decide (0 < len body) then Ret (set_body body c) else Ret c).
Proof.
  intros Hct Hh Hb. pose proof (len_nonneg h). pose proof (len_nonneg body).
  rewrite (int32_id (len h)) by lia.
  rewrite markProtocolType_word by lia. rewrite (Z.mod_small (len h)) by lia.
  assert (0 ≤ ct < 128) by (unfold JsonCodecs, RocketMQCodecs in Hct; lia).
  destruct (decode_header_len ct (len h)) as [E1 E2]; [lia..|].
  unfold decode. rewrite !len_app, len_be_bytes.
  rewrite (readInt_app 4) by (unfold in_int; lia || lia). cbn [mbind outcome_bind].
  rewrite E1, E2. unfold makeLen. rewrite decide_False by lia. cbn [mbind outcome_bind].
  rewrite readFull_len. cbn [mbind outcome_bind].
  rewrite (int32_id (Z.of_nat 4 + (len h + len body))) by lia.
  rewrite (int32_id (Z.of_nat 4 + (len h + len body) - 4)) by lia.
  replace (Z.of_nat 4 + (len h + len body) - 4 - len h) with (len body) by lia.
  rewrite int32_id by lia.
  unfold selected. destruct Hct as [-> | ->]; simpl;
    destruct (decodeHeader _ h); simpl; try done;
    case_decide; rewrite ?readFull_all; done.
Qed.

(** [encode] as a frame: size word, marked header length, header, body. *)
Lemma encode_frame ct c f :
  ct = JsonCodecs ∨ ct = RocketMQCodecs → encode js rs ct c = Ret f →
  ∃ h, encodeHeader (selected ct) c = Ret h ∧
    f = be_bytes 4 (int32 (4 + len h + len (Body c))) ++
        markProtocolType ct (int32 (len h)) ++ h ++ Body c.
Proof.
  unfold encode, headerOf, selected. intros [-> | ->] H; simpl in H;
    apply bind_ret_inv in H as (h & Hh & [= <-]); eauto.
Qed.

(** A written frame is a size word and a payload of that size, which decodes to
    the command. *)
Lemma frame_roundtrip ok norm ct c f :
  ct = JsonCodecs ∨ ct = RocketMQCodecs →
  SerializerOk (selected ct) ok norm →
  ok c → encode js rs ct c = Ret f →
  len f < 4 + 2 ^ 31 → len f < 8 + 2 ^ 24 + len (Body c) →
  ∃ payload, f = be_bytes 4 (len payload) ++ payload ∧ 0 < len payload < 2 ^ 31 ∧
    decode js rs payload = Ret (set_body (Body c) (norm c)).
Proof.
  intros Hct [Hser Hbody] Hok Hf Hl1 Hl2.
  apply encode_frame in Hf as (h & Hh & ->); [|done].
  rewrite !len_app, len_be_bytes in Hl1, Hl2.
  change (len (markProtocolType _ _)) with 4 in Hl1, Hl2.
  pose proof (len_nonneg h). pose proof (len_nonneg (Body c)).
  exists (markProtocolType ct (int32 (len h)) ++ h ++ Body c).
  assert (Hlen : len (markProtocolType ct (int32 (len h)) ++ h ++ Body c) = 4 + len h + len (Body c)).
  { rewrite !len_app. change (len (markProtocolType _ _)) with 4. lia. }
  rewrite Hlen, int32_id by lia. split; [done|]. split; [lia|].
  rewrite decode_payload by (done || lia).
  rewrite (Hser c h Hok Hh). cbn [mbind outcome_bind]. case_decide as Hb; [done|].
  pose proof (Hbody c) as Hn. destruct (norm c). simpl in *. subst.
  destruct (Body c) as [|b l] eqn:E; [done|]. unfold len in Hb. simpl in Hb. lia.
Qed.
End frame_roundtrip.

(** C1: A frame read by the peer is the command that was written: for either
    codec type and any serializer that round-trips headers, [decode] applied to
    what [encode] wrote after the size word returns the command (up to the
    serializer's normal form, with the body restored), whenever the header fits
    the 24-bit and the frame the 31-bit length field. *)
Theorem decode_encode (js rs : serializer) ok norm ct c f :
  ct = JsonCodecs ∨ ct = RocketMQCodecs →
  SerializerOk (selected js rs ct) ok norm →
  ok c → encode js rs ct c = Ret f →
  len f < 4 + 2 ^ 31 → len f < 8 + 2 ^ 24 + len (Body c) →
  decode js rs (drop 4 f) = Ret (set_body (Body c) (norm c)).
Proof.
  intros Hct Hser Hok Hf Hl1 Hl2.
  destruct (frame_roundtrip js rs ok norm ct c f Hct Hser Hok Hf Hl1 Hl2) as (payload & -> & _ & Hd).
  by rewrite drop_app_length' by (by rewrite length_be_bytes).
Qed.

(** ** Writing to a stream *)

(** The writer of [bytes.Buffer]: it appends and never fails. *)
Definition bufWrite (w b : bytes) : bytes * option error := (w ++ b, None).

(** [EncodeTo] and [encode] produce the same frame: writing a command to a
    buffer appends exactly the bytes [encode] returns, and when one fails (or
    panics) so does the other, leaving the buffer as it was. *)
Theorem EncodeTo_encode (js rs : serializer) ct c w :
  EncodeTo js rs bufWrite ct c w =
  match encode js rs ct c with
  | Ret f => (w ++ f, Ret tt)
  | Fail e => (w, Fail e)
  | Panic s => (w, Panic s)
  end.
Proof.
  unfold EncodeTo, encode. destruct (headerOf js rs ct c); simpl; [|done..].
  by rewrite <- !app_assoc.
Qed.

(** ** Totality and the panic of a malformed table *)

(** The loop never stops for lack of fuel. *)
Lemma extLoop_fuel fuel buf m :
  (length buf ≤ fuel)%nat → extLoop fuel buf m ≠ Panic "out of fuel".
Proof.
  revert buf m. induction fuel as [|fuel IH]; intros buf m Hl.
  - destruct buf; [done|simpl in Hl; lia].
  - destruct buf as [|b0 buf0] eqn:Eb; [done|]. rewrite <- Eb in *. clear b0 buf0 Eb.
    replace (extLoop (S fuel) buf m) with (extLoop (S fuel) buf m) by done.
    cbn [extLoop]. destruct buf as [|b0 buf0] eqn:Eb; [done|]. rewrite <- Eb in *.
    unfold readInt, getExtFieldsData, makeLen.
    destruct (readFull 2 buf) as [[kb b1]|e|s] eqn:E1; simpl; [|done|by apply readFull_no_panic in E1].
    apply readFull_ret in E1 as [-> Hk].
    case_decide; simpl; [done|].
    destruct (readFull _ b1) as [[k b2]|e|s] eqn:E2; simpl; [|done|by apply readFull_no_panic in E2].
    apply readFull_ret in E2 as [-> _].
    destruct (readFull 4 b2) as [[vb b3]|e|s] eqn:E3; simpl; [|done|by apply readFull_no_panic in E3].
    apply readFull_ret in E3 as [-> _].
    case_decide; simpl; [done|].
    destruct (readFull _ b3) as [[v b4]|e|s] eqn:E4; simpl; [|done|by apply readFull_no_panic in E4].
    apply readFull_ret in E4 as [-> _].
    apply IH. rewrite !length_app in Hl. lia.
Qed.

Definition no_fuel_panic {A} (m : outcome A) : Prop := m ≠ Panic "out of fuel".

Lemma bind_no_fuel {A B} (m : outcome A) (f : A → outcome B) :
  no_fuel_panic m → (∀ a, no_fuel_panic (f a)) → no_fuel_panic (m ≫= f).
Proof. unfold no_fuel_panic. destruct m; simpl; [auto|done|congruence]. Qed.

Lemma readFull_no_fuel n b : no_fuel_panic (readFull n b).
Proof. apply readFull_no_panic. Qed.

Lemma readInt_no_fuel n b : no_fuel_panic (readInt n b).
Proof. apply bind_no_fuel; [apply readFull_no_fuel|by intros []]. Qed.

#[local] Hint Resolve readFull_no_fuel readInt_no_fuel : exporter.

(** The header parser terminates on every input: the fuel the model gives
    the table loop (the table's length in bytes) is always enough. *)
Theorem rmq_decodeHeader_total data : rmq_decodeHeader data ≠ Panic "out of fuel".
Proof.
  change (no_fuel_panic (rmq_decodeHeader data)). unfold rmq_decodeHeader.
  repeat first
    [ progress intros
    | match goal with
      | |- no_fuel_panic (let '(_, _) := ?p in _) => destruct p
      | |- no_fuel_panic (match ?p with (_, _) => _ end) => destruct p
      | |- no_fuel_panic (if ?b then _ else _) => destruct b
      | |- no_fuel_panic (Ret _) => done
      | |- no_fuel_panic (extLoop _ _ _) => by apply extLoop_fuel
      | |- no_fuel_panic (_ ≫= _) => apply bind_no_fuel
      end
    | solve [auto with exporter] ].
Qed.

(** *** What the parser can return *)

Lemma readInt_inv n buf z rest :
  (0 < n)%nat → readInt n buf = Ret (z, rest) → in_int (8 * Z.of_nat n) z ∧ len buf = Z.of_nat n + len rest.
Proof.
  intros Hn H. unfold readInt in H. apply bind_ret_inv in H as ([d r] & Hd & [= <- <-]).
  apply readFull_ret in Hd as [-> Hl]. rewrite len_app. unfold get_int, len. rewrite Hl.
  split; [apply swrap_range; lia|done].
Qed.

Lemma getExtFieldsData_inv buf n s rest :
  getExtFieldsData buf n = Ret (s, rest) → slen s = n ∧ len buf = n + len rest.
Proof.
  unfold getExtFieldsData, makeLen. case_decide as Hn; [done|]. cbn [mbind outcome_bind]. intros H.
  apply bind_ret_inv in H as ([d r] & Hd & [= <- <-]). apply readFull_ret in Hd as [-> Hl].
  rewrite len_app. unfold slen, len. rewrite bytes_of_str_of, Hl. lia.
Qed.

Definition entriesLen (l : list (string * string)) : Z := len (concat (encodeEntry <$> l)).

Lemma len_encodeEntry k v : len (encodeEntry (k, v)) = 6 + slen k + slen v.
Proof. unfold encodeEntry. rewrite !len_app, !len_be_bytes. unfold slen. simpl. lia. Qed.

Lemma entriesLen_cons kv l : entriesLen (kv :: l) = len (encodeEntry kv) + entriesLen l.
Proof. unfold entriesLen. by rewrite fmap_cons, <- len_app. Qed.

#[local] Instance entriesLen_proper : Proper ((≡ₚ) ==> (=)) entriesLen.
Proof. induction 1; rewrite ?entriesLen_cons; lia. Qed.

(** Storing an entry adds at most its own length. *)
Lemma entriesLen_insert (m : gmap string string) k v :
  entriesLen (map_to_list (<[k := v]> m)) ≤ len (encodeEntry (k, v)) + entriesLen (map_to_list m).
Proof.
  rewrite <- insert_delete_eq, map_to_list_insert, entriesLen_cons by apply lookup_delete_eq.
  destruct (m !! k) as [v'|] eqn:E.
  - rewrite <- (map_to_list_delete m k v' E), entriesLen_cons. pose proof (len_nonneg (encodeEntry (k, v'))). lia.
  - by rewrite delete_id.
Qed.

(** Every entry of the table has lengths the format can carry, and writing the
    table takes no more bytes than were read. *)
Lemma extLoop_ok fuel buf m m' :
  extLoop fuel buf m = Ret m' → map_Forall (λ k v, entry_ok (k, v)) m →
  map_Forall (λ k v, entry_ok (k, v)) m' ∧ entriesLen (map_to_list m') ≤ len buf + entriesLen (map_to_list m).
Proof.
  revert buf m. induction fuel as [|fuel IH]; intros [|b0 buf0] m H Hm; cbn [extLoop] in H; try done.
  1, 2: injection H as <-; split; [done|unfold len; simpl; lia].
  apply bind_ret_inv in H as ([kLen b1] & [Hk L1]%readInt_inv & H); [|lia].
  apply bind_ret_inv in H as ([key b2] & [Lk L2]%getExtFieldsData_inv & H).
  apply bind_ret_inv in H as ([vLen b3] & [Hv L3]%readInt_inv & H); [|lia].
  apply bind_ret_inv in H as ([value b4] & [Lv L4]%getExtFieldsData_inv & H).
  unfold in_int in Hk, Hv. simpl in Hk, Hv.
  destruct (IH b4 (<[key := value]> m) H) as [H1 H2].
  { apply map_Forall_insert_2; [|done]. unfold entry_ok. cbn [fst snd]. lia. }
  split; [done|]. pose proof (entriesLen_insert m key value) as Hi. rewrite len_encodeEntry in Hi. lia.
Qed.

Lemma readExt_ok `{!MapRange string string} n b ext :
  (if decide (0 < n)
   then '(d, _) ← readFull (Z.to_nat n) b; m ← extLoop (length d) d ∅; Ret (Some m)
   else Ret None) = Ret ext → n < 2 ^ 31 →
  len (encodeMaps ext) < 2 ^ 31 ∧ ∀ m k v, ext = Some m → m !! k = Some v → entry_ok (k, v).
Proof.
  case_decide as Hn; [|intros [= <-] _; by split]. intros H Hlt.
  apply bind_ret_inv in H as ([d r] & [-> Hd]%readFull_ret & H). apply bind_ret_inv in H as (m & Hm & [= <-]).
  apply extLoop_ok in Hm as [He Hl]; [|apply map_Forall_empty]. rewrite map_to_list_empty in Hl.
  split; [|intros ? k v [= <-]; apply He]. unfold encodeMaps. case_decide; [done|].
  fold (entriesLen (range m)). rewrite range_perm. change (entriesLen []) with 0 in Hl. unfold len in *. lia.
Qed.

(** C31: the header parser's result is well typed, whatever the peer sent: code
    and version are 16-bit, opaque and flag 32-bit integers, the language is a
    byte, remark, keys, values and the whole table have lengths their fields can
    carry; so every header that parses can be written again and then reads back
    as the same command. *)
Theorem rmq_decodeHeader_typed `{!MapRange string string} data c :
  rmq_decodeHeader data = Ret c →
  rmq_ok c ∧ 0 ≤ Language c < 2 ^ 8 ∧ Body c = [] ∧
  ∃ h, rmq_encodeHeader c = Ret h ∧ rmq_decodeHeader h = Ret (rmq_norm c).
Proof.
  intros H. assert (rmq_ok c ∧ 0 ≤ Language c < 2 ^ 8 ∧ Body c = []) as (Hok & Hl & Hb).
  { unfold rmq_decodeHeader in H.
    apply bind_ret_inv in H as ([code b1] & [Hcode _]%readInt_inv & H); [|lia].
    apply bind_ret_inv in H as ([l b2] & [-> Hl]%readFull_ret & H).
    apply bind_ret_inv in H as ([version b3] & [Hver _]%readInt_inv & H); [|lia].
    apply bind_ret_inv in H as ([opq b4] & [Hopq _]%readInt_inv & H); [|lia].
    apply bind_ret_inv in H as ([flag b5] & [Hflag _]%readInt_inv & H); [|lia].
    apply bind_ret_inv in H as ([rlen b6] & [Hrlen _]%readInt_inv & H); [|lia].
    apply bind_ret_inv in H as ([remark b7] & Hremark & H).
    apply bind_ret_inv in H as ([elen b8] & [Helen _]%readInt_inv & H); [|lia].
    apply bind_ret_inv in H as (ext & Hext & [= <-]).
    unfold in_int in *. simpl in *. apply readExt_ok in Hext as [He1 He2]; [|lia].
    assert (slen remark < 2 ^ 31) as Hr.
    { destruct (decide (0 < rlen)) as [Hp|Hp]; [|by simplify_eq].
      apply bind_ret_inv in Hremark as ([d r] & [-> Hd]%readFull_ret & [= <- <-]).
      unfold slen, len. rewrite bytes_of_str_of, Hd. lia. }
    split; [by split|]. split; [|done]. pose proof (be_val_range l) as Hv. unfold len in Hv. by rewrite Hl in Hv. }
  split; [done|]. split; [done|]. split; [done|]. eexists. split; [done|].
  apply (rmq_header_roundtrip c); done.
Qed.

(** The input ended early. *)
Definition is_eof {A} (m : outcome A) : Prop := m = Fail EEOF ∨ m = Fail EUnexpectedEOF.

Lemma is_eof_bind {A B} (m : outcome A) (f : A → outcome B) : is_eof m → is_eof (m ≫= f).
Proof. unfold is_eof. intros [-> | ->]; simpl; auto. Qed.

Lemma readFull_short n buf : (length buf < n)%nat → is_eof (readFull n buf).
Proof.
  intros. unfold readFull, is_eof. rewrite decide_False by lia. case_decide; auto.
Qed.

(** A payload cut short before the end of its header is rejected with one
    of the two end-of-input errors, never decoded: no partial command. *)
Theorem decode_truncated (js rs : serializer) ct h body n :
  0 ≤ ct < 128 → len h < 2 ^ 24 → (n < 4 + length h)%nat →
  is_eof (decode js rs (take n (markProtocolType ct (int32 (len h)) ++ h ++ body))).
Proof.
  intros Hct Hh Hn. pose proof (len_nonneg h).
  rewrite (int32_id (len h)) by lia.
  rewrite markProtocolType_word by lia. rewrite (Z.mod_small (len h)) by lia.
  destruct (decode_header_len ct (len h)) as [E1 E2]; [lia..|]. unfold decode.
  destruct (decide (n < 4)%nat) as [Hs|Hs].
  - do 2 apply is_eof_bind. apply readFull_short.
    rewrite length_take. lia.
  - rewrite take_app_ge by (rewrite length_be_bytes; lia). rewrite length_be_bytes.
    rewrite (readInt_app 4) by (unfold in_int; lia || lia).
    cbn [mbind outcome_bind]. rewrite E1. unfold makeLen. rewrite decide_False by lia.
    cbn [mbind outcome_bind]. apply is_eof_bind, readFull_short.
    rewrite length_take. unfold len. lia.
Qed.

(** A header whose table announces a key of length -1. *)
Definition negative_key_header : bytes :=
  be_bytes 2 0 ++ be_bytes 1 0 ++ be_bytes 2 317 ++ be_bytes 4 1 ++ be_bytes 4 1 ++
  be_bytes 4 0 ++ be_bytes 4 2 ++ be_bytes 2 (-1).

(** A malformed response can panic the reader: [getExtFieldsData] allocates
    a buffer of the announced length without checking its sign, so a private
    protocol header with a key length of -1 makes [decode] panic rather than
    return an error, whatever the JSON serializer. *)
Theorem decode_negative_key_panics (js : serializer) :
  ∀ `{!MapRange string string},
  decode js rmqCodec
    (markProtocolType RocketMQCodecs (len negative_key_header) ++ negative_key_header) =
  Panic "makeslice: len out of range".
Proof. intros. reflexivity. Qed.

(** ** Request identifiers *)

Fixpoint opaqueAfter (n : nat) (opaque : Z) : Z :=
  match n with
  | O => opaque
  | S n' => (NewRemotingCommand 0 None [] (opaqueAfter n' opaque)).2
  end.

Lemma opaqueAfter_eq n o : in_int 32 o → opaqueAfter n o = int32 (o + Z.of_nat n).
Proof.
  intros Ho. induction n as [|n IH]; cbn [opaqueAfter].
  - rewrite Z.add_0_r. symmetry. by apply swrap_id.
  - cbn [NewRemotingCommand snd]. rewrite IH. unfold int32. rewrite swrap_add_l by lia.
    f_equal. lia.
Qed.

(** Identifiers are reused only after 2^32 requests: two commands created
    fewer than 2^32 creations apart carry different [Opaque] values, although
    the 32-bit counter wraps around. *)
Theorem opaque_distinct (o : Z) (i j : nat) :
  in_int 32 o → (i < j)%nat → Z.of_nat j - Z.of_nat i < 2 ^ 32 →
  opaqueAfter i o ≠ opaqueAfter j o.
Proof.
  intros Ho Hij Hd. rewrite !opaqueAfter_eq by done.
  unfold int32, swrap. intros E.
  assert ((o + Z.of_nat i + 2 ^ (32 - 1)) mod 2 ^ 32 = (o + Z.of_nat j + 2 ^ (32 - 1)) mod 2 ^ 32)
    as E' by lia.
  clear E. Z.to_euclidean_division_equations. lia.
Qed.

(** The language of a Java peer is not recognised: a JSON header says
    JAVA between quotes, which [UnmarshalJSON] maps to the unknown
    language, while the Go spelling is accepted with and without quotes. *)
Theorem unmarshal_quoted_language :
  LanguageCode_UnmarshalJSON (quoted "JAVA") = lang_Unknown ∧
  LanguageCode_UnmarshalJSON (bytes_of "JAVA") = lang_Java ∧
  ∀ lc, LanguageCode_UnmarshalJSON (LanguageCode_MarshalJSON lc) = lang_Go.
Proof. split_and!; reflexivity. Qed.

(** ** Witnesses *)

Definition sample_command : RemotingCommand :=
  mkCommand 105 lang_Go 317 7 0 "hi" (Some {["topic" := "TopicTest"]}) (bytes_of "body").

Lemma sample_command_ok : @rmq_ok std_range sample_command.
Proof.
  split; [by vm_compute..|].
  intros m k v [= <-] Hk. apply lookup_singleton_Some in Hk as [<- <-]. by vm_compute.
Qed.

Definition sample_frame : bytes :=
  match encode (@rmqCodec std_range) (@rmqCodec std_range) RocketMQCodecs sample_command with
  | Ret f => f | _ => [] end.

Lemma decode_encode_witness :
  decode (@rmqCodec std_range) (@rmqCodec std_range) (drop 4 sample_frame) =
  Ret (set_body (bytes_of "body") (rmq_norm sample_command)).
Proof.
  apply (decode_encode (@rmqCodec std_range) (@rmqCodec std_range)
           (@rmq_ok std_range) rmq_norm RocketMQCodecs sample_command sample_frame).
  - by right.
  - exact (@rmqCodec_ok std_range).
  - exact sample_command_ok.
  - vm_compute. reflexivity.
  - by vm_compute.
  - by vm_compute.
Defined.

Lemma decode_truncated_witness :
  is_eof (decode (@rmqCodec std_range) (@rmqCodec std_range)
    (take 6 (markProtocolType 0 (int32 (len (bytes_of "header"))) ++ bytes_of "header" ++ []))).
Proof.
  apply (decode_truncated _ _ 0 (bytes_of "header") [] 6); [lia|by vm_compute|simpl; lia].
Defined.

Lemma opaque_distinct_witness : opaqueAfter 0 (2 ^ 31 - 1) ≠ opaqueAfter 1 (2 ^ 31 - 1).
Proof. apply (opaque_distinct (2 ^ 31 - 1) 0 1); [unfold in_int; lia|lia|lia]. Defined.

(** A table that gives one key twice. *)
Definition double_key_header : bytes :=
  be_bytes 2 (-1) ++ be_bytes 1 200 ++ be_bytes 2 317 ++ be_bytes 4 1 ++ be_bytes 4 1 ++
  be_bytes 4 0 ++ be_bytes 4 14 ++ be_bytes 2 1 ++ [x61] ++ be_bytes 4 0 ++ be_bytes 2 1 ++ [x61] ++ be_bytes 4 0.

Lemma rmq_decodeHeader_typed_witness :
  ∃ c, rmq_decodeHeader double_key_header = Ret c ∧ Code c = -1 ∧ Language c = 200 ∧ @rmq_ok std_range c.
Proof.
  eexists. split; [vm_compute; reflexivity|]. split; [reflexivity|]. split; [reflexivity|].
  apply (@rmq_decodeHeader_typed std_range double_key_header). vm_compute. reflexivity.
Defined.
