(* ===== verification/FastJson.v ===== *)
(** * Normalising fastjson bodies: internal/rmqremote/fastjson.go

    The broker writes map keys that are numbers or objects without quotes.
    [normalizeKeys] quotes them; it is modelled as the step function of its
    loop ([normStep]) iterated with fuel.  The suffix [b[i:]] of the input plays
    the part of the index [i]. *)

From Stdlib Require Import ZArith Lia.
From S2P Require Import Prelude.

Set Warnings "-register-all,-clear-no-such-hyp".

Infix "=b?" := Byte.eqb (at level 70).

Definition bQuote : byte := x22.
Definition bSlash : byte := x5c.
Definition bColon : byte := x3a.
Definition bComma : byte := x2c.
Definition bLBrace : byte := x7b.
Definition bRBrace : byte := x7d.
Definition bLBrack : byte := x5b.
Definition bRBrack : byte := x5d.

(** ** Scanners *)

(** The longest prefix of bytes that satisfy [P], and what follows it. *)
Fixpoint span (P : byte → bool) (b : bytes) : bytes * bytes :=
  match b with
  | [] => ([], [])
  | c :: b' => if P c then let '(t, r) := span P b' in (c :: t, r) else ([], b)
  end.

Definition isDigitB (c : byte) : bool := (48 <=? u8 c) && (u8 c <=? 57).
Definition isLowerB (c : byte) : bool := (97 <=? u8 c) && (u8 c <=? 122).

Definition isNumByte (c : byte) : bool :=
  (c =b? x2e) || (c =b? x65) || (c =b? x45) || (c =b? x2b) || (c =b? x2d) || isDigitB c.

Definition scanNumber (b : bytes) : bytes * bytes :=
  match b with
  | c :: b' =>
      if c =b? x2d then let '(t, r) := span isNumByte b' in (c :: t, r)
      else span isNumByte b
  | [] => span isNumByte b
  end.

Definition scanKeyword (b : bytes) : bytes * bytes := span isLowerB b.

(** The loop of [captureValue]; [None] when the input ends first. *)
Fixpoint captureLoop (op cl : byte) (depth : Z) (inStr esc : bool) (b : bytes)
    : option (bytes * bytes) :=
  match b with
  | [] => None
  | c :: b' =>
      let next d i e :=
        match captureLoop op cl d i e b' with
        | Some (t, r) => Some (c :: t, r)
        | None => None
        end in
      if inStr then
        if esc then next depth true false
        else if c =b? bSlash then next depth true true
        else if c =b? bQuote then next depth false esc
        else next depth true esc
      else if c =b? bQuote then next depth true esc
      else if c =b? op then next (depth + 1) false esc
      else if c =b? cl then
        if depth - 1 =? 0 then Some ([c], b') else next (depth - 1) false esc
      else next depth false esc
  end.

Definition captureValue (b : bytes) : option (bytes * bytes) :=
  match b with
  | [] => None
  | op :: _ => captureLoop op (if op =b? bLBrack then bRBrack else bRBrace) 0 false false b
  end.

(** [strings.ReplaceAll] of one byte, on bytes. *)
Fixpoint replaceByte (old : byte) (new b : bytes) : bytes :=
  match b with
  | [] => []
  | c :: b' => if c =b? old then new ++ replaceByte old new b' else c :: replaceByte old new b'
  end.

Definition escapeForString (token : bytes) : bytes :=
  replaceByte bQuote [bSlash; bQuote] (replaceByte bSlash [bSlash; bSlash] token).

(** ** The state machine *)

Inductive pstate : Type := pExpectKey | pExpectColon | pExpectValue | pAfterValue.

(** The stack holds the letter o for an object and a for an array. *)
Record nstate : Type := mkN { stack : bytes; st : pstate; inString : bool; escaped : bool }.

Definition topKind (stk : bytes) : byte := match stk with [] => x00 | k :: _ => k end.

(** One turn of the loop of [normalizeKeys] on the byte [c], with [b'] after it:
    the bytes it emits, and the state and suffix it goes on with ([None]: it
    returned from the function). *)
Definition normStep (s : nstate) (c : byte) (b' : bytes) : bytes * option (nstate * bytes) :=
  let stk := stack s in
  if inString s then
    ([c], Some
      (if escaped s then mkN stk (st s) true false
       else if c =b? bSlash then mkN stk (st s) true true
       else if c =b? bQuote then
         mkN stk (match st s with
                  | pExpectKey => pExpectColon
                  | pExpectValue => pAfterValue
                  | x => x
                  end) false (escaped s)
       else mkN stk (st s) true (escaped s), b'))
  else if (c =b? x20) || (c =b? x09) || (c =b? x0a) || (c =b? x0d) then ([c], Some (s, b'))
  else if c =b? bQuote then ([c], Some (mkN stk (st s) true (escaped s), b'))
  else if c =b? bColon then ([c], Some (mkN stk pExpectValue false (escaped s), b'))
  else if (c =b? bLBrace) || (c =b? bLBrack) then
    match st s with
    | pExpectKey =>
        match captureValue (c :: b') with
        | None => (c :: b', None)
        | Some (token, rest) =>
            (bQuote :: escapeForString token ++ [bQuote],
             Some (mkN stk pExpectColon false (escaped s), rest))
        end
    | _ =>
        if c =b? bLBrace
        then ([c], Some (mkN (x6f :: stk) pExpectKey false (escaped s), b'))
        else ([c], Some (mkN (x61 :: stk) pExpectValue false (escaped s), b'))
    end
  else if (c =b? bRBrace) || (c =b? bRBrack) then
    ([c], Some (mkN (tail stk) pAfterValue false (escaped s), b'))
  else if c =b? bComma then
    ([c], Some (mkN stk (if topKind stk =b? x6f then pExpectKey else pExpectValue)
                  false (escaped s), b'))
  else if (c =b? x74) || (c =b? x66) || (c =b? x6e) then
    let '(token, rest) := scanKeyword (c :: b') in
    (token, Some (mkN stk pAfterValue false (escaped s), rest))
  else if (c =b? x2d) || isDigitB c then
    let '(token, rest) := scanNumber (c :: b') in
    match st s with
    | pExpectKey =>
        (bQuote :: token ++ [bQuote], Some (mkN stk pExpectColon false (escaped s), rest))
    | _ => (token, Some (mkN stk pAfterValue false (escaped s), rest))
    end
  else ([c], Some (s, b')).

(** The [for] loop; [None] when the fuel runs out. *)
Fixpoint normLoop (fuel : nat) (s : nstate) (b : bytes) : option bytes :=
  match b with
  | [] => Some []
  | c :: b' =>
      match fuel with
      | O => None
      | S fuel' =>
          match normStep s c b' with
          | (e, None) => Some e
          | (e, Some (s', r)) => app e <$> normLoop fuel' s' r
          end
      end
  end.

Definition normInit : nstate := mkN [] pExpectValue false false.

Definition normalizeKeys (b : bytes) : option bytes := normLoop (length b) normInit b.

(** ** Termination *)

Lemma span_app P b t r : span P b = (t, r) → b = t ++ r.
Proof.
  revert t r. induction b as [|c b IH]; simpl; intros t r; [by intros [= <- <-]|].
  destruct (P c); [|by intros [= <- <-]].
  destruct (span P b) as [t' r']. intros [= <- <-]. simpl. by rewrite (IH t' r').
Qed.

Lemma span_all P t r :
  Forall (λ c, P c = true) t → match r with c :: _ => P c = false | [] => True end →
  span P (t ++ r) = (t, r).
Proof.
  induction 1 as [|c t Hc _ IH]; intros Hr; simpl.
  - destruct r as [|c r]; simpl; [done|by rewrite Hr].
  - rewrite Hc, IH; done.
Qed.

Lemma captureLoop_app op cl d i e b t r :
  captureLoop op cl d i e b = Some (t, r) → b = t ++ r ∧ t ≠ [].
Proof.
  revert d i e t r. induction b as [|c b IH]; intros d i e t r; [done|].
  cbn [captureLoop].
  assert (∀ d' i' e', match captureLoop op cl d' i' e' b with
      | Some (t0, r0) => Some (c :: t0, r0) | None => None end = Some (t, r) →
      c :: b = t ++ r ∧ t ≠ []) as Hn.
  { intros d' i' e'. destruct (captureLoop op cl d' i' e' b) as [[t0 r0]|] eqn:E; [|done].
    intros [= <- <-]. apply IH in E as [-> _]. done. }
  repeat match goal with |- context [if ?x then _ else _] => destruct x end;
    eauto; intros; by simplify_eq.
Qed.

Lemma captureValue_app b t r : captureValue b = Some (t, r) → b = t ++ r ∧ t ≠ [].
Proof. destruct b; [done|]. apply captureLoop_app. Qed.

Lemma cons_app_shrinks {A} (c : A) b' t r :
  c :: b' = t ++ r → t ≠ [] → (length r ≤ length b')%nat.
Proof.
  destruct t as [|x t]; [done|]. intros E _. simplify_eq/=. rewrite length_app. lia.
Qed.

Lemma span_head_nonempty P c b t r : P c = true → span P (c :: b) = (t, r) → t ≠ [].
Proof. simpl. intros ->. destruct (span P b). by intros [= <- <-]. Qed.

Lemma scanNumber_app b t r : scanNumber b = (t, r) → b = t ++ r.
Proof.
  unfold scanNumber. destruct b as [|c b]; [apply span_app|].
  destruct (c =b? x2d); [|apply span_app].
  destruct (span isNumByte b) as [t' r'] eqn:E. apply span_app in E.
  intros [= <- <-]. simpl. congruence.
Qed.

Lemma scanNumber_nonempty c b t r :
  (c =b? x2d) || isDigitB c = true → scanNumber (c :: b) = (t, r) → t ≠ [].
Proof.
  unfold scanNumber. destruct (c =b? x2d) eqn:E; simpl; intros Hd.
  - destruct (span isNumByte b). by intros [= <- <-].
  - apply span_head_nonempty. unfold isNumByte. rewrite Hd. by rewrite orb_true_r.
Qed.

Lemma keyword_head_lower c :
  (c =b? x74) || (c =b? x66) || (c =b? x6e) = true → isLowerB c = true.
Proof. by destruct c. Qed.

(** Every turn of the loop consumes at least one byte. *)
Lemma normStep_shrinks s c b' e s' r :
  normStep s c b' = (e, Some (s', r)) → (length r ≤ length b')%nat.
Proof.
  unfold normStep. intros H. repeat (case_match; simplify_eq; try done);
    match goal with
    | E : captureValue _ = Some _ |- _ =>
        apply captureValue_app in E as [E Hne]; by eapply cons_app_shrinks
    | E : scanKeyword _ = _ |- _ =>
        eapply cons_app_shrinks; [by eapply span_app|];
        eapply span_head_nonempty, E; by apply keyword_head_lower
    | E : scanNumber _ = _ |- _ =>
        eapply cons_app_shrinks; [by eapply scanNumber_app|];
        by eapply scanNumber_nonempty
    end.
Qed.

Lemma normLoop_fuel f g s b :
  (length b ≤ f)%nat → (length b ≤ g)%nat → normLoop f s b = normLoop g s b.
Proof.
  revert g s b. induction f as [|f IH]; intros g s b Hf Hg.
  - destruct b; [by destruct g|simpl in Hf; lia].
  - destruct b as [|c b']; [by destruct g|]. destruct g as [|g]; [simpl in Hg; lia|].
    cbn [normLoop]. destruct (normStep s c b') as [e [[s' r]|]] eqn:E; [|done].
    apply normStep_shrinks in E. simpl in *. f_equal. apply IH; lia.
Qed.

(** The loop with exactly enough fuel. *)
Definition run (s : nstate) (b : bytes) : option bytes := normLoop (length b) s b.

Lemma run_nil s : run s [] = Some [].
Proof. done. Qed.

Lemma run_cons s c b' :
  run s (c :: b') =
  match normStep s c b' with
  | (e, None) => Some e
  | (e, Some (s', r)) => app e <$> run s' r
  end.
Proof.
  unfold run. cbn [length normLoop].
  destruct (normStep s c b') as [e [[s' r]|]] eqn:E; [|done].
  apply normStep_shrinks in E. f_equal. apply normLoop_fuel; lia.
Qed.

Lemma normLoop_total f s b : (length b ≤ f)%nat → is_Some (normLoop f s b).
Proof.
  revert s b. induction f as [|f IH]; intros s [|c b'] Hf; simpl in Hf; try lia; [done..|].
  cbn [normLoop]. destruct (normStep s c b') as [e [[s' r]|]] eqn:E; [|done].
  apply normStep_shrinks in E. apply fmap_is_Some, IH. lia.
Qed.

(** Run with a known prefix of the input consumed. *)
Lemma run_step s c b' e s' r :
  normStep s c b' = (e, Some (s', r)) → run s (c :: b') = app e <$> run s' r.
Proof. intros E. by rewrite run_cons, E. Qed.

Lemma fmap_app_app (a b : bytes) (o : option bytes) :
  app a <$> (app b <$> o) = app (a ++ b) <$> o.
Proof. destruct o; simpl; [by rewrite app_assoc|done]. Qed.

(** ** fastjson documents

    A syntax tree of what fastjson writes: the text of keywords, numbers and
    strings is kept as written, and the key of an object entry is any value. *)

Unset Elimination Schemes.
Inductive jval : Type :=
| JKw (k : bytes)
| JNum (n : bytes)
| JStr (s : bytes)
| JArr (l : list jval)
| JObj (l : list (jval * jval)).
Set Elimination Schemes.

Fixpoint jval_ind (P : jval → Prop)
    (Hkw : ∀ k, P (JKw k)) (Hnum : ∀ n, P (JNum n)) (Hstr : ∀ s, P (JStr s))
    (Harr : ∀ l, Forall P l → P (JArr l))
    (Hobj : ∀ l, Forall (λ kv, P kv.1 ∧ P kv.2) l → P (JObj l)) (v : jval) : P v :=
  let rec := jval_ind P Hkw Hnum Hstr Harr Hobj in
  match v with
  | JKw k => Hkw k
  | JNum n => Hnum n
  | JStr s => Hstr s
  | JArr l => Harr l ((fix go l := match l return Forall P l with
                       | [] => Forall_nil_2 _
                       | x :: l' => Forall_cons_2 _ _ _ (rec x) (go l') end) l)
  | JObj l => Hobj l ((fix go l := match l return Forall (λ kv, P kv.1 ∧ P kv.2) l with
                       | [] => Forall_nil_2 _
                       | x :: l' => Forall_cons_2 _ _ _ (conj (rec x.1) (rec x.2)) (go l')
                       end) l)
  end.

(** Texts separated by commas. *)
Fixpoint commas (l : list bytes) : bytes :=
  match l with
  | [] => []
  | [x] => x
  | x :: l' => x ++ bComma :: commas l'
  end.

(** As fastjson writes it: keys bare unless they are strings. *)
Fixpoint print_fast (v : jval) : bytes :=
  match v with
  | JKw k => k
  | JNum n => n
  | JStr s => bQuote :: s ++ [bQuote]
  | JArr l => bLBrack :: commas (map print_fast l) ++ [bRBrack]
  | JObj l =>
      bLBrace :: commas (map (λ kv, print_fast kv.1 ++ bColon :: print_fast kv.2) l) ++ [bRBrace]
  end.

(** A key as standard JSON wants it: the text of a bare key becomes a string. *)
Definition std_key (k : jval) : bytes :=
  match k with
  | JStr s => bQuote :: s ++ [bQuote]
  | _ => bQuote :: escapeForString (print_fast k) ++ [bQuote]
  end.

Fixpoint print_std (v : jval) : bytes :=
  match v with
  | JKw k => k
  | JNum n => n
  | JStr s => bQuote :: s ++ [bQuote]
  | JArr l => bLBrack :: commas (map print_std l) ++ [bRBrack]
  | JObj l =>
      bLBrace :: commas (map (λ kv, std_key kv.1 ++ bColon :: print_std kv.2) l) ++ [bRBrace]
  end.

(** The inside of a string: no bare quote, every backslash followed by a byte. *)
Inductive str_ok : bytes → Prop :=
| str_nil : str_ok []
| str_plain c b : (c =b? bQuote) = false → (c =b? bSlash) = false → str_ok b → str_ok (c :: b)
| str_esc c b : str_ok b → str_ok (bSlash :: c :: b).

Definition kw_ok (k : bytes) : Prop :=
  match k with
  | c :: k' => (c =b? x74) || (c =b? x66) || (c =b? x6e) = true ∧ Forall (λ c, isLowerB c = true) k'
  | [] => False
  end.

Definition num_ok (n : bytes) : Prop :=
  match n with
  | c :: n' => (c =b? x2d) || isDigitB c = true ∧ Forall (λ c, isNumByte c = true) n'
  | [] => False
  end.

(** Keywords are not used as keys. *)
Definition key_ok (k : jval) : Prop := match k with JKw _ => False | _ => True end.

Inductive wf : jval → Prop :=
| wf_kw k : kw_ok k → wf (JKw k)
| wf_num n : num_ok n → wf (JNum n)
| wf_str s : str_ok s → wf (JStr s)
| wf_arr l : Forall wf l → wf (JArr l)
| wf_obj l : Forall (λ kv, key_ok kv.1 ∧ wf kv.1 ∧ wf kv.2) l → wf (JObj l).

(** ** [captureValue] takes exactly one bracketed value *)

Definition pre (t : bytes) (o : option (bytes * bytes)) : option (bytes * bytes) :=
  match o with Some (t', r) => Some (t ++ t', r) | None => None end.

Lemma pre_pre t1 t2 o : pre t1 (pre t2 o) = pre (t1 ++ t2) o.
Proof. destruct o as [[t r]|]; simpl; [by rewrite app_assoc|done]. Qed.

(** Bytes that neither open or close a bracket nor start a string. *)
Definition quiet (c : byte) : bool :=
  negb ((c =b? bQuote) || (c =b? bLBrace) || (c =b? bRBrace) || (c =b? bLBrack) || (c =b? bRBrack)).

Lemma num_quiet c : isNumByte c = true → quiet c = true.
Proof. by destruct c. Qed.
Lemma lower_quiet c : isLowerB c = true → quiet c = true.
Proof. by destruct c. Qed.
Lemma num_head c : (c =b? x2d) || isDigitB c = true → isNumByte c = true.
Proof. by destruct c. Qed.

Section capture.
Context (op cl : byte).
Hypothesis Hbrk : (op = bLBrace ∧ cl = bRBrace) ∨ (op = bLBrack ∧ cl = bRBrack).

(** Scanning over [t] at depth [d] copies it and comes back to depth [d]. *)
Definition Pass (d : Z) (t : bytes) : Prop :=
  ∀ b, captureLoop op cl d false false (t ++ b) = pre t (captureLoop op cl d false false b).

Lemma Pass_nil d : Pass d [].
Proof. intros b. simpl. by destruct (captureLoop _ _ _ _ _ b) as [[]|]. Qed.

Lemma Pass_app d t1 t2 : Pass d t1 → Pass d t2 → Pass d (t1 ++ t2).
Proof. intros H1 H2 b. by rewrite <- app_assoc, H1, H2, pre_pre. Qed.

Lemma Pass_quiet d c : quiet c = true → Pass d [c].
Proof.
  intros Hq b. assert ((c =b? bQuote) = false ∧ (c =b? op) = false ∧ (c =b? cl) = false)
    as (E1 & E2 & E3) by (destruct Hbrk as [[-> ->]|[-> ->]]; by destruct c).
  cbn [app captureLoop]. by rewrite E1, E2, E3.
Qed.

Lemma Pass_cons d c t : Pass d [c] → Pass d t → Pass d (c :: t).
Proof. apply (Pass_app d [c] t). Qed.

Lemma Pass_quiets d t : Forall (λ c, quiet c = true) t → Pass d t.
Proof. induction 1; [apply Pass_nil|by apply Pass_cons; [apply Pass_quiet|]]. Qed.

Lemma Pass_commas d l : Forall (Pass d) l → Pass d (commas l).
Proof.
  induction 1 as [|x l Hx Hl IH]; [apply Pass_nil|].
  destruct l as [|y l]; [done|]. cbn [commas] in *.
  apply Pass_app; [done|]. apply Pass_cons; [by apply Pass_quiet|done].
Qed.

Lemma capture_string d s b :
  str_ok s →
  captureLoop op cl d true false (s ++ bQuote :: b) =
  pre (s ++ [bQuote]) (captureLoop op cl d false false b).
Proof.
  induction 1 as [|c s Hq Hs _ IH|c s _ IH]; simpl.
  - done.
  - rewrite Hs, Hq, IH. by destruct (captureLoop _ _ _ _ _ b) as [[]|].
  - rewrite IH. by destruct (captureLoop _ _ _ _ _ b) as [[]|].
Qed.

Lemma Pass_string d s : str_ok s → Pass d (bQuote :: s ++ [bQuote]).
Proof.
  intros Hs b. cbn [app captureLoop]. change (bQuote =b? bQuote) with true. cbn iota.
  rewrite <- app_assoc. simpl app. rewrite capture_string by done.
  by destruct (captureLoop _ _ _ _ _ b) as [[]|].
Qed.

(** A bracketed text whose inside passes at every positive depth. *)
Lemma Pass_bracket d o c t :
  1 ≤ d → (∀ d', 1 ≤ d' → Pass d' t) →
  (o = bLBrace ∧ c = bRBrace) ∨ (o = bLBrack ∧ c = bRBrack) → Pass d (o :: t ++ [c]).
Proof.
  intros Hd Ht Hoc b.
  assert ((o = op ∧ c = cl) ∨ ((o =b? op) = false ∧ (o =b? cl) = false ∧
          (c =b? op) = false ∧ (c =b? cl) = false)) as Hcase
    by (destruct Hoc as [[-> ->]|[-> ->]], Hbrk as [[-> ->]|[-> ->]]; auto).
  assert ((o =b? bQuote) = false ∧ (c =b? bQuote) = false) as [Hoq Hcq]
    by (by destruct Hoc as [[-> ->]|[-> ->]]).
  cbn [app]. rewrite <- app_assoc. cbn [app captureLoop]. rewrite Hoq.
  destruct Hcase as [[-> ->]|(E1 & E2 & E3 & E4)].
  - assert ((op =b? op) = true ∧ (cl =b? cl) = true ∧ (cl =b? op) = false) as (E1 & E2 & E3)
      by (by destruct Hbrk as [[-> ->]|[-> ->]]).
    rewrite E1, (Ht (d + 1)) by lia. cbn [captureLoop]. rewrite Hcq, E3, E2.
    replace (d + 1 - 1) with d by lia. rewrite (proj2 (Z.eqb_neq d 0)) by lia.
    destruct (captureLoop op cl d false false b) as [[]|]; simpl; [|done].
    by rewrite <- app_assoc.
  - rewrite E1, E2, (Ht d) by lia. cbn [captureLoop]. rewrite Hcq, E3, E4.
    destruct (captureLoop op cl d false false b) as [[]|]; simpl; [|done].
    by rewrite <- app_assoc.
Qed.

Lemma Pass_value v : wf v → ∀ d, 1 ≤ d → Pass d (print_fast v).
Proof.
  induction v as [k|n|s|l IH|l IH] using jval_ind; intros Hwf d Hd; inversion Hwf as [? Hk|? Hk|? Hk|? Hk|? Hk]; subst; cbn [print_fast].
  - destruct k as [|c k]; [done|]. destruct Hk as [Hc Hk].
    apply Pass_quiets. constructor; [by apply lower_quiet, keyword_head_lower|].
    eapply Forall_impl; [done|]. apply lower_quiet.
  - destruct n as [|c n]; [done|]. destruct Hk as [Hc Hk].
    apply Pass_quiets. constructor; [by apply num_quiet, num_head|].
    eapply Forall_impl; [done|]. apply num_quiet.
  - by apply Pass_string.
  - apply Pass_bracket; [done| |by right]. intros d' Hd'.
    apply Pass_commas, Forall_map. rewrite Forall_forall in *. naive_solver.
  - apply Pass_bracket; [done| |by left]. intros d' Hd'.
    apply Pass_commas, Forall_map. rewrite Forall_forall in *.
    intros kv Hkv. destruct (IH kv Hkv) as [IHk IHv]. destruct (Hk kv Hkv) as (_ & Wk & Wv).
    apply Pass_app; [by apply IHk|]. apply Pass_cons; [by apply Pass_quiet|by apply IHv].
Qed.
End capture.

Lemma capture_bracket o c t r :
  (o = bLBrace ∧ c = bRBrace) ∨ (o = bLBrack ∧ c = bRBrack) → Pass o c 1 t →
  captureValue (o :: t ++ c :: r) = Some (o :: t ++ [c], r).
Proof.
  intros Hoc Ht. unfold captureValue.
  replace (if o =b? bLBrack then bRBrack else bRBrace) with c
    by (by destruct Hoc as [[-> ->]|[-> ->]]).
  assert ((o =b? bQuote) = false ∧ (c =b? bQuote) = false ∧ (o =b? o) = true ∧
          (c =b? o) = false ∧ (c =b? c) = true) as (E1 & E2 & E3 & E4 & E5)
    by (by destruct Hoc as [[-> ->]|[-> ->]]).
  cbn [captureLoop]. rewrite E1, E3. change (0 + 1) with 1. rewrite Ht.
  cbn [captureLoop]. rewrite E2, E4, E5. done.
Qed.

(** A composite key is captured whole, whatever follows it. *)
Lemma capture_composite v r :
  wf v → match v with JArr _ | JObj _ => True | _ => False end →
  captureValue (print_fast v ++ r) = Some (print_fast v, r).
Proof.
  intros Hwf Hv. pose proof (Pass_value bLBrace bRBrace ltac:(by left)) as PO.
  pose proof (Pass_value bLBrack bRBrack ltac:(by right)) as PA.
  destruct v as [| | |l|l]; try done; inversion Hwf as [ | | |? Hk|? Hk]; subst;
    cbn [print_fast app]; rewrite <- app_assoc; apply capture_bracket.
  - by right.
  - apply Pass_commas; [by right|]. apply Forall_map. eapply Forall_impl; [done|].
    intros v Hv'. by apply PA.
  - by left.
  - apply Pass_commas; [by left|]. apply Forall_map. eapply Forall_impl; [done|].
    intros kv (_ & Wk & Wv). apply Pass_app; [by apply PO|].
    apply Pass_cons; [apply Pass_quiet; [by left|done]|by apply PO].
Qed.

(** ** The normaliser on a fastjson document *)

(** What may follow a value: nothing, or a byte that ends a token. *)
Definition delim (b : bytes) : Prop :=
  match b with [] => True | c :: _ => isNumByte c = false ∧ isLowerB c = false end.

Definition at_ (stk : bytes) (p : pstate) : nstate := mkN stk p false false.

(** From state [s], the text [t] is rewritten to [t'], ending in state [s']. *)
Definition Rewrites (s s' : nstate) (t t' : bytes) : Prop :=
  ∀ b, delim b → run s (t ++ b) = app t' <$> run s' b.

Lemma Rewrites_app s s1 s2 t1 t1' t2 t2' :
  Rewrites s s1 t1 t1' → Rewrites s1 s2 t2 t2' →
  (∀ b, delim b → delim (t2 ++ b)) → Rewrites s s2 (t1 ++ t2) (t1' ++ t2').
Proof.
  intros H1 H2 Hd b Hb. rewrite <- app_assoc, H1 by auto. rewrite H2 by done.
  apply fmap_app_app.
Qed.

(** A structural byte: it is emitted, and the state changes. *)
Lemma Rewrites_byte s s' c :
  (∀ b, normStep s c b = ([c], Some (s', b))) → Rewrites s s' [c] [c].
Proof. intros H b _. simpl. by rewrite (run_step _ _ _ _ _ _ (H b)). Qed.

Lemma Rewrites_cons s s1 s2 c t t' :
  (∀ b, normStep s c b = ([c], Some (s1, b))) → Rewrites s1 s2 t t' →
  Rewrites s s2 (c :: t) (c :: t').
Proof.
  intros Hc Ht b Hb. simpl. rewrite (run_step _ _ _ _ _ _ (Hc _)), Ht by done.
  apply fmap_app_app.
Qed.

(** The state after a string that started in state [p]. *)
Definition after_string (p : pstate) : pstate :=
  match p with pExpectKey => pExpectColon | pExpectValue => pAfterValue | x => x end.

Lemma Rewrites_in_string stk p s :
  str_ok s → Rewrites (mkN stk p true false) (at_ stk (after_string p)) (s ++ [bQuote]) (s ++ [bQuote]).
Proof.
  induction 1 as [|c s Hq Hs _ IH|c s _ IH]; simpl.
  - apply Rewrites_byte. by destruct p.
  - eapply Rewrites_cons; [|exact IH]. intros b. unfold normStep. simpl. by rewrite Hs, Hq.
  - eapply (Rewrites_cons _ (mkN stk p true true)); [done|].
    eapply Rewrites_cons; [|exact IH]. done.
Qed.

Lemma Rewrites_string stk p s :
  str_ok s →
  Rewrites (at_ stk p) (at_ stk (after_string p)) (bQuote :: s ++ [bQuote]) (bQuote :: s ++ [bQuote]).
Proof.
  intros Hs. eapply (Rewrites_cons _ (mkN stk p true false)); [done|].
  by apply Rewrites_in_string.
Qed.

Lemma span_token P c t b :
  P c = true → Forall (λ c, P c = true) t → match b with x :: _ => P x = false | [] => True end →
  span P (c :: t ++ b) = (c :: t, b).
Proof. intros. apply (span_all P (c :: t) b); [by constructor|done]. Qed.

Lemma Rewrites_keyword stk k :
  kw_ok k → Rewrites (at_ stk pExpectValue) (at_ stk pAfterValue) k k.
Proof.
  destruct k as [|c k]; [done|]. intros [Hc Hk] b Hb.
  apply (run_step _ c (k ++ b) (c :: k)).
  assert (scanKeyword (c :: k ++ b) = (c :: k, b)) as E.
  { apply span_token; [by apply keyword_head_lower|done|]. destruct b; [done|]. by destruct Hb. }
  unfold normStep. simpl. rewrite E.
  by destruct c.
Qed.

Lemma scanNumber_token c n b :
  (c =b? x2d) || isDigitB c = true → Forall (λ c, isNumByte c = true) n → delim b →
  scanNumber (c :: n ++ b) = (c :: n, b).
Proof.
  intros Hc Hn Hb. assert (match b with x :: _ => isNumByte x = false | [] => True end) as Hb'
    by (destruct b; [done|by destruct Hb]).
  unfold scanNumber. pose proof (num_head c Hc). destruct (c =b? x2d).
  - by rewrite span_all.
  - by apply span_token.
Qed.

(** A number is copied as a value and quoted as a key. *)
Lemma normStep_number stk p c r :
  (c =b? x2d) || isDigitB c = true →
  normStep (at_ stk p) c r =
  let '(token, rest) := scanNumber (c :: r) in
  match p with
  | pExpectKey => (bQuote :: token ++ [bQuote], Some (at_ stk pExpectColon, rest))
  | _ => (token, Some (at_ stk pAfterValue, rest))
  end.
Proof. by destruct c. Qed.

Lemma Rewrites_number stk n :
  num_ok n → Rewrites (at_ stk pExpectValue) (at_ stk pAfterValue) n n.
Proof.
  destruct n as [|c n]; [done|]. intros [Hc Hn] b Hb.
  apply (run_step _ c (n ++ b) (c :: n)).
  rewrite normStep_number by done. by rewrite scanNumber_token.
Qed.

Lemma Rewrites_number_key stk n :
  num_ok n →
  Rewrites (at_ stk pExpectKey) (at_ stk pExpectColon) n (bQuote :: n ++ [bQuote]).
Proof.
  destruct n as [|c n]; [done|]. intros [Hc Hn] b Hb.
  apply (run_step _ c (n ++ b) (bQuote :: (c :: n) ++ [bQuote])).
  rewrite normStep_number by done. by rewrite scanNumber_token.
Qed.

Lemma replaceByte_absent old new b :
  Forall (λ c, (c =b? old) = false) b → replaceByte old new b = b.
Proof. induction 1 as [|c b Hc _ IH]; simpl; [done|]. by rewrite Hc, IH. Qed.

Lemma num_plain c : isNumByte c = true → (c =b? bQuote) = false ∧ (c =b? bSlash) = false.
Proof. by destruct c. Qed.

Lemma escape_number n : num_ok n → escapeForString n = n.
Proof.
  intros Hn. assert (Forall (λ c, isNumByte c = true) n) as Hf.
  { destruct n; [constructor|]. destruct Hn. constructor; [by apply num_head|done]. }
  unfold escapeForString. rewrite (replaceByte_absent bSlash).
  - apply replaceByte_absent. eapply Forall_impl; [done|]. apply num_plain.
  - eapply Forall_impl; [done|]. intros c Hc. by apply num_plain.
Qed.

Lemma Rewrites_composite_key stk v :
  wf v → match v with JArr _ | JObj _ => True | _ => False end →
  Rewrites (at_ stk pExpectKey) (at_ stk pExpectColon) (print_fast v)
    (bQuote :: escapeForString (print_fast v) ++ [bQuote]).
Proof.
  intros Hwf Hv b _. pose proof (capture_composite v b Hwf Hv) as Hc.
  assert (∃ o t, print_fast v = o :: t ∧ (o = bLBrace ∨ o = bLBrack)) as (o & t & E & Ho)
    by (destruct v; try done; eauto).
  remember (print_fast v) as p eqn:Ep. clear Ep. rewrite E in Hc at 1. rewrite E at 1. cbn [app] in Hc.
  apply (run_step _ o (t ++ b) (bQuote :: escapeForString p ++ [bQuote])).
  unfold normStep. destruct Ho as [-> | ->]; cbn -[captureValue escapeForString app];
    by rewrite Hc.
Qed.

Lemma Rewrites_key stk k :
  key_ok k → wf k →
  Rewrites (at_ stk pExpectKey) (at_ stk pExpectColon) (print_fast k) (std_key k).
Proof.
  intros Hk Hwf. destruct k as [|n|s|l|l]; [done|..]; cbn [std_key].
  - inversion Hwf; subst. cbn [print_fast]. rewrite escape_number by done.
    by apply Rewrites_number_key.
  - inversion Hwf; subst. by apply (Rewrites_string stk pExpectKey).
  - by apply Rewrites_composite_key.
  - by apply Rewrites_composite_key.
Qed.

Lemma Rewrites_commas {A} (p e : nstate) (f g : A → bytes) l :
  (∀ b, normStep e bComma b = ([bComma], Some (p, b))) → l ≠ [] →
  Forall (λ x, Rewrites p e (f x) (g x)) l →
  Rewrites p e (commas (map f l)) (commas (map g l)).
Proof.
  intros Hc Hne Hl. induction Hl as [|x l Hx Hl IH]; [done|].
  destruct l as [|y l]; [done|].
  change (commas (map f (x :: y :: l))) with (f x ++ bComma :: commas (map f (y :: l))).
  change (commas (map g (x :: y :: l))) with (g x ++ bComma :: commas (map g (y :: l))).
  eapply Rewrites_app; [exact Hx| |by simpl].
  eapply Rewrites_cons; [exact Hc|by apply IH].
Qed.

(** Between the brackets: a possibly empty comma-separated list. *)
Lemma Rewrites_brackets {A} s p e s' (o c : byte) (f g : A → bytes) l :
  (∀ b, normStep s o b = ([o], Some (p, b))) →
  (∀ b, normStep e bComma b = ([bComma], Some (p, b))) →
  (∀ b, normStep p c b = ([c], Some (s', b))) →
  (∀ b, normStep e c b = ([c], Some (s', b))) →
  (∀ b, delim (c :: b)) →
  Forall (λ x, Rewrites p e (f x) (g x)) l →
  Rewrites s s' (o :: commas (map f l) ++ [c]) (o :: commas (map g l) ++ [c]).
Proof.
  intros Ho Hcomma Hpc Hec Hd Hl. eapply Rewrites_cons; [exact Ho|].
  destruct l as [|x l]; [by apply Rewrites_byte|].
  eapply Rewrites_app; [by apply Rewrites_commas|by apply Rewrites_byte|].
  intros b _. apply Hd.
Qed.

Lemma Rewrites_value v :
  wf v → ∀ stk, Rewrites (at_ stk pExpectValue) (at_ stk pAfterValue) (print_fast v) (print_std v).
Proof.
  induction v as [k|n|s|l IH|l IH] using jval_ind; intros Hwf stk;
    inversion Hwf as [? Hk|? Hk|? Hk|? Hk|? Hk]; subst; cbn [print_fast print_std].
  - by apply Rewrites_keyword.
  - by apply Rewrites_number.
  - by apply (Rewrites_string stk pExpectValue).
  - apply (Rewrites_brackets _ (at_ (x61 :: stk) pExpectValue) (at_ (x61 :: stk) pAfterValue));
      try done.
    rewrite Forall_forall in *. naive_solver.
  - apply (Rewrites_brackets _ (at_ (x6f :: stk) pExpectKey) (at_ (x6f :: stk) pAfterValue));
      try done.
    rewrite Forall_forall in *. intros kv Hkv.
    destruct (IH kv Hkv) as [_ IHv]. destruct (Hk kv Hkv) as (Ok & Wk & Wv).
    eapply Rewrites_app; [by apply Rewrites_key| |done].
    eapply (Rewrites_cons _ (at_ (x6f :: stk) pExpectValue)); [done|by apply IHv].
Qed.

Lemma normalizeKeys_some b : is_Some (normalizeKeys b).
Proof. by apply normLoop_total. Qed.

(** C36: [normalizeKeys] returns on every input, well-formed or not. *)
Theorem normalizeKeys_total b : is_Some (normalizeKeys b).
Proof. apply normalizeKeys_some. Qed.

(** ** The quoted key still holds the key *)

Definition esc1 (c : byte) : bytes :=
  if c =b? bSlash then [bSlash; bSlash] else if c =b? bQuote then [bSlash; bQuote] else [c].

Lemma byte_eqb_true c d : (c =b? d) = true → c = d.
Proof. apply Byte.byte_dec_bl. Qed.

Lemma escape_cons c t : escapeForString (c :: t) = esc1 c ++ escapeForString t.
Proof.
  unfold escapeForString, esc1. cbn [replaceByte].
  destruct (c =b? bSlash) eqn:E1; [done|]. cbn [replaceByte]. by destruct (c =b? bQuote).
Qed.

Lemma str_ok_escape t : str_ok (escapeForString t).
Proof.
  induction t as [|c t IH]; [constructor|]. rewrite escape_cons. unfold esc1.
  destruct (c =b? bSlash) eqn:E1; [by constructor|].
  destruct (c =b? bQuote) eqn:E2; by constructor.
Qed.

(** What a JSON reader makes of the two escapes [escapeForString] writes. *)
Fixpoint unescape (b : bytes) : bytes :=
  match b with
  | [] => []
  | c :: b' =>
      if c =b? bSlash then match b' with [] => [c] | d :: b'' => d :: unescape b'' end
      else c :: unescape b'
  end.

(** No key material is lost: undoing the JSON escapes of a quoted bare key
    gives back the key's text byte for byte, so the caller can parse it and two
    different keys never collide. *)
Theorem unescape_escape t : unescape (escapeForString t) = t.
Proof.
  induction t as [|c t IH]; [done|]. rewrite escape_cons. unfold esc1.
  destruct (c =b? bSlash) eqn:E1.
  - apply byte_eqb_true in E1 as ->. simpl. by rewrite IH.
  - destruct (c =b? bQuote) eqn:E2.
    + apply byte_eqb_true in E2 as ->. simpl. by rewrite IH.
    + simpl. by rewrite E1, IH.
Qed.

(** The document with its bare keys replaced by string keys. *)
Definition std_key_val (k : jval) : jval :=
  match k with JStr s => JStr s | _ => JStr (escapeForString (print_fast k)) end.

Fixpoint standardize (v : jval) : jval :=
  match v with
  | JArr l => JArr (map standardize l)
  | JObj l => JObj (map (λ kv, (std_key_val kv.1, standardize kv.2)) l)
  | _ => v
  end.

Lemma print_standardize v : print_fast (standardize v) = print_std v.
Proof.
  induction v as [k|n|s|l IH|l IH] using jval_ind; try done; cbn [standardize print_fast print_std].
  - rewrite map_map. do 3 f_equal. apply map_ext_Forall.
    eapply Forall_impl; [exact IH|done].
  - rewrite map_map. do 3 f_equal. apply map_ext_Forall.
    eapply Forall_impl; [exact IH|]. intros [k v] [_ Hv]. simpl in *. rewrite Hv.
    by destruct k.
Qed.

Lemma wf_standardize v : wf v → wf (standardize v).
Proof.
  induction v as [k|n|s|l IH|l IH] using jval_ind; intros Hwf; try done;
    inversion Hwf as [| | |? Hk|? Hk]; subst; constructor; apply Forall_map;
    rewrite Forall_forall in *.
  - naive_solver.
  - intros kv Hkv. destruct (IH kv Hkv) as [_ IHv]. destruct (Hk kv Hkv) as (Ok & Wk & Wv).
    split_and!; [by destruct kv as [[]]| |by apply IHv].
    destruct kv as [k v]. simpl in *. destruct k; simpl; try done;
      constructor; apply str_ok_escape.
Qed.

Lemma print_std_standardize v : print_std (standardize v) = print_std v.
Proof.
  induction v as [k|n|s|l IH|l IH] using jval_ind; try done; cbn [standardize print_std];
    rewrite map_map; do 3 f_equal; apply map_ext_Forall; (eapply Forall_impl; [exact IH|]).
  - done.
  - intros [k v] [_ Hv]. simpl in *. rewrite Hv. by destruct k.
Qed.

(** The machine run from the start on the text of a document. *)
Lemma normalize_value v : wf v → normalizeKeys (print_fast v) = Some (print_std v).
Proof.
  intros Hwf. pose proof (Rewrites_value v Hwf [] [] I) as H.
  rewrite app_nil_r in H. unfold normalizeKeys. fold (run normInit (print_fast v)).
  change normInit with (at_ [] pExpectValue). rewrite H. simpl. by rewrite app_nil_r.
Qed.

(** C14: [normalizeKeys] turns what fastjson writes into standard JSON: on the
    text of any well-formed document (keys that are strings, numbers, objects or
    arrays, nested to any depth) it quotes exactly the bare keys, escaping the
    quotes and backslashes of composite ones, and copies everything else. *)
Theorem normalizeKeys_document v :
  wf v → normalizeKeys (print_fast v) = Some (print_std v).
Proof. apply normalize_value. Qed.

(** Standard JSON passes through unchanged, and normalising twice is
    normalising once. *)
Theorem normalizeKeys_idempotent v :
  wf v → normalizeKeys (print_std v) = Some (print_std v).
Proof.
  intros Hwf. rewrite <- print_standardize, normalize_value by by apply wf_standardize.
  by rewrite print_std_standardize, print_standardize.
Qed.

(** ** Witnesses *)

(** The key of the offset table of a 4.9.8 broker, as in fastjson_test.go. *)
Definition sample_queue : jval :=
  JObj [(JStr (bytes_of "brokerName"), JStr (bytes_of "b"));
        (JStr (bytes_of "queueId"), JNum (bytes_of "0"))].
Definition sample_table : jval :=
  JObj [(JStr (bytes_of "offsetTable"), JObj [(sample_queue, JArr [JKw (bytes_of "true"); JNum (bytes_of "-1")])]);
        (JNum (bytes_of "0"), JStr (bytes_of "127.0.0.1:10911"))].

Lemma str_ok_plain s :
  Forall (λ c, (c =b? bQuote) = false ∧ (c =b? bSlash) = false) s → str_ok s.
Proof. induction 1 as [|c s [] _ IH]; by constructor. Qed.

Lemma sample_table_wf : wf sample_table.
Proof.
  repeat first
    [ apply str_ok_plain; repeat (constructor; [by vm_compute|]); constructor
    | split | constructor ].
Qed.

Lemma normalizeKeys_document_witness :
  normalizeKeys (print_fast sample_table) = Some (print_std sample_table).
Proof. apply (normalizeKeys_document sample_table sample_table_wf). Defined.

Lemma normalizeKeys_idempotent_witness :
  normalizeKeys (print_std sample_table) = Some (print_std sample_table).
Proof. apply (normalizeKeys_idempotent sample_table sample_table_wf). Defined.
