(* ===== verification/Acl.v ===== *)
(** * Request signing: internal/rmqremote/acl.go

    The canonical string of [SignACL] and its HMAC-SHA1 signature.  The parts
    of the standard library the code calls (crypto/sha1, crypto/hmac, base64
    and sort) are executable definitions here. *)

From Stdlib Require Import ZArith Lia.
From stdpp Require Import sorting.
From S2P Require Import Prelude Codec.

(** ** crypto/sha1 *)

Definition w32 (z : Z) : Z := z mod 2 ^ 32.
Definition rotl (n x : Z) : Z := w32 (Z.lor (Z.shiftl x n) (Z.shiftr x (32 - n))).

Definition sha1_pad (msg : bytes) : bytes :=
  let k := (55 - len msg) mod 64 in
  msg ++ x80 :: repeat x00 (Z.to_nat k) ++ be_bytes 8 (8 * len msg).

(** The first [n] big-endian 32-bit words of [b]. *)
Fixpoint wordsOf (n : nat) (b : bytes) : list Z :=
  match n with
  | O => []
  | S n' => be_val (take 4 b) :: wordsOf n' (drop 4 b)
  end.

(** The schedule, newest word first: 64 words are added to the block's 16. *)
Fixpoint schedule (n : nat) (ws : list Z) : list Z :=
  match n with
  | O => ws
  | S n' =>
      let w i := nth i ws 0 in
      schedule n' (rotl 1 (Z.lxor (w 2%nat) (Z.lxor (w 7%nat) (Z.lxor (w 13%nat) (w 15%nat)))) :: ws)
  end.

Definition sha1_f (t b c d : Z) : Z :=
  if t <? 20 then Z.lor (Z.land b c) (Z.land (w32 (Z.lnot b)) d)
  else if t <? 40 then Z.lxor b (Z.lxor c d)
  else if t <? 60 then Z.lor (Z.land b c) (Z.lor (Z.land b d) (Z.land c d))
  else Z.lxor b (Z.lxor c d).

Definition sha1_k (t : Z) : Z :=
  if t <? 20 then 1518500249 else if t <? 40 then 1859775393
  else if t <? 60 then 2400959708 else 3395469782.

Record sha1_state := mkSha { hA : Z; hB : Z; hC : Z; hD : Z; hE : Z }.

Fixpoint sha1_rounds (t : Z) (ws : list Z) (s : sha1_state) : sha1_state :=
  match ws with
  | [] => s
  | w :: ws' =>
      let tmp := w32 (rotl 5 (hA s) + sha1_f t (hB s) (hC s) (hD s) + hE s + w + sha1_k t) in
      sha1_rounds (t + 1) ws' (mkSha tmp (hA s) (rotl 30 (hB s)) (hC s) (hD s))
  end.

Definition sha1_block (s : sha1_state) (block : bytes) : sha1_state :=
  let ws := rev (schedule 64 (rev (wordsOf 16 block))) in
  let r := sha1_rounds 0 ws s in
  mkSha (w32 (hA s + hA r)) (w32 (hB s + hB r)) (w32 (hC s + hC r))
        (w32 (hD s + hD r)) (w32 (hE s + hE r)).

Fixpoint sha1_blocks (n : nat) (s : sha1_state) (b : bytes) : sha1_state :=
  match n with
  | O => s
  | S n' => sha1_blocks n' (sha1_block s (take 64 b)) (drop 64 b)
  end.

Definition sha1_init : sha1_state :=
  mkSha 1732584193 4023233417 2562383102 271733878 3285377520.

Definition sha1 (msg : bytes) : bytes :=
  let p := sha1_pad msg in
  let s := sha1_blocks (length p / 64) sha1_init p in
  be_bytes 4 (hA s) ++ be_bytes 4 (hB s) ++ be_bytes 4 (hC s) ++ be_bytes 4 (hD s) ++ be_bytes 4 (hE s).

(** ** crypto/hmac *)

Definition hmac_key (key : bytes) : bytes :=
  let k := if decide (64 < length key)%nat then sha1 key else key in
  k ++ repeat x00 (64 - length k).

Definition xor_pad (c : Z) (k : bytes) : bytes := (λ b, byte_of_Z (Z.lxor (u8 b) c)) <$> k.

Definition hmac_sha1 (key data : bytes) : bytes :=
  let k := hmac_key key in
  sha1 (xor_pad 92 k ++ sha1 (xor_pad 54 k ++ data)).

(** ** encoding/base64, standard alphabet with padding *)

Definition b64char (n : Z) : byte :=
  if n <? 26 then byte_of_Z (65 + n)
  else if n <? 52 then byte_of_Z (97 + (n - 26))
  else if n <? 62 then byte_of_Z (48 + (n - 52))
  else if n =? 62 then x2b else x2f.

Fixpoint base64 (b : bytes) : bytes :=
  match b with
  | x :: y :: z :: r =>
      let v := u8 x * 65536 + u8 y * 256 + u8 z in
      [b64char (v / 262144); b64char (v / 4096 mod 64); b64char (v / 64 mod 64); b64char (v mod 64)]
        ++ base64 r
  | [x; y] =>
      let v := u8 x * 65536 + u8 y * 256 in
      [b64char (v / 262144); b64char (v / 4096 mod 64); b64char (v / 64 mod 64); x3d]
  | [x] =>
      let v := u8 x * 65536 in
      [b64char (v / 262144); b64char (v / 4096 mod 64); x3d; x3d]
  | [] => []
  end.

(** ** acl.go *)

Definition aclSignature : string := "Signature".
Definition aclAccessKey : string := "AccessKey".
Definition aclSecurityToken : string := "SecurityToken".

Definition calculateSignature (data secretKey : bytes) : string :=
  str_of (base64 (hmac_sha1 secretKey data)).

(** [sort.Slice] by [strings.Compare].  The keys are distinct, so every sorting
    algorithm gives this list ([Sorted_unique]). *)
Definition sortKeys (l : list string) : list string := merge_sort String.le l.

(** Missing keys read as the empty string. *)
Definition lookupStr (m : gmap string string) (k : string) : string := default EmptyString (m !! k).

Section sign.
Context `{!MapRange string string}.

(** The map [m] and the slice [order] after the loop. *)
Definition aclFields (ext : gmap string string) (accessKey : string)
    : gmap string string * list string :=
  let m := {[aclAccessKey := accessKey]} in
  let order := [aclAccessKey] in
  let tok := lookupStr ext aclSecurityToken in
  let '(m, order) :=
    if decide (tok = EmptyString) then (m, order)
    else (<[aclSecurityToken := tok]> m, order ++ [aclSecurityToken]) in
  foldl (λ '(m, order) '(k, v),
           if decide (k = aclAccessKey ∨ k = aclSecurityToken ∨ k = aclSignature)
           then (m, order) else (<[k := v]> m, order ++ [k]))
        (m, order) (range ext).

Definition aclContent (ext : gmap string string) (accessKey : string) : bytes :=
  let '(m, order) := aclFields ext accessKey in
  concat ((λ k, bytes_of (lookupStr m k)) <$> sortKeys order).

Definition SignACL (c : RemotingCommand) (accessKey secretKey : string) : RemotingCommand :=
  let ext := default ∅ (ExtFields c) in
  let buf := aclContent ext accessKey ++ Body c in
  let sig := calculateSignature buf (bytes_of secretKey) in
  set_ext (Some (<[aclAccessKey := accessKey]> (<[aclSignature := sig]> ext))) c.
End sign.

(** The vector of acl_test.go. *)
Example calculateSignature_vector :
  calculateSignature (bytes_of "Hello RocketMQ Client ACL Feature") (bytes_of "adiaushdiaushd")
  = "tAb/54Rwwcq+pbH8Loi7FWX4QSQ=".
Proof. vm_compute. reflexivity. Qed.

(** ** The canonical string *)

(** The fields a signature covers: every ext field except an old signature and
    an empty security token, with the access key in force. *)
Definition covered (kv : string * string) : Prop :=
  kv.1 ≠ aclSignature ∧ ¬ (kv.1 = aclSecurityToken ∧ kv.2 = EmptyString).

Definition signedFields (ext : gmap string string) (accessKey : string) : gmap string string :=
  <[aclAccessKey := accessKey]> (filter covered ext).

(** The values of the covered fields in the order of their keys. *)
Definition canonical (ext : gmap string string) (accessKey : string) : bytes :=
  let m := signedFields ext accessKey in
  concat ((λ k, bytes_of (lookupStr m k)) <$> sortKeys (elements (dom m))).

Lemma sortKeys_perm l1 l2 : l1 ≡ₚ l2 → sortKeys l1 = sortKeys l2.
Proof.
  intros H. apply (Sorted_unique String.le).
  - apply Sorted_merge_sort, _.
  - apply Sorted_merge_sort, _.
  - unfold sortKeys. by rewrite !merge_sort_Permutation.
Qed.

(** The entries the loop does not skip. *)
Definition plainField (kv : string * string) : Prop :=
  ¬ (kv.1 = aclAccessKey ∨ kv.1 = aclSecurityToken ∨ kv.1 = aclSignature).

#[export] Instance plainField_dec kv : Decision (plainField kv).
Proof. unfold plainField. apply _. Defined.
#[export] Instance covered_dec kv : Decision (covered kv).
Proof. unfold covered. apply _. Defined.

Lemma acl_fold l (m : gmap string string) order :
  NoDup l.*1 →
  foldl (λ '(m, order) '(k, v),
           if decide (k = aclAccessKey ∨ k = aclSecurityToken ∨ k = aclSignature)
           then (m, order) else (<[k := v]> m, order ++ [k]))
        (m, order) l =
  (list_to_map (filter plainField l) ∪ m, order ++ (filter plainField l).*1).
Proof.
  revert m order. induction l as [|[k v] l IH]; intros m order Hnd.
  - simpl. by rewrite (left_id_L ∅ (∪)), app_nil_r.
  - rewrite fmap_cons in Hnd. apply NoDup_cons in Hnd as [Hk Hnd]. cbn [foldl fst] in *.
    destruct (decide (k = aclAccessKey ∨ k = aclSecurityToken ∨ k = aclSignature)) as [Hs|Hs].
    + rewrite IH by done. rewrite filter_cons_False by (intros Hp; exact (Hp Hs)). done.
    + rewrite IH by done. rewrite filter_cons_True by exact Hs.
      cbn [list_to_map foldr fst snd]. rewrite fmap_cons. cbn [fst].
      rewrite <- app_assoc. f_equal. rewrite <- insert_union_l, <- insert_union_r; [done|].
      apply not_elem_of_list_to_map_1. intros Hin. apply Hk.
      eapply elem_of_submseteq; [exact Hin|].
      apply sublist_submseteq, fmap_sublist, sublist_filter.
Qed.

Section canonical.
Context `{!MapRange string string}.
Implicit Types ext : gmap string string.

Lemma plain_lookup ext k v :
  (list_to_map (filter plainField (range ext)) : gmap string string) !! k = Some v ↔
  plainField (k, v) ∧ ext !! k = Some v.
Proof.
  rewrite <- elem_of_list_to_map.
  - by rewrite list_elem_of_filter, elem_of_range.
  - eapply sublist_NoDup; [apply NoDup_fst_range|]. apply fmap_sublist, sublist_filter.
Qed.

Lemma plain_keys ext k :
  k ∈ (filter plainField (range ext)).*1 ↔ ∃ v, plainField (k, v) ∧ ext !! k = Some v.
Proof.
  rewrite list_elem_of_fmap. split.
  - intros ([k' v] & -> & Hin). apply list_elem_of_filter in Hin as [Hp Hv].
    apply elem_of_range in Hv. eauto.
  - intros (v & Hp & Hv). exists (k, v). by rewrite list_elem_of_filter, elem_of_range.
Qed.

Lemma lookup_signedFields ext ak k v :
  signedFields ext ak !! k = Some v ↔
  (k = aclAccessKey ∧ v = ak) ∨ (k ≠ aclAccessKey ∧ ext !! k = Some v ∧ covered (k, v)).
Proof.
  unfold signedFields. destruct (decide (k = aclAccessKey)) as [->|Hk].
  - rewrite lookup_insert_eq. split; [intros [= ->]; auto|].
    intros [[_ ->]|[? _]]; [done|congruence].
  - rewrite lookup_insert_ne by done. rewrite map_lookup_filter_Some. tauto.
Qed.

(** The map and the slice before the loop. *)
Definition aclStart ext ak : gmap string string * list string :=
  let tok := lookupStr ext aclSecurityToken in
  if decide (tok = EmptyString) then ({[aclAccessKey := ak]}, [aclAccessKey])
  else (<[aclSecurityToken := tok]> {[aclAccessKey := ak]}, [aclAccessKey; aclSecurityToken]).

Lemma aclStart_lookup ext ak k v :
  (aclStart ext ak).1 !! k = Some v ↔
  (k = aclAccessKey ∧ v = ak) ∨ (k = aclSecurityToken ∧ ext !! k = Some v ∧ v ≠ EmptyString).
Proof.
  unfold aclStart, lookupStr. destruct (ext !! aclSecurityToken) as [tok|] eqn:E.
  - change (default EmptyString (Some tok)) with tok. destruct (decide (tok = EmptyString)) as [->|Ht]; cbn [fst].
    + rewrite lookup_singleton_Some. split; [intros [-> ->]; auto|].
      intros [[-> ->]|(-> & Hv & Hn)]; [auto|congruence].
    + rewrite lookup_insert_Some, lookup_singleton_Some. split.
      * intros [[<- <-]|(_ & -> & ->)]; auto.
      * intros [[-> ->]|(-> & Hv & Hn)]; [right|left; split; congruence].
        split; [done|auto].
  - rewrite decide_True by done. cbn [fst].
    rewrite lookup_singleton_Some. split; [intros [-> ->]; auto|].
    intros [[-> ->]|(-> & Hv & Hn)]; [auto|congruence].
Qed.

Lemma aclStart_order ext ak :
  NoDup (aclStart ext ak).2 ∧ ∀ k, k ∈ (aclStart ext ak).2 ↔ is_Some ((aclStart ext ak).1 !! k).
Proof.
  unfold aclStart. destruct (decide _); cbn [fst snd]; split.
  - apply NoDup_singleton.
  - intros k. rewrite list_elem_of_singleton, lookup_singleton_is_Some. done.
  - apply NoDup_cons. split; [rewrite list_elem_of_singleton; done|apply NoDup_singleton].
  - intros k. rewrite lookup_insert_is_Some', lookup_singleton_is_Some.
    rewrite elem_of_cons, list_elem_of_singleton. intuition congruence.
Qed.

Lemma aclFields_start ext ak :
  aclFields ext ak =
  (list_to_map (filter plainField (range ext)) ∪ (aclStart ext ak).1,
   (aclStart ext ak).2 ++ (filter plainField (range ext)).*1).
Proof.
  unfold aclFields, aclStart. destruct (decide _); by rewrite acl_fold by apply NoDup_fst_range.
Qed.

Lemma aclFields_map ext ak : (aclFields ext ak).1 = signedFields ext ak.
Proof.
  rewrite aclFields_start. cbn [fst]. apply map_eq. intros k. apply option_eq. intros v.
  rewrite lookup_union_Some_raw, plain_lookup, aclStart_lookup, lookup_signedFields.
  rewrite eq_None_not_Some.
  assert (is_Some ((list_to_map (filter plainField (range ext)) : gmap string string) !! k)
          ↔ ∃ w, plainField (k, w) ∧ ext !! k = Some w) as ->.
  { unfold is_Some. by setoid_rewrite plain_lookup. }
  unfold covered, plainField. cbn [fst snd].
  destruct (decide (k = aclAccessKey)) as [->|].
  { assert (aclAccessKey ≠ aclSecurityToken) by done. split; [tauto|].
    intros [?|?]; [|tauto]. right. split; [|tauto]. intros (w & ? & ?). tauto. }
  destruct (decide (k = aclSecurityToken)) as [->|].
  { assert (aclSecurityToken ≠ aclSignature) by done. split; [tauto|].
    intros [?|(_ & ? & ? & ?)]; [tauto|]. right. split; [|tauto]. intros (w & ? & ?). tauto. }
  split; [tauto|]. intros [?|(_ & ? & ? & ?)]; [tauto|]. left. tauto.
Qed.

Lemma aclFields_order ext ak : (aclFields ext ak).2 ≡ₚ elements (dom (signedFields ext ak)).
Proof.
  apply NoDup_Permutation; [|apply NoDup_elements|].
  - rewrite aclFields_start. cbn [snd]. apply NoDup_app. split; [apply aclStart_order|]. split.
    + intros k Hk (v & Hp & Hv)%plain_keys. apply aclStart_order in Hk as [w Hw].
      apply aclStart_lookup in Hw. unfold plainField in Hp. cbn [fst] in Hp. tauto.
    + eapply sublist_NoDup; [apply NoDup_fst_range|]. apply fmap_sublist, sublist_filter.
  - intros k. rewrite elem_of_elements, elem_of_dom, <- aclFields_map, aclFields_start.
    cbn [fst snd]. rewrite elem_of_app, plain_keys, lookup_union_is_Some.
    rewrite (proj2 (aclStart_order ext ak)).
    assert (is_Some ((list_to_map (filter plainField (range ext)) : gmap string string) !! k)
          ↔ ∃ w, plainField (k, w) ∧ ext !! k = Some w) as ->; [|tauto].
    unfold is_Some. by setoid_rewrite plain_lookup.
Qed.

Lemma aclContent_canonical ext ak : aclContent ext ak = canonical ext ak.
Proof.
  unfold aclContent, canonical. rewrite <- aclFields_map.
  pose proof (aclFields_order ext ak) as Hp. rewrite <- aclFields_map in Hp.
  destruct (aclFields ext ak) as [m order]. cbn [fst snd] in *.
  by rewrite (sortKeys_perm _ _ Hp).
Qed.
End canonical.

(** ** Properties *)

Section sign_spec.
Context `{!MapRange string string}.

(** The ext fields of a signed command. *)
Lemma SignACL_ext c ak sk :
  ExtFields (SignACL c ak sk) =
  Some (<[aclAccessKey := ak]>
         (<[aclSignature := calculateSignature
              (canonical (default ∅ (ExtFields c)) ak ++ Body c) (bytes_of sk)]>
           (default ∅ (ExtFields c)))).
Proof. unfold SignACL. by rewrite aclContent_canonical. Qed.

(** Neither an old signature nor an old access key is covered. *)
Lemma signedFields_insert ext ak ak' sig :
  signedFields (<[aclAccessKey := ak']> (<[aclSignature := sig]> ext)) ak = signedFields ext ak.
Proof.
  apply map_eq. intros k. apply option_eq. intros v. rewrite !lookup_signedFields.
  destruct (decide (k = aclAccessKey)) as [->|Hk]; [tauto|].
  rewrite lookup_insert_ne by done.
  destruct (decide (k = aclSignature)) as [->|Hs].
  - unfold covered. cbn [fst]. tauto.
  - by rewrite lookup_insert_ne.
Qed.

Lemma canonical_insert ext ak ak' sig :
  canonical (<[aclAccessKey := ak']> (<[aclSignature := sig]> ext)) ak = canonical ext ak.
Proof. unfold canonical. by rewrite signedFields_insert. Qed.

(** C30: [SignACL] implements the documented signing base.  Whatever order the
    map iteration takes, the signature is the base64 HMAC-SHA1, under the secret
    key, of the values of the covered fields in lexicographic key order followed
    by the body, where the covered fields are the access key in force, a
    non-empty security token and every other field except an old signature; the
    access key is attached, and no other field and no other part of the command
    changes. *)
Theorem SignACL_spec c ak sk :
  let ext := default ∅ (ExtFields c) in
  let c' := SignACL c ak sk in
  ext_get (ExtFields c') aclSignature =
    Some (calculateSignature (canonical ext ak ++ Body c) (bytes_of sk)) ∧
  ext_get (ExtFields c') aclAccessKey = Some ak ∧
  (∀ k, k ≠ aclSignature → k ≠ aclAccessKey →
     ext_get (ExtFields c') k = ext_get (ExtFields c) k) ∧
  set_ext (ExtFields c) c' = c.
Proof.
  intros ext c'. unfold c', ext_get. rewrite SignACL_ext. cbn [mbind option_bind].
  split; [|split; [|split]].
  - rewrite lookup_insert_ne by done. by rewrite lookup_insert_eq.
  - by rewrite lookup_insert_eq.
  - intros k Hs Ha. rewrite !lookup_insert_ne by done.
    by destruct (ExtFields c).
  - by destruct c.
Qed.

(** Signing a command that is signed already gives the same command, so a
    request that is signed again for a retry carries the same signature. *)
Theorem SignACL_idempotent c ak sk :
  SignACL (SignACL c ak sk) ak sk = SignACL c ak sk.
Proof.
  pose proof (SignACL_ext c ak sk) as H1.
  pose proof (SignACL_ext (SignACL c ak sk) ak sk) as H2. rewrite H1 in H2.
  simpl default in H2. rewrite canonical_insert in H2.
  rewrite (insert_insert_ne _ aclSignature aclAccessKey) in H2 by done.
  rewrite insert_insert_eq in H2.
  change (Body (SignACL c ak sk)) with (Body c) in H2. rewrite insert_insert_eq in H2.
  rewrite <- H1 in H2. unfold SignACL at 1, set_ext in H2. cbn [ExtFields] in H2.
  unfold SignACL at 1. rewrite H2. by destruct c.
Qed.
End sign_spec.
