(* ===== verification/Effects.v ===== *)
(** * Programs with effects

    The service and the task layers talk to their environment: they draw request
    identifiers, exchange commands with brokers, read the clock and write
    metrics.  A function of these layers is a [prog E A]: a well-founded tree
    whose nodes are the effects of type [E] the function performs, in the order
    of the code, and whose leaves are its outcome.  The answer of an effect is
    the argument of its continuation, so a theorem about the tree holds for
    every behaviour of the environment.  [run] executes a tree against a
    handler with a state. *)

From S2P Require Import Prelude.

Inductive prog (E : Type → Type) (A : Type) : Type :=
| Leaf (r : outcome A)
| Vis (X : Type) (e : E X) (k : X → prog E A).
Arguments Leaf {_ _} _.
Arguments Vis {_ _ _} _ _.

Section prog.
Context {E : Type → Type}.

Definition trigger {X} (e : E X) : prog E X := Vis e (λ x, Leaf (Ret x)).

Fixpoint prog_bind_aux {A B} (f : A → prog E B) (p : prog E A) : prog E B :=
  match p with
  | Leaf (Ret a) => f a
  | Leaf (Fail e) => Leaf (Fail e)
  | Leaf (Panic s) => Leaf (Panic s)
  | Vis e k => Vis e (λ x, prog_bind_aux f (k x))
  end.

(** [r, err := p()]: the error becomes a value, a panic goes through. *)
Fixpoint attempt {A} (p : prog E A) : prog E (error + A) :=
  match p with
  | Leaf (Ret a) => Leaf (Ret (inr a))
  | Leaf (Fail e) => Leaf (Ret (inl e))
  | Leaf (Panic s) => Leaf (Panic s)
  | Vis e k => Vis e (λ x, attempt (k x))
  end.
End prog.

#[export] Instance prog_ret {E} : MRet (prog E) := λ A a, Leaf (Ret a).
#[export] Instance prog_bind {E} : MBind (prog E) := λ A B f p, prog_bind_aux f p.

(** [for _, x := range l { f(x) }] *)
Fixpoint forEach {E A} (f : A → prog E unit) (l : list A) : prog E unit :=
  match l with
  | [] => mret tt
  | x :: l' => f x;; forEach f l'
  end.

Lemma forEach_ext {E A} (f g : A → prog E unit) l : (∀ x, f x = g x) → forEach f l = forEach g l.
Proof. intros Hf. induction l as [|x l IH]; [done|]. simpl. by rewrite Hf, IH. Qed.

(** The same with an accumulator. *)
Fixpoint foldProg {E A B} (f : B → A → prog E B) (b : B) (l : list A) : prog E B :=
  match l with
  | [] => mret b
  | x :: l' => b' ← f b x; foldProg f b' l'
  end.

(** The effects of one layer inside the effects of another. *)
Fixpoint translate {E F : Type → Type} (h : ∀ X, E X → F X) {A} (p : prog E A) : prog F A :=
  match p with
  | Leaf r => Leaf r
  | Vis e k => Vis (h _ e) (λ x, translate h (k x))
  end.

(** ** Every effect of a program *)

Section all_events.
Context {E : Type → Type} (P : ∀ X, E X → Prop).

(** Every effect the program may perform, whatever the answers, satisfies [P]. *)
Fixpoint all_events {A} (p : prog E A) : Prop :=
  match p with
  | Leaf _ => True
  | Vis e k => P _ e ∧ ∀ x, all_events (k x)
  end.

Lemma all_events_bind {A B} (p : prog E A) (f : A → prog E B) :
  all_events p → (∀ a, all_events (f a)) → all_events (p ≫= f).
Proof.
  intros Hp Hf. induction p as [[]|X e k IH]; [by apply Hf|done..|].
  destruct Hp as [? Hk]. split; [done|]. intros x. apply IH, Hk.
Qed.

Lemma all_events_attempt {A} (p : prog E A) : all_events p → all_events (attempt p).
Proof. intros Hp. induction p as [[]|X e k IH]; [done..|]. destruct Hp. split; auto. Qed.

Lemma all_events_forEach {A} (f : A → prog E unit) l :
  (∀ x, all_events (f x)) → all_events (forEach f l).
Proof. intros Hf. induction l as [|x l IH]; [done|]. apply all_events_bind; [apply Hf|by intros]. Qed.

Lemma all_events_foldProg {A B} (f : B → A → prog E B) b l :
  (∀ b x, all_events (f b x)) → all_events (foldProg f b l).
Proof.
  intros Hf. revert b. induction l as [|x l IH]; intros b; [done|].
  apply all_events_bind; [apply Hf|apply IH].
Qed.
End all_events.

Lemma all_events_translate {E F : Type → Type} (h : ∀ X, E X → F X) (P : ∀ X, F X → Prop) {A} (p : prog E A) :
  all_events (λ X e, P X (h X e)) p → all_events P (translate h p).
Proof. intros Hp. induction p as [r|X e k IH]; [done|]. destruct Hp. split; auto. Qed.

Lemma all_events_impl {E : Type → Type} (P Q : ∀ X, E X → Prop) {A} (p : prog E A) :
  (∀ X e, P X e → Q X e) → all_events P p → all_events Q p.
Proof. intros HPQ Hp. induction p as [r|X e k IH]; [done|]. destruct Hp. split; auto. Qed.

(** ** Execution *)

(** The outcome of [attempt]. *)
Definition caught {A} (r : outcome A) : outcome (error + A) :=
  match r with Ret a => Ret (inr a) | Fail e => Ret (inl e) | Panic s => Panic s end.

Section run.
Context {E : Type → Type} {S : Type} (h : ∀ X, E X → S → X * S).

Fixpoint run {A} (p : prog E A) (s : S) : outcome A * S :=
  match p with
  | Leaf r => (r, s)
  | Vis e k => let '(x, s') := h _ e s in run (k x) s'
  end.

Definition bind_run {A B} (r : outcome A * S) (f : A → S → outcome B * S) : outcome B * S :=
  match r.1 with
  | Ret a => f a r.2
  | Fail e => (Fail e, r.2)
  | Panic s => (Panic s, r.2)
  end.

Lemma run_bind {A B} (p : prog E A) (f : A → prog E B) s :
  run (p ≫= f) s = bind_run (run p s) (λ a s', run (f a) s').
Proof.
  revert s. induction p as [[]|X e k IH]; intros s; [done..|].
  simpl. destruct (h X e s) as [x s']. apply IH.
Qed.
End run.

(** ** defer, and the executions of a program *)

(** [defer cleanup()] followed by the rest of the function: the call is made
    when the rest returns, fails or panics. *)
Fixpoint finally {E A} (cleanup : prog E unit) (p : prog E A) : prog E A :=
  match p with
  | Leaf r => cleanup ≫= λ _, Leaf r
  | Vis e k => Vis e (λ x, finally cleanup (k x))
  end.

(** An effect with the answer it got. *)
Record event (E : Type → Type) : Type := mkEvent { evType : Type; evCall : E evType; evAnswer : evType }.
Arguments mkEvent {_ _} _ _.

(** [p] can perform the effects [tr], in this order and with these answers, and
    end with [r]. *)
Fixpoint execs {E A} (p : prog E A) (tr : list (event E)) (r : outcome A) : Prop :=
  match p with
  | Leaf r' => tr = [] ∧ r = r'
  | Vis e k => ∃ x tr', tr = mkEvent e x :: tr' ∧ execs (k x) tr' r
  end.

Section execs.
Context {E : Type → Type}.

Lemma execs_trigger {X} (e : E X) tr r : execs (trigger e) tr r ↔ ∃ x, tr = [mkEvent e x] ∧ r = Ret x.
Proof.
  simpl. split.
  - intros (x & tr' & -> & -> & ->). eauto.
  - intros (x & -> & ->). exists x, []. done.
Qed.

(** A sequence fails with its first part, or runs both. *)
Lemma execs_bind {A B} (p : prog E A) (f : A → prog E B) tr r :
  execs (p ≫= f) tr r ↔
  (∃ a tr1 tr2, tr = (tr1 ++ tr2)%list ∧ execs p tr1 (Ret a) ∧ execs (f a) tr2 r)
  ∨ (∃ e, r = Fail e ∧ execs p tr (Fail e)) ∨ (∃ msg, r = Panic msg ∧ execs p tr (Panic msg)).
Proof.
  revert tr. induction p as [[a|e|msg]|X e k IH]; intros tr; simpl.
  - split.
    + intros H. left. by exists a, [], tr.
    + by intros [(a' & tr1 & tr2 & -> & [-> [= ->]] & Hf)|[(e & -> & _ & [=])|(m & -> & _ & [=])]].
  - split; [intros [-> ->]; right; left; eauto|].
    by intros [(a' & tr1 & tr2 & -> & [_ [=]] & Hf)|[(e' & -> & -> & [= ->])|(m & -> & _ & [=])]].
  - split; [intros [-> ->]; right; right; eauto|].
    by intros [(a' & tr1 & tr2 & -> & [_ [=]] & Hf)|[(e' & -> & _ & [=])|(m & -> & -> & [= ->])]].
  - split.
    + intros (x & tr' & -> & [(a & tr1 & tr2 & -> & H1 & H2)|[(e' & -> & H)|(m & -> & H)]]%IH).
      * left. exists a, (mkEvent e x :: tr1), tr2. split; [done|]. split; [eauto|done].
      * right; left. eauto 10.
      * right; right. eauto 10.
    + intros [(a & tr1 & tr2 & -> & (x & tr' & -> & H1) & H2)|[(e' & -> & x & tr' & -> & H)|(m & -> & x & tr' & -> & H)]].
      * exists x, (tr' ++ tr2)%list. split; [done|]. apply IH. left. eauto 10.
      * exists x, tr'. split; [done|]. apply IH. eauto.
      * exists x, tr'. split; [done|]. apply IH. eauto.
Qed.

(** The deferred call comes last, however the rest ended. *)
Lemma execs_finally {A} (e : E unit) (p : prog E A) tr r :
  execs (finally (trigger e) p) tr r ↔ ∃ tr1, tr = (tr1 ++ [mkEvent e tt])%list ∧ execs p tr1 r.
Proof.
  revert tr. induction p as [r'|X e' k IH]; intros tr; simpl.
  - split.
    + intros ([] & tr' & -> & -> & ->). by exists [].
    + intros (tr1 & -> & -> & ->). by exists tt, [].
  - split.
    + intros (x & tr' & -> & (tr1 & -> & H)%IH). exists (mkEvent e' x :: tr1). eauto 10.
    + intros (tr1 & -> & x & tr' & -> & H). exists x, (tr' ++ [mkEvent e tt])%list.
      split; [done|]. apply IH. eauto.
Qed.
End execs.
