(* ===== verification/WorkerPool.v ===== *)
(** * The task pool: internal/task/workerpool.go

    [WorkerPool] with its mutex, its condition variable and its goroutines as a
    labelled transition system.  Every critical section of the code is one
    step, since it runs under [p.mu]; a task body runs outside the mutex
    between two steps of its worker.  The task type is a parameter: the pool
    only stores and calls closures. *)

From Stdlib Require Import ZArith Lia.
From S2P Require Import Prelude.

Section pool.
Context {Task : Type}.

Record WorkerPool : Type := mkPool {
  buf : list Task;
  cap : Z;
  workers : Z;
  stopped : bool;
  wg : Z
}.

Definition set_buf (b : list Task) (p : WorkerPool) : WorkerPool :=
  mkPool b (cap p) (workers p) (stopped p) (wg p).
Definition set_stopped (s : bool) (p : WorkerPool) : WorkerPool :=
  mkPool (buf p) (cap p) (workers p) s (wg p).
Definition set_wg (n : Z) (p : WorkerPool) : WorkerPool :=
  mkPool (buf p) (cap p) (workers p) (stopped p) n.

Definition New (workers queue : Z) : WorkerPool :=
  let workers := if workers <? 1 then 1 else workers in
  let queue := if queue <? 1 then 1 else queue in
  mkPool [] queue workers false 0.

(** [p.buf[1:]] panics on an empty buffer.  After the copy the last element is
    stored twice and the truncation removes the second one. *)
Definition dropOldest (b : list Task) : outcome (list Task) :=
  match b with
  | [] => Panic "slice bounds out of range"
  | x :: rest =>
      let copied := rest ++ drop (length rest) b in
      Ret (take (length b - 1) copied)
  end.

(** [Submit] without the wake-up: the new pool, and whether [Signal] is called. *)
Definition Submit (t : Task) (p : WorkerPool) : outcome (WorkerPool * bool) :=
  if stopped p then Ret (p, false)
  else
    b ← (if cap p <=? len (buf p) then dropOldest (buf p) else Ret (buf p));
    Ret (set_buf (b ++ [t]) p, true).

Definition QueueLen (p : WorkerPool) : Z := len (buf p).

(** Where a worker goroutine is: about to take the mutex (fresh, woken, or back
    from a task), parked in [cond.Wait], inside [t()], or returned. *)
Inductive wstate : Type :=
| Locking
| Waiting
| Running (t : Task)
| Exited.

(** The critical section of [worker], from [Lock] to the matching [Unlock] or
    to the [Wait] that releases the mutex. *)
Definition workerSection (p : WorkerPool) : WorkerPool * wstate :=
  if negb (stopped p) && (match buf p with [] => true | _ => false end) then (p, Waiting)
  else match buf p with
       | [] => (set_wg (wg p - 1) p, Exited)
       | t :: rest => (set_buf rest p, Running t)
       end.

(** [Broadcast] wakes every parked goroutine. *)
Definition wakeAll (gos : list wstate) : list wstate :=
  (λ g, match g with Waiting => Locking | g => g end) <$> gos.

(** The pool, its goroutines, and the history: the tasks that were accepted,
    those dropped by a full buffer, those started and those finished, in order;
    [returned] once a call of [Shutdown] has come back. *)
Record system : Type := mkSystem {
  pool : WorkerPool;
  gos : list wstate;
  accepted : list Task;
  discarded : list Task;
  started : list Task;
  finished : list Task;
  returned : bool
}.

Definition initial (nworkers queue : Z) : system :=
  mkSystem (New nworkers queue) [] [] [] [] [] false.

Inductive label : Type :=
| LStart
| LSubmit (t : Task) (wake : option nat)
| LWorker (i : nat)
| LShutdown
| LShutdownReturn.

(** [Signal] wakes one parked goroutine if there is one; the label says which. *)
Definition Signal (gs : list wstate) (wake : option nat) : option (list wstate) :=
  match wake with
  | Some i => match gs !! i with Some Waiting => Some (<[i := Locking]> gs) | _ => None end
  | None => if forallb (λ g, match g with Waiting => false | _ => true end) gs
            then Some gs else None
  end.

Definition start (s : system) : system :=
  let n := Z.to_nat (workers (pool s)) in
  mkSystem (set_wg (wg (pool s) + Z.of_nat n) (pool s)) (gos s ++ repeat Locking n)
    (accepted s) (discarded s) (started s) (finished s) (returned s).

Definition submit (t : Task) (wake : option nat) (s : system) : option system :=
  match Submit t (pool s) with
  | Ret (p', true) =>
      gs ← Signal (gos s) wake;
      let lost := if cap (pool s) <=? len (buf (pool s)) then take 1 (buf (pool s)) else [] in
      Some (mkSystem p' gs (accepted s ++ [t]) (discarded s ++ lost)
              (started s) (finished s) (returned s))
  | Ret (p', false) =>
      Some (mkSystem p' (gos s) (accepted s) (discarded s) (started s) (finished s) (returned s))
  | _ => None
  end.

Definition workerStep (i : nat) (s : system) : option system :=
  match gos s !! i with
  | Some Locking =>
      let '(p', g) := workerSection (pool s) in
      Some (mkSystem p' (<[i := g]> (gos s)) (accepted s) (discarded s)
              (started s ++ match g with Running t => [t] | _ => [] end)
              (finished s) (returned s))
  | Some (Running t) =>
      Some (mkSystem (pool s) (<[i := Locking]> (gos s)) (accepted s) (discarded s)
              (started s) (finished s ++ [t]) (returned s))
  | _ => None
  end.

Definition shutdown (s : system) : system :=
  mkSystem (set_stopped true (pool s)) (wakeAll (gos s))
    (accepted s) (discarded s) (started s) (finished s) (returned s).

Definition step (l : label) (s : system) : option system :=
  match l with
  | LStart => Some (start s)
  | LSubmit t wake => submit t wake s
  | LWorker i => workerStep i s
  | LShutdown => Some (shutdown s)
  | LShutdownReturn =>
      if stopped (pool s) && (wg (pool s) =? 0)
      then Some (mkSystem (pool s) (gos s) (accepted s) (discarded s) (started s) (finished s) true)
      else None
  end.

Definition pstep : system → system → Prop := lts_step step.
Definition reachable (nworkers queue : Z) (s : system) : Prop :=
  rtc pstep (initial nworkers queue) s.

(** A step of some worker goroutine. *)
Definition wstep (s s' : system) : Prop := ∃ i, workerStep i s = Some s'.

(** ** Counting goroutines *)

Definition isLocking (g : wstate) : bool := match g with Locking => true | _ => false end.
Definition isWaiting (g : wstate) : bool := match g with Waiting => true | _ => false end.
Definition isLive (g : wstate) : bool := match g with Exited => false | _ => true end.

Definition count (f : wstate → bool) (gs : list wstate) : nat := length (List.filter f gs).
Definition running (gs : list wstate) : list Task :=
  gs ≫= λ g, match g with Running t => [t] | _ => [] end.

Lemma count_app f gs1 gs2 : count f (gs1 ++ gs2) = (count f gs1 + count f gs2)%nat.
Proof. unfold count. by rewrite List.filter_app, length_app. Qed.

Lemma count_cons f g gs : count f (g :: gs) = (Nat.b2n (f g) + count f gs)%nat.
Proof. unfold count. simpl. by destruct (f g). Qed.

Lemma count_insert f gs i g g' :
  gs !! i = Some g →
  (count f (<[i := g']> gs) + Nat.b2n (f g) = count f gs + Nat.b2n (f g'))%nat.
Proof.
  intros H. rewrite insert_take_drop by eauto using lookup_lt_Some.
  rewrite <- (take_drop_middle gs i g H) at 3. rewrite !count_app, !count_cons. lia.
Qed.

Lemma count_zero f gs : count f gs = 0%nat ↔ ∀ g, g ∈ gs → f g = false.
Proof.
  induction gs as [|g gs IH]; [split; [intros _ g; by rewrite elem_of_nil|done]|].
  rewrite count_cons. split.
  - intros H g' [->|Hin]%elem_of_cons; [destruct (f g); [done|done]|].
    apply IH; [lia|done].
  - intros H. rewrite (H g) by left. apply IH. intros. apply H. by right.
Qed.

Lemma count_pos f gs : (0 < count f gs)%nat → ∃ g, g ∈ gs ∧ f g = true.
Proof.
  induction gs as [|g gs IH]; [unfold count; simpl; lia|]. rewrite count_cons.
  destruct (f g) eqn:E; simpl.
  - intros _. exists g. split; [left|done].
  - intros (g' & ? & ?)%IH. exists g'. split; [by right|done].
Qed.

Lemma count_repeat f n : count f (repeat Locking n) = if f Locking then n else 0%nat.
Proof.
  induction n as [|n IH]; simpl; [by destruct (f Locking)|].
  rewrite count_cons, IH. by destruct (f Locking).
Qed.

Lemma running_insert gs i g g' :
  gs !! i = Some g →
  running (<[i := g']> gs) ++ running [g] ≡ₚ running gs ++ running [g'].
Proof.
  intros H. unfold running. rewrite !bind_cons, !app_nil_r.
  exact (bind_insert_perm (λ g, match g with Running t => [t] | _ => [] end) gs i g g' H).
Qed.

Lemma running_repeat n : running (repeat Locking n) = [].
Proof. induction n; [done|]. simpl. done. Qed.

Lemma wakeAll_count_waiting gs : count isWaiting (wakeAll gs) = 0%nat.
Proof.
  apply count_zero. intros g Hg. apply list_elem_of_fmap in Hg as (g' & -> & _).
  by destruct g'.
Qed.

Lemma wakeAll_count_live gs : count isLive (wakeAll gs) = count isLive gs.
Proof.
  induction gs as [|g gs IH]; [done|]. unfold wakeAll. rewrite fmap_cons, !count_cons.
  fold (wakeAll gs). rewrite IH. by destruct g.
Qed.

Lemma wakeAll_running gs : running (wakeAll gs) = running gs.
Proof.
  induction gs as [|g gs IH]; [done|]. unfold running, wakeAll in *.
  rewrite fmap_cons, !bind_cons, IH. by destruct g.
Qed.

Lemma wakeAll_exited gs : Exited ∈ wakeAll gs → Exited ∈ gs.
Proof. intros (g & Hg & Hin)%list_elem_of_fmap. by destruct g; simplify_eq. Qed.

Lemma Signal_inv gs wake gs' :
  Signal gs wake = Some gs' →
  (gs' = gs ∧ count isWaiting gs = 0%nat) ∨
  (∃ i, gs !! i = Some Waiting ∧ gs' = <[i := Locking]> gs).
Proof.
  unfold Signal. destruct wake as [i|].
  - destruct (gs !! i) as [[]|] eqn:E; intros; simplify_eq. eauto.
  - destruct (forallb _ gs) eqn:E; intros; simplify_eq. left. split; [done|].
    apply count_zero. intros g Hg. apply list_elem_of_In in Hg.
    eapply forallb_forall in E; [|exact Hg]. by destruct g.
Qed.

(** ** The operations *)

Lemma dropOldest_tail b : b ≠ [] → dropOldest b = Ret (tail b) ∧ b = take 1 b ++ tail b.
Proof.
  destruct b as [|x rest]; [done|]. intros _. simpl. split; [|done].
  rewrite Nat.sub_0_r. by rewrite take_app_length.
Qed.

(** Well-formedness of the shared struct. *)
Definition pool_wf (p : WorkerPool) : Prop := 1 ≤ cap p ∧ len (buf p) ≤ cap p.

Lemma Submit_accepting t p :
  pool_wf p → stopped p = false →
  Submit t p = Ret (set_buf ((if cap p <=? len (buf p) then tail (buf p) else buf p) ++ [t]) p, true).
Proof.
  intros [Hc Hl] Hs. unfold Submit. rewrite Hs. destruct (Z.leb_spec (cap p) (len (buf p))); [|done].
  destruct (dropOldest_tail (buf p)) as [-> _]; [|done].
  intros E. rewrite E in *. unfold len in *. simpl in *. lia.
Qed.

(** The specification of a discard-oldest queue of capacity [c]: append, then
    keep the last [c] elements. *)
Definition spec_push (c : nat) (t : Task) (q : list Task) : list Task :=
  drop (length (q ++ [t]) - c) (q ++ [t]).

Lemma spec_push_tail c t q :
  (1 ≤ c)%nat → (length q ≤ c)%nat →
  (if Z.of_nat c <=? len q then tail q else q) ++ [t] = spec_push c t q.
Proof.
  intros. unfold spec_push, len. rewrite length_app. simpl.
  destruct (Z.leb_spec (Z.of_nat c) (Z.of_nat (length q))).
  - replace (length q + 1 - c)%nat with 1%nat by lia. destruct q; [simpl in *; lia|done].
  - by replace (length q + 1 - c)%nat with 0%nat by lia.
Qed.

(** ** The invariant *)

Record inv (s : system) : Prop := {
  inv_wf : pool_wf (pool s);
  inv_stopped : stopped (pool s) = true → count isWaiting (gos s) = 0%nat;
  inv_wakeup : count isWaiting (gos s) = 0%nat ∨
               (length (buf (pool s)) ≤ count isLocking (gos s))%nat;
  inv_wg : wg (pool s) = Z.of_nat (count isLive (gos s));
  inv_tasks : accepted s ≡ₚ discarded s ++ started s ++ buf (pool s);
  inv_order : started s ++ buf (pool s) `sublist_of` accepted s;
  inv_running : started s ≡ₚ finished s ++ running (gos s);
  inv_exited : Exited ∈ gos s → stopped (pool s) = true ∧ buf (pool s) = []
}.

Lemma pool_inv_initial w q : inv (initial w q).
Proof.
  split; simpl; try done.
  - unfold pool_wf, len. simpl. destruct (Z.ltb_spec q 1); lia.
  - by left.
  - intros H. by apply elem_of_nil in H.
Qed.

Lemma inv_start s : inv s → inv (start s).
Proof.
  intros [Hwf Hst Hwk Hwg Ht Ho Hr He]. split; simpl; try done.
  - intros Hs. rewrite count_app, count_repeat, Hst; done.
  - rewrite !count_app, !count_repeat. simpl. lia.
  - rewrite count_app, count_repeat. simpl. lia.
  - unfold running. rewrite bind_app. fold (running (gos s)).
    fold (running (repeat Locking (Z.to_nat (workers (pool s))))).
    by rewrite running_repeat, app_nil_r.
  - intros [H|H]%elem_of_app; [by apply He|]. apply list_elem_of_In, repeat_spec in H. done.
Qed.

Lemma sublist_push (st q acc : list Task) t b :
  st ++ q `sublist_of` acc → b `sublist_of` q → st ++ b ++ [t] `sublist_of` acc ++ [t].
Proof.
  intros H Hb. rewrite app_assoc. apply sublist_app; [|done].
  etrans; [|exact H]. by apply sublist_app.
Qed.

Lemma submit_cases t wake s s' :
  pool_wf (pool s) → submit t wake s = Some s' →
  (stopped (pool s) = true ∧ s' = s) ∨
  (stopped (pool s) = false ∧ ∃ lost kept gs,
     buf (pool s) = lost ++ kept ∧ len kept < cap (pool s) ∧ Signal (gos s) wake = Some gs ∧
     s' = mkSystem (set_buf (kept ++ [t]) (pool s)) gs (accepted s ++ [t]) (discarded s ++ lost)
            (started s) (finished s) (returned s)).
Proof.
  intros Hwf Hsub. unfold submit in Hsub. destruct (stopped (pool s)) eqn:Es.
  { unfold Submit in Hsub. rewrite Es in Hsub. simplify_eq. left. by destruct s. }
  right. split; [done|]. rewrite (Submit_accepting t _ Hwf Es) in Hsub.
  destruct (Signal (gos s) wake) as [gs|]; simplify_eq/=. destruct Hwf as [Hc Hl].
  destruct (Z.leb_spec (cap (pool s)) (len (buf (pool s)))) as [H|H].
  - eexists _, _, _. split; [|split; [|split; [done|reflexivity]]].
    + by destruct (buf (pool s)).
    + unfold len in *. destruct (buf (pool s)); simpl in *; lia.
  - eexists _, _, _. split; [|split; [|split; [done|reflexivity]]]; done.
Qed.

Lemma inv_submit t wake s s' : inv s → submit t wake s = Some s' → inv s'.
Proof.
  intros Hinv Hsub. apply submit_cases in Hsub; [|apply Hinv].
  destruct Hsub as [[_ ->]|(Hs & lost & kept & gs & Hb & Hl & Hsig & ->)]; [done|].
  destruct Hinv as [[Hc _] Hst Hwk Hwg Ht Ho Hr He].
  assert (HE : Exited ∉ gos s) by (intros H; destruct (He H); congruence).
  assert (Hwf' : pool_wf (set_buf (kept ++ [t]) (pool s))).
  { split; simpl; [done|]. unfold len in *. rewrite length_app. simpl. lia. }
  assert (Ht' : accepted s ++ [t] ≡ₚ (discarded s ++ lost) ++ started s ++ kept ++ [t]).
  { rewrite Ht, Hb. solve_Permutation. }
  assert (Ho' : started s ++ kept ++ [t] `sublist_of` accepted s ++ [t]).
  { eapply sublist_push; [exact Ho|]. rewrite Hb. by apply sublist_inserts_l. }
  apply Signal_inv in Hsig as [[-> Hw]|(i & Hi & ->)].
  - split; simpl; try done. by left.
  - pose proof (count_insert isWaiting _ _ _ Locking Hi) as H1.
    pose proof (count_insert isLocking _ _ _ Locking Hi) as H2.
    pose proof (count_insert isLive _ _ _ Locking Hi) as H3.
    pose proof (running_insert _ _ _ Locking Hi) as H4.
    simpl in *. rewrite !app_nil_r in H4. rewrite Hb, length_app in Hwk.
    split; simpl; try done; [congruence|rewrite length_app; simpl; lia|lia|by rewrite H4|].
    intros (j & Hj)%list_elem_of_lookup. destruct (decide (i = j)) as [<-|].
    + rewrite list_lookup_insert_eq in Hj; [done|eauto using lookup_lt_Some].
    + rewrite list_lookup_insert_ne in Hj by done.
      destruct HE. eauto using list_elem_of_lookup_2.
Qed.

Lemma exited_insert (gs : list wstate) (i : nat) g :
  Exited ∈ <[i := g]> gs → g = Exited ∨ Exited ∈ gs.
Proof.
  intros (j & Hj)%list_elem_of_lookup. apply list_lookup_insert_Some in Hj as [(_ & -> & _)|[_ Hj]];
    eauto using list_elem_of_lookup_2.
Qed.

Lemma inv_worker i s s' : inv s → workerStep i s = Some s' → inv s'.
Proof.
  intros [Hwf Hst Hwk Hwg Ht Ho Hr He] Hstep. unfold workerStep in Hstep.
  destruct (gos s !! i) as [g|] eqn:Hi; [|done].
  assert (HW := λ g', count_insert isWaiting _ _ _ g' Hi).
  assert (HL := λ g', count_insert isLocking _ _ _ g' Hi).
  assert (HV := λ g', count_insert isLive _ _ _ g' Hi).
  assert (HR := λ g', running_insert _ _ _ g' Hi).
  destruct g as [| |t|]; simplify_eq/=.
  - unfold workerSection in Hstep.
    destruct (buf (pool s)) as [|t rest] eqn:Eb; [rewrite app_nil_r in Ht, Ho;
      destruct (stopped (pool s)) eqn:Es|];
      rewrite ?andb_false_r in Hstep; simplify_eq/=; rewrite ?app_nil_r.
    + specialize (HW Exited); specialize (HV Exited); specialize (HR Exited).
      simpl in *. rewrite !app_nil_r in HR.
      split; simpl; rewrite ?Eb, ?app_nil_r; try done; try lia.
      * by rewrite HR.
    + specialize (HW Waiting); specialize (HV Waiting); specialize (HR Waiting).
      simpl in *. rewrite !app_nil_r in HR.
      split; simpl; rewrite ?Eb, ?app_nil_r, ?HR; try done; try lia; try congruence.
      { right. simpl. lia. }
      intros [?|?]%exited_insert; [done|]. destruct (He ltac:(done)). congruence.
    + specialize (HW (Running t)); specialize (HV (Running t)); specialize (HR (Running t)).
      specialize (HL (Running t)). simpl in *. rewrite !app_nil_r in HR.
      destruct Hwf as [Hc Hl]. rewrite Eb in Hl.
      split; simpl; try done; try lia.
      * split; simpl; [done|]. unfold len in *. simpl in *. lia.
      * intros Hs. specialize (Hst Hs). lia.
      * rewrite Ht. solve_Permutation.
      * by rewrite <- app_assoc.
      * rewrite HR, Hr. solve_Permutation.
      * intros [?|HE]%exited_insert; [done|]. destruct (He HE). congruence.
  - specialize (HW Locking); specialize (HV Locking); specialize (HR Locking).
    specialize (HL Locking). simpl in *. rewrite app_nil_r in HR.
    split; simpl; try done; try lia.
    + intros Hs. specialize (Hst Hs). lia.
    + rewrite Hr, <- HR. solve_Permutation.
    + intros [?|HE]%exited_insert; [done|]. by apply He.
Qed.

Lemma inv_shutdown s : inv s → inv (shutdown s).
Proof.
  intros [Hwf Hst Hwk Hwg Ht Ho Hr He]. split; simpl; try done.
  - intros _. apply wakeAll_count_waiting.
  - left. apply wakeAll_count_waiting.
  - by rewrite wakeAll_count_live.
  - by rewrite wakeAll_running.
  - intros HE%wakeAll_exited. split; [done|]. by apply He.
Qed.

Lemma pool_inv_step s s' : inv s → pstep s s' → inv s'.
Proof.
  intros Hinv [[|t wake|i| |] H]; simpl in H.
  - simplify_eq. by apply inv_start.
  - by eapply inv_submit.
  - by eapply inv_worker.
  - simplify_eq. by apply inv_shutdown.
  - destruct (_ && _); simplify_eq. destruct Hinv. by split.
Qed.

Lemma pool_inv_reachable w q s : reachable w q s → inv s.
Proof. intros H. eapply rtc_invariant; [apply pool_inv_step|exact H|apply pool_inv_initial]. Qed.

(** ** Progress and termination of the drain *)

Definition weight (g : wstate) : nat :=
  match g with Locking => 1 | Waiting => 0 | Running _ => 2 | Exited => 0 end.
Definition weights (gs : list wstate) : nat := sum_list_with weight gs.
Definition measure (s : system) : nat := (3 * length (buf (pool s)) + weights (gos s))%nat.

Lemma weights_insert gs i g g' :
  gs !! i = Some g → (weights (<[i := g']> gs) + weight g = weights gs + weight g')%nat.
Proof.
  intros H. rewrite insert_take_drop by eauto using lookup_lt_Some.
  rewrite <- (take_drop_middle gs i g H) at 3. unfold weights.
  rewrite !sum_list_with_app. simpl. lia.
Qed.

Lemma pool_drain_decreases i s s' :
  stopped (pool s) = true → workerStep i s = Some s' →
  stopped (pool s') = true ∧ (measure s' < measure s)%nat.
Proof.
  intros Hs Hstep. unfold workerStep, workerSection in Hstep. rewrite Hs in Hstep. simpl in Hstep.
  destruct (gos s !! i) as [g|] eqn:Hi; [|done].
  assert (HW := λ g', weights_insert _ _ _ g' Hi).
  destruct g as [| |t|]; [|done| |done].
  - destruct (buf (pool s)) as [|t rest] eqn:Eb; simplify_eq/=; (split; [done|]); unfold measure;
      simpl; rewrite ?Eb.
    + specialize (HW Exited). simpl in *. lia.
    + specialize (HW (Running t)). simpl in *. lia.
  - simplify_eq/=. split; [done|]. unfold measure. simpl. specialize (HW Locking). simpl in *. lia.
Qed.

Lemma drain_bounded n s s' :
  stopped (pool s) = true → nsteps wstep n s s' →
  stopped (pool s') = true ∧ (n + measure s' ≤ measure s)%nat.
Proof.
  intros Hs H. revert Hs. induction H as [s|n s s1 s' [i Hi] _ IH]; intros Hs; [split; [done|lia]|].
  destruct (pool_drain_decreases i s s1 Hs Hi) as [Hs1 Hlt].
  destruct (IH Hs1). split; [done|lia].
Qed.

(** A worker that holds or wants the mutex, or that runs a task, can step. *)
Lemma worker_enabled s g :
  g ∈ gos s → g = Locking ∨ (∃ t, g = Running t) → ∃ s', wstep s s'.
Proof.
  intros (i & Hi)%list_elem_of_lookup Hg. unfold wstep, workerStep.
  destruct Hg as [->|[t ->]].
  - destruct (workerSection (pool s)) as [p' g] eqn:E. eexists _, i. rewrite Hi. reflexivity.
  - eexists _, i. rewrite Hi. reflexivity.
Qed.

Lemma live_enabled s :
  inv s → count isWaiting (gos s) = 0%nat → wg (pool s) ≠ 0 → ∃ s', wstep s s'.
Proof.
  intros Hinv Hw Hwg. rewrite (inv_wg s Hinv) in Hwg.
  destruct (count_pos isLive (gos s)) as (g & Hg & Hl); [lia|].
  apply (worker_enabled s g Hg).
  pose proof (proj1 (count_zero isWaiting (gos s)) Hw g Hg).
  destruct g; [by left|done|eauto|done].
Qed.

Lemma inv_wsteps s s' : inv s → rtc wstep s s' → inv s'.
Proof.
  intros Hinv H. eapply rtc_invariant; [|exact H|exact Hinv].
  intros a b Ha [i Hi]. eapply inv_worker; eauto.
Qed.

Lemma wsteps_gos s s' : rtc wstep s s' → length (gos s') = length (gos s).
Proof.
  induction 1 as [s|s s1 s' [i Hi] _ IH]; [done|]. rewrite IH. unfold workerStep in Hi.
  destruct (gos s !! i) as [[]|]; [destruct (workerSection _)| | | |]; simplify_eq/=;
    by rewrite length_insert.
Qed.

(** ** Properties *)

(** [Submit] implements a discard-oldest queue.  In every reachable state it
    does not panic: a pool that was shut down drops the task and changes
    nothing; otherwise the new buffer is the old one with the task appended, cut
    to its last [cap] elements, and one worker is signalled. *)
Theorem Submit_refines w q s t :
  reachable w q s →
  Submit t (pool s) =
    if stopped (pool s) then Ret (pool s, false)
    else Ret (set_buf (spec_push (Z.to_nat (cap (pool s))) t (buf (pool s))) (pool s), true).
Proof.
  intros Hr. destruct (pool_inv_reachable _ _ _ Hr) as [Hwf _ _ _ _ _ _ _].
  destruct (stopped (pool s)) eqn:Es; [unfold Submit; by rewrite Es|].
  rewrite Submit_accepting by done. destruct Hwf as [Hc Hl].
  rewrite <- spec_push_tail by (unfold len in *; lia). by rewrite Z2Nat.id by lia.
Qed.

(** C25: what the pool guarantees at every moment of every interleaving of
    submitters, workers and shutdown: the buffer never exceeds its capacity;
    every accepted task is discarded, finished, running or pending, exactly
    once; tasks are started in the order in which they were accepted; and
    [p.wg] counts the workers that have not returned. *)
Theorem pool_accounting w q s :
  reachable w q s →
  len (buf (pool s)) ≤ cap (pool s) ∧
  accepted s ≡ₚ discarded s ++ finished s ++ running (gos s) ++ buf (pool s) ∧
  started s ++ buf (pool s) `sublist_of` accepted s ∧
  wg (pool s) = Z.of_nat (count isLive (gos s)).
Proof.
  intros Hr. destruct (pool_inv_reachable _ _ _ Hr) as [[_ Hl] _ _ Hwg Ht Ho Hrun _].
  split; [done|]. split; [|done]. rewrite Ht, Hrun. solve_Permutation.
Qed.

(** C35: no wake-up is lost.  While a worker is parked there are at least as many
    workers on their way to the mutex as there are pending tasks; so with a
    pending task and a started pool some worker can always make a step. *)
Theorem no_lost_wakeup w q s :
  reachable w q s →
  ((0 < count isWaiting (gos s))%nat →
     (length (buf (pool s)) ≤ count isLocking (gos s))%nat) ∧
  (gos s ≠ [] → buf (pool s) ≠ [] → ∃ s', wstep s s').
Proof.
  intros Hr. pose proof (pool_inv_reachable _ _ _ Hr) as Hinv.
  destruct (inv_wakeup s Hinv) as [Hw|Hw]; (split; [lia|]); intros Hg Hb.
  - apply live_enabled; [done..|]. rewrite (inv_wg s Hinv). intros H0.
    destruct (gos s) as [|g gs] eqn:E; [done|].
    assert (Hx : isLive g = false) by (apply (count_zero isLive (g :: gs)); [lia|left]).
    destruct g; try done. destruct (inv_exited s Hinv); [rewrite E; left|done].
  - destruct (buf (pool s)) as [|t b]; [done|].
    destruct (count_pos isLocking (gos s)) as (g & Hin & Hl); [simpl in *; lia|].
    apply (worker_enabled s g Hin). destruct g; try done. by left.
Qed.

(** C2: graceful shutdown.  After the critical section of [Shutdown], with the
    pool started: the workers can make at most [measure] more steps; and when
    they can make none, every task that was accepted and not discarded has
    finished, the buffer is empty, all workers have returned, and [Shutdown]
    itself returns. *)
Theorem shutdown_drains w q s :
  reachable w q s → stopped (pool s) = true → gos s ≠ [] →
  (∀ n s', nsteps wstep n s s' → (n ≤ measure s)%nat) ∧
  (∀ s', rtc wstep s s' → (∀ s'', ¬ wstep s' s'') →
     buf (pool s') = [] ∧ count isLive (gos s') = 0%nat ∧
     accepted s' ≡ₚ discarded s' ++ finished s' ∧
     is_Some (step LShutdownReturn s')).
Proof.
  intros Hr Hs Hg. pose proof (pool_inv_reachable _ _ _ Hr) as Hinv. split.
  { intros n s' H. pose proof (drain_bounded n s s' Hs H). lia. }
  intros s' Hsteps Hstuck. pose proof (inv_wsteps _ _ Hinv Hsteps) as Hinv'.
  assert (Hs' : stopped (pool s') = true).
  { apply rtc_nsteps in Hsteps as [n Hn]. by apply (drain_bounded n s s' Hs). }
  assert (Hwg : wg (pool s') = 0).
  { destruct (decide (wg (pool s') = 0)); [done|].
    destruct (live_enabled s' Hinv' (inv_stopped s' Hinv' Hs')) as [s'' H]; [done|].
    by destruct (Hstuck s''). }
  assert (Hlive : count isLive (gos s') = 0%nat).
  { pose proof (inv_wg s' Hinv'). lia. }
  assert (Hall : ∀ g, g ∈ gos s' → g = Exited).
  { intros g Hin. pose proof (proj1 (count_zero _ _) Hlive g Hin). by destruct g. }
  assert (Hb : buf (pool s') = []).
  { apply (inv_exited s' Hinv'). apply wsteps_gos in Hsteps.
    destruct (gos s') as [|g gs] eqn:E; [destruct (gos s); simpl in *; [done|lia]|].
    rewrite (Hall g) by left. left. }
  split; [done|]. split; [done|]. split.
  - rewrite (inv_tasks s' Hinv'), (inv_running s' Hinv'), Hb, app_nil_r.
    assert (running (gos s') = []) as ->; [|by rewrite app_nil_r].
    revert Hall. generalize (gos s'). intros gs Hall. induction gs as [|g gs IH]; [done|].
    rewrite (Hall g) by left. apply IH. intros. apply Hall. by right.
  - simpl. rewrite Hs', Hwg. simpl. eauto.
Qed.
End pool.

(** ** Concrete runs *)

(** One worker, a buffer of two: the worker parks, is woken by the first of four
    submissions, and by the time it runs the two oldest tasks are gone. *)
Definition sample_run : list (@label Z) :=
  [LStart; LWorker 0; LSubmit 1 (Some 0%nat); LSubmit 2 None; LSubmit 3 None; LSubmit 4 None].

Definition sample_state : @system Z :=
  default (initial 1 2) (lts_run step sample_run (initial 1 2)).

Lemma sample_reachable : reachable 1 2 sample_state.
Proof. apply (lts_run_rtc step sample_run). reflexivity. Qed.

Example sample_state_eq :
  buf (pool sample_state) = [3; 4] ∧ discarded sample_state = [1; 2] ∧ gos sample_state = [Locking].
Proof. done. Qed.

Lemma Submit_refines_witness :
  Submit 5 (pool sample_state) = Ret (set_buf [4; 5] (pool sample_state), true).
Proof. exact (Submit_refines 1 2 sample_state 5 sample_reachable). Defined.

Lemma pool_accounting_witness :
  len (buf (pool sample_state)) ≤ 2 ∧ [1; 2; 3; 4] ≡ₚ [1; 2] ++ [] ++ [] ++ [3; 4].
Proof.
  destruct (pool_accounting 1 2 sample_state sample_reachable) as (H1 & H2 & _). exact (conj H1 H2).
Defined.

Lemma no_lost_wakeup_witness : ∃ s', wstep sample_state s'.
Proof.
  destruct (no_lost_wakeup 1 2 sample_state sample_reachable) as [_ H]. apply H; discriminate.
Defined.

Lemma shutdown_sample_reachable : reachable 1 2 (shutdown sample_state).
Proof. apply (lts_run_rtc step (sample_run ++ [LShutdown])). reflexivity. Qed.

(** The worker runs both pending tasks and returns. *)
Definition drained_state : @system Z :=
  default (initial 1 2)
    (lts_run step [LWorker 0; LWorker 0; LWorker 0; LWorker 0; LWorker 0] (shutdown sample_state)).

Lemma drained_steps : rtc wstep (shutdown sample_state) drained_state.
Proof. vm_compute. do 5 (eapply rtc_l; [exists 0%nat; reflexivity|]). constructor. Qed.

Lemma drained_stuck s : ¬ wstep drained_state s.
Proof. intros [[|i] H]; vm_compute in H; [discriminate|]. by destruct i. Qed.

Lemma shutdown_drains_witness :
  finished drained_state = [3; 4] ∧
  accepted drained_state ≡ₚ discarded drained_state ++ finished drained_state ∧
  is_Some (step LShutdownReturn drained_state).
Proof.
  split; [reflexivity|].
  destruct (shutdown_drains 1 2 _ shutdown_sample_reachable eq_refl ltac:(discriminate)) as [_ H].
  exact (proj2 (proj2 (H drained_state drained_steps drained_stuck))).
Defined.
