(* ===== verification/Store.v ===== *)
(** * The metric store: internal/collector/store.go

    The generic expire-after-write cache every metric family lives in.  Each
    operation takes the reading of [c.clk] it makes as an argument [now], in
    nanoseconds; the body of each operation is one critical section of [c.mu].
    The abstract specification is the list of writes, newest first. *)

From Stdlib Require Import ZArith Lia.
From S2P Require Import Prelude.

(** [time.Time.Sub]: a [time.Duration] is an int64, and the difference of two
    instants saturates. *)
Definition satDuration (d : Z) : Z :=
  if d <? - 2 ^ 63 then - 2 ^ 63 else if 2 ^ 63 - 1 <? d then 2 ^ 63 - 1 else d.
Definition timeSub (t u : Z) : Z := satDuration (t - u).

Lemma timeSub_mono t t' u : t ≤ t' → timeSub t u ≤ timeSub t' u.
Proof.
  intros. unfold timeSub, satDuration.
  destruct (Z.ltb_spec (t - u) (- 2 ^ 63)), (Z.ltb_spec (t' - u) (- 2 ^ 63)),
    (Z.ltb_spec (2 ^ 63 - 1) (t - u)), (Z.ltb_spec (2 ^ 63 - 1) (t' - u)); lia.
Qed.

Lemma timeSub_exact t u : 0 ≤ t - u < 2 ^ 63 → timeSub t u = t - u.
Proof.
  intros. unfold timeSub, satDuration.
  destruct (Z.ltb_spec (t - u) (- 2 ^ 63)), (Z.ltb_spec (2 ^ 63 - 1) (t - u)); lia.
Qed.

Record entry (V : Type) : Type := mkEntry { value : V; writtenAt : Z }.
Arguments mkEntry {_} _ _.
Arguments value {_} _.
Arguments writtenAt {_} _.

Section cache.
Context {K V : Type} `{Countable K} `{!MapRange K (entry V)}.

Record ttlCache : Type := mkCache { m : gmap K (entry V); ttl : Z }.

Definition newCache (ttl : Z) : ttlCache := mkCache ∅ ttl.

Definition put (now : Z) (k : K) (v : V) (c : ttlCache) : ttlCache :=
  mkCache (<[k := mkEntry v now]> (m c)) (ttl c).

Definition expired (now : Z) (c : ttlCache) (e : entry V) : bool :=
  ttl c <? timeSub now (writtenAt e).

(** The zero value of the miss is not used by any caller; [None] is
    [(zero, false)]. *)
Definition get (now : Z) (k : K) (c : ttlCache) : option V :=
  match m c !! k with
  | None => None
  | Some e => if expired now c e then None else Some (value e)
  end.

Definition snapshot (now : Z) (c : ttlCache) : list (K * V) :=
  foldl (λ out '(k, e), if expired now c e then out else out ++ [(k, value e)]) [] (range (m c)).

Definition sweep (now : Z) (c : ttlCache) : ttlCache :=
  mkCache (foldl (λ m' '(k, e), if expired now c e then delete k m' else m') (m c) (range (m c)))
          (ttl c).

Definition cacheLen (c : ttlCache) : Z := Z.of_nat (size (m c)).

(** ** Characterisations *)

Definition live (now : Z) (c : ttlCache) (ke : K * entry V) : Prop := expired now c ke.2 = false.
#[local] Instance live_dec now c ke : Decision (live now c ke).
Proof. unfold live. apply _. Defined.

Lemma snapshot_filter now c :
  snapshot now c = (λ ke, (ke.1, value ke.2)) <$> filter (live now c) (range (m c)).
Proof.
  unfold snapshot.
  assert (∀ l out, foldl (λ out '(k, e), if expired now c e then out else out ++ [(k, value e)]) out l
    = out ++ ((λ ke, (ke.1, value ke.2)) <$> filter (live now c) l)) as ->; [|done].
  induction l as [|[k e] l IH]; intros out; [by rewrite app_nil_r|]. cbn [foldl].
  destruct (expired now c e) eqn:E; rewrite IH.
  - by rewrite filter_cons_False by (unfold live; cbn [snd]; congruence).
  - rewrite filter_cons_True by done. rewrite fmap_cons. cbn [fst snd]. by rewrite <- app_assoc.
Qed.

Lemma lookup_sweep_fold (P : entry V → bool) l (m0 : gmap K (entry V)) k e :
  foldl (λ m' '(k, e), if P e then delete k m' else m') m0 l !! k = Some e ↔
  m0 !! k = Some e ∧ ∀ e', (k, e') ∈ l → P e' = false.
Proof.
  revert m0. induction l as [|[k' e'] l IH]; intros m0; cbn [foldl].
  - split; [|by intros []]. intros Hm. split; [done|]. intros e' He. by apply elem_of_nil in He.
  - rewrite IH. setoid_rewrite elem_of_cons. destruct (P e') eqn:E.
    + rewrite lookup_delete_Some. split.
      * intros [[Hk Hm] Hl]. split; [done|]. intros e1 [?|?]; [congruence|auto].
      * intros [Hm Hl]. split; [|auto]. split; [|done]. intros ->.
        specialize (Hl e' (or_introl eq_refl)). congruence.
    + split; intros [Hm Hl]; (split; [done|]); [intros e1 [?|?]; [congruence|auto]|auto].
Qed.

Lemma lookup_sweep now c k :
  m (sweep now c) !! k = (e ← m c !! k; if expired now c e then None else Some e).
Proof.
  apply option_eq. intros e. unfold sweep. cbn [m]. rewrite lookup_sweep_fold.
  setoid_rewrite elem_of_range. destruct (m c !! k) as [e0|]; simpl; [|split; [by intros []|done]].
  destruct (expired now c e0) eqn:E; split.
  - intros [_ Hl]. specialize (Hl e0 eq_refl). congruence.
  - done.
  - by intros [? _].
  - intros ?. split; [done|]. congruence.
Qed.

Lemma elem_of_snapshot now c k v : (k, v) ∈ snapshot now c ↔ get now k c = Some v.
Proof.
  rewrite snapshot_filter, list_elem_of_fmap. unfold get. split.
  - intros ([k' e] & [= -> ->] & [Hl Hin]%list_elem_of_filter). apply elem_of_range in Hin.
    rewrite Hin. unfold live in Hl. cbn [snd] in Hl. by rewrite Hl.
  - destruct (m c !! k) as [e|] eqn:E; [|done]. destruct (expired now c e) eqn:Ex; [done|].
    intros [= <-]. exists (k, e). split; [done|]. rewrite list_elem_of_filter, elem_of_range. done.
Qed.

Lemma NoDup_snapshot now c : NoDup (snapshot now c).*1.
Proof.
  rewrite snapshot_filter, <- list_fmap_compose.
  eapply sublist_NoDup; [apply (NoDup_fst_range (m c))|].
  apply (fmap_sublist fst). apply sublist_filter.
Qed.

(** ** The abstract specification *)

(** The writes of a cache so far, newest first. *)
Definition history : Type := list (K * V * Z).

(** What a reader at [now] may see: the newest write of the key, if it is not
    older than the time to live. *)
Fixpoint spec_get (ttl now : Z) (k : K) (h : history) : option V :=
  match h with
  | [] => None
  | (k', v, t) :: h' =>
      if decide (k' = k) then (if ttl <? timeSub now t then None else Some v)
      else spec_get ttl now k h'
  end.

(** The operations that write, with the clock reading of each. *)
Inductive op : Type :=
| OpPut (now : Z) (k : K) (v : V)
| OpSweep (now : Z).

Definition op_time (o : op) : Z := match o with OpPut n _ _ => n | OpSweep n => n end.

Definition apply_op (c : ttlCache) (o : op) : ttlCache :=
  match o with OpPut now k v => put now k v c | OpSweep now => sweep now c end.
Definition apply_spec (h : history) (o : op) : history :=
  match o with OpPut now k v => (k, v, now) :: h | OpSweep _ => h end.

(** The cache holds, for each key, at least every newest write still live. *)
Definition represents (now : Z) (c : ttlCache) (h : history) : Prop :=
  ∀ now' k, now ≤ now' → get now' k c = spec_get (ttl c) now' k h.

Lemma get_put now now' k k' v c :
  get now' k (put now k' v c) =
  if decide (k' = k) then (if ttl c <? timeSub now' now then None else Some v) else get now' k c.
Proof.
  unfold get, put. cbn [m]. destruct (decide (k' = k)) as [<-|Hk].
  - by rewrite lookup_insert_eq.
  - by rewrite lookup_insert_ne.
Qed.

Lemma expired_mono now now' c e : now ≤ now' → expired now c e = true → expired now' c e = true.
Proof.
  unfold expired. intros Hle He. apply Z.ltb_lt in He. apply Z.ltb_lt.
  pose proof (timeSub_mono now now' (writtenAt e) Hle). lia.
Qed.

(** Once the clock is past a sweep, no reader can tell that it happened. *)
Lemma get_sweep now now' k c : now ≤ now' → get now' k (sweep now c) = get now' k c.
Proof.
  intros Hle. unfold get. rewrite lookup_sweep. destruct (m c !! k) as [e|]; [|done]. simpl.
  destruct (expired now c e) eqn:E; [|done]. by rewrite (expired_mono _ _ _ _ Hle E).
Qed.

Lemma represents_op now c h o :
  now ≤ op_time o → represents now c h → represents (op_time o) (apply_op c o) (apply_spec h o).
Proof.
  intros Hle Hr now' k Hn. destruct o as [t k' v|t]; simpl in *.
  - rewrite get_put, Hr by lia. done.
  - rewrite get_sweep, Hr by lia. done.
Qed.

Lemma ttl_ops os c : ttl (foldl apply_op c os) = ttl c.
Proof.
  revert c. induction os as [|o os IH]; intros c; [done|]. simpl. rewrite IH. by destruct o.
Qed.

(** The clock readings of a run never go back. *)
Fixpoint monotone_from (now : Z) (os : list op) : Prop :=
  match os with [] => True | o :: os' => now ≤ op_time o ∧ monotone_from (op_time o) os' end.

Definition last_time (now : Z) (os : list op) : Z := foldl (λ _ o, op_time o) now os.

Lemma represents_ops now c h os :
  monotone_from now os → represents now c h →
  represents (last_time now os) (foldl apply_op c os) (foldl apply_spec h os).
Proof.
  revert now c h. induction os as [|o os IH]; intros now c h Hm Hr; [done|].
  destruct Hm as [Hle Hm]. simpl. apply IH; [done|]. by apply (represents_op now).
Qed.

(** ** Properties *)

(** C23: the cache refines its write history.  After any sequence of writes and
    sweeps with a clock that does not go back, a read at a later instant returns
    the newest write of the key if it is at most [ttl] old and a miss otherwise;
    sweeping is invisible to readers. *)
Theorem cache_refines_history ttl0 now0 now os k :
  monotone_from now0 os → last_time now0 os ≤ now →
  get now k (foldl apply_op (newCache ttl0) os) = spec_get ttl0 now k (foldl apply_spec [] os).
Proof.
  intros Hm Hle. pose proof (represents_ops now0 (newCache ttl0) [] os Hm) as Hr.
  rewrite (Hr ltac:(done) now k Hle). by rewrite ttl_ops.
Qed.

(** What a scrape exports is exactly what the cache would answer for each
    key: [snapshot] lists every live key once, with its value, and nothing
    else, in whatever order the map is iterated. *)
Theorem snapshot_exact now c :
  NoDup (snapshot now c).*1 ∧ ∀ k v, (k, v) ∈ snapshot now c ↔ get now k c = Some v.
Proof. split; [apply NoDup_snapshot|]. intros. apply elem_of_snapshot. Qed.

(** [sweep] reclaims all expired entries and no others: afterwards the
    snapshot is unchanged up to order and the stored entries are as many as the
    exported ones. *)
Theorem sweep_reclaims now c :
  snapshot now (sweep now c) ≡ₚ snapshot now c ∧
  cacheLen (sweep now c) = len (snapshot now c).
Proof.
  assert (Hp : snapshot now (sweep now c) ≡ₚ snapshot now c).
  { apply NoDup_Permutation; try (eapply NoDup_fmap_1; apply NoDup_snapshot).
    intros [k v]. by rewrite !elem_of_snapshot, get_sweep. }
  split; [done|]. unfold cacheLen, len. f_equal. rewrite <- Hp, <- length_range.
  rewrite snapshot_filter, length_fmap. f_equal. symmetry. apply filter_all.
  apply Forall_forall. intros [k e] Hin. apply elem_of_range in Hin.
  rewrite lookup_sweep in Hin. destruct (m c !! k) as [e0|]; [|done]. simpl in Hin.
  unfold live. cbn [snd]. change (expired now (sweep now c) e) with (expired now c e).
  destruct (expired now c e0) eqn:E; congruence.
Qed.
End cache.
Arguments ttlCache K V {_ _}.

(** A write, a refresh and a sweep one second after the refresh, ttl one minute. *)
Definition sample_ops : list (@op Z Z) := [OpPut 0 1 10; OpPut 50 1 11; OpPut 50 2 12; OpSweep 70].

Lemma cache_refines_history_witness :
  monotone_from 0 sample_ops ∧
  @get Z Z _ _ 110 1 (foldl (@apply_op Z Z _ _ std_range) (newCache 60) sample_ops) = Some 11.
Proof.
  assert (Hm : monotone_from 0 sample_ops) by (simpl; lia).
  split; [exact Hm|].
  etrans; [apply (@cache_refines_history Z Z _ _ std_range 60 0 110 _ 1 Hm); simpl; lia|].
  reflexivity.
Defined.
