(* ===== verification/GoFloat.v ===== *)
(** * Go float64 and strconv.ParseFloat

    A float64 is an IEEE 754 binary64 datum, [spec_float] of the Standard
    Library at precision 53 and maximal exponent 1024; every operation rounds
    once, to nearest even.  [ParseFloat] follows the grammar of the standard
    library: sign, decimal or hexadecimal mantissa, exponent, underscores
    between digits, and the names of infinity and NaN. *)

From Stdlib Require Import ZArith Lia Ascii String Floats.SpecFloat.
From S2P Require Import Prelude GoStrings.

Local Open Scope string_scope.

Definition float64 : Type := spec_float.

#[export] Instance float64_eq_dec : EqDecision float64.
Proof. unfold EqDecision, Decision. repeat decide equality. Defined.

(** ** Conversions and arithmetic *)

(** The float64 nearest to the integer [z]: the conversion [float64(z)]. *)
Definition floatOfZ (z : Z) : float64 := binary_normalize 53 1024 z 0 false.

Definition fzero : float64 := S754_zero false.
Definition fadd : float64 → float64 → float64 := SFadd 53 1024.
Definition fsub : float64 → float64 → float64 := SFsub 53 1024.
Definition fmul : float64 → float64 → float64 := SFmul 53 1024.
Definition fdiv : float64 → float64 → float64 := SFdiv 53 1024.
Definition flt : float64 → float64 → bool := SFltb.

(** The float64 nearest to [± n / d], for [0 ≤ n] and [0 < d]; an overflow gives
    an infinity.  [big.Rat.Float64] and the decimal conversion both do this. *)
Definition ratToFloat (neg : bool) (n d : Z) : float64 :=
  match n, d with
  | Zpos p, Zpos q => SFdiv 53 1024 (S754_finite neg p 0) (S754_finite false q 0)
  | _, _ => S754_zero neg
  end.

Definition isInf (x : float64) : bool := match x with S754_infinity _ => true | _ => false end.
Definition isFinite (x : float64) : bool :=
  match x with S754_zero _ | S754_finite _ _ _ => true | _ => false end.

(** The exact value [num / den] of a finite float64; [None] otherwise. *)
Definition ratOf (x : float64) : option (Z * Z) :=
  match x with
  | S754_zero _ => Some (0, 1)
  | S754_finite s p e =>
      let n := if s then Zneg p else Zpos p in
      if decide (0 ≤ e)%Z then Some (n * 2 ^ e, 1) else Some (n, 2 ^ (- e))
  | _ => None
  end.

Lemma ratOf_den x n d : ratOf x = Some (n, d) → (0 < d)%Z.
Proof.
  destruct x as [| | |s p e]; simpl; try (intros; simplify_eq; lia).
  case_decide; intros; simplify_eq; [lia|]. apply Z.pow_pos_nonneg; lia.
Qed.

Lemma ratOf_finite x : is_Some (ratOf x) ↔ isFinite x = true.
Proof. destruct x; simpl; try case_decide; naive_solver. Qed.

(** [time.Duration.Seconds]; Go's [/] and [%] truncate. *)
Definition seconds (d : Z) : float64 :=
  let sec := Z.quot d 1000000000 in
  let nsec := Z.rem d 1000000000 in
  fadd (floatOfZ sec) (fdiv (floatOfZ nsec) (floatOfZ 1000000000)).

(** ** strconv.ParseFloat *)

Definition hexDigit (c : ascii) : option Z :=
  let l := lowerByte c in
  if isDigit c then Some (code c - 48)
  else if bool_decide (97 ≤ code l ≤ 102)%Z then Some (code l - 87) else None.

Definition digitOf (hex : bool) (c : ascii) : option Z :=
  if hex then hexDigit c else if isDigit c then Some (code c - 48) else None.

(** The mantissa scan: the digits read so far as [mant], how many of them
    followed the point, and whether a point, a digit or an underscore was
    seen. *)
Record mantScan : Type := mkScan {
  mant : Z;
  frac : Z;
  sawdot : bool;
  sawdigits : bool;
  underscores : bool
}.

Fixpoint scanMant (hex : bool) (s : string) (a : mantScan) : mantScan * string :=
  match s with
  | EmptyString => (a, s)
  | String c s' =>
      if Ascii.eqb c "_" then scanMant hex s' (mkScan (mant a) (frac a) (sawdot a) (sawdigits a) true)
      else if Ascii.eqb c "." then
        if sawdot a then (a, s)
        else scanMant hex s' (mkScan (mant a) (frac a) true (sawdigits a) (underscores a))
      else match digitOf hex c with
           | Some d =>
               let base := if hex then 16 else 10 in
               scanMant hex s' (mkScan (mant a * base + d) (if sawdot a then frac a + 1 else frac a)
                                       (sawdot a) true (underscores a))
           | None => (a, s)
           end
  end.

(** The digits of an exponent; the value stops growing at 10000. *)
Fixpoint scanExp (s : string) (e : Z) (us : bool) : Z * bool * string :=
  match s with
  | String c s' =>
      if Ascii.eqb c "_" then scanExp s' e true
      else if isDigit c then scanExp s' (if (e <? 10000)%Z then e * 10 + (code c - 48) else e) us
      else (e, us, s)
  | EmptyString => (e, us, s)
  end.

Definition stripSign (s : string) : bool * string :=
  match s with
  | String c s' => if Ascii.eqb c "-" then (true, s') else if Ascii.eqb c "+" then (false, s') else (false, s)
  | EmptyString => (false, s)
  end.

Inductive sawClass : Type := SawStart | SawDigit | SawUnderscore | SawOther.

Fixpoint underscoreLoop (hex : bool) (s : string) (saw : sawClass) : bool :=
  match s with
  | EmptyString => match saw with SawUnderscore => false | _ => true end
  | String c s' =>
      match digitOf hex c with
      | Some _ => underscoreLoop hex s' SawDigit
      | None =>
          if Ascii.eqb c "_" then
            match saw with SawDigit => underscoreLoop hex s' SawUnderscore | _ => false end
          else match saw with SawUnderscore => false | _ => underscoreLoop hex s' SawOther end
      end
  end.

Definition underscoreOK (s : string) : bool :=
  let '(_, s) := stripSign s in
  match s with
  | String z (String c s') =>
      let l := lowerByte c in
      if Ascii.eqb z "0" && (Ascii.eqb l "b" || Ascii.eqb l "o" || Ascii.eqb l "x")
      then underscoreLoop (Ascii.eqb l "x") s' SawDigit
      else underscoreLoop false s SawStart
  | _ => underscoreLoop false s SawStart
  end.

(** [± mant * base^exp], rounded once. *)
Definition scaled (neg : bool) (mant base exp : Z) : float64 :=
  if decide (0 ≤ exp)%Z then ratToFloat neg (mant * base ^ exp) 1
  else ratToFloat neg mant (base ^ (- exp)).

Definition special (s : string) : option float64 :=
  let '(neg, body) := stripSign s in
  let l := ToLower body in
  if String.eqb l "inf" || String.eqb l "infinity" then Some (S754_infinity neg)
  else if String.eqb (ToLower s) "nan" then Some S754_nan else None.

(** The exponent part after the mantissa: its value, whether it held an
    underscore; [None] when malformed or when something follows. *)
Definition parseExp (hex : bool) (rest : string) : option (Z * bool) :=
  match rest with
  | EmptyString => if hex then None else Some (0, false)
  | String c r =>
      if Ascii.eqb (lowerByte c) (if hex then "p" else "e")%char then
        let '(neg, r) := stripSign r in
        match r with
        | String d _ =>
            if isDigit d then
              let '(e, us, tail) := scanExp r 0 false in
              match tail with
              | EmptyString => Some ((if neg then - e else e), us)
              | _ => None
              end
            else None
        | EmptyString => None
        end
      else None
  end.

Definition ParseFloat (s : string) : outcome float64 :=
  match special s with
  | Some f => Ret f
  | None =>
      let '(neg, body) := stripSign s in
      let '(hex, body) :=
        match body with
        | String z (String x (String c r)) =>
            if Ascii.eqb z "0" && Ascii.eqb (lowerByte x) "x" then (true, String c r) else (false, body)
        | _ => (false, body)
        end in
      let '(a, rest) := scanMant hex body (mkScan 0 0 false false false) in
      if negb (sawdigits a) then Fail (ESyntax "ParseFloat" s)
      else match parseExp hex rest with
           | None => Fail (ESyntax "ParseFloat" s)
           | Some (e, us) =>
               if (underscores a || us) && negb (underscoreOK s) then Fail (ESyntax "ParseFloat" s)
               else
                 let f := if hex then scaled neg (mant a) 2 (e - 4 * frac a)
                          else scaled neg (mant a) 10 (e - frac a) in
                 if isInf f then Fail (ERange "ParseFloat" s) else Ret f
           end
  end.

Lemma ParseFloat_no_panic s msg : ParseFloat s ≠ Panic msg.
Proof.
  unfold ParseFloat. destruct (special s); [done|]. destruct (stripSign s) as [neg body].
  destruct (match body with String _ _ => _ | _ => _ end) as [hex b].
  destruct (scanMant _ _ _) as [a rest]. destruct (negb _); [done|].
  destruct (parseExp hex rest) as [[e us]|]; [|done].
  destruct (_ && _); [done|]. cbv zeta. by destruct (isInf _).
Qed.

Example ParseFloat_half : ParseFloat "1.5" = Ret (S754_finite false 6755399441055744 (-52)).
Proof. vm_compute. reflexivity. Qed.
Example ParseFloat_neg_exp : ParseFloat "-25e-1" = Ret (S754_finite true 5629499534213120 (-51)).
Proof. vm_compute. reflexivity. Qed.
Example ParseFloat_tenth : ParseFloat "0.1" = Ret (S754_finite false 7205759403792794 (-56)).
Proof. vm_compute. reflexivity. Qed.
Example ParseFloat_hex : ParseFloat "0x1.8p3" = ParseFloat "1_2".
Proof. vm_compute. reflexivity. Qed.
Example ParseFloat_bad : ParseFloat "1.2.3" = Fail (ESyntax "ParseFloat" "1.2.3").
Proof. vm_compute. reflexivity. Qed.
Example ParseFloat_overflow : ParseFloat "1e400" = Fail (ERange "ParseFloat" "1e400").
Proof. vm_compute. reflexivity. Qed.
Example ParseFloat_inf : ParseFloat "-Infinity" = Ret (S754_infinity true).
Proof. vm_compute. reflexivity. Qed.
