(* ===== verification/GoFlag.v ===== *)
(** * What the configuration uses of Go's [strconv], [time] and [flag]

    [ParseBool], [ParseInt] with base 0, [ParseDuration] and the command-line
    parser [FlagSet.Parse], translated from the standard library.  A duration
    is an [int64] of nanoseconds. *)

From Stdlib Require Import ZArith Lia Ascii String.
From S2P Require Import Prelude GoStrings GoFloat.

Local Open Scope string_scope.
Local Open Scope Z_scope.

(** ** strconv.ParseBool *)

Definition ParseBool (s : string) : outcome bool :=
  if bool_decide (s ∈ ["1"; "t"; "T"; "true"; "TRUE"; "True"]) then Ret true
  else if bool_decide (s ∈ ["0"; "f"; "F"; "false"; "FALSE"; "False"]) then Ret false
  else Fail (ESyntax "ParseBool" s).

(** ** strconv.ParseInt(s, 0, 64) *)

Definition digitBelow (base : Z) (c : ascii) : option Z :=
  let l := lowerByte c in
  let d := if isDigit c then Some (code c - 48)
           else if bool_decide (97 ≤ code l ≤ 122) then Some (code l - 87) else None in
  match d with Some v => if decide (v < base) then Some v else None | None => None end.

(** The digit loop; the boolean says whether an underscore was skipped. *)
Fixpoint parseUintBase (base : Z) (orig s : string) (n : Z) (us : bool) : outcome (Z * bool) :=
  match s with
  | EmptyString => Ret (n, us)
  | String c s' =>
      if Ascii.eqb c "_" then parseUintBase base orig s' n true
      else match digitBelow base c with
           | None => Fail (ESyntax "ParseInt" orig)
           | Some d =>
               let n1 := n * base + d in
               if decide (maxUint64 < n1) then Fail (ERange "ParseInt" orig)
               else parseUintBase base orig s' n1 us
           end
  end.

(** The base a literal announces, and the digits after the prefix. *)
Definition basePrefix (s : string) : Z * string :=
  match s with
  | String z r =>
      if Ascii.eqb z "0" then
        match r with
        | String c (String d r') =>
            let l := lowerByte c in
            if Ascii.eqb l "b" then (2, String d r')
            else if Ascii.eqb l "o" then (8, String d r')
            else if Ascii.eqb l "x" then (16, String d r')
            else (8, r)
        | _ => (8, r)
        end
      else (10, s)
  | EmptyString => (10, s)
  end.

Definition ParseInt0 (s : string) : outcome Z :=
  if String.eqb s "" then Fail (ESyntax "ParseInt" s)
  else
    let '(neg, body) := stripSign s in
    if String.eqb body "" then Fail (ESyntax "ParseInt" s)
    else
      let '(base, digits) := basePrefix body in
      '(un, us) ← parseUintBase base s digits 0 false;
      if us && negb (underscoreOK body) then Fail (ESyntax "ParseInt" s)
      else if neg then (if decide (2 ^ 63 < un) then Fail (ERange "ParseInt" s) else Ret (- un))
      else (if decide (2 ^ 63 ≤ un) then Fail (ERange "ParseInt" s) else Ret un).

(** ** time.ParseDuration *)

Definition Nanosecond : Z := 1.
Definition Microsecond : Z := 1000 * Nanosecond.
Definition Millisecond : Z := 1000 * Microsecond.
Definition Second : Z := 1000 * Millisecond.
Definition Minute : Z := 60 * Second.
Definition Hour : Z := 60 * Minute.

(** The two spellings of the micro sign are U+00B5 and U+03BC, in UTF-8. *)
Definition unitMap : list (string * Z) :=
  [("ns", Nanosecond); ("us", Microsecond);
   (String (chr 194) (String (chr 181) "s"), Microsecond);
   (String (chr 206) (String (chr 188) "s"), Microsecond);
   ("ms", Millisecond); ("s", Second); ("m", Minute); ("h", Hour)].

Fixpoint lookupUnit (u : string) (l : list (string * Z)) : option Z :=
  match l with
  | [] => None
  | (n, v) :: l' => if String.eqb u n then Some v else lookupUnit u l'
  end.

(** The digits at the head of [s]; [None] when the value passes [2^63]. *)
Fixpoint leadingInt (s : string) (x : Z) : option (Z * string) :=
  match s with
  | String c s' =>
      if isDigit c then
        if decide (2 ^ 63 / 10 < x) then None
        else
          let x1 := x * 10 + (code c - 48) in
          if decide (2 ^ 63 < x1) then None else leadingInt s' x1
      else Some (x, s)
  | EmptyString => Some (x, s)
  end.

(** The digits after a point, as [x / scale]; digits past the capacity of a
    [uint64] are dropped. *)
Fixpoint leadingFraction (s : string) (x : Z) (scale : float64) (overflow : bool)
    : Z * float64 * string :=
  match s with
  | String c s' =>
      if isDigit c then
        if overflow then leadingFraction s' x scale overflow
        else if decide ((2 ^ 63 - 1) / 10 < x) then leadingFraction s' x scale true
        else
          let y := x * 10 + (code c - 48) in
          if decide (2 ^ 63 < y) then leadingFraction s' x scale true
          else leadingFraction s' y (fmul scale (floatOfZ 10)) overflow
      else (x, scale, s)
  | EmptyString => (x, scale, s)
  end.

(** The characters up to the next digit or point. *)
Fixpoint takeUnit (s : string) : string * string :=
  match s with
  | String c s' =>
      if Ascii.eqb c "." || isDigit c then ("", s)
      else let '(u, r) := takeUnit s' in (String c u, r)
  | EmptyString => ("", "")
  end.

(** [uint64(f)] of a finite [f] whose integer part is in range. *)
Definition truncF (f : float64) : Z :=
  match ratOf f with Some (n, d) => Z.quot n d | None => 0 end.

Definition eqLen (s t : string) : bool := Nat.eqb (String.length s) (String.length t).

Definition invalidDuration {A} (orig : string) : outcome A := Fail (EMsg "time: invalid duration %q" [orig]).

(** One round of the loop: a number with its unit, in nanoseconds. *)
Definition durationTerm (orig s : string) : outcome (Z * string) :=
  match s with
  | EmptyString => invalidDuration orig
  | String c _ =>
      if negb (Ascii.eqb c "." || isDigit c) then invalidDuration orig
      else match leadingInt s 0 with
           | None => invalidDuration orig
           | Some (v, s1) =>
               let pre := negb (eqLen s s1) in
               let '(f, scale, s2, post) :=
                 match s1 with
                 | String d s1' =>
                     if Ascii.eqb d "." then
                       let '(f, scale, s2) := leadingFraction s1' 0 (floatOfZ 1) false in
                       (f, scale, s2, negb (eqLen s1' s2))
                     else (0, floatOfZ 1, s1, false)
                 | EmptyString => (0, floatOfZ 1, s1, false)
                 end in
               if negb pre && negb post then invalidDuration orig
               else
                 let '(u, s3) := takeUnit s2 in
                 if String.eqb u "" then Fail (EMsg "time: missing unit in duration %q" [orig])
                 else match lookupUnit u unitMap with
                      | None => Fail (EMsg "time: unknown unit %q in duration %q" [u; orig])
                      | Some unit =>
                          if decide (2 ^ 63 / unit < v) then invalidDuration orig
                          else
                            let v1 := v * unit in
                            if decide (0 < f) then
                              let v2 := (v1 + truncF (fmul (floatOfZ f) (fdiv (floatOfZ unit) scale))) mod 2 ^ 64 in
                              if decide (2 ^ 63 < v2) then invalidDuration orig else Ret (v2, s3)
                            else Ret (v1, s3)
                      end
           end
  end.

(** Every round consumes at least one character: the length of the string is
    fuel enough. *)
Fixpoint durationLoop (fuel : nat) (orig s : string) (d : Z) : outcome Z :=
  match s with
  | EmptyString => Ret d
  | _ =>
      match fuel with
      | O => Panic "out of fuel"
      | S fuel' =>
          '(v, s') ← durationTerm orig s;
          let d1 := (d + v) mod 2 ^ 64 in
          if decide (2 ^ 63 < d1) then invalidDuration orig else durationLoop fuel' orig s' d1
      end
  end.

Definition ParseDuration (orig : string) : outcome Z :=
  let '(neg, s) := stripSign orig in
  if String.eqb s "0" then Ret 0
  else if String.eqb s "" then invalidDuration orig
  else
    d ← durationLoop (String.length s) orig s 0;
    if (neg : bool) then Ret (int64 (- int64 d))
    else if decide (2 ^ 63 - 1 < d) then invalidDuration orig
    else Ret d.

Example ParseDuration_1h15m : ParseDuration "1h15m30.918s" = Ret 4530918000000.
Proof. vm_compute. reflexivity. Qed.
Example ParseDuration_frac : ParseDuration "-.5us" = Ret (-500).
Proof. vm_compute. reflexivity. Qed.
Example ParseDuration_max : ParseDuration "9223372036854775807ns" = Ret (2 ^ 63 - 1)
  ∧ is_ret (ParseDuration "9223372036854775808ns") = false
  ∧ ParseDuration "-9223372036854775808ns" = Ret (- 2 ^ 63).
Proof. vm_compute. done. Qed.
Example ParseDuration_bad : is_ret (ParseDuration "60") = false ∧ is_ret (ParseDuration "1x") = false
  ∧ is_ret (ParseDuration ".s") = false ∧ ParseDuration "0" = Ret 0.
Proof. vm_compute. done. Qed.
Example ParseInt0_bases : ParseInt0 "0x_1F" = Ret 31 ∧ ParseInt0 "-017" = Ret (-15)
  ∧ ParseInt0 "1_000" = Ret 1000 ∧ is_ret (ParseInt0 "08") = false ∧ ParseInt0 "0" = Ret 0.
Proof. vm_compute. done. Qed.

(** ** flag.FlagSet *)

Inductive flagKind : Type := KString | KBool | KInt | KDuration | KFloat64.

#[export] Instance flagKind_eq_dec : EqDecision flagKind.
Proof. solve_decision. Defined.

Definition flagType (k : flagKind) : Type :=
  match k with
  | KString => string
  | KBool => bool
  | KInt => Z
  | KDuration => Z
  | KFloat64 => float64
  end.

(** The [Set] method of the flag's [Value]. *)
Definition flagSet (k : flagKind) (raw : string) : outcome (flagType k) :=
  match k with
  | KString => Ret raw
  | KBool => ParseBool raw
  | KInt => ParseInt0 raw
  | KDuration => ParseDuration raw
  | KFloat64 => ParseFloat raw
  end.

Definition isBoolFlag (k : flagKind) : bool := match k with KBool => true | _ => false end.

Definition errHelp : error := EMsg "flag: help requested" [].
Definition isHelp (e : error) : bool :=
  match e with EMsg fmt [] => String.eqb fmt "flag: help requested" | _ => false end.

(** A flag as it stands on the command line: [-name] of a boolean flag,
    [-name=value], or [-name value]; [dd] for two dashes. *)
Inductive flagForm : Type := FormBool (dd : bool) | FormEq (dd : bool) | FormNext (dd : bool).

Definition dashes (dd : bool) : string := if dd then "--" else "-".

Definition renderFlag (f : flagForm) (name raw : string) : list string :=
  match f with
  | FormBool dd => [dashes dd ++ name]
  | FormEq dd => [dashes dd ++ name ++ "=" ++ raw]
  | FormNext dd => [dashes dd ++ name; raw]
  end.

Section FlagSet.
(** The variables the flags write to, their kinds, and the program's store. *)
Context {T S : Type} (kind : T → flagKind) (assign : ∀ t, flagType (kind t) → S → S).

(** [fs.formal]: the flags by name. *)
Abbreviation FlagSet := (gmap string T).

(** [fs.Var]: registration panics on a malformed or repeated name. *)
Definition Var (name : string) (t : T) (fs : FlagSet) : outcome FlagSet :=
  if HasPrefix name "-" then Panic "flag begins with -"
  else match cut "=" name with
       | Some _ => Panic "flag contains ="
       | None =>
           match fs !! name with
           | Some _ => Panic "flag redefined"
           | None => Ret (<[name := t]> fs)
           end
       end.

(** [s[numMinuses:]], for a word that starts with a dash; [None] when the
    word is no flag, [Some None] for the terminator. *)
Definition flagWord (s : string) : option (option string) :=
  match s with
  | String a (String b r) =>
      if Ascii.eqb a "-" then
        if Ascii.eqb b "-" then
          match r with EmptyString => Some None | _ => Some (Some r) end
        else Some (Some (String b r))
      else None
  | _ => None
  end.

(** [flag.Value.Set(raw)], with the error [failf] makes of a failure. *)
Definition setFlag (fmt : string) (args : list string) (t : T) (raw : string) (st : S) : outcome S :=
  v ← wrapErr fmt args (flagSet (kind t) raw); Ret (assign t v st).

(** [parseOne]: whether a flag was seen, and the arguments left. *)
Definition parseOne (fs : FlagSet) (args : list string) (st : S)
    : outcome (bool * list string * S) :=
  match args with
  | [] => Ret (false, args, st)
  | s :: args' =>
      match flagWord s with
      | None => Ret (false, args, st)
      | Some None => Ret (false, args', st)
      | Some (Some w) =>
          if HasPrefix w "-" || HasPrefix w "=" then Fail (EMsg "bad flag syntax: %s" [s])
          else
            let '(name, value) :=
              match cut "=" w with Some (n, v) => (n, Some v) | None => (w, None) end in
            match fs !! name with
            | None =>
                if String.eqb name "help" || String.eqb name "h" then Fail errHelp
                else Fail (EMsg "flag provided but not defined: -%s" [name])
            | Some t =>
                match value with
                | Some v =>
                    let fmt := if isBoolFlag (kind t) then "invalid boolean value %q for -%s: %v"
                               else "invalid value %q for flag -%s: %v" in
                    st' ← setFlag fmt [v; name] t v st; Ret (true, args', st')
                | None =>
                    if isBoolFlag (kind t)
                    then st' ← setFlag "invalid boolean flag %s: %v" [name] t "true" st; Ret (true, args', st')
                    else match args' with
                         | v :: args'' =>
                             st' ← setFlag "invalid value %q for flag -%s: %v" [v; name] t v st;
                             Ret (true, args'', st')
                         | [] => Fail (EMsg "flag needs an argument: -%s" [name])
                         end
                end
            end
      end
  end.

(** The loop of [Parse]: every round takes at least one argument. *)
Fixpoint parseLoop (fuel : nat) (fs : FlagSet) (args : list string) (st : S)
    : outcome (list string * S) :=
  match fuel with
  | O => Panic "out of fuel"
  | Datatypes.S fuel' =>
      '(seen, args', st') ← parseOne fs args st;
      if (seen : bool) then parseLoop fuel' fs args' st' else Ret (args', st')
  end.

Definition Parse (fs : FlagSet) (args : list string) (st : S) : outcome (list string * S) :=
  parseLoop (Datatypes.S (length args)) fs args st.

(** *** What a command line means *)

(** Names that can be written on a command line and found again. *)
Definition wf_name (name : string) : Prop :=
  name ≠ "" ∧ HasPrefix name "-" = false ∧ cut "=" name = None.
Definition wf_flags (fs : FlagSet) : Prop := ∀ name t, fs !! name = Some t → wf_name name.

Definition formOK (k : flagKind) (f : flagForm) (raw : string) : Prop :=
  match f with
  | FormBool _ => k = KBool ∧ raw = "true"
  | FormEq _ => True
  | FormNext _ => k ≠ KBool
  end.

(** The assignments [l], made in order, lead from [st] to [st']. *)
Inductive assigns (fs : FlagSet) : list (flagForm * string * string) → S → S → Prop :=
| assigns_nil st : assigns fs [] st st
| assigns_cons f name raw l t v st st' :
    fs !! name = Some t → formOK (kind t) f raw → flagSet (kind t) raw = Ret v →
    assigns fs l (assign t v st) st' → assigns fs ((f, name, raw) :: l) st st'.

Definition commandLine (l : list (flagForm * string * string)) : list string :=
  l ≫= λ '(f, name, raw), renderFlag f name raw.

(** Where the flags end: [tail] is what parsing stops at, [rest] what
    [fs.Args] returns. *)
Definition stops (tail rest : list string) : Prop :=
  match tail with
  | [] => rest = []
  | s :: tail' =>
      match flagWord s with
      | None => rest = tail
      | Some None => rest = tail'
      | Some (Some _) => False
      end
  end.

Lemma parseOne_stop fs tail rest st :
  stops tail rest → parseOne fs tail st = Ret (false, rest, st).
Proof. destruct tail as [|s tail]; simpl; [by intros ->|]. destruct (flagWord s) as [[]|]; naive_solver. Qed.

Lemma flagWord_inv s w : flagWord s = Some (Some w) → ∃ dd, s = dashes dd ++ w ∧ w ≠ "".
Proof.
  destruct s as [|a [|b r]]; simpl; try done.
  destruct (Ascii.eqb_spec a "-") as [->|]; [|done].
  destruct (Ascii.eqb_spec b "-") as [->|].
  - destruct r; intros [= <-]. by exists true.
  - intros [= <-]. by exists false.
Qed.

Lemma setFlag_ret fmt args t raw st st' :
  setFlag fmt args t raw st = Ret st' ↔ ∃ v, flagSet (kind t) raw = Ret v ∧ st' = assign t v st.
Proof. unfold setFlag. destruct (flagSet (kind t) raw) as [v|e|m]; simpl; naive_solver. Qed.

Lemma setFlag_more fmt args t raw st (l args' : list string) st' :
  (st'' ← setFlag fmt args t raw st; Ret (true, l, st'')) = Ret (true, args', st') →
  ∃ v, flagSet (kind t) raw = Ret v ∧ st' = assign t v st ∧ args' = l.
Proof. intros H. inv_bind. simplify_eq. apply setFlag_ret in E as (v & ? & ->). eauto. Qed.

Lemma isBoolFlag_iff k : isBoolFlag k = true ↔ k = KBool.
Proof. by destruct k. Qed.

(** What one round of the parser does when it goes on. *)
Lemma parseOne_inv fs args st args' st' :
  parseOne fs args st = Ret (true, args', st') →
  ∃ f name raw t v, fs !! name = Some t ∧ formOK (kind t) f raw ∧ flagSet (kind t) raw = Ret v
    ∧ st' = assign t v st ∧ args = (renderFlag f name raw ++ args')%list.
Proof.
  destruct args as [|s rest]; simpl; [done|].
  destruct (flagWord s) as [[w|]|] eqn:Hw; [|done|done].
  apply flagWord_inv in Hw as (dd & -> & _).
  destruct (HasPrefix w "-" || HasPrefix w "="); [done|].
  destruct (cut "=" w) as [[n v]|] eqn:Hc.
  - apply cut_inv in Hc as [-> _]. destruct (fs !! n) as [t|] eqn:Ht; [|by case_match].
    intros (v' & Hv & -> & ->)%setFlag_more. by exists (FormEq dd), n, v, t, v'.
  - destruct (fs !! w) as [t|] eqn:Ht; [|by case_match].
    destruct (isBoolFlag (kind t)) eqn:Hk.
    + apply isBoolFlag_iff in Hk. intros (v & Hv & -> & ->)%setFlag_more.
      by exists (FormBool dd), w, "true", t, v.
    + destruct rest as [|x rest]; [done|]. intros (v & Hv & -> & ->)%setFlag_more.
      exists (FormNext dd), w, x, t, v. repeat split; try done.
      simpl. intros Hb%isBoolFlag_iff. congruence.
Qed.

Lemma flagWord_dashes dd c w :
  Ascii.eqb c "-" = false → flagWord (dashes dd ++ String c w) = Some (Some (String c w)).
Proof. intros Hc. destruct dd; simpl; [done|]. by rewrite Hc. Qed.

Lemma wf_name_cons name : wf_name name → ∃ c w, name = String c w ∧ Ascii.eqb c "-" = false
  ∧ Ascii.eqb c "=" = false ∧ cut "=" name = None.
Proof.
  intros (Hne & Hp & Hc). destruct name as [|c w]; [done|]. exists c, w. split; [done|].
  unfold HasPrefix in Hp. cbn [afterPrefix cut] in *.
  destruct (Ascii.eqb_spec "-" c) as [<-|Hd]; [by destruct w|].
  split; [by apply Ascii.eqb_neq|]. by destruct (Ascii.eqb c "=").
Qed.

(** One round of the parser on a well-formed flag. *)
Lemma parseOne_flag fs f name raw rest t v st :
  wf_flags fs → fs !! name = Some t → formOK (kind t) f raw → flagSet (kind t) raw = Ret v →
  parseOne fs (renderFlag f name raw ++ rest) st = Ret (true, rest, assign t v st).
Proof.
  intros Hwf Ht Hf Hv. pose proof (Hwf _ _ Ht) as Hn.
  apply wf_name_cons in Hn as (c & w & -> & Hd & He & Hcut).
  assert (∀ x, (HasPrefix (String c x) "-" || HasPrefix (String c x) "=") = false) as Hp.
  { intros x. unfold HasPrefix. cbn [afterPrefix].
    by rewrite (Ascii.eqb_sym "-" c), (Ascii.eqb_sym "=" c), Hd, He. }
  destruct f as [dd|dd|dd]; cbn [renderFlag app parseOne].
  - destruct Hf as [Hk ->]. rewrite flagWord_dashes by done. rewrite Hp, Hcut, Ht.
    rewrite (proj2 (isBoolFlag_iff _) Hk). unfold setFlag. by rewrite Hv.
  - change (String c w ++ "=" ++ raw) with (String c (w ++ String "=" raw)).
    rewrite flagWord_dashes by done. rewrite Hp.
    change (String c (w ++ String "=" raw)) with (String c w ++ String "=" raw).
    rewrite cut_app_sep by done. rewrite Ht. unfold setFlag. by rewrite Hv.
  - rewrite flagWord_dashes by done. rewrite Hp, Hcut, Ht.
    destruct (isBoolFlag (kind t)) eqn:Hk; [by apply isBoolFlag_iff in Hk|].
    unfold setFlag. by rewrite Hv.
Qed.

Lemma renderFlag_nonempty f name raw rest : (length rest < length (renderFlag f name raw ++ rest))%nat.
Proof. destruct f; simpl; lia. Qed.

Lemma parseLoop_sound fuel fs args st rest st' :
  parseLoop fuel fs args st = Ret (rest, st') →
  ∃ l tail, assigns fs l st st' ∧ args = (commandLine l ++ tail)%list ∧ stops tail rest.
Proof.
  revert args st. induction fuel as [|fuel IH]; intros args st; simpl; [done|].
  destruct (parseOne fs args st) as [[[[] args'] st1]|e|m] eqn:E; simpl; try done.
  - intros (l & tail & Hl & -> & Hs)%IH.
    apply parseOne_inv in E as (f & name & raw & t & v & Ht & Hf & Hv & -> & ->).
    exists ((f, name, raw) :: l), tail. split; [by econstructor|]. split; [|done].
    unfold commandLine. cbn [mbind list_bind]. by rewrite <- app_assoc.
  - intros [= <- <-]. exists [], args. simpl.
    assert (st1 = st ∧ stops args args') as [-> Hs]; [|repeat split; [constructor|done]].
    destruct args as [|s args]; simpl in *; [naive_solver|].
    destruct (flagWord s) as [[w|]|]; [|naive_solver|naive_solver].
    destruct (_ || _); [done|]. destruct (match cut _ _ with Some _ => _ | _ => _ end) as [name [v|]].
    + destruct (fs !! name) as [t|]; [|by case_match]. by inv_bind.
    + destruct (fs !! name) as [t|]; [|by case_match].
      destruct (isBoolFlag _); [by inv_bind|]. destruct args; [done|]. by inv_bind.
Qed.

Lemma parseLoop_complete fuel fs l tail st rest st' :
  wf_flags fs → assigns fs l st st' → stops tail rest →
  (length (commandLine l ++ tail) < fuel)%nat →
  parseLoop fuel fs (commandLine l ++ tail) st = Ret (rest, st').
Proof.
  intros Hwf Hl Hs. revert fuel. induction Hl as [st|f name raw l t v st st' Ht Hf Hv Hl IH]; intros fuel Hfuel.
  - destruct fuel as [|fuel]; [lia|]. simpl. by rewrite (parseOne_stop _ _ rest).
  - destruct fuel as [|fuel]; [lia|]. unfold commandLine in *. cbn [mbind list_bind] in *.
    rewrite <- app_assoc in *. cbn [parseLoop]. rewrite (parseOne_flag _ _ _ _ _ t v) by done. simpl.
    apply IH.
    pose proof (renderFlag_nonempty f name raw ((l ≫= λ '(f, name, raw), renderFlag f name raw) ++ tail)). lia.
Qed.

(** The parser accepts exactly the command lines of well-typed flags, and
    makes their assignments in order. *)
Lemma Parse_iff fs args st rest st' :
  wf_flags fs →
  Parse fs args st = Ret (rest, st') ↔
  ∃ l tail, assigns fs l st st' ∧ args = (commandLine l ++ tail)%list ∧ stops tail rest.
Proof.
  intros Hwf. split; [apply parseLoop_sound|]. intros (l & tail & Hl & -> & Hs).
  apply parseLoop_complete; [done..|lia].
Qed.
End FlagSet.

(** ** Durations *)

Lemma leadingInt_length s x v r : leadingInt s x = Some (v, r) → (String.length r ≤ String.length s)%nat.
Proof.
  revert x. induction s as [|c s IH]; intros x; simpl; [intros; by simplify_eq|].
  destruct (isDigit c); [|intros; by simplify_eq].
  case_decide; [done|]. case_decide; [done|]. intros ?%IH. lia.
Qed.

Lemma leadingFraction_length s x sc o f sc' r :
  leadingFraction s x sc o = (f, sc', r) → (String.length r ≤ String.length s)%nat.
Proof.
  revert x sc o. induction s as [|c s IH]; intros x sc o; simpl; [intros; by simplify_eq|].
  destruct (isDigit c); [|intros; by simplify_eq].
  destruct o; [intros ?%IH; lia|]. repeat case_decide; intros ?%IH; lia.
Qed.

Lemma takeUnit_app s u r : takeUnit s = (u, r) → s = u ++ r.
Proof.
  revert u. induction s as [|c s IH]; intros u; simpl; [intros; by simplify_eq|].
  destruct (_ || _); [intros; by simplify_eq|]. destruct (takeUnit s) as [u' r'].
  intros; simplify_eq. simpl. by rewrite (IH u').
Qed.

Lemma string_length_app s t : String.length (s ++ t) = (String.length s + String.length t)%nat.
Proof. induction s as [|c s IH]; simpl; [done|]. by rewrite IH. Qed.

(** A round of the duration loop consumes something. *)
Lemma durationTerm_shorter orig s v r :
  durationTerm orig s = Ret (v, r) → (String.length r < String.length s)%nat.
Proof.
  unfold durationTerm. destruct s as [|c s0]; [done|]. set (s := String c s0).
  destruct (negb _); [done|]. destruct (leadingInt s 0) as [[v0 s1]|] eqn:E1; [|done].
  apply leadingInt_length in E1.
  destruct (match s1 with String _ _ => _ | _ => _ end) as [[[f scale] s2] post] eqn:E2.
  assert (String.length s2 ≤ String.length s1)%nat as Hs2.
  { destruct s1 as [|d s1]; [by simplify_eq|]. destruct (Ascii.eqb d "."); [|by simplify_eq].
    destruct (leadingFraction s1 0 _ _) as [[f' sc'] r'] eqn:E3. simplify_eq.
    apply leadingFraction_length in E3. simpl. lia. }
  destruct (_ && _); [done|]. destruct (takeUnit s2) as [u s3] eqn:E4.
  apply takeUnit_app in E4. subst s2. rewrite string_length_app in Hs2.
  destruct (String.eqb_spec u ""); [done|]. destruct u as [|c' u]; [done|].
  destruct (lookupUnit _ _); [|done]. simpl in Hs2. cbv zeta. repeat case_decide; intros; simplify_eq; simpl in *; lia.
Qed.

Lemma durationTerm_no_panic orig s : no_panic (durationTerm orig s).
Proof.
  intros msg. unfold durationTerm, invalidDuration. destruct s as [|c s0]; [done|].
  destruct (negb _); [done|]. destruct (leadingInt _ 0) as [[v0 s1]|]; [|done].
  destruct (match s1 with String _ _ => _ | _ => _ end) as [[[f scale] s2] post].
  destruct (_ && _); [done|]. destruct (takeUnit s2) as [u s3].
  destruct (String.eqb _ _); [done|]. destruct (lookupUnit _ _); [|done]. cbv zeta. by repeat case_decide.
Qed.

Lemma durationLoop_no_panic fuel orig s d :
  (String.length s ≤ fuel)%nat → no_panic (durationLoop fuel orig s d).
Proof.
  revert s d. induction fuel as [|fuel IH]; intros s d Hs msg; destruct s as [|c s];
    [done|simpl in Hs; lia|done|]. cbn [durationLoop].
  pose proof (durationTerm_no_panic orig (String c s) msg) as Hp.
  pose proof (durationTerm_shorter orig (String c s)) as Hl.
  destruct (durationTerm orig (String c s)) as [[v r]|e|m]; simpl; [|done|naive_solver].
  case_decide; [done|]. apply IH. specialize (Hl v r eq_refl). simpl in Hl, Hs. lia.
Qed.

(** [ParseDuration] returns a duration or an error: its loop always ends. *)
Lemma ParseDuration_no_panic s : no_panic (ParseDuration s).
Proof.
  intros msg. unfold ParseDuration. destruct (stripSign s) as [neg r].
  destruct (String.eqb r "0"); [done|]. destruct (String.eqb r ""); [done|].
  intros [H|(d & _ & H)]%bind_panic; [by eapply durationLoop_no_panic in H|].
  destruct neg; [done|]. by case_decide.
Qed.

(** ** The parser returns *)

Lemma parseUintBase_no_panic base orig s n us : no_panic (parseUintBase base orig s n us).
Proof.
  revert n us. induction s as [|c s IH]; intros n us; [done|]. cbn [parseUintBase]. cbv zeta.
  repeat case_match; try done; apply IH.
Qed.

Lemma ParseInt0_no_panic s : no_panic (ParseInt0 s).
Proof.
  intros msg. unfold ParseInt0. destruct (String.eqb s ""); [done|]. destruct (stripSign s) as [neg body].
  destruct (String.eqb body ""); [done|]. destruct (basePrefix body) as [base digits].
  intros [H|([un us] & _ & H)]%bind_panic; [by apply parseUintBase_no_panic in H|]. revert H. repeat case_match; done.
Qed.

Lemma flagSet_no_panic k raw : no_panic (flagSet k raw).
Proof.
  destruct k; simpl.
  - done.
  - intros msg. unfold ParseBool. repeat case_match; done.
  - apply ParseInt0_no_panic.
  - apply ParseDuration_no_panic.
  - exact (ParseFloat_no_panic raw).
Qed.

Section ParseTotal.
Context {T S : Type} (kind : T → flagKind) (assign : ∀ t, flagType (kind t) → S → S).

Lemma setFlag_no_panic fmt args t raw st (f : S → outcome (bool * list string * S)) :
  (∀ st', no_panic (f st')) → no_panic (st' ← setFlag kind assign fmt args t raw st; f st').
Proof.
  intros Hf msg [H|(st' & _ & H)]%bind_panic; [|by apply Hf in H].
  unfold setFlag in H. apply bind_panic in H as [H|(v & _ & H)]; [|done].
  by apply (wrapErr_no_panic _ _ _ (flagSet_no_panic _ _)) in H.
Qed.

Lemma parseOne_no_panic fs args st : no_panic (parseOne kind assign fs args st).
Proof.
  unfold parseOne. destruct args as [|s args']; [done|]. destruct (flagWord s) as [[w|]|]; [|done|done].
  destruct (HasPrefix w "-" || HasPrefix w "="); [done|].
  destruct (match cut "=" w with Some _ => _ | None => _ end) as [name value].
  destruct (fs !! name) as [t|]; [|by destruct (String.eqb name "help" || String.eqb name "h")].
  destruct value as [v|]; [by apply setFlag_no_panic|].
  destruct (isBoolFlag (kind t)); [by apply setFlag_no_panic|].
  destruct args'; [done|by apply setFlag_no_panic].
Qed.

Lemma parseLoop_no_panic fuel fs args st :
  (length args < fuel)%nat → no_panic (parseLoop kind assign fuel fs args st).
Proof.
  revert args st. induction fuel as [|fuel IH]; intros args st Hl msg; [lia|]. cbn [parseLoop].
  intros [H|([[seen args'] st'] & H1 & H2)]%bind_panic; [by apply parseOne_no_panic in H|].
  destruct seen; [|done]. apply parseOne_inv in H1 as (f & name & raw & _ & _ & _ & _ & _ & _ & ->).
  pose proof (renderFlag_nonempty f name raw args'). by apply IH in H2; [|lia].
Qed.

(** Every command line is parsed or rejected with an error. *)
Lemma Parse_no_panic fs args st : no_panic (Parse kind assign fs args st).
Proof. apply parseLoop_no_panic. lia. Qed.
End ParseTotal.

(** A duration as [n1 unit1 n2 unit2 ...]. *)
Definition durationText (ts : list (Z * string)) : string :=
  foldr (λ '(n, u) s, formatUint n ++ u ++ s) "" ts.
Definition durationValue (ts : list (Z * string)) : Z :=
  foldr (λ '(n, u) d, n * default 0 (lookupUnit u unitMap) + d) 0 ts.
Definition wf_term (t : Z * string) : Prop := 0 ≤ t.1 ∧ is_Some (lookupUnit t.2 unitMap).

(** A string that does not continue a unit. *)
Definition unitEnds (s : string) : Prop :=
  match s with EmptyString => True | String c _ => isDigit c = true end.

Lemma leadingInt_digits ds x r :
  Forall (λ d, 0 ≤ d < 10) ds → 0 ≤ x → decValue x ds ≤ 2 ^ 63 →
  match r with EmptyString => True | String c _ => isDigit c = false end →
  leadingInt (digitString ds ++ r) x = Some (decValue x ds, r).
Proof.
  intros Hds. revert x. induction Hds as [|d ds Hd Hds IH]; intros x Hx Hv Hr.
  - simpl. destruct r as [|c r]; simpl; [done|]. by rewrite Hr.
  - change (digitString (d :: ds) ++ r) with (String (chr (48 + d)) (digitString ds ++ r)).
    cbn [leadingInt]. rewrite isDigit_chr by done. rewrite code_chr by lia.
    pose proof (decValue_ge (x * 10 + d) ds ltac:(lia) Hds) as Hge.
    unfold decValue in *. cbn [foldl] in *.
    replace (x * 10 + (48 + d - 48)) with (x * 10 + d) by lia.
    rewrite decide_False by (apply Z.le_ngt, Z.div_le_lower_bound; lia).
    rewrite decide_False by lia. apply IH; [lia|done|done].
Qed.

(** A unit has no digit and no point in it. *)
Fixpoint unitLike (u : string) : bool :=
  match u with
  | EmptyString => true
  | String c u' => negb (Ascii.eqb c "." || isDigit c) && unitLike u'
  end.

Lemma lookupUnit_elem u l v : lookupUnit u l = Some v → (u, v) ∈ l.
Proof.
  induction l as [|[n w] l IH]; simpl; [done|].
  destruct (String.eqb_spec u n) as [->|]; [intros [= ->]; left|right; auto].
Qed.

(** What the model of a unit is used for: it is no number, it is positive and
    at most an hour. *)
Lemma unit_facts u v :
  lookupUnit u unitMap = Some v → u ≠ "" ∧ unitLike u = true ∧ 0 < v ≤ Hour.
Proof.
  intros H%lookupUnit_elem.
  assert (forallb (λ p, negb (String.eqb p.1 "") && unitLike p.1 && (0 <? p.2) && (p.2 <=? Hour)) unitMap = true)
    as Hall by (vm_compute; reflexivity).
  rewrite forallb_forall in Hall. specialize (Hall (u, v) ltac:(by apply list_elem_of_In)). simpl in Hall.
  repeat (apply andb_true_iff in Hall as [Hall ?]).
  destruct (String.eqb_spec u ""); [done|]. repeat split; [done|done|lia|lia].
Qed.

Lemma takeUnit_unit u r : unitLike u = true → unitEnds r → takeUnit (u ++ r) = (u, r).
Proof.
  intros Hu Hr. induction u as [|c u IH]; simpl in *.
  - destruct r as [|c r]; [done|]. simpl in *. by rewrite Hr, orb_true_r.
  - apply andb_true_iff in Hu as [Hc%negb_true_iff Hu]. by rewrite Hc, (IH Hu).
Qed.

Lemma formatUint_digits n : 0 ≤ n → ∃ ds, ds ≠ [] ∧ Forall (λ d, 0 ≤ d < 10) ds
  ∧ decValue 0 ds = n ∧ formatUint n = digitString ds.
Proof.
  intros Hn. exists (decDigits (S (Z.to_nat (Z.log2 n))) n). split; [apply decDigits_nonempty|].
  split; [by apply decDigits_range|]. split; [|done]. apply decDigits_value. split; [done|].
  by apply log2_fuel.
Qed.

Lemma unitEnds_text ts : Forall wf_term ts → unitEnds (durationText ts).
Proof.
  intros [|[n u] ts' [Hn _] _]; [done|]. simpl.
  destruct (formatUint_head n Hn) as (d & s & Hd & ->). simpl. by apply isDigit_chr.
Qed.

(** One term is read back exactly. *)
Lemma durationTerm_text orig n u v r :
  0 ≤ n → lookupUnit u unitMap = Some v → n * v ≤ 2 ^ 63 → unitEnds r →
  durationTerm orig (formatUint n ++ u ++ r) = Ret (n * v, r).
Proof.
  intros Hn Hu Hle Hr. pose proof (unit_facts u v Hu) as (Hne & Hlike & Hv).
  destruct u as [|c u]; [done|]. destruct (formatUint_digits n Hn) as (ds & Hds & Hrange & Hval & ->).
  pose proof Hlike as [[Hdot Hdig]%negb_true_iff%orb_false_iff Hlike']%andb_true_iff.
  assert (leadingInt (digitString ds ++ String c u ++ r) 0 = Some (n, String c (u ++ r))) as Hlead.
  { change (String c u ++ r) with (String c (u ++ r)). rewrite <- Hval.
    apply leadingInt_digits; [done|lia|rewrite Hval; nia|done]. }
  assert (eqLen (digitString ds ++ String c u ++ r) (String c (u ++ r)) = false) as Hlen.
  { unfold eqLen. apply Nat.eqb_neq. rewrite string_length_app. destruct ds; [done|]. simpl. lia. }
  pose proof (takeUnit_unit (String c u) r Hlike Hr) as Htake.
  change (String c u ++ r) with (String c (u ++ r)) in *.
  unfold durationTerm. rewrite Hlead, Hlen.
  destruct ds as [|d ds]; [done|]. inversion Hrange; subst.
  change (digitString (d :: ds) ++ String c (u ++ r))
    with (String (chr (48 + d)) (digitString ds ++ String c (u ++ r))).
  cbv iota. rewrite isDigit_chr, orb_true_r, Hdot by done. cbv iota beta delta [negb andb].
  rewrite Htake. cbv iota beta. change (String.eqb (String c u) "") with false. rewrite Hu.
  rewrite decide_False by (apply Z.le_ngt, Z.div_le_lower_bound; lia). done.
Qed.

Lemma durationValue_nonneg ts : Forall wf_term ts → 0 ≤ durationValue ts.
Proof.
  induction 1 as [|[n u] ts [Hn [v Hv]] Hts IH]; simpl in *; [done|]. rewrite Hv. simpl.
  apply unit_facts in Hv. nia.
Qed.

Lemma durationLoop_text fuel orig ts d :
  Forall wf_term ts → 0 ≤ d → d + durationValue ts ≤ 2 ^ 63 →
  (String.length (durationText ts) ≤ fuel)%nat →
  durationLoop fuel orig (durationText ts) d = Ret (d + durationValue ts).
Proof.
  intros Hts. revert fuel d. induction Hts as [|[n u] ts [Hn [v Hv]] Hts IH]; intros fuel d Hd Hle Hf.
  - destruct fuel; simpl; by rewrite Z.add_0_r.
  - pose proof (durationValue_nonneg ts Hts) as Hge. cbn [fst snd] in Hn, Hv.
    change (durationText ((n, u) :: ts)) with (formatUint n ++ u ++ durationText ts) in *.
    change (durationValue ((n, u) :: ts)) with (n * default 0 (lookupUnit u unitMap) + durationValue ts) in *.
    rewrite Hv in Hle |- *. simpl default in *.
    pose proof (unit_facts u v Hv) as (_ & _ & Hvr).
    pose proof (durationTerm_text orig n u v _ Hn Hv ltac:(nia) (unitEnds_text ts Hts)) as Ht.
    pose proof (durationTerm_shorter _ _ _ _ Ht) as Hs.
    destruct (formatUint n ++ u ++ durationText ts) as [|c s] eqn:E; [simpl in Hs; lia|].
    destruct fuel as [|fuel]; [simpl in Hf; lia|]. cbn [durationLoop]. rewrite Ht. cbn [mbind outcome_bind].
    rewrite Z.mod_small by nia. rewrite decide_False by nia.
    rewrite IH; [f_equal; lia|nia|lia|lia].
Qed.

(** Parsing the text of a duration gives its value, negated after a minus
    sign. *)
Lemma ParseDuration_text ts :
  ts ≠ [] → Forall wf_term ts → durationValue ts < 2 ^ 63 →
  ParseDuration (durationText ts) = Ret (durationValue ts)
  ∧ ParseDuration ("-" ++ durationText ts) = Ret (- durationValue ts).
Proof.
  intros Hne Hts Hlt. pose proof (durationValue_nonneg ts Hts) as Hge.
  pose proof (λ orig, durationLoop_text _ orig ts 0 Hts ltac:(done) ltac:(lia) (le_n _)) as Hloop.
  assert (∃ c d s, 0 ≤ d < 10 ∧ durationText ts = String (chr (48 + d)) (String c s)) as (c & d & s & Hd & E).
  { destruct Hts as [|[n u] ts [Hn [v Hv]] Hts]; [done|]. simpl.
    destruct (formatUint_head n Hn) as (d & s & Hd & ->). apply unit_facts in Hv as [Hu _].
    destruct s as [|c s]; [destruct u as [|c u]; [done|]|]; simpl; eauto 10. }
  rewrite E in *. destruct (chr_digit_not_sign d Hd) as [Hm Hp].
  assert (String.eqb (String (chr (48 + d)) (String c s)) "0" = false) as Hz.
  { by apply String.eqb_neq. }
  unfold ParseDuration. split.
  - unfold stripSign. rewrite Hm, Hp, Hz. cbn [String.eqb]. rewrite Hloop.
    cbn [mbind outcome_bind]. rewrite decide_False by lia. done.
  - change ("-" ++ String (chr (48 + d)) (String c s)) with (String "-" (String (chr (48 + d)) (String c s))).
    cbn [stripSign]. rewrite Ascii.eqb_refl, Hz. cbn [String.eqb]. rewrite Hloop.
    cbn [mbind outcome_bind]. rewrite Z.add_0_l, (int64_id (durationValue ts)), int64_id by lia. done.
Qed.
