(* ===== verification/Config.v ===== *)
(** * internal/config: settings, flags, environment and the YAML file

    The settings of [Config] are enumerated by [setting], with the Go type of
    each as its [flagKind]; [get] and [set] read and write one field.  The 31
    registrations of [RegisterFlags] are the rows of [flagTable], in the order
    of the source, and [Overlay] is the source's sequence of assignments.

    The file system, the YAML decoder and the cron parser are not under src/:
    they are parameters of the definitions that call them. *)

From Stdlib Require Import ZArith Lia Ascii String.
From S2P Require Import Prelude GoStrings GoFloat GoFlag.

Local Open Scope string_scope.
Local Open Scope Z_scope.

(** ** The configuration *)

Record CronConfig : Type := mkCron {
  cron_CollectTopicOffset : string;
  cron_CollectProducer : string;
  cron_CollectConsumerOffset : string;
  cron_CollectBrokerStatsTopic : string;
  cron_CollectBrokerStats : string;
  cron_CollectBrokerRuntimeStats : string
}.

Record PoolConfig : Type := mkPool {
  pool_Core : Z;
  pool_Max : Z;
  pool_Queue : Z
}.

Record HealthCheckConfig : Type := mkHealthCheck {
  hc_Enabled : bool;
  hc_TopicPrefix : string;
  hc_GroupPrefix : string;
  hc_Rate : float64;
  hc_Recency : Z;
  hc_ClusterRefresh : Z;
  hc_Path : string
}.

Record Config : Type := mkConfig {
  cfg_Namesrv : string;
  cfg_Listen : string;
  cfg_TelemetryPath : string;
  cfg_EnableCollect : bool;
  cfg_EnableACL : bool;
  cfg_AccessKey : string;
  cfg_SecretKey : string;
  cfg_CacheTTL : Z;
  cfg_GoMemLimit : string;
  cfg_LogFile : string;
  cfg_LogLevel : string;
  cfg_LogMaxSizeMB : Z;
  cfg_LogMaxAgeDays : Z;
  cfg_LogMaxBackups : Z;
  cfg_LogCompress : bool;
  cfg_Cron : CronConfig;
  cfg_Pool : PoolConfig;
  cfg_HealthCheck : HealthCheckConfig
}.

Definition Default : Config :=
  mkConfig "127.0.0.1:9876" ":5557" "/metrics" true false "" "" (60 * Second) "" "" "info" 100 60 10 true
    (mkCron "15 0/1 * * * ?" "15 0/1 * * * ?" "15 0/1 * * * ?" "15 0/1 * * * ?" "15 0/1 * * * ?" "15 0/1 * * * ?")
    (mkPool 10 10 5000)
    (mkHealthCheck true "HealthCheckTopic-" "HealthCheckGroup-" (floatOfZ 2) (5 * Second) (5 * Minute) "/healthz").

(** ** One field at a time *)

Inductive setting : Type :=
| SNamesrv
| SListen
| STelemetryPath
| SEnableCollect
| SEnableACL
| SAccessKey
| SSecretKey
| SCacheTTL
| SGoMemLimit
| SLogFile
| SLogLevel
| SLogMaxSizeMB
| SLogMaxAgeDays
| SLogMaxBackups
| SLogCompress
| SPoolCore
| SPoolMax
| SPoolQueue
| SHealthEnabled
| SHealthTopicPrefix
| SHealthGroupPrefix
| SHealthRate
| SHealthRecency
| SHealthClusterRefresh
| SHealthPath
| SCronCollectTopicOffset
| SCronCollectProducer
| SCronCollectConsumerOffset
| SCronCollectBrokerStatsTopic
| SCronCollectBrokerStats
| SCronCollectBrokerRuntimeStats.

#[export] Instance setting_eq_dec : EqDecision setting.
Proof. solve_decision. Defined.

(** The Go type of the field. *)
Definition kindOf (s : setting) : flagKind :=
  match s with
  | SEnableCollect | SEnableACL | SLogCompress | SHealthEnabled => KBool
  | SLogMaxSizeMB | SLogMaxAgeDays | SLogMaxBackups | SPoolCore | SPoolMax | SPoolQueue => KInt
  | SCacheTTL | SHealthRecency | SHealthClusterRefresh => KDuration
  | SHealthRate => KFloat64
  | _ => KString
  end.

Definition get (c : Config) (s : setting) : flagType (kindOf s) :=
  match s return flagType (kindOf s) with
  | SNamesrv => cfg_Namesrv c
  | SListen => cfg_Listen c
  | STelemetryPath => cfg_TelemetryPath c
  | SEnableCollect => cfg_EnableCollect c
  | SEnableACL => cfg_EnableACL c
  | SAccessKey => cfg_AccessKey c
  | SSecretKey => cfg_SecretKey c
  | SCacheTTL => cfg_CacheTTL c
  | SGoMemLimit => cfg_GoMemLimit c
  | SLogFile => cfg_LogFile c
  | SLogLevel => cfg_LogLevel c
  | SLogMaxSizeMB => cfg_LogMaxSizeMB c
  | SLogMaxAgeDays => cfg_LogMaxAgeDays c
  | SLogMaxBackups => cfg_LogMaxBackups c
  | SLogCompress => cfg_LogCompress c
  | SPoolCore => pool_Core (cfg_Pool c)
  | SPoolMax => pool_Max (cfg_Pool c)
  | SPoolQueue => pool_Queue (cfg_Pool c)
  | SHealthEnabled => hc_Enabled (cfg_HealthCheck c)
  | SHealthTopicPrefix => hc_TopicPrefix (cfg_HealthCheck c)
  | SHealthGroupPrefix => hc_GroupPrefix (cfg_HealthCheck c)
  | SHealthRate => hc_Rate (cfg_HealthCheck c)
  | SHealthRecency => hc_Recency (cfg_HealthCheck c)
  | SHealthClusterRefresh => hc_ClusterRefresh (cfg_HealthCheck c)
  | SHealthPath => hc_Path (cfg_HealthCheck c)
  | SCronCollectTopicOffset => cron_CollectTopicOffset (cfg_Cron c)
  | SCronCollectProducer => cron_CollectProducer (cfg_Cron c)
  | SCronCollectConsumerOffset => cron_CollectConsumerOffset (cfg_Cron c)
  | SCronCollectBrokerStatsTopic => cron_CollectBrokerStatsTopic (cfg_Cron c)
  | SCronCollectBrokerStats => cron_CollectBrokerStats (cfg_Cron c)
  | SCronCollectBrokerRuntimeStats => cron_CollectBrokerRuntimeStats (cfg_Cron c)
  end.

(** The configuration with the given fields. *)
Definition build (g : ∀ s, flagType (kindOf s)) : Config :=
  mkConfig (g SNamesrv) (g SListen) (g STelemetryPath) (g SEnableCollect) (g SEnableACL)
    (g SAccessKey) (g SSecretKey) (g SCacheTTL) (g SGoMemLimit) (g SLogFile)
    (g SLogLevel) (g SLogMaxSizeMB) (g SLogMaxAgeDays) (g SLogMaxBackups) (g SLogCompress)
    (mkCron (g SCronCollectTopicOffset) (g SCronCollectProducer) (g SCronCollectConsumerOffset)
            (g SCronCollectBrokerStatsTopic) (g SCronCollectBrokerStats) (g SCronCollectBrokerRuntimeStats))
    (mkPool (g SPoolCore) (g SPoolMax) (g SPoolQueue))
    (mkHealthCheck (g SHealthEnabled) (g SHealthTopicPrefix) (g SHealthGroupPrefix) (g SHealthRate)
       (g SHealthRecency) (g SHealthClusterRefresh) (g SHealthPath)).

(** The assignment [c.X = v]. *)
Definition set (s : setting) (v : flagType (kindOf s)) (c : Config) : Config :=
  build (λ s', match decide (s = s') with
               | left E => eq_rect s (λ x, flagType (kindOf x)) v s' E
               | right _ => get c s'
               end).

Lemma get_build g s : get (build g) s = g s.
Proof. by destruct s. Qed.

Lemma build_ext g g' : (∀ s, g s = g' s) → build g = build g'.
Proof. intros H. unfold build. by rewrite !H. Qed.

Lemma build_get c : build (get c) = c.
Proof. by destruct c as [? ? ? ? ? ? ? ? ? ? ? ? ? ? ? [] [] []]. Qed.

(** A configuration is its fields. *)
Lemma Config_ext c c' : (∀ s, get c s = get c' s) → c = c'.
Proof. intros H%build_ext. by rewrite !build_get in H. Qed.

Lemma get_set s v c : get (set s v c) s = v.
Proof.
  unfold set. rewrite get_build. destruct (decide (s = s)) as [E|]; [|done].
  by rewrite (proof_irrel E eq_refl).
Qed.

Lemma get_set_ne s s' v c : s ≠ s' → get (set s v c) s' = get c s'.
Proof. intros. unfold set. rewrite get_build. by destruct (decide (s = s')). Qed.

(** ** RegisterFlags *)

(** Where a flag writes: the variable of [--config] in [run], or a field. *)
Inductive target : Type := TConfigPath | TSetting (s : setting).

Definition targetKind (t : target) : flagKind :=
  match t with TConfigPath => KString | TSetting s => kindOf s end.

(** The variable of [--config] and the configuration. *)
Abbreviation vars := (string * Config)%type.

Definition assignTarget (t : target) : flagType (targetKind t) → vars → vars :=
  match t return flagType (targetKind t) → vars → vars with
  | TConfigPath => λ v st, (v, st.2)
  | TSetting s => λ v st, (st.1, set s v st.2)
  end.

(** The environment, as [os.LookupEnv] reads it. *)
Abbreviation environ := (gmap string string).

(** What [env], [envBool], [envInt], [envDur] and [envFloat] parse with. *)
Definition envParse (k : flagKind) (v : string) : outcome (flagType k) :=
  match k with
  | KString => Ret v
  | KBool => ParseBool v
  | KInt => Atoi v
  | KDuration => ParseDuration v
  | KFloat64 => ParseFloat v
  end.

(** An unset or malformed variable leaves the default. *)
Definition envOr (env : environ) (k : flagKind) (name : string) (def : flagType k) : flagType k :=
  match env !! name with
  | Some v => match envParse k v with Ret x => x | _ => def end
  | None => def
  end.

(** The field, the flag's name and the variable's name, in source order. *)
Definition flagTable : list (setting * string * string) :=
  [(SNamesrv, "namesrv", "NAMESRV_ADDR");
   (SListen, "listen", "LISTEN");
   (STelemetryPath, "telemetry-path", "TELEMETRY_PATH");
   (SEnableCollect, "enable-collect", "ENABLE_COLLECT");
   (SEnableACL, "enable-acl", "ENABLE_ACL");
   (SAccessKey, "access-key", "ACCESS_KEY");
   (SSecretKey, "secret-key", "SECRET_KEY");
   (SCacheTTL, "cache-ttl", "CACHE_TTL");
   (SGoMemLimit, "go-mem-limit", "GO_MEM_LIMIT");
   (SLogFile, "log-file", "LOG_FILE");
   (SLogLevel, "log-level", "LOG_LEVEL");
   (SLogMaxSizeMB, "log-max-size-mb", "LOG_MAX_SIZE_MB");
   (SLogMaxAgeDays, "log-max-age-days", "LOG_MAX_AGE_DAYS");
   (SLogMaxBackups, "log-max-backups", "LOG_MAX_BACKUPS");
   (SLogCompress, "log-compress", "LOG_COMPRESS");
   (SPoolCore, "pool-core", "POOL_CORE");
   (SPoolMax, "pool-max", "POOL_MAX");
   (SPoolQueue, "pool-queue", "POOL_QUEUE");
   (SHealthEnabled, "health-check-enabled", "HEALTH_CHECK_ENABLED");
   (SHealthTopicPrefix, "health-check-topic-prefix", "HEALTH_CHECK_TOPIC_PREFIX");
   (SHealthGroupPrefix, "health-check-group-prefix", "HEALTH_CHECK_GROUP_PREFIX");
   (SHealthRate, "health-check-rate", "HEALTH_CHECK_RATE");
   (SHealthRecency, "health-check-recency", "HEALTH_CHECK_RECENCY");
   (SHealthClusterRefresh, "health-check-cluster-refresh", "HEALTH_CHECK_CLUSTER_REFRESH");
   (SHealthPath, "health-check-path", "HEALTH_CHECK_PATH");
   (SCronCollectTopicOffset, "cron.collectTopicOffset", "CRON_COLLECT_TOPIC_OFFSET");
   (SCronCollectProducer, "cron.collectProducer", "CRON_COLLECT_PRODUCER");
   (SCronCollectConsumerOffset, "cron.collectConsumerOffset", "CRON_COLLECT_CONSUMER_OFFSET");
   (SCronCollectBrokerStatsTopic, "cron.collectBrokerStatsTopic", "CRON_COLLECT_BROKER_STATS_TOPIC");
   (SCronCollectBrokerStats, "cron.collectBrokerStats", "CRON_COLLECT_BROKER_STATS");
   (SCronCollectBrokerRuntimeStats, "cron.collectBrokerRuntimeStats", "CRON_COLLECT_BROKER_RUNTIME_STATS")].

(** [fs.StringVar(&c.X, name, env(NAME, c.X), usage)] and its siblings: the
    variable gets the default before the flag is added. *)
Definition registerOne (env : environ) (envPrefix : string) (row : setting * string * string)
    (st : gmap string target * Config) : outcome (gmap string target * Config) :=
  let '(s, name, envName) := row in
  let '(fs, c) := st in
  let c' := set s (envOr env (kindOf s) (envPrefix ++ envName) (get c s)) c in
  fs' ← Var name (TSetting s) fs;
  Ret (fs', c').

Fixpoint registerAll (env : environ) (envPrefix : string) (rows : list (setting * string * string))
    (st : gmap string target * Config) : outcome (gmap string target * Config) :=
  match rows with
  | [] => Ret st
  | row :: rows' => st' ← registerOne env envPrefix row st; registerAll env envPrefix rows' st'
  end.

Definition RegisterFlags (env : environ) (fs : gmap string target) (envPrefix : string)
    (base : option Config) : outcome (gmap string target * Config) :=
  registerAll env envPrefix flagTable (fs, default Default base).

(** ** The YAML file *)

(** [yamlConfig] and its groups: a key that is absent stays nil. *)
Record yamlPool : Type := mkYamlPool {
  ypool_core : option Z;
  ypool_max : option Z;
  ypool_queue : option Z
}.

Record yamlCron : Type := mkYamlCron {
  ycron_collect_topic_offset : option string;
  ycron_collect_producer : option string;
  ycron_collect_consumer_offset : option string;
  ycron_collect_broker_stats_topic : option string;
  ycron_collect_broker_stats : option string;
  ycron_collect_broker_runtime_stats : option string
}.

Record yamlHealthCheck : Type := mkYamlHealthCheck {
  yhc_enabled : option bool;
  yhc_topic_prefix : option string;
  yhc_group_prefix : option string;
  yhc_rate : option float64;
  yhc_recency : option string;
  yhc_cluster_refresh : option string;
  yhc_path : option string
}.

Record yamlLog : Type := mkYamlLog {
  ylog_file : option string;
  ylog_level : option string;
  ylog_max_size_mb : option Z;
  ylog_max_age_days : option Z;
  ylog_max_backups : option Z;
  ylog_compress : option bool
}.

Record yamlConfig : Type := mkYaml {
  y_namesrv : option string;
  y_listen : option string;
  y_telemetry_path : option string;
  y_enable_collect : option bool;
  y_enable_acl : option bool;
  y_access_key : option string;
  y_secret_key : option string;
  y_cache_ttl : option string;
  y_go_mem_limit : option string;
  y_log : option yamlLog;
  y_pool : option yamlPool;
  y_cron : option yamlCron;
  y_health_check : option yamlHealthCheck
}.

(** [Overlay] works on [dst] in place: an error leaves what was copied. *)
Definition overlaid : Type := Config * option error.

Definition andThen (r : overlaid) (f : Config → overlaid) : overlaid :=
  match r with (c, None) => f c | (c, Some e) => (c, Some e) end.
Local Notation "'do' c ← r ; k" := (andThen r (λ c, k)) (at level 20, c name, r at level 100, k at level 200).

(** [if src.X != nil { dst.X = *src.X }]. *)
Definition copyTo (s : setting) (v : option (flagType (kindOf s))) (dst : Config) : overlaid :=
  (match v with Some x => set s x dst | None => dst end, None).

(** The same for a duration, which the file holds as text. *)
Definition copyDuration (assign : Z → Config → Config) (key : string)
    (v : option string) (dst : Config) : overlaid :=
  match v with
  | None => (dst, None)
  | Some raw =>
      match ParseDuration raw with
      | Ret d => (assign d dst, None)
      | Fail e => (dst, Some (EWrap "invalid %s %q: %w" [key; raw] e))
      | Panic m => (dst, Some (EExternal m))
      end
  end.

(** [if src.G != nil { ... }]. *)
Definition inGroup {G} (g : option G) (f : G → Config → overlaid) (dst : Config) : overlaid :=
  match g with Some x => f x dst | None => (dst, None) end.

Definition overlayLog (src : yamlLog) (dst : Config) : overlaid :=
  do dst ← copyTo SLogFile (ylog_file src) dst;
  do dst ← copyTo SLogLevel (ylog_level src) dst;
  do dst ← copyTo SLogMaxSizeMB (ylog_max_size_mb src) dst;
  do dst ← copyTo SLogMaxAgeDays (ylog_max_age_days src) dst;
  do dst ← copyTo SLogMaxBackups (ylog_max_backups src) dst;
  copyTo SLogCompress (ylog_compress src) dst.

Definition overlayPool (src : yamlPool) (dst : Config) : overlaid :=
  do dst ← copyTo SPoolCore (ypool_core src) dst;
  do dst ← copyTo SPoolMax (ypool_max src) dst;
  copyTo SPoolQueue (ypool_queue src) dst.

Definition overlayCron (src : yamlCron) (dst : Config) : overlaid :=
  do dst ← copyTo SCronCollectTopicOffset (ycron_collect_topic_offset src) dst;
  do dst ← copyTo SCronCollectProducer (ycron_collect_producer src) dst;
  do dst ← copyTo SCronCollectConsumerOffset (ycron_collect_consumer_offset src) dst;
  do dst ← copyTo SCronCollectBrokerStatsTopic (ycron_collect_broker_stats_topic src) dst;
  do dst ← copyTo SCronCollectBrokerStats (ycron_collect_broker_stats src) dst;
  copyTo SCronCollectBrokerRuntimeStats (ycron_collect_broker_runtime_stats src) dst.

Definition overlayHealthCheck (src : yamlHealthCheck) (dst : Config) : overlaid :=
  do dst ← copyTo SHealthEnabled (yhc_enabled src) dst;
  do dst ← copyTo SHealthTopicPrefix (yhc_topic_prefix src) dst;
  do dst ← copyTo SHealthGroupPrefix (yhc_group_prefix src) dst;
  do dst ← copyTo SHealthRate (yhc_rate src) dst;
  do dst ← copyDuration (set SHealthRecency) "health_check.recency" (yhc_recency src) dst;
  do dst ← copyDuration (set SHealthClusterRefresh) "health_check.cluster_refresh" (yhc_cluster_refresh src) dst;
  copyTo SHealthPath (yhc_path src) dst.

Definition Overlay (dst : Config) (src : yamlConfig) : overlaid :=
  do dst ← copyTo SNamesrv (y_namesrv src) dst;
  do dst ← copyTo SListen (y_listen src) dst;
  do dst ← copyTo STelemetryPath (y_telemetry_path src) dst;
  do dst ← copyTo SEnableCollect (y_enable_collect src) dst;
  do dst ← copyTo SEnableACL (y_enable_acl src) dst;
  do dst ← copyTo SAccessKey (y_access_key src) dst;
  do dst ← copyTo SSecretKey (y_secret_key src) dst;
  do dst ← copyDuration (set SCacheTTL) "cache_ttl" (y_cache_ttl src) dst;
  do dst ← copyTo SGoMemLimit (y_go_mem_limit src) dst;
  do dst ← inGroup (y_log src) overlayLog dst;
  do dst ← inGroup (y_pool src) overlayPool dst;
  do dst ← inGroup (y_cron src) overlayCron dst;
  inGroup (y_health_check src) overlayHealthCheck dst.

(** What the file says about a field: the text of a duration, the value of
    any other. *)
Definition yamlType (k : flagKind) : Type :=
  match k with KDuration => string | k => flagType k end.

Definition fileRaw (y : yamlConfig) (s : setting) : option (yamlType (kindOf s)) :=
  match s return option (yamlType (kindOf s)) with
  | SNamesrv => y_namesrv y
  | SListen => y_listen y
  | STelemetryPath => y_telemetry_path y
  | SEnableCollect => y_enable_collect y
  | SEnableACL => y_enable_acl y
  | SAccessKey => y_access_key y
  | SSecretKey => y_secret_key y
  | SCacheTTL => y_cache_ttl y
  | SGoMemLimit => y_go_mem_limit y
  | SLogFile => y_log y ≫= ylog_file
  | SLogLevel => y_log y ≫= ylog_level
  | SLogMaxSizeMB => y_log y ≫= ylog_max_size_mb
  | SLogMaxAgeDays => y_log y ≫= ylog_max_age_days
  | SLogMaxBackups => y_log y ≫= ylog_max_backups
  | SLogCompress => y_log y ≫= ylog_compress
  | SPoolCore => y_pool y ≫= ypool_core
  | SPoolMax => y_pool y ≫= ypool_max
  | SPoolQueue => y_pool y ≫= ypool_queue
  | SHealthEnabled => y_health_check y ≫= yhc_enabled
  | SHealthTopicPrefix => y_health_check y ≫= yhc_topic_prefix
  | SHealthGroupPrefix => y_health_check y ≫= yhc_group_prefix
  | SHealthRate => y_health_check y ≫= yhc_rate
  | SHealthRecency => y_health_check y ≫= yhc_recency
  | SHealthClusterRefresh => y_health_check y ≫= yhc_cluster_refresh
  | SHealthPath => y_health_check y ≫= yhc_path
  | SCronCollectTopicOffset => y_cron y ≫= ycron_collect_topic_offset
  | SCronCollectProducer => y_cron y ≫= ycron_collect_producer
  | SCronCollectConsumerOffset => y_cron y ≫= ycron_collect_consumer_offset
  | SCronCollectBrokerStatsTopic => y_cron y ≫= ycron_collect_broker_stats_topic
  | SCronCollectBrokerStats => y_cron y ≫= ycron_collect_broker_stats
  | SCronCollectBrokerRuntimeStats => y_cron y ≫= ycron_collect_broker_runtime_stats
  end.

Definition fileParse (k : flagKind) : yamlType k → outcome (flagType k) :=
  match k return yamlType k → outcome (flagType k) with
  | KDuration => ParseDuration
  | KString | KBool | KInt | KFloat64 => Ret
  end.

Definition fileValue (y : yamlConfig) (s : setting) : option (outcome (flagType (kindOf s))) :=
  fileParse (kindOf s) <$> fileRaw y s.

(** *** Overlay as a table

    The order in which [Overlay] looks at the keys, and what it does for one
    of them. *)
Definition overlayOrder : list setting :=
  [SNamesrv; SListen; STelemetryPath; SEnableCollect; SEnableACL; SAccessKey; SSecretKey; SCacheTTL; SGoMemLimit;
   SLogFile; SLogLevel; SLogMaxSizeMB; SLogMaxAgeDays; SLogMaxBackups; SLogCompress;
   SPoolCore; SPoolMax; SPoolQueue;
   SCronCollectTopicOffset; SCronCollectProducer; SCronCollectConsumerOffset; SCronCollectBrokerStatsTopic; SCronCollectBrokerStats; SCronCollectBrokerRuntimeStats;
   SHealthEnabled; SHealthTopicPrefix; SHealthGroupPrefix; SHealthRate; SHealthRecency; SHealthClusterRefresh; SHealthPath].

Definition keyOf (s : setting) : string :=
  match s with
  | SCacheTTL => "cache_ttl"
  | SHealthRecency => "health_check.recency"
  | SHealthClusterRefresh => "health_check.cluster_refresh"
  | _ => ""
  end.

Definition rawText (k : flagKind) : yamlType k → string :=
  match k return yamlType k → string with
  | KDuration => λ raw, raw
  | KString | KBool | KInt | KFloat64 => λ _, ""
  end.

Definition overlayOne (y : yamlConfig) (s : setting) (dst : Config) : overlaid :=
  match fileRaw y s with
  | None => (dst, None)
  | Some raw =>
      match fileParse (kindOf s) raw with
      | Ret v => (set s v dst, None)
      | Fail e => (dst, Some (EWrap "invalid %s %q: %w" [keyOf s; rawText (kindOf s) raw] e))
      | Panic m => (dst, Some (EExternal m))
      end
  end.

Fixpoint overlayAll (y : yamlConfig) (l : list setting) (dst : Config) : overlaid :=
  match l with
  | [] => (dst, None)
  | s :: l' => do dst ← overlayOne y s dst; overlayAll y l' dst
  end.

Lemma andThen_cong r r' f f' : r = r' → (∀ c, f c = f' c) → andThen r f = andThen r' f'.
Proof. intros <- Hf. destruct r as [c [e|]]; simpl; [done|apply Hf]. Qed.

Lemma andThen_assoc r f g : andThen (andThen r f) g = andThen r (λ c, andThen (f c) g).
Proof. by destruct r as [c [e|]]. Qed.

Lemma andThen_ret r : andThen r (λ c, (c, None)) = r.
Proof. by destruct r as [c [e|]]. Qed.

Lemma overlayAll_app y l1 l2 dst :
  overlayAll y (l1 ++ l2) dst = andThen (overlayAll y l1 dst) (overlayAll y l2).
Proof.
  revert dst. induction l1 as [|s l1 IH]; intros dst; [done|].
  cbn [overlayAll app]. rewrite andThen_assoc. by apply andThen_cong.
Qed.

(** One assignment of the source against one row of the table. *)
Ltac overlay_row :=
  unfold overlayOne, copyTo, copyDuration; cbn [fileRaw];
  repeat match goal with H : _ = Some _ |- _ => rewrite H end; simpl;
  repeat case_match; simplify_eq; done.
Ltac overlay_rows :=
  cbn [inGroup overlayAll]; repeat (apply andThen_cong; [overlay_row|intros ?]); rewrite ?andThen_ret; overlay_row.

(** A group that is absent skips its rows. *)
Ltac overlay_absent E :=
  cbn [inGroup overlayAll]; unfold overlayOne; cbn [fileRaw]; rewrite !E; reflexivity.

Section Groups.
Context (y : yamlConfig).

Lemma overlayLog_table dst :
  inGroup (y_log y) overlayLog dst =
  overlayAll y [SLogFile; SLogLevel; SLogMaxSizeMB; SLogMaxAgeDays; SLogMaxBackups; SLogCompress] dst.
Proof. destruct (y_log y) as [g|] eqn:E; unfold overlayLog; [overlay_rows|overlay_absent E]. Qed.

Lemma overlayPool_table dst :
  inGroup (y_pool y) overlayPool dst = overlayAll y [SPoolCore; SPoolMax; SPoolQueue] dst.
Proof. destruct (y_pool y) as [g|] eqn:E; unfold overlayPool; [overlay_rows|overlay_absent E]. Qed.

Lemma overlayCron_table dst :
  inGroup (y_cron y) overlayCron dst =
  overlayAll y [SCronCollectTopicOffset; SCronCollectProducer; SCronCollectConsumerOffset;
    SCronCollectBrokerStatsTopic; SCronCollectBrokerStats; SCronCollectBrokerRuntimeStats] dst.
Proof. destruct (y_cron y) as [g|] eqn:E; unfold overlayCron; [overlay_rows|overlay_absent E]. Qed.

Lemma overlayHealthCheck_table dst :
  inGroup (y_health_check y) overlayHealthCheck dst =
  overlayAll y [SHealthEnabled; SHealthTopicPrefix; SHealthGroupPrefix; SHealthRate;
    SHealthRecency; SHealthClusterRefresh; SHealthPath] dst.
Proof. destruct (y_health_check y) as [g|] eqn:E; unfold overlayHealthCheck; [overlay_rows|overlay_absent E]. Qed.

(** The statements of [Overlay] are the rows of the table, in its order. *)
Lemma Overlay_table dst : Overlay dst y = overlayAll y overlayOrder dst.
Proof.
  set (rest := drop 9 overlayOrder). change overlayOrder with (take 9 overlayOrder ++ rest)%list.
  assert (∀ c, andThen (inGroup (y_log y) overlayLog c) (λ c, andThen (inGroup (y_pool y) overlayPool c)
            (λ c, andThen (inGroup (y_cron y) overlayCron c)
            (λ c, inGroup (y_health_check y) overlayHealthCheck c))) = overlayAll y rest c) as Hrest.
  { intros c. change rest with (take 6 rest ++ take 3 (drop 6 rest) ++ take 6 (drop 9 rest) ++ drop 15 rest)%list.
    rewrite overlayAll_app. apply andThen_cong; [apply overlayLog_table|]. intros c1.
    rewrite overlayAll_app. apply andThen_cong; [apply overlayPool_table|]. intros c2.
    rewrite overlayAll_app. apply andThen_cong; [apply overlayCron_table|]. intros c3.
    apply overlayHealthCheck_table. }
  clearbody rest. unfold Overlay. cbn [take overlayOrder app overlayAll].
  repeat (apply andThen_cong; [overlay_row|intros ?]). apply Hrest.
Qed.
End Groups.

(** ** The configuration file *)

(** The scan of the arguments after the program's name. *)
Fixpoint findConfigArg (args : list string) : option string :=
  match args with
  | [] => None
  | arg :: rest =>
      let next := if HasPrefix arg "--config=" then Some (TrimPrefix arg "--config=") else findConfigArg rest in
      if String.eqb arg "--config" || String.eqb arg "-config" then
        match rest with
        | v :: _ => Some v
        | [] => next
        end
      else next
  end.

Definition FindConfigPath (osArgs : list string) (env : environ) : string :=
  match findConfigArg (tail osArgs) with
  | Some v => v
  | None => default "" (env !! "RMQ_CONFIG")
  end.

Section File.
(** [os.ReadFile] and [yaml.Unmarshal] into a [yamlConfig]. *)
Context (ReadFile : string → outcome string) (Unmarshal : string → outcome yamlConfig).

Definition LoadYAML (path : string) : outcome yamlConfig :=
  data ← wrapErr "read config file: %w" [] (ReadFile path);
  wrapErr "parse config file: %w" [] (Unmarshal data).

Definition OverlayFile (dst : Config) (path : string) : outcome overlaid :=
  match LoadYAML path with
  | Ret yc => Ret (Overlay dst yc)
  | Fail e => Ret (dst, Some e)
  | Panic m => Panic m
  end.
End File.

(** ** Cron expressions *)

Definition TranslateCron (expr : string) : string := ReplaceAll expr "?" "*".

Section Cron.
(** [cron.NewParser(SecondOptional | ...).Parse], for its error only. *)
Context (parse : string → option error).

Definition ValidateCron (taskName expr : string) : option error :=
  match parse (TranslateCron expr) with
  | Some err => Some (EWrap "invalid cron for %s (%q): %w" [taskName; expr] err)
  | None => None
  end.

Definition cronTasks (c : Config) : list (string * string) :=
  [("collectTopicOffset", cron_CollectTopicOffset (cfg_Cron c));
   ("collectProducer", cron_CollectProducer (cfg_Cron c));
   ("collectConsumerOffset", cron_CollectConsumerOffset (cfg_Cron c));
   ("collectBrokerStatsTopic", cron_CollectBrokerStatsTopic (cfg_Cron c));
   ("collectBrokerStats", cron_CollectBrokerStats (cfg_Cron c));
   ("collectBrokerRuntimeStats", cron_CollectBrokerRuntimeStats (cfg_Cron c))].

Fixpoint validateTasks (tasks : list (string * string)) : option error :=
  match tasks with
  | [] => None
  | (name, expr) :: tasks' =>
      match ValidateCron name expr with
      | Some err => Some err
      | None => validateTasks tasks'
      end
  end.

Definition ValidateAll (c : Config) : option error := validateTasks (cronTasks c).
End Cron.

(** ** ParseMemLimit *)

(** [strings.ToLower], as far as a comparison with ASCII text can tell: next
    to the ASCII letters, U+212A (E2 84 AA) has the lower case [k] and U+0130
    (C4 B0) the lower case [i]. *)
Fixpoint lowerRunes (s : string) : string :=
  match s with
  | EmptyString => ""
  | String c s1 =>
      match s1 with
      | String c1 s2 =>
          if Z.eqb (code c) 196 && Z.eqb (code c1) 176 then String "i" (lowerRunes s2)
          else match s2 with
               | String c2 s3 =>
                   if Z.eqb (code c) 226 && Z.eqb (code c1) 132 && Z.eqb (code c2) 170
                   then String "k" (lowerRunes s3)
                   else String (lowerByte c) (lowerRunes s1)
               | EmptyString => String (lowerByte c) (lowerRunes s1)
               end
      | EmptyString => String (lowerByte c) (lowerRunes s1)
      end
  end.

(** The leading number and what follows it. *)
Fixpoint splitNumber (s : string) : string * string :=
  match s with
  | String c s' =>
      if isDigit c || Ascii.eqb c "." then let '(n, u) := splitNumber s' in (String c n, u) else ("", s)
  | EmptyString => ("", "")
  end.

Definition memUnit (unit : string) : option Z :=
  let u := lowerRunes unit in
  if bool_decide (u ∈ [""; "b"]) then Some 1
  else if bool_decide (u ∈ ["k"; "kib"]) then Some (Z.shiftl 1 10)
  else if bool_decide (u ∈ ["m"; "mib"]) then Some (Z.shiftl 1 20)
  else if bool_decide (u ∈ ["g"; "gib"]) then Some (Z.shiftl 1 30)
  else if bool_decide (u ∈ ["t"; "tib"]) then Some (Z.shiftl 1 40)
  else None.

Section MemLimit.
(** The result of [int64(f)] for an [f] out of range, which the language
    leaves to the implementation. *)
Context (outOfRange : float64 → Z).

Definition toInt64 (f : float64) : Z :=
  match ratOf f with
  | Some (n, d) =>
      let z := Z.quot n d in
      if decide (- 2 ^ 63 ≤ z < 2 ^ 63) then z else outOfRange f
  | None => outOfRange f
  end.

Definition ParseMemLimit (s : string) : outcome Z :=
  let s := TrimSpace s in
  if String.eqb s "" || EqualFold s "off" then Ret 0
  else
    let '(numStr, rest) := splitNumber s in
    let unit := TrimSpace rest in
    n ← wrapErr "invalid memory limit %q: %w" [s] (ParseFloat numStr);
    match memUnit unit with
    | None => Fail (EMsg "invalid memory limit unit %q in %q" [unit; s])
    | Some mult => Ret (toInt64 (fmul n (floatOfZ mult)))
    end.
End MemLimit.

Example ParseMemLimit_512MiB : ParseMemLimit (λ _, 0) " 512MiB" = Ret (512 * 2 ^ 20)
  ∧ ParseMemLimit (λ _, 0) "1.5 G" = Ret (3 * 2 ^ 29) ∧ ParseMemLimit (λ _, 0) "OFF" = Ret 0
  ∧ is_ret (ParseMemLimit (λ _, 0) "-1") = false ∧ is_ret (ParseMemLimit (λ _, 0) "12XB") = false.
Proof. vm_compute. done. Qed.

(** ** Overlay: what the file changes *)

(** The file's value of a field, or the default when the file has none. *)
Definition fileOr (y : yamlConfig) (s : setting) (def : flagType (kindOf s)) : flagType (kindOf s) :=
  match fileValue y s with Some (Ret v) => v | _ => def end.

(** The key of the field is absent or well-formed. *)
Definition fileOK (y : yamlConfig) (s : setting) : bool :=
  match fileValue y s with Some m => is_ret m | None => true end.

Lemma fileParse_no_panic k raw : no_panic (fileParse k raw).
Proof. intros msg. destruct k; simpl; try done. apply ParseDuration_no_panic. Qed.

Lemma overlayOne_ok y s dst :
  fileOK y s = true →
  ∃ dst', overlayOne y s dst = (dst', None) ∧
    ∀ s', get dst' s' = if decide (s = s') then fileOr y s' (get dst s') else get dst s'.
Proof.
  unfold fileOK, fileOr, overlayOne, fileValue. destruct (fileRaw y s) as [raw|] eqn:E; simpl.
  - destruct (fileParse (kindOf s) raw) as [v|e|m] eqn:Ep; simpl; [|done|done].
    intros _. eexists; split; [done|]. intros s'. case_decide; [subst s'|by rewrite get_set_ne].
    rewrite get_set, E. simpl. by rewrite Ep.
  - intros _. eexists; split; [done|]. intros s'. case_decide; [subst s'|done]. by rewrite E.
Qed.

Lemma overlayOne_bad y s dst :
  fileOK y s = false →
  ∃ raw e, fileRaw y s = Some raw ∧ overlayOne y s dst =
    (dst, Some (EWrap "invalid %s %q: %w" [keyOf s; rawText (kindOf s) raw] e)).
Proof.
  unfold fileOK, overlayOne, fileValue. destruct (fileRaw y s) as [raw|] eqn:E; simpl; [|done].
  pose proof (fileParse_no_panic (kindOf s) raw) as Hp.
  destruct (fileParse (kindOf s) raw) as [v|e|m]; simpl; [done|eauto|by destruct (Hp m)].
Qed.

Lemma overlayAll_spec y l dst :
  NoDup l →
  match list_find (λ s, fileOK y s = false) l with
  | None => ∃ dst', overlayAll y l dst = (dst', None)
      ∧ ∀ s, get dst' s = if decide (s ∈ l) then fileOr y s (get dst s) else get dst s
  | Some (i, s0) => ∃ dst' raw e, fileRaw y s0 = Some raw
      ∧ overlayAll y l dst = (dst', Some (EWrap "invalid %s %q: %w" [keyOf s0; rawText (kindOf s0) raw] e))
      ∧ ∀ s, get dst' s = if decide (s ∈ take i l) then fileOr y s (get dst s) else get dst s
  end.
Proof.
  intros Hl. revert dst. induction Hl as [|s l Hs Hl IH]; intros dst; cbn [list_find overlayAll].
  - eexists; split; [done|]. intros s. by rewrite decide_False by set_solver.
  - case_decide as Hok.
    + destruct (overlayOne_bad y s dst Hok) as (raw & e & Hraw & ->).
      exists dst, raw, e. split; [done|]. split; [done|]. intros s'. by rewrite decide_False by set_solver.
    + apply not_false_iff_true in Hok.
      destruct (overlayOne_ok y s dst Hok) as (dst1 & -> & Hget). simpl.
      specialize (IH dst1).
      assert (∀ l' s', s ∉ l' → (if decide (s' ∈ l') then fileOr y s' (get dst1 s') else get dst1 s')
        = if decide (s' ∈ s :: l') then fileOr y s' (get dst s') else get dst s') as Hstep.
      { intros l' s' Hin. rewrite (Hget s'). destruct (decide (s = s')) as [<-|].
        - rewrite (decide_False (P := s ∈ l')) by done. by rewrite decide_True by left.
        - destruct (decide (s' ∈ l')); [by rewrite decide_True by (by right)|].
          by rewrite decide_False by (by intros [->|]%elem_of_cons). }
      destruct (list_find _ l) as [[i s0]|]; simpl in *.
      * destruct IH as (dst' & raw & e & Hraw & -> & Hd). exists dst', raw, e.
        split; [done|]. split; [done|]. intros s'. rewrite Hd. apply Hstep. intros (j & Hj & _)%elem_of_take. by apply Hs, (list_elem_of_lookup_2 _ j).
      * destruct IH as (dst' & -> & Hd). exists dst'. split; [done|].
        intros s'. rewrite Hd. by apply Hstep.
Qed.

Lemma overlayOrder_complete : NoDup overlayOrder ∧ ∀ s, s ∈ overlayOrder.
Proof.
  split; [by apply (bool_decide_unpack _); vm_compute|].
  intros s. apply (bool_decide_unpack _). by destruct s.
Qed.

(** A file whose keys are all well-formed is copied without an error; a
    malformed one gives an error. *)
Lemma Overlay_ok dst y :
  (∀ s, fileOK y s = true) →
  (Overlay dst y).2 = None ∧ ∀ s, get (Overlay dst y).1 s = fileOr y s (get dst s).
Proof.
  intros Hok. destruct overlayOrder_complete as [Hnd Hall]. pose proof (overlayAll_spec y _ dst Hnd) as H.
  rewrite Overlay_table. destruct (list_find _ _) as [[i s0]|] eqn:E.
  - apply list_find_Some in E as (_ & E & _). by rewrite Hok in E.
  - destruct H as (dst' & -> & Hd). split; [done|]. intros s. rewrite Hd. by rewrite decide_True.
Qed.

Lemma Overlay_none dst y : (Overlay dst y).2 = None → ∀ s, fileOK y s = true.
Proof.
  intros Hn s. destruct overlayOrder_complete as [Hnd Hall]. pose proof (overlayAll_spec y _ dst Hnd) as H.
  rewrite Overlay_table in Hn. destruct (list_find _ _) as [[i s0]|] eqn:E.
  - destruct H as (dst' & raw & e & _ & H & _). by rewrite H in Hn.
  - apply list_find_None in E. rewrite Forall_forall in E. specialize (E s (Hall s)).
    by destruct (fileOK y s).
Qed.

(** C34: [Overlay] copies exactly what the file says.  When every duration in
    the file parses, each of the 31 settings ends with the file's value where
    the key is present and keeps its own value where it is absent, and there
    is no error.  Otherwise the error names the first malformed key in the
    order of the source, with its text; the settings before it have been
    overlaid and no other has changed. *)
Theorem Overlay_spec dst y :
  match list_find (λ s, fileOK y s = false) overlayOrder with
  | None => (Overlay dst y).2 = None ∧ ∀ s, get (Overlay dst y).1 s = fileOr y s (get dst s)
  | Some (i, s0) =>
      (∃ raw e, fileRaw y s0 = Some raw
        ∧ (Overlay dst y).2 = Some (EWrap "invalid %s %q: %w" [keyOf s0; rawText (kindOf s0) raw] e))
      ∧ ∀ s, get (Overlay dst y).1 s =
             if decide (s ∈ take i overlayOrder) then fileOr y s (get dst s) else get dst s
  end.
Proof.
  destruct overlayOrder_complete as [Hnd Hall]. pose proof (overlayAll_spec y _ dst Hnd) as H.
  rewrite Overlay_table. destruct (list_find _ _) as [[i s0]|].
  - destruct H as (dst' & raw & e & Hraw & -> & Hd). split; [eauto|done].
  - destruct H as (dst' & -> & Hd). split; [done|]. intros s. rewrite Hd. by rewrite decide_True.
Qed.

(** ** RegisterFlags: the flags and their defaults *)

Fixpoint registerNames (rows : list (setting * string * string)) (fs : gmap string target)
    : outcome (gmap string target) :=
  match rows with
  | [] => Ret fs
  | (s, name, _) :: rows' => fs' ← Var name (TSetting s) fs; registerNames rows' fs'
  end.

Definition envDefaults (env : environ) (envPrefix : string) (rows : list (setting * string * string))
    (c : Config) : Config :=
  foldl (λ c '(s, _, envName), set s (envOr env (kindOf s) (envPrefix ++ envName) (get c s)) c) c rows.

Lemma registerAll_split env envPrefix rows fs c :
  registerAll env envPrefix rows (fs, c) =
  (fs' ← registerNames rows fs; Ret (fs', envDefaults env envPrefix rows c)).
Proof.
  revert fs c. induction rows as [|[[s name] e] rows IH]; intros fs c; simpl; [done|].
  destruct (Var name (TSetting s) fs) as [fs'|er|m]; simpl; [apply IH|done..].
Qed.

Lemma envDefaults_other env envPrefix rows c s :
  s ∉ rows.*1.*1 → get (envDefaults env envPrefix rows c) s = get c s.
Proof.
  revert c. induction rows as [|[[s' name] e] rows IH]; intros c; cbn; [done|].
  intros [Hne Hs]%not_elem_of_cons. unfold envDefaults in IH. rewrite IH by done.
  by apply get_set_ne.
Qed.

Lemma envDefaults_get env envPrefix rows c s name e :
  NoDup rows.*1.*1 → (s, name, e) ∈ rows →
  get (envDefaults env envPrefix rows c) s = envOr env (kindOf s) (envPrefix ++ e) (get c s).
Proof.
  revert c. induction rows as [|[[s' name'] e'] rows IH]; intros c; [by intros _ ?%elem_of_nil|].
  intros [Hs Hnd]%NoDup_cons [E|Hin]%elem_of_cons.
  - injection E as -> -> ->. change (envDefaults env envPrefix ((s', name', e') :: rows) c)
      with (envDefaults env envPrefix rows (set s' (envOr env (kindOf s') (envPrefix ++ e') (get c s')) c)).
    by rewrite envDefaults_other, get_set.
  - assert (s' ≠ s) as Hne.
    { intros ->. apply Hs. apply list_elem_of_fmap. exists (s, name). split; [done|].
      apply list_elem_of_fmap. by exists (s, name, e). }
    change (envDefaults env envPrefix ((s', name', e') :: rows) c)
      with (envDefaults env envPrefix rows (set s' (envOr env (kindOf s') (envPrefix ++ e') (get c s')) c)).
    rewrite IH by done. by rewrite get_set_ne.
Qed.

(** The command line's flags: [--config] of [run] and the 31 of the table. *)
Definition allFlags : gmap string target :=
  list_to_map (("config", TConfigPath) :: ((λ '(s, name, _), (name, TSetting s)) <$> flagTable)).

(** Every setting has exactly one row. *)
Lemma flagTable_settings : NoDup flagTable.*1.*1 ∧ ∀ s, s ∈ flagTable.*1.*1.
Proof.
  split; [by apply (bool_decide_unpack _); vm_compute|].
  intros s. apply (bool_decide_unpack _). by destruct s.
Qed.

Lemma flagTable_names : NoDup ("config" :: flagTable.*1.*2).
Proof. apply (bool_decide_unpack _). by vm_compute. Qed.

(** Names [Var] accepts, none given twice, are all registered. *)
Lemma registerNames_distinct rows fs :
  Forall (λ name, HasPrefix name "-" = false ∧ cut "=" name = None) rows.*1.*2 →
  NoDup rows.*1.*2 → Forall (λ name, fs !! name = None) rows.*1.*2 →
  registerNames rows fs = Ret (list_to_map ((λ '(s, name, _), (name, TSetting s)) <$> rows) ∪ fs).
Proof.
  revert fs. induction rows as [|[[s name] e] rows IH]; intros fs.
  { intros _ _ _. simpl. by rewrite (left_id_L ∅ (∪)). }
  rewrite !fmap_cons. cbn [fst snd]. intros [[Hp Hc] Hw]%Forall_cons [Hn Hnd]%NoDup_cons [Hf Hfs]%Forall_cons.
  cbn [registerNames list_to_map foldr]. unfold Var. rewrite Hp, Hc, Hf. cbn [mbind outcome_bind].
  rewrite IH; [|done..|].
  - rewrite <- insert_union_l, <- insert_union_r; [done|].
    apply not_elem_of_list_to_map_1. intros (x & -> & ([[s' n'] e'] & -> & Hx)%list_elem_of_fmap)%list_elem_of_fmap.
    apply Hn. apply list_elem_of_fmap. exists (s', n'). split; [done|]. apply list_elem_of_fmap. by exists (s', n', e').
  - apply Forall_forall. intros n Hin. rewrite lookup_insert_ne; [by apply (proj1 (Forall_forall _ _) Hfs)|].
    intros ->. done.
Qed.

Lemma registerNames_all : registerNames flagTable {[ "config" := TConfigPath ]} = Ret allFlags.
Proof.
  pose proof flagTable_names as [Hc Hnd]%NoDup_cons. rewrite registerNames_distinct; [|..|done|].
  - unfold allFlags. cbn [list_to_map foldr fst snd]. rewrite insert_union_singleton_r; [done|].
    apply not_elem_of_list_to_map_1. intros (x & E & ([[s n] e] & -> & Hx)%list_elem_of_fmap)%list_elem_of_fmap.
    apply Hc. rewrite E. apply list_elem_of_fmap. exists (s, n). split; [done|].
    apply list_elem_of_fmap. by exists (s, n, e).
  - apply Forall_forall, (proj1 (Forall_forall _ _)). repeat constructor.
  - apply Forall_forall. intros n Hn. apply lookup_singleton_ne. intros <-. done.
Qed.

Lemma elem_of_flagTable s : ∃ name e, (s, name, e) ∈ flagTable.
Proof.
  destruct flagTable_settings as [_ H]. specialize (H s).
  apply list_elem_of_fmap in H as ([s' name] & -> & H).
  apply list_elem_of_fmap in H as ([[s'' name'] e] & [= -> ->] & H). eauto.
Qed.

Lemma allFlags_lookup name t :
  allFlags !! name = Some t ↔
  (name = "config" ∧ t = TConfigPath) ∨ ∃ s e, t = TSetting s ∧ (s, name, e) ∈ flagTable.
Proof.
  unfold allFlags. rewrite <- elem_of_list_to_map.
  - rewrite elem_of_cons, list_elem_of_fmap. split.
    + intros [[= -> ->]|([[s n] e] & [= -> ->] & H)]; eauto 10.
    + intros [[-> ->]|(s & e & -> & H)]; [by left|]. right. by exists (s, name, e).
  - exact flagTable_names.
Qed.

Lemma allFlags_wf : wf_flags allFlags.
Proof.
  intros name t H.
  assert (forallb (λ n, negb (String.eqb n "") && negb (HasPrefix n "-")
            && match cut "=" n with None => true | _ => false end) ("config" :: flagTable.*1.*2) = true) as Hall
    by (vm_compute; reflexivity).
  rewrite forallb_forall in Hall.
  assert (In name ("config" :: flagTable.*1.*2)) as Hin.
  { apply list_elem_of_In, elem_of_cons. apply allFlags_lookup in H as [[-> _]|(s & e & _ & H)]; [by left|right].
    apply list_elem_of_fmap. exists (s, name). split; [done|]. apply list_elem_of_fmap. by exists (s, name, e). }
  specialize (Hall name Hin). apply andb_true_iff in Hall as [[Hne Hp]%andb_true_iff Hc].
  repeat split.
  - by destruct (String.eqb_spec name "").
  - by apply negb_true_iff.
  - by destruct (cut "=" name).
Qed.

(** Registration succeeds on the flag set of [run] and gives every field the
    value of its environment variable, or the base's. *)
Lemma RegisterFlags_run env base :
  ∃ c, RegisterFlags env {[ "config" := TConfigPath ]} "RMQ_" (Some base) = Ret (allFlags, c)
    ∧ ∀ s name e, (s, name, e) ∈ flagTable → get c s = envOr env (kindOf s) ("RMQ_" ++ e) (get base s).
Proof.
  exists (envDefaults env "RMQ_" flagTable base). split.
  - unfold RegisterFlags. rewrite registerAll_split, registerNames_all. done.
  - intros s name e. by apply envDefaults_get, flagTable_settings.
Qed.

(** ** The flags on the command line *)

(** The value the last well-formed assignment to [name] gives, or [def]. *)
Fixpoint flagOr (k : flagKind) (name : string) (l : list (flagForm * string * string))
    (def : flagType k) : flagType k :=
  match l with
  | [] => def
  | (_, n, raw) :: l' =>
      flagOr k name l'
        (if String.eqb n name then match flagSet k raw with Ret v => v | _ => def end else def)
  end.

(** Every flag is defined, written in a form its type allows, and its text
    parses. *)
Definition wellTyped (l : list (flagForm * string * string)) : Prop :=
  Forall (λ '(f, name, raw), ∃ t v, allFlags !! name = Some t ∧ formOK (targetKind t) f raw
            ∧ flagSet (targetKind t) raw = Ret v) l.

Local Abbreviation assignsAll := (assigns targetKind assignTarget allFlags).

Lemma assigns_wellTyped l st st' : assignsAll l st st' → wellTyped l.
Proof. unfold wellTyped. induction 1; constructor; eauto. Qed.

Lemma wellTyped_assigns l st : wellTyped l → ∃ st', assignsAll l st st'.
Proof.
  intros Hl. revert st. induction Hl as [|[[f name] raw] l (t & v & Ht & Hf & Hv) Hl IH]; intros st.
  - eexists. constructor.
  - destruct (IH (assignTarget t v st)) as [st' H]. exists st'. by econstructor.
Qed.

Lemma flagTable_fun s name e name' e' :
  (s, name, e) ∈ flagTable → (s, name', e') ∈ flagTable → name = name' ∧ e = e'.
Proof.
  intros [i Hi]%list_elem_of_lookup [j Hj]%list_elem_of_lookup.
  destruct flagTable_settings as [Hnd _].
  assert (i = j) as ->; [|by simplify_eq].
  eapply (NoDup_lookup _ i j s); [exact Hnd| |]; rewrite !list_lookup_fmap; [by rewrite Hi|by rewrite Hj].
Qed.

Lemma allFlags_fun s name e t :
  (s, name, e) ∈ flagTable → allFlags !! name = Some t → t = TSetting s.
Proof.
  intros H Ht. assert (allFlags !! name = Some (TSetting s)) as Hs by (apply allFlags_lookup; eauto 10).
  congruence.
Qed.

(** The assignments reach each field: the last one wins. *)
Lemma assigns_get l st st' s name e :
  assignsAll l st st' → (s, name, e) ∈ flagTable →
  get st'.2 s = flagOr (kindOf s) name l (get st.2 s).
Proof.
  intros H Hin. induction H as [st|f n raw l t v st st' Ht Hf Hv Hl IH]; [done|].
  rewrite IH. cbn [flagOr]. f_equal. destruct (String.eqb_spec n name) as [->|Hne].
  - pose proof (allFlags_fun _ _ _ _ Hin Ht) as ->. simpl in *. by rewrite get_set, Hv.
  - apply allFlags_lookup in Ht as [[-> ->]|(s' & e' & -> & Hin')]; [done|]. simpl.
    apply get_set_ne. intros ->. by destruct (flagTable_fun _ _ _ _ _ Hin Hin').
Qed.

(** ** Cron expressions *)

Lemma cut_TranslateCron expr : cut "?" (TranslateCron expr) = None.
Proof.
  unfold TranslateCron. induction expr as [|c s IH]; [done|]. cbn [ReplaceAll].
  destruct (Ascii.eqb c "?") eqn:E.
  - change ("*" ++ ReplaceAll s "?" "*") with (String "*" (ReplaceAll s "?" "*")). cbn [cut]. by rewrite IH.
  - cbn [cut]. by rewrite E, IH.
Qed.

(** The translation changes question marks and nothing else. *)
Lemma TranslateCron_get expr i :
  String.get i (TranslateCron expr) = (λ c, if Ascii.eqb c "?" then "*"%char else c) <$> String.get i expr.
Proof.
  unfold TranslateCron. revert i. induction expr as [|c s IH]; intros i; [done|]. cbn [ReplaceAll].
  destruct (Ascii.eqb_spec c "?") as [->|Hne]; destruct i as [|i]; simpl; try apply IH; [done|].
  by destruct (Ascii.eqb_spec c "?").
Qed.

Lemma validateTasks_spec parse tasks :
  match list_find (λ p, parse (TranslateCron p.2) ≠ None) tasks with
  | None => validateTasks parse tasks = None
  | Some (_, (name, expr)) => ∃ err, parse (TranslateCron expr) = Some err
      ∧ validateTasks parse tasks = Some (EWrap "invalid cron for %s (%q): %w" [name; expr] err)
  end.
Proof.
  induction tasks as [|[name expr] tasks IH]; [done|]. cbn [list_find validateTasks]. unfold ValidateCron.
  cbn [snd]. destruct (parse (TranslateCron expr)) as [err|] eqn:E.
  - rewrite decide_True by done. eauto.
  - rewrite decide_False by auto. by destruct (list_find _ tasks) as [[i [n x]]|].
Qed.

(** ** FindConfigPath against the flag parser *)

(** The words [FindConfigPath] reacts to. *)
Definition isConfigWord (w : string) : bool :=
  String.eqb w "--config" || String.eqb w "-config" || HasPrefix w "--config=".

(** A flag the scan reads as the parser does: [-config=V] is not, and neither
    is a value of another flag that looks like the option. *)
Definition scannable (a : flagForm * string * string) : Prop :=
  let '(f, name, raw) := a in
  match f with
  | FormBool _ => True
  | FormEq dd => name = "config" → dd = true
  | FormNext _ => name ≠ "config" → isConfigWord raw = false
  end.

Lemma HasPrefix_false s p : HasPrefix s p = false ↔ ∀ r, s ≠ p ++ r.
Proof.
  unfold HasPrefix. destruct (afterPrefix s p) as [x|] eqn:E.
  - apply afterPrefix_app in E. split; [done|]. intros H. by destruct (H x).
  - split; [|done]. intros _ r Hr%afterPrefix_app. congruence.
Qed.

Lemma findConfigArg_skip w args : isConfigWord w = false → findConfigArg (w :: args) = findConfigArg args.
Proof. intros [H1 H2]%orb_false_iff. cbn [findConfigArg]. by rewrite H1, H2. Qed.

Lemma findConfigArg_none args : Forall (λ w, isConfigWord w = false) args → findConfigArg args = None.
Proof. induction 1; [done|]. by rewrite findConfigArg_skip. Qed.

(** The word of another flag is none of them. *)
Lemma flag_not_config dd name suffix :
  wf_name name → name ≠ "config" → (suffix = "" ∨ ∃ raw, suffix = String "=" raw) →
  isConfigWord (dashes dd ++ name ++ suffix) = false.
Proof.
  intros Hwf Hne Hs. pose proof Hwf as (_ & _ & Hcut).
  destruct (wf_name_cons _ Hwf) as (c & n & En & Hc & _ & _).
  assert (∀ x, name ++ suffix = "config" ++ x → x = "" ∨ (∃ y, x = String "=" y) → False) as Hcfg.
  { intros x E Hx. apply Hne.
    destruct Hs as [->|[raw ->]], Hx as [->|[y ->]]; rewrite ?append_nil_r in E.
    - done.
    - rewrite E in Hcut. by rewrite cut_app_sep in Hcut.
    - pose proof (cut_app_sep "=" name raw Hcut) as Hc'. rewrite E in Hc'. done.
    - pose proof (cut_app_sep "=" name raw Hcut) as Hc'. rewrite E, cut_app_sep in Hc' by done. congruence. }
  assert (∀ x, dashes dd ++ name ++ suffix = "--config" ++ x → x = "" ∨ (∃ y, x = String "=" y) → False) as Hdd.
  { intros x E Hx. destruct dd; simpl in E.
    - injection E as E. by eapply Hcfg.
    - rewrite En in E. injection E as -> _. done. }
  unfold isConfigWord. apply orb_false_iff. split; [apply orb_false_iff; split|].
  - apply String.eqb_neq. intros E. apply (Hdd ""); [done|by left].
  - apply String.eqb_neq. intros E. destruct dd; simpl in E.
    + done.
    + injection E as E. apply (Hcfg ""); [done|by left].
  - apply HasPrefix_false. intros r E. apply (Hdd (String "=" r)); [done|right; eauto].
Qed.

(** The path the parser leaves in the variable of [--config]. *)
Fixpoint configFlag (l : list (flagForm * string * string)) (def : string) : string :=
  match l with
  | [] => def
  | (_, n, raw) :: l' => configFlag l' (if String.eqb n "config" then raw else def)
  end.

Lemma assigns_config l st st' : assignsAll l st st' → st'.1 = configFlag l st.1.
Proof.
  induction 1 as [st|f n raw l t v st st' Ht Hf Hv Hl IH]; [done|]. rewrite IH. cbn [configFlag]. f_equal.
  apply allFlags_lookup in Ht as [[-> ->]|(s & e & -> & Hin)].
  - simpl in *. by injection Hv as ->.
  - destruct (String.eqb_spec n "config") as [->|]; [|done]. exfalso.
    pose proof flagTable_names as [Hn _]%NoDup_cons. apply Hn.
    apply list_elem_of_fmap. exists (s, "config"). split; [done|]. apply list_elem_of_fmap. by exists (s, "config", e).
Qed.

Lemma configFlag_none l def : Forall (λ a, a.1.2 ≠ "config") l → configFlag l def = def.
Proof.
  intros H. induction H as [|[[f n] raw] l Hn Hl IH]; [done|]. cbn [configFlag]. simpl in Hn.
  destruct (String.eqb_spec n "config"); [done|]. apply IH.
Qed.

Lemma findConfigArg_commandLine l tail def :
  wellTyped l → Forall scannable l → Forall (λ w, isConfigWord w = false) tail →
  (length (filter (λ a, a.1.2 = "config") l) ≤ 1)%nat →
  default def (findConfigArg (commandLine l ++ tail)) = configFlag l def.
Proof.
  intros Ht Hs Htail. induction Ht as [|[[f n] raw] l (t & v & Hn & Hf & Hv) Ht IH]; intros Hone.
  - simpl. by rewrite findConfigArg_none.
  - apply Forall_cons in Hs as [Hs1 Hs]. unfold commandLine. cbn [mbind list_bind]. rewrite <- app_assoc.
    fold (commandLine l). rewrite filter_cons in Hone. cbn [configFlag fst snd] in *.
    pose proof (allFlags_wf _ _ Hn) as Hwf.
    destruct (String.eqb_spec n "config") as [->|Hne].
    + rewrite decide_True in Hone by done. simpl in Hone.
      rewrite configFlag_none.
      2:{ apply Forall_forall. intros a Ha E. assert (a ∈ filter (λ a, a.1.2 = "config") l) as Hin.
          { by apply list_elem_of_filter. } destruct (filter _ l); [by apply elem_of_nil in Hin|simpl in Hone; lia]. }
      apply allFlags_lookup in Hn as [[_ ->]|(s & e & -> & Hin)].
      2:{ pose proof (allFlags_fun _ _ _ TConfigPath Hin eq_refl). done. }
      destruct f as [dd|dd|dd]; [by destruct Hf|rewrite (Hs1 eq_refl)|by destruct dd].
      cbn [renderFlag app findConfigArg].
      assert (afterPrefix (dashes true ++ "config" ++ "=" ++ raw) "--config=" = Some raw) as Hp
        by by apply afterPrefix_app.
      unfold HasPrefix, TrimPrefix. rewrite Hp. done.
    + rewrite decide_False in Hone by done. specialize (IH Hs Hone).
      destruct f as [dd|dd|dd]; cbn [renderFlag app].
      * rewrite <- (append_nil_r n), findConfigArg_skip; [done|]. apply flag_not_config; auto.
      * rewrite findConfigArg_skip; [done|]. apply flag_not_config; eauto.
      * rewrite <- (append_nil_r n), findConfigArg_skip by (apply flag_not_config; auto).
        rewrite findConfigArg_skip; [done|]. by apply Hs1.
Qed.

(** C32: [FindConfigPath], which runs before the flags are parsed, finds the
    path the flag parser will later store for [--config] (with RMQ_CONFIG as
    its default), on every command line that gives the option at most once,
    not in the form [-config=V], and has no word outside the option that looks
    like it. *)
Theorem FindConfigPath_agrees env prog l tail rest c st' :
  wellTyped l → Forall scannable l → stops tail rest → Forall (λ w, isConfigWord w = false) tail →
  (length (filter (λ a, a.1.2 = "config") l) ≤ 1)%nat →
  Parse targetKind assignTarget allFlags (commandLine l ++ tail) (default "" (env !! "RMQ_CONFIG"), c)
    = Ret (rest, st') →
  FindConfigPath (prog :: commandLine l ++ tail) env = st'.1.
Proof.
  intros Ht Hs Hstop Htail Hone HP.
  destruct (wellTyped_assigns l (default "" (env !! "RMQ_CONFIG"), c) Ht) as [st Hl].
  assert (Parse targetKind assignTarget allFlags (commandLine l ++ tail) (default "" (env !! "RMQ_CONFIG"), c)
            = Ret (rest, st)) as HP'.
  { apply Parse_iff; [apply allFlags_wf|]. eauto. }
  rewrite HP' in HP. injection HP as <-. rewrite (assigns_config _ _ _ Hl).
  cbn [fst]. unfold FindConfigPath. cbn [List.tl].
  rewrite <- (findConfigArg_commandLine l tail) by done. by destruct (findConfigArg _).
Qed.

(** Three flags, the option among them, and two words after the terminator. *)
Lemma FindConfigPath_agrees_witness :
  FindConfigPath ["rmq-exporter"; "-enable-acl"; "--config=a.yml"; "--pool-max"; "3"; "--"; "x"] ∅ = "a.yml".
Proof.
  apply (FindConfigPath_agrees ∅ "rmq-exporter"
    [(FormBool false, "enable-acl", "true"); (FormEq true, "config", "a.yml"); (FormNext true, "pool-max", "3")]
    ["--"; "x"] ["x"] Default
    ("a.yml", set SPoolMax 3 (set SEnableACL true Default))).
  - repeat constructor.
    + by exists (TSetting SEnableACL), true.
    + by exists TConfigPath, "a.yml".
    + by exists (TSetting SPoolMax), 3.
  - repeat constructor.
  - done.
  - repeat constructor.
  - vm_compute. lia.
  - vm_compute. reflexivity.
Defined.
