(* ===== verification/Util.v ===== *)
(** * Helpers: internal/util/utils.go, internal/util/addresses.go *)

From Stdlib Require Import ZArith Lia Ascii String Floats.SpecFloat.
From S2P Require Import Prelude GoStrings GoFloat.

(** The integer [n] of [GetFixedDouble] and the sign of the result, from the
    exact value [num / den]: [floor (|100 num / den| + 1/2)]. *)
Definition hundredths (num den : Z) : Z * bool :=
  let r := 100 * num in
  let neg := r <? 0 in
  let n := Z.quot (2 * Z.abs r + den) (2 * den) in
  (n, neg).

(** A value that is not finite makes [SetFloat64] return nil, and the
    multiplication that follows panics. *)
Definition GetFixedDouble (value : float64) : outcome float64 :=
  match ratOf value with
  | None => Panic "invalid memory address or nil pointer dereference"
  | Some (num, den) =>
      let '(n, neg) := hundredths num den in
      Ret (ratToFloat (neg && negb (n =? 0)) n 100)
  end.

Definition unitPrefixes : string := "KMGTPE".

(** [strings.IndexByte]; -1 when absent. *)
Fixpoint IndexByteFrom (i : Z) (s : string) (c : ascii) : Z :=
  match s with
  | EmptyString => -1
  | String d s' => if Ascii.eqb d c then i else IndexByteFrom (i + 1) s' c
  end.
Definition IndexByte (s : string) (c : ascii) : Z := IndexByteFrom 0 s c.

(** The loop [m *= 1024]. *)
Definition unitFactor (exp : Z) : float64 :=
  Nat.iter (Z.to_nat (exp - 1)) (λ m, fmul m (floatOfZ 1024)) (floatOfZ 1024).

Definition MachineReadableByteCount (humanReadableValue : string) : outcome float64 :=
  let parts := Split " " humanReadableValue in
  match parts with
  | [] => Panic "index out of range"
  | base :: rest =>
      match ParseFloat base with
      | Fail _ => Panic ("machineReadableByteCount: invalid base: " +:+ humanReadableValue)
      | Panic msg => Panic msg
      | Ret base =>
          match rest with
          | [] => Panic "index out of range"
          | unit :: _ =>
              if String.eqb unit "B" then Ret base
              else match unit with
                   | EmptyString => Panic "index out of range"
                   | String c _ =>
                       let idx := IndexByte unitPrefixes c in
                       if idx <? 0 then Panic ("machineReadableByteCount: unknown unit: " +:+ unit)
                       else Ret (fmul base (unitFactor (idx + 1)))
                   end
          end
      end
  end.

Definition ClientAddresses (addrs ids : list string) : string * string :=
  (Join "," addrs, Join "," ids).

(** ** Rounding to hundredths *)

Lemma hundredths_bounds num den n neg :
  0 < den → hundredths num den = (n, neg) →
  0 ≤ n ∧ 200 * Z.abs num - den < 2 * n * den ≤ 200 * Z.abs num + den ∧
  (neg = true ↔ num < 0).
Proof.
  unfold hundredths. intros Hd [= <- <-].
  rewrite Z.quot_div_nonneg by lia.
  pose proof (Z.div_mod (2 * Z.abs (100 * num) + den) (2 * den)) as E.
  pose proof (Z.mod_pos_bound (2 * Z.abs (100 * num) + den) (2 * den)).
  assert (0 ≤ (2 * Z.abs (100 * num) + den) / (2 * den)) by (apply Z.div_pos; lia).
  rewrite Z.ltb_lt. split; [done|]. split; [lia|lia].
Qed.

(** C39: [GetFixedDouble] rounds half away from zero on the exact value.  For a
    finite input equal to [num/den] the result is the float64 nearest to
    [n/100], where [n] is the integer nearest to [100*num/den] and an exact tie
    goes to the larger magnitude; a result of zero is the positive zero.  For an
    infinity or a NaN the function panics. *)
Theorem GetFixedDouble_spec value :
  match ratOf value with
  | None => isFinite value = false ∧ ∃ msg, GetFixedDouble value = Panic msg
  | Some (num, den) =>
      ∃ n, 0 ≤ n ∧
        2 * Z.abs (100 * Z.abs num - n * den) ≤ den ∧
        (2 * Z.abs (100 * Z.abs num - n * den) = den → 100 * Z.abs num < n * den) ∧
        GetFixedDouble value = Ret (ratToFloat (bool_decide (num < 0 ∧ n ≠ 0)) n 100)
  end.
Proof.
  unfold GetFixedDouble. destruct (ratOf value) as [[num den]|] eqn:E.
  - pose proof (ratOf_den _ _ _ E) as Hd. destruct (hundredths num den) as [n neg] eqn:Eh.
    apply hundredths_bounds in Eh as (Hn & Hb & Hneg); [|done].
    exists n. split; [done|]. split; [lia|]. split; [lia|]. do 2 f_equal.
    destruct neg; simpl.
    + destruct (Z.eqb_spec n 0); simpl; symmetry.
      * apply bool_decide_eq_false_2. tauto.
      * apply bool_decide_eq_true_2. tauto.
    + symmetry. apply bool_decide_eq_false_2. rewrite <- Hneg. by intros [? _].
  - split; [|eauto]. destruct (isFinite value) eqn:Ef; [|done].
    apply ratOf_finite in Ef as [? Ef]. congruence.
Qed.

(** the comment of [GetFixedDouble] gives 1.235 as an input that becomes
    1.23; its nearest float64 lies above 1.235 and the function returns 1.24.
    For 1.005, whose float64 lies below, it does return 1. *)
Theorem GetFixedDouble_1235 :
  (ParseFloat "1.235" ≫= GetFixedDouble) = ParseFloat "1.24" ∧
  (ParseFloat "1.005" ≫= GetFixedDouble) = ParseFloat "1.00" ∧
  ParseFloat "1.24" ≠ ParseFloat "1.23".
Proof. vm_compute. done. Qed.

(** ** Byte counts *)

(** The exponent of a unit prefix: one more than its place in KMGTPE. *)
Definition unitExp (c : ascii) : option Z :=
  match c with
  | "K" => Some 1 | "M" => Some 2 | "G" => Some 3
  | "T" => Some 4 | "P" => Some 5 | "E" => Some 6
  | _ => None
  end%char.

Lemma IndexByte_units c :
  IndexByte unitPrefixes c = match unitExp c with Some k => k - 1 | None => -1 end.
Proof. destruct c as [[] [] [] [] [] [] [] []]; reflexivity. Qed.

Lemma unitFactor_exact c k : unitExp c = Some k → unitFactor k = floatOfZ (1024 ^ k).
Proof. destruct c as [[] [] [] [] [] [] [] []]; intros [= <-]; vm_compute; reflexivity. Qed.

(** [MachineReadableByteCount] on "<number> <unit>": "B" keeps the number, a
    unit that starts with the [k]-th of KMGTPE multiplies it by exactly
    [1024^k], and any other unit panics. *)
Theorem MachineReadableByteCount_spec b u x :
  cut " " b = None → cut " " u = None → ParseFloat b = Ret x →
  match u with
  | EmptyString => ∃ msg, MachineReadableByteCount (b +:+ " " +:+ u) = Panic msg
  | String c _ =>
      if String.eqb u "B" then MachineReadableByteCount (b +:+ " " +:+ u) = Ret x
      else match unitExp c with
           | Some k => MachineReadableByteCount (b +:+ " " +:+ u) = Ret (fmul x (floatOfZ (1024 ^ k)))
           | None => ∃ msg, MachineReadableByteCount (b +:+ " " +:+ u) = Panic msg
           end
  end.
Proof.
  intros Hb Hu Hx. unfold MachineReadableByteCount.
  change (b +:+ " " +:+ u) with (b +:+ String " " u).
  rewrite Split_app, Split_single, Hx by done. destruct u as [|c u]; [by eexists|].
  destruct (String.eqb (String c u) "B"); [done|]. rewrite IndexByte_units.
  destruct (unitExp c) as [k|] eqn:Ek; [|by eexists].
  assert (1 ≤ k) by (destruct c as [[] [] [] [] [] [] [] []]; simplify_eq/=; lia).
  destruct (Z.ltb_spec (k - 1) 0); [lia|].
  rewrite Z.sub_add. by rewrite (unitFactor_exact c k).
Qed.

Lemma MachineReadableByteCount_spec_witness :
  MachineReadableByteCount "1.5 GB" = ParseFloat "1610612736".
Proof.
  refine (eq_trans (MachineReadableByteCount_spec "1.5" "GB" (S754_finite false 6755399441055744 (-52))
            eq_refl eq_refl _) _); vm_compute; reflexivity.
Defined.
