(* ===== verification/Model.v ===== *)
(** * Broker runtime statistics: internal/model/broker_runtime_stats.go

    The parser of the key-value table a broker returns for
    GET_BROKER_RUNTIME_INFO.  The reads are made in the order of the code, so
    the first failing one decides the error. *)

From Stdlib Require Import ZArith Lia Ascii String Floats.SpecFloat.
From S2P Require Import Prelude GoStrings GoFloat Util.

Record TpsTriple : Type := mkTps { Ten : float64; Sixty : float64; SixHundred : float64 }.

Record ScheduleMessageOffsetTable : Type := mkSched { DelayOffset : Z; MaxOffset : Z }.

Record BrokerRuntimeStats : Type := mkStats {
  MsgPutTotalTodayNow : Z;
  MsgGetTotalTodayNow : Z;
  MsgPutTotalTodayMorning : Z;
  MsgGetTotalTodayMorning : Z;
  MsgPutTotalYesterdayMorning : Z;
  MsgGetTotalYesterdayMorning : Z;
  ScheduleMessageOffsetTables : list ScheduleMessageOffsetTable;
  SendThreadPoolQueueHeadWaitTimeMills : Z;
  QueryThreadPoolQueueHeadWaitTimeMills : Z;
  PullThreadPoolQueueHeadWaitTimeMills : Z;
  QueryThreadPoolQueueSize : Z;
  PullThreadPoolQueueSize : Z;
  SendThreadPoolQueueCapacity : Z;
  PullThreadPoolQueueCapacity : Z;
  PutMessageDistributeTimeMap : gmap string Z;
  RemainHowManyDataToFlush : float64;
  CommitLogMinOffset : Z;
  CommitLogMaxOffset : Z;
  Runtime : string;
  BootTimestamp : Z;
  CommitLogDirCapacityTotal : float64;
  CommitLogDirCapacityFree : float64;
  BrokerVersion : Z;
  DispatchMaxBuffer : Z;
  PutTps : TpsTriple;
  GetMissTps : TpsTriple;
  GetTransferedTps : TpsTriple;
  GetTotalTps : TpsTriple;
  GetFoundTps : TpsTriple;
  ConsumeQueueDiskRatio : float64;
  CommitLogDiskRatio : float64;
  PageCacheLockTimeMills : Z;
  GetMessageEntireTimeMax : Z;
  PutMessageTimesTotal : Z;
  BrokerVersionDesc : string;
  SendThreadPoolQueueSize : Z;
  StartAcceptSendRequestTimeStamp : Z;
  PutMessageEntireTimeMax : Z;
  EarliestMessageTimeStamp : Z;
  RemainTransientStoreBufferNumbs : Z;
  QueryThreadPoolQueueCapacity : Z;
  PutMessageAverageSize : float64;
  PutMessageSizeTotal : Z;
  DispatchBehindBytes : Z;
  PutLatency99 : float64;
  PutLatency999 : float64
}.

(** ** kvGetter *)

(** [kv[key]] without the second result. *)
Definition kvStr (kv : gmap string string) (key : string) : string := default EmptyString (kv !! key).

Definition keyErr : string := "broker runtime stats: key %q = %q: %w".

Definition getString (kv : gmap string string) (key : string) : outcome string :=
  match kv !! key with
  | Some v => Ret v
  | None => Fail (EMsg "broker runtime stats: missing key %q" [key])
  end.

Definition parseInt64 (kv : gmap string string) (key : string) : outcome Z :=
  v ← getString kv key; wrapErr keyErr [key; v] (ParseInt v).

Definition parseInt (kv : gmap string string) (key : string) : outcome Z :=
  v ← getString kv key; wrapErr keyErr [key; v] (Atoi v).

Definition parseFloat64 (kv : gmap string string) (key : string) : outcome float64 :=
  v ← getString kv key; wrapErr keyErr [key; v] (ParseFloat v).

Definition parseFloat64OrDefault (kv : gmap string string) (key def : string) : outcome float64 :=
  let v := default def (kv !! key) in wrapErr keyErr [key; v] (ParseFloat v).

Definition parseFirstFloat64 (kv : gmap string string) (key : string) : outcome float64 :=
  match kv !! key with
  | None => Fail (EMsg "broker runtime stats: missing key %q" [key])
  | Some v =>
      match SplitN2 " " v with
      | p :: _ => wrapErr keyErr [key; v] (ParseFloat p)
      | [] => Panic "index out of range"
      end
  end.

(** ** The composite fields *)

Definition loadTps (value : string) : outcome TpsTriple :=
  if decide (value = EmptyString) then Ret (mkTps fzero fzero fzero)
  else
    let arr := Split " " value in
    ten ← match arr !! 0%nat with
          | Some a => if decide (a = EmptyString) then Ret fzero
                      else wrapErr "loadTps ten = %q: %w" [a] (ParseFloat a)
          | None => Ret fzero
          end;
    sixty ← match arr !! 1%nat with
            | Some a => wrapErr "loadTps sixty = %q: %w" [a] (ParseFloat a)
            | None => Ret fzero
            end;
    sixHundred ← match arr !! 2%nat with
                 | Some a => wrapErr "loadTps sixHundred = %q: %w" [a] (ParseFloat a)
                 | None => Ret fzero
                 end;
    Ret (mkTps ten sixty sixHundred).

(** One token "[key]:count". *)
Definition distributeToken (ar : string) (m : gmap string Z) : outcome (gmap string Z) :=
  match SplitN2 ":" ar with
  | [k; v] =>
      let key := ReplaceAll (ReplaceAll k "[" EmptyString) "]" EmptyString in
      n ← wrapErr "loadPutMessageDistributeTime %q: %w" [ar] (Atoi v);
      Ret (<[key := n]> m)
  | _ => Ret m
  end.

Fixpoint distributeLoop (tokens : list string) (m : gmap string Z) : outcome (gmap string Z) :=
  match tokens with
  | [] => Ret m
  | ar :: tokens' => m' ← distributeToken ar m; distributeLoop tokens' m'
  end.

Definition loadPutMessageDistributeTime (str : string) : outcome (gmap string Z) :=
  if EqualFold str "null" then Ret ∅ else distributeLoop (Split " " str) ∅.

(** (total, free) *)
Definition loadCommitLogDirCapacity (value : string) : outcome (float64 * float64) :=
  match Split " " value with
  | _ :: _ :: a2 :: a3 :: _ :: _ :: a6 :: a7 :: _ =>
      let total := a2 +:+ " " +:+ TrimSuffix a3 "," in
      let free := a6 +:+ " " +:+ TrimSuffix a7 "," in
      t ← MachineReadableByteCount total;
      f ← MachineReadableByteCount free;
      Ret (t, f)
  | _ => Fail (EMsg "loadCommitLogDirCapacity: unexpected format %q" [value])
  end.

(** What one entry of the table contributes; [None] for a skipped one. *)
Definition scheduleEntry (kv : string * string) : option ScheduleMessageOffsetTable :=
  if HasPrefix kv.1 "scheduleMessageOffset" then
    match SplitN2 "," kv.2 with
    | [a; b] =>
        match ParseInt a, ParseInt b with
        | Ret first, Ret second => Some (mkSched first second)
        | _, _ => None
        end
    | _ => None
    end
  else None.

Section stats.
Context `{!MapRange string string}.

Definition loadScheduleMessageOffsets (kv : gmap string string) : list ScheduleMessageOffsetTable :=
  foldl (λ acc e, match scheduleEntry e with Some t => acc ++ [t] | None => acc end) [] (range kv).

Definition NewBrokerRuntimeStats (kv : option (gmap string string)) : outcome BrokerRuntimeStats :=
  match kv with
  | None => Fail (EMsg "broker runtime stats: nil kv table" [])
  | Some kv =>
      msgPutTotalTodayNow ← parseInt64 kv "msgPutTotalTodayNow";
      let tables := loadScheduleMessageOffsets kv in
      distribute ← loadPutMessageDistributeTime (kvStr kv "putMessageDistributeTime");
      putTps ← loadTps (kvStr kv "putTps");
      getMissTps ← loadTps (kvStr kv "getMissTps");
      let transferKey := match kv !! "getTransferredTps" with
                         | Some _ => "getTransferredTps" | None => "getTransferedTps" end in
      getTransferedTps ← loadTps (kvStr kv transferKey);
      getTotalTps ← loadTps (kvStr kv "getTotalTps");
      getFoundTps ← loadTps (kvStr kv "getFoundTps");
      capacity ← loadCommitLogDirCapacity (kvStr kv "commitLogDirCapacity");
      sendThreadPoolQueueHeadWaitTimeMills ← parseInt64 kv "sendThreadPoolQueueHeadWaitTimeMills";
      queryThreadPoolQueueHeadWaitTimeMills ← parseInt64 kv "queryThreadPoolQueueHeadWaitTimeMills";
      queryThreadPoolQueueSize ← parseInt64 kv "queryThreadPoolQueueSize";
      bootTimestamp ← parseInt64 kv "bootTimestamp";
      msgPutTotalYesterdayMorning ← parseInt64 kv "msgPutTotalYesterdayMorning";
      msgGetTotalYesterdayMorning ← parseInt64 kv "msgGetTotalYesterdayMorning";
      pullThreadPoolQueueSize ← parseInt64 kv "pullThreadPoolQueueSize";
      commitLogMinOffset ← parseInt64 kv "commitLogMinOffset";
      pullThreadPoolQueueHeadWaitTimeMills ← parseInt64 kv "pullThreadPoolQueueHeadWaitTimeMills";
      dispatchMaxBuffer ← parseInt64 kv "dispatchMaxBuffer";
      pageCacheLockTimeMills ← parseInt64 kv "pageCacheLockTimeMills";
      commitLogMaxOffset ← parseInt64 kv "commitLogMaxOffset";
      getMessageEntireTimeMax ← parseInt64 kv "getMessageEntireTimeMax";
      msgPutTotalTodayMorning ← parseInt64 kv "msgPutTotalTodayMorning";
      putMessageTimesTotal ← parseInt64 kv "putMessageTimesTotal";
      msgGetTotalTodayMorning ← parseInt64 kv "msgGetTotalTodayMorning";
      sendThreadPoolQueueSize ← parseInt64 kv "sendThreadPoolQueueSize";
      startAcceptSendRequestTimeStamp ← parseInt64 kv "startAcceptSendRequestTimeStamp";
      putMessageEntireTimeMax ← parseInt64 kv "putMessageEntireTimeMax";
      earliestMessageTimeStamp ← parseInt64 kv "earliestMessageTimeStamp";
      remainTransientStoreBufferNumbs ← parseInt64 kv "remainTransientStoreBufferNumbs";
      queryThreadPoolQueueCapacity ← parseInt64 kv "queryThreadPoolQueueCapacity";
      dispatchBehindBytes ← parseInt64 kv "dispatchBehindBytes";
      putMessageSizeTotal ← parseInt64 kv "putMessageSizeTotal";
      sendThreadPoolQueueCapacity ← parseInt64 kv "sendThreadPoolQueueCapacity";
      pullThreadPoolQueueCapacity ← parseInt64 kv "pullThreadPoolQueueCapacity";
      runtime ← getString kv "runtime";
      brokerVersionDesc ← getString kv "brokerVersionDesc";
      brokerVersion ← parseInt kv "brokerVersion";
      msgGetTotalTodayNow ← parseInt64 kv "msgGetTotalTodayNow";
      remainHowManyDataToFlush ← parseFirstFloat64 kv "remainHowManyDataToFlush";
      consumeQueueDiskRatio ← parseFloat64 kv "consumeQueueDiskRatio";
      commitLogDiskRatio ← parseFloat64 kv "commitLogDiskRatio";
      putMessageAverageSize ← parseFloat64 kv "putMessageAverageSize";
      putLatency99 ← parseFloat64OrDefault kv "putLatency99" "-1";
      putLatency999 ← parseFloat64OrDefault kv "putLatency999" "-1";
      Ret {|
        MsgPutTotalTodayNow := msgPutTotalTodayNow;
        MsgGetTotalTodayNow := msgGetTotalTodayNow;
        MsgPutTotalTodayMorning := msgPutTotalTodayMorning;
        MsgGetTotalTodayMorning := msgGetTotalTodayMorning;
        MsgPutTotalYesterdayMorning := msgPutTotalYesterdayMorning;
        MsgGetTotalYesterdayMorning := msgGetTotalYesterdayMorning;
        ScheduleMessageOffsetTables := tables;
        SendThreadPoolQueueHeadWaitTimeMills := sendThreadPoolQueueHeadWaitTimeMills;
        QueryThreadPoolQueueHeadWaitTimeMills := queryThreadPoolQueueHeadWaitTimeMills;
        PullThreadPoolQueueHeadWaitTimeMills := pullThreadPoolQueueHeadWaitTimeMills;
        QueryThreadPoolQueueSize := queryThreadPoolQueueSize;
        PullThreadPoolQueueSize := pullThreadPoolQueueSize;
        SendThreadPoolQueueCapacity := sendThreadPoolQueueCapacity;
        PullThreadPoolQueueCapacity := pullThreadPoolQueueCapacity;
        PutMessageDistributeTimeMap := distribute;
        RemainHowManyDataToFlush := remainHowManyDataToFlush;
        CommitLogMinOffset := commitLogMinOffset;
        CommitLogMaxOffset := commitLogMaxOffset;
        Runtime := runtime;
        BootTimestamp := bootTimestamp;
        CommitLogDirCapacityTotal := capacity.1;
        CommitLogDirCapacityFree := capacity.2;
        BrokerVersion := brokerVersion;
        DispatchMaxBuffer := dispatchMaxBuffer;
        PutTps := putTps;
        GetMissTps := getMissTps;
        GetTransferedTps := getTransferedTps;
        GetTotalTps := getTotalTps;
        GetFoundTps := getFoundTps;
        ConsumeQueueDiskRatio := consumeQueueDiskRatio;
        CommitLogDiskRatio := commitLogDiskRatio;
        PageCacheLockTimeMills := pageCacheLockTimeMills;
        GetMessageEntireTimeMax := getMessageEntireTimeMax;
        PutMessageTimesTotal := putMessageTimesTotal;
        BrokerVersionDesc := brokerVersionDesc;
        SendThreadPoolQueueSize := sendThreadPoolQueueSize;
        StartAcceptSendRequestTimeStamp := startAcceptSendRequestTimeStamp;
        PutMessageEntireTimeMax := putMessageEntireTimeMax;
        EarliestMessageTimeStamp := earliestMessageTimeStamp;
        RemainTransientStoreBufferNumbs := remainTransientStoreBufferNumbs;
        QueryThreadPoolQueueCapacity := queryThreadPoolQueueCapacity;
        PutMessageAverageSize := putMessageAverageSize;
        PutMessageSizeTotal := putMessageSizeTotal;
        DispatchBehindBytes := dispatchBehindBytes;
        PutLatency99 := putLatency99;
        PutLatency999 := putLatency999
      |}
  end.
End stats.

(** ** What a successful parse says *)

Definition int64Table : list (string * (BrokerRuntimeStats → Z)) :=
  [("msgPutTotalTodayNow", MsgPutTotalTodayNow);
   ("sendThreadPoolQueueHeadWaitTimeMills", SendThreadPoolQueueHeadWaitTimeMills);
   ("queryThreadPoolQueueHeadWaitTimeMills", QueryThreadPoolQueueHeadWaitTimeMills);
   ("queryThreadPoolQueueSize", QueryThreadPoolQueueSize);
   ("bootTimestamp", BootTimestamp);
   ("msgPutTotalYesterdayMorning", MsgPutTotalYesterdayMorning);
   ("msgGetTotalYesterdayMorning", MsgGetTotalYesterdayMorning);
   ("pullThreadPoolQueueSize", PullThreadPoolQueueSize);
   ("commitLogMinOffset", CommitLogMinOffset);
   ("pullThreadPoolQueueHeadWaitTimeMills", PullThreadPoolQueueHeadWaitTimeMills);
   ("dispatchMaxBuffer", DispatchMaxBuffer);
   ("pageCacheLockTimeMills", PageCacheLockTimeMills);
   ("commitLogMaxOffset", CommitLogMaxOffset);
   ("getMessageEntireTimeMax", GetMessageEntireTimeMax);
   ("msgPutTotalTodayMorning", MsgPutTotalTodayMorning);
   ("putMessageTimesTotal", PutMessageTimesTotal);
   ("msgGetTotalTodayMorning", MsgGetTotalTodayMorning);
   ("sendThreadPoolQueueSize", SendThreadPoolQueueSize);
   ("startAcceptSendRequestTimeStamp", StartAcceptSendRequestTimeStamp);
   ("putMessageEntireTimeMax", PutMessageEntireTimeMax);
   ("earliestMessageTimeStamp", EarliestMessageTimeStamp);
   ("remainTransientStoreBufferNumbs", RemainTransientStoreBufferNumbs);
   ("queryThreadPoolQueueCapacity", QueryThreadPoolQueueCapacity);
   ("dispatchBehindBytes", DispatchBehindBytes);
   ("putMessageSizeTotal", PutMessageSizeTotal);
   ("sendThreadPoolQueueCapacity", SendThreadPoolQueueCapacity);
   ("pullThreadPoolQueueCapacity", PullThreadPoolQueueCapacity);
   ("msgGetTotalTodayNow", MsgGetTotalTodayNow)].

Definition floatTable : list (string * (BrokerRuntimeStats → float64)) :=
  [("consumeQueueDiskRatio", ConsumeQueueDiskRatio);
   ("commitLogDiskRatio", CommitLogDiskRatio);
   ("putMessageAverageSize", PutMessageAverageSize)].

Definition tpsTable : list (string * (BrokerRuntimeStats → TpsTriple)) :=
  [("putTps", PutTps); ("getMissTps", GetMissTps); ("getTotalTps", GetTotalTps);
   ("getFoundTps", GetFoundTps)].

Lemma parseInt64_ret kv key n :
  parseInt64 kv key = Ret n → ∃ v, kv !! key = Some v ∧ ParseInt v = Ret n.
Proof.
  unfold parseInt64, getString. intros H. inv_bind.
  destruct (kv !! key); simplify_eq. eauto.
Qed.

Lemma parseFloat64_ret kv key x :
  parseFloat64 kv key = Ret x → ∃ v, kv !! key = Some v ∧ ParseFloat v = Ret x.
Proof.
  unfold parseFloat64, getString. intros H. inv_bind.
  destruct (kv !! key); simplify_eq. eauto.
Qed.

(** ** Where a panic can come from *)

Lemma getString_no_panic kv key : no_panic (getString kv key).
Proof. intros msg. unfold getString. by destruct (kv !! key). Qed.

Lemma bind_no_panic {A B} (m : outcome A) (f : A → outcome B) :
  no_panic m → (∀ a, no_panic (f a)) → no_panic (m ≫= f).
Proof. intros Hm Hf msg [H|(a & _ & H)]%bind_panic; [by eapply Hm|by eapply Hf]. Qed.

Lemma ParseInt_no_panic v : no_panic (ParseInt v).
Proof. apply parseIntWith_no_panic. Qed.
Lemma Atoi_no_panic v : no_panic (Atoi v).
Proof. apply parseIntWith_no_panic. Qed.
Lemma ret_no_panic {A} (a : A) : no_panic (Ret a).
Proof. done. Qed.
Lemma ParseFloat_no_panic' v : no_panic (ParseFloat v).
Proof. intros msg. apply ParseFloat_no_panic. Qed.

Create HintDb no_panic.
#[local] Hint Resolve getString_no_panic bind_no_panic ParseInt_no_panic Atoi_no_panic
  ret_no_panic ParseFloat_no_panic' wrapErr_no_panic : no_panic.

Lemma parseInt64_no_panic kv key : no_panic (parseInt64 kv key).
Proof. unfold parseInt64. auto with no_panic. Qed.
Lemma parseInt_no_panic kv key : no_panic (parseInt kv key).
Proof. unfold parseInt. auto with no_panic. Qed.
Lemma parseFloat64_no_panic kv key : no_panic (parseFloat64 kv key).
Proof. unfold parseFloat64. auto with no_panic. Qed.
Lemma parseFloat64OrDefault_no_panic kv key d : no_panic (parseFloat64OrDefault kv key d).
Proof. unfold parseFloat64OrDefault. auto with no_panic. Qed.
Lemma parseFirstFloat64_no_panic kv key : no_panic (parseFirstFloat64 kv key).
Proof.
  unfold parseFirstFloat64, SplitN2. destruct (kv !! key); [|done].
  destruct (cut " " s) as [[]|]; auto with no_panic.
Qed.

Lemma loadTps_no_panic v : no_panic (loadTps v).
Proof.
  unfold loadTps. destruct (decide _); [done|]. cbv zeta.
  repeat (apply bind_no_panic; [|intros ?]); repeat (destruct (_ !! _) || destruct (decide _));
    auto with no_panic.
Qed.

Lemma loadPutMessageDistributeTime_no_panic v : no_panic (loadPutMessageDistributeTime v).
Proof.
  unfold loadPutMessageDistributeTime. destruct (EqualFold v "null"); [done|].
  generalize (∅ : gmap string Z). induction (Split " " v) as [|ar l IH]; intros m0; [done|].
  simpl. apply bind_no_panic; [|auto]. unfold distributeToken, SplitN2.
  destruct (cut ":" ar) as [[]|]; auto with no_panic.
Qed.
#[local] Hint Resolve parseInt64_no_panic parseInt_no_panic parseFloat64_no_panic
  parseFloat64OrDefault_no_panic parseFirstFloat64_no_panic loadTps_no_panic
  loadPutMessageDistributeTime_no_panic : no_panic.

(** ** Which tables parse *)

(** The key is there and a parser accepts its value; the same of its first word. *)
Definition keyOK {A} (parse : string → outcome A) (kv : gmap string string) (key : string) : bool :=
  match kv !! key with Some v => is_ret (parse v) | None => false end.

Definition firstWordOK (kv : gmap string string) (key : string) : bool :=
  match kv !! key with
  | Some v => match SplitN2 " " v with w :: _ => is_ret (ParseFloat w) | [] => false end
  | None => false
  end.

(** A throughput string: empty, or its first three words (as many as there are)
    are numbers; only the first may be empty. *)
Definition tpsOK (value : string) : bool :=
  String.eqb value "" ||
  match Split " " value with
  | w0 :: ws => (String.eqb w0 "" || is_ret (ParseFloat w0)) &&
                forallb (λ w, is_ret (ParseFloat w)) (take 2 ws)
  | [] => true
  end.

(** The histogram: "null", or every word with a colon has an int behind it. *)
Definition histogramOK (value : string) : bool :=
  EqualFold value "null" ||
  forallb (λ w, match cut ":" w with Some (_, n) => is_ret (Atoi n) | None => true end)
    (Split " " value).

(** A size: a number and a unit, "B" or one that starts with a KMGTPE prefix. *)
Definition sizeOK (number unit : string) : bool :=
  is_ret (ParseFloat number) &&
  (String.eqb unit "B" ||
   match unit with String c _ => bool_decide (is_Some (unitExp c)) | EmptyString => false end).

Definition capacityOK (value : string) : bool :=
  match Split " " value with
  | _ :: _ :: a2 :: a3 :: _ :: _ :: a6 :: a7 :: _ =>
      sizeOK a2 (TrimSuffix a3 ",") && sizeOK a6 (TrimSuffix a7 ",")
  | _ => false
  end.

(** What is read before the capacity, and after it. *)
Definition earlyOK (kv : gmap string string) : bool :=
  keyOK ParseInt kv "msgPutTotalTodayNow" &&
  histogramOK (kvStr kv "putMessageDistributeTime") &&
  forallb (λ key, tpsOK (kvStr kv key))
    ["putTps"; "getMissTps";
     (if decide (is_Some (kv !! "getTransferredTps")) then "getTransferredTps" else "getTransferedTps");
     "getTotalTps"; "getFoundTps"].

Definition lateOK (kv : gmap string string) : bool :=
  forallb (keyOK ParseInt kv) (tail int64Table.*1) &&
  keyOK Ret kv "runtime" && keyOK Ret kv "brokerVersionDesc" && keyOK Atoi kv "brokerVersion" &&
  firstWordOK kv "remainHowManyDataToFlush" &&
  forallb (keyOK ParseFloat kv) floatTable.*1 &&
  forallb (λ key, is_ret (ParseFloat (default "-1" (kv !! key)))) ["putLatency99"; "putLatency999"].

Lemma is_ret_iff {A} (m : outcome A) : is_ret m ↔ ∃ a, m = Ret a.
Proof. destruct m; split; try done; [by eexists|by intros [? ?]..]. Qed.

Lemma is_ret_bind {A B} (m : outcome A) (f : A → outcome B) (P : Prop) :
  (∀ a, is_ret (f a) ↔ P) → is_ret (m ≫= f) ↔ is_ret m ∧ P.
Proof. intros Hf. destruct m as [a|e|msg]; [rewrite <- (Hf a)|..]; simpl; tauto. Qed.

Lemma is_ret_wrapErr {A} fmt args (m : outcome A) : is_ret (wrapErr fmt args m) = is_ret m.
Proof. by destruct m. Qed.

Lemma is_ret_getString kv key : is_ret (getString kv key) = keyOK Ret kv key.
Proof. unfold getString, keyOK. by destruct (kv !! key). Qed.

Lemma is_ret_parseInt64 kv key : is_ret (parseInt64 kv key) = keyOK ParseInt kv key.
Proof.
  unfold parseInt64, getString, keyOK. destruct (kv !! key); [|done]. apply is_ret_wrapErr.
Qed.

Lemma is_ret_parseInt kv key : is_ret (parseInt kv key) = keyOK Atoi kv key.
Proof.
  unfold parseInt, getString, keyOK. destruct (kv !! key); [|done]. apply is_ret_wrapErr.
Qed.

Lemma is_ret_parseFloat64 kv key : is_ret (parseFloat64 kv key) = keyOK ParseFloat kv key.
Proof.
  unfold parseFloat64, getString, keyOK. destruct (kv !! key); [|done]. apply is_ret_wrapErr.
Qed.

Lemma is_ret_parseFloat64OrDefault kv key d :
  is_ret (parseFloat64OrDefault kv key d) = is_ret (ParseFloat (default d (kv !! key))).
Proof. apply is_ret_wrapErr. Qed.

Lemma is_ret_parseFirstFloat64 kv key : is_ret (parseFirstFloat64 kv key) = firstWordOK kv key.
Proof.
  unfold parseFirstFloat64, firstWordOK. destruct (kv !! key); [|done].
  destruct (SplitN2 " " s); [done|]. apply is_ret_wrapErr.
Qed.

Lemma is_ret_loadTps v : is_ret (loadTps v) ↔ tpsOK v.
Proof.
  unfold loadTps, tpsOK. destruct (decide (v = "")) as [->|Hv]; [done|].
  rewrite (proj2 (String.eqb_neq v "") Hv). cbn [orb]. cbv zeta.
  etransitivity; [repeat (apply is_ret_bind; intros ?); exact (iff_refl True)|].
  destruct (Split " " v) as [|w0 [|w1 [|w2 ws]]]; cbn;
    try (destruct (String.eqb_spec w0 ""); [rewrite decide_True by done|rewrite decide_False by done]);
    rewrite ?is_ret_wrapErr, ?andb_True; cbn; tauto.
Qed.

Lemma is_ret_distributeLoop ws m0 :
  is_ret (distributeLoop ws m0) ↔
  forallb (λ w, match cut ":" w with Some (_, n) => is_ret (Atoi n) | None => true end) ws.
Proof.
  revert m0. induction ws as [|w ws IH]; intros m0; [done|]. cbn [distributeLoop forallb].
  rewrite is_ret_bind by apply IH. rewrite andb_True. apply and_iff_compat_r.
  unfold distributeToken, SplitN2. destruct (cut ":" w) as [[k n]|]; [|done].
  etransitivity; [apply (is_ret_bind _ _ True); done|]. rewrite is_ret_wrapErr. tauto.
Qed.

Lemma is_ret_histogram v : is_ret (loadPutMessageDistributeTime v) ↔ histogramOK v.
Proof.
  unfold loadPutMessageDistributeTime, histogramOK. destruct (EqualFold v "null"); [done|].
  apply is_ret_distributeLoop.
Qed.

Lemma TrimSuffix_no_sep sep suf s : cut sep s = None → cut sep (TrimSuffix s suf) = None.
Proof.
  induction s as [|c s IH]; [done|]. intros H. cbn [cut] in H.
  destruct (Ascii.eqb c sep) eqn:E; [done|]. destruct (cut sep s) as [[]|] eqn:Es; [done|].
  destruct s as [|d s].
  - cbn [TrimSuffix]. destruct (Ascii.eqb c suf); [done|]. cbn [cut]. by rewrite E.
  - change (TrimSuffix (String c (String d s)) suf) with (String c (TrimSuffix (String d s) suf)).
    cbn [cut]. by rewrite E, IH.
Qed.

(** A size is read exactly when it is well formed; otherwise it panics, never an
    error. *)
Lemma byteCount_outcome b u :
  cut " " b = None → cut " " u = None →
  if sizeOK b u then ∃ x, MachineReadableByteCount (b +:+ " " +:+ u) = Ret x
  else ∃ msg, MachineReadableByteCount (b +:+ " " +:+ u) = Panic msg.
Proof.
  intros Hb Hu. unfold sizeOK. destruct (ParseFloat b) as [x|e|msg] eqn:Ex; cbn [is_ret andb].
  - pose proof (MachineReadableByteCount_spec b u x Hb Hu Ex) as H. destruct u as [|c u]; [done|].
    destruct (String.eqb (String c u) "B"); [by eexists|]. cbn [orb].
    destruct (unitExp c); [rewrite bool_decide_true by done; by eexists|].
    by rewrite bool_decide_false by (intros [? ?]; done).
  - unfold MachineReadableByteCount. change (b +:+ " " +:+ u) with (b +:+ String " " u).
    rewrite Split_app, Ex by done. by eexists.
  - by destruct (ParseFloat_no_panic b msg).
Qed.

Lemma capacity_outcome v :
  match loadCommitLogDirCapacity v with
  | Ret _ => capacityOK v ∧ (8 ≤ length (Split " " v))%nat
  | Fail _ => (length (Split " " v) < 8)%nat
  | Panic _ => ¬ capacityOK v ∧ (8 ≤ length (Split " " v))%nat
  end.
Proof.
  unfold loadCommitLogDirCapacity, capacityOK. pose proof (Split_no_sep " " v) as Hw.
  destruct (Split " " v) as [|a0 [|a1 [|a2 [|a3 [|a4 [|a5 [|a6 [|a7 ws]]]]]]]]; try (simpl; lia).
  pose proof (byteCount_outcome a2 (TrimSuffix a3 ",")) as Ht.
  pose proof (byteCount_outcome a6 (TrimSuffix a7 ",")) as Hf.
  ospecialize* Ht; [apply Hw; set_solver|apply TrimSuffix_no_sep, Hw; set_solver|].
  ospecialize* Hf; [apply Hw; set_solver|apply TrimSuffix_no_sep, Hw; set_solver|].
  cbv zeta. destruct (sizeOK a2 _); destruct Ht as [t Ht]; rewrite Ht; cbn;
    [|split; [tauto|lia]].
  destruct (sizeOK a6 _); destruct Hf as [f Hf]; rewrite Hf; cbn; split; tauto || lia.
Qed.

Lemma is_ret_capacity v : is_ret (loadCommitLogDirCapacity v) ↔ capacityOK v.
Proof.
  pose proof (capacity_outcome v) as H. destruct (loadCommitLogDirCapacity v); cbn; try tauto.
  split; [done|]. unfold capacityOK.
  destruct (Split " " v) as [|? [|? [|? [|? [|? [|? [|? [|? ?]]]]]]]]; try done. simpl in H. lia.
Qed.

Lemma transferKey_eq (kv : gmap string string) :
  match kv !! "getTransferredTps" with
  | Some _ => "getTransferredTps" | None => "getTransferedTps" end =
  if decide (is_Some (kv !! "getTransferredTps")) then "getTransferredTps" else "getTransferedTps".
Proof.
  destruct (kv !! "getTransferredTps"); [by rewrite decide_True by eauto|].
  by rewrite decide_False by (intros [? ?]; done).
Qed.

Lemma earlyOK_reads kv :
  earlyOK kv ↔
  ∃ n h t1 t2 t3 t4 t5,
    parseInt64 kv "msgPutTotalTodayNow" = Ret n ∧
    loadPutMessageDistributeTime (kvStr kv "putMessageDistributeTime") = Ret h ∧
    loadTps (kvStr kv "putTps") = Ret t1 ∧ loadTps (kvStr kv "getMissTps") = Ret t2 ∧
    loadTps (kvStr kv match kv !! "getTransferredTps" with
                      | Some _ => "getTransferredTps" | None => "getTransferedTps" end) = Ret t3 ∧
    loadTps (kvStr kv "getTotalTps") = Ret t4 ∧ loadTps (kvStr kv "getFoundTps") = Ret t5.
Proof.
  rewrite transferKey_eq. unfold earlyOK. cbn [forallb]. rewrite !andb_True.
  rewrite <- is_ret_parseInt64, <- is_ret_histogram, <- !is_ret_loadTps, !is_ret_iff. split.
  - intros; destruct_and!. repeat match goal with H : ∃ _, _ |- _ => destruct H end.
    do 7 eexists. repeat split; eassumption.
  - intros (? & ? & ? & ? & ? & ? & ? & ? & ? & ? & ? & ? & ? & ?). eauto 20.
Qed.

Section parse_spec.
Context `{!MapRange string string}.


(** The only panic of [NewBrokerRuntimeStats] is that of
    [MachineReadableByteCount] on a malformed disk capacity. *)
Lemma NewBrokerRuntimeStats_panics kv msg :
  NewBrokerRuntimeStats (Some kv) = Panic msg →
  loadCommitLogDirCapacity (kvStr kv "commitLogDirCapacity") = Panic msg.
Proof.
  unfold NewBrokerRuntimeStats. intros H.
  repeat match type of H with
  | (?m ≫= _) = Panic _ =>
      apply bind_panic in H as [H|(? & _ & H)];
      [first [exact H | exfalso; revert H; cut (no_panic m); [intros Hn; apply Hn|eauto with no_panic]]|]
  | Ret _ = Panic _ => discriminate H
  | _ => cbv zeta in H
  end.
Qed.

Lemma NewBrokerRuntimeStats_early kv msg :
  NewBrokerRuntimeStats (Some kv) = Panic msg → earlyOK kv.
Proof.
  intros H. pose proof (NewBrokerRuntimeStats_panics kv msg H) as Hc. revert H.
  unfold NewBrokerRuntimeStats. cbv zeta. intros H.
  repeat match type of H with
  | (loadCommitLogDirCapacity _ ≫= _) = Panic _ => clear H
  | (?m ≫= _) = Panic _ =>
      apply bind_panic in H as [H|(? & ? & H)];
      [exfalso; revert H; cut (no_panic m); [intros Hn; apply Hn|eauto with no_panic]|]
  end.
  apply earlyOK_reads. do 7 eexists. repeat split; eassumption.
Qed.

(** The reads of [NewBrokerRuntimeStats] succeed together. *)
Lemma NewBrokerRuntimeStats_returns kv :
  (∃ s, NewBrokerRuntimeStats (Some kv) = Ret s) ↔
  earlyOK kv ∧ capacityOK (kvStr kv "commitLogDirCapacity") ∧ lateOK kv.
Proof.
  rewrite <- is_ret_iff. unfold NewBrokerRuntimeStats. cbv zeta.
  etransitivity; [repeat (apply is_ret_bind; intros ?); exact (iff_refl True)|].
  rewrite ?is_ret_parseInt64, ?is_ret_parseInt, ?is_ret_parseFloat64, ?is_ret_getString,
    ?is_ret_parseFloat64OrDefault, ?is_ret_parseFirstFloat64, ?is_ret_loadTps, ?is_ret_histogram,
    ?is_ret_capacity, transferKey_eq.
  unfold earlyOK, lateOK. cbn [forallb int64Table floatTable tail fmap list_fmap fst is_ret].
  rewrite !andb_True. cbn [Is_true]. split; intros; repeat split; tauto.
Qed.

(** A table whose early reads succeed goes as far as its capacity. *)
Lemma NewBrokerRuntimeStats_crashes kv :
  (∃ msg, NewBrokerRuntimeStats (Some kv) = Panic msg) ↔
  earlyOK kv ∧ (8 ≤ length (Split " " (kvStr kv "commitLogDirCapacity")))%nat ∧
  ¬ capacityOK (kvStr kv "commitLogDirCapacity").
Proof.
  pose proof (capacity_outcome (kvStr kv "commitLogDirCapacity")) as Hc. split.
  - intros [msg H]. pose proof (NewBrokerRuntimeStats_panics kv msg H) as Hp. rewrite Hp in Hc.
    destruct Hc. split; [by eapply NewBrokerRuntimeStats_early|done].
  - intros (He & Hl & Hn).
    destruct (loadCommitLogDirCapacity _) as [|e|msg] eqn:E; [by destruct Hc|lia|]. exists msg.
    apply earlyOK_reads in He as (? & ? & ? & ? & ? & ? & ? & H1 & H2 & H3 & H4 & H5 & H6 & H7).
    unfold NewBrokerRuntimeStats. cbv zeta. rewrite H1, H2, H3, H4, H5, H6, H7. cbn. by rewrite E.
Qed.

(** C38: which tables are read, which are refused with an error and which crash
    the process.  A table is read exactly when every one of the 28 integer keys
    is present and a 64-bit decimal, the version an int, the three ratios and
    sizes, the first word of [remainHowManyDataToFlush] and the put latencies
    (when present) are numbers, [runtime] and the version text are present, each
    of the five throughput strings has numbers as its first three words, every
    histogram word with a colon has a number behind it, and the disk capacity
    has eight words with two sizes in bytes or a KMGTPE unit.  It panics exactly
    when the keys read before the capacity are good, the capacity has its eight
    words and one of its two sizes is malformed.  In every other case, and for a
    nil table, it is an error.  (Nothing is required of the schedule offsets and
    of histogram words without a colon: a malformed one is left out.) *)
Theorem NewBrokerRuntimeStats_outcome kv :
  let capacity := kvStr kv "commitLogDirCapacity" in
  ((∃ s, NewBrokerRuntimeStats (Some kv) = Ret s) ↔
     earlyOK kv ∧ capacityOK capacity ∧ lateOK kv) ∧
  ((∃ msg, NewBrokerRuntimeStats (Some kv) = Panic msg) ↔
     earlyOK kv ∧ (8 ≤ length (Split " " capacity))%nat ∧ ¬ capacityOK capacity) ∧
  ((∃ e, NewBrokerRuntimeStats (Some kv) = Fail e) ↔
     ¬ earlyOK kv ∨ (length (Split " " capacity) < 8)%nat ∨ capacityOK capacity ∧ ¬ lateOK kv) ∧
  ∃ e, NewBrokerRuntimeStats None = Fail e.
Proof.
  intros capacity.
  assert (Hr : (∃ s, NewBrokerRuntimeStats (Some kv) = Ret s) ↔
     earlyOK kv ∧ capacityOK capacity ∧ lateOK kv) by apply NewBrokerRuntimeStats_returns.
  assert (Hp : (∃ msg, NewBrokerRuntimeStats (Some kv) = Panic msg) ↔
     earlyOK kv ∧ (8 ≤ length (Split " " capacity))%nat ∧ ¬ capacityOK capacity)
    by apply NewBrokerRuntimeStats_crashes.
  assert (Hw : capacityOK capacity → (8 ≤ length (Split " " capacity))%nat).
  { rewrite <- is_ret_capacity. pose proof (capacity_outcome capacity) as Hc.
    by destruct (loadCommitLogDirCapacity capacity); try destruct Hc. }
  split; [exact Hr|]. split; [exact Hp|]. split; [|by eexists].
  destruct (NewBrokerRuntimeStats (Some kv)) as [s|e|msg] eqn:E; split; try (intros [? ?]; done).
  - destruct (proj1 Hr) as (? & ? & ?); [eauto|]. intros [?|[?|[? ?]]]; [done| |done].
    specialize (Hw ltac:(done)). lia.
  - intros _. destruct (decide (earlyOK kv)); [|by left]. right.
    destruct (decide (8 ≤ length (Split " " capacity))%nat); [|left; lia]. right.
    destruct (decide (capacityOK capacity)).
    + split; [done|]. intros ?. destruct (proj2 Hr) as [? ?]; done.
    + destruct (proj2 Hp) as [? ?]; done.
  - eauto.
  - destruct (proj1 Hp) as (? & ? & ?); [eauto|]. intros [?|[?|[? ?]]]; [done|lia|done].
Qed.
End parse_spec.

(** ** The latency histogram *)

(** What the broker prints for one bucket, and for a histogram. *)
Definition printBucket (b : string * Z) : string := "[" +:+ b.1 +:+ "]:" +:+ FormatInt b.2.
Definition printBuckets (bs : list (string * Z)) : string := Join " " (printBucket <$> bs).

(** A bucket name without the characters the format uses. *)
Definition plainName (s : string) : Prop :=
  cut " " s = None ∧ cut ":" s = None ∧ cut "[" s = None ∧ cut "]" s = None.

Lemma cut_FormatInt sep n :
  (code sep < 48 ∨ 57 < code sep) → sep ≠ "-"%char → cut sep (FormatInt n) = None.
Proof.
  intros Hs Hm.
  assert (Hd : ∀ ds, Forall (λ d, 0 ≤ d < 10) ds → cut sep (digitString ds) = None).
  { induction 1 as [|d ds Hd _ IH]; [done|]. simpl.
    destruct (Ascii.eqb_spec (chr (48 + d)) sep) as [<-|_]; [|by rewrite IH].
    rewrite code_chr in Hs by lia. lia. }
  unfold FormatInt, formatUint. case_decide; cbn [cut].
  - destruct (Ascii.eqb_spec "-" sep) as [<-|_]; [done|]. by rewrite Hd by (apply decDigits_range; lia).
  - apply Hd, decDigits_range. lia.
Qed.

Lemma ReplaceAll_none s c : cut c s = None → ReplaceAll s c "" = s.
Proof.
  induction s as [|d s IH]; [done|]. simpl. destruct (Ascii.eqb d c); [done|].
  destruct (cut c s) as [[]|]; [done|]. intros _. by rewrite IH.
Qed.

Lemma ReplaceAll_app s t c : ReplaceAll (s +:+ t) c "" = ReplaceAll s c "" +:+ ReplaceAll t c "".
Proof.
  induction s as [|d s IH]; [done|]. rewrite append_cons. cbn [ReplaceAll]. rewrite IH.
  by destruct (Ascii.eqb d c).
Qed.

Lemma distributeToken_print b m0 :
  plainName b.1 → in_int 64 b.2 → distributeToken (printBucket b) m0 = Ret (<[b.1 := b.2]> m0).
Proof.
  destruct b as [k n]. cbn [fst snd]. intros (H1 & H2 & H3 & H4) Hn.
  unfold distributeToken, printBucket, SplitN2. cbn [fst snd].
  assert (cut ":" ("[" +:+ k +:+ "]:" +:+ FormatInt n) = Some ("[" +:+ k +:+ "]", FormatInt n)) as ->.
  { rewrite append_cons. cbn [cut]. rewrite append_nil, cut_app by done. reflexivity. }
  rewrite Atoi_FormatInt by done.
  rewrite !ReplaceAll_app, (ReplaceAll_none k "[") by done.
  rewrite (ReplaceAll_none k "]") by done.
  change (ReplaceAll (ReplaceAll "[" "[" "") "]" "") with "".
  change (ReplaceAll (ReplaceAll "]" "[" "") "]" "") with "".
  by rewrite append_nil, append_nil_r.
Qed.

Lemma distributeLoop_print bs m0 :
  Forall (λ b, plainName b.1 ∧ in_int 64 b.2) bs →
  distributeLoop (printBucket <$> bs) m0 = Ret (foldl (λ m b, <[b.1 := b.2]> m) m0 bs).
Proof.
  intros H. revert m0. induction H as [|b bs [Hk Hn] _ IH]; intros m0; [done|].
  rewrite fmap_cons. simpl distributeLoop. rewrite distributeToken_print by done. apply IH.
Qed.

Lemma printBucket_no_space b : plainName b.1 → cut " " (printBucket b) = None.
Proof.
  intros (H1 & _). unfold printBucket. rewrite append_cons. cbn [cut].
  change (Ascii.eqb "[" " ") with false. cbv iota. rewrite append_nil, cut_app by done.
  rewrite !append_cons, append_nil. cbn [cut].
  change (Ascii.eqb "]" " ") with false. change (Ascii.eqb ":" " ") with false. cbv iota.
  rewrite cut_FormatInt; [done| |done]. left. unfold code. simpl. lia.
Qed.

(** Reading back a printed histogram.  A broker that prints the buckets
    "[name]:count" separated by spaces, with distinct names free of brackets,
    colons and spaces and counts of 64 bits, is parsed to exactly the map from
    names to counts. *)
Theorem loadPutMessageDistributeTime_print bs :
  bs ≠ [] → NoDup bs.*1 → Forall (λ b, plainName b.1 ∧ in_int 64 b.2) bs →
  loadPutMessageDistributeTime (printBuckets bs) = Ret (list_to_map bs).
Proof.
  intros Hne Hnd Hall. unfold loadPutMessageDistributeTime.
  destruct (EqualFold (printBuckets bs) "null") eqn:E.
  { exfalso. assert (∃ r, printBuckets bs = String "[" r) as [r Hr].
    { destruct bs as [|b [|b' bs]]; [done|by eexists|by eexists]. }
    rewrite Hr in E. unfold EqualFold in E. apply String.eqb_eq in E.
    destruct r as [|c1 [|c2 r]]; discriminate E. }
  unfold printBuckets. rewrite Split_Join.
  - rewrite distributeLoop_print by done. f_equal.
    transitivity (foldl (λ (a : gmap string Z) '(k, v), <[k := v]> a) ∅ bs).
    + clear. generalize (∅ : gmap string Z). induction bs as [|[k n] bs IH]; intros m0; [done|].
      apply IH.
    + by rewrite foldl_insert_app, (right_id_L ∅ (∪)).
  - by destruct bs.
  - apply Forall_fmap. eapply Forall_impl; [exact Hall|]. intros b [Hb _].
    by apply printBucket_no_space.
Qed.

Lemma loadPutMessageDistributeTime_print_witness :
  loadPutMessageDistributeTime "[<=0ms]:1 [0~10ms]:-2" = Ret (list_to_map [("<=0ms", 1); ("0~10ms", -2)]).
Proof.
  apply (loadPutMessageDistributeTime_print [("<=0ms", 1); ("0~10ms", -2)]); [done| |].
  - apply (bool_decide_unpack _). reflexivity.
  - unfold plainName, in_int. repeat constructor; done.
Defined.

(** ** The fixture of broker_runtime_stats_test.go *)

Definition fixture : gmap string string := list_to_map
  [("msgPutTotalTodayNow", "100");
   ("msgGetTotalTodayNow", "200");
   ("msgPutTotalTodayMorning", "10");
   ("msgGetTotalTodayMorning", "20");
   ("msgPutTotalYesterdayMorning", "1");
   ("msgGetTotalYesterdayMorning", "2");
   ("sendThreadPoolQueueHeadWaitTimeMills", "11");
   ("queryThreadPoolQueueHeadWaitTimeMills", "12");
   ("pullThreadPoolQueueHeadWaitTimeMills", "13");
   ("queryThreadPoolQueueSize", "14");
   ("pullThreadPoolQueueSize", "15");
   ("sendThreadPoolQueueCapacity", "16");
   ("pullThreadPoolQueueCapacity", "17");
   ("putMessageDistributeTime", "[<=0ms]:1 [0~10ms]:2 [10~50ms]:3 [50~100ms]:4 [100~200ms]:5 [200~500ms]:6 [500ms~1s]:7 [1~2s]:8 [2~3s]:9 [3~4s]:10 [4~5s]:11 [5~10s]:12 [10s~]:13 ");
   ("remainHowManyDataToFlush", "12345.6 byte");
   ("commitLogMinOffset", "1000");
   ("commitLogMaxOffset", "2000");
   ("runtime", "[runtime]");
   ("bootTimestamp", "1609459200000");
   ("commitLogDirCapacity", "Total : 1.5 GB, Free : 500.0 MB");
   ("brokerVersion", "323");
   ("dispatchMaxBuffer", "4096");
   ("putTps", "10.0 60.0 600.0");
   ("getMissTps", "1.0 2.0 3.0");
   ("getTransferredTps", "4.0 5.0 6.0");
   ("getTotalTps", "7.0 8.0 9.0");
   ("getFoundTps", "10.0 11.0 12.0");
   ("consumeQueueDiskRatio", "0.25");
   ("commitLogDiskRatio", "0.5");
   ("pageCacheLockTimeMills", "1000");
   ("getMessageEntireTimeMax", "500");
   ("putMessageTimesTotal", "9999");
   ("brokerVersionDesc", "V4_9_8");
   ("sendThreadPoolQueueSize", "21");
   ("startAcceptSendRequestTimeStamp", "1609459200001");
   ("putMessageEntireTimeMax", "750");
   ("earliestMessageTimeStamp", "1609459200002");
   ("remainTransientStoreBufferNumbs", "8");
   ("queryThreadPoolQueueCapacity", "64");
   ("putMessageAverageSize", "1024.5");
   ("dispatchBehindBytes", "4096");
   ("putMessageSizeTotal", "1048576");
   ("putLatency99", "5.5");
   ("putLatency999", "10.5");
   ("scheduleMessageOffset:5", "100,200");
   ("scheduleMessageOffset:10", "300,400")].

Definition zero_stats : BrokerRuntimeStats :=
  mkStats 0 0 0 0 0 0 [] 0 0 0 0 0 0 0 ∅ fzero 0 0 "" 0 fzero fzero 0 0 (mkTps fzero fzero fzero)
    (mkTps fzero fzero fzero) (mkTps fzero fzero fzero) (mkTps fzero fzero fzero)
    (mkTps fzero fzero fzero) fzero fzero 0 0 0 "" 0 0 0 0 0 0 fzero 0 0 fzero fzero.

Definition fixture_stats : BrokerRuntimeStats :=
  match @NewBrokerRuntimeStats std_range (Some fixture) with Ret s => s | _ => zero_stats end.


(** The fixture with the free space in a unit that is not of the KMGTPE family. *)
Definition bad_fixture : gmap string string :=
  <["commitLogDirCapacity" := "Total : 1.5 GB, Free : 500.0 bytes"]> fixture.

Lemma NewBrokerRuntimeStats_outcome_witness :
  (∃ s, @NewBrokerRuntimeStats std_range (Some fixture) = Ret s) ∧
  (∃ msg, @NewBrokerRuntimeStats std_range (Some bad_fixture) = Panic msg) ∧
  (∃ e, @NewBrokerRuntimeStats std_range (Some (<["putTps" := "1 x"]> fixture)) = Fail e).
Proof.
  split; [|split].
  - apply (proj2 (proj1 (@NewBrokerRuntimeStats_outcome std_range fixture))). vm_compute. tauto.
  - apply (proj2 (proj1 (proj2 (@NewBrokerRuntimeStats_outcome std_range bad_fixture)))).
    vm_compute. repeat split; [lia|tauto].
  - apply (proj2 (proj1 (proj2 (proj2
      (@NewBrokerRuntimeStats_outcome std_range (<["putTps" := "1 x"]> fixture)))))).
    left. vm_compute. tauto.
Defined.
