(* ===== verification/Health.v ===== *)
(** * Health state: internal/collector/health.go, internal/health/http.go

    The store behind the cluster health metrics and the /healthz endpoint.
    Every operation is one critical section of [healthStore.mu]. *)

From Stdlib Require Import ZArith Lia String.
From S2P Require Import Prelude GoFloat.

(** ** Keys and store *)

(** {cluster, result} and {cluster, check}. *)
Definition produceHealthKey : Type := string * string.
Definition clusterCheckKey : Type := string * string.

Record healthStore : Type := mkHealth {
  produceCount : gmap produceHealthKey Z;
  consumeCount : gmap string Z;
  status : gmap clusterCheckKey Z;
  latency : gmap clusterCheckKey float64;
  lastSuccess : gmap clusterCheckKey Z;
  lastError : gmap clusterCheckKey string
}.

Definition newHealthStore : healthStore := mkHealth ∅ ∅ ∅ ∅ ∅ ∅.

Definition AddHealthProduce (cluster result : string) (h : healthStore) : healthStore :=
  let k := (cluster, result) in
  mkHealth (<[k := int64 (default 0 (produceCount h !! k) + 1)]> (produceCount h))
    (consumeCount h) (status h) (latency h) (lastSuccess h) (lastError h).

Definition AddHealthConsume (cluster : string) (h : healthStore) : healthStore :=
  mkHealth (produceCount h)
    (<[cluster := int64 (default 0 (consumeCount h !! cluster) + 1)]> (consumeCount h))
    (status h) (latency h) (lastSuccess h) (lastError h).

Definition SetHealthStatus (cluster check : string) (v : Z) (h : healthStore) : healthStore :=
  mkHealth (produceCount h) (consumeCount h) (<[(cluster, check) := v]> (status h))
    (latency h) (lastSuccess h) (lastError h).

Definition SetHealthLatency (cluster check : string) (secs : float64) (h : healthStore) : healthStore :=
  mkHealth (produceCount h) (consumeCount h) (status h) (<[(cluster, check) := secs]> (latency h))
    (lastSuccess h) (lastError h).

Definition SetHealthLastSuccess (cluster check : string) (ts : Z) (h : healthStore) : healthStore :=
  mkHealth (produceCount h) (consumeCount h) (status h) (latency h)
    (<[(cluster, check) := ts]> (lastSuccess h)) (lastError h).

Definition SetHealthLastError (cluster check errStr : string) (h : healthStore) : healthStore :=
  mkHealth (produceCount h) (consumeCount h) (status h) (latency h) (lastSuccess h)
    (<[(cluster, check) := errStr]> (lastError h)).

Section store.
Context `{GR : GoRange}.

(** [for k := range m { if k.cluster == cluster { delete(m, k) } }]. *)
Definition deleteCluster {V} (cluster : string) (m : gmap (string * string) V)
    : gmap (string * string) V :=
  foldl (λ m' kv, if decide (kv.1.1 = cluster) then delete kv.1 m' else m') m (range m).

Definition ClearHealthCluster (cluster : string) (h : healthStore) : healthStore :=
  mkHealth (deleteCluster cluster (produceCount h)) (delete cluster (consumeCount h))
    (deleteCluster cluster (status h)) (deleteCluster cluster (latency h))
    (deleteCluster cluster (lastSuccess h)) (deleteCluster cluster (lastError h)).

(** ** Metric samples *)

Record sample : Type := mkSample { labelValues : list string; sampleValue : float64 }.

Definition produceSamples (h : healthStore) : list sample :=
  (λ '((c, r), v), mkSample [c; r] (floatOfZ v)) <$> range (produceCount h).
Definition consumeSamples (h : healthStore) : list sample :=
  (λ '(c, v), mkSample [c] (floatOfZ v)) <$> range (consumeCount h).
Definition statusSamples (h : healthStore) : list sample :=
  (λ '((c, k), v), mkSample [c; k] (floatOfZ v)) <$> range (status h).
Definition latencySamples (h : healthStore) : list sample :=
  (λ '((c, k), v), mkSample [c; k] v) <$> range (latency h).
Definition lastSuccessSamples (h : healthStore) : list sample :=
  (λ '((c, k), v), mkSample [c; k] (floatOfZ v)) <$> range (lastSuccess h).

(** ** The /healthz view *)

Record CheckHealth : Type := mkCheck {
  chStatus : string;
  chLatency : float64;
  chLastSuccess : Z;
  chLastError : string
}.

Record ClusterHealth : Type := mkCluster {
  clOverall : string;
  clProduce : CheckHealth;
  clConsume : CheckHealth
}.

Record HealthSnapshot : Type := mkSnapshot {
  Overall : string;
  LastProbeAt : Z;
  Clusters : gmap string ClusterHealth
}.

Definition okFail (ok : bool) : string := if ok then "ok" else "fail".

Definition checkDetail (h : healthStore) (cluster check : string) : CheckHealth :=
  mkCheck (okFail (default 0 (status h !! (cluster, check)) =? 1))
    (default fzero (latency h !! (cluster, check)))
    (default 0 (lastSuccess h !! (cluster, check)))
    (default EmptyString (lastError h !! (cluster, check))).

Definition clusterSet (h : healthStore) : gmap string unit :=
  let set := foldl (λ s '((c, _), _), <[c := tt]> s) ∅ (range (produceCount h)) in
  let set := foldl (λ s '(c, _), <[c := tt]> s) set (range (consumeCount h)) in
  foldl (λ s '((c, _), _), <[c := tt]> s) set (range (status h)).

Definition clusterDetail (h : healthStore) (cluster : string) : ClusterHealth :=
  mkCluster (okFail (default 0 (status h !! (cluster, "overall")) =? 1))
    (checkDetail h cluster "produce") (checkDetail h cluster "consume").

(** The loop over the clusters: the map and the newest success. *)
Definition detailStep (h : healthStore) (acc : gmap string ClusterHealth * Z) (kv : string * unit)
    : gmap string ClusterHealth * Z :=
  let cluster := kv.1 in
  let lastProbe := acc.2 in
  let d := clusterDetail h cluster in
  let lastProbe := if lastProbe <? chLastSuccess (clProduce d)
                   then chLastSuccess (clProduce d) else lastProbe in
  let lastProbe := if lastProbe <? chLastSuccess (clConsume d)
                   then chLastSuccess (clConsume d) else lastProbe in
  (<[cluster := d]> acc.1, lastProbe).

Definition detailLoop (h : healthStore) (l : list (string * unit))
    : gmap string ClusterHealth * Z :=
  foldl (detailStep h) (∅, 0) l.

(** The loop over the cluster details, up to its [break]. *)
Fixpoint overallLoop (l : list (string * ClusterHealth)) : string :=
  match l with
  | [] => "ok"
  | (_, ch) :: l' => if decide (clOverall ch = "ok") then overallLoop l' else "fail"
  end.

Definition HealthDetail (h : healthStore) : HealthSnapshot :=
  let '(clusters, lastProbe) := detailLoop h (range (clusterSet h)) in
  let overall := if decide (size clusters = 0%nat) then "fail" else overallLoop (range clusters) in
  mkSnapshot overall lastProbe clusters.

(** ** HealthzHandler *)

Record httpResponse : Type := mkResponse {
  statusCode : Z;
  contentType : string;
  responseBody : option HealthSnapshot
}.

Definition HealthzHandler (method : string) (h : healthStore) : httpResponse :=
  let ct := "application/json; charset=utf-8" in
  if decide (method = "GET") then
    let snap := HealthDetail h in
    mkResponse (if decide (Overall snap = "ok") then 200 else 503) ct (Some snap)
  else mkResponse 405 ct None.
End store.

(** ** Lemmas *)

Section lemmas.
Context `{GR : GoRange}.

Lemma deleteCluster_fold {V} (c : string) (l : list (string * string * V))
    (m0 : gmap (string * string) V) (k : string * string) :
  foldl (λ m' kv, if decide (kv.1.1 = c) then delete kv.1 m' else m') m0 l !! k =
  if decide (k.1 = c ∧ k ∈ l.*1) then None else m0 !! k.
Proof.
  revert m0. induction l as [|[k' v] l IH]; intros m0; cbn [foldl].
  - by rewrite decide_False by (intros [_ H]; by apply elem_of_nil in H).
  - rewrite IH. rewrite fmap_cons. cbn [fst]. destruct (decide (k.1 = c ∧ k ∈ l.*1)) as [H|H].
    + rewrite decide_True; [done|]. destruct H. split; [done|]. by right.
    + destruct (decide (k = k')) as [->|Hk].
      * destruct (decide (k'.1 = c)) as [Hc|Hc].
        -- rewrite lookup_delete_eq. rewrite decide_True; [done|]. split; [done|left].
        -- by rewrite decide_False by tauto.
      * rewrite (decide_False (P := k.1 = c ∧ k ∈ k' :: l.*1)).
        -- case_decide; [by rewrite lookup_delete_ne|done].
        -- intros [Hc [?|?]%elem_of_cons]; tauto.
Qed.

Lemma lookup_deleteCluster {V} (c : string) (m0 : gmap (string * string) V) (k : string * string) :
  deleteCluster c m0 !! k = if decide (k.1 = c) then None else m0 !! k.
Proof.
  unfold deleteCluster. rewrite deleteCluster_fold. destruct (decide (k.1 = c)) as [Hc|Hc].
  - case_decide as H; [done|]. destruct (m0 !! k) as [v|] eqn:E; [|done]. destruct H. split; [done|].
    apply list_elem_of_fmap. exists (k, v). by rewrite elem_of_range.
  - by rewrite decide_False by tauto.
Qed.

(** The clusters a snapshot lists. *)
Definition known (h : healthStore) (c : string) : Prop :=
  (∃ r, is_Some (produceCount h !! (c, r))) ∨ is_Some (consumeCount h !! c) ∨
  (∃ k, is_Some (status h !! (c, k))).

(** A loop that adds the name of each entry to a set. *)
Lemma set_fold {A} (f : A → string) l (s0 : gmap string unit) c :
  is_Some (foldl (λ s a, <[f a := tt]> s) s0 l !! c) ↔ c ∈ f <$> l ∨ is_Some (s0 !! c).
Proof.
  revert s0. induction l as [|a l IH]; intros s0; cbn [foldl].
  - split; [by right|]. intros [H|H]; [by apply elem_of_nil in H|done].
  - rewrite IH, fmap_cons, elem_of_cons, lookup_insert_is_Some'. intuition congruence.
Qed.

Lemma elem_of_fmap_range {K V} `{Countable K} (m0 : gmap K V) (f : K * V → string) c :
  c ∈ f <$> range m0 ↔ ∃ k v, m0 !! k = Some v ∧ c = f (k, v).
Proof.
  rewrite list_elem_of_fmap. split.
  - intros ([k v] & -> & Hin). apply elem_of_range in Hin. eauto.
  - intros (k & v & Hm & ->). exists (k, v). by rewrite elem_of_range.
Qed.

Lemma foldl_ext {A B} (f g : A → B → A) (l : list B) (a : A) :
  (∀ a b, f a b = g a b) → foldl f a l = foldl g a l.
Proof. intros Hfg. revert a. induction l as [|b l IH]; intros a; simpl; [done|]. by rewrite Hfg. Qed.

Lemma clusterSet_known h c : is_Some (clusterSet h !! c) ↔ known h c.
Proof.
  unfold clusterSet.
  rewrite (foldl_ext _ (λ s kv, <[kv.1.1 := tt]> s) (range (status h))) by (by intros ? [[] ?]).
  rewrite (set_fold (λ kv, kv.1.1)).
  rewrite (foldl_ext _ (λ s kv, <[kv.1 := tt]> s) (range (consumeCount h))) by (by intros ? []).
  rewrite (set_fold (λ kv, kv.1)).
  rewrite (foldl_ext _ (λ s kv, <[kv.1.1 := tt]> s) (range (produceCount h))) by (by intros ? [[] ?]).
  rewrite (set_fold (λ kv, kv.1.1)).
  rewrite !elem_of_fmap_range, lookup_empty. unfold known, is_Some. cbn [fst]. split.
  - intros [([c' k] & v & Hm & ->)|[(c' & v & Hm & ->)|[([c' k] & v & Hm & ->)|[? ?]]]]; eauto; done.
  - intros [(r & v & Hm)|[(v & Hm)|(k & v & Hm)]]; eauto 10.
Qed.

Lemma if_max a b : (if a <? b then b else a) = Z.max a b.
Proof. destruct (Z.ltb_spec a b); lia. Qed.

Lemma detailLoop_spec h l :
  (∀ c, (detailLoop h l).1 !! c = if decide (c ∈ l.*1) then Some (clusterDetail h c) else None) ∧
  0 ≤ (detailLoop h l).2 ∧
  (∀ c, c ∈ l.*1 → chLastSuccess (clProduce (clusterDetail h c)) ≤ (detailLoop h l).2 ∧
                   chLastSuccess (clConsume (clusterDetail h c)) ≤ (detailLoop h l).2) ∧
  ((detailLoop h l).2 = 0 ∨ ∃ c, c ∈ l.*1 ∧
     ((detailLoop h l).2 = chLastSuccess (clProduce (clusterDetail h c)) ∨
      (detailLoop h l).2 = chLastSuccess (clConsume (clusterDetail h c)))).
Proof.
  induction l as [|[c0 u] l IH] using rev_ind.
  { cbn. split; [done|]. split; [lia|]. split; [|by left]. intros c H. by apply elem_of_nil in H. }
  unfold detailLoop in *. rewrite foldl_app. cbn [foldl].
  destruct (foldl _ _ l) as [m t]. cbn [fst snd] in IH. destruct IH as (Hm & H0 & Hle & Hex).
  unfold detailStep. cbn [fst snd]. set (d := clusterDetail h c0).
  set (t' := if (if t <? _ then _ else t) <? _ then _ else _).
  assert (Ht : t' = Z.max (Z.max t (chLastSuccess (clProduce d))) (chLastSuccess (clConsume d))).
  { unfold t'. by rewrite !if_max. }
  rewrite fmap_app. cbn [fmap list_fmap fst].
  assert (Hin : ∀ c, c ∈ l.*1 ++ [c0] ↔ c ∈ l.*1 ∨ c = c0).
  { intros c. by rewrite elem_of_app, list_elem_of_singleton. }
  split; [|split; [lia|split]].
  - intros c. destruct (decide (c = c0)) as [->|Hc].
    + rewrite lookup_insert_eq, decide_True; [done|]. apply Hin. by right.
    + rewrite lookup_insert_ne, Hm by done. apply decide_ext. rewrite Hin. tauto.
  - intros c [Hc| ->]%Hin; [specialize (Hle c Hc); lia|fold d; lia].
  - destruct (Z.max_spec (Z.max t (chLastSuccess (clProduce d))) (chLastSuccess (clConsume d)))
      as [[_ E]|[_ E]]; rewrite E in Ht.
    + right. exists c0. split; [apply Hin; by right|by right].
    + destruct (Z.max_spec t (chLastSuccess (clProduce d))) as [[_ E']|[_ E']]; rewrite E' in Ht.
      * right. exists c0. split; [apply Hin; by right|by left].
      * rewrite Ht. destruct Hex as [?|(c & Hc & Hc')]; [by left|]. right. exists c.
        split; [apply Hin; by left|done].
Qed.

Lemma overallLoop_ok l : overallLoop l = "ok" ↔ ∀ c ch, (c, ch) ∈ l → clOverall ch = "ok".
Proof.
  induction l as [|[c ch] l IH]; simpl.
  - split; [|done]. intros _ c ch H. by apply elem_of_nil in H.
  - setoid_rewrite elem_of_cons. destruct (decide (clOverall ch = "ok")) as [Ho|Ho].
    + rewrite IH. split; [|by eauto]. intros H c' ch' [[= -> ->]|Hin]; eauto.
    + split; [done|]. intros H. destruct Ho. eauto.
Qed.

Lemma clusterDetail_ok h c : clOverall (clusterDetail h c) = "ok" ↔ status h !! (c, "overall") = Some 1.
Proof.
  unfold clusterDetail. cbn [clOverall]. destruct (status h !! (c, "overall")) as [v|]; cbn.
  - destruct (Z.eqb_spec v 1) as [->|Hv]; cbn; split; congruence.
  - split; congruence.
Qed.
End lemmas.

(** ** Properties *)

Section properties.
Context `{GR : GoRange}.

Lemma HealthDetail_clusters h c :
  Clusters (HealthDetail h) !! c = if decide (is_Some (clusterSet h !! c))
                                   then Some (clusterDetail h c) else None.
Proof.
  unfold HealthDetail. pose proof (detailLoop_spec h (range (clusterSet h))) as (Hm & _).
  destruct (detailLoop h _) as [m t]. cbn [fst Clusters] in *. rewrite Hm. apply decide_ext.
  rewrite (elem_of_fmap_range (clusterSet h) fst). cbn [fst]. unfold is_Some.
  split; [intros (? & ? & ? & ->); eauto|intros [? ?]; eauto].
Qed.

Lemma Clusters_known h c : is_Some (Clusters (HealthDetail h) !! c) ↔ known h c.
Proof.
  rewrite HealthDetail_clusters, <- clusterSet_known. case_decide; [by split|].
  split; [by intros []|done].
Qed.

Lemma Clusters_detail h c d : Clusters (HealthDetail h) !! c = Some d → d = clusterDetail h c.
Proof. rewrite HealthDetail_clusters. case_decide; congruence. Qed.

Lemma HealthDetail_overall h :
  Overall (HealthDetail h) = "ok" ↔
  (∃ c, known h c) ∧ ∀ c, known h c → status h !! (c, "overall") = Some 1.
Proof.
  assert (Overall (HealthDetail h) =
    if decide (size (Clusters (HealthDetail h)) = 0%nat) then "fail"
    else overallLoop (range (Clusters (HealthDetail h)))) as ->.
  { unfold HealthDetail. by destruct (detailLoop h _). }
  pose proof (Clusters_known h) as Hk. pose proof (Clusters_detail h) as Hd.
  destruct (decide _) as [Hs|Hs].
  - split; [done|]. intros [[c Hc] _]. apply Hk in Hc. apply map_size_empty_inv in Hs.
    rewrite Hs, lookup_empty in Hc. by destruct Hc.
  - rewrite overallLoop_ok. split.
    + intros Hok. split.
      * destruct (map_choose (Clusters (HealthDetail h))) as (c & d & Hc).
        { intros E. rewrite E in Hs. by destruct Hs. }
        exists c. apply Hk. by rewrite Hc.
      * intros c [d Hc]%Hk. apply clusterDetail_ok. pose proof (Hd c d Hc) as ->.
        apply (Hok c). by apply elem_of_range.
    + intros [_ Hall] c d Hc%elem_of_range. pose proof (Hd c d Hc) as ->.
      apply clusterDetail_ok, Hall, Hk. by rewrite Hc.
Qed.

(** The aggregate verdict.  For every state of the store and every map
    iteration order, the snapshot lists exactly the clusters with a produce
    count, a consume count or a status, each with the detail of its own checks;
    the verdict is "ok" exactly when there is at least one cluster and the
    overall status of every one of them is 1; and the probe time is the newest
    success of any listed check, or 0. *)
Theorem HealthDetail_spec h :
  let snap := HealthDetail h in
  (∀ c, is_Some (Clusters snap !! c) ↔ known h c) ∧
  (∀ c d, Clusters snap !! c = Some d → d = clusterDetail h c) ∧
  (Overall snap = "ok" ↔
     (∃ c, known h c) ∧ ∀ c, known h c → status h !! (c, "overall") = Some 1) ∧
  (∀ c k, known h c → k = "produce" ∨ k = "consume" →
     default 0 (lastSuccess h !! (c, k)) ≤ LastProbeAt snap) ∧
  (LastProbeAt snap = 0 ∨ ∃ c k, known h c ∧ lastSuccess h !! (c, k) = Some (LastProbeAt snap)).
Proof.
  intros snap. split; [apply Clusters_known|]. split; [apply Clusters_detail|].
  split; [apply HealthDetail_overall|].
  assert (Hel : ∀ c, c ∈ (range (clusterSet h)).*1 ↔ known h c).
  { intros c. rewrite (elem_of_fmap_range (clusterSet h) fst), <- clusterSet_known.
    unfold is_Some. cbn [fst]. split; [intros (? & ? & ? & ->); eauto|intros [? ?]; eauto]. }
  pose proof (detailLoop_spec h (range (clusterSet h))) as (_ & H0 & Hle & Hex).
  assert (LastProbeAt snap = (detailLoop h (range (clusterSet h))).2) as ->.
  { unfold snap, HealthDetail. by destruct (detailLoop h _). }
  split.
  - intros c k Hc Hkk. apply Hel in Hc. destruct (Hle c Hc). by destruct Hkk as [-> | ->].
  - destruct (decide ((detailLoop h (range (clusterSet h))).2 = 0)) as [|Hne]; [by left|right].
    destruct Hex as [|(c & Hc & Hv)]; [done|]. exists c. apply Hel in Hc.
    unfold clusterDetail, checkDetail in Hv. cbn [clProduce clConsume chLastSuccess] in Hv.
    destruct Hv as [Hv|Hv]; [exists "produce"|exists "consume"];
      (split; [done|]); destruct (lastSuccess h !! _); simpl in Hv; congruence.
Qed.

(** The status code of /healthz.  A method other than GET is refused with
    405 and no body; a GET always carries the snapshot, with 200 exactly when at
    least one cluster is known and all of them are overall healthy, and 503
    otherwise. *)
Theorem HealthzHandler_codes method h :
  let r := HealthzHandler method h in
  if decide (method = "GET") then
    responseBody r = Some (HealthDetail h) ∧
    statusCode r ∈ [200; 503] ∧
    (statusCode r = 200 ↔
       (∃ c, known h c) ∧ ∀ c, known h c → status h !! (c, "overall") = Some 1)
  else statusCode r = 405 ∧ responseBody r = None.
Proof.
  intros r. unfold r, HealthzHandler. destruct (decide (method = "GET")); [|done].
  cbn [responseBody statusCode]. split; [done|]. rewrite <- HealthDetail_overall.
  destruct (decide (Overall (HealthDetail h) = "ok")) as [Ho|Ho].
  - split; [left|done].
  - split; [right; left|]. split; [discriminate|done].
Qed.

(** What one cluster contributes to the store. *)
Definition clean (c : string) (h : healthStore) : Prop :=
  (∀ r, produceCount h !! (c, r) = None) ∧ consumeCount h !! c = None ∧
  (∀ k, status h !! (c, k) = None) ∧ (∀ k, latency h !! (c, k) = None) ∧
  (∀ k, lastSuccess h !! (c, k) = None) ∧ (∀ k, lastError h !! (c, k) = None).

Definition same_cluster (c : string) (h h' : healthStore) : Prop :=
  (∀ r, produceCount h !! (c, r) = produceCount h' !! (c, r)) ∧
  consumeCount h !! c = consumeCount h' !! c ∧
  (∀ k, status h !! (c, k) = status h' !! (c, k)) ∧
  (∀ k, latency h !! (c, k) = latency h' !! (c, k)) ∧
  (∀ k, lastSuccess h !! (c, k) = lastSuccess h' !! (c, k)) ∧
  (∀ k, lastError h !! (c, k) = lastError h' !! (c, k)).

Lemma ClearHealthCluster_clean c h : clean c (ClearHealthCluster c h).
Proof.
  repeat split; intros; cbn; rewrite ?lookup_deleteCluster, ?decide_True by done; try done.
  apply lookup_delete_eq.
Qed.

Lemma ClearHealthCluster_other c c' h : c' ≠ c → same_cluster c' (ClearHealthCluster c h) h.
Proof.
  intros Hc. repeat split; intros; cbn; rewrite ?lookup_deleteCluster, ?decide_False by done; try done.
  by apply lookup_delete_ne.
Qed.

Lemma clean_not_known c h : clean c h → ¬ known h c.
Proof.
  intros (H1 & H2 & H3 & _) [[r [v Hv]]|[[v Hv]|[k [v Hv]]]].
  - rewrite H1 in Hv. done.
  - rewrite H2 in Hv. done.
  - rewrite H3 in Hv. done.
Qed.

(** Removing a cluster.  [ClearHealthCluster] leaves no sample of the
    cluster in any of the six families, keeps every sample of every other
    cluster, and takes the cluster out of the /healthz view. *)
Theorem ClearHealthCluster_spec c h :
  clean c (ClearHealthCluster c h) ∧
  (∀ c', c' ≠ c → same_cluster c' (ClearHealthCluster c h) h) ∧
  Clusters (HealthDetail (ClearHealthCluster c h)) !! c = None.
Proof.
  pose proof (ClearHealthCluster_clean c h) as Hc. split; [done|].
  split; [intros c'; apply ClearHealthCluster_other|].
  destruct (Clusters _ !! c) as [d|] eqn:E; [|done]. exfalso.
  apply (clean_not_known c (ClearHealthCluster c h) Hc), Clusters_known. by rewrite E.
Qed.
End properties.
