(* ===== verification/Prober.v ===== *)
(** * The cluster prober: internal/health/probe.go, lifecycle.go, adapter.go

    Part one: the bodies of the probe operations, each as the list of writes it
    makes to the health store.  Part two: the goroutines of the prober as a
    labelled transition system, one step per critical section, so that the
    writes of concurrent operations interleave.  Part three: cluster
    reconciliation.  The message client (producer, push consumer) is outside
    the repository: what it returns is a parameter of the labels. *)

From Stdlib Require Import ZArith Lia Ascii String.
From S2P Require Import Prelude GoStrings GoFloat Store Health.

(** ** Time *)

(** An instant is a number of nanoseconds since the Unix epoch; the zero
    [time.Time] is the start of the year 1. *)
Definition zeroTime : Z := -62135596800 * 1000000000.
Definition IsZero (t : Z) : bool := t =? zeroTime.
Definition Unix (t : Z) : Z := t / 1000000000.
Definition UnixMilli (t : Z) : Z := int64 (t / 1000000).
Definition fromUnixMilli (ms : Z) : Z := ms * 1000000.

(** ** Writes to the health store *)

Inductive hop : Type :=
| HAddProduce (cluster result : string)
| HAddConsume (cluster : string)
| HSetStatus (cluster check : string) (v : Z)
| HSetLatency (cluster check : string) (secs : float64)
| HSetLastSuccess (cluster check : string) (ts : Z)
| HSetLastError (cluster check err : string).

Definition apply_hop (h : healthStore) (o : hop) : healthStore :=
  match o with
  | HAddProduce c r => AddHealthProduce c r h
  | HAddConsume c => AddHealthConsume c h
  | HSetStatus c k v => SetHealthStatus c k v h
  | HSetLatency c k s => SetHealthLatency c k s h
  | HSetLastSuccess c k ts => SetHealthLastSuccess c k ts h
  | HSetLastError c k e => SetHealthLastError c k e h
  end.

Definition boolToInt (b : bool) : Z := if b then 1 else 0.

(** ** clusterProbe: the operations *)

(** The body of a test message. *)
Definition probeBody (now : Z) : bytes := bytes_of (FormatInt (UnixMilli now)).

(** [sendOne]: [start] and [stop] are the clock readings around [SendSync], [err]
    its error text.  The second result is the new [lastProduceSuccess]. *)
Definition sendOne (cluster : string) (now start stop : Z) (err : option string)
    : list hop * option Z :=
  let elapsed := timeSub stop start in
  match err with
  | Some e => ([HAddProduce cluster "failure"; HSetLastError cluster "produce" e], None)
  | None =>
      ([HAddProduce cluster "success";
        HSetLatency cluster "produce" (seconds elapsed);
        HSetLastSuccess cluster "produce" (Unix now);
        HSetLastError cluster "produce" EmptyString], Some now)
  end.

Definition parseBodyTs (body : bytes) : Z :=
  match ParseInt (str_of body) with
  | Ret ms => fromUnixMilli ms
  | _ => zeroTime
  end.

(** [handleMessage]; afterwards [lastConsume] becomes [now]. *)
Definition handleOne (cluster : string) (now : Z) (body : bytes) : list hop :=
  let bt := parseBodyTs body in
  [HAddConsume cluster] ++
  (if IsZero bt then [] else [HSetLatency cluster "consume" (seconds (timeSub now bt))]) ++
  [HSetLastSuccess cluster "consume" (Unix now)].

Definition handleMessage (cluster : string) (now : Z) (msgs : list bytes) : list hop :=
  msgs ≫= handleOne cluster now.

(** A check is healthy when it succeeded less than [recency] ago. *)
Definition fresh (recency now last : Z) : bool := negb (IsZero last) && (timeSub now last <? recency).

Definition evalOnce (recency : Z) (cluster : string) (lastProduceSuccess lastConsume now : Z)
    : list hop :=
  let produceOK := fresh recency now lastProduceSuccess in
  let consumeOK := fresh recency now lastConsume in
  let overallOK := produceOK && consumeOK in
  [HSetStatus cluster "produce" (boolToInt produceOK);
   HSetStatus cluster "consume" (boolToInt consumeOK);
   HSetStatus cluster "overall" (boolToInt overallOK)] ++
  [HSetLastError cluster "consume"
     (if consumeOK then EmptyString else "no message consumed within recency")] ++
  (if produceOK then [] else [HSetLatency cluster "produce" fzero]) ++
  (if consumeOK then [] else [HSetLatency cluster "consume" fzero]) ++
  (if overallOK then [HSetLastSuccess cluster "overall" (Unix now)] else []).

(** ** The goroutines *)

(** [produceLoop]: waiting in the select, in the middle of a [sendOne] with the
    writes still to make, or returned ([done] is closed). *)
Inductive produceThread : Type :=
| PIdle
| PBusy (ops : list hop) (success : option Z)
| PExited.

(** The agent that starts the consumer: [addProbe]'s first attempt, then
    [consumerRetryLoop]; inside [cons.Start], or returned ([consumerRetryDone]
    is closed). *)
Inductive retryThread : Type := RIdle | RStarting | RExited.

(** The consumer: none, running callbacks, or shut down. *)
Inductive consumerState : Type := CNone | CRunning | CShut.

Record probe : Type := mkProbe {
  pcluster : string;
  cancelled : bool;
  produce : produceThread;
  retry : retryThread;
  consumer : consumerState;
  callbacks : list (list hop * Z);
  lastProduceSuccess : Z;
  lastConsume : Z
}.

(** What [removeProbe] is doing, and for which probe. *)
Inductive remover : Type :=
| RmNone
| RmWait (id : nat)
| RmShutdown (id : nat)
| RmClear (id : nat).

Definition removing (r : remover) : option nat :=
  match r with RmNone => None | RmWait i | RmShutdown i | RmClear i => Some i end.

(** [probes] is the map of the [Prober] from names to probes; a probe is its
    index in [heap], where it stays after its removal.  [evalPass] is the holder
    of [evalMu]: the probes [evalTick] still has to evaluate, the writes left of
    the current [evalOnce], and its clock reading. *)
Record prober : Type := mkProber {
  probes : gmap string nat;
  heap : list probe;
  evalPass : option (list nat * list hop * Z);
  rm : remover;
  store : healthStore
}.

Definition NewProber (h : healthStore) : prober := mkProber ∅ [] None RmNone h.

Definition set_heap (hp : list probe) (s : prober) : prober :=
  mkProber (probes s) hp (evalPass s) (rm s) (store s).
Definition set_store (h : healthStore) (s : prober) : prober :=
  mkProber (probes s) (heap s) (evalPass s) (rm s) h.
Definition set_pass (e : option (list nat * list hop * Z)) (s : prober) : prober :=
  mkProber (probes s) (heap s) e (rm s) (store s).
Definition set_rm (r : remover) (s : prober) : prober :=
  mkProber (probes s) (heap s) (evalPass s) r (store s).

Definition set_produce (t : produceThread) (p : probe) : probe :=
  mkProbe (pcluster p) (cancelled p) t (retry p) (consumer p) (callbacks p)
    (lastProduceSuccess p) (lastConsume p).
Definition set_retry (t : retryThread) (p : probe) : probe :=
  mkProbe (pcluster p) (cancelled p) (produce p) t (consumer p) (callbacks p)
    (lastProduceSuccess p) (lastConsume p).
Definition set_consumer (c : consumerState) (p : probe) : probe :=
  mkProbe (pcluster p) (cancelled p) (produce p) (retry p) c (callbacks p)
    (lastProduceSuccess p) (lastConsume p).
Definition set_callbacks (l : list (list hop * Z)) (p : probe) : probe :=
  mkProbe (pcluster p) (cancelled p) (produce p) (retry p) (consumer p) l
    (lastProduceSuccess p) (lastConsume p).
Definition set_cancelled (p : probe) : probe :=
  mkProbe (pcluster p) true (produce p) (retry p) (consumer p) (callbacks p)
    (lastProduceSuccess p) (lastConsume p).
Definition set_produced (t : Z) (p : probe) : probe :=
  mkProbe (pcluster p) (cancelled p) (produce p) (retry p) (consumer p) (callbacks p)
    t (lastConsume p).
Definition set_consumed (t : Z) (p : probe) : probe :=
  mkProbe (pcluster p) (cancelled p) (produce p) (retry p) (consumer p) (callbacks p)
    (lastProduceSuccess p) t.

Inductive label : Type :=
| LAdd (cluster : string)
| LSend (id : nat) (now start stop : Z) (err : option string)
| LProduce (id : nat)
| LProduceExit (id : nat)
| LConsumerStart (id : nat)
| LConsumerUp (id : nat)
| LConsumerFail (id : nat)
| LRetryExit (id : nat)
| LCallback (id : nat) (now : Z) (msgs : list bytes)
| LCallbackStep (id j : nat)
| LEval (now : Z)
| LEvalStep
| LRemove (cluster : string)
| LRemoveWait
| LRemoveShutdown
| LRemoveClear.

Section steps.
Context `{GR : GoRange}.
(** [cfg.Recency], and whether the client's [Shutdown] of a push consumer waits
    for the callbacks that are running.  The client does not document which of the
    two it does: the theorems hold for both, or say which one they need. *)
Variables (recency : Z) (drains : bool).

(** Update one probe. *)
Definition onProbe (id : nat) (f : probe → option probe) (s : prober) : option prober :=
  p ← heap s !! id; p' ← f p; Some (set_heap (<[id := p']> (heap s)) s).

Definition newProbe (cluster : string) : probe :=
  mkProbe cluster false PIdle RIdle CNone [] zeroTime zeroTime.

(** [addProbe], for a name that is not in the map, by the one goroutine that
    reconciles. *)
Definition addProbe (cluster : string) (s : prober) : option prober :=
  match probes s !! cluster, rm s with
  | None, RmNone =>
      Some (mkProber (<[cluster := length (heap s)]> (probes s)) (heap s ++ [newProbe cluster])
              (evalPass s) (rm s) (store s))
  | _, _ => None
  end.

Definition beginSend (id : nat) (now start stop : Z) (err : option string) : prober → option prober :=
  onProbe id (λ p, match produce p with
    | PIdle => let '(ops, fin) := sendOne (pcluster p) now start stop err in
               Some (set_produce (PBusy ops fin) p)
    | _ => None end).

(** One write of a running [sendOne], or its final update of the recency. *)
Definition stepSend (id : nat) (s : prober) : option prober :=
  p ← heap s !! id;
  match produce p with
  | PBusy (o :: ops) fin =>
      Some (set_store (apply_hop (store s) o)
             (set_heap (<[id := set_produce (PBusy ops fin) p]> (heap s)) s))
  | PBusy [] fin =>
      let p' := match fin with Some t => set_produced t p | None => p end in
      Some (set_heap (<[id := set_produce PIdle p']> (heap s)) s)
  | _ => None
  end.

Definition exitProduce (id : nat) : prober → option prober :=
  onProbe id (λ p, match produce p, cancelled p with
    | PIdle, true => Some (set_produce PExited p) | _, _ => None end).

Definition consumerStart (id : nat) : prober → option prober :=
  onProbe id (λ p, match retry p with
    | RIdle => Some (set_retry RStarting (set_consumer CRunning p)) | _ => None end).

Definition consumerUp (id : nat) : prober → option prober :=
  onProbe id (λ p, match retry p with
    | RStarting => Some (set_retry RExited p) | _ => None end).

(** [Shutdown] of the client's consumer. *)
Definition shutConsumer (c : consumerState) (p : probe) : option probe :=
  if drains && bool_decide (callbacks p ≠ []) then None else Some (set_consumer c p).

Definition consumerFail (id : nat) : prober → option prober :=
  onProbe id (λ p, match retry p with
    | RStarting => p' ← shutConsumer CNone p; Some (set_retry RIdle p') | _ => None end).

Definition exitRetry (id : nat) : prober → option prober :=
  onProbe id (λ p, match retry p, cancelled p with
    | RIdle, true => Some (set_retry RExited p) | _, _ => None end).

Definition beginCallback (id : nat) (now : Z) (msgs : list bytes) : prober → option prober :=
  onProbe id (λ p, match consumer p with
    | CRunning => Some (set_callbacks (callbacks p ++ [(handleMessage (pcluster p) now msgs, now)]) p)
    | _ => None end).

Definition stepCallback (id j : nat) (s : prober) : option prober :=
  p ← heap s !! id;
  cb ← callbacks p !! j;
  match cb with
  | (o :: ops, now) =>
      Some (set_store (apply_hop (store s) o)
             (set_heap (<[id := set_callbacks (<[j := (ops, now)]> (callbacks p)) p]> (heap s)) s))
  | ([], now) =>
      Some (set_heap (<[id := set_consumed now (set_callbacks (delete j (callbacks p)) p)]> (heap s)) s)
  end.

(** [evalTick] takes [evalMu] and snapshots the probes. *)
Definition evalTick (now : Z) (s : prober) : option prober :=
  match evalPass s with
  | None => Some (set_pass (Some ((range (probes s)).*2, [], now)) s)
  | Some _ => None
  end.

Definition stepEval (s : prober) : option prober :=
  match evalPass s with
  | None => None
  | Some (ids, o :: ops, now) =>
      Some (set_store (apply_hop (store s) o) (set_pass (Some (ids, ops, now)) s))
  | Some (id :: ids, [], now) =>
      p ← heap s !! id;
      Some (set_pass (Some (ids, evalOnce recency (pcluster p) (lastProduceSuccess p) (lastConsume p) now,
                            now)) s)
  | Some ([], [], _) => Some (set_pass None s)
  end.

(** [removeProbe], first critical section and [cancel]. *)
Definition removeProbe (cluster : string) (s : prober) : option prober :=
  match probes s !! cluster, rm s with
  | Some id, RmNone =>
      p ← heap s !! id;
      Some (mkProber (delete cluster (probes s)) (<[id := set_cancelled p]> (heap s))
              (evalPass s) (RmWait id) (store s))
  | _, _ => None
  end.

(** [<-cp.done] and [<-cp.consumerRetryDone]. *)
Definition removeWait (s : prober) : option prober :=
  match rm s with
  | RmWait id =>
      p ← heap s !! id;
      match produce p, retry p with
      | PExited, RExited => Some (set_rm (RmShutdown id) s)
      | _, _ => None
      end
  | _ => None
  end.

(** [cons.Shutdown] when the consumer was recorded. *)
Definition removeShutdown (s : prober) : option prober :=
  match rm s with
  | RmShutdown id =>
      p ← heap s !! id;
      p' ← match consumer p with CNone => Some p | _ => shutConsumer CShut p end;
      Some (set_rm (RmClear id) (set_heap (<[id := p']> (heap s)) s))
  | _ => None
  end.

(** [ClearHealthCluster] under [evalMu]. *)
Definition removeClear (s : prober) : option prober :=
  match rm s, evalPass s with
  | RmClear id, None =>
      p ← heap s !! id;
      Some (set_rm RmNone (set_store (ClearHealthCluster (pcluster p) (store s)) s))
  | _, _ => None
  end.

Definition step (l : label) (s : prober) : option prober :=
  match l with
  | LAdd c => addProbe c s
  | LSend id now start stop err => beginSend id now start stop err s
  | LProduce id => stepSend id s
  | LProduceExit id => exitProduce id s
  | LConsumerStart id => consumerStart id s
  | LConsumerUp id => consumerUp id s
  | LConsumerFail id => consumerFail id s
  | LRetryExit id => exitRetry id s
  | LCallback id now msgs => beginCallback id now msgs s
  | LCallbackStep id j => stepCallback id j s
  | LEval now => evalTick now s
  | LEvalStep => stepEval s
  | LRemove c => removeProbe c s
  | LRemoveWait => removeWait s
  | LRemoveShutdown => removeShutdown s
  | LRemoveClear => removeClear s
  end.

Definition pstep : prober → prober → Prop := lts_step step.
Definition reachable (s : prober) : Prop := rtc pstep (NewProber newHealthStore) s.
End steps.

(** ** The no-ghost invariant *)

Definition hop_cluster (o : hop) : string :=
  match o with
  | HAddProduce c _ | HAddConsume c | HSetStatus c _ _ | HSetLatency c _ _
  | HSetLastSuccess c _ _ | HSetLastError c _ _ => c
  end.

(** The writes a callback makes. *)
Definition consume_hop (o : hop) : bool :=
  match o with
  | HAddConsume _ => true
  | HSetLatency _ k _ | HSetLastSuccess _ k _ => bool_decide (k = "consume")
  | _ => false
  end.

(** No sample of [c] outside the families a callback writes. *)
Definition clean_core (c : string) (h : healthStore) : Prop :=
  (∀ r, produceCount h !! (c, r) = None) ∧ (∀ k, status h !! (c, k) = None) ∧
  (∀ k, k ≠ "consume" → latency h !! (c, k) = None) ∧
  (∀ k, k ≠ "consume" → lastSuccess h !! (c, k) = None) ∧ (∀ k, lastError h !! (c, k) = None).

Lemma clean_clean_core c h : clean c h → clean_core c h.
Proof. intros (? & ? & ? & ? & ? & ?). repeat split; auto. Qed.

Ltac solve_clean :=
  repeat split; intros; cbn;
  rewrite ?lookup_insert_ne by (try intros [= ? ?]; congruence); auto.

Lemma clean_hop c h o : hop_cluster o ≠ c → clean c h → clean c (apply_hop h o).
Proof.
  intros Ho (H1 & H2 & H3 & H4 & H5 & H6). destruct o; simpl in Ho; solve_clean.
Qed.

Lemma clean_core_hop c h o :
  hop_cluster o ≠ c ∨ consume_hop o = true → clean_core c h → clean_core c (apply_hop h o).
Proof.
  intros Ho (H1 & H2 & H3 & H4 & H5).
  destruct o; simpl in Ho; try (destruct Ho as [Ho|Ho]; [|discriminate]); try solve_clean.
  all: destruct Ho as [Ho|Ho]; [solve_clean|apply bool_decide_eq_true in Ho; subst; solve_clean].
Qed.

Lemma handleMessage_hops c now msgs :
  Forall (λ o, hop_cluster o = c ∧ consume_hop o = true) (handleMessage c now msgs).
Proof.
  unfold handleMessage. apply Forall_bind. apply Forall_true. intros b. cbv beta zeta delta [compose handleOne].
  destruct (IsZero (parseBodyTs b)); repeat (apply Forall_cons_2; [done|]); apply Forall_nil_2.
Qed.

Lemma sendOne_hops c now start stop err :
  Forall (λ o, hop_cluster o = c) (sendOne c now start stop err).1.
Proof. destruct err; repeat constructor. Qed.

Lemma evalOnce_hops recency c lp lc now :
  Forall (λ o, hop_cluster o = c) (evalOnce recency c lp lc now).
Proof.
  unfold evalOnce. destruct (fresh recency now lp), (fresh recency now lc); repeat constructor.
Qed.

Section invariant.
Context `{GR : GoRange}.
Variables (recency : Z) (drains : bool).

(** A cluster with a probe, or whose probe is being removed. *)
Definition active (s : prober) (c : string) : Prop :=
  is_Some (probes s !! c) ∨
  ∃ id p, removing (rm s) = Some id ∧ heap s !! id = Some p ∧ pcluster p = c.

Definition clean_for (c : string) (h : healthStore) : Prop :=
  if drains then clean c h else clean_core c h.

(** Whose loops may still run, and which writes they have pending. *)
Record probe_ok (pm : gmap string nat) (r : remover) (id : nat) (p : probe) : Prop := {
  ok_threads : produce p ≠ PExited ∨ retry p ≠ RExited → pm !! pcluster p = Some id ∨ r = RmWait id;
  ok_consumer : consumer p = CRunning →
    pm !! pcluster p = Some id ∨ r = RmWait id ∨ r = RmShutdown id;
  ok_drained : drains = true → consumer p ≠ CRunning → callbacks p = [];
  ok_produce : ∀ ops fin, produce p = PBusy ops fin → Forall (λ o, hop_cluster o = pcluster p) ops;
  ok_callbacks : Forall (λ cb, Forall (λ o, hop_cluster o = pcluster p ∧ consume_hop o = true) cb.1)
                   (callbacks p)
}.

Record inv (s : prober) : Prop := {
  inv_probes : ∀ c id, probes s !! c = Some id → ∃ p, heap s !! id = Some p ∧ pcluster p = c;
  inv_rm : ∀ id, removing (rm s) = Some id →
    ∃ p, heap s !! id = Some p ∧ probes s !! pcluster p = None;
  inv_heap : ∀ id p, heap s !! id = Some p → probe_ok (probes s) (rm s) id p;
  inv_pass : ∀ ids ops now, evalPass s = Some (ids, ops, now) →
    (∀ id, id ∈ ids → ∃ p, heap s !! id = Some p ∧ active s (pcluster p)) ∧
    Forall (λ o, active s (hop_cluster o)) ops;
  inv_clean : ∀ c, ¬ active s c → clean_for c (store s)
}.

Lemma clean_for_hop c h o :
  hop_cluster o ≠ c ∨ (drains = false ∧ consume_hop o = true) →
  clean_for c h → clean_for c (apply_hop h o).
Proof.
  unfold clean_for. intros Ho. destruct drains.
  - apply clean_hop. destruct Ho as [?|[? _]]; done.
  - apply clean_core_hop. destruct Ho as [?|[_ ?]]; auto.
Qed.

Lemma prober_inv_initial : inv (NewProber newHealthStore).
Proof.
  split; simpl; try done.
  intros c _. unfold clean_for. destruct drains; [|apply clean_clean_core]; done.
Qed.

(** Replacing a probe by one of the same cluster. *)
Lemma active_update s id p p' c h :
  heap s !! id = Some p → pcluster p' = pcluster p →
  active (set_store h (set_heap (<[id := p']> (heap s)) s)) c ↔ active s c.
Proof.
  intros Hid Hc. unfold active. cbn.
  assert (Hl := lookup_lt_Some _ _ _ Hid). apply or_iff_compat_l. split.
  - intros (i & q & Hr & Hq & Hqc). apply list_lookup_insert_Some in Hq as [(-> & -> & _)|[_ Hq]].
    + exists i, p. split; [done|]. split; [done|]. congruence.
    + by exists i, q.
  - intros (i & q & Hr & Hq & Hqc). destruct (decide (i = id)) as [->|Hne].
    + exists id, p'. split; [done|]. split; [by apply list_lookup_insert_eq|]. congruence.
    + exists i, q. split; [done|]. split; [by rewrite list_lookup_insert_ne|done].
Qed.

Lemma inv_update s id p p' h :
  inv s → heap s !! id = Some p → pcluster p' = pcluster p →
  probe_ok (probes s) (rm s) id p' →
  (∀ c, ¬ active s c → clean_for c (store s) → clean_for c h) →
  inv (set_store h (set_heap (<[id := p']> (heap s)) s)).
Proof.
  intros [Hp Hr Hh He Hc] Hid Hpc Hok Hst.
  assert (Hl := lookup_lt_Some _ _ _ Hid).
  assert (Hlk : ∀ i q, heap s !! i = Some q → ∃ q', <[id := p']> (heap s) !! i = Some q' ∧ pcluster q' = pcluster q).
  { intros i q Hq. destruct (decide (i = id)) as [->|Hne].
    - exists p'. split; [by apply list_lookup_insert_eq|congruence].
    - exists q. by rewrite list_lookup_insert_ne. }
  split; cbn.
  - intros c i Hi. destruct (Hp c i Hi) as (q & Hq & <-). destruct (Hlk i q Hq) as (q' & ? & ?). eauto.
  - intros i Hi. destruct (Hr i Hi) as (q & Hq & Hn). destruct (Hlk i q Hq) as (q' & ? & E).
    exists q'. by rewrite E.
  - intros i q Hq. apply list_lookup_insert_Some in Hq as [(-> & -> & _)|[_ Hq]]; auto.
  - intros ids ops now Hpass. destruct (He ids ops now Hpass) as [H1 H2]. split.
    + intros i Hi. destruct (H1 i Hi) as (q & Hq & Ha). destruct (Hlk i q Hq) as (q' & ? & E).
      exists q'. split; [done|]. rewrite E. by eapply active_update.
    + eapply Forall_impl; [exact H2|]. intros o Ho. by eapply active_update.
  - intros c Hn. rewrite active_update in Hn by done. auto.
Qed.

(** The same without a write to the store. *)
Lemma inv_update_heap s id p p' :
  inv s → heap s !! id = Some p → pcluster p' = pcluster p →
  probe_ok (probes s) (rm s) id p' → inv (set_heap (<[id := p']> (heap s)) s).
Proof. intros. apply (inv_update s id p p' (store s)); auto. Qed.

Lemma active_owner s id p :
  inv s → heap s !! id = Some p →
  probes s !! pcluster p = Some id ∨ removing (rm s) = Some id → active s (pcluster p).
Proof.
  intros Hinv Hid [H|H]; [left; eauto|right; eauto].
Qed.

Lemma onProbe_inv id f s s' :
  inv s → onProbe id f s = Some s' →
  (∀ p p', heap s !! id = Some p → probe_ok (probes s) (rm s) id p → f p = Some p' →
     pcluster p' = pcluster p ∧ probe_ok (probes s) (rm s) id p') →
  inv s'.
Proof.
  intros Hinv H Hf. unfold onProbe in H. destruct (heap s !! id) as [p|] eqn:Hid; [|done].
  simpl in H. destruct (f p) as [p'|] eqn:Ef; simplify_eq/=.
  destruct (Hf p p') as [Hc Hok]; [done|by apply (inv_heap s Hinv)|done|].
  by eapply inv_update_heap.
Qed.

Lemma inv_beginSend id now start stop err s s' :
  inv s → beginSend id now start stop err s = Some s' → inv s'.
Proof.
  intros Hinv H. eapply onProbe_inv; [exact Hinv|exact H|]. intros p p' Hid [Ht Hc Hd Hp Hcb] Hf.
  destruct (produce p) eqn:Epr; try done.
  destruct (sendOne (pcluster p) now start stop err) as [ops fin] eqn:Es. simplify_eq.
  split; [done|]. split; cbn; try done.
  - intros _. apply Ht. by left.
  - intros ops' fin' [= <- <-]. pose proof (sendOne_hops (pcluster p) now start stop err) as Hs.
    by rewrite Es in Hs.
Qed.

Lemma inv_stepSend id s s' : inv s → stepSend id s = Some s' → inv s'.
Proof.
  intros Hinv H. unfold stepSend in H. destruct (heap s !! id) as [p|] eqn:Hid; [|done]. simpl in H.
  destruct (inv_heap s Hinv id p Hid) as [Ht Hc Hd Hp Hcb].
  destruct (produce p) as [|ops fin|] eqn:Epr; [done| |done].
  assert (Hown : probes s !! pcluster p = Some id ∨ rm s = RmWait id) by (apply Ht; by left).
  destruct ops as [|o ops]; simplify_eq/=.
  - eapply inv_update_heap; [done|done|by destruct fin|].
    destruct fin; (split; cbn; try done; intros _; exact Hown).
  - pose proof (Hp _ _ eq_refl) as Hops. apply Forall_cons in Hops as [Ho Hops].
    eapply inv_update; [done|done|done| |].
    + split; cbn; try done. intros ? ? [= <- <-]. done.
    + intros c Hn. apply clean_for_hop. left. rewrite Ho. intros <-. apply Hn.
      eapply active_owner; [done|done|]. destruct Hown as [?| ->]; [by left|by right].
Qed.

Lemma inv_exitProduce id s s' : inv s → exitProduce id s = Some s' → inv s'.
Proof.
  intros Hinv H. eapply onProbe_inv; [exact Hinv|exact H|]. intros p p' Hid [Ht Hc Hd Hp Hcb] Hf.
  destruct (produce p) eqn:Epr, (cancelled p); simplify_eq. split; [done|]. split; cbn; try done.
  intros [?|?]; [done|]. apply Ht. by right.
Qed.

Lemma inv_consumerStart id s s' : inv s → consumerStart id s = Some s' → inv s'.
Proof.
  intros Hinv H. eapply onProbe_inv; [exact Hinv|exact H|]. intros p p' Hid [Ht Hc Hd Hp Hcb] Hf.
  destruct (retry p) eqn:Er; simplify_eq. split; [done|].
  assert (Hown : probes s !! pcluster p = Some id ∨ rm s = RmWait id) by (apply Ht; by right).
  split; cbn; try done. intros _. destruct Hown; auto.
Qed.

Lemma inv_consumerUp id s s' : inv s → consumerUp id s = Some s' → inv s'.
Proof.
  intros Hinv H. eapply onProbe_inv; [exact Hinv|exact H|]. intros p p' Hid [Ht Hc Hd Hp Hcb] Hf.
  destruct (retry p) eqn:Er; simplify_eq. split; [done|]. split; cbn; try done.
  intros [?|?]; [|done]. apply Ht. by left.
Qed.

Lemma shutConsumer_some c p p' :
  shutConsumer drains c p = Some p' → p' = set_consumer c p ∧ (drains = true → callbacks p = []).
Proof.
  unfold shutConsumer. destruct drains; simpl.
  - case_bool_decide as Hb; [done|]. intros [= <-]. split; [done|]. intros _.
    destruct (callbacks p); [done|]. by destruct Hb.
  - intros [= <-]. done.
Qed.

Lemma inv_consumerFail id s s' : inv s → consumerFail drains id s = Some s' → inv s'.
Proof.
  intros Hinv H. eapply onProbe_inv; [exact Hinv|exact H|]. intros p p' Hid [Ht Hc Hd Hp Hcb] Hf.
  destruct (retry p) eqn:Er; [done| |done].
  destruct (shutConsumer drains CNone p) as [q|] eqn:Eq; simplify_eq/=.
  apply shutConsumer_some in Eq as [-> Hdr]. split; [done|]. split; cbn; try done.
  - intros _. apply Ht. by right.
  - auto.
Qed.

Lemma inv_exitRetry id s s' : inv s → exitRetry id s = Some s' → inv s'.
Proof.
  intros Hinv H. eapply onProbe_inv; [exact Hinv|exact H|]. intros p p' Hid [Ht Hc Hd Hp Hcb] Hf.
  destruct (retry p) eqn:Er, (cancelled p); simplify_eq. split; [done|]. split; cbn; try done.
  intros [?|?]; [|done]. apply Ht. by left.
Qed.

Lemma inv_beginCallback id now msgs s s' : inv s → beginCallback id now msgs s = Some s' → inv s'.
Proof.
  intros Hinv H. eapply onProbe_inv; [exact Hinv|exact H|]. intros p p' Hid [Ht Hc Hd Hp Hcb] Hf.
  destruct (consumer p) eqn:Er; simplify_eq. split; [done|]. split; cbn; try done.
  - auto.
  - apply Forall_app. split; [done|]. repeat constructor. apply handleMessage_hops.
Qed.

Lemma inv_stepCallback id j s s' : inv s → stepCallback id j s = Some s' → inv s'.
Proof.
  intros Hinv H. unfold stepCallback in H. destruct (heap s !! id) as [p|] eqn:Hid; [|done]. simpl in H.
  destruct (inv_heap s Hinv id p Hid) as [Ht Hc Hd Hp Hcb].
  destruct (callbacks p !! j) as [[ops now]|] eqn:Ej; [|done]. simpl in H.
  assert (Hne : callbacks p ≠ []) by (intros E; rewrite E in Ej; done).
  pose proof (Forall_lookup_1 _ _ _ _ Hcb Ej) as Hops. simpl in Hops.
  destruct ops as [|o ops]; simplify_eq/=.
  - eapply inv_update_heap; [done|done|done|]. split; cbn; try done.
    + intros Hdr Hco. by rewrite (Hd Hdr Hco).
    + by apply Forall_delete.
  - apply Forall_cons in Hops as [[Ho Hk] Hops]. eapply inv_update; [done|done|done| |].
    + split; cbn; try done; [|by apply Forall_insert].
      intros Hdr Hco. by destruct (Hne (Hd Hdr Hco)).
    + intros c Hn. apply clean_for_hop. destruct drains eqn:Edr; [left|by right].
      rewrite Ho. intros <-. apply Hn. eapply active_owner; [done|done|].
      destruct (consumer p) eqn:Eco; [by destruct Hne; auto| |by destruct Hne; auto].
      destruct Hc as [?|[-> | ->]]; [done|by left|by right|by right].
Qed.

(** Changing the evaluation pass. *)
Lemma inv_set_pass s e :
  inv s →
  (∀ ids ops now, e = Some (ids, ops, now) →
    (∀ id, id ∈ ids → ∃ p, heap s !! id = Some p ∧ active s (pcluster p)) ∧
    Forall (λ o, active s (hop_cluster o)) ops) →
  inv (set_pass e s).
Proof. intros [Hp Hr Hh He Hc] Hpass. by split. Qed.

Lemma inv_evalTick now s s' : inv s → evalTick now s = Some s' → inv s'.
Proof.
  intros Hinv H. unfold evalTick in H. destruct (evalPass s); simplify_eq.
  apply inv_set_pass; [done|]. intros ids ops t [= <- <- <-]. split; [|constructor].
  intros id Hin. apply list_elem_of_fmap in Hin as ([c id'] & -> & Hin). apply elem_of_range in Hin.
  destruct (inv_probes s Hinv c id' Hin) as (p & Hp & Hc). exists p. split; [done|]. rewrite Hc. left. eauto.
Qed.

Lemma inv_stepEval s s' : inv s → stepEval recency s = Some s' → inv s'.
Proof.
  intros Hinv H. unfold stepEval in H. destruct (evalPass s) as [[[ids ops] now]|] eqn:Ep; [|done].
  destruct (inv_pass s Hinv ids ops now Ep) as [Hids Hops].
  destruct ops as [|o ops]; [destruct ids as [|id ids]|].
  - simplify_eq. by apply inv_set_pass.
  - destruct (Hids id) as (p & Hp & Ha); [left|]. rewrite Hp in H. simplify_eq/=.
    apply inv_set_pass; [done|]. intros ids' ops' t [= <- <- <-]. split.
    + intros i Hi. apply Hids. by right.
    + eapply Forall_impl; [apply evalOnce_hops|]. by intros o ->.
  - assert (s' = set_store (apply_hop (store s) o) (set_pass (Some (ids, ops, now)) s)) as ->
      by (destruct ids; congruence).
    apply Forall_cons in Hops as [Ho Hops].
    assert (Hinv' : inv (set_pass (Some (ids, ops, now)) s)).
    { apply inv_set_pass; [done|]. by intros ? ? ? [= <- <- <-]. }
    destruct Hinv' as [Hp Hr Hh He Hc]. split; try done.
    intros c Hn. apply clean_for_hop; [left; intros <-; by apply Hn|]. by apply Hc.
Qed.

Lemma inv_addProbe c s s' : inv s → addProbe c s = Some s' → inv s'.
Proof.
  intros Hinv H. unfold addProbe in H. destruct (probes s !! c) eqn:Hpc; [done|].
  destruct (rm s) eqn:Hrm; simplify_eq. destruct Hinv as [Hp Hr Hh He Hc].
  set (n := length (heap s)).
  assert (Hact : ∀ c', active s c' → is_Some (<[c := n]> (probes s) !! c')).
  { intros c' [Ha|(id & p & Hx & _)]; [|by rewrite Hrm in Hx].
    apply lookup_insert_is_Some'. by right. }
  assert (Hlk : ∀ i q, heap s !! i = Some q → (heap s ++ [newProbe c]) !! i = Some q).
  { intros i q Hq. by apply lookup_app_l_Some. }
  split; cbn.
  - intros c' id Hid. destruct (decide (c' = c)) as [->|Hne].
    + rewrite lookup_insert_eq in Hid. injection Hid as <-. exists (newProbe c).
      split; [|done]. unfold n. by rewrite list_lookup_middle.
    + rewrite lookup_insert_ne in Hid by done. destruct (Hp c' id Hid) as (p & ? & ?).
      exists p. auto.
  - done.
  - intros id p Hid. apply lookup_app_Some in Hid as [Hid|[Hle Hid]].
    + destruct (Hh id p Hid) as [Ht Hco Hd Hpr Hcb]. split; try done.
      * intros Hx. destruct (Ht Hx) as [E|E]; [left|congruence].
        rewrite lookup_insert_ne; [done|]. intros Heq. congruence.
      * intros Hx. destruct (Hco Hx) as [E|[E|E]]; [left|congruence|congruence].
        rewrite lookup_insert_ne; [done|]. intros Heq. congruence.
    + apply list_lookup_singleton_Some in Hid as [Hz <-].
      assert (id = n) as -> by (unfold n; lia).
      split; cbn; try done. intros _. left. apply lookup_insert_eq.
  - intros ids ops now Hpass. destruct (He ids ops now Hpass) as [H1 H2]. split.
    + intros i Hi. destruct (H1 i Hi) as (q & Hq & Ha). exists q. split; [auto|]. left. auto.
    + eapply Forall_impl; [exact H2|]. intros o Ho. left. auto.
  - intros c' Hn. apply Hc. intros Ha. apply Hn. left. auto.
Qed.

Lemma inv_removeProbe c s s' : inv s → removeProbe c s = Some s' → inv s'.
Proof.
  intros Hinv H. unfold removeProbe in H. destruct (probes s !! c) as [id|] eqn:Hpc; [|done].
  destruct (rm s) eqn:Hrm; try done.
  destruct (inv_probes s Hinv c id Hpc) as (p & Hid & Hpcl). rewrite Hid in H. simplify_eq/=.
  set (s1 := set_heap (<[id := set_cancelled p]> (heap s)) s).
  assert (Hinv1 : inv s1).
  { eapply inv_update_heap; [done|done|done|]. destruct (inv_heap s Hinv id p Hid). by split. }
  assert (Hid1 : heap s1 !! id = Some (set_cancelled p)).
  { cbn. apply list_lookup_insert_eq. eauto using lookup_lt_Some. }
  destruct Hinv1 as [Hp Hr Hh He Hc].
  set (s2 := mkProber (delete (pcluster p) (probes s)) (<[id := set_cancelled p]> (heap s))
              (evalPass s) (RmWait id) (store s)).
  assert (Hact : ∀ c', active s1 c' → active s2 c').
  { intros c' [Ha|(i & q & Hx & _)]; [|cbn in Hx; by rewrite Hrm in Hx].
    destruct (decide (c' = pcluster p)) as [->|Hne].
    - right. exists id, (set_cancelled p). auto.
    - left. cbn. by rewrite lookup_delete_ne. }
  split; cbn.
  - intros c' i Hi. apply lookup_delete_Some in Hi as [_ Hi]. by apply Hp.
  - intros i [= <-]. exists (set_cancelled p). split; [done|]. apply lookup_delete_eq.
  - intros i q Hq. destruct (Hh i q Hq) as [Ht Hco Hd Hpr Hcb].
    assert (Hm : probes s !! pcluster q = Some i →
                 delete (pcluster p) (probes s) !! pcluster q = Some i ∨ RmWait id = RmWait i).
    { intros E. destruct (decide (pcluster q = pcluster p)) as [Hq'|Hne].
      - right. rewrite Hq' in E. congruence.
      - left. by rewrite lookup_delete_ne. }
    split; try done.
    + intros Hx. destruct (Ht Hx) as [E|E]; [auto|]. cbn in E. congruence.
    + intros Hx. destruct (Hco Hx) as [E|[E|E]]; [destruct (Hm E); auto|cbn in E; congruence..].
  - intros ids ops now Hpass. destruct (He ids ops now Hpass) as [H1 H2]. split.
    + intros i Hi. destruct (H1 i Hi) as (q & Hq & Ha). eauto.
    + eapply Forall_impl; [exact H2|]. intros o Ho. auto.
  - intros c' Hn. apply Hc. auto.
Qed.

(** A step of [removeProbe] that keeps its probe. *)
Lemma inv_set_rm s id p r :
  inv s → removing (rm s) = Some id → removing r = Some id → heap s !! id = Some p →
  probe_ok (probes s) r id p → inv (set_rm r s).
Proof.
  intros [Hp Hr Hh He Hc] Hrm Hr' Hid Hok.
  assert (Hact : ∀ c, active (set_rm r s) c ↔ active s c).
  { intros c. unfold active. cbn. by rewrite Hrm, Hr'. }
  split; cbn; try done.
  - intros i Hi. apply Hr. congruence.
  - intros i q Hq. destruct (decide (i = id)) as [->|Hne]; [congruence|].
    destruct (Hh i q Hq) as [Ht Hco Hd Hpr Hcb].
    assert (Hni : ∀ r', removing r' = Some id → r' ≠ RmWait i ∧ r' ≠ RmShutdown i).
    { intros r' E. split; intros ->; simpl in E; congruence. }
    split; try done.
    + intros Hx. destruct (Ht Hx) as [E|E]; [auto|]. by destruct (Hni _ Hrm).
    + intros Hx. destruct (Hco Hx) as [E|[E|E]]; [auto|by destruct (Hni _ Hrm)..].
  - intros ids ops now Hpass. destruct (He ids ops now Hpass) as [H1 H2]. split.
    + intros i Hi. destruct (H1 i Hi) as (q & Hq & Ha). exists q. by rewrite Hact.
    + eapply Forall_impl; [exact H2|]. intros o Ho. by apply Hact.
  - intros c Hn. apply Hc. by rewrite <- Hact.
Qed.

Lemma inv_removeWait s s' : inv s → removeWait s = Some s' → inv s'.
Proof.
  intros Hinv H. unfold removeWait in H. destruct (rm s) as [|id|id|id] eqn:Hrm; try done.
  destruct (heap s !! id) as [p|] eqn:Hid; [|done]. simpl in H.
  destruct (produce p) eqn:E1, (retry p) eqn:E2; simplify_eq.
  destruct (inv_heap s Hinv id p Hid) as [Ht Hco Hd Hpr Hcb].
  eapply inv_set_rm; [done|by rewrite Hrm|done|done|]. split; try done.
  - intros [?|?]; congruence.
  - auto.
Qed.

Lemma inv_removeShutdown s s' : inv s → removeShutdown drains s = Some s' → inv s'.
Proof.
  intros Hinv H. unfold removeShutdown in H. destruct (rm s) as [|id|id|id] eqn:Hrm; try done.
  destruct (heap s !! id) as [p|] eqn:Hid; [|done]. simpl in H.
  destruct (inv_heap s Hinv id p Hid) as [Ht Hco Hd Hpr Hcb].
  destruct (inv_rm s Hinv id) as (p0 & Hid' & Hnone); [by rewrite Hrm|].
  rewrite Hid in Hid'. injection Hid' as <-.
  assert (Hth : ¬ (produce p ≠ PExited ∨ retry p ≠ RExited)).
  { intros Hx. rewrite Hrm in Ht. destruct (Ht Hx); congruence. }
  assert (∃ p', s' = set_rm (RmClear id) (set_heap (<[id := p']> (heap s)) s) ∧
            consumer p' ≠ CRunning ∧ (drains = true → callbacks p' = []) ∧
            pcluster p' = pcluster p ∧ produce p' = produce p ∧ retry p' = retry p ∧
            callbacks p' = callbacks p) as (p' & -> & Hc' & Hd' & Hpc' & Hp1 & Hp2 & Hp3).
  { destruct (consumer p) eqn:Eco; simplify_eq/=.
    - exists p. split; [done|]. split; [by rewrite Eco|]. split; [|done].
      intros Hdr. by apply Hd.
    - destruct (shutConsumer drains CShut p) as [q|] eqn:Eq; simplify_eq/=.
      apply shutConsumer_some in Eq as [-> ?]. eexists. split; [reflexivity|]. done.
    - destruct (shutConsumer drains CShut p) as [q|] eqn:Eq; simplify_eq/=.
      apply shutConsumer_some in Eq as [-> ?]. eexists. split; [reflexivity|]. done. }
  assert (Hok : ∀ r, probe_ok (probes s) r id p').
  { intros r. split; rewrite ?Hp1, ?Hp2, ?Hpc'; [by intros ?%Hth|done| |done|by rewrite Hp3].
    intros Hdr _. auto. }
  eapply (inv_set_rm _ id p'); [by eapply inv_update_heap|by cbn; rewrite Hrm|done| |apply Hok].
  cbn. apply list_lookup_insert_eq. eauto using lookup_lt_Some.
Qed.

Lemma inv_removeClear s s' : inv s → removeClear s = Some s' → inv s'.
Proof.
  intros Hinv H. unfold removeClear in H. destruct (rm s) as [|id|id|id] eqn:Hrm; try done.
  destruct (evalPass s) eqn:Hpass; [done|].
  destruct (inv_rm s Hinv id) as (p & Hid & Hnone); [by rewrite Hrm|].
  rewrite Hid in H. simplify_eq/=. destruct Hinv as [Hp Hr Hh He Hc].
  split; cbn; try done.
  - intros i q Hq. destruct (Hh i q Hq) as [Ht Hco Hd Hpr Hcb]. rewrite Hrm in *. split; try done.
    + intros Hx. destruct (Ht Hx); [auto|congruence].
    + intros Hx. destruct (Hco Hx) as [?|[?|?]]; [auto|congruence|congruence].
  - by rewrite Hpass.
  - intros c Hn. destruct (decide (c = pcluster p)) as [->|Hne].
    + unfold clean_for. destruct drains; [|apply clean_clean_core]; apply ClearHealthCluster_clean.
    + assert (Hcl : clean_for c (store s)).
      { apply Hc. intros [Ha|(i & q & Hi & Hq & Hqc)]; [apply Hn; by left|].
        rewrite Hrm in Hi. simpl in Hi. congruence. }
      pose proof (ClearHealthCluster_other (pcluster p) c (store s) Hne) as (E1 & E2 & E3 & E4 & E5 & E6).
      unfold clean_for in *. destruct drains.
      * destruct Hcl as (H1 & H2 & H3 & H4 & H5 & H6).
        repeat split; intros; rewrite ?E1, ?E2, ?E3, ?E4, ?E5, ?E6; auto.
      * destruct Hcl as (H1 & H3 & H4 & H5 & H6).
        repeat split; intros; rewrite ?E1, ?E3, ?E4, ?E5, ?E6; auto.
Qed.

Lemma prober_inv_step s s' : inv s → pstep recency drains s s' → inv s'.
Proof.
  intros Hinv [l H]. destruct l; simpl in H; revert H.
  - by apply inv_addProbe.
  - by apply inv_beginSend.
  - by apply inv_stepSend.
  - by apply inv_exitProduce.
  - by apply inv_consumerStart.
  - by apply inv_consumerUp.
  - by apply inv_consumerFail.
  - by apply inv_exitRetry.
  - by apply inv_beginCallback.
  - by apply inv_stepCallback.
  - by apply inv_evalTick.
  - by apply inv_stepEval.
  - by apply inv_removeProbe.
  - by apply inv_removeWait.
  - by apply inv_removeShutdown.
  - by apply inv_removeClear.
Qed.

Lemma prober_inv_reachable s : reachable recency drains s → inv s.
Proof. intros H. eapply rtc_invariant; [apply prober_inv_step|exact H|apply prober_inv_initial]. Qed.
End invariant.

(** ** Properties of the goroutines *)

Section properties.
Context `{GR : GoRange}.

(** C9: no ghost samples.  In every interleaving of produce loops, consumer
    callbacks, evaluation passes, additions and removals, a cluster that has no
    probe and is not being removed has no sample written by a produce loop or an
    evaluation: no produce count, no status, no error, no produce or overall
    latency or success.  When the client's consumer shutdown waits for running
    callbacks it has no sample at all, and is not listed by /healthz. *)
Theorem no_ghost_samples recency drains s c :
  reachable recency drains s → ¬ active s c →
  clean_core c (store s) ∧
  (drains = true → clean c (store s) ∧ Clusters (HealthDetail (store s)) !! c = None).
Proof.
  intros Hr Hn. pose proof (inv_clean _ _ (prober_inv_reachable recency drains s Hr) c Hn) as Hc.
  unfold clean_for in Hc. destruct drains.
  - split; [by apply clean_clean_core|]. intros _. split; [done|].
    destruct (Clusters _ !! c) eqn:E; [|done]. exfalso.
    apply (clean_not_known c (store s) Hc), Clusters_known. by rewrite E.
  - done.
Qed.

(** A removed probe is quiet.  Once a probe is neither in the map nor being
    removed, its produce loop and its consumer start loop have returned and its
    consumer, if one was ever started, has been shut down; with a client that
    waits for callbacks none of them is running.  While it is being removed,
    nothing is shut down before both loops have returned. *)
Theorem removed_probe_quiet recency drains s id p :
  reachable recency drains s → heap s !! id = Some p →
  (probes s !! pcluster p ≠ Some id → removing (rm s) ≠ Some id →
     produce p = PExited ∧ retry p = RExited ∧ consumer p ≠ CRunning ∧
     (drains = true → callbacks p = [])) ∧
  (rm s = RmShutdown id ∨ rm s = RmClear id → produce p = PExited ∧ retry p = RExited) ∧
  (rm s = RmClear id → consumer p ≠ CRunning).
Proof.
  intros Hr Hid. pose proof (prober_inv_reachable recency drains s Hr) as Hinv.
  destruct (inv_heap _ _ Hinv id p Hid) as [Ht Hco Hd _ _].
  assert (Hthreads : (probes s !! pcluster p ≠ Some id ∧ rm s ≠ RmWait id) →
                     produce p = PExited ∧ retry p = RExited).
  { intros [H1 H2]. destruct (produce p); [exfalso; destruct Ht; auto; by left|exfalso; destruct Ht; auto; by left|].
    destruct (retry p); [exfalso; destruct Ht; auto; by right|exfalso; destruct Ht; auto; by right|done]. }
  assert (Hnm : ∀ r, rm s = r → removing r = Some id → probes s !! pcluster p ≠ Some id).
  { intros r <- Hrm. destruct (inv_rm _ _ Hinv id Hrm) as (q & Hq & Hnone). congruence. }
  split; [|split].
  - intros H1 H2. destruct Hthreads as [? ?]; [split; [done|intros E; by rewrite E in H2]|].
    assert (Hcr : consumer p ≠ CRunning).
    { intros E. destruct (Hco E) as [?|[E'|E']]; [done|by rewrite E' in H2..]. }
    auto.
  - intros Hrm. apply Hthreads. split; [destruct Hrm as [E|E]; by eapply Hnm|].
    destruct Hrm; congruence.
  - intros Hrm E. destruct (Hco E) as [?|[?|?]]; [by eapply (Hnm _ Hrm)|congruence|congruence].
Qed.
End properties.

(** ** Properties of the probe operations *)

(** Resolve lookups in a chain of inserts. *)
Ltac lookups :=
  repeat first [rewrite lookup_insert_eq | rewrite lookup_insert_ne by (intros [=]; congruence)].

(** Case analysis on a check name in a list of names. *)
Ltac checks H :=
  repeat (apply elem_of_cons in H as [->|H]; [lookups; done|]); by apply elem_of_nil in H.

(** One evaluation.  [evalOnce] makes the status of the produce and the
    consume check 1 exactly when the check succeeded at some time less than the
    recency ago, and the overall status 1 exactly when both are; an unhealthy
    check reports latency 0, the consume error is empty exactly when the check
    is healthy, a healthy overall result is stamped with the evaluation time and
    an unhealthy one keeps its old stamp; the counters, the produce error and
    every other cluster are untouched. *)
Theorem evalOnce_spec recency c lp lc now h :
  let h' := foldl apply_hop h (evalOnce recency c lp lc now) in
  let ok k := if decide (k = "produce") then fresh recency now lp
              else if decide (k = "consume") then fresh recency now lc
              else fresh recency now lp && fresh recency now lc in
  (∀ k, k ∈ ["produce"; "consume"; "overall"] → status h' !! (c, k) = Some (boolToInt (ok k))) ∧
  (∀ k, k ∈ ["produce"; "consume"] →
     latency h' !! (c, k) = if ok k then latency h !! (c, k) else Some fzero) ∧
  (lastError h' !! (c, "consume") = Some EmptyString ↔ ok "consume" = true) ∧
  lastError h' !! (c, "produce") = lastError h !! (c, "produce") ∧
  lastSuccess h' !! (c, "overall") =
    (if ok "overall" then Some (Unix now) else lastSuccess h !! (c, "overall")) ∧
  produceCount h' = produceCount h ∧ consumeCount h' = consumeCount h ∧
  ∀ c', c' ≠ c → same_cluster c' h' h.
Proof.
  intros h' ok. unfold h', evalOnce, ok.
  destruct (fresh recency now lp), (fresh recency now lc);
  cbn [app foldl apply_hop SetHealthStatus SetHealthLatency SetHealthLastSuccess SetHealthLastError
       produceCount consumeCount status latency lastSuccess lastError andb boolToInt].
  all: split; [intros k Hk; checks Hk|].
  all: split; [intros k Hk; checks Hk|].
  all: split; [lookups; split; done|].
  all: repeat (split; [by lookups|]); unfold same_cluster; intros; repeat split; intros; cbn; by lookups.
Qed.

(** The probe measures the time its message travelled.  The body of a
    message sent at [sent] is read back as that instant cut to milliseconds, and
    receiving it at [now] records one more consumed message, a consume latency
    of the time since then in seconds, and a consume success at [now]. *)
Theorem probe_message_roundtrip c sent now h :
  in_int 64 (sent / 1000000) → sent / 1000000 ≠ -62135596800000 →
  let bt := sent - sent mod 1000000 in
  let h' := foldl apply_hop h (handleMessage c now [probeBody sent]) in
  parseBodyTs (probeBody sent) = bt ∧
  consumeCount h' !! c = Some (int64 (default 0 (consumeCount h !! c) + 1)) ∧
  latency h' !! (c, "consume") = Some (seconds (timeSub now bt)) ∧
  lastSuccess h' !! (c, "consume") = Some (Unix now).
Proof.
  intros Hin Hz bt h'.
  assert (Hbt : parseBodyTs (probeBody sent) = bt).
  { unfold parseBodyTs, probeBody, UnixMilli. rewrite str_of_bytes_of.
    unfold int64. rewrite swrap_id by (done || lia). rewrite ParseInt_FormatInt by done.
    unfold fromUnixMilli, bt. pose proof (Z.div_mod sent 1000000). lia. }
  split; [done|]. unfold h', handleMessage, handleOne. cbn [mbind list_bind]. rewrite Hbt.
  assert (IsZero bt = false) as ->.
  { apply Z.eqb_neq. unfold zeroTime, bt. pose proof (Z.div_mod sent 1000000). lia. }
  cbn [app foldl apply_hop AddHealthConsume SetHealthLatency SetHealthLastSuccess
       consumeCount latency lastSuccess]. by repeat (split; [by lookups|]); lookups.
Qed.

Lemma probe_message_roundtrip_witness :
  latency (foldl apply_hop newHealthStore (handleMessage "c" 3000000 [probeBody 1000000]))
    !! ("c", "consume") = Some (seconds 2000000).
Proof.
  apply (probe_message_roundtrip "c" 1000000 3000000 newHealthStore); [|done].
  split; [vm_compute; discriminate|vm_compute; reflexivity].
Defined.

(** ** Cluster reconciliation *)

Section reconcile.
Context `{GR : GoRange}.

(** The loop over the discovered set: a name without a probe gets a new one. *)
Definition addLoop (l : list (string * unit)) (st : gmap string nat * nat) : gmap string nat * nat :=
  foldl (λ st kv, match st.1 !! kv.1 with
                  | Some _ => st
                  | None => (<[kv.1 := st.2]> st.1, S st.2)
                  end) st l.

(** The loop over the names that had a probe before. *)
Definition removeLoop (discovered : gmap string unit) (l : list string) (m : gmap string nat)
    : gmap string nat :=
  foldl (λ m c, match discovered !! c with Some _ => m | None => delete c m end) m l.

(** [reconcileClusters] on the map of probes; [next] numbers new probes. *)
Definition reconcileClusters (discovered : list string) (st : gmap string nat * nat)
    : gmap string nat * nat :=
  match discovered with
  | [] => st
  | _ =>
      let discoveredSet := foldl (λ s c, <[c := tt]> s) ∅ discovered in
      let existing := (range st.1).*1 in
      let st' := addLoop (range discoveredSet) st in
      (removeLoop discoveredSet existing st'.1, st'.2)
  end.

(** One round of [Start] or [refreshLoop]: a failed discovery changes nothing. *)
Definition refreshOnce (discovery : outcome (list string)) (st : gmap string nat * nat)
    : gmap string nat * nat :=
  match discovery with Ret clusters => reconcileClusters clusters st | _ => st end.

(** [adminLister.ListClusters] on the table of the broker topology. *)
Definition ListClusters {V} (clusterAddrTable : outcome (gmap string V)) : outcome (list string) :=
  table ← clusterAddrTable; Ret (range table).*1.

Lemma addLoop_cons c u l st :
  addLoop ((c, u) :: l) st =
  addLoop l (match st.1 !! c with Some _ => st | None => (<[c := st.2]> st.1, S st.2) end).
Proof. reflexivity. Qed.

Lemma removeLoop_cons d c l m0 :
  removeLoop d (c :: l) m0 = removeLoop d l (match d !! c with Some _ => m0 | None => delete c m0 end).
Proof. reflexivity. Qed.

Lemma addLoop_keeps l st c id : st.1 !! c = Some id → (addLoop l st).1 !! c = Some id.
Proof.
  revert st. induction l as [|[c' u] l IH]; intros st Hc; [done|]. simpl. apply IH.
  destruct (st.1 !! c') eqn:E; [done|]. cbn [fst]. rewrite lookup_insert_ne; [done|]. congruence.
Qed.

Lemma addLoop_dom l st c :
  is_Some ((addLoop l st).1 !! c) ↔ is_Some (st.1 !! c) ∨ c ∈ l.*1.
Proof.
  revert st. induction l as [|[c' u] l IH]; intros st.
  - split; [by left|]. intros [?|H]; [done|]. by apply elem_of_nil in H.
  - rewrite addLoop_cons, IH, fmap_cons, elem_of_cons. cbn [fst].
    destruct (st.1 !! c') eqn:E.
    + split; [tauto|]. intros [?|[->|?]]; [by left|left; eauto|by right].
    + cbn [fst]. rewrite lookup_insert_is_Some'. intuition congruence.
Qed.

Lemma removeLoop_lookup d l m0 c :
  removeLoop d l m0 !! c = if decide (c ∈ l ∧ d !! c = None) then None else m0 !! c.
Proof.
  revert m0. induction l as [|c' l IH]; intros m0.
  - rewrite decide_False; [done|]. intros [H _]. by apply elem_of_nil in H.
  - rewrite removeLoop_cons, IH. destruct (decide (c ∈ l ∧ d !! c = None)) as [H|H].
    + rewrite decide_True; [done|]. rewrite elem_of_cons. tauto.
    + destruct (decide (c = c')) as [->|Hne].
      * destruct (d !! c') eqn:E.
        -- rewrite decide_False; [done|]. intros [_ ?]. done.
        -- rewrite lookup_delete_eq, decide_True; [done|]. split; [left|done].
      * rewrite (decide_False (P := c ∈ c' :: l ∧ d !! c = None)).
        -- destruct (d !! c'); [done|]. by rewrite lookup_delete_ne.
        -- rewrite elem_of_cons. tauto.
Qed.

Lemma discoveredSet_lookup l c :
  is_Some (foldl (λ (s : gmap string unit) c, <[c := tt]> s) ∅ l !! c) ↔ c ∈ l.
Proof.
  rewrite (set_fold id l ∅ c), list_fmap_id, lookup_empty.
  split; [intros [?|[? ?]]; done|by left].
Qed.

Lemma addLoop_fresh l st c id :
  st.1 !! c = None → (addLoop l st).1 !! c = Some id → (st.2 ≤ id)%nat.
Proof.
  revert st. induction l as [|[c' u] l IH]; intros st Hn Hc; [cbn in Hc; congruence|].
  rewrite addLoop_cons in Hc. destruct (st.1 !! c') eqn:E; [by apply IH|].
  destruct (decide (c = c')) as [->|Hne].
  - rewrite (addLoop_keeps _ _ c' st.2) in Hc by apply lookup_insert_eq. by simplify_eq.
  - apply IH in Hc; [cbn [snd] in Hc; lia|]. cbn [fst]. by rewrite lookup_insert_ne.
Qed.

Lemma reconcile_lookup d st c :
  d ≠ [] →
  (reconcileClusters d st).1 !! c =
  if decide (is_Some (st.1 !! c) ∧ c ∉ d) then None
  else (addLoop (range (foldl (λ (s : gmap string unit) c, <[c := tt]> s) ∅ d)) st).1 !! c.
Proof.
  intros Hd. unfold reconcileClusters. destruct d as [|c0 d]; [done|]. cbv zeta. cbn [fst].
  rewrite removeLoop_lookup. apply decide_ext.
  rewrite (elem_of_fmap_range st.1 fst). cbn [fst]. rewrite eq_None_not_Some, discoveredSet_lookup.
  apply and_iff_compat_r. split; [intros (? & ? & ? & ->); eauto|intros [? ?]; eauto].
Qed.

(** C37: reconciliation.  After a round with a non-empty discovery exactly the
    discovered clusters have a probe; a cluster that had one keeps that very
    probe, so its counters go on, and a new cluster gets a fresh one; a round
    whose discovery failed or came back empty changes nothing. *)
Theorem reconcileClusters_spec discovered st :
  let st' := refreshOnce (Ret discovered) st in
  (discovered = [] → st' = st) ∧
  (discovered ≠ [] → ∀ c, is_Some (st'.1 !! c) ↔ c ∈ discovered) ∧
  (∀ c id, c ∈ discovered → st.1 !! c = Some id → st'.1 !! c = Some id) ∧
  (∀ c id, st.1 !! c = None → st'.1 !! c = Some id → (st.2 ≤ id)%nat) ∧
  (∀ e, refreshOnce (Fail e) st = st).
Proof.
  cbn [refreshOnce]. destruct (decide (discovered = [])) as [->|Hd].
  { split; [done|]. split; [done|]. split; [by intros c id H%elem_of_nil|]. split; [|done].
    intros c id Hn Hs. cbn in Hs. congruence. }
  split; [done|]. split; [|split; [|split; [|done]]].
  - intros _ c. rewrite reconcile_lookup by done. case_decide as Hx.
    + split; [by intros []|]. tauto.
    + rewrite addLoop_dom, (elem_of_fmap_range _ fst). cbn [fst].
      assert (Hs : (∃ k v, foldl (λ (s : gmap string unit) c, <[c := tt]> s) ∅ discovered !! k = Some v
                   ∧ c = k) ↔ c ∈ discovered).
      { rewrite <- discoveredSet_lookup. split; [intros (? & ? & ? & ->); eauto|intros [? ?]; eauto]. }
      rewrite Hs. destruct (decide (c ∈ discovered)); tauto.
  - intros c id Hc Hs. rewrite reconcile_lookup by done.
    rewrite decide_False by tauto. by apply addLoop_keeps.
  - intros c id Hn Hs. rewrite reconcile_lookup in Hs by done.
    rewrite decide_False in Hs by (rewrite Hn; intros [[? ?] _]; done). by apply addLoop_fresh in Hs.
Qed.
End reconcile.

(** ** splitNamesrv *)

Definition splitNamesrv (s : string) : list string :=
  let s := ReplaceAll s ";" "," in
  foldl (λ out p, let t := TrimSpace p in if decide (t = EmptyString) then out else out ++ [t])
        [] (Split "," s).

Example splitNamesrv_mixed :
  splitNamesrv "10.0.0.1:9876; 10.0.0.2:9876 ,,10.0.0.3:9876"
  = ["10.0.0.1:9876"; "10.0.0.2:9876"; "10.0.0.3:9876"].
Proof. vm_compute. reflexivity. Qed.

(** ** Concrete runs *)

(** A probe is added and sends a message; an evaluation pass starts, the probe is
    removed while the pass is running, and the clear waits for it. *)
Definition race_run : list label :=
  [LAdd "c"; LSend 0 5 5 6 None; LProduce 0; LProduce 0; LProduce 0; LProduce 0; LProduce 0;
   LConsumerStart 0; LConsumerUp 0; LEval 7; LRemove "c"; LProduceExit 0; LRemoveWait;
   LRemoveShutdown; LEvalStep; LEvalStep; LEvalStep; LEvalStep; LEvalStep; LEvalStep; LEvalStep;
   LRemoveClear].

Definition race_state : prober :=
  default (NewProber newHealthStore)
    (lts_run (@step std_goRange 10 true) race_run (NewProber newHealthStore)).

Lemma race_reachable : @reachable std_goRange 10 true race_state.
Proof. apply (lts_run_rtc (@step std_goRange 10 true) race_run). vm_compute. reflexivity. Qed.

(** The clear is refused while the pass holds the mutex. *)
Example race_blocked :
  lts_run (@step std_goRange 10 true) (take 15 race_run ++ [LRemoveClear]) (NewProber newHealthStore) = None.
Proof. vm_compute. reflexivity. Qed.

Lemma race_inactive : ¬ active race_state "c".
Proof.
  intros [[? H]|(id & p & H & _)]; [vm_compute in H; discriminate|vm_compute in H; discriminate].
Qed.

Lemma no_ghost_samples_witness :
  Clusters (@HealthDetail std_goRange (store race_state)) !! "c" = None.
Proof.
  exact (proj2 (proj2 (@no_ghost_samples std_goRange 10 true race_state "c"
    race_reachable race_inactive) eq_refl)).
Defined.

Lemma removed_probe_quiet_witness :
  ∃ p, heap race_state !! 0%nat = Some p ∧ produce p = PExited ∧ consumer p = CShut.
Proof.
  eexists. split; [vm_compute; reflexivity|].
  destruct (@removed_probe_quiet std_goRange 10 true race_state 0 _ race_reachable
              ltac:(vm_compute; reflexivity)) as [H _].
  destruct H as (H & _); [vm_compute; discriminate|vm_compute; discriminate|]. split; [exact H|reflexivity].
Defined.

(** With a client whose consumer shutdown does not wait, a callback that was
    running can write after the clear: the cluster is back in /healthz. *)
Example late_callback :
  Clusters ∘ @HealthDetail std_goRange ∘ store <$>
    lts_run (@step std_goRange 10 false)
      [LAdd "c"; LConsumerStart 0; LConsumerUp 0; LCallback 0 5 [[]]; LRemove "c"; LProduceExit 0;
       LRemoveWait; LRemoveShutdown; LRemoveClear; LCallbackStep 0 0] (NewProber newHealthStore)
  = Some {["c" := mkCluster "fail" (mkCheck "fail" fzero 0 "") (mkCheck "fail" fzero 0 "")]}.
Proof. vm_compute. reflexivity. Qed.
