(* ===== verification/Lifecycle.v ===== *)
(** * The prober's life: internal/health/lifecycle.go

    [Start], [evalLoop], [refreshLoop] and [Shutdown] as a labelled transition
    system on top of the one of the probes.  A controller step is one action of
    a loop or of [Start]/[Shutdown]: taking a branch of a [select], one
    iteration of a [reconcileClusters] loop, passing [wg.Wait].  The steps of
    the probes' own goroutines go on in between. *)

From Stdlib Require Import ZArith Lia Ascii String.
From S2P Require Import Prelude GoStrings GoFloat Store Health Prober.

(** ** State *)

(** [evalLoop]: not spawned, in its [select], inside [evalTick], returned. *)
Inductive evalThread : Type := EvalOff | EvalSelect | EvalBusy | EvalExited.

(** [refreshLoop]; [RefNew] is before [NewTicker], [RefBusy] inside
    [reconcileClusters]. *)
Inductive refreshThread : Type := RefOff | RefNew | RefSelect | RefBusy | RefExited.

#[export] Instance refreshThread_eq_dec : EqDecision refreshThread.
Proof. solve_decision. Defined.

(** Where [Start] and [Shutdown] are.  [PhFailed]: the producer did not start
    and [Start] returned its error.  [PhCrashed]: [refreshLoop] panicked.
    [Shutdown] is called after a [Start] that succeeded, as main.go does. *)
Inductive phase : Type :=
| PhNew
| PhFailed
| PhDiscover
| PhStarting
| PhRunning
| PhCrashed
| PhWaiting
| PhRemoving
| PhDone.

(** What is left of a [reconcileClusters], or of the last loop of [Shutdown]. *)
Inductive work : Type := WAdd (cluster : string) | WRemove (cluster : string).

Record lifecycle : Type := mkLife {
  pr : prober;
  ph : phase;
  evalT : evalThread;
  refT : refreshThread;
  todo : list work;
  rootCancelled : bool
}.

Definition newLife : lifecycle := mkLife (NewProber newHealthStore) PhNew EvalOff RefOff [] false.

Definition set_pr (p : prober) (s : lifecycle) : lifecycle :=
  mkLife p (ph s) (evalT s) (refT s) (todo s) (rootCancelled s).
Definition set_ph (x : phase) (s : lifecycle) : lifecycle :=
  mkLife (pr s) x (evalT s) (refT s) (todo s) (rootCancelled s).
Definition set_evalT (x : evalThread) (s : lifecycle) : lifecycle :=
  mkLife (pr s) (ph s) x (refT s) (todo s) (rootCancelled s).
Definition set_refT (x : refreshThread) (s : lifecycle) : lifecycle :=
  mkLife (pr s) (ph s) (evalT s) x (todo s) (rootCancelled s).
Definition set_todo (x : list work) (s : lifecycle) : lifecycle :=
  mkLife (pr s) (ph s) (evalT s) (refT s) x (rootCancelled s).

(** [rootCancel]: the contexts of all probes derive from the root context. *)
Definition cancelRoot (s : lifecycle) : lifecycle :=
  mkLife (set_heap (set_cancelled <$> heap (pr s)) (pr s)) (ph s) (evalT s) (refT s) (todo s) true.

(** No reconciliation is running. *)
Definition idle (s : lifecycle) : bool :=
  match todo s, rm (pr s) with [], RmNone => true | _, _ => false end.

Section lifecycle.
Context `{GR : GoRange}.
(** [cfg.Recency], [cfg.ClusterRefresh] and the behaviour of the client's
    [Shutdown] (see [Prober]). *)
Variables (recency clusterRefresh : Z) (drains : bool).

(** The two loops of [reconcileClusters], as the calls still to make: the new
    names in map order, then the names that vanished. *)
Definition reconcileWork (discovered : list string) (m : gmap string nat) : list work :=
  match discovered with
  | [] => []
  | _ =>
      let discoveredSet : gmap string unit := foldl (λ s c, <[c := tt]> s) ∅ discovered in
      (WAdd <$> (range discoveredSet).*1) ++
      ((range m).*1 ≫= λ c, match discoveredSet !! c with Some _ => [] | None => [WRemove c] end)
  end.

Definition discoverWork (discovery : outcome (list string)) (m : gmap string nat) : list work :=
  match discovery with Ret clusters => reconcileWork clusters m | _ => [] end.

(** One iteration: [addProbe] of a name without a probe, or [removeProbe],
    which goes on through the steps of [Prober]. *)
Definition doWork (w : work) (s : lifecycle) : option lifecycle :=
  match w with
  | WAdd c =>
      match probes (pr s) !! c with
      | Some _ => Some s
      | None =>
          p ← addProbe c (pr s);
          Some (set_pr (if rootCancelled s then set_heap (set_cancelled <$> heap p) p else p) s)
      end
  | WRemove c =>
      match probes (pr s) !! c with
      | None => Some s
      | Some _ => p ← removeProbe c (pr s); Some (set_pr p s)
      end
  end.

Inductive clabel : Type :=
| CStart (ok : bool)
| CDiscover (discovery : outcome (list string))
| CSpawn
| CEvalTick (now : Z)
| CEvalDone
| CEvalExit
| CRefreshBegin
| CRefreshTick (discovery : outcome (list string))
| CRefreshDone
| CRefreshExit
| CWork
| CCancel
| CShutdown
| CWaitDone
| CProdShutdown
| CInner (l : label).

(** The steps the probes' goroutines and a running [removeProbe] or [evalTick]
    take on their own. *)
Definition inner (l : label) : bool :=
  match l with LAdd _ | LEval _ | LRemove _ => false | _ => true end.

Definition act (l : clabel) (s : lifecycle) : option lifecycle :=
  match l with
  | CStart ok =>
      match ph s with PhNew => Some (set_ph (if ok then PhDiscover else PhFailed) s) | _ => None end
  | CDiscover d =>
      match ph s with
      | PhDiscover => Some (set_ph PhStarting (set_todo (discoverWork d (probes (pr s))) s))
      | _ => None
      end
  | CSpawn =>
      match ph s, idle s with
      | PhStarting, true => Some (set_ph PhRunning (set_refT RefNew (set_evalT EvalSelect s)))
      | _, _ => None
      end
  | CEvalTick now =>
      match evalT s with
      | EvalSelect => p ← evalTick now (pr s); Some (set_evalT EvalBusy (set_pr p s))
      | _ => None
      end
  | CEvalDone =>
      match evalT s, evalPass (pr s) with EvalBusy, None => Some (set_evalT EvalSelect s) | _, _ => None end
  | CEvalExit =>
      match evalT s, rootCancelled s with EvalSelect, true => Some (set_evalT EvalExited s) | _, _ => None end
  | CRefreshBegin =>
      match refT s with
      | RefNew => if decide (clusterRefresh ≤ 0) then Some (set_ph PhCrashed s) else Some (set_refT RefSelect s)
      | _ => None
      end
  | CRefreshTick d =>
      match refT s with
      | RefSelect => Some (set_refT RefBusy (set_todo (discoverWork d (probes (pr s))) s))
      | _ => None
      end
  | CRefreshDone =>
      match refT s, idle s with RefBusy, true => Some (set_refT RefSelect s) | _, _ => None end
  | CRefreshExit =>
      match refT s, rootCancelled s with RefSelect, true => Some (set_refT RefExited s) | _, _ => None end
  | CWork =>
      match todo s, rm (pr s) with
      | w :: ws, RmNone => s' ← doWork w s; Some (set_todo ws s')
      | _, _ => None
      end
  | CCancel => match ph s with PhNew | PhFailed => None | _ => Some (cancelRoot s) end
  | CShutdown => match ph s with PhRunning => Some (set_ph PhWaiting (cancelRoot s)) | _ => None end
  | CWaitDone =>
      match ph s, evalT s, refT s with
      | PhWaiting, EvalExited, RefExited =>
          Some (set_ph PhRemoving (set_todo (WRemove <$> (range (probes (pr s))).*1) s))
      | _, _, _ => None
      end
  | CProdShutdown => match ph s, idle s with PhRemoving, true => Some (set_ph PhDone s) | _, _ => None end
  | CInner l =>
      if inner l then p ← step recency drains l (pr s); Some (set_pr p s) else None
  end.

(** A panic of any goroutine ends the process. *)
Definition lifeStep (l : clabel) (s : lifecycle) : option lifecycle :=
  match ph s with PhCrashed => None | _ => act l s end.

Definition lstep : lifecycle → lifecycle → Prop := lts_step lifeStep.
Definition lreachable (s : lifecycle) : Prop := rtc lstep newLife s.
End lifecycle.

(** ** What the probes' own steps leave alone *)

Section frame.
Context `{GR : GoRange}.
Variables (recency : Z) (drains : bool).

Definition cancels (p : prober) : list bool := cancelled <$> heap p.

Lemma cancels_update p id q q' :
  heap p !! id = Some q → cancelled q' = cancelled q →
  cancelled <$> <[id := q']> (heap p) = cancels p.
Proof.
  intros Hq E. unfold cancels. rewrite list_fmap_insert, E. apply list_insert_id.
  by rewrite list_lookup_fmap, Hq.
Qed.

Definition rm_le (r r' : remover) : Prop :=
  (r = RmNone → r' = RmNone) ∧ ∀ id, r' = RmWait id → r = RmWait id.

Definition framed (p p' : prober) : Prop :=
  probes p' = probes p ∧ (evalPass p = None → evalPass p' = None) ∧ rm_le (rm p) (rm p')
  ∧ cancels p' = cancels p.

Lemma framed_update p id q q' h :
  heap p !! id = Some q → cancelled q' = cancelled q →
  framed p (set_store h (set_heap (<[id := q']> (heap p)) p)).
Proof. intros Hq E. repeat split; try done. by apply (cancels_update p id q). Qed.

Lemma framed_onProbe id f p p' :
  onProbe id f p = Some p' → (∀ q q', f q = Some q' → cancelled q' = cancelled q) → framed p p'.
Proof.
  unfold onProbe. destruct (heap p !! id) as [q|] eqn:Hq; simpl; [|done].
  destruct (f q) as [q'|] eqn:Ef; simpl; [|done]. intros [= <-] Hf.
  apply (framed_update p id q q' (store p)); [done|eauto].
Qed.

Lemma shutConsumer_cancelled c q q' : shutConsumer drains c q = Some q' → cancelled q' = cancelled q.
Proof. unfold shutConsumer. case_match; intros; by simplify_eq. Qed.

Lemma inner_frame l p p' : inner l = true → step recency drains l p = Some p' → framed p p'.
Proof.
  intros Hl H. destruct l; simpl in Hl, H; try done.
  all: try (eapply framed_onProbe; [exact H|]; intros q q' Hq; cbv beta in Hq; repeat case_match; simplify_eq/=; done).
  - unfold stepSend in H. destruct (heap p !! id) as [q|] eqn:Hq; simpl in H; [|done].
    destruct (produce q) as [|[|o ops] fin|]; simplify_eq/=.
    + apply (framed_update p id q _ (store p)); [done|]. by destruct fin.
    + by apply (framed_update p id q).
  - eapply framed_onProbe; [exact H|]. intros q q' Hq. cbv beta in Hq. destruct (retry q); try done.
    destruct (shutConsumer drains CNone q) as [q1|] eqn:E; simplify_eq/=. by eapply shutConsumer_cancelled.
  - unfold stepCallback in H. destruct (heap p !! id) as [q|] eqn:Hq; simpl in H; [|done].
    destruct (callbacks q !! j) as [[[|o ops] now]|]; simplify_eq/=.
    + by apply (framed_update p id q _ (store p)).
    + by apply (framed_update p id q).
  - unfold stepEval in H. destruct (evalPass p) as [[[ids ops] now]|] eqn:E; [|done].
    unfold framed. rewrite E. destruct ops as [|o ops]; [destruct ids as [|i ids]|].
    + injection H as <-. by repeat split.
    + destruct (heap p !! i); [|done]. injection H as <-. by repeat split.
    + destruct ids; injection H as <-; by repeat split.
  - unfold removeWait in H. destruct (rm p) as [|id|id|id] eqn:E; try done.
    destruct (heap p !! id) as [q|] eqn:Hq; simpl in H; [|done].
    destruct (produce q), (retry q); simplify_eq/=. unfold framed, rm_le. rewrite E. by repeat split.
  - unfold removeShutdown in H. destruct (rm p) as [|id|id|id] eqn:E; try done.
    destruct (heap p !! id) as [q|] eqn:Hq; simpl in H; [|done].
    destruct (match consumer q with CNone => _ | _ => _ end) as [q'|] eqn:E'; simplify_eq/=.
    unfold framed, rm_le. rewrite E. repeat split; try done. apply (cancels_update p id q); [done|].
    destruct (consumer q); simplify_eq/=; [done|by eapply shutConsumer_cancelled..].
  - unfold removeClear in H. destruct (rm p) as [|id|id|id] eqn:E, (evalPass p) eqn:E'; try done.
    destruct (heap p !! id) as [q|] eqn:Hq; simplify_eq/=. unfold framed, rm_le. rewrite E. by repeat split.
Qed.
End frame.

(** ** The invariant *)

Section invariant.
Context `{GR : GoRange}.
Variables (recency clusterRefresh : Z) (drains : bool).

Definition isRemove (w : work) : Prop := match w with WRemove _ => True | WAdd _ => False end.

(** What the loops are doing in each phase. *)
Definition phase_ok (x : phase) (e : evalThread) (r : refreshThread) : Prop :=
  match x with
  | PhNew | PhFailed | PhDiscover | PhStarting => e = EvalOff ∧ r = RefOff
  | PhRunning | PhWaiting => e ≠ EvalOff ∧ r ≠ RefOff
  | PhCrashed => True
  | PhRemoving | PhDone => e = EvalExited ∧ r = RefExited
  end.

Definition shuttingDown (x : phase) : Prop := x = PhWaiting ∨ x = PhRemoving ∨ x = PhDone.

Record linv (s : lifecycle) : Prop := {
  li_pr : inv drains (pr s);
  li_pass : evalT s ≠ EvalBusy → evalPass (pr s) = None;
  li_idle : idle s = true ∨ ph s = PhStarting ∨ refT s = RefBusy ∨ ph s = PhRemoving;
  li_phase : phase_ok (ph s) (evalT s) (refT s);
  li_cancel : rootCancelled s = true → Forall (λ b, b = true) (cancels (pr s));
  li_down : shuttingDown (ph s) → rootCancelled s = true;
  li_removing : ph s = PhRemoving →
    Forall isRemove (todo s) ∧ ∀ c, is_Some (probes (pr s) !! c) → WRemove c ∈ todo s;
  li_done : ph s = PhDone → idle s = true ∧ probes (pr s) = ∅
}.

Lemma linv_initial : linv newLife.
Proof.
  split; simpl; try done; [apply prober_inv_initial|by left|]. intros [|[|]]; done.
Qed.

(** Cancelling contexts keeps the probes' invariant. *)
Lemma inv_cancelAll p : inv drains p → inv drains (set_heap (set_cancelled <$> heap p) p).
Proof.
  intros [Hp Hr Hh He Hc].
  assert (∀ i q, heap p !! i = Some q → (set_cancelled <$> heap p) !! i = Some (set_cancelled q)) as Hlk.
  { intros i q Hq. by rewrite list_lookup_fmap, Hq. }
  assert (∀ c, active (set_heap (set_cancelled <$> heap p) p) c ↔ active p c) as Hact.
  { intros c. unfold active. cbn. apply or_iff_compat_l. split.
    - intros (i & q & Hi & Hq & <-). rewrite list_lookup_fmap in Hq.
      destruct (heap p !! i) as [q'|] eqn:E; simplify_eq/=. by exists i, q'.
    - intros (i & q & Hi & Hq & <-). exists i, (set_cancelled q). auto. }
  split; cbn.
  - intros c i Hi. destruct (Hp c i Hi) as (q & Hq & <-). exists (set_cancelled q). auto.
  - intros i Hi. destruct (Hr i Hi) as (q & Hq & Hn). exists (set_cancelled q). auto.
  - intros i q Hq. rewrite list_lookup_fmap in Hq. destruct (heap p !! i) as [q'|] eqn:E; simplify_eq/=.
    destruct (Hh i q' E). by split.
  - intros ids ops now Hpass. destruct (He ids ops now Hpass) as [H1 H2]. split.
    + intros i Hi. destruct (H1 i Hi) as (q & Hq & Ha). exists (set_cancelled q).
      split; [auto|]. by apply Hact.
    + eapply Forall_impl; [exact H2|]. intros o Ho. by apply Hact.
  - intros c Hn. apply Hc. by rewrite <- Hact.
Qed.

Lemma cancels_cancelAll p : Forall (λ b, b = true) (cancels (set_heap (set_cancelled <$> heap p) p)).
Proof.
  unfold cancels. cbn. rewrite <- list_fmap_compose. apply Forall_forall. intros b Hb.
  apply list_elem_of_fmap in Hb as (q & -> & _). done.
Qed.

Lemma idle_true s : idle s = true ↔ todo s = [] ∧ rm (pr s) = RmNone.
Proof. unfold idle. destruct (todo s), (rm (pr s)); split; try done; by intros []. Qed.

Lemma addProbe_frame c p p' :
  addProbe c p = Some p' → inv drains p → inv drains p' ∧ evalPass p' = evalPass p ∧ rm p' = RmNone.
Proof.
  intros H Hinv. split; [by eapply inv_addProbe|]. unfold addProbe in H.
  destruct (probes p !! c), (rm p) eqn:E; by simplify_eq/=.
Qed.

Lemma removeProbe_frame c p p' :
  removeProbe c p = Some p' → inv drains p →
  inv drains p' ∧ evalPass p' = evalPass p ∧ probes p' = delete c (probes p)
  ∧ (Forall (λ b, b = true) (cancels p) → Forall (λ b, b = true) (cancels p')).
Proof.
  intros H Hinv. split; [by eapply inv_removeProbe|]. unfold removeProbe in H.
  destruct (probes p !! c) as [id|], (rm p) eqn:E; simplify_eq/=.
  destruct (heap p !! id) as [q|] eqn:Hq; simplify_eq/=. repeat split.
  unfold cancels. cbn. rewrite list_fmap_insert. intros Hf. by apply Forall_insert.
Qed.

Lemma linv_inner l s p :
  linv s → inner l = true → step recency drains l (pr s) = Some p → linv (set_pr p s).
Proof.
  intros [Hpr Hpass Hidle Hph Hcan Hdown Hrem Hdone] Hl H.
  assert (inv drains p) as Hp by (eapply prober_inv_step; [exact Hpr|by exists l]).
  destruct (inner_frame recency drains _ _ _ Hl H) as (Epr & Epass & [Ern Erw] & Ec).
  assert (idle s = true → idle (set_pr p s) = true) as Hid.
  { rewrite !idle_true. cbn. intros []. auto. }
  split; cbn; try done.
  - auto.
  - tauto.
  - by rewrite Ec.
  - by rewrite Epr.
  - rewrite Epr. intros H1. destruct (Hdone H1). auto.
Qed.

Lemma linv_cancel s : linv s → ph s ≠ PhNew → linv (cancelRoot s).
Proof.
  intros [Hpr Hpass Hidle Hph Hcan Hdown Hrem Hdone] Hne.
  assert (idle (cancelRoot s) = idle s) as E by done.
  split; rewrite ?E; cbn; try done.
  - by apply inv_cancelAll.
  - intros _. apply cancels_cancelAll.
Qed.

Lemma linv_work s s' : linv s → act recency clusterRefresh drains CWork s = Some s' → linv s'.
Proof.
  intros [Hpr Hpass Hidle Hph Hcan Hdown Hrem Hdone] H. cbn in H.
  destruct (todo s) as [|w ws] eqn:Et; [done|]. destruct (rm (pr s)) eqn:Er; try done.
  assert (idle s = false) as Hi by (unfold idle; by rewrite Et).
  rewrite Hi in *. destruct Hidle as [|Hidle]; [done|].
  assert (ph s ≠ PhDone) as Hnd by (intros Hd; by destruct (Hdone Hd)).
  destruct (doWork w s) as [s1|] eqn:Ew; simplify_eq/=.
  destruct w as [c|c]; cbn in Ew; destruct (probes (pr s) !! c) as [id|] eqn:Ec; simplify_eq/=.
  - split; cbn; try done; [tauto|]. intros Hx. by destruct (Hrem Hx) as [[]%Forall_cons _].
  - destruct (addProbe c (pr s)) as [p|] eqn:Ea; simplify_eq/=.
    destruct (addProbe_frame _ _ _ Ea Hpr) as (Hp & Ep & Erp).
    split; cbn; try done.
    + destruct (rootCancelled s); [by apply inv_cancelAll|done].
    + destruct (rootCancelled s); cbn; rewrite Ep; auto.
    + tauto.
    + intros E. rewrite E. apply cancels_cancelAll.
    + intros Hx. by destruct (Hrem Hx) as [[]%Forall_cons _].
  - destruct (removeProbe c (pr s)) as [p|] eqn:Ea; simplify_eq/=.
    destruct (removeProbe_frame _ _ _ Ea Hpr) as (Hp & Ep & Eprobes & Ecan).
    split; cbn; try done.
    + by rewrite Ep.
    + tauto.
    + auto.
    + intros Hx. destruct (Hrem Hx) as [[_ Hf]%Forall_cons Hall]. split; [done|].
      intros c' Hc'. rewrite Eprobes in Hc'. destruct (decide (c = c')) as [<-|Hne].
      { rewrite lookup_delete_eq in Hc'. by destruct Hc'. }
      rewrite lookup_delete_ne in Hc' by done. apply Hall, elem_of_cons in Hc' as [[= ->]|]; done.
  - split; cbn; try done; [tauto|]. intros Hx. destruct (Hrem Hx) as [[_ Hf]%Forall_cons Hall].
    split; [done|]. intros c' Hc'. pose proof (Hall c' Hc') as [[= ->]|]%elem_of_cons; [|done].
    rewrite Ec in Hc'. by destruct Hc'.
Qed.

(** The clauses of [linv] for a step of the controller that only moves its own
    threads. *)
Ltac life_clauses :=
  split; cbn; try done; try tauto;
  try (unfold shuttingDown; intros; destruct_or?; congruence).

(** The steps of [Start], of the two loops and of [Shutdown]. *)
Definition isStart (l : clabel) : bool := match l with CStart _ | CDiscover _ | CSpawn => true | _ => false end.
Definition isEval (l : clabel) : bool := match l with CEvalTick _ | CEvalDone | CEvalExit => true | _ => false end.
Definition isRefresh (l : clabel) : bool := match l with CRefreshBegin | CRefreshTick _ | CRefreshDone | CRefreshExit => true | _ => false end.
Definition isShutdown (l : clabel) : bool := match l with CShutdown | CWaitDone | CProdShutdown => true | _ => false end.

Lemma linv_start l s s' :
  linv s → act recency clusterRefresh drains l s = Some s' → isStart l = true → linv s'.
Proof.
  intros Hinv Ha Hl. pose proof Hinv as [Hpr Hpass Hidle Hph Hcan Hdown Hrem Hdone].
  destruct l; try done; cbn in Ha.
  - destruct (ph s) eqn:Ep; simplify_eq/=. cbn in Hph.
    destruct Hidle as [Hidle|[|[|]]]; [|done|destruct Hph; congruence|done].
    destruct ok; life_clauses.
  - destruct (ph s) eqn:Ep; simplify_eq/=. cbn in Hph. life_clauses.
  - destruct (ph s) eqn:Ep; simplify_eq/=. cbn in Hph. destruct (idle s) eqn:Ei; [|done].
    assert (evalPass (pr s) = None) as He by (apply Hpass; destruct Hph; congruence).
    assert (idle s = true) as Ei' by done. unfold idle in Ei'.
    simplify_eq/=. life_clauses; by left.
Qed.

Lemma linv_eval l s s' :
  linv s → act recency clusterRefresh drains l s = Some s' → isEval l = true → linv s'.
Proof.
  intros Hinv Ha Hl. pose proof Hinv as [Hpr Hpass Hidle Hph Hcan Hdown Hrem Hdone].
  destruct l; try done; cbn in Ha.
  - destruct (evalT s) eqn:Ee; try done. destruct (evalTick now (pr s)) as [p|] eqn:Et; simplify_eq/=.
    assert (inv drains p) as Hp by (by eapply inv_evalTick).
    assert (probes p = probes (pr s) ∧ rm p = rm (pr s) ∧ cancels p = cancels (pr s)) as (E1 & E2 & E3).
    { unfold evalTick in Et. by destruct (evalPass (pr s)); simplify_eq/=. }
    assert (∀ b, idle s = b → idle (set_evalT EvalBusy (set_pr p s)) = b) as Hi.
    { intros b <-. unfold idle. cbn. by rewrite E2. }
    split; cbn; rewrite ?E1, ?E3; try done.
    + destruct Hidle; auto.
    + destruct (ph s); cbn in *; intuition congruence.
    + intros Hx. destruct (Hdone Hx). auto.
  - destruct (evalT s) eqn:Ee; try done. destruct (evalPass (pr s)) eqn:Et; simplify_eq/=.
    life_clauses. destruct (ph s); cbn in *; intuition congruence.
  - destruct (evalT s) eqn:Ee; try done. destruct (rootCancelled s) eqn:Et; simplify_eq/=.
    life_clauses. + intros _. by apply Hpass. + destruct (ph s); cbn in *; intuition congruence.
Qed.

Lemma linv_refresh l s s' :
  linv s → act recency clusterRefresh drains l s = Some s' → isRefresh l = true → linv s'.
Proof.
  intros Hinv Ha Hl. pose proof Hinv as [Hpr Hpass Hidle Hph Hcan Hdown Hrem Hdone].
  destruct l; try done; cbn in Ha.
  - destruct (refT s) eqn:Ee; try done.
    assert (idle s = true ∨ ph s = PhStarting ∨ ph s = PhRemoving) as Hi
      by (destruct Hidle as [|[|[|]]]; auto; congruence).
    case_decide; simplify_eq/=; split; cbn; try done; try tauto; try (intros [|[|]]; done).
    + destruct Hi as [|[E|E]]; [by left|rewrite E in Hph; cbn in Hph; intuition congruence..].
    + destruct (ph s); cbn in *; intuition congruence.
  - destruct (refT s) eqn:Ee; simplify_eq/=.
    assert (ph s = PhRunning ∨ ph s = PhWaiting ∨ ph s = PhCrashed) as Hx.
    { destruct (ph s); cbn in *; intuition congruence. }
    destruct Hx as [Ep|[Ep|Ep]]; rewrite Ep in Hph; cbn in Hph; split; cbn; rewrite ?Ep; try done; cbn; try tauto.
    all: first [by rewrite <- Ep|by destruct Hph].
  - destruct (refT s) eqn:Ee; try done. destruct (idle s) eqn:Ei; simplify_eq/=.
    life_clauses. destruct (ph s); cbn in *; intuition congruence.
  - destruct (refT s) eqn:Ee; try done. destruct (rootCancelled s) eqn:Et; simplify_eq/=.
    life_clauses. + destruct Hidle as [|[|[|]]]; auto; congruence. + destruct (ph s); cbn in *; intuition congruence.
Qed.

Lemma linv_shutdown l s s' :
  linv s → act recency clusterRefresh drains l s = Some s' → isShutdown l = true → linv s'.
Proof.
  intros Hinv Ha Hl. pose proof Hinv as [Hpr Hpass Hidle Hph Hcan Hdown Hrem Hdone].
  destruct l; try done; cbn in Ha.
  - destruct (ph s) eqn:Ep; simplify_eq/=.
    apply linv_cancel in Hinv; [|by rewrite Ep].
    destruct Hinv as [Hpr' Hpass' Hidle' Hph' Hcan' Hdown' Hrem' Hdone']. cbn in *. rewrite ?Ep in *. life_clauses.
    destruct Hidle as [?|[?|[?|?]]]; auto; done.
  - destruct (ph s) eqn:Ep; try done. destruct (evalT s) eqn:Ee; try done. destruct (refT s) eqn:Er; simplify_eq/=.
    split; cbn; try done; try tauto; rewrite ?Ee, ?Er; try done.
    + intros _. apply Hdown. by left.
    + intros _. split.
      * apply Forall_forall. intros w Hw. by apply list_elem_of_fmap in Hw as (? & -> & _).
      * intros c [id Hc]. apply list_elem_of_fmap. exists c. split; [done|].
        apply (elem_of_fmap_range _ fst). eauto.
  - destruct (ph s) eqn:Ep; try done. destruct (idle s) eqn:Ei; simplify_eq/=.
    destruct (Hrem eq_refl) as [_ Hall]. pose proof Ei as [Et _]%idle_true.
    assert (probes (pr s) = ∅) as E0.
    { apply map_eq. intros c. rewrite lookup_empty. destruct (probes (pr s) !! c) eqn:E; [|done].
      destruct (elem_of_nil (WRemove c)) as [Hn _]. exfalso. apply Hn. rewrite <- Et. apply Hall. eauto. }
    split; cbn; try done; try tauto.
    intros _. apply Hdown. unfold shuttingDown. tauto.
Qed.

Lemma linv_step s s' : linv s → lstep recency clusterRefresh drains s s' → linv s'.
Proof.
  intros Hinv [l H]. unfold lifeStep in H.
  assert (act recency clusterRefresh drains l s = Some s') as Ha by (by destruct (ph s)). clear H.
  destruct l;
    first [exact (linv_start _ s s' Hinv Ha eq_refl) | exact (linv_eval _ s s' Hinv Ha eq_refl)
          | exact (linv_refresh _ s s' Hinv Ha eq_refl) | exact (linv_shutdown _ s s' Hinv Ha eq_refl)
          | exact (linv_work s s' Hinv Ha) | cbn in Ha].
  - apply linv_cancel in Hinv; [|by destruct (ph s)]. by destruct (ph s); simplify_eq/=.
  - destruct (inner l) eqn:El; [|done]. destruct (step _ _ l (pr s)) as [p|] eqn:E; simplify_eq/=. by eapply linv_inner.
Qed.

Lemma linv_reachable s : lreachable recency clusterRefresh drains s → linv s.
Proof. intros H. eapply rtc_invariant; [apply linv_step|exact H|apply linv_initial]. Qed.
End invariant.

(** ** The goroutines can always finish *)

Section progress.
Context `{GR : GoRange}.
Variables (recency : Z) (drains : bool).

(** A step of a probe's goroutine, of [evalTick] or of [removeProbe]. *)
Definition istep (p p' : prober) : Prop := ∃ l, inner l = true ∧ step recency drains l p = Some p'.

Lemma rtc_framed p p' : rtc istep p p' → framed p p'.
Proof.
  induction 1 as [|p p1 p' (l & Hl & H) _ IH]; [by repeat split|].
  destruct (inner_frame _ _ _ _ _ Hl H) as (E1 & E2 & [E3 E3'] & E4).
  destruct IH as (F1 & F2 & [F3 F3'] & F4). unfold framed, rm_le. rewrite F1, F4. repeat split; auto.
Qed.

Lemma rtc_inv p p' : rtc istep p p' → inv drains p → inv drains p'.
Proof.
  intros H. apply (rtc_invariant istep); [|done]. intros q q' Hq (l & _ & Hs).
  eapply prober_inv_step; [exact Hq|by exists l].
Qed.

Lemma pass_ops ids ops now p :
  evalPass p = Some (ids, ops, now) →
  ∃ p', rtc istep p p' ∧ evalPass p' = Some (ids, [], now) ∧ heap p' = heap p.
Proof.
  revert p. induction ops as [|o ops IH]; intros p Hp; [by exists p|].
  destruct (IH (set_store (apply_hop (store p) o) (set_pass (Some (ids, ops, now)) p)) eq_refl)
    as (p' & Hr & He & Hh).
  exists p'. split; [|done]. eapply rtc_l; [|exact Hr]. exists LEvalStep. split; [done|].
  simpl. unfold stepEval. rewrite Hp. by destruct ids.
Qed.

(** A running [evalTick] can return. *)
Lemma finish_pass ids ops now p :
  evalPass p = Some (ids, ops, now) → (∀ id, id ∈ ids → is_Some (heap p !! id)) →
  ∃ p', rtc istep p p' ∧ evalPass p' = None.
Proof.
  revert ops p. induction ids as [|id ids IH]; intros ops p Hp Hids;
    destruct (pass_ops _ _ _ _ Hp) as (p1 & Hr1 & He1 & Hh1).
  - exists (set_pass None p1). split; [|done]. eapply rtc_r; [exact Hr1|].
    exists LEvalStep. split; [done|]. simpl. unfold stepEval. by rewrite He1.
  - destruct (Hids id) as [q Hq]; [left|].
    edestruct (IH (evalOnce recency (pcluster q) (lastProduceSuccess q) (lastConsume q) now)
      (set_pass (Some (ids, evalOnce recency (pcluster q) (lastProduceSuccess q) (lastConsume q) now, now)) p1))
      as (p' & Hr & He); [done| |].
    { intros i Hi. cbn. rewrite Hh1. apply Hids. by right. }
    exists p'. split; [|done]. etrans; [exact Hr1|]. eapply rtc_l; [|exact Hr].
    exists LEvalStep. split; [done|]. simpl. unfold stepEval. rewrite He1, Hh1, Hq. done.
Qed.

(** [p'] is [p] with probe [id] changed to [q'] (and maybe the store). *)
Definition moved (id : nat) (p p' : prober) (q' : probe) : Prop :=
  rtc istep p p' ∧ rm p' = rm p ∧ evalPass p' = evalPass p ∧ heap p' !! id = Some q'.

Lemma moved_refl id p q : heap p !! id = Some q → moved id p p q.
Proof. by repeat split. Qed.

Lemma moved_trans id p p1 p2 q1 q2 : moved id p p1 q1 → moved id p1 p2 q2 → moved id p p2 q2.
Proof.
  intros (R1 & E1 & F1 & _) (R2 & E2 & F2 & H2). split; [by etrans|]. by rewrite E2, F2.
Qed.

(** One step that replaces the probe, with or without a write. *)
Lemma moved_step l id p q q' h :
  heap p !! id = Some q → inner l = true →
  step recency drains l p = Some (set_store h (set_heap (<[id := q']> (heap p)) p)) →
  moved id p (set_store h (set_heap (<[id := q']> (heap p)) p)) q'.
Proof.
  intros Hq Hl Hs. repeat split; [|].
  - apply rtc_once. by exists l.
  - cbn. apply list_lookup_insert_eq. by eapply lookup_lt_Some.
Qed.

(** A cancelled [produceLoop] can return. *)
Lemma finish_produce id p q :
  heap p !! id = Some q → cancelled q = true →
  ∃ p' q', moved id p p' q' ∧ produce q' = PExited ∧ retry q' = retry q ∧ cancelled q' = true.
Proof.
  intros Hq Hc.
  assert (∀ p q, heap p !! id = Some q → cancelled q = true → produce q = PIdle →
    ∃ p' q', moved id p p' q' ∧ produce q' = PExited ∧ retry q' = retry q ∧ cancelled q' = true) as Hidle.
  { clear p q Hq Hc. intros p q Hq Hc Hp. eexists _, (set_produce PExited q). split; [|done].
    eapply (moved_step (LProduceExit id) id p q _ (store p)); [done|done|].
    simpl. unfold exitProduce, onProbe. rewrite Hq. simpl. by rewrite Hp, Hc. }
  destruct (produce q) as [|ops fin|] eqn:Hp; [by apply (Hidle p q)| |].
  - revert p q Hq Hc Hp. induction ops as [|o ops IH]; intros p q Hq Hc Hp.
    + set (q1 := set_produce PIdle (match fin with Some t => set_produced t q | None => q end)).
      assert (moved id p (set_store (store p) (set_heap (<[id := q1]> (heap p)) p)) q1) as Hm.
      { eapply (moved_step (LProduce id)); [done|done|]. simpl. unfold stepSend. rewrite Hq. simpl. by rewrite Hp. }
      destruct (Hidle _ q1 (proj2 (proj2 (proj2 Hm)))) as (p' & q' & Hm' & Hx & Hy & Hz);
        [by subst q1; destruct fin|done|].
      exists p', q'. split; [by eapply moved_trans|]. split; [done|]. split; [|done].
      rewrite Hy. by subst q1; destruct fin.
    + set (q1 := set_produce (PBusy ops fin) q).
      assert (moved id p (set_store (apply_hop (store p) o) (set_heap (<[id := q1]> (heap p)) p)) q1) as Hm.
      { eapply (moved_step (LProduce id)); [done|done|]. simpl. unfold stepSend. rewrite Hq. simpl. by rewrite Hp. }
      destruct (IH _ q1 (proj2 (proj2 (proj2 Hm)))) as (p' & q' & Hm' & Hx & Hy & Hz); [done|done|].
      exists p', q'. split; [by eapply moved_trans|done].
  - exists p, q. split; [by apply moved_refl|done].
Qed.

(** A cancelled [consumerRetryLoop] can return. *)
Lemma finish_retry id p q :
  heap p !! id = Some q → cancelled q = true →
  ∃ p' q', moved id p p' q' ∧ retry q' = RExited ∧ produce q' = produce q.
Proof.
  intros Hq Hc. destruct (retry q) eqn:Hr.
  - eexists _, (set_retry RExited q). split; [|done].
    eapply (moved_step (LRetryExit id) id p q _ (store p)); [done|done|].
    simpl. unfold exitRetry, onProbe. rewrite Hq. simpl. by rewrite Hr, Hc.
  - eexists _, (set_retry RExited q). split; [|done].
    eapply (moved_step (LConsumerUp id) id p q _ (store p)); [done|done|].
    simpl. unfold consumerUp, onProbe. rewrite Hq. simpl. by rewrite Hr.
  - exists p, q. split; [by apply moved_refl|done].
Qed.

(** The callbacks that are running can return. *)
Lemma finish_callbacks id p q :
  heap p !! id = Some q → ∃ p' q', moved id p p' q' ∧ callbacks q' = [].
Proof.
  remember (callbacks q) as cbs eqn:E. revert p q E. induction cbs as [|[ops now] cbs IH]; intros p q E Hq.
  { exists p, q. split; [by apply moved_refl|done]. }
  revert p q E Hq. induction ops as [|o ops IHops]; intros p q E Hq.
  - set (q1 := set_consumed now (set_callbacks (delete 0%nat (callbacks q)) q)).
    assert (moved id p (set_store (store p) (set_heap (<[id := q1]> (heap p)) p)) q1) as Hm.
    { eapply (moved_step (LCallbackStep id 0)); [done|done|]. simpl. unfold stepCallback. rewrite Hq. simpl.
      subst q1. by rewrite <- E. }
    assert (cbs = callbacks q1) as E1 by (subst q1; cbn; by rewrite <- E).
    destruct (IH _ q1 E1 (proj2 (proj2 (proj2 Hm)))) as (p' & q' & Hm' & Hx).
    exists p', q'. split; [by eapply moved_trans|done].
  - set (q1 := set_callbacks (<[0%nat := (ops, now)]> (callbacks q)) q).
    assert (moved id p (set_store (apply_hop (store p) o) (set_heap (<[id := q1]> (heap p)) p)) q1) as Hm.
    { eapply (moved_step (LCallbackStep id 0)); [done|done|]. simpl. unfold stepCallback. rewrite Hq. simpl.
      subst q1. by rewrite <- E. }
    assert ((ops, now) :: cbs = callbacks q1) as E1 by (subst q1; cbn; by rewrite <- E).
    destruct (IHops _ q1 E1 (proj2 (proj2 (proj2 Hm)))) as (p' & q' & Hm' & Hx).
    exists p', q'. split; [by eapply moved_trans|done].
Qed.
(** A running [removeProbe] can return, once no [evalTick] is running. *)
Lemma finish_remove p :
  inv drains p → evalPass p = None → Forall (λ b, b = true) (cancels p) →
  ∃ p', rtc istep p p' ∧ rm p' = RmNone.
Proof.
  intros Hinv Hpass Hcan.
  assert (∀ p id, inv drains p → evalPass p = None → rm p = RmClear id → ∃ p', rtc istep p p' ∧ rm p' = RmNone)
    as Hclear.
  { clear. intros p id Hinv Hpass Hrm. destruct (inv_rm _ p Hinv id) as (q & Hq & _); [by rewrite Hrm|].
    exists (set_rm RmNone (set_store (ClearHealthCluster (pcluster q) (store p)) p)).
    split; [apply rtc_once; exists LRemoveClear; split; [done|]|done].
    simpl. unfold removeClear. by rewrite Hrm, Hpass, Hq. }
  assert (∀ p id, inv drains p → evalPass p = None → rm p = RmShutdown id → ∃ p', rtc istep p p' ∧ rm p' = RmNone)
    as Hshut.
  { intros p0 id Hinv0 Hpass0 Hrm0. destruct (inv_rm _ p0 Hinv0 id) as (q & Hq & _); [by rewrite Hrm0|].
    destruct (finish_callbacks id p0 q Hq) as (p1 & q1 & (R1 & E1 & F1 & H1) & Hcb).
    assert (∃ q2, match consumer q1 with CNone => Some q1 | _ => shutConsumer drains CShut q1 end = Some q2) as [q2 H2].
    { unfold shutConsumer. rewrite Hcb, bool_decide_false, andb_false_r by naive_solver.
      destruct (consumer q1); eauto. }
    set (p2 := set_rm (RmClear id) (set_heap (<[id := q2]> (heap p1)) p1)).
    assert (istep p1 p2) as Hs.
    { exists LRemoveShutdown. split; [done|]. simpl. unfold removeShutdown. rewrite E1, Hrm0, H1. simpl. by rewrite H2. }
    assert (rtc istep p0 p2) as R2 by (by eapply rtc_r).
    destruct (Hclear p2 id) as (p' & R & E); [by eapply rtc_inv|by cbn; rewrite F1|done|].
    exists p'. split; [by etrans|done]. }
  destruct (rm p) as [|id|id|id] eqn:Hrm; [by exists p| |by apply (Hshut p id)|by apply (Hclear p id)].
  destruct (inv_rm _ p Hinv id) as (q & Hq & _); [by rewrite Hrm|].
  assert (cancelled q = true) as Hc.
  { rewrite Forall_forall in Hcan. apply Hcan. apply list_elem_of_fmap. exists q. split; [done|].
    by eapply list_elem_of_lookup_2. }
  destruct (finish_produce id p q Hq Hc) as (p1 & q1 & (R1 & E1 & F1 & H1) & Hp1 & _ & Hc1).
  destruct (finish_retry id p1 q1 H1 Hc1) as (p2 & q2 & (R2 & E2 & F2 & H2) & Hr2 & Hp2).
  assert (istep p2 (set_rm (RmShutdown id) p2)) as Hs.
  { exists LRemoveWait. split; [done|]. simpl. unfold removeWait. rewrite E2, E1, Hrm, H2. simpl.
    by rewrite Hp2, Hp1, Hr2. }
  assert (rtc istep p (set_rm (RmShutdown id) p2)) as R by (etrans; [exact R1|by eapply rtc_r]).
  destruct (Hshut (set_rm (RmShutdown id) p2) id) as (p' & R' & E');
    [by eapply rtc_inv|by cbn; rewrite F2, F1|done|].
  exists p'. split; [by etrans|done].
Qed.
End progress.

(** ** Shutdown *)

Section shutdown.
Context `{GR : GoRange}.
Variables (recency clusterRefresh : Z) (drains : bool).
Local Abbreviation lstep := (lstep recency clusterRefresh drains).

Lemma set_pr_id s : set_pr (pr s) s = s.
Proof. by destruct s. Qed.

Lemma inner_lift s p' :
  ph s ≠ PhCrashed → rtc (istep recency drains) (pr s) p' → rtc lstep s (set_pr p' s).
Proof.
  intros Hph H. remember (pr s) as p eqn:E. revert s Hph E.
  induction H as [p|p p1 p2 (l & Hl & Hs) _ IH]; intros s Hph ->; [by rewrite set_pr_id|].
  eapply rtc_l; [|exact (IH (set_pr p1 s) Hph eq_refl)].
  exists (CInner l). unfold lifeStep. cbn. rewrite Hl, Hs. by destruct (ph s).
Qed.

(** The controller's part of a state. *)
Definition same_control (s s' : lifecycle) : Prop :=
  ph s' = ph s ∧ evalT s' = evalT s ∧ refT s' = refT s ∧ rootCancelled s' = rootCancelled s.

Lemma finish_removing s :
  linv drains s → ph s ≠ PhCrashed → rootCancelled s = true → evalPass (pr s) = None →
  ∃ s', rtc lstep s s' ∧ same_control s s' ∧ todo s' = todo s ∧ rm (pr s') = RmNone
    ∧ evalPass (pr s') = None.
Proof.
  intros Hinv Hph Hc Hp.
  destruct (finish_remove recency drains (pr s)) as (p' & R & E); [apply Hinv|done|by apply Hinv|].
  exists (set_pr p' s). split; [by apply inner_lift|]. repeat split; [done|].
  by apply rtc_framed in R as (_ & H & _); auto.
Qed.

Lemma work_enabled s w ws :
  linv drains s → ph s ≠ PhCrashed → todo s = w :: ws → rm (pr s) = RmNone →
  ∃ s', lstep s s' ∧ same_control s s' ∧ todo s' = ws ∧ (evalPass (pr s) = None → evalPass (pr s') = None).
Proof.
  intros Hinv Hph Ht Hrm.
  assert (∃ s1, doWork w s = Some s1 ∧ same_control s s1
            ∧ (evalPass (pr s) = None → evalPass (pr s1) = None)) as (s1 & Hd & (C1 & C2 & C3 & C4) & Hp).
  { destruct w as [c|c]; cbn; destruct (probes (pr s) !! c) as [id|] eqn:E.
    - exists s. by repeat split.
    - unfold addProbe. rewrite E, Hrm. eexists. split; [done|]. repeat split.
      cbn. by destruct (rootCancelled s).
    - unfold removeProbe. rewrite E, Hrm.
      destruct (inv_probes _ _ (li_pr _ _ Hinv) c id E) as (q & Hq & _). rewrite Hq.
      eexists. split; [done|]. by repeat split.
    - exists s. by repeat split. }
  exists (set_todo ws s1). split; [|by repeat split].
  exists CWork. unfold lifeStep. cbn. rewrite Ht, Hrm, Hd. by destruct (ph s).
Qed.

(** A reconciliation that has begun can run to its end after the root context
    is cancelled. *)
Lemma finish_work s :
  linv drains s → ph s ≠ PhCrashed → rootCancelled s = true → evalPass (pr s) = None →
  ∃ s', rtc lstep s s' ∧ same_control s s' ∧ idle s' = true ∧ evalPass (pr s') = None.
Proof.
  remember (todo s) as ws eqn:E. revert s E. induction ws as [|w ws IH]; intros s E Hinv Hph Hc Hp;
    destruct (finish_removing s Hinv Hph Hc Hp) as (s1 & R1 & (C1 & C2 & C3 & C4) & T1 & E1 & P1).
  - exists s1. split; [done|]. split; [done|]. split; [|done]. apply idle_true. by rewrite T1.
  - assert (linv drains s1) as Hinv1 by (eapply rtc_invariant; [apply linv_step|exact R1|done]).
    destruct (work_enabled s1 w ws) as (s2 & S2 & (D1 & D2 & D3 & D4) & T2 & P2);
      [done|congruence|congruence|done|].
    destruct (IH s2) as (s' & R & (F1 & F2 & F3 & F4) & Hi & HP);
      [done|by eapply linv_step|congruence|congruence|auto|].
    exists s'. split; [etrans; [exact R1|by eapply rtc_l]|].
    split; [|done]. unfold same_control. repeat split; congruence.
Qed.

Lemma finish_eval s :
  linv drains s → ph s = PhWaiting →
  ∃ s', rtc lstep s s' ∧ ph s' = PhWaiting ∧ evalT s' = EvalExited ∧ evalPass (pr s') = None ∧ refT s' = refT s.
Proof.
  intros Hinv Hph.
  assert (∀ s, linv drains s → ph s = PhWaiting → evalT s = EvalSelect →
    ∃ s', rtc lstep s s' ∧ ph s' = PhWaiting ∧ evalT s' = EvalExited ∧ evalPass (pr s') = None ∧ refT s' = refT s) as Hsel.
  { clear. intros s Hinv Hph He. exists (set_evalT EvalExited s). split.
    - apply rtc_once. exists CEvalExit. unfold lifeStep. rewrite Hph. cbn.
      rewrite He, (li_down _ s Hinv); [done|by left].
    - repeat split; [done|]. apply Hinv. congruence. }
  destruct (evalT s) eqn:He.
  - pose proof (li_phase _ s Hinv) as Hx. rewrite Hph, He in Hx. by destruct Hx.
  - by apply Hsel.
  - destruct (evalPass (pr s)) as [[[ids ops] now]|] eqn:Hp.
    + destruct (finish_pass recency drains ids ops now (pr s) Hp) as (p' & R & Ep).
      { intros id Hid. destruct (inv_pass _ _ (li_pr _ _ Hinv) ids ops now Hp) as [H1 _].
        destruct (H1 id Hid) as (q & ? & _). eauto. }
      apply inner_lift in R; [|congruence].
      assert (lstep (set_pr p' s) (set_evalT EvalSelect (set_pr p' s))) as Hs.
      { exists CEvalDone. unfold lifeStep. cbn. by rewrite Hph, He, Ep. }
      assert (rtc lstep s (set_evalT EvalSelect (set_pr p' s))) as R' by (by eapply rtc_r).
      destruct (Hsel (set_evalT EvalSelect (set_pr p' s))) as (s' & R2 & H2);
        [eapply rtc_invariant; [apply linv_step|exact R'|done]|done|done|].
      exists s'. split; [by etrans|done].
    + assert (lstep s (set_evalT EvalSelect s)) as Hs.
      { exists CEvalDone. unfold lifeStep. cbn. by rewrite Hph, He, Hp. }
      destruct (Hsel (set_evalT EvalSelect s)) as (s' & R2 & H2); [by eapply linv_step|done|done|].
      exists s'. split; [by eapply rtc_l|done].
  - exists s. split; [done|]. repeat split; [done|done|]. apply Hinv. congruence.
Qed.

Lemma finish_refresh s :
  linv drains s → ph s = PhWaiting → evalT s = EvalExited → 0 < clusterRefresh ∨ refT s ≠ RefNew →
  ∃ s', rtc lstep s s' ∧ ph s' = PhWaiting ∧ evalT s' = EvalExited ∧ refT s' = RefExited.
Proof.
  intros Hinv Hph He Hnew.
  assert (∀ s, linv drains s → ph s = PhWaiting → evalT s = EvalExited → refT s = RefSelect →
    ∃ s', rtc lstep s s' ∧ ph s' = PhWaiting ∧ evalT s' = EvalExited ∧ refT s' = RefExited) as Hsel.
  { clear. intros s Hinv Hph He Hr. exists (set_refT RefExited s). split; [|done].
    apply rtc_once. exists CRefreshExit. unfold lifeStep. rewrite Hph. cbn.
    rewrite Hr, (li_down _ s Hinv); [done|by left]. }
  destruct (refT s) eqn:Hr.
  - pose proof (li_phase _ s Hinv) as Hx. rewrite Hph, Hr in Hx. by destruct Hx.
  - destruct Hnew as [Hpos|]; [|done].
    assert (lstep s (set_refT RefSelect s)) as Hs.
    { exists CRefreshBegin. unfold lifeStep. cbn. rewrite Hph, Hr. by rewrite decide_False by lia. }
    destruct (Hsel (set_refT RefSelect s)) as (s' & R2 & H2); [by eapply linv_step|done..|].
    exists s'. split; [by eapply rtc_l|done].
  - by apply Hsel.
  - destruct (finish_work s) as (s1 & R1 & (C1 & C2 & C3 & C4) & Hi & _);
      [done|congruence|apply Hinv; rewrite Hph; by left|apply Hinv; congruence|].
    assert (lstep s1 (set_refT RefSelect s1)) as Hs.
    { exists CRefreshDone. unfold lifeStep. cbn. by rewrite C1, Hph, C3, Hr, Hi. }
    assert (rtc lstep s (set_refT RefSelect s1)) as R by (by eapply rtc_r).
    destruct (Hsel (set_refT RefSelect s1)) as (s' & R2 & H2);
      [eapply rtc_invariant; [apply linv_step|exact R|done]|cbn; congruence|cbn; congruence|done|].
    exists s'. split; [by etrans|done].
  - by exists s.
Qed.
End shutdown.

(** ** Properties *)

(** A probe whose goroutines have all returned; a consumer that has been shut down
    may have left callbacks running. *)
Definition quiet (p : probe) : Prop := produce p = PExited ∧ retry p = RExited ∧ consumer p ≠ CRunning.

(** With such probes only the callbacks go on. *)
Lemma quiet_stuck `{GR : GoRange} recency drains l s s' :
  (∀ id p, heap s !! id = Some p → quiet p) → evalPass s = None → rm s = RmNone → inner l = true →
  step recency drains l s = Some s' → ∃ id j p, l = LCallbackStep id j ∧ heap s !! id = Some p ∧ callbacks p ≠ [].
Proof.
  intros Hq He Hr Hl Hs.
  assert (∀ id f, (∀ p, quiet p → f p = None) → onProbe id f s = None) as Hon.
  { intros id f Hf. unfold onProbe. destruct (heap s !! id) as [p|] eqn:E; [|done]. simpl.
    by rewrite Hf by eauto. }
  assert (step recency drains l s = None ∨
    ∃ id j p, l = LCallbackStep id j ∧ heap s !! id = Some p ∧ callbacks p ≠ []) as [Hn|?]; [|by rewrite Hn in Hs|done].
  clear Hs. destruct l; try done; simpl; try (left; apply Hon; intros p (E1 & E2 & E3); cbv beta; rewrite ?E1, ?E2; done).
  - left. unfold stepSend. destruct (heap s !! id) as [p|] eqn:E; [|done]. simpl. by destruct (Hq id p E) as (-> & _).
  - left. apply Hon. intros p (_ & _ & E3). by destruct (consumer p).
  - destruct (heap s !! id) as [p|] eqn:E; [|left; unfold stepCallback; by rewrite E].
    destruct (callbacks p) eqn:E4; [left|right; eexists id, j, p; split_and!; congruence].
    unfold stepCallback. rewrite E. simpl. by rewrite E4.
  - left. unfold stepEval. by rewrite He.
  - left. unfold removeWait. by rewrite Hr.
  - left. unfold removeShutdown. by rewrite Hr.
  - left. unfold removeClear. by rewrite Hr.
Qed.

Section properties.
Context `{GR : GoRange}.
Variables (recency clusterRefresh : Z) (drains : bool).

Lemma done_quiet s :
  linv drains s → ph s = PhDone →
  evalT s = EvalExited ∧ refT s = RefExited ∧ probes (pr s) = ∅ ∧ todo s = [] ∧ rm (pr s) = RmNone ∧
  ∀ id p, heap (pr s) !! id = Some p → produce p = PExited ∧ retry p = RExited ∧ consumer p ≠ CRunning
    ∧ (drains = true → callbacks p = []).
Proof.
  intros Hr Hd. pose proof (li_done _ s Hr Hd) as [[Ht Hrm]%idle_true Hp].
  pose proof (li_phase _ s Hr) as Hph. rewrite Hd in Hph. destruct Hph as [He Hf].
  repeat (split; [done|]). intros id p Hid.
  destruct (inv_heap _ _ (li_pr _ s Hr) id p Hid) as [Hth Hc Hdr _ _].
  rewrite Hp, Hrm, lookup_empty in *.
  assert (consumer p ≠ CRunning) as Hnc by (intros Hx; by destruct (Hc Hx) as [|[|]]).
  repeat split; auto.
  - destruct (produce p); [| |done]; exfalso; destruct Hth as [|]; by auto.
  - destruct (retry p); [| |done]; exfalso; destruct Hth as [|]; by auto.
Qed.

(** C15: after [Shutdown] nothing of the prober is left.  In every reachable
    state in which [Shutdown] has returned, [evalLoop] and [refreshLoop] have
    returned, no cluster has a probe, the produce and retry goroutines of every
    probe there ever was have returned, no consumer is running, and the health
    store holds no sample of any cluster but those a consume callback writes;
    after that the only steps that write are those of callbacks the client left
    running when it shut a consumer down.  If the client's [Shutdown] waits for
    its callbacks ([drains], an assumption about the client), there are none: the
    store holds no sample at all and nothing writes to it any more. *)
Theorem shutdown_quiescent s :
  lreachable recency clusterRefresh drains s → ph s = PhDone →
  evalT s = EvalExited ∧ refT s = RefExited ∧ probes (pr s) = ∅ ∧
  (∀ id p, heap (pr s) !! id = Some p →
     produce p = PExited ∧ retry p = RExited ∧ consumer p ≠ CRunning ∧ (drains = true → callbacks p = [])) ∧
  (∀ c, clean_core c (store (pr s)) ∧ (drains = true → clean c (store (pr s)))) ∧
  (∀ l s', lifeStep recency clusterRefresh drains l s = Some s' →
     ph s' = PhDone ∧
     (store (pr s') = store (pr s) ∨ drains = false ∧ ∃ id j, l = CInner (LCallbackStep id j))).
Proof.
  intros Hr%linv_reachable Hd. destruct (done_quiet s Hr Hd) as (He & Hf & Hp & Ht & Hrm & Hq).
  split; [done|]. split; [done|]. split; [done|]. split; [exact Hq|]. split.
  - intros c. assert (clean_for drains c (store (pr s))) as Hc.
    { apply (inv_clean _ _ (li_pr _ s Hr)). unfold active. rewrite Hp, Hrm, lookup_empty.
      intros [[? ?]|(? & ? & ? & _)]; done. }
    unfold clean_for in Hc. by destruct drains; [split; [by apply clean_clean_core|]|].
  - intros l s' H. unfold lifeStep in H. rewrite Hd in H.
    destruct l; cbn in H; rewrite ?Hd, ?He, ?Hf, ?Ht in H; try done.
    + injection H as <-. split; [done|by left].
    + destruct (inner l) eqn:El; [|done]. destruct (step recency drains l (pr s)) as [p'|] eqn:Es; simplify_eq/=.
      split; [done|]. right. assert (evalPass (pr s) = None) as Hpass by (apply Hr; congruence).
      destruct (quiet_stuck recency drains l (pr s) p') as (id & j & p & -> & Hid & Hcb); try done.
      * intros id p Hid. by destruct (Hq id p Hid) as (? & ? & ? & _).
      * destruct (Hq id p Hid) as (_ & _ & _ & Hdr). split; [|eauto]. destruct drains; [|done]. by destruct Hcb; auto.
Qed.

Lemma removing_completes s :
  linv drains s → ph s = PhRemoving → ∃ s', rtc (lstep recency clusterRefresh drains) s s' ∧ ph s' = PhDone.
Proof.
  intros Hinv Hph. pose proof (li_phase _ s Hinv) as Hx. rewrite Hph in Hx. destruct Hx as [He _].
  destruct (finish_work recency clusterRefresh drains s) as (s1 & R1 & (C1 & _) & Hi & _);
    [done|congruence|apply Hinv; rewrite Hph; right; by left|apply Hinv; congruence|].
  exists (set_ph PhDone s1). split; [|done]. eapply rtc_r; [exact R1|].
  exists CProdShutdown. unfold lifeStep. cbn. by rewrite C1, Hph, Hi.
Qed.

Lemma waiting_completes s :
  linv drains s → ph s = PhWaiting → evalT s = EvalExited → 0 < clusterRefresh ∨ refT s ≠ RefNew →
  ∃ s', rtc (lstep recency clusterRefresh drains) s s' ∧ ph s' = PhDone.
Proof.
  intros Hr1 P1 E1 Hn.
  destruct (finish_refresh recency clusterRefresh drains s Hr1 P1 E1 Hn) as (s2 & R2 & P2 & E2 & F2).
  assert (lstep recency clusterRefresh drains s2
    (set_ph PhRemoving (set_todo (WRemove <$> (range (probes (pr s2))).*1) s2))) as Hs.
  { exists CWaitDone. unfold lifeStep. cbn. by rewrite P2, E2, F2. }
  assert (linv drains s2) as Hr2 by (eapply rtc_invariant; [apply linv_step|exact R2|done]).
  edestruct removing_completes as (s' & R' & Hd); [eapply linv_step; [exact Hr2|exact Hs]|done|].
  exists s'. split; [|done]. etrans; [exact R2|]. by eapply rtc_l.
Qed.

(** C24: [Shutdown] never gets stuck.  From every reachable state in which it
    has been called and has not returned, whatever the loops, a reconciliation,
    an evaluation pass, the probes and their callbacks are in the middle of,
    the goroutines can run to the state in which [Shutdown] has returned; the one
    exception is a refresh interval that is not positive, with which
    [refreshLoop], if it has not begun yet, ends the process instead. *)
Theorem shutdown_completes s :
  lreachable recency clusterRefresh drains s → ph s = PhWaiting ∨ ph s = PhRemoving →
  ∃ s', rtc (lstep recency clusterRefresh drains) s s' ∧
    (ph s' = PhDone ∨ clusterRefresh ≤ 0 ∧ refT s = RefNew ∧ ph s' = PhCrashed).
Proof.
  intros Hr%linv_reachable [Hph|Hph].
  2:{ destruct (removing_completes s Hr Hph) as (s' & ? & ?). exists s'. auto. }
  destruct (decide (clusterRefresh ≤ 0 ∧ refT s = RefNew)) as [[Hz Hn]|Hn].
  - exists (set_ph PhCrashed s). split; [|by auto]. apply rtc_once.
    exists CRefreshBegin. unfold lifeStep. cbn. rewrite Hph, Hn. by rewrite decide_True.
  - destruct (finish_eval recency clusterRefresh drains s Hr Hph) as (s1 & R1 & P1 & E1 & _ & F1).
    assert (linv drains s1) as Hr1 by (eapply rtc_invariant; [apply linv_step|exact R1|done]).
    destruct (waiting_completes s1 Hr1 P1 E1) as (s' & R' & Hd).
    { rewrite F1. destruct (decide (0 < clusterRefresh)); [by left|right]. intros E. apply Hn. split; [lia|done]. }
    exists s'. split; [by etrans|by left].
Qed.
End properties.

(** ** Reconciliation, interleaved *)

Section refinement.
Context `{GR : GoRange}.
Variables (recency clusterRefresh : Z) (drains : bool).

(** What an item of work does to the map of probes; the second component
    numbers new probes. *)
Definition absWork (st : gmap string nat * nat) (w : work) : gmap string nat * nat :=
  match w with
  | WAdd c => match st.1 !! c with Some _ => st | None => (<[c := st.2]> st.1, S st.2) end
  | WRemove c => (delete c st.1, st.2)
  end.

Definition mapOf (s : lifecycle) : gmap string nat * nat := (probes (pr s), length (heap (pr s))).

(** The map once the pending work is done. *)
Definition pending (s : lifecycle) : gmap string nat * nat := foldl absWork (mapOf s) (todo s).

Lemma absWork_adds l st : foldl absWork st (WAdd <$> l.*1) = addLoop l st.
Proof. revert st. induction l as [|[c u] l IH]; intros st; [done|]. cbn. apply IH. Qed.

Lemma absWork_removes d l m n :
  foldl absWork (m, n) (l ≫= λ c, match d !! c with Some _ => [] | None => [WRemove c] end)
  = (removeLoop d l m, n).
Proof.
  revert m. induction l as [|c l IH]; intros m; [done|]. cbn [mbind list_bind].
  rewrite foldl_app, removeLoop_cons. destruct (d !! c); apply IH.
Qed.

Lemma discoverWork_abs d m n : foldl absWork (m, n) (discoverWork d m) = refreshOnce d (m, n).
Proof.
  destruct d as [d|e|e]; [|done..]. unfold discoverWork, reconcileWork, refreshOnce, reconcileClusters.
  destruct d as [|c d]; [done|]. cbv zeta. rewrite foldl_app, absWork_adds. cbn [fst].
  rewrite (surjective_pairing (addLoop _ (m, n))) at 1. apply absWork_removes.
Qed.

(** A step that does not begin another round. *)
Definition goesOn (l : clabel) : bool :=
  match l with CDiscover _ | CRefreshTick _ | CWaitDone => false | _ => true end.

Definition within (s s' : lifecycle) : Prop :=
  ∃ l, goesOn l = true ∧ lifeStep recency clusterRefresh drains l s = Some s'.

Lemma doWork_mapOf w s s' : inv drains (pr s) → doWork w s = Some s' →
  mapOf s' = absWork (mapOf s) w ∧ todo s' = todo s.
Proof.
  intros Hinv. unfold mapOf. destruct w as [c|c]; cbn; destruct (probes (pr s) !! c) as [id|] eqn:E.
  - by intros [= <-].
  - unfold addProbe. rewrite E. destruct (rm (pr s)); intros; simplify_eq/=. split; [|done].
    destruct (rootCancelled s); cbn; rewrite ?length_fmap, length_app; cbn; by rewrite Nat.add_1_r.
  - unfold removeProbe. rewrite E. destruct (rm (pr s)); [|done..].
    destruct (heap (pr s) !! id); intros; simplify_eq/=. by rewrite length_insert.
  - intros [= <-]. by rewrite delete_id.
Qed.

Lemma pending_within s s' : linv drains s → within s s' → pending s' = pending s.
Proof.
  intros Hinv (l & Hl & H). unfold lifeStep in H.
  assert (act recency clusterRefresh drains l s = Some s') as Ha by (by destruct (ph s)). clear H.
  unfold pending. destruct l; try done; cbn in Ha.
  - destruct (ph s); by simplify_eq/=.
  - destruct (ph s), (idle s); by simplify_eq/=.
  - destruct (evalT s); try done. unfold evalTick in Ha. destruct (evalPass (pr s)); by simplify_eq/=.
  - destruct (evalT s), (evalPass (pr s)); by simplify_eq/=.
  - destruct (evalT s), (rootCancelled s); by simplify_eq/=.
  - destruct (refT s); try done. by case_decide; simplify_eq/=.
  - destruct (refT s), (idle s); by simplify_eq/=.
  - destruct (refT s), (rootCancelled s); by simplify_eq/=.
  - destruct (todo s) as [|w ws] eqn:Et; [done|]. destruct (rm (pr s)); try done.
    destruct (doWork w s) as [s1|] eqn:Ew; simplify_eq/=.
    destruct (doWork_mapOf w s s1 (li_pr _ _ Hinv) Ew) as [<- _]. done.
  - destruct (ph s); simplify_eq/=; unfold mapOf; cbn; by rewrite length_fmap.
  - destruct (ph s); simplify_eq/=; unfold mapOf; cbn; by rewrite length_fmap.
  - destruct (ph s), (idle s); by simplify_eq/=.
  - destruct (inner l) eqn:El; [|done]. destruct (step recency drains l (pr s)) as [p|] eqn:Es; simplify_eq/=.
    destruct (inner_frame _ _ _ _ _ El Es) as (Ep & _ & _ & Ec). unfold mapOf. cbn. rewrite Ep.
    apply (f_equal length) in Ec. unfold cancels in Ec. rewrite !length_fmap in Ec. by rewrite Ec.
Qed.

(** C28: an interleaved round of reconciliation does what the sequential one
    does.  From the step in which [Start] or [refreshLoop] receives a discovery
    to the step in which its work is done, through any steps of the probes, the
    evaluation loop, cancellation and a shutdown that begins meanwhile, the map
    of probes becomes exactly what [reconcileClusters] makes of it. *)
Theorem reconcile_refines s l d s1 s2 :
  lreachable recency clusterRefresh drains s → l = CDiscover d ∨ l = CRefreshTick d →
  lifeStep recency clusterRefresh drains l s = Some s1 → rtc within s1 s2 → idle s2 = true →
  mapOf s2 = refreshOnce d (mapOf s).
Proof.
  intros Hr Hl H1 H2 [Ht _]%idle_true.
  assert (linv drains s1) as Hinv1.
  { eapply linv_step; [by apply linv_reachable in Hr|]. by exists l. }
  assert (pending s1 = refreshOnce d (mapOf s)) as E1.
  { unfold mapOf. rewrite <- discoverWork_abs. unfold lifeStep in H1.
    destruct Hl as [-> | ->]; cbn in H1; [by destruct (ph s); simplify_eq/=|].
    by destruct (ph s), (refT s); simplify_eq/=. }
  rewrite <- E1. transitivity (pending s2); [by unfold pending; rewrite Ht|].
  clear E1 H1 Hl Ht. induction H2 as [|s1 s' s2 Hs _ IH]; [done|].
  rewrite IH; [by apply pending_within|]. eapply linv_step; [exact Hinv1|].
  destruct Hs as (l' & _ & Hs). by exists l'.
Qed.
End refinement.

(** ** Witnesses *)

(** A probe is started for one cluster; [Shutdown] is called while an
    evaluation pass is running. *)
Definition stop_run : list clabel :=
  [CStart true; CDiscover (Ret ["c"]); CWork; CSpawn; CRefreshBegin; CInner (LConsumerStart 0); CInner (LConsumerUp 0);
   CInner (LSend 0 5 5 6 None); CEvalTick 7; CShutdown].

(** The rest of a shutdown: the loops return, the probe is removed. *)
Definition stop_rest : list clabel :=
  repeat (CInner LEvalStep) 8 ++
  [CEvalDone; CEvalExit; CRefreshExit; CWaitDone; CWork] ++ repeat (CInner (LProduce 0)) 5 ++
  [CInner (LProduceExit 0); CInner LRemoveWait; CInner LRemoveShutdown; CInner LRemoveClear; CProdShutdown].

Local Abbreviation demoStep := (@lifeStep std_goRange 10 60 true).
Definition stopping : lifecycle := default newLife (lts_run demoStep stop_run newLife).
Definition stopped_life : lifecycle := default newLife (lts_run demoStep (stop_run ++ stop_rest) newLife).

Lemma shutdown_quiescent_witness :
  ph stopped_life = PhDone ∧ probes (pr stopped_life) = ∅.
Proof.
  assert (ph stopped_life = PhDone) as Hd by (vm_compute; reflexivity). split; [exact Hd|].
  apply (@shutdown_quiescent std_goRange 10 60 true stopped_life); [|exact Hd].
  apply (lts_run_rtc demoStep (stop_run ++ stop_rest)). vm_compute. reflexivity.
Defined.

Lemma shutdown_completes_witness :
  ∃ s', rtc (@lstep std_goRange 10 60 true) stopping s' ∧ ph s' = PhDone.
Proof.
  destruct (@shutdown_completes std_goRange 10 60 true stopping) as (s' & R & [Hd|(Hz & _)]).
  - apply (lts_run_rtc demoStep stop_run). vm_compute. reflexivity.
  - left. vm_compute. reflexivity.
  - exists s'. split; [exact R|exact Hd].
  - exfalso. lia.
Defined.

(** A refresh interval that is not positive crashes the process: the ticker of
    [refreshLoop] panics. *)
Example zero_refresh_crashes :
  ph <$> lts_run (@lifeStep std_goRange 10 0 true) [CStart true; CDiscover (Ret ["c"]); CWork; CSpawn; CEvalTick 7; CRefreshBegin] newLife
  = Some PhCrashed.
Proof. vm_compute. reflexivity. Qed.

(** A refresh finds a new cluster and misses the old one, whose probe sends a
    message in the meantime. *)
Definition refresh_before : list clabel := [CStart true; CDiscover (Ret ["c"]); CWork; CSpawn; CRefreshBegin].
Definition refresh_round : list clabel :=
  [CInner (LSend 0 5 5 6 None); CWork; CWork; CEvalTick 7] ++ repeat (CInner LEvalStep) 8 ++
  repeat (CInner (LProduce 0)) 5 ++
  [CInner (LProduceExit 0); CInner (LRetryExit 0); CInner LRemoveWait; CInner LRemoveShutdown; CInner LRemoveClear].

Definition running_life : lifecycle := default newLife (lts_run demoStep refresh_before newLife).
Definition round_begun : lifecycle := default newLife (demoStep (CRefreshTick (Ret ["d"])) running_life).
Definition round_done : lifecycle := default newLife (lts_run demoStep refresh_round round_begun).

Lemma within_run ls s s' :
  forallb goesOn ls = true → lts_run demoStep ls s = Some s' → rtc (@within std_goRange 10 60 true) s s'.
Proof.
  unfold lts_run. revert s. induction ls as [|l ls IH]; intros s Hl H; simpl in Hl, H.
  - simplify_eq. constructor.
  - apply andb_true_iff in Hl as [Hg Hl]. destruct (demoStep l s) as [s1|] eqn:E; [|by rewrite lts_run_none in H].
    apply rtc_l with s1; [by exists l|]. by apply IH.
Qed.

Lemma reconcile_refines_witness :
  probes (pr round_done) = {["d" := 1%nat]} ∧ mapOf round_done = @refreshOnce std_goRange (Ret ["d"]) (mapOf running_life).
Proof.
  split; [vm_compute; reflexivity|].
  apply (@reconcile_refines std_goRange 10 60 true running_life (CRefreshTick (Ret ["d"])) (Ret ["d"]) round_begun).
  - apply (lts_run_rtc demoStep refresh_before). vm_compute. reflexivity.
  - right. reflexivity.
  - vm_compute. reflexivity.
  - apply (within_run refresh_round); vm_compute; reflexivity.
  - vm_compute. reflexivity.
Defined.
