(* ===== verification/RemotingClient.v ===== *)
(** * The remoting client: internal/rmqremote/remote_client.go

    Part one: one request and response on a connection, as a function of the
    bytes the peer sends.  Part two: the connection pools and their concurrent
    callers as a labelled transition system.  A connection is an index into the
    list of all connections ever dialled, a pool channel an index into the list
    of all channels ever made; what the network does (a dial that succeeds or
    fails, an exchange that succeeds or fails) is chosen by the label. *)

From Stdlib Require Import ZArith Lia String.
From S2P Require Import Prelude GoStrings Codec.

Definition connPoolSizePerAddr : nat := 32.

(** ** One exchange on a connection *)

Section exchange.
Context (js rs : serializer).

(** [werr] is the error of the write; [incoming] what the peer sends before it
    closes.  The result carries the bytes left in the stream. *)
Definition invokeOnConn (addr : string) (werr : option error) (incoming : bytes)
    : outcome (RemotingCommand * bytes) :=
  match werr with
  | Some e => Fail (EWrap "remoting write %s: %w" [addr] e)
  | None =>
      '(length, buf) ← wrapErr "remoting read length %s: %w" [addr] (readInt 4 incoming);
      if decide (length ≤ 0)
      then Fail (EMsg "remoting %s: non-positive response length %d" [addr; FormatInt length])
      else
        n ← makeLen length;
        '(payload, rest) ← wrapErr "remoting read payload %s: %w" [addr] (readFull n buf);
        resp ← wrapErr "remoting decode %s: %w" [addr] (decode js rs payload);
        Ret (resp, rest)
  end.

(** An exchange consumes exactly one frame.  When the peer answers with a
    frame [encode] made, [invokeOnConn] returns that command and leaves in the
    stream exactly what follows the frame, so the next exchange on a pooled
    connection starts at a frame boundary. *)
Theorem invokeOnConn_frame ok norm ct c f rest addr :
  ct = JsonCodecs ∨ ct = RocketMQCodecs →
  SerializerOk (selected js rs ct) ok norm →
  ok c → encode js rs ct c = Ret f →
  len f < 4 + 2 ^ 31 → len f < 8 + 2 ^ 24 + len (Body c) →
  invokeOnConn addr None (f ++ rest) = Ret (set_body (Body c) (norm c), rest).
Proof.
  intros Hct Hser Hok Hf Hl1 Hl2.
  destruct (frame_roundtrip js rs ok norm ct c f Hct Hser Hok Hf Hl1 Hl2)
    as (payload & -> & Hlen & Hd).
  unfold invokeOnConn. rewrite <- app_assoc.
  rewrite (readInt_app 4) by (unfold in_int; simpl; lia). cbn [wrapErr mbind outcome_bind].
  rewrite decide_False by lia. unfold makeLen. rewrite decide_False by lia.
  cbn [mbind outcome_bind]. rewrite readFull_len. cbn [wrapErr mbind outcome_bind]. by rewrite Hd.
Qed.

(** A response is accepted only from a complete frame.  Whenever
    [invokeOnConn] returns a command the write had succeeded and the stream began
    with a positive 32-bit size word followed by that many bytes, which decode to
    the command; a write error, a closed or short stream, a size that is not
    positive and an undecodable payload are all errors. *)
Theorem invokeOnConn_sound addr werr incoming c rest :
  invokeOnConn addr werr incoming = Ret (c, rest) →
  werr = None ∧ ∃ word payload,
    incoming = word ++ payload ++ rest ∧ length word = 4%nat ∧
    get_int word = len payload ∧ 0 < len payload ∧ decode js rs payload = Ret c.
Proof.
  unfold invokeOnConn. destruct werr; [done|]. intros H. split; [done|].
  apply bind_ret_inv in H as ([n buf] & Hn & H). apply wrapErr_ret in Hn.
  unfold readInt in Hn. apply bind_ret_inv in Hn as ([word buf'] & Hw & [= <- <-]).
  apply readFull_ret in Hw as [-> Hw]. case_decide as Hpos; [done|].
  unfold makeLen in H. rewrite decide_False in H by lia. cbn [mbind outcome_bind] in H.
  apply bind_ret_inv in H as ([payload rest'] & Hp & H). apply wrapErr_ret, readFull_ret in Hp as [-> Hp].
  apply bind_ret_inv in H as (resp & Hd & [= -> ->]). apply wrapErr_ret in Hd.
  exists word, payload. repeat split; try done; unfold len; lia.
Qed.
End exchange.

(** ** Pools and callers *)

Record conn : Type := mkConn { caddr : string; opened : bool }.

(** A pool channel: the address it was made for and its buffer. *)
Record chan : Type := mkChan { chAddr : string; chBuf : list nat }.

(** Where a caller of [InvokeSync] is. *)
Inductive caller : Type :=
| CIdle
| CTake (addr : string)                  (* in takeConn, before poolFor *)
| CRecv (addr : string) (ch : nat)       (* in takeConn, at the select *)
| CDial (addr : string)                  (* before the fresh dial *)
| COwn (addr : string) (cid : nat) (pooled : bool)  (* in invokeOnConn *)
| CPut (addr : string) (cid : nat)       (* in putConn, before poolFor *)
| CSend (addr : string) (ch cid : nat).  (* in putConn, at the select *)

Record client : Type := mkClient {
  pools : gmap string nat;
  chans : list chan;
  conns : list conn;
  callers : list caller;
  draining : option (list nat);
  wasShut : bool
}.

Definition NewRemotingClient (ncallers : nat) : client :=
  mkClient ∅ [] [] (repeat CIdle ncallers) None false.

Definition set_caller (i : nat) (g : caller) (s : client) : client :=
  mkClient (pools s) (chans s) (conns s) (<[i := g]> (callers s)) (draining s) (wasShut s).
Definition set_chan (ch : nat) (c : chan) (s : client) : client :=
  mkClient (pools s) (<[ch := c]> (chans s)) (conns s) (callers s) (draining s) (wasShut s).
Definition close (cid : nat) (s : client) : client :=
  mkClient (pools s) (chans s) (alter (λ c, mkConn (caddr c) false) cid (conns s))
    (callers s) (draining s) (wasShut s).
Definition set_draining (d : option (list nat)) (s : client) : client :=
  mkClient (pools s) (chans s) (conns s) (callers s) d (wasShut s).

Definition poolFor (addr : string) (s : client) : client * nat :=
  match pools s !! addr with
  | Some ch => (s, ch)
  | None =>
      let ch := length (chans s) in
      (mkClient (<[addr := ch]> (pools s)) (chans s ++ [mkChan addr []]) (conns s)
         (callers s) (draining s) (wasShut s), ch)
  end.

Definition dial (addr : string) (s : client) : client * nat :=
  (mkClient (pools s) (chans s) (conns s ++ [mkConn addr true]) (callers s) (draining s) (wasShut s),
   length (conns s)).

Inductive label : Type :=
| LCall (i : nat) (addr : string)
| LPoolFor (i : nat)
| LSelect (i : nat)
| LDial (i : nat) (ok : bool)
| LExchange (i : nat) (ok : bool)
| LShutdown (order : list nat)
| LDrain.

(** [poolFor] takes [c.mu], which [Shutdown] holds while it drains. *)
Definition stepPoolFor (i : nat) (s : client) : option client :=
  match draining s, callers s !! i with
  | None, Some (CTake addr) => let '(s', ch) := poolFor addr s in Some (set_caller i (CRecv addr ch) s')
  | None, Some (CPut addr cid) =>
      let '(s', ch) := poolFor addr s in Some (set_caller i (CSend addr ch cid) s')
  | _, _ => None
  end.

(** The select of [takeConn] and of [putConn]. *)
Definition stepSelect (i : nat) (s : client) : option client :=
  match callers s !! i with
  | Some (CRecv addr ch) =>
      c ← chans s !! ch;
      match chBuf c with
      | cid :: rest => Some (set_caller i (COwn addr cid true) (set_chan ch (mkChan (chAddr c) rest) s))
      | [] => Some (set_caller i (CDial addr) s)
      end
  | Some (CSend addr ch cid) =>
      c ← chans s !! ch;
      if decide (length (chBuf c) < connPoolSizePerAddr)%nat
      then Some (set_caller i CIdle (set_chan ch (mkChan (chAddr c) (chBuf c ++ [cid])) s))
      else Some (set_caller i CIdle (close cid s))
  | _ => None
  end.

Definition stepDial (i : nat) (ok : bool) (s : client) : option client :=
  match callers s !! i with
  | Some (CDial addr) =>
      if ok then let '(s', cid) := dial addr s in Some (set_caller i (COwn addr cid false) s')
      else Some (set_caller i CIdle s)
  | _ => None
  end.

(** After [invokeOnConn]: on success the connection is put back; on failure it
    is closed, and a pooled one is retried with a fresh dial. *)
Definition stepExchange (i : nat) (ok : bool) (s : client) : option client :=
  match callers s !! i with
  | Some (COwn addr cid pooled) =>
      if ok then Some (set_caller i (CPut addr cid) s)
      else Some (set_caller i (if pooled then CDial addr else CIdle) (close cid s))
  | _ => None
  end.

(** [Shutdown] takes [c.mu] and visits the channels of the map in some order. *)
Definition beginShutdown (order : list nat) (s : client) : option client :=
  match draining s with
  | None =>
      if decide (order ≡ₚ (map_to_list (pools s)).*2)
      then Some (mkClient (pools s) (chans s) (conns s) (callers s) (Some order) true)
      else None
  | Some _ => None
  end.

Definition stepDrain (s : client) : option client :=
  match draining s with
  | None => None
  | Some (ch :: rest) =>
      c ← chans s !! ch;
      match chBuf c with
      | cid :: b => Some (close cid (set_chan ch (mkChan (chAddr c) b) s))
      | [] => Some (set_draining (Some rest) s)
      end
  | Some [] => Some (mkClient ∅ (chans s) (conns s) (callers s) None true)
  end.

Definition step (l : label) (s : client) : option client :=
  match l with
  | LCall i addr => match callers s !! i with Some CIdle => Some (set_caller i (CTake addr) s) | _ => None end
  | LPoolFor i => stepPoolFor i s
  | LSelect i => stepSelect i s
  | LDial i ok => stepDial i ok s
  | LExchange i ok => stepExchange i ok s
  | LShutdown order => beginShutdown order s
  | LDrain => stepDrain s
  end.

Definition cstep : client → client → Prop := lts_step step.
Definition reachable (n : nat) (s : client) : Prop := rtc cstep (NewRemotingClient n) s.

(** ** Ownership *)

(** The connection a caller holds. *)
Definition own (g : caller) : list nat :=
  match g with COwn _ c _ | CPut _ c | CSend _ _ c => [c] | _ => [] end.

(** Every connection in a channel or in a caller's hands. *)
Definition held (s : client) : list nat := (chans s ≫= chBuf) ++ (callers s ≫= own).

(** The held connections are exactly the open ones, each held once. *)
Record own_ok (cs : list conn) (H : list nat) : Prop := {
  own_nodup : NoDup H;
  own_open : ∀ cid c, cs !! cid = Some c → (opened c = true ↔ cid ∈ H);
  own_valid : ∀ cid, cid ∈ H → (cid < length cs)%nat
}.

Lemma own_perm cs H H' : H ≡ₚ H' → own_ok cs H → own_ok cs H'.
Proof.
  intros HP [Hn Ho Hv]. split.
  - by rewrite <- HP.
  - intros cid c Hc. by rewrite <- HP, Ho.
  - intros cid Hin. apply Hv. by rewrite HP.
Qed.

Lemma own_close cs cid H :
  own_ok cs (cid :: H) → own_ok (alter (λ c, mkConn (caddr c) false) cid cs) H.
Proof.
  intros [Hn Ho Hv]. apply NoDup_cons in Hn as [Hnot Hn]. split; [done| |].
  - intros i c Hc. destruct (decide (i = cid)) as [->|Hne].
    + rewrite list_lookup_alter_eq in Hc. destruct (cs !! cid); simplify_eq/=.
      split; [done|]. by intros ?%Hnot.
    + rewrite list_lookup_alter_ne in Hc by done. rewrite (Ho i c Hc), elem_of_cons. tauto.
  - intros i Hin. rewrite length_alter. apply Hv. by right.
Qed.

Lemma own_dial cs H addr :
  own_ok cs H → own_ok (cs ++ [mkConn addr true]) (length cs :: H).
Proof.
  intros [Hn Ho Hv]. split.
  - apply NoDup_cons. split; [|done]. intros Hin%Hv. lia.
  - intros i c Hc. rewrite elem_of_cons. apply lookup_app_Some in Hc as [Hc|[Hle Hc]].
    + rewrite (Ho i c Hc). apply lookup_lt_Some in Hc. split; [by right|intros [?|?]; [lia|done]].
    + apply list_lookup_singleton_Some in Hc as [Hz <-]. simpl. split; [|done]. intros _. left. lia.
  - intros i [->|Hin]%elem_of_cons; rewrite length_app; simpl; [lia|]. apply Hv in Hin. lia.
Qed.

Lemma callers_perm s i g g' :
  callers s !! i = Some g → (<[i := g']> (callers s) ≫= own) ++ own g ≡ₚ (callers s ≫= own) ++ own g'.
Proof. apply bind_insert_perm. Qed.

Lemma chans_perm s ch c c' :
  chans s !! ch = Some c →
  (<[ch := c']> (chans s) ≫= chBuf) ++ chBuf c ≡ₚ (chans s ≫= chBuf) ++ chBuf c'.
Proof. apply bind_insert_perm. Qed.

(** ** Shape *)

Definition chan_for (cs : list chan) (ch : nat) (a : string) : Prop :=
  ∃ c, cs !! ch = Some c ∧ chAddr c = a.
Definition conn_for (cs : list conn) (cid : nat) (a : string) : Prop :=
  ∃ c, cs !! cid = Some c ∧ caddr c = a.

(** A caller holds connections and channels of the address it calls. *)
Definition caller_ok (chs : list chan) (cs : list conn) (g : caller) : Prop :=
  match g with
  | CIdle | CTake _ | CDial _ => True
  | CRecv a ch => chan_for chs ch a
  | COwn a cid _ | CPut a cid => conn_for cs cid a
  | CSend a ch cid => chan_for chs ch a ∧ conn_for cs cid a
  end.

Record shape (s : client) : Prop := {
  sh_buf : ∀ ch c, chans s !! ch = Some c →
    (length (chBuf c) ≤ connPoolSizePerAddr)%nat ∧
    Forall (λ cid, conn_for (conns s) cid (chAddr c)) (chBuf c);
  sh_pools : ∀ a ch, pools s !! a = Some ch → chan_for (chans s) ch a;
  sh_callers : ∀ i g, callers s !! i = Some g → caller_ok (chans s) (conns s) g;
  sh_cover : wasShut s = false → ∀ ch c, chans s !! ch = Some c → pools s !! chAddr c = Some ch
}.

(** Channels and connections keep their addresses. *)
Definition grows (s s' : client) : Prop :=
  (∀ ch a, chan_for (chans s) ch a → chan_for (chans s') ch a) ∧
  (∀ cid a, conn_for (conns s) cid a → conn_for (conns s') cid a).

Lemma caller_ok_grows s s' g :
  grows s s' → caller_ok (chans s) (conns s) g → caller_ok (chans s') (conns s') g.
Proof. intros [H1 H2]. destruct g; simpl; auto. intros []. auto. Qed.

Lemma Forall_conn_grows s s' a l :
  grows s s' → Forall (λ cid, conn_for (conns s) cid a) l → Forall (λ cid, conn_for (conns s') cid a) l.
Proof. intros [_ H] Hl. eapply Forall_impl; [exact Hl|]. auto. Qed.

Lemma conn_for_close cs cid i a :
  conn_for cs i a → conn_for (alter (λ c, mkConn (caddr c) false) cid cs) i a.
Proof.
  intros (c & Hc & Ha). destruct (decide (i = cid)) as [->|Hne].
  - exists (mkConn (caddr c) false). by rewrite list_lookup_alter_eq, Hc.
  - exists c. by rewrite list_lookup_alter_ne.
Qed.

Lemma chan_for_set cs ch c0 c' i a :
  cs !! ch = Some c0 → chAddr c' = chAddr c0 → chan_for cs i a → chan_for (<[ch := c']> cs) i a.
Proof.
  intros H0 Hc (c & Hc1 & Ha). destruct (decide (i = ch)) as [->|Hne].
  - exists c'. rewrite list_lookup_insert_eq by eauto using lookup_lt_Some. split; [done|]. congruence.
  - exists c. by rewrite list_lookup_insert_ne.
Qed.

(** ** Preservation of the shape by the updates *)

Lemma shape_caller s i g :
  shape s → caller_ok (chans s) (conns s) g → shape (set_caller i g s).
Proof.
  intros [H1 H2 H3 H4] Hg. split; cbn; try done.
  intros j g' Hj. apply list_lookup_insert_Some in Hj as [(-> & -> & _)|[_ Hj]]; eauto.
Qed.

Lemma shape_close s cid : shape s → shape (close cid s).
Proof.
  intros [H1 H2 H3 H4].
  assert (Hg : grows s (close cid s)) by (split; cbn; auto using conn_for_close).
  split; cbn; try done.
  - intros ch c Hc. destruct (H1 ch c Hc). split; [done|].
    by eapply (Forall_conn_grows s (close cid s)).
  - intros i g Hi. eapply (caller_ok_grows s (close cid s)); eauto.
Qed.

Lemma shape_chan s ch c b :
  shape s → chans s !! ch = Some c → (length b ≤ connPoolSizePerAddr)%nat →
  Forall (λ cid, conn_for (conns s) cid (chAddr c)) b →
  shape (set_chan ch (mkChan (chAddr c) b) s).
Proof.
  intros [H1 H2 H3 H4] Hc Hl Hb.
  assert (Hf : ∀ i a, chan_for (chans s) i a →
                      chan_for (<[ch := mkChan (chAddr c) b]> (chans s)) i a).
  { intros i a. by apply (chan_for_set _ _ c). }
  assert (Hg : grows s (set_chan ch (mkChan (chAddr c) b) s)) by (split; cbn; auto).
  split; cbn; try done.
  - intros i c' Hi. apply list_lookup_insert_Some in Hi as [(-> & <- & _)|[_ Hi]]; [done|].
    exact (H1 _ _ Hi).
  - auto.
  - intros i g Hi.
    eapply (caller_ok_grows s (set_chan ch (mkChan (chAddr c) b) s)); eauto.
  - intros Hs i c' Hi. apply list_lookup_insert_Some in Hi as [(-> & <- & _)|[_ Hi]]; [|auto].
    simpl. by apply H4.
Qed.

Lemma shape_poolFor s addr s' ch :
  shape s → poolFor addr s = (s', ch) →
  shape s' ∧ grows s s' ∧ chan_for (chans s') ch addr ∧ held s' = held s ∧ conns s' = conns s ∧
  callers s' = callers s.
Proof.
  intros [H1 H2 H3 H4] H. unfold poolFor in H. destruct (pools s !! addr) as [ch'|] eqn:E; simplify_eq.
  { split; [done|]. split; [by split|]. auto. }
  assert (Hg : ∀ i a, chan_for (chans s) i a → chan_for (chans s ++ [mkChan addr []]) i a).
  { intros i a (c & Hc & Ha). exists c. split; [by apply lookup_app_l_Some|done]. }
  assert (Hnew : chan_for (chans s ++ [mkChan addr []]) (length (chans s)) addr).
  { exists (mkChan addr []). by rewrite list_lookup_middle. }
  split; [|split; [by split|split; [done|split; [|done]]]].
  - split; cbn.
    + intros i c Hc. apply lookup_app_Some in Hc as [Hc|[_ Hc]]; [exact (H1 _ _ Hc)|].
      apply list_lookup_singleton_Some in Hc as [_ <-]. simpl. split; [lia|constructor].
    + intros a i Hi. destruct (decide (a = addr)) as [->|Hne].
      * rewrite lookup_insert_eq in Hi. by simplify_eq.
      * rewrite lookup_insert_ne in Hi by done. auto.
    + intros i g Hi. specialize (H3 i g Hi). destruct g; simpl in *; auto.
      destruct H3. auto.
    + intros Hs i c Hc. apply lookup_app_Some in Hc as [Hc|[Hle Hc]].
      * rewrite lookup_insert_ne; [auto|]. intros ->. rewrite (H4 Hs i c Hc) in E. done.
      * apply list_lookup_singleton_Some in Hc as [Hz <-]. simpl. rewrite lookup_insert_eq. f_equal. lia.
  - unfold held. cbn. by rewrite bind_app, app_nil_r.
Qed.

(** ** The invariant *)

Record inv (s : client) : Prop := {
  inv_own : own_ok (conns s) (held s);
  inv_shape : shape s;
  inv_drain : ∀ l ch, draining s = Some l → ch ∈ l → is_Some (chans s !! ch)
}.

Lemma client_inv_initial n : inv (NewRemotingClient n).
Proof.
  assert (Hown : repeat CIdle n ≫= own = []) by (induction n; done).
  split; [|split|]; cbn; try done.
  - unfold held. cbn. rewrite Hown. split; [constructor|done|]. intros ? H. by apply elem_of_nil in H.
  - intros i g Hg. apply list_elem_of_lookup_2, list_elem_of_In, repeat_spec in Hg. by subst.
Qed.

(** A caller that goes on without gaining or losing a connection. *)
Lemma inv_caller s i g g' :
  inv s → callers s !! i = Some g → own g' ≡ₚ own g → caller_ok (chans s) (conns s) g' →
  inv (set_caller i g' s).
Proof.
  intros [Ho Hs Hd] Hi Hown Hg. split; [|by apply shape_caller|done].
  eapply own_perm; [|exact Ho]. unfold held. cbn. apply Permutation_app_head.
  pose proof (callers_perm s i g g' Hi) as HP. rewrite Hown in HP.
  symmetry. by apply Permutation_app_inv_r in HP.
Qed.

Lemma inv_poolFor s i g g' addr s' ch :
  inv s → callers s !! i = Some g → poolFor addr s = (s', ch) → own g' ≡ₚ own g →
  (chan_for (chans s') ch addr → caller_ok (chans s') (conns s') g → caller_ok (chans s') (conns s') g') →
  draining s = None → inv (set_caller i g' s').
Proof.
  intros [Ho Hs Hd] Hi Hp Hown Hg Hdr.
  destruct (shape_poolFor s addr s' ch Hs Hp) as (Hs' & Hgr & Hch & Hh & Hc & Hca).
  assert (Hdr' : draining s' = None).
  { unfold poolFor in Hp. destruct (pools s !! addr); by simplify_eq. }
  apply (inv_caller s' i g g'); [|by rewrite Hca|done|].
  - split; [by rewrite Hc, Hh|done|]. intros l c Hl. congruence.
  - apply Hg; [done|]. eapply caller_ok_grows; [exact Hgr|]. by apply (sh_callers s Hs i).
Qed.

Lemma inv_stepPoolFor i s s' : inv s → stepPoolFor i s = Some s' → inv s'.
Proof.
  intros Hinv H. unfold stepPoolFor in H. destruct (draining s) eqn:Ed; [done|].
  destruct (callers s !! i) as [g|] eqn:Hi; [|done].
  destruct g as [|addr| | | |addr cid|]; try done;
    destruct (poolFor addr s) as [s1 ch] eqn:Ep; simplify_eq;
    eapply inv_poolFor; try done; simpl; auto.
Qed.

(** A closed connection leaves the hands of a caller. *)
Lemma inv_close_caller s i g g' cid :
  inv s → callers s !! i = Some g → own g = [cid] → own g' = [] →
  caller_ok (chans s) (conns s) g' → inv (set_caller i g' (close cid s)).
Proof.
  intros [Ho Hs Hd] Hi Hg Hg' Hok. split; cbn; [| |done].
  - apply own_close. eapply own_perm; [|exact Ho]. unfold held. cbn.
    pose proof (callers_perm s i g g' Hi) as HP. rewrite Hg, Hg', app_nil_r in HP.
    rewrite <- HP. solve_Permutation.
  - apply shape_caller; [by apply shape_close|]. cbn.
    eapply (caller_ok_grows s (close cid s)); [|exact Hok]. split; cbn; auto using conn_for_close.
Qed.

Lemma inv_stepSelect i s s' : inv s → stepSelect i s = Some s' → inv s'.
Proof.
  intros Hinv H. unfold stepSelect in H. destruct (callers s !! i) as [g|] eqn:Hi; [|done].
  pose proof Hinv as [Ho Hs Hd]. pose proof (sh_callers s Hs i g Hi) as Hok.
  destruct g as [| |addr ch| | | |addr ch cid]; try done.
  - destruct (chans s !! ch) as [c|] eqn:Hc; [|done]. simpl in H.
    destruct (sh_buf s Hs ch c Hc) as [Hl Hf]. destruct (chBuf c) as [|cid rest] eqn:Eb; simplify_eq.
    + by eapply inv_caller.
    + apply Forall_cons in Hf as [Hcid Hf]. destruct Hok as (c' & Hc' & <-).
      rewrite Hc in Hc'. injection Hc' as <-. simpl in Hl. split; cbn.
      * eapply own_perm; [|exact Ho]. unfold held. cbn.
        pose proof (callers_perm s i _ (COwn (chAddr c) cid true) Hi) as HP1.
        pose proof (chans_perm s ch c (mkChan (chAddr c) rest) Hc) as HP2.
        cbn [own chBuf] in HP1, HP2. rewrite app_nil_r in HP1. rewrite Eb in HP2.
        assert (HP3 : (<[ch := mkChan (chAddr c) rest]> (chans s) ≫= chBuf) ++ [cid] ≡ₚ (chans s ≫= chBuf)).
        { apply (Permutation_app_inv_r rest). rewrite <- app_assoc. exact HP2. }
        rewrite HP1, <- HP3. solve_Permutation.
      * apply shape_caller; [apply shape_chan; try done; lia|done].
      * intros l i' Hl' Hin. apply list_lookup_insert_is_Some. by eapply Hd.
  - destruct (chans s !! ch) as [c|] eqn:Hc; [|done]. simpl in H. case_decide as Hlt; simplify_eq.
    + destruct Hok as [(c' & Hc' & <-) Hcid]. rewrite Hc in Hc'. injection Hc' as <-.
      destruct (sh_buf s Hs ch c Hc) as [Hl Hf]. split; cbn.
      * eapply own_perm; [|exact Ho]. unfold held. cbn.
        pose proof (callers_perm s i _ CIdle Hi) as HP1.
        pose proof (chans_perm s ch c (mkChan (chAddr c) (chBuf c ++ [cid])) Hc) as HP2.
        cbn [own chBuf] in HP1, HP2. rewrite app_nil_r in HP1.
        assert (HP3 : (<[ch := mkChan (chAddr c) (chBuf c ++ [cid])]> (chans s) ≫= chBuf)
                      ≡ₚ (chans s ≫= chBuf) ++ [cid]).
        { apply (Permutation_app_inv_r (chBuf c)). rewrite HP2. solve_Permutation. }
        rewrite HP3, <- HP1. solve_Permutation.
      * apply shape_caller; [|done]. apply shape_chan; try done.
        -- rewrite length_app. simpl. unfold connPoolSizePerAddr in *. lia.
        -- apply Forall_app. by repeat constructor.
      * intros l i' Hl' Hin. apply list_lookup_insert_is_Some. by eapply Hd.
    + by eapply inv_close_caller.
Qed.

Lemma inv_stepDial i ok s s' : inv s → stepDial i ok s = Some s' → inv s'.
Proof.
  intros Hinv H. unfold stepDial in H. destruct (callers s !! i) as [g|] eqn:Hi; [|done].
  destruct g as [| | |addr| | |]; try done. destruct ok; simplify_eq/=; [|by eapply inv_caller].
  destruct Hinv as [Ho Hs Hd].
  set (s1 := mkClient (pools s) (chans s) (conns s ++ [mkConn addr true]) (callers s) (draining s) (wasShut s)).
  assert (Hgr : grows s s1).
  { split; cbn; [done|]. intros cid a (c & Hc & Ha). exists c. split; [by apply lookup_app_l_Some|done]. }
  assert (Hs1 : shape s1).
  { destruct Hs as [H1 H2 H3 H4]. split; cbn; try done.
    - intros ch c Hc. destruct (H1 ch c Hc). split; [done|]. by eapply (Forall_conn_grows s s1).
    - intros j g Hj. eapply (caller_ok_grows s s1); eauto. }
  split; [| |done].
  - cbn. eapply own_perm; [|apply own_dial, Ho]. unfold held. cbn.
    pose proof (callers_perm s i _ (COwn addr (length (conns s)) false) Hi) as HP.
    cbn [own] in HP. rewrite app_nil_r in HP. rewrite HP. solve_Permutation.
  - apply shape_caller; [done|]. cbn. exists (mkConn addr true). by rewrite list_lookup_middle.
Qed.

Lemma inv_stepExchange i ok s s' : inv s → stepExchange i ok s = Some s' → inv s'.
Proof.
  intros Hinv H. unfold stepExchange in H. destruct (callers s !! i) as [g|] eqn:Hi; [|done].
  destruct g as [| | | |addr cid pooled| |]; try done.
  pose proof (sh_callers s (inv_shape s Hinv) i _ Hi) as Hok.
  destruct ok; simplify_eq; [by eapply inv_caller|]. by eapply inv_close_caller; destruct pooled.
Qed.

Lemma inv_beginShutdown order s s' : inv s → beginShutdown order s = Some s' → inv s'.
Proof.
  intros [Ho Hs Hd] H. unfold beginShutdown in H. destruct (draining s); [done|].
  case_decide as Hp; simplify_eq. destruct Hs as [H1 H2 H3 H4]. split; [done|by split|]. cbn.
  intros l ch [= <-] Hin. rewrite Hp in Hin. apply list_elem_of_fmap in Hin as ([a ch'] & -> & Hin).
  apply elem_of_map_to_list in Hin. destruct (H2 a ch' Hin) as (c & Hc & _). eauto.
Qed.

Lemma inv_stepDrain s s' : inv s → stepDrain s = Some s' → inv s'.
Proof.
  intros [Ho Hs Hd] H. unfold stepDrain in H. destruct (draining s) as [[|ch rest]|] eqn:Ed; [| |done].
  - simplify_eq. destruct Hs as [H1 H2 H3 H4]. split; [done|by split|done].
  - destruct (chans s !! ch) as [c|] eqn:Hc; [|done]. simpl in H.
    destruct (chBuf c) as [|cid b] eqn:Eb; simplify_eq.
    + destruct Hs as [H1 H2 H3 H4]. split; [done|by split|]. cbn. intros l i [= <-] Hin.
      apply (Hd (ch :: rest)); [done|by right].
    + destruct (sh_buf s Hs ch c Hc) as [Hl Hf]. rewrite Eb in Hl, Hf. simpl in Hl.
      apply Forall_cons in Hf as [_ Hf]. split; cbn.
      * apply own_close. eapply own_perm; [|exact Ho]. unfold held. cbn.
        pose proof (chans_perm s ch c (mkChan (chAddr c) b) Hc) as HP. cbn [chBuf] in HP. rewrite Eb in HP.
        assert (HP3 : (<[ch := mkChan (chAddr c) b]> (chans s) ≫= chBuf) ++ [cid] ≡ₚ (chans s ≫= chBuf)).
        { apply (Permutation_app_inv_r b). rewrite <- app_assoc. exact HP. }
        rewrite <- HP3. solve_Permutation.
      * apply shape_close, shape_chan; try done. lia.
      * intros l i Hl' Hin. apply list_lookup_insert_is_Some. eapply Hd; [|exact Hin]. congruence.
Qed.

Lemma client_inv_step s s' : inv s → cstep s s' → inv s'.
Proof.
  intros Hinv [l H]. destruct l; simpl in H.
  - destruct (callers s !! i) as [[]|] eqn:Hi; simplify_eq. by eapply inv_caller.
  - by eapply inv_stepPoolFor.
  - by eapply inv_stepSelect.
  - by eapply inv_stepDial.
  - by eapply inv_stepExchange.
  - by eapply inv_beginShutdown.
  - by eapply inv_stepDrain.
Qed.

Lemma client_inv_reachable n s : reachable n s → inv s.
Proof. intros H. eapply rtc_invariant; [apply client_inv_step|exact H|apply client_inv_initial]. Qed.

(** ** Properties of the pools *)

Lemma NoDup_bind_disjoint {A B} (f : A → list B) (l : list A) i j x y b :
  NoDup (l ≫= f) → l !! i = Some x → l !! j = Some y → b ∈ f x → b ∈ f y → i = j.
Proof.
  revert i j. induction l as [|a l IH]; intros i j Hn Hi Hj Hx Hy; [done|].
  rewrite bind_cons in Hn. apply NoDup_app in Hn as (_ & Hd & Hn).
  assert (Hin : ∀ k z, l !! k = Some z → b ∈ f z → b ∈ l ≫= f).
  { intros k z Hk Hz. apply list_elem_of_bind. exists z. split; [done|]. by eapply list_elem_of_lookup_2. }
  destruct i as [|i], j as [|j]; simpl in *; simplify_eq.
  - done.
  - by destruct (Hd b Hx (Hin _ _ Hj Hy)).
  - by destruct (Hd b Hy (Hin _ _ Hi Hx)).
  - f_equal. by apply (IH i j).
Qed.

(** C3: a connection serves one caller at a time.  In every interleaving of
    callers, dials, failures and shutdown: two callers never hold the same
    connection, a connection in use is in no pool, a pooled connection is in
    one pool once, every held or pooled connection is open and goes to the
    address it is held or pooled for, and a pool never exceeds its size. *)
Theorem conn_exclusive n s :
  reachable n s →
  (∀ i j g g' cid, callers s !! i = Some g → callers s !! j = Some g' →
     cid ∈ own g → cid ∈ own g' → i = j) ∧
  (∀ i g ch c cid, callers s !! i = Some g → chans s !! ch = Some c → cid ∈ own g → cid ∉ chBuf c) ∧
  (∀ ch c, chans s !! ch = Some c →
     NoDup (chBuf c) ∧ (length (chBuf c) ≤ connPoolSizePerAddr)%nat ∧
     ∀ cid, cid ∈ chBuf c → conns s !! cid = Some (mkConn (chAddr c) true)) ∧
  (∀ i addr cid pooled, callers s !! i = Some (COwn addr cid pooled) →
     conns s !! cid = Some (mkConn addr true)).
Proof.
  intros Hr. destruct (client_inv_reachable n s Hr) as [[Hnd Hop Hv] Hs _].
  apply NoDup_app in Hnd as (Hn1 & Hdisj & Hn2).
  assert (Hbuf : ∀ ch c cid, chans s !! ch = Some c → cid ∈ chBuf c → cid ∈ chans s ≫= chBuf).
  { intros ch c cid Hc Hin. apply list_elem_of_bind. exists c. split; [done|].
    by eapply list_elem_of_lookup_2. }
  assert (Hcal : ∀ i g cid, callers s !! i = Some g → cid ∈ own g → cid ∈ callers s ≫= own).
  { intros i g cid Hg Hin. apply list_elem_of_bind. exists g. split; [done|].
    by eapply list_elem_of_lookup_2. }
  assert (Hopen : ∀ cid a, cid ∈ held s → conn_for (conns s) cid a → conns s !! cid = Some (mkConn a true)).
  { intros cid a Hin ([a' o] & Hc & Ha). simpl in Ha. subst a'.
    apply (Hop _ _ Hc) in Hin. simpl in Hin. congruence. }
  split; [|split; [|split]].
  - intros i j g g' cid Hi Hj H1 H2. by eapply (NoDup_bind_disjoint own (callers s)).
  - intros i g ch c cid Hi Hc H1 H2. by destruct (Hdisj cid (Hbuf _ _ _ Hc H2) (Hcal _ _ _ Hi H1)).
  - intros ch c Hc. destruct (sh_buf s Hs ch c Hc) as [Hl Hf]. split; [|split; [done|]].
    + rewrite <- (take_drop_middle (chans s) ch c Hc), bind_app, bind_cons in Hn1.
      by apply NoDup_app in Hn1 as (_ & _ & (? & _ & _)%NoDup_app).
    + intros cid Hin. apply Hopen; [unfold held; apply elem_of_app; left; by eapply Hbuf|].
      rewrite Forall_forall in Hf. by apply Hf.
  - intros i addr cid pooled Hi. apply Hopen; [|by apply (sh_callers s Hs i _ Hi)].
    apply elem_of_app. right. eapply Hcal; [exact Hi|]. left.
Qed.

(** No connection leaks.  Every connection that was ever dialled and is not
    closed is in the hands of exactly one caller or in a channel. *)
Theorem conn_no_leak n s cid c :
  reachable n s → conns s !! cid = Some c → opened c = true →
  (∃ i g, callers s !! i = Some g ∧ cid ∈ own g) ∨ (∃ ch k, chans s !! ch = Some k ∧ cid ∈ chBuf k).
Proof.
  intros Hr Hc Ho. destruct (client_inv_reachable n s Hr) as [[_ Hop _] _ _].
  apply (Hop _ _ Hc) in Ho. apply elem_of_app in Ho as [Ho|Ho];
    apply list_elem_of_bind in Ho as (x & Hin & Hx); apply list_elem_of_lookup_1 in Hx as [i Hi]; eauto.
Qed.

(** ** Shutdown *)

Definition dstep (s s' : client) : Prop := stepDrain s = Some s'.

Definition drainMeasure (s : client) : nat :=
  (length (chans s ≫= chBuf) + match draining s with Some l => S (length l) | None => 0 end)%nat.

Lemma client_drain_decreases s s' : dstep s s' → (drainMeasure s' < drainMeasure s)%nat.
Proof.
  unfold dstep, stepDrain, drainMeasure. intros H.
  destruct (draining s) as [[|ch rest]|] eqn:Ed; [simplify_eq/=; lia| |done].
  destruct (chans s !! ch) as [c|] eqn:Hc; [|done]. simpl in H.
  destruct (chBuf c) as [|cid b] eqn:Eb; simplify_eq/=; [lia|].
  pose proof (chans_perm s ch c (mkChan (chAddr c) b) Hc) as HP. apply Permutation_length in HP.
  rewrite !length_app, Eb in HP. simpl in HP. rewrite Ed. simpl. lia.
Qed.

Lemma drain_progress s : inv s → draining s ≠ None → ∃ s', dstep s s'.
Proof.
  intros [_ _ Hd] H. unfold dstep, stepDrain. destruct (draining s) as [[|ch rest]|] eqn:E; [eauto| |done].
  destruct (Hd (ch :: rest) ch) as [c Hc]; [done|left|]. rewrite Hc. simpl.
  destruct (chBuf c); eauto.
Qed.

(** No caller holds anything, and every non-empty channel is still to be visited. *)
Definition draining_all (s : client) : Prop :=
  callers s ≫= own = [] ∧
  match draining s with
  | Some l => ∀ ch c, chans s !! ch = Some c → chBuf c ≠ [] → ch ∈ l
  | None => chans s ≫= chBuf = []
  end.

Lemma bind_nil {A B} (f : A → list B) l : (∀ i x, l !! i = Some x → f x = []) → l ≫= f = [].
Proof.
  induction l as [|a l IH]; intros H; [done|]. rewrite bind_cons, (H 0%nat a) by done.
  apply IH. intros i x Hi. by apply (H (S i)).
Qed.

Lemma draining_all_step s s' : draining_all s → dstep s s' → draining_all s'.
Proof.
  intros [Hc Hl] H. unfold dstep, stepDrain in H. destruct (draining s) as [[|ch rest]|] eqn:E; [| |done].
  - simplify_eq. split; [done|]. cbn. apply bind_nil. intros i c Hi.
    destruct (chBuf c) eqn:Eb; [done|]. exfalso. eapply not_elem_of_nil, (Hl i c Hi). by rewrite Eb.
  - destruct (chans s !! ch) as [c|] eqn:Hch; [|done]. simpl in H.
    destruct (chBuf c) as [|cid b] eqn:Eb; simplify_eq/=.
    + split; [done|]. cbn. intros i k Hi Hk. specialize (Hl i k Hi Hk).
      apply elem_of_cons in Hl as [->|?]; [congruence|done].
    + split; [done|]. cbn. rewrite E. intros i k Hi Hk.
      apply list_lookup_insert_Some in Hi as [(-> & <- & _)|[_ Hi]]; [left|by apply (Hl i k)].
Qed.

(** C29: [Shutdown] closes everything when no call is in flight.  In a client that
    was not shut down before and whose callers are all idle, the drain that
    [Shutdown] begins, in whatever order the pools are visited, can always go on
    until it returns, makes a bounded number of steps, and when it returns every
    connection ever dialled is closed. *)
Theorem shutdown_closes_all n s order s1 :
  reachable n s → wasShut s = false → Forall (λ g, g = CIdle) (callers s) →
  beginShutdown order s = Some s1 →
  (∀ k s', nsteps dstep k s1 s' → (k ≤ drainMeasure s1)%nat) ∧
  (∀ s', rtc dstep s1 s' →
     (draining s' ≠ None → ∃ s'', dstep s' s'') ∧
     (draining s' = None → ∀ cid c, conns s' !! cid = Some c → opened c = false)).
Proof.
  intros Hr Hw Hidle Hb. pose proof (client_inv_reachable n s Hr) as Hinv.
  pose proof (inv_beginShutdown order s s1 Hinv Hb) as Hinv1.
  assert (Hall : draining_all s1).
  { unfold beginShutdown in Hb. destruct (draining s); [done|]. case_decide as Hp; simplify_eq. split; cbn.
    - apply bind_nil. intros i g Hi. rewrite Forall_lookup in Hidle. by rewrite (Hidle i g Hi).
    - intros ch c Hc _. rewrite Hp. apply list_elem_of_fmap. exists (chAddr c, ch). split; [done|].
      apply elem_of_map_to_list. by apply (sh_cover s (inv_shape s Hinv)). }
  split.
  - intros k s' Hk. cut (k + drainMeasure s' ≤ drainMeasure s1)%nat; [lia|].
    clear -Hk. induction Hk as [x|k x y z Hxy _ IH]; [lia|]. apply client_drain_decreases in Hxy. lia.
  - intros s' Hs'. assert (inv s' ∧ draining_all s') as [Hinv' Hall'].
    { clear -Hinv1 Hall Hs'. induction Hs' as [x|x y z Hxy _ IH]; [done|]. apply IH.
      - eapply client_inv_step; [exact Hinv1|]. by exists LDrain.
      - by eapply draining_all_step. }
    split; [by apply drain_progress|]. intros Hd cid c Hc.
    destruct (opened c) eqn:Eo; [|done]. exfalso.
    apply (own_open _ _ (inv_own s' Hinv') cid c Hc) in Eo. unfold held in Eo.
    destruct Hall' as [E1 E2]. rewrite Hd in E2. rewrite E1, E2 in Eo. by apply elem_of_nil in Eo.
Qed.

(** ** Concrete runs *)

(** Two callers; the first takes the connection the second has put back, finds
    it stale and dials again. *)
Definition pool_run : list label :=
  [LCall 0 "b:1"; LPoolFor 0; LSelect 0; LDial 0 true; LExchange 0 true; LPoolFor 0; LSelect 0;
   LCall 1 "b:1"; LPoolFor 1; LSelect 1; LExchange 1 false; LDial 1 true].

Definition pool_state : client := default (NewRemotingClient 2) (lts_run step pool_run (NewRemotingClient 2)).

Lemma pool_reachable : reachable 2 pool_state.
Proof. apply (lts_run_rtc step pool_run). vm_compute. reflexivity. Qed.

Example pool_state_conns : conns pool_state = [mkConn "b:1" false; mkConn "b:1" true].
Proof. vm_compute. reflexivity. Qed.

Lemma conn_exclusive_witness : conns pool_state !! 1%nat = Some (mkConn "b:1" true).
Proof.
  exact (proj2 (proj2 (proj2 (conn_exclusive 2 pool_state pool_reachable))) 1%nat "b:1" 1%nat false eq_refl).
Defined.

Lemma conn_no_leak_witness :
  (∃ i g, callers pool_state !! i = Some g ∧ 1%nat ∈ own g) ∨
  (∃ ch k, chans pool_state !! ch = Some k ∧ 1%nat ∈ chBuf k).
Proof. exact (conn_no_leak 2 pool_state 1 (mkConn "b:1" true) pool_reachable eq_refl eq_refl). Defined.

Definition idle_state : client :=
  default (NewRemotingClient 2)
    (lts_run step (pool_run ++ [LExchange 1 true; LPoolFor 1; LSelect 1]) (NewRemotingClient 2)).

Lemma idle_reachable : reachable 2 idle_state.
Proof.
  apply (lts_run_rtc step (pool_run ++ [LExchange 1 true; LPoolFor 1; LSelect 1])).
  vm_compute. reflexivity.
Qed.

Definition shut_state : client := default idle_state (beginShutdown [0%nat] idle_state).

(** The drain visits the one channel, closes its connection and returns. *)
Definition closed_state : client :=
  default idle_state (lts_run step [LDrain; LDrain; LDrain] shut_state).

Lemma closed_steps : rtc dstep shut_state closed_state.
Proof. do 3 (eapply rtc_l; [vm_compute; reflexivity|]). constructor. Qed.

Lemma shutdown_closes_all_witness :
  conns closed_state !! 1%nat = Some (mkConn "b:1" false) ∧ opened (mkConn "b:1" false) = false.
Proof.
  assert (H : conns closed_state !! 1%nat = Some (mkConn "b:1" false)) by (vm_compute; reflexivity).
  split; [exact H|].
  destruct (shutdown_closes_all 2 idle_state [0%nat] shut_state idle_reachable) as [_ Hall];
    [reflexivity|repeat constructor|vm_compute; reflexivity|].
  exact (proj2 (Hall closed_state closed_steps) eq_refl 1%nat _ H).
Defined.

(** A response to the sample request of Codec.v, followed by another frame. *)
Lemma invokeOnConn_frame_witness :
  invokeOnConn (@rmqCodec std_range) (@rmqCodec std_range) "b:1" None (sample_frame ++ sample_frame) =
  Ret (set_body (bytes_of "body") (rmq_norm sample_command), sample_frame).
Proof.
  apply (invokeOnConn_frame (@rmqCodec std_range) (@rmqCodec std_range)
           (@rmq_ok std_range) rmq_norm RocketMQCodecs sample_command sample_frame).
  - by right.
  - exact (@rmqCodec_ok std_range).
  - exact sample_command_ok.
  - vm_compute. reflexivity.
  - by vm_compute.
  - by vm_compute.
Defined.

Lemma invokeOnConn_sound_witness :
  ∃ word payload, sample_frame = word ++ payload ++ [] ∧ get_int word = len payload.
Proof.
  destruct (invokeOnConn_sound (@rmqCodec std_range) (@rmqCodec std_range) "b:1" None sample_frame
              (set_body (bytes_of "body") (rmq_norm sample_command)) []) as [_ (w & p & H1 & _ & H2 & _)].
  - vm_compute. reflexivity.
  - exists w, p. split; [exact H1|exact H2].
Defined.
