(* ===== verification/Collector.v ===== *)
(** * The metric collector: internal/collector/collector.go, catalog.go

    The caches of all metric families, the setters the collection tasks call,
    and [Gather], which turns the live entries into metric families.  A setter
    takes the clock reading of its write; an operation that reads the clock
    several times takes the sequence of readings.  Protobuf structs are the
    records [metricFamily] and [sample]. *)

From Stdlib Require Import ZArith Lia Ascii String.
From S2P Require Import Prelude GoStrings GoFloat Store Model Health.

(** ** Keys *)
Record producerKey : Type := mk_producerKey { pk_cluster : string; pk_broker : string; pk_topic : string }.
Record producerCountKey : Type := mk_producerCountKey { pck_group : string; pck_cluster : string; pck_broker : string }.
Record dlqKey : Type := mk_dlqKey { dk_cluster : string; dk_broker : string; dk_group : string }.
Record diffKey : Type := mk_diffKey { fk_group : string; fk_topic : string; fk_countOnline : string; fk_msgModel : string }.
Record consumerKey : Type := mk_consumerKey { ck_cluster : string; ck_broker : string; ck_topic : string; ck_group : string }.
Record brokerKey : Type := mk_brokerKey { bk_cluster : string; bk_brokerIP : string }.
Record topicPutNumKey : Type := mk_topicPutNumKey { tk_cluster : string; tk_brokerIP : string; tk_topic : string }.
Record brokerRuntimeKey : Type := mk_brokerRuntimeKey { rk_cluster : string; rk_brokerAddress : string }.
Record clientRuntimeKey : Type := mk_clientRuntimeKey { xk_group : string; xk_topic : string; xk_caddrsLower : string }.
#[export] Instance producerKey_eq_dec : EqDecision producerKey.
Proof. solve_decision. Defined.
#[export] Instance producerKey_countable : Countable producerKey.
Proof.
  refine (inj_countable' (λ k, (pk_cluster k, pk_broker k, pk_topic k)) (λ '(a, b, c), mk_producerKey a b c) _).
  by intros [].
Defined.
#[export] Instance producerCountKey_eq_dec : EqDecision producerCountKey.
Proof. solve_decision. Defined.
#[export] Instance producerCountKey_countable : Countable producerCountKey.
Proof.
  refine (inj_countable' (λ k, (pck_group k, pck_cluster k, pck_broker k)) (λ '(a, b, c), mk_producerCountKey a b c) _).
  by intros [].
Defined.
#[export] Instance dlqKey_eq_dec : EqDecision dlqKey.
Proof. solve_decision. Defined.
#[export] Instance dlqKey_countable : Countable dlqKey.
Proof.
  refine (inj_countable' (λ k, (dk_cluster k, dk_broker k, dk_group k)) (λ '(a, b, c), mk_dlqKey a b c) _).
  by intros [].
Defined.
#[export] Instance diffKey_eq_dec : EqDecision diffKey.
Proof. solve_decision. Defined.
#[export] Instance diffKey_countable : Countable diffKey.
Proof.
  refine (inj_countable' (λ k, (fk_group k, fk_topic k, fk_countOnline k, fk_msgModel k)) (λ '(a, b, c, d), mk_diffKey a b c d) _).
  by intros [].
Defined.
#[export] Instance consumerKey_eq_dec : EqDecision consumerKey.
Proof. solve_decision. Defined.
#[export] Instance consumerKey_countable : Countable consumerKey.
Proof.
  refine (inj_countable' (λ k, (ck_cluster k, ck_broker k, ck_topic k, ck_group k)) (λ '(a, b, c, d), mk_consumerKey a b c d) _).
  by intros [].
Defined.
#[export] Instance brokerKey_eq_dec : EqDecision brokerKey.
Proof. solve_decision. Defined.
#[export] Instance brokerKey_countable : Countable brokerKey.
Proof.
  refine (inj_countable' (λ k, (bk_cluster k, bk_brokerIP k)) (λ '(a, b), mk_brokerKey a b) _).
  by intros [].
Defined.
#[export] Instance topicPutNumKey_eq_dec : EqDecision topicPutNumKey.
Proof. solve_decision. Defined.
#[export] Instance topicPutNumKey_countable : Countable topicPutNumKey.
Proof.
  refine (inj_countable' (λ k, (tk_cluster k, tk_brokerIP k, tk_topic k)) (λ '(a, b, c), mk_topicPutNumKey a b c) _).
  by intros [].
Defined.
#[export] Instance brokerRuntimeKey_eq_dec : EqDecision brokerRuntimeKey.
Proof. solve_decision. Defined.
#[export] Instance brokerRuntimeKey_countable : Countable brokerRuntimeKey.
Proof.
  refine (inj_countable' (λ k, (rk_cluster k, rk_brokerAddress k)) (λ '(a, b), mk_brokerRuntimeKey a b) _).
  by intros [].
Defined.
#[export] Instance clientRuntimeKey_eq_dec : EqDecision clientRuntimeKey.
Proof. solve_decision. Defined.
#[export] Instance clientRuntimeKey_countable : Countable clientRuntimeKey.
Proof.
  refine (inj_countable' (λ k, (xk_group k, xk_topic k, xk_caddrsLower k)) (λ '(a, b, c), mk_clientRuntimeKey a b c) _).
  by intros [].
Defined.

(** ** Values with last-writer labels *)

Record brokerVal : Type := mkBrokerVal { bv_brokerName : string; bv_val : float64 }.
Record topicPutNumVal : Type := mkTopicPutNumVal { tv_brokerName : string; tv_val : float64 }.
Record brokerRuntimeVal : Type := mkRuntimeVal {
  rv_brokerHost : string;
  rv_brokerDesc : string;
  rv_bootTimestamp : Z;
  rv_brokerVersion : Z
}.
Record runtimeEntry : Type := mkRuntimeEntry { re_labels : brokerRuntimeVal; re_num : float64 }.
Record clientRuntimeVal : Type := mkClientVal {
  cv_caddrs : string;
  cv_localaddrs : string;
  cv_val : float64
}.
Record consumerCountVal : Type := mkCountVal {
  nv_caddrs : string;
  nv_localaddrs : string;
  nv_count : Z
}.

(** ** The collector *)

Record runtimeMetric : Type := mkRuntimeMetric {
  rm_name : string;
  rm_help : string;
  rm_cache : ttlCache brokerRuntimeKey runtimeEntry;
  rm_getVal : BrokerRuntimeStats → float64
}.

Record distributeMetric : Type := mkDistributeMetric {
  dm_name : string;
  dm_help : string;
  dm_distKey : string;
  dm_cache : ttlCache brokerRuntimeKey runtimeEntry
}.
Record MetricsCollector : Type := mkCollector {
  topicOffset : ttlCache producerKey float64;
  topicRetryOffset : ttlCache producerKey float64;
  topicDLQOffset : ttlCache dlqKey float64;
  producerCounts : ttlCache producerCountKey Z;
  topicPutNums : ttlCache topicPutNumKey topicPutNumVal;
  topicPutSize : ttlCache topicPutNumKey topicPutNumVal;
  consumerDiff : ttlCache diffKey Z;
  consumerRetryDiff : ttlCache diffKey Z;
  consumerDLQDiff : ttlCache diffKey Z;
  consumerCounts : ttlCache string consumerCountVal;
  consumerClientFailedMsgCounts : ttlCache clientRuntimeKey clientRuntimeVal;
  consumerClientFailedTPS : ttlCache clientRuntimeKey clientRuntimeVal;
  consumerClientOKTPS : ttlCache clientRuntimeKey clientRuntimeVal;
  consumerClientRT : ttlCache clientRuntimeKey clientRuntimeVal;
  consumerClientPullRT : ttlCache clientRuntimeKey clientRuntimeVal;
  consumerClientPullTPS : ttlCache clientRuntimeKey clientRuntimeVal;
  groupBrokerTotalOffset : ttlCache consumerKey Z;
  groupConsumeTPS : ttlCache consumerKey float64;
  groupGetNums : ttlCache consumerKey float64;
  groupGetSize : ttlCache consumerKey float64;
  sendBackNums : ttlCache consumerKey float64;
  groupLatencyByTime : ttlCache consumerKey Z;
  brokerPutNums : ttlCache brokerKey brokerVal;
  brokerGetNums : ttlCache brokerKey brokerVal;
  brokerCommitLogDiff : ttlCache brokerKey brokerVal;
  runtimeMetrics : list runtimeMetric;
  distributeMetrics : list distributeMetric;
  health : healthStore
}.
Definition set_topicOffset (x : ttlCache producerKey float64) (c : MetricsCollector) : MetricsCollector :=
  mkCollector x (topicRetryOffset c) (topicDLQOffset c) (producerCounts c) (topicPutNums c) (topicPutSize c) (consumerDiff c) (consumerRetryDiff c) (consumerDLQDiff c) (consumerCounts c) (consumerClientFailedMsgCounts c) (consumerClientFailedTPS c) (consumerClientOKTPS c) (consumerClientRT c) (consumerClientPullRT c) (consumerClientPullTPS c) (groupBrokerTotalOffset c) (groupConsumeTPS c) (groupGetNums c) (groupGetSize c) (sendBackNums c) (groupLatencyByTime c) (brokerPutNums c) (brokerGetNums c) (brokerCommitLogDiff c) (runtimeMetrics c) (distributeMetrics c) (health c).
Definition set_topicRetryOffset (x : ttlCache producerKey float64) (c : MetricsCollector) : MetricsCollector :=
  mkCollector (topicOffset c) x (topicDLQOffset c) (producerCounts c) (topicPutNums c) (topicPutSize c) (consumerDiff c) (consumerRetryDiff c) (consumerDLQDiff c) (consumerCounts c) (consumerClientFailedMsgCounts c) (consumerClientFailedTPS c) (consumerClientOKTPS c) (consumerClientRT c) (consumerClientPullRT c) (consumerClientPullTPS c) (groupBrokerTotalOffset c) (groupConsumeTPS c) (groupGetNums c) (groupGetSize c) (sendBackNums c) (groupLatencyByTime c) (brokerPutNums c) (brokerGetNums c) (brokerCommitLogDiff c) (runtimeMetrics c) (distributeMetrics c) (health c).
Definition set_topicDLQOffset (x : ttlCache dlqKey float64) (c : MetricsCollector) : MetricsCollector :=
  mkCollector (topicOffset c) (topicRetryOffset c) x (producerCounts c) (topicPutNums c) (topicPutSize c) (consumerDiff c) (consumerRetryDiff c) (consumerDLQDiff c) (consumerCounts c) (consumerClientFailedMsgCounts c) (consumerClientFailedTPS c) (consumerClientOKTPS c) (consumerClientRT c) (consumerClientPullRT c) (consumerClientPullTPS c) (groupBrokerTotalOffset c) (groupConsumeTPS c) (groupGetNums c) (groupGetSize c) (sendBackNums c) (groupLatencyByTime c) (brokerPutNums c) (brokerGetNums c) (brokerCommitLogDiff c) (runtimeMetrics c) (distributeMetrics c) (health c).
Definition set_producerCounts (x : ttlCache producerCountKey Z) (c : MetricsCollector) : MetricsCollector :=
  mkCollector (topicOffset c) (topicRetryOffset c) (topicDLQOffset c) x (topicPutNums c) (topicPutSize c) (consumerDiff c) (consumerRetryDiff c) (consumerDLQDiff c) (consumerCounts c) (consumerClientFailedMsgCounts c) (consumerClientFailedTPS c) (consumerClientOKTPS c) (consumerClientRT c) (consumerClientPullRT c) (consumerClientPullTPS c) (groupBrokerTotalOffset c) (groupConsumeTPS c) (groupGetNums c) (groupGetSize c) (sendBackNums c) (groupLatencyByTime c) (brokerPutNums c) (brokerGetNums c) (brokerCommitLogDiff c) (runtimeMetrics c) (distributeMetrics c) (health c).
Definition set_topicPutNums (x : ttlCache topicPutNumKey topicPutNumVal) (c : MetricsCollector) : MetricsCollector :=
  mkCollector (topicOffset c) (topicRetryOffset c) (topicDLQOffset c) (producerCounts c) x (topicPutSize c) (consumerDiff c) (consumerRetryDiff c) (consumerDLQDiff c) (consumerCounts c) (consumerClientFailedMsgCounts c) (consumerClientFailedTPS c) (consumerClientOKTPS c) (consumerClientRT c) (consumerClientPullRT c) (consumerClientPullTPS c) (groupBrokerTotalOffset c) (groupConsumeTPS c) (groupGetNums c) (groupGetSize c) (sendBackNums c) (groupLatencyByTime c) (brokerPutNums c) (brokerGetNums c) (brokerCommitLogDiff c) (runtimeMetrics c) (distributeMetrics c) (health c).
Definition set_topicPutSize (x : ttlCache topicPutNumKey topicPutNumVal) (c : MetricsCollector) : MetricsCollector :=
  mkCollector (topicOffset c) (topicRetryOffset c) (topicDLQOffset c) (producerCounts c) (topicPutNums c) x (consumerDiff c) (consumerRetryDiff c) (consumerDLQDiff c) (consumerCounts c) (consumerClientFailedMsgCounts c) (consumerClientFailedTPS c) (consumerClientOKTPS c) (consumerClientRT c) (consumerClientPullRT c) (consumerClientPullTPS c) (groupBrokerTotalOffset c) (groupConsumeTPS c) (groupGetNums c) (groupGetSize c) (sendBackNums c) (groupLatencyByTime c) (brokerPutNums c) (brokerGetNums c) (brokerCommitLogDiff c) (runtimeMetrics c) (distributeMetrics c) (health c).
Definition set_consumerDiff (x : ttlCache diffKey Z) (c : MetricsCollector) : MetricsCollector :=
  mkCollector (topicOffset c) (topicRetryOffset c) (topicDLQOffset c) (producerCounts c) (topicPutNums c) (topicPutSize c) x (consumerRetryDiff c) (consumerDLQDiff c) (consumerCounts c) (consumerClientFailedMsgCounts c) (consumerClientFailedTPS c) (consumerClientOKTPS c) (consumerClientRT c) (consumerClientPullRT c) (consumerClientPullTPS c) (groupBrokerTotalOffset c) (groupConsumeTPS c) (groupGetNums c) (groupGetSize c) (sendBackNums c) (groupLatencyByTime c) (brokerPutNums c) (brokerGetNums c) (brokerCommitLogDiff c) (runtimeMetrics c) (distributeMetrics c) (health c).
Definition set_consumerRetryDiff (x : ttlCache diffKey Z) (c : MetricsCollector) : MetricsCollector :=
  mkCollector (topicOffset c) (topicRetryOffset c) (topicDLQOffset c) (producerCounts c) (topicPutNums c) (topicPutSize c) (consumerDiff c) x (consumerDLQDiff c) (consumerCounts c) (consumerClientFailedMsgCounts c) (consumerClientFailedTPS c) (consumerClientOKTPS c) (consumerClientRT c) (consumerClientPullRT c) (consumerClientPullTPS c) (groupBrokerTotalOffset c) (groupConsumeTPS c) (groupGetNums c) (groupGetSize c) (sendBackNums c) (groupLatencyByTime c) (brokerPutNums c) (brokerGetNums c) (brokerCommitLogDiff c) (runtimeMetrics c) (distributeMetrics c) (health c).
Definition set_consumerDLQDiff (x : ttlCache diffKey Z) (c : MetricsCollector) : MetricsCollector :=
  mkCollector (topicOffset c) (topicRetryOffset c) (topicDLQOffset c) (producerCounts c) (topicPutNums c) (topicPutSize c) (consumerDiff c) (consumerRetryDiff c) x (consumerCounts c) (consumerClientFailedMsgCounts c) (consumerClientFailedTPS c) (consumerClientOKTPS c) (consumerClientRT c) (consumerClientPullRT c) (consumerClientPullTPS c) (groupBrokerTotalOffset c) (groupConsumeTPS c) (groupGetNums c) (groupGetSize c) (sendBackNums c) (groupLatencyByTime c) (brokerPutNums c) (brokerGetNums c) (brokerCommitLogDiff c) (runtimeMetrics c) (distributeMetrics c) (health c).
Definition set_consumerCounts (x : ttlCache string consumerCountVal) (c : MetricsCollector) : MetricsCollector :=
  mkCollector (topicOffset c) (topicRetryOffset c) (topicDLQOffset c) (producerCounts c) (topicPutNums c) (topicPutSize c) (consumerDiff c) (consumerRetryDiff c) (consumerDLQDiff c) x (consumerClientFailedMsgCounts c) (consumerClientFailedTPS c) (consumerClientOKTPS c) (consumerClientRT c) (consumerClientPullRT c) (consumerClientPullTPS c) (groupBrokerTotalOffset c) (groupConsumeTPS c) (groupGetNums c) (groupGetSize c) (sendBackNums c) (groupLatencyByTime c) (brokerPutNums c) (brokerGetNums c) (brokerCommitLogDiff c) (runtimeMetrics c) (distributeMetrics c) (health c).
Definition set_consumerClientFailedMsgCounts (x : ttlCache clientRuntimeKey clientRuntimeVal) (c : MetricsCollector) : MetricsCollector :=
  mkCollector (topicOffset c) (topicRetryOffset c) (topicDLQOffset c) (producerCounts c) (topicPutNums c) (topicPutSize c) (consumerDiff c) (consumerRetryDiff c) (consumerDLQDiff c) (consumerCounts c) x (consumerClientFailedTPS c) (consumerClientOKTPS c) (consumerClientRT c) (consumerClientPullRT c) (consumerClientPullTPS c) (groupBrokerTotalOffset c) (groupConsumeTPS c) (groupGetNums c) (groupGetSize c) (sendBackNums c) (groupLatencyByTime c) (brokerPutNums c) (brokerGetNums c) (brokerCommitLogDiff c) (runtimeMetrics c) (distributeMetrics c) (health c).
Definition set_consumerClientFailedTPS (x : ttlCache clientRuntimeKey clientRuntimeVal) (c : MetricsCollector) : MetricsCollector :=
  mkCollector (topicOffset c) (topicRetryOffset c) (topicDLQOffset c) (producerCounts c) (topicPutNums c) (topicPutSize c) (consumerDiff c) (consumerRetryDiff c) (consumerDLQDiff c) (consumerCounts c) (consumerClientFailedMsgCounts c) x (consumerClientOKTPS c) (consumerClientRT c) (consumerClientPullRT c) (consumerClientPullTPS c) (groupBrokerTotalOffset c) (groupConsumeTPS c) (groupGetNums c) (groupGetSize c) (sendBackNums c) (groupLatencyByTime c) (brokerPutNums c) (brokerGetNums c) (brokerCommitLogDiff c) (runtimeMetrics c) (distributeMetrics c) (health c).
Definition set_consumerClientOKTPS (x : ttlCache clientRuntimeKey clientRuntimeVal) (c : MetricsCollector) : MetricsCollector :=
  mkCollector (topicOffset c) (topicRetryOffset c) (topicDLQOffset c) (producerCounts c) (topicPutNums c) (topicPutSize c) (consumerDiff c) (consumerRetryDiff c) (consumerDLQDiff c) (consumerCounts c) (consumerClientFailedMsgCounts c) (consumerClientFailedTPS c) x (consumerClientRT c) (consumerClientPullRT c) (consumerClientPullTPS c) (groupBrokerTotalOffset c) (groupConsumeTPS c) (groupGetNums c) (groupGetSize c) (sendBackNums c) (groupLatencyByTime c) (brokerPutNums c) (brokerGetNums c) (brokerCommitLogDiff c) (runtimeMetrics c) (distributeMetrics c) (health c).
Definition set_consumerClientRT (x : ttlCache clientRuntimeKey clientRuntimeVal) (c : MetricsCollector) : MetricsCollector :=
  mkCollector (topicOffset c) (topicRetryOffset c) (topicDLQOffset c) (producerCounts c) (topicPutNums c) (topicPutSize c) (consumerDiff c) (consumerRetryDiff c) (consumerDLQDiff c) (consumerCounts c) (consumerClientFailedMsgCounts c) (consumerClientFailedTPS c) (consumerClientOKTPS c) x (consumerClientPullRT c) (consumerClientPullTPS c) (groupBrokerTotalOffset c) (groupConsumeTPS c) (groupGetNums c) (groupGetSize c) (sendBackNums c) (groupLatencyByTime c) (brokerPutNums c) (brokerGetNums c) (brokerCommitLogDiff c) (runtimeMetrics c) (distributeMetrics c) (health c).
Definition set_consumerClientPullRT (x : ttlCache clientRuntimeKey clientRuntimeVal) (c : MetricsCollector) : MetricsCollector :=
  mkCollector (topicOffset c) (topicRetryOffset c) (topicDLQOffset c) (producerCounts c) (topicPutNums c) (topicPutSize c) (consumerDiff c) (consumerRetryDiff c) (consumerDLQDiff c) (consumerCounts c) (consumerClientFailedMsgCounts c) (consumerClientFailedTPS c) (consumerClientOKTPS c) (consumerClientRT c) x (consumerClientPullTPS c) (groupBrokerTotalOffset c) (groupConsumeTPS c) (groupGetNums c) (groupGetSize c) (sendBackNums c) (groupLatencyByTime c) (brokerPutNums c) (brokerGetNums c) (brokerCommitLogDiff c) (runtimeMetrics c) (distributeMetrics c) (health c).
Definition set_consumerClientPullTPS (x : ttlCache clientRuntimeKey clientRuntimeVal) (c : MetricsCollector) : MetricsCollector :=
  mkCollector (topicOffset c) (topicRetryOffset c) (topicDLQOffset c) (producerCounts c) (topicPutNums c) (topicPutSize c) (consumerDiff c) (consumerRetryDiff c) (consumerDLQDiff c) (consumerCounts c) (consumerClientFailedMsgCounts c) (consumerClientFailedTPS c) (consumerClientOKTPS c) (consumerClientRT c) (consumerClientPullRT c) x (groupBrokerTotalOffset c) (groupConsumeTPS c) (groupGetNums c) (groupGetSize c) (sendBackNums c) (groupLatencyByTime c) (brokerPutNums c) (brokerGetNums c) (brokerCommitLogDiff c) (runtimeMetrics c) (distributeMetrics c) (health c).
Definition set_groupBrokerTotalOffset (x : ttlCache consumerKey Z) (c : MetricsCollector) : MetricsCollector :=
  mkCollector (topicOffset c) (topicRetryOffset c) (topicDLQOffset c) (producerCounts c) (topicPutNums c) (topicPutSize c) (consumerDiff c) (consumerRetryDiff c) (consumerDLQDiff c) (consumerCounts c) (consumerClientFailedMsgCounts c) (consumerClientFailedTPS c) (consumerClientOKTPS c) (consumerClientRT c) (consumerClientPullRT c) (consumerClientPullTPS c) x (groupConsumeTPS c) (groupGetNums c) (groupGetSize c) (sendBackNums c) (groupLatencyByTime c) (brokerPutNums c) (brokerGetNums c) (brokerCommitLogDiff c) (runtimeMetrics c) (distributeMetrics c) (health c).
Definition set_groupConsumeTPS (x : ttlCache consumerKey float64) (c : MetricsCollector) : MetricsCollector :=
  mkCollector (topicOffset c) (topicRetryOffset c) (topicDLQOffset c) (producerCounts c) (topicPutNums c) (topicPutSize c) (consumerDiff c) (consumerRetryDiff c) (consumerDLQDiff c) (consumerCounts c) (consumerClientFailedMsgCounts c) (consumerClientFailedTPS c) (consumerClientOKTPS c) (consumerClientRT c) (consumerClientPullRT c) (consumerClientPullTPS c) (groupBrokerTotalOffset c) x (groupGetNums c) (groupGetSize c) (sendBackNums c) (groupLatencyByTime c) (brokerPutNums c) (brokerGetNums c) (brokerCommitLogDiff c) (runtimeMetrics c) (distributeMetrics c) (health c).
Definition set_groupGetNums (x : ttlCache consumerKey float64) (c : MetricsCollector) : MetricsCollector :=
  mkCollector (topicOffset c) (topicRetryOffset c) (topicDLQOffset c) (producerCounts c) (topicPutNums c) (topicPutSize c) (consumerDiff c) (consumerRetryDiff c) (consumerDLQDiff c) (consumerCounts c) (consumerClientFailedMsgCounts c) (consumerClientFailedTPS c) (consumerClientOKTPS c) (consumerClientRT c) (consumerClientPullRT c) (consumerClientPullTPS c) (groupBrokerTotalOffset c) (groupConsumeTPS c) x (groupGetSize c) (sendBackNums c) (groupLatencyByTime c) (brokerPutNums c) (brokerGetNums c) (brokerCommitLogDiff c) (runtimeMetrics c) (distributeMetrics c) (health c).
Definition set_groupGetSize (x : ttlCache consumerKey float64) (c : MetricsCollector) : MetricsCollector :=
  mkCollector (topicOffset c) (topicRetryOffset c) (topicDLQOffset c) (producerCounts c) (topicPutNums c) (topicPutSize c) (consumerDiff c) (consumerRetryDiff c) (consumerDLQDiff c) (consumerCounts c) (consumerClientFailedMsgCounts c) (consumerClientFailedTPS c) (consumerClientOKTPS c) (consumerClientRT c) (consumerClientPullRT c) (consumerClientPullTPS c) (groupBrokerTotalOffset c) (groupConsumeTPS c) (groupGetNums c) x (sendBackNums c) (groupLatencyByTime c) (brokerPutNums c) (brokerGetNums c) (brokerCommitLogDiff c) (runtimeMetrics c) (distributeMetrics c) (health c).
Definition set_sendBackNums (x : ttlCache consumerKey float64) (c : MetricsCollector) : MetricsCollector :=
  mkCollector (topicOffset c) (topicRetryOffset c) (topicDLQOffset c) (producerCounts c) (topicPutNums c) (topicPutSize c) (consumerDiff c) (consumerRetryDiff c) (consumerDLQDiff c) (consumerCounts c) (consumerClientFailedMsgCounts c) (consumerClientFailedTPS c) (consumerClientOKTPS c) (consumerClientRT c) (consumerClientPullRT c) (consumerClientPullTPS c) (groupBrokerTotalOffset c) (groupConsumeTPS c) (groupGetNums c) (groupGetSize c) x (groupLatencyByTime c) (brokerPutNums c) (brokerGetNums c) (brokerCommitLogDiff c) (runtimeMetrics c) (distributeMetrics c) (health c).
Definition set_groupLatencyByTime (x : ttlCache consumerKey Z) (c : MetricsCollector) : MetricsCollector :=
  mkCollector (topicOffset c) (topicRetryOffset c) (topicDLQOffset c) (producerCounts c) (topicPutNums c) (topicPutSize c) (consumerDiff c) (consumerRetryDiff c) (consumerDLQDiff c) (consumerCounts c) (consumerClientFailedMsgCounts c) (consumerClientFailedTPS c) (consumerClientOKTPS c) (consumerClientRT c) (consumerClientPullRT c) (consumerClientPullTPS c) (groupBrokerTotalOffset c) (groupConsumeTPS c) (groupGetNums c) (groupGetSize c) (sendBackNums c) x (brokerPutNums c) (brokerGetNums c) (brokerCommitLogDiff c) (runtimeMetrics c) (distributeMetrics c) (health c).
Definition set_brokerPutNums (x : ttlCache brokerKey brokerVal) (c : MetricsCollector) : MetricsCollector :=
  mkCollector (topicOffset c) (topicRetryOffset c) (topicDLQOffset c) (producerCounts c) (topicPutNums c) (topicPutSize c) (consumerDiff c) (consumerRetryDiff c) (consumerDLQDiff c) (consumerCounts c) (consumerClientFailedMsgCounts c) (consumerClientFailedTPS c) (consumerClientOKTPS c) (consumerClientRT c) (consumerClientPullRT c) (consumerClientPullTPS c) (groupBrokerTotalOffset c) (groupConsumeTPS c) (groupGetNums c) (groupGetSize c) (sendBackNums c) (groupLatencyByTime c) x (brokerGetNums c) (brokerCommitLogDiff c) (runtimeMetrics c) (distributeMetrics c) (health c).
Definition set_brokerGetNums (x : ttlCache brokerKey brokerVal) (c : MetricsCollector) : MetricsCollector :=
  mkCollector (topicOffset c) (topicRetryOffset c) (topicDLQOffset c) (producerCounts c) (topicPutNums c) (topicPutSize c) (consumerDiff c) (consumerRetryDiff c) (consumerDLQDiff c) (consumerCounts c) (consumerClientFailedMsgCounts c) (consumerClientFailedTPS c) (consumerClientOKTPS c) (consumerClientRT c) (consumerClientPullRT c) (consumerClientPullTPS c) (groupBrokerTotalOffset c) (groupConsumeTPS c) (groupGetNums c) (groupGetSize c) (sendBackNums c) (groupLatencyByTime c) (brokerPutNums c) x (brokerCommitLogDiff c) (runtimeMetrics c) (distributeMetrics c) (health c).
Definition set_brokerCommitLogDiff (x : ttlCache brokerKey brokerVal) (c : MetricsCollector) : MetricsCollector :=
  mkCollector (topicOffset c) (topicRetryOffset c) (topicDLQOffset c) (producerCounts c) (topicPutNums c) (topicPutSize c) (consumerDiff c) (consumerRetryDiff c) (consumerDLQDiff c) (consumerCounts c) (consumerClientFailedMsgCounts c) (consumerClientFailedTPS c) (consumerClientOKTPS c) (consumerClientRT c) (consumerClientPullRT c) (consumerClientPullTPS c) (groupBrokerTotalOffset c) (groupConsumeTPS c) (groupGetNums c) (groupGetSize c) (sendBackNums c) (groupLatencyByTime c) (brokerPutNums c) (brokerGetNums c) x (runtimeMetrics c) (distributeMetrics c) (health c).
Definition set_runtimeMetrics (x : list runtimeMetric) (c : MetricsCollector) : MetricsCollector :=
  mkCollector (topicOffset c) (topicRetryOffset c) (topicDLQOffset c) (producerCounts c) (topicPutNums c) (topicPutSize c) (consumerDiff c) (consumerRetryDiff c) (consumerDLQDiff c) (consumerCounts c) (consumerClientFailedMsgCounts c) (consumerClientFailedTPS c) (consumerClientOKTPS c) (consumerClientRT c) (consumerClientPullRT c) (consumerClientPullTPS c) (groupBrokerTotalOffset c) (groupConsumeTPS c) (groupGetNums c) (groupGetSize c) (sendBackNums c) (groupLatencyByTime c) (brokerPutNums c) (brokerGetNums c) (brokerCommitLogDiff c) x (distributeMetrics c) (health c).
Definition set_distributeMetrics (x : list distributeMetric) (c : MetricsCollector) : MetricsCollector :=
  mkCollector (topicOffset c) (topicRetryOffset c) (topicDLQOffset c) (producerCounts c) (topicPutNums c) (topicPutSize c) (consumerDiff c) (consumerRetryDiff c) (consumerDLQDiff c) (consumerCounts c) (consumerClientFailedMsgCounts c) (consumerClientFailedTPS c) (consumerClientOKTPS c) (consumerClientRT c) (consumerClientPullRT c) (consumerClientPullTPS c) (groupBrokerTotalOffset c) (groupConsumeTPS c) (groupGetNums c) (groupGetSize c) (sendBackNums c) (groupLatencyByTime c) (brokerPutNums c) (brokerGetNums c) (brokerCommitLogDiff c) (runtimeMetrics c) x (health c).
Definition set_health (x : healthStore) (c : MetricsCollector) : MetricsCollector :=
  mkCollector (topicOffset c) (topicRetryOffset c) (topicDLQOffset c) (producerCounts c) (topicPutNums c) (topicPutSize c) (consumerDiff c) (consumerRetryDiff c) (consumerDLQDiff c) (consumerCounts c) (consumerClientFailedMsgCounts c) (consumerClientFailedTPS c) (consumerClientOKTPS c) (consumerClientRT c) (consumerClientPullRT c) (consumerClientPullTPS c) (groupBrokerTotalOffset c) (groupConsumeTPS c) (groupGetNums c) (groupGetSize c) (sendBackNums c) (groupLatencyByTime c) (brokerPutNums c) (brokerGetNums c) (brokerCommitLogDiff c) (runtimeMetrics c) (distributeMetrics c) x.

(** ** The catalog of broker runtime gauges *)
Definition runtimeCatalog : list (string * string * (BrokerRuntimeStats → float64)) :=
  [("rocketmq_brokeruntime_msg_put_total_today_now", "brokerRuntimeMsgPutTotalTodayNow", λ s, floatOfZ (Model.MsgPutTotalTodayNow s));
   ("rocketmq_brokeruntime_msg_gettotal_today_now", "brokerRuntimeMsgGetTotalTodayNow", λ s, floatOfZ (Model.MsgGetTotalTodayNow s));
   ("rocketmq_brokeruntime_dispatch_behind_bytes", "brokerRuntimeDispatchBehindBytes", λ s, floatOfZ (Model.DispatchBehindBytes s));
   ("rocketmq_brokeruntime_put_message_size_total", "brokerRuntimePutMessageSizeTotal", λ s, floatOfZ (Model.PutMessageSizeTotal s));
   ("rocketmq_brokeruntime_put_message_average_size", "brokerRuntimePutMessageAverageSize", Model.PutMessageAverageSize);
   ("rocketmq_brokeruntime_query_threadpool_queue_capacity", "brokerRuntimeQueryThreadPoolQueueCapacity", λ s, floatOfZ (Model.QueryThreadPoolQueueCapacity s));
   ("rocketmq_brokeruntime_remain_transientstore_buffer_numbs", "brokerRuntimeRemainTransientStoreBufferNumbs", λ s, floatOfZ (Model.RemainTransientStoreBufferNumbs s));
   ("rocketmq_brokeruntime_earliest_message_timestamp", "brokerRuntimeEarliestMessageTimeStamp", λ s, floatOfZ (Model.EarliestMessageTimeStamp s));
   ("rocketmq_brokeruntime_putmessage_entire_time_max", "brokerRuntimePutMessageEntireTimeMax", λ s, floatOfZ (Model.PutMessageEntireTimeMax s));
   ("rocketmq_brokeruntime_start_accept_sendrequest_time", "brokerRuntimeStartAcceptSendRequestTimeStamp", λ s, floatOfZ (Model.StartAcceptSendRequestTimeStamp s));
   ("rocketmq_brokeruntime_send_threadpool_queue_size", "brokerRuntimeSendThreadPoolQueueSize", λ s, floatOfZ (Model.SendThreadPoolQueueSize s));
   ("rocketmq_brokeruntime_putmessage_times_total", "brokerRuntimePutMessageTimesTotal", λ s, floatOfZ (Model.PutMessageTimesTotal s));
   ("rocketmq_brokeruntime_getmessage_entire_time_max", "brokerRuntimeGetMessageEntireTimeMax", λ s, floatOfZ (Model.GetMessageEntireTimeMax s));
   ("rocketmq_brokeruntime_pagecache_lock_time_mills", "brokerRuntimePageCacheLockTimeMills", λ s, floatOfZ (Model.PageCacheLockTimeMills s));
   ("rocketmq_brokeruntime_commitlog_disk_ratio", "brokerRuntimeCommitLogDiskRatio", Model.CommitLogDiskRatio);
   ("rocketmq_brokeruntime_consumequeue_disk_ratio", "brokerRuntimeConsumeQueueDiskRatio", Model.ConsumeQueueDiskRatio);
   ("rocketmq_brokeruntime_getfound_tps600", "brokerRuntimeGetFoundTps600", λ s, SixHundred (Model.GetFoundTps s));
   ("rocketmq_brokeruntime_getfound_tps60", "brokerRuntimeGetFoundTps60", λ s, Sixty (Model.GetFoundTps s));
   ("rocketmq_brokeruntime_getfound_tps10", "brokerRuntimeGetFoundTps10", λ s, Ten (Model.GetFoundTps s));
   ("rocketmq_brokeruntime_gettotal_tps600", "brokerRuntimeGetTotalTps600", λ s, SixHundred (Model.GetTotalTps s));
   ("rocketmq_brokeruntime_gettotal_tps60", "brokerRuntimeGetTotalTps60", λ s, Sixty (Model.GetTotalTps s));
   ("rocketmq_brokeruntime_gettotal_tps10", "brokerRuntimeGetTotalTps10", λ s, Ten (Model.GetTotalTps s));
   ("rocketmq_brokeruntime_gettransfered_tps600", "brokerRuntimeGetTransferedTps600", λ s, SixHundred (Model.GetTransferedTps s));
   ("rocketmq_brokeruntime_gettransfered_tps60", "brokerRuntimeGetTransferedTps60", λ s, Sixty (Model.GetTransferedTps s));
   ("rocketmq_brokeruntime_gettransfered_tps10", "brokerRuntimeGetTransferedTps10", λ s, Ten (Model.GetTransferedTps s));
   ("rocketmq_brokeruntime_getmiss_tps600", "brokerRuntimeGetMissTps600", λ s, SixHundred (Model.GetMissTps s));
   ("rocketmq_brokeruntime_getmiss_tps60", "brokerRuntimeGetMissTps60", λ s, Sixty (Model.GetMissTps s));
   ("rocketmq_brokeruntime_getmiss_tps10", "brokerRuntimeGetMissTps10", λ s, Ten (Model.GetMissTps s));
   ("rocketmq_brokeruntime_put_tps600", "brokerRuntimePutTps600", λ s, SixHundred (Model.PutTps s));
   ("rocketmq_brokeruntime_put_tps60", "brokerRuntimePutTps60", λ s, Sixty (Model.PutTps s));
   ("rocketmq_brokeruntime_put_tps10", "brokerRuntimePutTps10", λ s, Ten (Model.PutTps s));
   ("rocketmq_brokeruntime_put_latency_99", "brokerRuntimePutLatency99", Model.PutLatency99);
   ("rocketmq_brokeruntime_put_latency_999", "brokerRuntimePutLatency999", Model.PutLatency999);
   ("rocketmq_brokeruntime_dispatch_maxbuffer", "brokerRuntimeDispatchMaxBuffer", λ s, floatOfZ (Model.DispatchMaxBuffer s));
   ("rocketmq_brokeruntime_pull_threadpoolqueue_capacity", "brokerRuntimePullThreadPoolQueueCapacity", λ s, floatOfZ (Model.PullThreadPoolQueueCapacity s));
   ("rocketmq_brokeruntime_send_threadpoolqueue_capacity", "brokerRuntimeSendThreadPoolQueueCapacity", λ s, floatOfZ (Model.SendThreadPoolQueueCapacity s));
   ("rocketmq_brokeruntime_pull_threadpoolqueue_size", "brokerRuntimePullThreadPoolQueueSizeF", λ s, floatOfZ (Model.PullThreadPoolQueueSize s));
   ("rocketmq_brokeruntime_query_threadpoolqueue_size", "brokerRuntimeQueryThreadPoolQueueSize", λ s, floatOfZ (Model.QueryThreadPoolQueueSize s));
   ("rocketmq_brokeruntime_pull_threadpoolqueue_headwait_timemills", "brokerRuntimePullThreadPoolQueueHeadWaitTimeMills", λ s, floatOfZ (Model.PullThreadPoolQueueHeadWaitTimeMills s));
   ("rocketmq_brokeruntime_query_threadpoolqueue_headwait_timemills", "brokerRuntimeQueryThreadPoolQueueHeadWaitTimeMills", λ s, floatOfZ (Model.QueryThreadPoolQueueHeadWaitTimeMills s));
   ("rocketmq_brokeruntime_send_threadpoolqueue_headwait_timemills", "brokerRuntimeSendThreadPoolQueueHeadWaitTimeMills", λ s, floatOfZ (Model.SendThreadPoolQueueHeadWaitTimeMills s));
   ("rocketmq_brokeruntime_msg_gettotal_yesterdaymorning", "brokerRuntimeMsgGetTotalYesterdayMorning", λ s, floatOfZ (Model.MsgGetTotalYesterdayMorning s));
   ("rocketmq_brokeruntime_msg_puttotal_yesterdaymorning", "brokerRuntimeMsgPutTotalYesterdayMorning", λ s, floatOfZ (Model.MsgPutTotalYesterdayMorning s));
   ("rocketmq_brokeruntime_msg_gettotal_todaymorning", "brokerRuntimeMsgGetTotalTodayMorning", λ s, floatOfZ (Model.MsgGetTotalTodayMorning s));
   ("rocketmq_brokeruntime_msg_puttotal_todaymorning", "brokerRuntimeMsgPutTotalTodayMorning", λ s, floatOfZ (Model.MsgPutTotalTodayMorning s));
   ("rocketmq_brokeruntime_commitlogdir_capacity_free", "brokerRuntimeCommitLogDirCapacityFree", Model.CommitLogDirCapacityFree);
   ("rocketmq_brokeruntime_commitlogdir_capacity_total", "brokerRuntimeCommitLogDirCapacityTotal", Model.CommitLogDirCapacityTotal);
   ("rocketmq_brokeruntime_commitlog_maxoffset", "brokerRuntimeCommitLogMaxOffset", λ s, floatOfZ (Model.CommitLogMaxOffset s));
   ("rocketmq_brokeruntime_commitlog_minoffset", "brokerRuntimeCommitLogMinOffset", λ s, floatOfZ (Model.CommitLogMinOffset s));
   ("rocketmq_brokeruntime_remain_howmanydata_toflush", "brokerRuntimeRemainHowManyDataToFlush", Model.RemainHowManyDataToFlush)].
Definition distributeCatalog : list (string * string * string) :=
  [("rocketmq_brokeruntime_pmdt_0ms", "PutMessageDistributeTimeMap0ms", "<=0ms");
   ("rocketmq_brokeruntime_pmdt_0to10ms", "PutMessageDistributeTimeMap0to10ms", "0~10ms");
   ("rocketmq_brokeruntime_pmdt_10to50ms", "PutMessageDistributeTimeMap10to50ms", "10~50ms");
   ("rocketmq_brokeruntime_pmdt_50to100ms", "PutMessageDistributeTimeMap50to100ms", "50~100ms");
   ("rocketmq_brokeruntime_pmdt_100to200ms", "PutMessageDistributeTimeMap100to200ms", "100~200ms");
   ("rocketmq_brokeruntime_pmdt_200to500ms", "PutMessageDistributeTimeMap200to500ms", "200~500ms");
   ("rocketmq_brokeruntime_pmdt_500to1s", "PutMessageDistributeTimeMap500to1s", "500ms~1s");
   ("rocketmq_brokeruntime_pmdt_1to2s", "PutMessageDistributeTimeMap1to2s", "1~2s");
   ("rocketmq_brokeruntime_pmdt_2to3s", "PutMessageDistributeTimeMap2to3s", "2~3s");
   ("rocketmq_brokeruntime_pmdt_3to4s", "PutMessageDistributeTimeMap3to4s", "3~4s");
   ("rocketmq_brokeruntime_pmdt_4to5s", "PutMessageDistributeTimeMap4to5s", "4~5s");
   ("rocketmq_brokeruntime_pmdt_5to10s", "PutMessageDistributeTimeMap5to10s", "5~10s");
   ("rocketmq_brokeruntime_pmdt_10stomore", "PutMessageDistributeTimeMap10toMore", "10s~")].

Definition buildRuntimeMetrics (ttl : Z) : list runtimeMetric :=
  (λ '(name, help, getVal), mkRuntimeMetric name help (newCache ttl) getVal) <$> runtimeCatalog.

Definition buildDistributeMetrics (ttl : Z) : list distributeMetric :=
  (λ '(name, help, key), mkDistributeMetric name help key (newCache ttl)) <$> distributeCatalog.

Definition NewWithClock (ttl : Z) : MetricsCollector :=
  mkCollector (newCache ttl) (newCache ttl) (newCache ttl) (newCache ttl) (newCache ttl) (newCache ttl) (newCache ttl) (newCache ttl) (newCache ttl) (newCache ttl) (newCache ttl) (newCache ttl) (newCache ttl) (newCache ttl) (newCache ttl) (newCache ttl) (newCache ttl) (newCache ttl) (newCache ttl) (newCache ttl) (newCache ttl) (newCache ttl) (newCache ttl) (newCache ttl) (newCache ttl)
    (buildRuntimeMetrics ttl) (buildDistributeMetrics ttl) newHealthStore.

(** ** Setters *)

Definition retryTopicPrefix : string := "%RETRY%".
Definition dlqTopicPrefix : string := "%DLQ%".

(** The label of the last update is not part of the key and is not stored. *)
Definition AddTopicOffsetMetric (now : Z) (cluster broker topic : string) (lastUpdateTimestamp : Z)
    (value : float64) (c : MetricsCollector) : MetricsCollector :=
  if HasPrefix topic retryTopicPrefix then
    set_topicRetryOffset (put now (mk_producerKey cluster broker topic) value (topicRetryOffset c)) c
  else if HasPrefix topic dlqTopicPrefix then
    let group := TrimPrefix topic dlqTopicPrefix in
    set_topicDLQOffset (put now (mk_dlqKey cluster broker group) value (topicDLQOffset c)) c
  else set_topicOffset (put now (mk_producerKey cluster broker topic) value (topicOffset c)) c.

Definition AddProducerCountMetric (now : Z) (cluster broker group : string) (count : Z)
    (c : MetricsCollector) : MetricsCollector :=
  set_producerCounts (put now (mk_producerCountKey group cluster broker) count (producerCounts c)) c.

Definition AddGroupCountMetric (now : Z) (group caddrs localaddrs : string) (count : Z)
    (c : MetricsCollector) : MetricsCollector :=
  set_consumerCounts (put now group (mkCountVal caddrs localaddrs count) (consumerCounts c)) c.

Definition AddGroupDiffMetric (now : Z) (countOfOnlineConsumers group topic msgModel : string) (value : Z)
    (c : MetricsCollector) : MetricsCollector :=
  let k := mk_diffKey group topic countOfOnlineConsumers msgModel in
  if HasPrefix topic retryTopicPrefix then set_consumerRetryDiff (put now k value (consumerRetryDiff c)) c
  else if HasPrefix topic dlqTopicPrefix then set_consumerDLQDiff (put now k value (consumerDLQDiff c)) c
  else set_consumerDiff (put now k value (consumerDiff c)) c.
Definition AddTopicPutNumsMetric (now : Z) (cluster brokerName brokerIP topic : string) (value : float64)
    (c : MetricsCollector) : MetricsCollector :=
  set_topicPutNums (put now (mk_topicPutNumKey cluster brokerIP topic) (mkTopicPutNumVal brokerName value)
    (topicPutNums c)) c.
Definition AddTopicPutSizeMetric (now : Z) (cluster brokerName brokerIP topic : string) (value : float64)
    (c : MetricsCollector) : MetricsCollector :=
  set_topicPutSize (put now (mk_topicPutNumKey cluster brokerIP topic) (mkTopicPutNumVal brokerName value)
    (topicPutSize c)) c.
Definition AddGroupBrokerTotalOffsetMetric (now : Z) (cluster broker topic group : string) (value : Z)
    (c : MetricsCollector) : MetricsCollector :=
  set_groupBrokerTotalOffset (put now (mk_consumerKey cluster broker topic group) value (groupBrokerTotalOffset c)) c.
Definition AddGroupGetLatencyByStoreTimeMetric (now : Z) (cluster broker topic group : string) (value : Z)
    (c : MetricsCollector) : MetricsCollector :=
  set_groupLatencyByTime (put now (mk_consumerKey cluster broker topic group) value (groupLatencyByTime c)) c.
Definition AddGroupConsumeTPSMetric (now : Z) (cluster broker topic group : string) (value : float64)
    (c : MetricsCollector) : MetricsCollector :=
  set_groupConsumeTPS (put now (mk_consumerKey cluster broker topic group) value (groupConsumeTPS c)) c.
Definition AddGroupGetNumsMetric (now : Z) (cluster broker topic group : string) (value : float64)
    (c : MetricsCollector) : MetricsCollector :=
  set_groupGetNums (put now (mk_consumerKey cluster broker topic group) value (groupGetNums c)) c.
Definition AddGroupGetSizeMetric (now : Z) (cluster broker topic group : string) (value : float64)
    (c : MetricsCollector) : MetricsCollector :=
  set_groupGetSize (put now (mk_consumerKey cluster broker topic group) value (groupGetSize c)) c.
Definition AddSendBackNumsMetric (now : Z) (cluster broker topic group : string) (value : float64)
    (c : MetricsCollector) : MetricsCollector :=
  set_sendBackNums (put now (mk_consumerKey cluster broker topic group) value (sendBackNums c)) c.
Definition addClient (now : Z) (group topic clientAddr clientId : string) (value : float64)
    (cache : ttlCache clientRuntimeKey clientRuntimeVal) : ttlCache clientRuntimeKey clientRuntimeVal :=
  put now (mk_clientRuntimeKey group topic (ToLower clientAddr)) (mkClientVal clientAddr clientId value) cache.
Definition AddConsumerClientFailedMsgCountsMetric (now : Z) (group topic clientAddr clientId : string) (value : Z)
    (c : MetricsCollector) : MetricsCollector :=
  set_consumerClientFailedMsgCounts (addClient now group topic clientAddr clientId (floatOfZ value) (consumerClientFailedMsgCounts c)) c.
Definition AddConsumerClientFailedTPSMetric (now : Z) (group topic clientAddr clientId : string) (value : float64)
    (c : MetricsCollector) : MetricsCollector :=
  set_consumerClientFailedTPS (addClient now group topic clientAddr clientId value (consumerClientFailedTPS c)) c.
Definition AddConsumerClientOKTPSMetric (now : Z) (group topic clientAddr clientId : string) (value : float64)
    (c : MetricsCollector) : MetricsCollector :=
  set_consumerClientOKTPS (addClient now group topic clientAddr clientId value (consumerClientOKTPS c)) c.
Definition AddConsumeRTMetricMetric (now : Z) (group topic clientAddr clientId : string) (value : float64)
    (c : MetricsCollector) : MetricsCollector :=
  set_consumerClientRT (addClient now group topic clientAddr clientId value (consumerClientRT c)) c.
Definition AddPullRTMetric (now : Z) (group topic clientAddr clientId : string) (value : float64)
    (c : MetricsCollector) : MetricsCollector :=
  set_consumerClientPullRT (addClient now group topic clientAddr clientId value (consumerClientPullRT c)) c.
Definition AddPullTPSMetric (now : Z) (group topic clientAddr clientId : string) (value : float64)
    (c : MetricsCollector) : MetricsCollector :=
  set_consumerClientPullTPS (addClient now group topic clientAddr clientId value (consumerClientPullTPS c)) c.
Definition AddBrokerPutNumsMetric (now : Z) (cluster brokerIP brokerName : string) (value : float64)
    (c : MetricsCollector) : MetricsCollector :=
  set_brokerPutNums (put now (mk_brokerKey cluster brokerIP) (mkBrokerVal brokerName value) (brokerPutNums c)) c.
Definition AddBrokerGetNumsMetric (now : Z) (cluster brokerIP brokerName : string) (value : float64)
    (c : MetricsCollector) : MetricsCollector :=
  set_brokerGetNums (put now (mk_brokerKey cluster brokerIP) (mkBrokerVal brokerName value) (brokerGetNums c)) c.
Definition AddBrokerCommitLogDiffMetric (now : Z) (cluster brokerIP brokerName : string) (value : float64)
    (c : MetricsCollector) : MetricsCollector :=
  set_brokerCommitLogDiff (put now (mk_brokerKey cluster brokerIP) (mkBrokerVal brokerName value) (brokerCommitLogDiff c)) c.

(** [clk i] is the clock reading of the [i]-th write. *)
Definition AddBrokerRuntimeStatsMetric (clk : nat → Z) (stats : BrokerRuntimeStats)
    (cluster brokerAddress brokerHost : string) (c : MetricsCollector) : MetricsCollector :=
  let labels := mkRuntimeVal brokerHost (Model.BrokerVersionDesc stats) (Model.BootTimestamp stats)
                  (Model.BrokerVersion stats) in
  let key := mk_brokerRuntimeKey cluster brokerAddress in
  let c := set_runtimeMetrics
    (imap (λ i rm, mkRuntimeMetric (rm_name rm) (rm_help rm)
        (put (clk i) key (mkRuntimeEntry labels (rm_getVal rm stats)) (rm_cache rm)) (rm_getVal rm))
      (runtimeMetrics c)) c in
  let dist := Model.PutMessageDistributeTimeMap stats in
  if decide (0 < size dist)%nat then
    set_distributeMetrics
      (imap (λ i dm, mkDistributeMetric (dm_name dm) (dm_help dm) (dm_distKey dm)
          (put (clk (length (runtimeMetrics c) + i)%nat) key
             (mkRuntimeEntry labels (floatOfZ (default 0 (dist !! dm_distKey dm)))) (dm_cache dm)))
        (distributeMetrics c)) c
  else c.

Section gather.
Context `{GR : GoRange}.

Definition Sweep (clk : nat → Z) (c : MetricsCollector) : MetricsCollector :=
  mkCollector (sweep (clk 0%nat) (topicOffset c))
    (sweep (clk 1%nat) (topicRetryOffset c))
    (sweep (clk 2%nat) (topicDLQOffset c))
    (sweep (clk 3%nat) (producerCounts c))
    (sweep (clk 4%nat) (topicPutNums c))
    (sweep (clk 5%nat) (topicPutSize c))
    (sweep (clk 6%nat) (consumerDiff c))
    (sweep (clk 7%nat) (consumerRetryDiff c))
    (sweep (clk 8%nat) (consumerDLQDiff c))
    (sweep (clk 9%nat) (consumerCounts c))
    (sweep (clk 10%nat) (consumerClientFailedMsgCounts c))
    (sweep (clk 11%nat) (consumerClientFailedTPS c))
    (sweep (clk 12%nat) (consumerClientOKTPS c))
    (sweep (clk 13%nat) (consumerClientRT c))
    (sweep (clk 14%nat) (consumerClientPullRT c))
    (sweep (clk 15%nat) (consumerClientPullTPS c))
    (sweep (clk 16%nat) (groupBrokerTotalOffset c))
    (sweep (clk 17%nat) (groupConsumeTPS c))
    (sweep (clk 18%nat) (groupGetNums c))
    (sweep (clk 19%nat) (groupGetSize c))
    (sweep (clk 20%nat) (sendBackNums c))
    (sweep (clk 21%nat) (groupLatencyByTime c))
    (sweep (clk 22%nat) (brokerPutNums c))
    (sweep (clk 23%nat) (brokerGetNums c))
    (sweep (clk 24%nat) (brokerCommitLogDiff c))
    (imap (λ i rm, mkRuntimeMetric (rm_name rm) (rm_help rm)
             (sweep (clk (25 + i)%nat) (rm_cache rm)) (rm_getVal rm)) (runtimeMetrics c))
    (imap (λ i dm, mkDistributeMetric (dm_name dm) (dm_help dm) (dm_distKey dm)
             (sweep (clk (25 + length (runtimeMetrics c) + i)%nat) (dm_cache dm))) (distributeMetrics c))
    (health c).

(** ** Metric families *)

Inductive metricType : Type := GAUGE | COUNTER.

(** A metric: its label pairs and its value. *)
Record metric : Type := mkMetric { labelPairs : list (string * string); metricValue : float64 }.

Record metricFamily : Type := mkFamily {
  famName : string;
  famHelp : string;
  famType : metricType;
  famMetrics : list metric
}.

(** [&labelNames[i]] for every label value: a sample with more values than there
    are names panics. *)
Fixpoint zipLabels (names values : list string) : outcome (list (string * string)) :=
  match names, values with
  | _, [] => Ret []
  | [], _ :: _ => Panic "index out of range"
  | n :: names', v :: values' => r ← zipLabels names' values'; Ret ((n, v) :: r)
  end.

Fixpoint buildMetrics (labelNames : list string) (samples : list sample) : outcome (list metric) :=
  match samples with
  | [] => Ret []
  | s :: rest =>
      labels ← zipLabels labelNames (labelValues s);
      ms ← buildMetrics labelNames rest;
      Ret (mkMetric labels (sampleValue s) :: ms)
  end.

Definition gaugeFamily (name help : string) (labelNames : list string) (samples : list sample)
    : outcome metricFamily :=
  ms ← buildMetrics labelNames samples; Ret (mkFamily name help GAUGE ms).

Definition counterFamily (name help : string) (labelNames : list string) (samples : list sample)
    : outcome metricFamily :=
  ms ← buildMetrics labelNames samples; Ret (mkFamily name help COUNTER ms).

(** ** Label names *)

Definition groupDiffLabels : list string := ["group"; "topic"; "countOfOnlineConsumers"; "msgModel"].
Definition groupCountLabels : list string := ["caddr"; "localaddr"; "group"].
Definition topicOffsetLabels : list string := ["cluster"; "broker"; "topic"].
Definition dlqOffsetLabels : list string := ["cluster"; "broker"; "group"].
Definition producerCountLabels : list string := ["cluster"; "broker"; "group"].
Definition topicNumsLabels : list string := ["cluster"; "broker"; "topic"].
Definition groupNumsLabels : list string := ["cluster"; "broker"; "topic"; "group"].
Definition groupLatencyLabels : list string := ["cluster"; "broker"; "topic"; "group"].
Definition clientLabels : list string := ["clientAddr"; "clientId"; "group"; "topic"].
Definition brokerNumsLabels : list string := ["cluster"; "brokerIP"; "broker"].
Definition brokerRuntimeLabels : list string := ["cluster"; "brokerIP"; "brokerHost"; "des"; "boottime"; "broker_version"].
Definition healthProduceLabels : list string := ["cluster"; "result"].
Definition healthConsumeLabels : list string := ["cluster"].
Definition healthCheckLabels : list string := ["cluster"; "check"].

(** ** Sample extractors *)

Definition diffSamples (now : Z) (c : ttlCache diffKey Z) : list sample :=
  (λ '(k, v), mkSample [fk_group k; fk_topic k; fk_countOnline k; fk_msgModel k] (floatOfZ v)) <$> snapshot now c.
Definition countSamples (now : Z) (c : ttlCache string consumerCountVal) : list sample :=
  (λ '(k, v), mkSample [nv_caddrs v; nv_localaddrs v; k] (floatOfZ (nv_count v))) <$> snapshot now c.
Definition producerCountSamples (now : Z) (c : ttlCache producerCountKey Z) : list sample :=
  (λ '(k, v), mkSample [pck_cluster k; pck_broker k; pck_group k] (floatOfZ v)) <$> snapshot now c.
Definition producerOffsetSamples (now : Z) (c : ttlCache producerKey float64) : list sample :=
  (λ '(k, v), mkSample [pk_cluster k; pk_broker k; pk_topic k] v) <$> snapshot now c.
Definition dlqOffsetSamples (now : Z) (c : ttlCache dlqKey float64) : list sample :=
  (λ '(k, v), mkSample [dk_cluster k; dk_broker k; dk_group k] v) <$> snapshot now c.
Definition topicPutSamples (now : Z) (c : ttlCache topicPutNumKey topicPutNumVal) : list sample :=
  (λ '(k, v), mkSample [tk_cluster k; tv_brokerName v; tk_topic k] (tv_val v)) <$> snapshot now c.
Definition consumerSamplesInt64 (now : Z) (c : ttlCache consumerKey Z) : list sample :=
  (λ '(k, v), mkSample [ck_cluster k; ck_broker k; ck_topic k; ck_group k] (floatOfZ v)) <$> snapshot now c.
Definition consumerSamplesFloat (now : Z) (c : ttlCache consumerKey float64) : list sample :=
  (λ '(k, v), mkSample [ck_cluster k; ck_broker k; ck_topic k; ck_group k] v) <$> snapshot now c.
Definition clientSamples (now : Z) (c : ttlCache clientRuntimeKey clientRuntimeVal) : list sample :=
  (λ '(k, v), mkSample [cv_caddrs v; cv_localaddrs v; xk_group k; xk_topic k] (cv_val v)) <$> snapshot now c.
Definition brokerSamples (now : Z) (c : ttlCache brokerKey brokerVal) : list sample :=
  (λ '(k, v), mkSample [bk_cluster k; bk_brokerIP k; bv_brokerName v] (bv_val v)) <$> snapshot now c.

Definition runtimeLabels (k : brokerRuntimeKey) (e : runtimeEntry) : list string :=
  [rk_cluster k; rk_brokerAddress k; rv_brokerHost (re_labels e); rv_brokerDesc (re_labels e);
   FormatInt (rv_bootTimestamp (re_labels e)); FormatInt (rv_brokerVersion (re_labels e))].
Definition runtimeSamples (now : Z) (c : ttlCache brokerRuntimeKey runtimeEntry) : list sample :=
  (λ '(k, v), mkSample (runtimeLabels k v) (re_num v)) <$> snapshot now c.

(** ** Gather *)

(** A family before its metrics are built: type, name, help, label names and the
    samples at a clock reading. *)
Record familySpec : Type := mkSpec {
  spType : metricType;
  spName : string;
  spHelp : string;
  spLabels : list string;
  spSamples : Z → list sample
}.

Definition buildFamily (now : Z) (s : familySpec) : outcome metricFamily :=
  match spType s with
  | GAUGE => gaugeFamily (spName s) (spHelp s) (spLabels s) (spSamples s now)
  | COUNTER => counterFamily (spName s) (spHelp s) (spLabels s) (spSamples s now)
  end.

Definition staticSpecs (c : MetricsCollector) : list familySpec :=
  [mkSpec GAUGE "rocketmq_group_diff" "GroupDiff" groupDiffLabels (λ now, diffSamples now (consumerDiff c));
   mkSpec GAUGE "rocketmq_group_retrydiff" "GroupRetryDiff" groupDiffLabels (λ now, diffSamples now (consumerRetryDiff c));
   mkSpec GAUGE "rocketmq_group_dlqdiff" "GroupDLQDiff" groupDiffLabels (λ now, diffSamples now (consumerDLQDiff c));
   mkSpec GAUGE "rocketmq_group_count" "GroupCount" groupCountLabels (λ now, countSamples now (consumerCounts c));
   mkSpec GAUGE "rocketmq_producer_count" "producer instance counter" producerCountLabels (λ now, producerCountSamples now (producerCounts c));
   mkSpec GAUGE "rocketmq_producer_offset" "TopicOffset" topicOffsetLabels (λ now, producerOffsetSamples now (topicOffset c));
   mkSpec GAUGE "rocketmq_topic_retry_offset" "TopicRetryOffset" topicOffsetLabels (λ now, producerOffsetSamples now (topicRetryOffset c));
   mkSpec GAUGE "rocketmq_topic_dlq_offset" "TopicRetryOffset" dlqOffsetLabels (λ now, dlqOffsetSamples now (topicDLQOffset c));
   mkSpec GAUGE "rocketmq_producer_tps" "TopicPutNums" topicNumsLabels (λ now, topicPutSamples now (topicPutNums c));
   mkSpec GAUGE "rocketmq_producer_message_size" "TopicPutMessageSize" topicNumsLabels (λ now, topicPutSamples now (topicPutSize c));
   mkSpec GAUGE "rocketmq_consumer_tps" "GroupGetNums" groupNumsLabels (λ now, consumerSamplesFloat now (groupGetNums c));
   mkSpec GAUGE "rocketmq_group_consume_tps" "GroupConsumeTPS" groupNumsLabels (λ now, consumerSamplesFloat now (groupConsumeTPS c));
   mkSpec GAUGE "rocketmq_consumer_offset" "GroupBrokerTotalOffset" groupNumsLabels (λ now, consumerSamplesInt64 now (groupBrokerTotalOffset c));
   mkSpec GAUGE "rocketmq_group_consume_total_offset" "GroupConsumeTotalOffset" groupNumsLabels (λ _, []);
   mkSpec GAUGE "rocketmq_consumer_message_size" "GroupGetMessageSize" groupNumsLabels (λ now, consumerSamplesFloat now (groupGetSize c));
   mkSpec GAUGE "rocketmq_send_back_nums" "SendBackNums" groupNumsLabels (λ now, consumerSamplesFloat now (sendBackNums c));
   mkSpec GAUGE "rocketmq_group_get_latency_by_storetime" "GroupGetLatencyByStoreTime" groupLatencyLabels (λ now, consumerSamplesInt64 now (groupLatencyByTime c));
   mkSpec GAUGE "rocketmq_client_consume_fail_msg_count" "consumerClientFailedMsgCounts" clientLabels (λ now, clientSamples now (consumerClientFailedMsgCounts c));
   mkSpec GAUGE "rocketmq_client_consume_fail_msg_tps" "consumerClientFailedTPS" clientLabels (λ now, clientSamples now (consumerClientFailedTPS c));
   mkSpec GAUGE "rocketmq_client_consume_ok_msg_tps" "consumerClientOKTPS" clientLabels (λ now, clientSamples now (consumerClientOKTPS c));
   mkSpec GAUGE "rocketmq_client_consume_rt" "consumerClientRT" clientLabels (λ now, clientSamples now (consumerClientRT c));
   mkSpec GAUGE "rocketmq_client_consumer_pull_rt" "consumerClientPullRT" clientLabels (λ now, clientSamples now (consumerClientPullRT c));
   mkSpec GAUGE "rocketmq_client_consumer_pull_tps" "consumerClientPullTPS" clientLabels (λ now, clientSamples now (consumerClientPullTPS c));
   mkSpec GAUGE "rocketmq_broker_tps" "BrokerPutNums" brokerNumsLabels (λ now, brokerSamples now (brokerPutNums c));
   mkSpec GAUGE "rocketmq_broker_qps" "BrokerGetNums" brokerNumsLabels (λ now, brokerSamples now (brokerGetNums c));
   mkSpec GAUGE "rocketmq_broker_commitlog_diff" "brokerCommitLogDiffGauge" brokerNumsLabels (λ now, brokerSamples now (brokerCommitLogDiff c))].

Definition distributeSpecs (c : MetricsCollector) : list familySpec :=
  (λ dm, mkSpec GAUGE (dm_name dm) (dm_help dm) brokerRuntimeLabels (λ now, runtimeSamples now (dm_cache dm)))
    <$> distributeMetrics c.

Definition runtimeSpecs (c : MetricsCollector) : list familySpec :=
  (λ rm, mkSpec GAUGE (rm_name rm) (rm_help rm) brokerRuntimeLabels (λ now, runtimeSamples now (rm_cache rm)))
    <$> runtimeMetrics c.

Definition healthSpecs (c : MetricsCollector) : list familySpec :=
  [mkSpec COUNTER "rocketmq_health_check_produce_total" "RocketMQ health check produce result count" healthProduceLabels (λ _, produceSamples (health c));
   mkSpec COUNTER "rocketmq_health_check_consume_total" "RocketMQ health check consumed message count" healthConsumeLabels (λ _, consumeSamples (health c));
   mkSpec GAUGE "rocketmq_health_check_status" "RocketMQ health check status (1=healthy, 0=unhealthy)" healthCheckLabels (λ _, statusSamples (health c));
   mkSpec GAUGE "rocketmq_health_check_latency_seconds" "RocketMQ health check latency in seconds" healthCheckLabels (λ _, latencySamples (health c));
   mkSpec GAUGE "rocketmq_health_check_last_success_timestamp_seconds" "Unix timestamp of last successful health check" healthCheckLabels (λ _, lastSuccessSamples (health c))].

Definition familySpecs (c : MetricsCollector) : list familySpec :=
  staticSpecs c ++ distributeSpecs c ++ runtimeSpecs c ++ healthSpecs c.

(** The families in order, the [i]-th one at clock reading [clk i]. *)
Fixpoint gatherLoop (clk : nat → Z) (i : nat) (l : list familySpec) : outcome (list metricFamily) :=
  match l with
  | [] => Ret []
  | s :: l' => f ← buildFamily (clk i) s; fs ← gatherLoop clk (S i) l'; Ret (f :: fs)
  end.

Definition Gather (clk : nat → Z) (c : MetricsCollector) : outcome (list metricFamily) :=
  gatherLoop clk 0 (familySpecs c).
End gather.

(** ** Every operation of the collector *)

Inductive cstep `{GR : GoRange} (c : MetricsCollector) : MetricsCollector → Prop :=
| S_AddTopicOffsetMetric (now : Z) cluster broker topic ts value : cstep c (AddTopicOffsetMetric now cluster broker topic ts value c)
| S_AddProducerCountMetric (now : Z) cluster broker group count : cstep c (AddProducerCountMetric now cluster broker group count c)
| S_AddGroupCountMetric (now : Z) group caddrs localaddrs count : cstep c (AddGroupCountMetric now group caddrs localaddrs count c)
| S_AddGroupDiffMetric (now : Z) online group topic model value : cstep c (AddGroupDiffMetric now online group topic model value c)
| S_AddTopicPutNumsMetric (now : Z) cluster name ip topic value : cstep c (AddTopicPutNumsMetric now cluster name ip topic value c)
| S_AddTopicPutSizeMetric (now : Z) cluster name ip topic value : cstep c (AddTopicPutSizeMetric now cluster name ip topic value c)
| S_AddGroupBrokerTotalOffsetMetric (now : Z) cluster broker topic group value : cstep c (AddGroupBrokerTotalOffsetMetric now cluster broker topic group value c)
| S_AddGroupGetLatencyByStoreTimeMetric (now : Z) cluster broker topic group value : cstep c (AddGroupGetLatencyByStoreTimeMetric now cluster broker topic group value c)
| S_AddGroupConsumeTPSMetric (now : Z) cluster broker topic group value : cstep c (AddGroupConsumeTPSMetric now cluster broker topic group value c)
| S_AddGroupGetNumsMetric (now : Z) cluster broker topic group value : cstep c (AddGroupGetNumsMetric now cluster broker topic group value c)
| S_AddGroupGetSizeMetric (now : Z) cluster broker topic group value : cstep c (AddGroupGetSizeMetric now cluster broker topic group value c)
| S_AddSendBackNumsMetric (now : Z) cluster broker topic group value : cstep c (AddSendBackNumsMetric now cluster broker topic group value c)
| S_AddConsumerClientFailedMsgCountsMetric (now : Z) group topic addr id value : cstep c (AddConsumerClientFailedMsgCountsMetric now group topic addr id value c)
| S_AddConsumerClientFailedTPSMetric (now : Z) group topic addr id value : cstep c (AddConsumerClientFailedTPSMetric now group topic addr id value c)
| S_AddConsumerClientOKTPSMetric (now : Z) group topic addr id value : cstep c (AddConsumerClientOKTPSMetric now group topic addr id value c)
| S_AddConsumeRTMetricMetric (now : Z) group topic addr id value : cstep c (AddConsumeRTMetricMetric now group topic addr id value c)
| S_AddPullRTMetric (now : Z) group topic addr id value : cstep c (AddPullRTMetric now group topic addr id value c)
| S_AddPullTPSMetric (now : Z) group topic addr id value : cstep c (AddPullTPSMetric now group topic addr id value c)
| S_AddBrokerPutNumsMetric (now : Z) cluster ip name value : cstep c (AddBrokerPutNumsMetric now cluster ip name value c)
| S_AddBrokerGetNumsMetric (now : Z) cluster ip name value : cstep c (AddBrokerGetNumsMetric now cluster ip name value c)
| S_AddBrokerCommitLogDiffMetric (now : Z) cluster ip name value : cstep c (AddBrokerCommitLogDiffMetric now cluster ip name value c)
| S_AddBrokerRuntimeStatsMetric (clk : nat → Z) stats cluster addr host : cstep c (AddBrokerRuntimeStatsMetric clk stats cluster addr host c)
| S_Sweep (clk : nat → Z) : cstep c (Sweep clk c)
| S_health (h : healthStore) : cstep c (set_health h c).

Definition collector_reachable `{GR : GoRange} (ttl : Z) (c : MetricsCollector) : Prop :=
  rtc cstep (NewWithClock ttl) c.

(** ** The invariant *)

(** The key of a client entry is its address in lower case. *)
Definition client_ok (c : ttlCache clientRuntimeKey clientRuntimeVal) : Prop :=
  ∀ k e, m c !! k = Some e → xk_caddrsLower k = ToLower (cv_caddrs (value e)).

(** The ttl of every fixed cache. *)
Definition cache_ttls (c : MetricsCollector) : list Z :=
  [ttl (topicOffset c); ttl (topicRetryOffset c); ttl (topicDLQOffset c); ttl (producerCounts c); ttl (topicPutNums c);
   ttl (topicPutSize c); ttl (consumerDiff c); ttl (consumerRetryDiff c); ttl (consumerDLQDiff c); ttl (consumerCounts c);
   ttl (consumerClientFailedMsgCounts c); ttl (consumerClientFailedTPS c); ttl (consumerClientOKTPS c); ttl (consumerClientRT c); ttl (consumerClientPullRT c);
   ttl (consumerClientPullTPS c); ttl (groupBrokerTotalOffset c); ttl (groupConsumeTPS c); ttl (groupGetNums c); ttl (groupGetSize c);
   ttl (sendBackNums c); ttl (groupLatencyByTime c); ttl (brokerPutNums c); ttl (brokerGetNums c); ttl (brokerCommitLogDiff c)].

Record wf (T : Z) (c : MetricsCollector) : Prop := {
  wf_runtime : (λ r, (rm_name r, rm_help r, rm_getVal r)) <$> runtimeMetrics c = runtimeCatalog;
  wf_distribute : (λ d, (dm_name d, dm_help d, dm_distKey d)) <$> distributeMetrics c = distributeCatalog;
  wf_runtime_ttl : Forall (λ r, ttl (rm_cache r) = T) (runtimeMetrics c);
  wf_distribute_ttl : Forall (λ d, ttl (dm_cache d) = T) (distributeMetrics c);
  wf_ttls : cache_ttls c = replicate 25 T;
  wf_clients : Forall client_ok
    [consumerClientFailedMsgCounts c; consumerClientFailedTPS c; consumerClientOKTPS c;
     consumerClientRT c; consumerClientPullRT c; consumerClientPullTPS c]
}.

Lemma client_ok_add now group topic addr id v c :
  client_ok c → client_ok (addClient now group topic addr id v c).
Proof.
  intros Hc k e. unfold addClient, put. cbn [m]. rewrite lookup_insert_Some.
  intros [[<- <-]|[_ Hk]]; [done|by apply Hc].
Qed.

Section wf.
Context `{GR : GoRange}.

Lemma client_ok_sweep now c : client_ok c → client_ok (sweep now c).
Proof.
  intros Hc k e Hk. rewrite lookup_sweep in Hk. destruct (m c !! k) as [e0|] eqn:E; [|done].
  simpl in Hk. destruct (expired now c e0); simplify_eq. by apply Hc.
Qed.

Lemma imap_const {A B C} (f : nat → A → B) (g : B → C) (h : A → C) (l : list A) :
  (∀ i x, g (f i x) = h x) → g <$> imap f l = h <$> l.
Proof.
  intros Hf. revert f Hf. induction l as [|x l IH]; intros f Hf; [done|].
  rewrite imap_cons, !fmap_cons, Hf. f_equal. apply IH. intros. apply Hf.
Qed.

Lemma Forall_imap {A B} (f : nat → A → B) (P : B → Prop) (Q : A → Prop) (l : list A) :
  (∀ i x, Q x → P (f i x)) → Forall Q l → Forall P (imap f l).
Proof.
  intros Hf Hl. revert f Hf. induction Hl as [|x l Hx _ IH]; intros f Hf; [constructor|].
  rewrite imap_cons. constructor; [auto|]. apply IH. intros. apply Hf. done.
Qed.

Lemma wf_new T : wf T (NewWithClock T).
Proof.
  split; try reflexivity.
  - by repeat constructor.
  - by repeat constructor.
  - repeat constructor; done.
Qed.

Ltac wf_client :=
  split; try done;
  match goal with H : Forall client_ok _ |- _ => repeat (apply Forall_cons in H as [? H]) end;
  repeat constructor; try done; by (apply client_ok_add || apply client_ok_sweep).

Lemma wf_runtimeStats T c clk stats cluster addr host :
  wf T c → wf T (AddBrokerRuntimeStatsMetric clk stats cluster addr host c).
Proof.
  intros [H1 H2 H3 H4 H6 H5]. unfold AddBrokerRuntimeStatsMetric. cbv zeta.
  destruct (decide _); (split; [..|done]); cbn -[imap put] in *; try done.
  - rewrite <- H1. by apply imap_const.
  - rewrite <- H2. by apply imap_const.
  - eapply Forall_imap; [|done]. done.
  - eapply Forall_imap; [|done]. done.
  - rewrite <- H1. by apply imap_const.
  - eapply Forall_imap; [|done]. done.
Qed.

Lemma wf_Sweep T c clk : wf T c → wf T (Sweep clk c).
Proof.
  intros [H1 H2 H3 H4 H6 H5]. split; cbn -[imap sweep] in *.
  - rewrite <- H1. by apply imap_const.
  - rewrite <- H2. by apply imap_const.
  - eapply Forall_imap; [|done]. done.
  - eapply Forall_imap; [|done]. done.
  - exact H6.
  - repeat (apply Forall_cons in H5 as [? H5]). repeat constructor; by apply client_ok_sweep.
Qed.

Lemma wf_step T c c' : wf T c → cstep c c' → wf T c'.
Proof.
  intros Hw Hs. pose proof Hw as [H1 H2 H3 H4 H6 H5].
  destruct Hs; try (by split); try solve [wf_client].
  - unfold AddTopicOffsetMetric. repeat destruct (HasPrefix _ _); by split.
  - unfold AddGroupDiffMetric. cbv zeta. repeat destruct (HasPrefix _ _); by split.
  - by apply wf_runtimeStats.
  - by apply wf_Sweep.
Qed.

Lemma wf_reachable T c : collector_reachable T c → wf T c.
Proof. intros Hr. eapply rtc_invariant; [apply wf_step|exact Hr|apply wf_new]. Qed.
(** ** Building the families *)

Lemma zipLabels_ok names values :
  length values = length names → zipLabels names values = Ret (zip names values).
Proof.
  revert values. induction names as [|n names IH]; intros [|v values] Hl; try done.
  simpl in *. rewrite IH by lia. done.
Qed.

Lemma zip_values names values : length values = length names → (zip names values : list (string * string)).*2 = values.
Proof. intros Hl. apply snd_zip. lia. Qed.

(** The metric a sample stands for. *)
Definition metricOf (names : list string) (x : sample) : metric :=
  mkMetric (zip names (labelValues x)) (sampleValue x).

Definition arity_ok (s : familySpec) : Prop :=
  ∀ now, Forall (λ x, length (labelValues x) = length (spLabels s)) (spSamples s now).

Lemma buildMetrics_ok names samples :
  Forall (λ x, length (labelValues x) = length names) samples →
  buildMetrics names samples = Ret (metricOf names <$> samples).
Proof.
  induction 1 as [|x l Hx _ IH]; [done|]. simpl. rewrite zipLabels_ok by done. simpl. by rewrite IH.
Qed.

(** The family a specification stands for at a clock reading. *)
Definition familyOf (now : Z) (s : familySpec) : metricFamily :=
  mkFamily (spName s) (spHelp s) (spType s) (metricOf (spLabels s) <$> spSamples s now).

Lemma buildFamily_ok now s : arity_ok s → buildFamily now s = Ret (familyOf now s).
Proof.
  intros Ha. unfold buildFamily, familyOf, gaugeFamily, counterFamily.
  rewrite buildMetrics_ok by apply Ha. by destruct (spType s).
Qed.

Lemma gatherLoop_ok clk i l :
  Forall arity_ok l → gatherLoop clk i l = Ret (imap (λ j s, familyOf (clk (i + j)%nat) s) l).
Proof.
  intros Hl. revert i. induction Hl as [|s l Hs _ IH]; intros i; [done|].
  simpl. rewrite buildFamily_ok by done. simpl. rewrite IH. simpl.
  rewrite Nat.add_0_r. do 2 f_equal. apply imap_ext. intros j x _. simpl. by rewrite Nat.add_succ_r.
Qed.

(** Every sampler emits one value per label name. *)
Lemma specs_arity c : Forall arity_ok (familySpecs c).
Proof.
  unfold familySpecs. rewrite !Forall_app. split_and!.
  - repeat constructor; intros now; simpl; try (by constructor);
      apply Forall_fmap; apply Forall_true; by intros [].
  - apply Forall_fmap, Forall_true. intros dm now. apply Forall_fmap, Forall_true. by intros [].
  - apply Forall_fmap, Forall_true. intros rm now. apply Forall_fmap, Forall_true. by intros [].
  - repeat constructor; intros now; simpl; apply Forall_fmap, Forall_true;
      first [by intros [[] ?] | by intros []].
Qed.

Lemma Gather_families clk c : Gather clk c = Ret (imap (λ i s, familyOf (clk i) s) (familySpecs c)).
Proof. unfold Gather. by rewrite gatherLoop_ok by apply specs_arity. Qed.

(** The names of the families, in the order of the page. *)
Definition familyNames : list string :=
  spName <$> familySpecs (NewWithClock 0).

Lemma names_reachable T c : wf T c → spName <$> familySpecs c = familyNames.
Proof.
  intros [H1 H2 _ _ _ _].
  assert (spName <$> distributeSpecs c = fst ∘ fst <$> distributeCatalog) as Hd.
  { rewrite <- H2. unfold distributeSpecs. by rewrite <- !list_fmap_compose. }
  assert (spName <$> runtimeSpecs c = fst ∘ fst <$> runtimeCatalog) as Hr.
  { rewrite <- H1. unfold runtimeSpecs. by rewrite <- !list_fmap_compose. }
  unfold familySpecs. rewrite !fmap_app, Hd, Hr. reflexivity.
Qed.

Lemma familyNames_NoDup : NoDup familyNames ∧ length familyNames = 94%nat.
Proof.
  split.
  - apply (bool_decide_unpack _). vm_compute. exact I.
  - vm_compute. reflexivity.
Qed.

(** ** Distinct series *)

Lemma NoDup_snapshot_fmap {K V} `{Countable K} (f : K * V → list string) now (c : ttlCache K V) :
  (∀ k v k' v', get now k c = Some v → get now k' c = Some v' → f (k, v) = f (k', v') → k = k') →
  NoDup (f <$> snapshot now c).
Proof.
  intros Hf. pose proof (NoDup_snapshot now c) as Hnd.
  assert (∀ k v, (k, v) ∈ snapshot now c → get now k c = Some v) as Hin by (intros k v; apply elem_of_snapshot).
  induction (snapshot now c) as [|[k v] l IH]; [constructor|]. rewrite fmap_cons in *.
  apply NoDup_cons in Hnd as [Hk Hnd]. constructor.
  - rewrite list_elem_of_fmap. intros ([k' v'] & E & Hl). apply Hk, list_elem_of_fmap.
    exists (k', v'). split; [|done]. simpl. eapply Hf; [..|exact E]; apply Hin; by constructor.
  - apply IH; [done|]. intros k' v' ?. apply Hin. by constructor.
Qed.

Lemma NoDup_range_fmap {K V} `{Countable K} (f : K * V → list string) (mp : gmap K V) :
  (∀ k v k' v', f (k, v) = f (k', v') → k = k') → NoDup (f <$> range mp).
Proof.
  intros Hf. pose proof (NoDup_fst_range mp) as Hnd.
  induction (range mp) as [|[k v] l IH]; [constructor|]. rewrite fmap_cons in *.
  apply NoDup_cons in Hnd as [Hk Hnd]. constructor; [|by apply IH].
  rewrite list_elem_of_fmap. intros ([k' v'] & E & Hl). apply Hk, list_elem_of_fmap.
  exists (k', v'). split; [|done]. by eapply Hf.
Qed.

(** The families whose labels carry the key of the entry. *)
Definition keyed (name : string) : Prop :=
  name ≠ "rocketmq_producer_tps" ∧ name ≠ "rocketmq_producer_message_size".

Definition series_ok (s : familySpec) : Prop :=
  keyed (spName s) → ∀ now, NoDup (labelValues <$> spSamples s now).

Lemma series_snapshot {K V} `{Countable K} (f : K * V → sample) now (c : ttlCache K V) :
  (∀ k v k' v', labelValues (f (k, v)) = labelValues (f (k', v')) → k = k') →
  NoDup (labelValues <$> (f <$> snapshot now c)).
Proof.
  intros Hf. rewrite <- list_fmap_compose. apply NoDup_snapshot_fmap. intros k v k' v' _ _. apply Hf.
Qed.

Lemma series_range {K V} `{Countable K} (f : K * V → sample) (mp : gmap K V) :
  (∀ k v k' v', labelValues (f (k, v)) = labelValues (f (k', v')) → k = k') →
  NoDup (labelValues <$> (f <$> range mp)).
Proof. intros Hf. rewrite <- list_fmap_compose. apply NoDup_range_fmap. apply Hf. Qed.

Lemma get_entry {K V} `{Countable K} now k v (c : ttlCache K V) :
  get now k c = Some v → ∃ e, m c !! k = Some e ∧ value e = v.
Proof.
  unfold get. destruct (m c !! k) as [e|]; [|done]. destruct (expired now c e); [done|].
  intros [= <-]. eauto.
Qed.

Lemma series_client now c : client_ok c → NoDup (labelValues <$> clientSamples now c).
Proof.
  intros Hc. unfold clientSamples. rewrite <- list_fmap_compose. apply NoDup_snapshot_fmap.
  intros k v k' v' (e & Hk & <-)%get_entry (e' & Hk' & <-)%get_entry [= Ha _ Hg Ht].
  apply Hc in Hk. apply Hc in Hk'. destruct k, k'. simpl in *. congruence.
Qed.

Lemma specs_series T c : wf T c → Forall series_ok (familySpecs c).
Proof.
  intros [_ _ _ _ _ Hcl]. repeat (apply Forall_cons in Hcl as [? Hcl]).
  unfold familySpecs. rewrite !Forall_app. split_and!.
  - repeat constructor; intros [Hn1 Hn2] now; simpl in Hn1, Hn2; try done; cbn [spSamples];
      first [ by apply series_client | by constructor
            | apply series_snapshot; intros [] ? [] ?; simpl; congruence
            | apply series_snapshot; intros ? ? ? ?; simpl; congruence ].
  - apply Forall_fmap, Forall_true. intros dm _ now. apply series_snapshot.
    intros [] ? [] ?. unfold runtimeLabels. simpl. congruence.
  - apply Forall_fmap, Forall_true. intros rm _ now. apply series_snapshot.
    intros [] ? [] ?. unfold runtimeLabels. simpl. congruence.
  - repeat constructor; intros _ now; simpl; apply series_range;
      first [ by intros [] ? [] ? [=-> ->] | by intros ? ? ? ? [= ->] ].
Qed.

Lemma familyOf_distinct T c i s now :
  wf T c → familySpecs c !! i = Some s → keyed (spName s) → NoDup (labelPairs <$> famMetrics (familyOf now s)).
Proof.
  intros Hw Hi Hk. pose proof (proj1 (Forall_lookup _ _) (specs_series T c Hw) i s Hi Hk now) as Hnd.
  pose proof (proj1 (Forall_lookup _ _) (specs_arity c) i s Hi now) as Ha.
  apply (NoDup_fmap_1 (fmap snd : list (string * string) → list string)).
  enough (fmap snd <$> (labelPairs <$> famMetrics (familyOf now s)) = labelValues <$> spSamples s now) as -> by done.
  simpl. clear Hnd. induction Ha as [|x l Hx _ IH]; [done|]. rewrite !fmap_cons, IH. f_equal.
  simpl. by apply zip_values.
Qed.

(** ** What a write exposes *)

Lemma snapshot_live {K V} `{Countable K} now now' k v (c : ttlCache K V) :
  m c !! k = Some (mkEntry v now) → 0 ≤ now' - now ≤ ttl c → ttl c < 2 ^ 63 → (k, v) ∈ snapshot now' c.
Proof.
  intros Hk Hn HT. apply elem_of_snapshot. unfold get, expired. rewrite Hk. cbn [writtenAt value].
  rewrite timeSub_exact by lia. by rewrite (proj2 (Z.ltb_ge _ _)) by lia.
Qed.

Lemma snapshot_put {K V} `{Countable K} now now' k v (c : ttlCache K V) :
  0 ≤ now' - now ≤ ttl c → ttl c < 2 ^ 63 → (k, v) ∈ snapshot now' (put now k v c).
Proof. intros Hn HT. apply (snapshot_live now); [apply lookup_insert_eq|done..]. Qed.

(** [Gather] emits the value under the given label pairs in the named family. *)
Definition exposes (clk : nat → Z) (c : MetricsCollector) (name : string)
    (labels : list (string * string)) (v : float64) : Prop :=
  ∃ fams f, Gather clk c = Ret fams ∧ f ∈ fams ∧ famName f = name ∧ mkMetric labels v ∈ famMetrics f.

Lemma exposes_spec clk c s values v :
  s ∈ familySpecs c → (∀ i, mkSample values v ∈ spSamples s (clk i)) →
  exposes clk c (spName s) (zip (spLabels s) values) v.
Proof.
  intros [i Hi]%list_elem_of_lookup Hx. eexists _, (familyOf (clk i) s).
  split; [apply Gather_families|]. split_and!; [|done|].
  - apply list_elem_of_lookup. exists i. by rewrite list_lookup_imap, Hi.
  - apply list_elem_of_fmap. by exists (mkSample values v).
Qed.

Definition topicOffsetFamily (topic : string) : string :=
  if HasPrefix topic retryTopicPrefix then "rocketmq_topic_retry_offset"
  else if HasPrefix topic dlqTopicPrefix then "rocketmq_topic_dlq_offset"
  else "rocketmq_producer_offset".

Definition topicOffsetSeries (cluster broker topic : string) : list (string * string) :=
  [("cluster", cluster); ("broker", broker);
   if HasPrefix topic retryTopicPrefix then ("topic", topic)
   else if HasPrefix topic dlqTopicPrefix then ("group", TrimPrefix topic dlqTopicPrefix)
   else ("topic", topic)].

(** In every reachable state [Gather] returns (it never panics on a sample
    with more values than labels) the same 94 families with pairwise distinct
    names in the same order, and the [i]-th family carries exactly the live
    samples of its cache at the [i]-th clock reading, each with one pair per
    label name. *)
Theorem Gather_complete T c clk :
  collector_reachable T c →
  ∃ fams, Gather clk c = Ret fams ∧
    famName <$> fams = familyNames ∧ NoDup familyNames ∧ length familyNames = 94%nat ∧
    ∀ i s, familySpecs c !! i = Some s →
      ∃ f, fams !! i = Some f ∧ famName f = spName s ∧ famType f = spType s ∧
        famMetrics f = metricOf (spLabels s) <$> spSamples s (clk i) ∧
        Forall (λ x, (labelPairs x).*1 = spLabels s) (famMetrics f).
Proof.
  intros Hr. eexists. split; [apply Gather_families|]. split; [|split; [|split]].
  - rewrite <- (names_reachable T c (wf_reachable T c Hr)). by apply imap_const.
  - apply familyNames_NoDup.
  - apply familyNames_NoDup.
  - intros i s Hi. exists (familyOf (clk i) s). rewrite list_lookup_imap, Hi. split_and!; try done.
    simpl. apply Forall_fmap. pose proof (proj1 (Forall_lookup _ _) (specs_arity c) i s Hi (clk i)) as Ha.
    eapply Forall_impl; [exact Ha|]. intros x Hx. simpl in *. apply fst_zip. lia.
Qed.

(** In every reachable state no two metrics of a family carry the same
    labels, for every family but the two per-topic put families
    (rocketmq_producer_tps and rocketmq_producer_message_size), whose label is
    not their key. *)
Theorem Gather_series_distinct T c clk fams :
  collector_reachable T c → Gather clk c = Ret fams →
  Forall (λ f, keyed (famName f) → NoDup (labelPairs <$> famMetrics f)) fams.
Proof.
  intros Hr. rewrite Gather_families. intros Hg.
  assert (fams = imap (λ i s, familyOf (clk i) s) (familySpecs c)) as -> by congruence. clear Hg.
  apply Forall_lookup. intros i f.
  rewrite list_lookup_imap. destruct (familySpecs c !! i) as [s|] eqn:Hi; [|done]. intros [= <-] Hk.
  by apply (familyOf_distinct T c i); [apply wf_reachable|..].
Qed.

(** ** Broker runtime statistics *)

Definition runtimeSeries (stats : BrokerRuntimeStats) (cluster addr host : string) : list (string * string) :=
  [("cluster", cluster); ("brokerIP", addr); ("brokerHost", host); ("des", Model.BrokerVersionDesc stats);
   ("boottime", FormatInt (Model.BootTimestamp stats)); ("broker_version", FormatInt (Model.BrokerVersion stats))].

(** The entry [AddBrokerRuntimeStatsMetric] writes. *)
Definition runtimeEntryOf (stats : BrokerRuntimeStats) (host : string) (v : float64) : runtimeEntry :=
  mkRuntimeEntry (mkRuntimeVal host (Model.BrokerVersionDesc stats) (Model.BootTimestamp stats)
    (Model.BrokerVersion stats)) v.
Definition runtimeWrite (now : Z) (stats : BrokerRuntimeStats) (cluster addr host : string) (v : float64)
    (cache : ttlCache brokerRuntimeKey runtimeEntry) : ttlCache brokerRuntimeKey runtimeEntry :=
  put now (mk_brokerRuntimeKey cluster addr) (runtimeEntryOf stats host v) cache.

Lemma exposes_runtime clk stats cluster addr host c rm now v :
  rm ∈ runtimeMetrics c → ttl (rm_cache rm) < 2 ^ 63 → (∀ i, 0 ≤ clk i - now ≤ ttl (rm_cache rm)) →
  m (rm_cache rm) !! mk_brokerRuntimeKey cluster addr = Some (mkEntry (runtimeEntryOf stats host v) now) →
  exposes clk c (rm_name rm) (runtimeSeries stats cluster addr host) v.
Proof.
  intros Hin HT Hclk Hc.
  apply (exposes_spec clk c (mkSpec GAUGE (rm_name rm) (rm_help rm) brokerRuntimeLabels
    (λ now, runtimeSamples now (rm_cache rm))) [_; _; _; _; _; _]).
  - unfold familySpecs, runtimeSpecs. rewrite !elem_of_app. right; right; left. apply list_elem_of_fmap. by exists rm.
  - intros i. simpl. apply list_elem_of_fmap. eexists (_, _). split; [|by eapply snapshot_live]. done.
Qed.

Lemma exposes_distribute clk stats cluster addr host c dm now v :
  dm ∈ distributeMetrics c → ttl (dm_cache dm) < 2 ^ 63 → (∀ i, 0 ≤ clk i - now ≤ ttl (dm_cache dm)) →
  m (dm_cache dm) !! mk_brokerRuntimeKey cluster addr = Some (mkEntry (runtimeEntryOf stats host v) now) →
  exposes clk c (dm_name dm) (runtimeSeries stats cluster addr host) v.
Proof.
  intros Hin HT Hclk Hc.
  apply (exposes_spec clk c (mkSpec GAUGE (dm_name dm) (dm_help dm) brokerRuntimeLabels
    (λ now, runtimeSamples now (dm_cache dm))) [_; _; _; _; _; _]).
  - unfold familySpecs, distributeSpecs. rewrite !elem_of_app. right; left. apply list_elem_of_fmap. by exists dm.
  - intros i. simpl. apply list_elem_of_fmap. eexists (_, _). split; [|by eapply snapshot_live]. done.
Qed.

Lemma runtimeStats_runtime clk stats cluster addr host c i rm :
  runtimeMetrics c !! i = Some rm →
  runtimeMetrics (AddBrokerRuntimeStatsMetric clk stats cluster addr host c) !! i =
    Some (mkRuntimeMetric (rm_name rm) (rm_help rm)
      (runtimeWrite (clk i) stats cluster addr host (rm_getVal rm stats) (rm_cache rm)) (rm_getVal rm)).
Proof.
  intros Hi. unfold AddBrokerRuntimeStatsMetric. cbv zeta.
  destruct (decide _); cbn [runtimeMetrics set_runtimeMetrics set_distributeMetrics];
    rewrite list_lookup_imap, Hi; reflexivity.
Qed.

Lemma runtimeStats_distribute clk stats cluster addr host c i dm :
  Model.PutMessageDistributeTimeMap stats ≠ ∅ → distributeMetrics c !! i = Some dm →
  ∃ j, distributeMetrics (AddBrokerRuntimeStatsMetric clk stats cluster addr host c) !! i =
    Some (mkDistributeMetric (dm_name dm) (dm_help dm) (dm_distKey dm)
      (runtimeWrite (clk j) stats cluster addr host
         (floatOfZ (default 0 (Model.PutMessageDistributeTimeMap stats !! dm_distKey dm))) (dm_cache dm))).
Proof.
  intros Hd Hi. eexists. unfold AddBrokerRuntimeStatsMetric. cbv zeta. rewrite decide_True.
  - cbn [distributeMetrics set_runtimeMetrics set_distributeMetrics].
    rewrite list_lookup_imap, Hi. reflexivity.
  - apply map_size_non_empty_iff in Hd. lia.
Qed.

End wf.

(** ** Two live series with the same labels *)

(** One broker name reached under two addresses within the TTL. *)
Definition moved_broker : MetricsCollector :=
  AddTopicPutNumsMetric 1 "c" "broker-a" "10.0.0.2:10911" "T" (floatOfZ 2)
    (AddTopicPutNumsMetric 0 "c" "broker-a" "10.0.0.1:10911" "T" (floatOfZ 1) (NewWithClock 60)).

(** The put rate of a topic is cached per broker address but labelled with the
    broker name: when a broker's address changes, both entries are live for a
    TTL and [Gather] emits the same series twice. *)
Theorem producer_tps_duplicate :
  let GR := std_goRange in
  collector_reachable 60 moved_broker ∧
  ∃ fams f, Gather (λ _, 2) moved_broker = Ret fams ∧ f ∈ fams ∧ famName f = "rocketmq_producer_tps" ∧
    ¬ NoDup (labelPairs <$> famMetrics f).
Proof.
  intros GR. split.
  - eapply rtc_l; [apply S_AddTopicPutNumsMetric|]. eapply rtc_l; [apply S_AddTopicPutNumsMetric|]. apply rtc_refl.
  - eexists _, (familyOf 2 (mkSpec GAUGE "rocketmq_producer_tps" "TopicPutNums" topicNumsLabels
      (λ now, topicPutSamples now (topicPutNums moved_broker)))).
    split; [apply Gather_families|]. split_and!; [|done|].
    + apply list_elem_of_lookup. exists 8%nat. rewrite list_lookup_imap. reflexivity.
    + vm_compute. intros [Hn _]%NoDup_cons. apply Hn. constructor.
Qed.

(** ** Witnesses *)

Definition one_offset : MetricsCollector :=
  AddTopicOffsetMetric 0 "c" "b" "T" 0 (floatOfZ 1) (NewWithClock 60).

Lemma one_offset_reachable `{GR : GoRange} : collector_reachable 60 one_offset.
Proof. apply rtc_once, (S_AddTopicOffsetMetric _ 0 "c" "b" "T" 0 (floatOfZ 1)). Qed.

Lemma Gather_complete_witness :
  ∃ fams, @Gather std_goRange (λ _, 5) one_offset = Ret fams ∧ famName <$> fams = @familyNames std_goRange.
Proof.
  destruct (@Gather_complete std_goRange 60 one_offset (λ _, 5) one_offset_reachable) as (fams & H1 & H2 & _).
  exists fams. exact (conj H1 H2).
Defined.

Lemma Gather_series_distinct_witness :
  ∃ fams, @Gather std_goRange (λ _, 5) one_offset = Ret fams ∧
    Forall (λ f, keyed (famName f) → NoDup (labelPairs <$> famMetrics f)) fams.
Proof.
  eexists. split; [apply Gather_families|].
  apply (@Gather_series_distinct std_goRange 60 one_offset (λ _, 5)); [apply one_offset_reachable|apply Gather_families].
Defined.
