(* ===== verification/Service.v ===== *)
(** * The admin client: internal/service, internal/rmqremote/codes.go

    Every read RPC of the exporter: request headers, signing, response codes,
    body decoding, and the operations that follow a topic route and merge the
    answers of its brokers.  An operation is a [prog rpcE]: it draws a request
    identifier and exchanges commands with an address.  encoding/json is the
    parameter [JsonLib]; fastjson's bare keys are quoted before it runs, as in
    rmqremote.UnmarshalJSON. *)

From Stdlib Require Import ZArith Lia Ascii String.
From S2P Require Import Prelude GoStrings GoFloat Codec FastJson Acl Effects Model.

(** ** Codes *)

Definition RequestPullMessage : Z := 11.
Definition RequestGetAllTopicListFromNameSrv : Z := 206.
Definition RequestGetBrokerClusterInfo : Z := 106.
Definition RequestGetTopicStatsInfo : Z := 202.
Definition RequestGetRouteInfoByTopic : Z := 105.
Definition RequestQueryTopicConsumeByWho : Z := 300.
Definition RequestGetConsumerConnectionList : Z := 203.
Definition RequestGetConsumeStats : Z := 208.
Definition RequestViewBrokerStatsData : Z := 315.
Definition RequestGetBrokerRuntimeInfo : Z := 28.
Definition RequestGetAllProducerInfo : Z := 328.
Definition RequestGetConsumerRunningInfo : Z := 307.
Definition ResponseSuccess : Z := 0.
Definition ResponseSystemError : Z := 1.
Definition ResponseTopicNotExist : Z := 17.
Definition ResponseConsumerNotOnline : Z := 206.

(** ** Bodies *)

(** A nil map of the wire that the code tells from an empty one is [None]. *)
Record BrokerData : Type := mkBrokerData {
  bd_Cluster : string;
  bd_BrokerName : string;
  bd_BrokerAddrs : gmap Z string
}.
Record ClusterInfo : Type := mkClusterInfo {
  ci_ClusterAddrTable : option (gmap string (list string));
  ci_BrokerAddrTable : option (gmap string BrokerData)
}.
Record TopicList : Type := mkTopicList {
  tl_TopicList : list string;
  tl_TopicQueueTable : gmap string Z
}.
Record QueueData : Type := mkQueueData {
  qd_BrokerName : string;
  qd_ReadQueueNums : Z;
  qd_WriteQueueNums : Z;
  qd_Perm : Z;
  qd_TopicSynFlag : Z
}.
Record TopicRouteData : Type := mkTopicRouteData {
  tr_QueueDatas : list QueueData;
  tr_BrokerDatas : list BrokerData
}.
Record MessageQueue : Type := mkMessageQueue {
  mq_Topic : string;
  mq_BrokerName : string;
  mq_QueueId : Z
}.
Record TopicOffset : Type := mkTopicOffset {
  to_MinOffset : Z;
  to_MaxOffset : Z;
  to_LastUpdateTimestamp : Z
}.
Record OffsetWrapper : Type := mkOffsetWrapper {
  ow_BrokerOffset : Z;
  ow_ConsumerOffset : Z;
  ow_LastTimestamp : Z
}.
Record GroupList : Type := mkGroupList { gl_GroupList : list string }.
Record Connection : Type := mkConnection {
  cn_ClientAddr : string;
  cn_ClientId : string;
  cn_Language : string;
  cn_Version : Z
}.
Record ConsumerConnection : Type := mkConsumerConnection {
  cc_ConnectionSet : list Connection;
  cc_MessageModel : string
}.
Record BrokerStatsItem : Type := mkStatsItem { si_Tps : float64; si_AvgTime : float64; si_Sum : float64 }.
Record BrokerStatsData : Type := mkBrokerStatsData {
  bs_StatsMinute : option BrokerStatsItem;
  bs_StatsHour : option BrokerStatsItem;
  bs_StatsTen : option BrokerStatsItem
}.

(** The elements of a producer list have no fields; a null list is [None]. *)
Record ProducerTableInfo : Type := mkProducerTableInfo { pt_Data : gmap string (option (list unit)) }.
Record ConsumerRunningStatusTable : Type := mkRunningStatus {
  rs_ConsumeFailedMsgs : Z;
  rs_ConsumeFailedTPS : float64;
  rs_ConsumeOKTPS : float64;
  rs_ConsumeRT : float64;
  rs_PullRT : float64;
  rs_PullTPS : float64
}.
Record ConsumerRunningInfo : Type := mkRunningInfo {
  ri_StatusTable : gmap string ConsumerRunningStatusTable;
  ri_Jstack : string
}.

(** The values are raw JSON. *)
Record TopicStatsTable : Type := mkTopicStatsTable { ts_OffsetTable : gmap string bytes }.
Record TopicStatsEntry : Type := mkTopicStatsEntry { te_Queue : MessageQueue; te_Offset : TopicOffset }.
Record ConsumeStats : Type := mkConsumeStats {
  cs_OffsetTable : gmap string bytes;
  cs_ConsumeTps : float64
}.
Record ConsumeStatsEntry : Type := mkConsumeStatsEntry { ce_Queue : MessageQueue; ce_Offset : OffsetWrapper }.
Record kvTable : Type := mkKvTable { kt_Table : option (gmap string string) }.

(** ** encoding/json *)

(** [json.Unmarshal] into a fresh value of each type. *)
Class JsonLib : Type := {
  json_ClusterInfo : bytes → outcome ClusterInfo;
  json_TopicList : bytes → outcome TopicList;
  json_TopicRouteData : bytes → outcome TopicRouteData;
  json_TopicStatsTable : bytes → outcome TopicStatsTable;
  json_ConsumeStats : bytes → outcome ConsumeStats;
  json_GroupList : bytes → outcome GroupList;
  json_ConsumerConnection : bytes → outcome ConsumerConnection;
  json_BrokerStatsData : bytes → outcome BrokerStatsData;
  json_ProducerTableInfo : bytes → outcome ProducerTableInfo;
  json_ConsumerRunningInfo : bytes → outcome ConsumerRunningInfo;
  json_kvTable : bytes → outcome kvTable;
  json_MessageQueue : bytes → outcome MessageQueue;
  json_TopicOffset : bytes → outcome TopicOffset;
  json_OffsetWrapper : bytes → outcome OffsetWrapper
}.

(** A response body: its zero value, which an empty body leaves, and its decoder. *)
Class JsonBody (A : Type) : Type := { zeroBody : A; jsonUnmarshal : bytes → outcome A }.

#[export] Instance body_ClusterInfo `{JsonLib} : JsonBody ClusterInfo := {| zeroBody := mkClusterInfo None None; jsonUnmarshal := json_ClusterInfo |}.
#[export] Instance body_TopicList `{JsonLib} : JsonBody TopicList := {| zeroBody := mkTopicList [] ∅; jsonUnmarshal := json_TopicList |}.
#[export] Instance body_TopicRouteData `{JsonLib} : JsonBody TopicRouteData := {| zeroBody := mkTopicRouteData [] []; jsonUnmarshal := json_TopicRouteData |}.
#[export] Instance body_TopicStatsTable `{JsonLib} : JsonBody TopicStatsTable := {| zeroBody := mkTopicStatsTable ∅; jsonUnmarshal := json_TopicStatsTable |}.
#[export] Instance body_ConsumeStats `{JsonLib} : JsonBody ConsumeStats := {| zeroBody := mkConsumeStats ∅ fzero; jsonUnmarshal := json_ConsumeStats |}.
#[export] Instance body_GroupList `{JsonLib} : JsonBody GroupList := {| zeroBody := mkGroupList []; jsonUnmarshal := json_GroupList |}.
#[export] Instance body_ConsumerConnection `{JsonLib} : JsonBody ConsumerConnection := {| zeroBody := mkConsumerConnection [] ""; jsonUnmarshal := json_ConsumerConnection |}.
#[export] Instance body_BrokerStatsData `{JsonLib} : JsonBody BrokerStatsData := {| zeroBody := mkBrokerStatsData None None None; jsonUnmarshal := json_BrokerStatsData |}.
#[export] Instance body_ProducerTableInfo `{JsonLib} : JsonBody ProducerTableInfo := {| zeroBody := mkProducerTableInfo ∅; jsonUnmarshal := json_ProducerTableInfo |}.
#[export] Instance body_ConsumerRunningInfo `{JsonLib} : JsonBody ConsumerRunningInfo := {| zeroBody := mkRunningInfo ∅ ""; jsonUnmarshal := json_ConsumerRunningInfo |}.
#[export] Instance body_kvTable `{JsonLib} : JsonBody kvTable := {| zeroBody := mkKvTable None; jsonUnmarshal := json_kvTable |}.

(** [rmqremote.UnmarshalJSON]; the scanner never runs out of fuel
    ([normalizeKeys_total]). *)
Definition UnmarshalJSON {A} `{JsonBody A} (body : bytes) : outcome A :=
  match normalizeKeys body with
  | Some normalized => jsonUnmarshal normalized
  | None => Panic "unreachable"
  end.

(** ** Effects *)

Inductive rpcE : Type → Type :=
| AddOpaque : rpcE Z
| InvokeSync (addr : string) (cmd : RemotingCommand) : rpcE (outcome RemotingCommand).

(** ** The client *)

Record AdminClient : Type := mkAdmin {
  ad_namesrv : string;
  ad_enableACL : bool;
  ad_accessKey : string;
  ad_secretKey : string;
  ad_timeout : Z
}.

Fixpoint firstNonEmpty (ps : list string) : string :=
  match ps with
  | [] => ""
  | p :: ps' => let t := TrimSpace p in if String.eqb t "" then firstNonEmpty ps' else t
  end.
Definition firstNamesrv (s : string) : string :=
  firstNonEmpty (Split "," (ReplaceAll s ";" ",")).

Definition NewAdminClient (namesrv : string) (enableACL : bool) (accessKey secretKey : string) (timeout : Z)
    : AdminClient :=
  mkAdmin (firstNamesrv namesrv) enableACL accessKey secretKey timeout.

(** [errors.As] for *rpcError along the [%w] chain; -1 when there is none. *)
Fixpoint ResponseCodeOf (err : error) : Z :=
  match err with
  | ERpc code _ => code
  | EWrap _ _ cause => ResponseCodeOf cause
  | _ => -1
  end.

(** ** Request headers *)

Definition topicHeader (topic : string) : gmap string string := {["topic" := topic]}.
Definition groupHeader (consumerGroup : string) : gmap string string := {["consumerGroup" := consumerGroup]}.
Definition groupTopicHeader (consumerGroup topic : string) : gmap string string :=
  <["consumerGroup" := consumerGroup]> {["topic" := topic]}.
Definition statsDataHeader (statsName statsKey : string) : gmap string string :=
  <["statsName" := statsName]> {["statsKey" := statsKey]}.
Definition boolToStr (b : bool) : string := if b then "true" else "false".
Definition consumerRunningHeader (consumerGroup clientId : string) (jstackEnable : bool) : gmap string string :=
  <["consumerGroup" := consumerGroup]> (<["clientId" := clientId]> {["jstackEnable" := boolToStr jstackEnable]}).

Definition flagSubscription : Z := Z.shiftl 1 2.
Definition flagBornHostV6 : Z := Z.shiftl 1 4.
Record pullHeader : Type := mkPullHeader {
  ph_consumerGroup : string;
  ph_topic : string;
  ph_subscription : string;
  ph_expressionType : string;
  ph_queueId : Z;
  ph_maxMsgNums : Z;
  ph_sysFlag : Z;
  ph_queueOffset : Z;
  ph_commitOffset : Z;
  ph_suspendTimeoutMillis : Z;
  ph_subVersion : Z
}.
Definition pullHeader_Encode (h : pullHeader) : gmap string string :=
  list_to_map [
    ("consumerGroup", ph_consumerGroup h);
    ("topic", ph_topic h);
    ("queueId", FormatInt (ph_queueId h));
    ("queueOffset", FormatInt (ph_queueOffset h));
    ("maxMsgNums", FormatInt (ph_maxMsgNums h));
    ("sysFlag", FormatInt (ph_sysFlag h));
    ("commitOffset", FormatInt (ph_commitOffset h));
    ("suspendTimeoutMillis", FormatInt (ph_suspendTimeoutMillis h));
    ("subscription", ph_subscription h);
    ("subVersion", FormatInt (ph_subVersion h));
    ("expressionType", ph_expressionType h)].

(** ** Pull results *)

Definition pullFound : string := "FOUND".
Definition pullNoNewMsg : string := "NO_NEW_MSG".
Definition pullNoMatchedMsg : string := "NO_MATCHED_MSG".
Definition pullOffsetIllegal : string := "OFFSET_ILLEGAL".
Definition pullUnknown : string := "UNKNOWN".

Record PullResult : Type := mkPullResult {
  pr_Status : string;
  pr_StoreTimestamp : Z;
  pr_MinOffset : Z
}.

Definition pullStatusFromCode (code : Z) : string :=
  if code =? ResponseSuccess then pullFound
  else if code =? 19 then pullNoNewMsg
  else if code =? 20 then pullNoMatchedMsg
  else if code =? 21 then pullOffsetIllegal
  else pullUnknown.

(** [binary.BigEndian.UintN(body[off:])]: panics when fewer than [n] bytes are left. *)
Definition uintAt (n : nat) (body : bytes) (off : Z) : outcome Z :=
  if decide (off + Z.of_nat n ≤ len body) then Ret (be_val (take n (drop (Z.to_nat off) body)))
  else Panic "index out of range".

Definition sysFlagOff : Z := 4 + 4 + 4 + 4 + 4 + 8 + 8.

Definition firstStoreTimestamp (body : bytes) : outcome (option Z) :=
  if len body <? sysFlagOff + 4 then Ret None
  else
    sysFlag ← uintAt 4 body sysFlagOff;
    let tsOff := sysFlagOff + 4 + 8 in
    let tsOff := if negb (Z.land sysFlag flagBornHostV6 =? 0) then tsOff + 20 else tsOff + 8 in
    if len body <? tsOff + 8 then Ret None
    else ts ← uintAt 8 body tsOff; Ret (Some (int64 ts)).

Definition respExtInt64 (resp : RemotingCommand) (key : string) : Z :=
  match ExtFields resp with
  | None => 0
  | Some ext =>
      match ext !! key with
      | None => 0
      | Some v => match ParseInt v with Ret n => n | _ => 0 end
      end
  end.

(** ** Calls *)

Section service.
Context `{GR : GoRange} `{JL : JsonLib}.

Definition signIfACL (a : AdminClient) (cmd : RemotingCommand) : RemotingCommand :=
  if ad_enableACL a then SignACL cmd (ad_accessKey a) (ad_secretKey a) else cmd.

(** [NewRemotingCommand] with the counter of the process. *)
Definition newCommand (code : Z) (header : option (gmap string string)) : prog rpcE RemotingCommand :=
  o ← trigger AddOpaque; mret (NewRemotingCommand code header [] o).1.

Definition decodeResponse {A} `{JsonBody A} (code : Z) (resp : RemotingCommand) : outcome A :=
  if negb (Code resp =? ResponseSuccess) then Fail (ERpc (Code resp) (Remark resp))
  else if decide (0 < len (Body resp)) then
    wrapErr "decode response body (code=%d): %w" [FormatInt code] (UnmarshalJSON (Body resp))
  else Ret zeroBody.

Definition invokeSyncNamesrv {A} `{JsonBody A} (a : AdminClient) (code : Z) (header : option (gmap string string))
    : prog rpcE A :=
  cmd ← newCommand code header;
  r ← trigger (InvokeSync (ad_namesrv a) (signIfACL a cmd));
  resp ← Leaf r;
  Leaf (decodeResponse code resp).

(** The response returned next to the decoded body is used by no caller. *)
Definition invokeSyncBroker {A} `{JsonBody A} (a : AdminClient) (addr : string) (code : Z)
    (header : option (gmap string string)) : prog rpcE A :=
  cmd ← newCommand code header;
  r ← trigger (InvokeSync addr (signIfACL a cmd));
  resp ← Leaf r;
  Leaf (decodeResponse code resp).

Definition ExamineBrokerClusterInfo (a : AdminClient) : prog rpcE ClusterInfo :=
  invokeSyncNamesrv a RequestGetBrokerClusterInfo None.
Definition FetchAllTopicList (a : AdminClient) : prog rpcE TopicList :=
  invokeSyncNamesrv a RequestGetAllTopicListFromNameSrv None.
Definition ExamineTopicRouteInfo (a : AdminClient) (topic : string) : prog rpcE TopicRouteData :=
  invokeSyncNamesrv a RequestGetRouteInfoByTopic (Some (topicHeader topic)).

Definition FetchBrokerRuntimeStats (a : AdminClient) (brokerAddr : string) : prog rpcE BrokerRuntimeStats :=
  kv ← invokeSyncBroker (A := kvTable) a brokerAddr RequestGetBrokerRuntimeInfo None;
  match kt_Table kv with
  | None => Leaf (Fail (EMsg "fetchBrokerRuntimeStats %s: empty KVTable" [brokerAddr]))
  | Some t => Leaf (NewBrokerRuntimeStats (Some t))
  end.

Definition ExamineTopicStatsOnBroker (a : AdminClient) (brokerAddr topic : string) : prog rpcE TopicStatsTable :=
  invokeSyncBroker a brokerAddr RequestGetTopicStatsInfo (Some (topicHeader topic)).
Definition QueryTopicConsumeByWhoOnBroker (a : AdminClient) (brokerAddr topic : string) : prog rpcE GroupList :=
  invokeSyncBroker a brokerAddr RequestQueryTopicConsumeByWho (Some (topicHeader topic)).
Definition ExamineConsumerConnectionInfoOnBroker (a : AdminClient) (brokerAddr group : string)
    : prog rpcE ConsumerConnection :=
  invokeSyncBroker a brokerAddr RequestGetConsumerConnectionList (Some (groupHeader group)).
Definition ExamineConsumeStatsOnBroker (a : AdminClient) (brokerAddr group topic : string) : prog rpcE ConsumeStats :=
  invokeSyncBroker a brokerAddr RequestGetConsumeStats (Some (groupTopicHeader group topic)).
Definition ViewBrokerStatsData (a : AdminClient) (brokerAddr statsName statsKey : string) : prog rpcE BrokerStatsData :=
  invokeSyncBroker a brokerAddr RequestViewBrokerStatsData (Some (statsDataHeader statsName statsKey)).
Definition GetAllProducerInfo (a : AdminClient) (brokerAddr : string) : prog rpcE ProducerTableInfo :=
  invokeSyncBroker a brokerAddr RequestGetAllProducerInfo None.
Definition GetConsumerRunningInfoOnBroker (a : AdminClient) (brokerAddr group clientId : string) (jstack : bool)
    : prog rpcE ConsumerRunningInfo :=
  invokeSyncBroker a brokerAddr RequestGetConsumerRunningInfo (Some (consumerRunningHeader group clientId jstack)).

Definition QueryMsgByOffset (a : AdminClient) (brokerAddr : string) (mq : MessageQueue) (offset : Z)
    : prog rpcE PullResult :=
  let hdr := mkPullHeader "TOOLS_CONSUMER" (mq_Topic mq) "*" "TAG" (mq_QueueId mq) 1 flagSubscription offset 0 0 0 in
  cmd ← newCommand RequestPullMessage (Some (pullHeader_Encode hdr));
  r ← trigger (InvokeSync brokerAddr (signIfACL a cmd));
  resp ← Leaf (wrapErr "pull %s: %w" [brokerAddr] r);
  let status := pullStatusFromCode (Code resp) in
  let minOffset := respExtInt64 resp "minOffset" in
  if String.eqb status pullFound && bool_decide (0 < len (Body resp)) then
    ts ← Leaf (firstStoreTimestamp (Body resp));
    mret (mkPullResult status (default 0 ts) minOffset)
  else mret (mkPullResult status 0 minOffset).

(** ** Composite-key tables *)

Fixpoint parseTopicStats (l : list (string * bytes)) : outcome (list TopicStatsEntry) :=
  match l with
  | [] => Ret []
  | (keyRaw, valRaw) :: l' =>
      q ← wrapErr "parse topic stats key %q: %w" [keyRaw] (json_MessageQueue (bytes_of keyRaw));
      o ← wrapErr "parse topic offset value: %w" [] (json_TopicOffset valRaw);
      rest ← parseTopicStats l';
      Ret (mkTopicStatsEntry q o :: rest)
  end.
Definition TopicStatsTable_Entries (t : TopicStatsTable) : outcome (list TopicStatsEntry) :=
  parseTopicStats (range (ts_OffsetTable t)).

Fixpoint parseConsumeStats (l : list (string * bytes)) : outcome (list ConsumeStatsEntry) :=
  match l with
  | [] => Ret []
  | (keyRaw, valRaw) :: l' =>
      q ← wrapErr "parse consume stats key %q: %w" [keyRaw] (json_MessageQueue (bytes_of keyRaw));
      o ← wrapErr "parse offset wrapper value: %w" [] (json_OffsetWrapper valRaw);
      rest ← parseConsumeStats l';
      Ret (mkConsumeStatsEntry q o :: rest)
  end.
Definition ConsumeStats_Entries (c : ConsumeStats) : outcome (list ConsumeStatsEntry) :=
  parseConsumeStats (range (cs_OffsetTable c)).

(** int64 arithmetic wraps around. *)
Definition ComputeTotalDiff (c : ConsumeStats) : outcome Z :=
  entries ← ConsumeStats_Entries c;
  Ret (foldl (λ diff e, int64 (diff + int64 (ow_BrokerOffset (ce_Offset e) - ow_ConsumerOffset (ce_Offset e))))
         0 entries).

(** ** Operations that follow a route *)

Definition retryTopic (group : string) : string := "%RETRY%" +:+ group.

Fixpoint firstAddr (l : list (Z * string)) : string :=
  match l with
  | [] => ""
  | (_, addr) :: l' => if String.eqb addr "" then firstAddr l' else addr
  end.

Definition selectBrokerAddr (bd : BrokerData) : string :=
  match bd_BrokerAddrs bd !! 0 with
  | Some addr => if String.eqb addr "" then firstAddr (range (bd_BrokerAddrs bd)) else addr
  | None => firstAddr (range (bd_BrokerAddrs bd))
  end.

(** [for k, v := range src { dst[k] = v }] *)
Definition copyMap (dst src : gmap string bytes) : gmap string bytes :=
  foldl (λ acc '(k, v), <[k := v]> acc) dst (range src).

Definition ExamineTopicStats (a : AdminClient) (topic : string) : prog rpcE TopicStatsTable :=
  route ← ExamineTopicRouteInfo a topic;
  foldProg (λ merged bd,
    let addr := selectBrokerAddr bd in
    if String.eqb addr "" then mret merged
    else
      r ← attempt (ExamineTopicStatsOnBroker a addr topic);
      match r with
      | inl _ => mret merged
      | inr tst => mret (mkTopicStatsTable (copyMap (ts_OffsetTable merged) (ts_OffsetTable tst)))
      end) (mkTopicStatsTable ∅) (tr_BrokerDatas route).

Definition ExamineConsumeStats (a : AdminClient) (group topic : string) : prog rpcE ConsumeStats :=
  route ← ExamineTopicRouteInfo a (retryTopic group);
  foldProg (λ merged bd,
    let addr := selectBrokerAddr bd in
    if String.eqb addr "" then mret merged
    else
      r ← attempt (ExamineConsumeStatsOnBroker a addr group topic);
      match r with
      | inl _ => mret merged
      | inr cs => mret (mkConsumeStats (copyMap (cs_OffsetTable merged) (cs_OffsetTable cs))
                          (fadd (cs_ConsumeTps merged) (cs_ConsumeTps cs)))
      end) (mkConsumeStats ∅ fzero) (tr_BrokerDatas route).

Fixpoint dedupLoop (seen : gset string) (conns : list Connection) : list Connection :=
  match conns with
  | [] => []
  | c :: conns' =>
      if String.eqb (cn_ClientId c) "" then c :: dedupLoop seen conns'
      else if bool_decide (cn_ClientId c ∈ seen) then dedupLoop seen conns'
      else c :: dedupLoop ({[cn_ClientId c]} ∪ seen) conns'
  end.
Definition dedupConnectionsByClientId (conns : list Connection) : list Connection :=
  if (length conns <=? 1)%nat then conns else dedupLoop ∅ conns.

(** The connection comes with the error when the merged set is empty. *)
Definition ExamineConsumerConnectionInfo (a : AdminClient) (group : string)
    : prog rpcE (option ConsumerConnection * option error) :=
  r ← attempt (ExamineTopicRouteInfo a (retryTopic group));
  match r with
  | inl err => mret (None, Some err)
  | inr route =>
      merged ← foldProg (λ merged bd,
        let addr := selectBrokerAddr bd in
        if String.eqb addr "" then mret merged
        else
          r ← attempt (ExamineConsumerConnectionInfoOnBroker a addr group);
          match r with
          | inl _ => mret merged
          | inr cc =>
              mret (mkConsumerConnection (cc_ConnectionSet merged ++ cc_ConnectionSet cc)
                (if String.eqb (cc_MessageModel merged) "" then cc_MessageModel cc else cc_MessageModel merged))
          end) (mkConsumerConnection [] "") (tr_BrokerDatas route);
      let merged := mkConsumerConnection (dedupConnectionsByClientId (cc_ConnectionSet merged)) (cc_MessageModel merged) in
      if (length (cc_ConnectionSet merged) =? 0)%nat
      then mret (Some merged, Some (ERpc ResponseConsumerNotOnline "Not found the consumer group connection"))
      else mret (Some merged, None)
  end.

(** The first broker of a route with an address. *)
Fixpoint firstBroker (bds : list BrokerData) : option string :=
  match bds with
  | [] => None
  | bd :: bds' =>
      let addr := selectBrokerAddr bd in
      if String.eqb addr "" then firstBroker bds' else Some addr
  end.

Definition QueryTopicConsumeByWho (a : AdminClient) (topic : string) : prog rpcE GroupList :=
  route ← ExamineTopicRouteInfo a topic;
  match firstBroker (tr_BrokerDatas route) with
  | Some addr => QueryTopicConsumeByWhoOnBroker a addr topic
  | None => mret (mkGroupList [])
  end.

Definition GetConsumerRunningInfo (a : AdminClient) (group clientId : string) (jstack : bool)
    : prog rpcE ConsumerRunningInfo :=
  route ← ExamineTopicRouteInfo a (retryTopic group);
  match firstBroker (tr_BrokerDatas route) with
  | Some addr => GetConsumerRunningInfoOnBroker a addr group clientId jstack
  | None => Leaf (Fail (EMsg "getConsumerRunningInfo: no broker in route for group %s" [group]))
  end.

(** ** Requests on the wire *)

(** A request: its addressee ([None] for a broker of the topology), its code and
    the fields of its header. *)
Record request : Type := mkRequest { rq_to : option string; rq_code : Z; rq_fields : list (string * string) }.

(** The command of a request on the wire: the code, an empty body, and as fields
    either exactly those of the header or, when signing is on, these with the access
    key of the client and, under the secret key, the base64 HMAC-SHA1 of the values
    of the covered fields in key order. *)
Definition onWire (a : AdminClient) (rq : request) (cmd : RemotingCommand) : Prop :=
  let fields := list_to_map (rq_fields rq) : gmap string string in
  Code cmd = rq_code rq ∧ Body cmd = [] ∧ Flag cmd = 0 ∧
  (ad_enableACL a = false → ExtFields cmd = Some fields) ∧
  (ad_enableACL a = true →
     ext_get (ExtFields cmd) "AccessKey" = Some (ad_accessKey a) ∧
     ext_get (ExtFields cmd) "Signature" =
       Some (calculateSignature (canonical fields (ad_accessKey a)) (bytes_of (ad_secretKey a))) ∧
     ∀ k, k ≠ "AccessKey" → k ≠ "Signature" → ext_get (ExtFields cmd) k = fields !! k).

(** Every request an operation sends is one of [rqs]. *)
Definition request_ok (a : AdminClient) (rqs : list request) (X : Type) (e : rpcE X) : Prop :=
  match e with
  | AddOpaque => True
  | InvokeSync addr cmd => ∃ rq, rq ∈ rqs ∧ default addr (rq_to rq) = addr ∧ onWire a rq cmd
  end.

Lemma onWire_sign a to code fields o :
  onWire a (mkRequest to code fields) (signIfACL a (NewRemotingCommand code (Some (list_to_map fields)) [] o).1).
Proof.
  unfold onWire, signIfACL. cbn [rq_code rq_fields]. set (c := (NewRemotingCommand _ _ _ _).1).
  destruct (ad_enableACL a); [|by split_and!].
  pose proof (SignACL_ext c (ad_accessKey a) (ad_secretKey a)) as E.
  split_and!; [reflexivity..|done|intros _]. rewrite E. cbn [c NewRemotingCommand fst set_ext ExtFields Body default].
  rewrite app_nil_r. unfold ext_get. cbn [mbind option_bind]. split_and!.
  - apply lookup_insert_eq.
  - rewrite lookup_insert_ne by done. apply lookup_insert_eq.
  - intros k Ha Hs. by rewrite !lookup_insert_ne by (intros ?; subst; by (apply Ha || apply Hs)).
Qed.

(** A nil header is an empty one. *)
Lemma onWire_nil a to code o :
  onWire a (mkRequest to code []) (signIfACL a (NewRemotingCommand code None [] o).1).
Proof. exact (onWire_sign a to code [] o). Qed.

Lemma invokeSyncBroker_ok {A} `{JsonBody A} a rqs addr code header fields to :
  mkRequest to code fields ∈ rqs → default addr to = addr →
  header = Some (list_to_map fields) ∨ (header = None ∧ fields = []) →
  all_events (request_ok a rqs) (invokeSyncBroker (A := A) a addr code header).
Proof.
  intros Hin Hto Hh. split; [done|]. intros o. split; [|by intros [r|e|msg]].
  exists (mkRequest to code fields). split_and!; [done|done|].
  destruct Hh as [->|[-> ->]]; [apply onWire_sign|apply onWire_nil].
Qed.

Lemma invokeSyncNamesrv_ok {A} `{JsonBody A} a rqs code header fields :
  mkRequest (Some (ad_namesrv a)) code fields ∈ rqs →
  header = Some (list_to_map fields) ∨ (header = None ∧ fields = []) →
  all_events (request_ok a rqs) (invokeSyncNamesrv (A := A) a code header).
Proof. intros Hin Hh. by apply (invokeSyncBroker_ok a rqs (ad_namesrv a) code header fields (Some (ad_namesrv a))). Qed.

(** The pull of one message. *)
Definition pullRequest (addr : string) (mq : MessageQueue) (offset : Z) : request :=
  mkRequest (Some addr) 11
    [("consumerGroup", "TOOLS_CONSUMER"); ("topic", mq_Topic mq); ("queueId", FormatInt (mq_QueueId mq));
     ("queueOffset", FormatInt offset); ("maxMsgNums", "1"); ("sysFlag", "4"); ("commitOffset", "0");
     ("suspendTimeoutMillis", "0"); ("subscription", "*"); ("subVersion", "0"); ("expressionType", "TAG")].

Lemma QueryMsgByOffset_ok a addr mq offset :
  all_events (request_ok a [pullRequest addr mq offset]) (QueryMsgByOffset a addr mq offset).
Proof.
  split; [done|]. intros o. split.
  - exists (pullRequest addr mq offset). split_and!; [apply list_elem_of_here|done|]. apply onWire_sign.
  - intros [r|e|msg]; [|done..]. simpl. destruct (_ && _); [|done]. by destruct (firstStoreTimestamp (Body r)).
Qed.
End service.

(** One call, or the attempt of one. *)
Ltac listed := repeat first [apply list_elem_of_here | apply list_elem_of_further].
Ltac request :=
  cbv beta delta [ExamineBrokerClusterInfo FetchAllTopicList ExamineTopicRouteInfo ExamineTopicStatsOnBroker
    QueryTopicConsumeByWhoOnBroker ExamineConsumerConnectionInfoOnBroker ExamineConsumeStatsOnBroker
    ViewBrokerStatsData GetAllProducerInfo GetConsumerRunningInfoOnBroker];
  lazymatch goal with
  | |- all_events _ (attempt _) => apply all_events_attempt; request
  | |- all_events _ (invokeSyncNamesrv _ _ _) =>
      eapply invokeSyncNamesrv_ok; [listed|first [by left | by right]]
  | |- all_events _ (invokeSyncBroker _ _ _ _) =>
      eapply invokeSyncBroker_ok; [listed|reflexivity|first [by left | by right]]
  | |- all_events _ (QueryMsgByOffset _ _ _ _) => apply QueryMsgByOffset_ok
  end.

(** ** Every request is as documented, and signed *)

Section requests.
Context `{GR : GoRange} `{JL : JsonLib}.

(** What the operations ask, by the request codes of the protocol. *)
Definition routeRequest (a : AdminClient) (topic : string) : request :=
  mkRequest (Some (ad_namesrv a)) 105 [("topic", topic)].
Definition toBroker (code : Z) (fields : list (string * string)) : request := mkRequest None code fields.

End requests.

(** ** Deduplication of connections *)

Definition named (c : Connection) : Prop := cn_ClientId c ≠ "".
#[export] Instance named_dec c : Decision (named c).
Proof. unfold named. apply _. Defined.

(** The first connection of a client. *)
Definition firstOf (id : string) (l : list Connection) : option Connection :=
  head (filter (λ c, cn_ClientId c = id) l).

Lemma dedupLoop_sublist seen l : dedupLoop seen l `sublist_of` l.
Proof.
  revert seen. induction l as [|c l IH]; intros seen; simpl; [done|].
  destruct (String.eqb _ _); [by apply sublist_skip|]. case_bool_decide; [by apply sublist_cons|by apply sublist_skip].
Qed.

Lemma dedupLoop_first seen l id :
  id ≠ "" → firstOf id (dedupLoop seen l) = if decide (id ∈ seen) then None else firstOf id l.
Proof.
  intros Hid. revert seen. induction l as [|c l IH]; intros seen; simpl; [by case_decide|].
  unfold firstOf in *. destruct (String.eqb_spec (cn_ClientId c) "") as [E|E].
  - rewrite !filter_cons_False by congruence. apply IH.
  - case_bool_decide as Hs.
    + rewrite IH. case_decide; [done|]. by rewrite filter_cons_False by set_solver.
    + destruct (decide (cn_ClientId c = id)) as [<-|Hne].
      * rewrite !filter_cons_True by done. by rewrite decide_False.
      * rewrite !filter_cons_False by done. rewrite IH. repeat case_decide; set_solver.
Qed.

Lemma dedupLoop_NoDup seen l :
  NoDup (cn_ClientId <$> filter named (dedupLoop seen l)) ∧
  (∀ c, c ∈ dedupLoop seen l → named c → cn_ClientId c ∉ seen).
Proof.
  revert seen. induction l as [|c l IH]; intros seen; simpl.
  { split; [constructor|]. intros c Hc. by apply elem_of_nil in Hc. }
  destruct (String.eqb_spec (cn_ClientId c) "") as [E|E].
  - rewrite filter_cons_False by (unfold named; congruence). destruct (IH seen) as [H1 H2]. split; [done|].
    intros c' [->|Hc]%elem_of_cons; [by intros []|]. by apply H2.
  - case_bool_decide as Hs; [apply IH|]. rewrite filter_cons_True by done.
    destruct (IH ({[cn_ClientId c]} ∪ seen)) as [H1 H2]. split.
    + rewrite fmap_cons. constructor; [|done]. rewrite list_elem_of_fmap.
      intros (c' & Hid & [Hn Hc]%list_elem_of_filter). specialize (H2 c' Hc Hn). set_solver.
    + intros c' [->|Hc]%elem_of_cons Hn; [done|]. specialize (H2 c' Hc Hn). set_solver.
Qed.

Lemma dedupLoop_anonymous seen l : filter (λ c, ¬ named c) (dedupLoop seen l) = filter (λ c, ¬ named c) l.
Proof.
  revert seen. induction l as [|c l IH]; intros seen; simpl; [done|].
  destruct (String.eqb_spec (cn_ClientId c) "") as [E|E].
  - rewrite !filter_cons_True by (intros []; done). by rewrite IH.
  - rewrite (filter_cons_False _ c l) by (intros H; by apply H). case_bool_decide; [apply IH|].
    rewrite filter_cons_False by (intros H'; by apply H'). apply IH.
Qed.

(** [dedupConnectionsByClientId] keeps, in order, exactly one connection of
    every named client, the first one, and every connection without a client
    id. *)
Theorem dedupConnectionsByClientId_spec conns :
  dedupConnectionsByClientId conns `sublist_of` conns ∧
  NoDup (cn_ClientId <$> filter named (dedupConnectionsByClientId conns)) ∧
  (∀ id, id ≠ "" → firstOf id (dedupConnectionsByClientId conns) = firstOf id conns) ∧
  filter (λ c, ¬ named c) (dedupConnectionsByClientId conns) = filter (λ c, ¬ named c) conns.
Proof.
  unfold dedupConnectionsByClientId. destruct (Nat.leb_spec (length conns) 1) as [Hl|Hl].
  - split_and!; [done| |done..]. destruct conns as [|c [|]]; simpl in *; [constructor| |lia].
    rewrite filter_cons. case_decide; [apply NoDup_singleton|constructor].
  - split_and!; [apply dedupLoop_sublist|apply dedupLoop_NoDup| |apply dedupLoop_anonymous].
    intros id Hid. by rewrite dedupLoop_first, decide_False by set_solver.
Qed.

(** ** The lag of a group *)

Section total_diff.
Context `{JL : JsonLib}.

(** What one entry contributes, on mathematical integers. *)
Definition entryDiff (kv : string * bytes) : Z :=
  match json_OffsetWrapper kv.2 with Ret o => ow_BrokerOffset o - ow_ConsumerOffset o | _ => 0 end.

Definition decodable (kv : string * bytes) : Prop :=
  (∃ q, json_MessageQueue (bytes_of kv.1) = Ret q) ∧ (∃ o, json_OffsetWrapper kv.2 = Ret o).

Definition diffOf (e : ConsumeStatsEntry) : Z := ow_BrokerOffset (ce_Offset e) - ow_ConsumerOffset (ce_Offset e).

Lemma parseConsumeStats_diff l : Forall decodable l →
  ∃ es, parseConsumeStats l = Ret es ∧
    diffOf <$> es = entryDiff <$> l.
Proof.
  induction 1 as [|[k v] l [[q Hq] [o Ho]] _ (es & H1 & H2)]; [by exists []|].
  exists (mkConsumeStatsEntry q o :: es). simpl in *. rewrite Hq. simpl. rewrite Ho. simpl. rewrite H1.
  split; [done|]. simpl. f_equal; [|exact H2]. unfold entryDiff. simpl. by rewrite Ho.
Qed.

Lemma parseConsumeStats_inv l es : parseConsumeStats l = Ret es → Forall decodable l.
Proof.
  revert es. induction l as [|[k v] l IH]; intros es H; [constructor|]. simpl in H. inv_bind.
  constructor; [|by eapply IH]. split; simpl; eauto.
Qed.

Lemma foldl_int64 (ds : list Z) acc :
  foldl (λ d x, int64 (d + int64 x)) (int64 acc) ds = int64 (acc + foldr Z.add 0 ds).
Proof.
  revert acc. induction ds as [|x ds IH]; intros acc; cbn [foldl foldr]; [by rewrite Z.add_0_r|].
  unfold int64 in *. rewrite swrap_add_l, Z.add_comm, swrap_add_l by lia.
  rewrite IH. f_equal. lia.
Qed.

Lemma foldl_diff es acc :
  foldl (λ diff e, int64 (diff + int64 (ow_BrokerOffset (ce_Offset e) - ow_ConsumerOffset (ce_Offset e)))) (int64 acc) es
  = int64 (acc + foldr Z.add 0 (diffOf <$> es)).
Proof.
  rewrite <- foldl_int64. generalize (int64 acc).
  induction es as [|e es IH]; intros d; [done|]. simpl. apply IH.
Qed.

Lemma sum_perm l1 l2 : l1 ≡ₚ l2 → foldr Z.add 0 l1 = foldr Z.add 0 l2.
Proof. induction 1; simpl; lia. Qed.

(** The lag of a consumer group is the sum of broker offset minus consumer
    offset over all queues of the table, in 64-bit arithmetic, whatever the order
    in which the map is visited; it is computed exactly when every key and every
    value decodes. *)
Theorem ComputeTotalDiff_spec `{GR : GoRange} c d :
  ComputeTotalDiff c = Ret d ↔
  Forall decodable (map_to_list (cs_OffsetTable c)) ∧
  d = int64 (foldr Z.add 0 (entryDiff <$> map_to_list (cs_OffsetTable c))).
Proof.
  unfold ComputeTotalDiff, ConsumeStats_Entries.
  pose proof (range_perm (cs_OffsetTable c)) as Hp.
  rewrite <- (sum_perm (entryDiff <$> range (cs_OffsetTable c))) by (by rewrite Hp).
  assert (Forall decodable (map_to_list (cs_OffsetTable c)) ↔ Forall decodable (range (cs_OffsetTable c))) as ->
    by (by rewrite Hp).
  split.
  - intros H. inv_bind. pose proof (parseConsumeStats_inv _ _ E) as Hd. split; [done|].
    destruct (parseConsumeStats_diff _ Hd) as (es & H1 & H2). assert (a = es) as -> by congruence.
    rewrite <- H2. apply (foldl_diff es 0).
  - intros [Hd ->]. destruct (parseConsumeStats_diff _ Hd) as (es & H1 & H2). rewrite H1. simpl. f_equal.
    rewrite <- H2. apply (foldl_diff es 0).
Qed.
End total_diff.

(** ** The store timestamp of a pulled message *)

Lemma uintAt_app n (pre b rest : bytes) off :
  off = len pre → length b = n → uintAt n (pre ++ b ++ rest) off = Ret (be_val b).
Proof.
  intros -> Hb. unfold uintAt. rewrite decide_True by (unfold len; rewrite !length_app; lia).
  unfold len. rewrite Nat2Z.id, drop_app_length, <- Hb, take_app_length. done.
Qed.

Lemma uintAt_ok n (body : bytes) off :
  off + Z.of_nat n ≤ len body → uintAt n body off = Ret (be_val (take n (drop (Z.to_nat off) body))).
Proof. intros H. unfold uintAt. by rewrite decide_True. Qed.

Lemma firstStoreTimestamp_total body : ∃ r, firstStoreTimestamp body = Ret r.
Proof.
  unfold firstStoreTimestamp. destruct (Z.ltb_spec (len body) (sysFlagOff + 4)) as [|H1]; [eauto|].
  rewrite uintAt_ok by lia. cbn [mbind outcome_bind]. cbv zeta.
  destruct (len body <? _) eqn:H2; [eauto|]. apply Z.ltb_ge in H2.
  rewrite uintAt_ok by lia. cbn [mbind outcome_bind]. eauto.
Qed.

(** A message record up to its store timestamp: the fixed fields before the
    system flags, the flags, the birth timestamp and host, the timestamp. *)
Definition messageRecord (fixed : bytes) (sysFlag bornTimestamp : Z) (bornHost : bytes) (storeTimestamp : Z)
    (rest : bytes) : bytes :=
  fixed ++ be_bytes 4 sysFlag ++ be_bytes 8 bornTimestamp ++ bornHost ++ be_bytes 8 storeTimestamp ++ rest.

(** C40: [firstStoreTimestamp] returns on every byte string, reports a batch
    shorter than 64 bytes as having no timestamp, and reads back the timestamp of
    a message record for both sizes of the birth host, which bit 4 of the system
    flags selects. *)
Theorem firstStoreTimestamp_spec (fixed bornHost rest : bytes) (sysFlag bornTs ts : Z) :
  length fixed = 36%nat → 0 ≤ sysFlag < 2 ^ 32 →
  length bornHost = (if Z.testbit sysFlag 4 then 20 else 8)%nat → in_int 64 ts →
  firstStoreTimestamp (messageRecord fixed sysFlag bornTs bornHost ts rest) = Ret (Some ts) ∧
  (∀ body, ∃ r, firstStoreTimestamp body = Ret r ∧ (len body < 64 → r = None)).
Proof.
  intros Hf Hs Hh Hts. split.
  - unfold firstStoreTimestamp, messageRecord.
    assert ((Z.land sysFlag flagBornHostV6 =? 0) = negb (Z.testbit sysFlag 4)) as Hb.
    { unfold flagBornHostV6. change (Z.shiftl 1 4) with (2 ^ 4). destruct (Z.testbit sysFlag 4) eqn:E.
      - apply Z.eqb_neq. intros Hz. apply (f_equal (λ z, Z.testbit z 4)) in Hz.
        rewrite Z.land_spec, E, Z.pow2_bits_true, Z.bits_0 in Hz by lia. done.
      - apply Z.eqb_eq. apply Z.bits_inj'. intros n Hn. rewrite Z.land_spec, Z.bits_0, Z.pow2_bits_eqb by lia.
        destruct (Z.eqb_spec 4 n) as [<-|]; [by rewrite E|by rewrite andb_false_r]. }
    rewrite (proj2 (Z.ltb_ge _ _)) by (unfold len, sysFlagOff; rewrite !length_app, !length_be_bytes; lia).
    rewrite uintAt_app by (unfold len, sysFlagOff; rewrite ?length_be_bytes; lia). cbn [mbind outcome_bind]. cbv zeta.
    rewrite be_val_bytes, Z.mod_small, Hb, negb_involutive by lia.
    assert (len (fixed ++ be_bytes 4 sysFlag ++ be_bytes 8 bornTs ++ bornHost)
      = if Z.testbit sysFlag 4 then sysFlagOff + 4 + 8 + 20 else sysFlagOff + 4 + 8 + 8) as Hl.
    { unfold len, sysFlagOff. rewrite !length_app, !length_be_bytes. destruct (Z.testbit sysFlag 4); lia. }
    rewrite <- Hl, (proj2 (Z.ltb_ge _ _)) by (unfold len; rewrite !length_app, !length_be_bytes; lia).
    rewrite !app_assoc, <- !(app_assoc _ _ rest), <- (app_assoc fixed), <- (app_assoc fixed).
    rewrite uintAt_app by (rewrite ?length_be_bytes, ?app_assoc; done). cbn [mbind outcome_bind].
    do 2 f_equal. rewrite be_val_bytes. unfold int64. rewrite swrap_mod by lia. by apply swrap_id.
  - intros body. destruct (firstStoreTimestamp_total body) as [r Hr]. exists r. split; [done|]. intros Hl.
    unfold firstStoreTimestamp in Hr. destruct (len body <? sysFlagOff + 4); [congruence|]. inv_bind. cbv zeta in Hr.
    rewrite (proj2 (Z.ltb_lt _ _)) in Hr; [congruence|]. unfold sysFlagOff. destruct (negb _); lia.
Qed.

(** ** Following a route *)

Section routes.
Context `{GR : GoRange} `{JL : JsonLib}.

Definition network : Type := string → RemotingCommand → outcome RemotingCommand.

(** Against the peers [net] the program has outcome [r], whatever identifiers the
    process counter hands out. *)
Fixpoint answers {A} (net : network) (p : prog rpcE A) (r : outcome A) : Prop :=
  match p with
  | Leaf r' => r' = r
  | Vis e k =>
      match e in rpcE X return (X → prog rpcE A) → Prop with
      | AddOpaque => λ k, ∀ o, answers net (k o) r
      | InvokeSync addr cmd => λ k, answers net (k (net addr cmd)) r
      end k
  end.

(** Peers whose answer does not depend on the request identifier. *)
Definition oblivious (a : AdminClient) (net : network) : Prop :=
  ∀ addr code header o o',
    net addr (signIfACL a (NewRemotingCommand code header [] o).1) =
    net addr (signIfACL a (NewRemotingCommand code header [] o').1).

Lemma answers_bind {A B} net (p : prog rpcE A) (f : A → prog rpcE B) x r :
  answers net p (Ret x) → answers net (f x) r → answers net (p ≫= f) r.
Proof.
  intros Hp Hf. induction p as [r'|X e k IH]; [simpl in Hp; by subst|].
  destruct e; [intros o; apply IH, Hp|apply IH, Hp].
Qed.

Lemma answers_attempt {A} net (p : prog rpcE A) r : answers net p r → answers net (attempt p) (caught r).
Proof.
  intros Hp. induction p as [r'|X e k IH]; [simpl in Hp; subst; by destruct r|].
  destruct e; [intros o; apply IH, Hp|apply IH, Hp].
Qed.

Lemma answers_foldProg {A B} net (f : B → A → prog rpcE B) (g : B → A → B) :
  (∀ b x, answers net (f b x) (Ret (g b x))) →
  ∀ l b, answers net (foldProg f b l) (Ret (foldl g b l)).
Proof.
  intros Hf l. induction l as [|x l IH]; intros b; [done|].
  eapply answers_bind; [apply Hf|apply IH].
Qed.

Lemma answers_inj {A} net (p : prog rpcE A) r r' : answers net p r → answers net p r' → r = r'.
Proof.
  induction p as [r0|X e k IH]; [simpl; congruence|].
  destruct e; [intros H1 H2; apply (IH 0 (H1 0) (H2 0))|apply IH].
Qed.

Variables (a : AdminClient) (net : network).

(** What a call to an address answers. *)
Definition reply {A} `{JsonBody A} (addr : string) (code : Z) (header : option (gmap string string)) : outcome A :=
  resp ← net addr (signIfACL a (NewRemotingCommand code header [] 0).1); decodeResponse code resp.

Lemma answers_invoke {A} `{JsonBody A} addr code header :
  oblivious a net → answers net (invokeSyncBroker (A := A) a addr code header) (reply addr code header).
Proof.
  intros Ho o. unfold reply. rewrite <- (Ho addr code header o 0). simpl. by destruct (net _ _).
Qed.

Lemma answers_namesrv {A} `{JsonBody A} code header :
  oblivious a net →
  answers net (invokeSyncNamesrv (A := A) a code header) (reply (ad_namesrv a) code header).
Proof. intros Ho. by apply answers_invoke. Qed.

Lemma reply_no_panic {A} `{JsonBody A} addr code header :
  (∀ addr cmd, no_panic (net addr cmd)) → (∀ b, no_panic (jsonUnmarshal (A := A) b)) →
  no_panic (reply (A := A) addr code header).
Proof.
  intros Hn Hj msg E. apply bind_panic in E as [E|(resp & _ & E)]; [by eapply Hn|]. revert E.
  unfold decodeResponse. destruct (negb _); [done|]. destruct (decide _); [|done]. apply wrapErr_no_panic.
  intros msg' E. unfold UnmarshalJSON in E. destruct (normalizeKeys (Body resp)) eqn:En; [by eapply Hj|].
  destruct (normLoop_total (length (Body resp)) normInit (Body resp)) as [? Ht]; [done|].
  unfold normalizeKeys in En. congruence.
Qed.

(** The answer of a broker of the route; a broker without an address, or whose
    call fails, contributes nothing. *)
Definition brokerReply {A} `{JsonBody A} (code : Z) (header : gmap string string) (bd : BrokerData) : option A :=
  if String.eqb (selectBrokerAddr bd) "" then None
  else match reply (selectBrokerAddr bd) code (Some header) with Ret x => Some x | _ => None end.

Lemma answers_broker {A B} `{JsonBody A} (g : B → A → B) code header b bd :
  oblivious a net → (∀ addr, no_panic (reply (A := A) addr code (Some header))) →
  answers net
    (let addr := selectBrokerAddr bd in
     if String.eqb addr "" then mret b
     else r ← attempt (invokeSyncBroker (A := A) a addr code (Some header));
          match r with inl _ => mret b | inr x => mret (g b x) end)
    (Ret (default b (g b <$> brokerReply code header bd))).
Proof.
  intros Ho Hp. cbv zeta. unfold brokerReply. destruct (String.eqb _ _); [done|].
  pose proof (answers_attempt net _ _ (answers_invoke (A := A) (selectBrokerAddr bd) code (Some header) Ho)) as Ha.
  specialize (Hp (selectBrokerAddr bd)). destruct (reply _ _ _) as [x|e|msg]; [..|by destruct (Hp msg)];
    by eapply answers_bind.
Qed.

Lemma foldl_replies {A B} (g : B → A → B) (f : BrokerData → option A) bds b :
  foldl (λ b bd, default b (g b <$> f bd)) b bds = foldl g b (omap f bds).
Proof. revert b. induction bds as [|bd bds IH]; intros b; [done|]. simpl. rewrite IH. by destruct (f bd). Qed.

Lemma answers_brokers {A B} `{JsonBody A} (g : B → A → B) code header bds b :
  oblivious a net → (∀ addr, no_panic (reply (A := A) addr code (Some header))) →
  answers net
    (foldProg (λ b bd, let addr := selectBrokerAddr bd in
       if String.eqb addr "" then mret b
       else r ← attempt (invokeSyncBroker (A := A) a addr code (Some header));
            match r with inl _ => mret b | inr x => mret (g b x) end) b bds)
    (Ret (foldl g b (omap (brokerReply code header) bds))).
Proof.
  intros Ho Hp. rewrite <- foldl_replies. apply answers_foldProg. intros b' bd. by apply answers_broker.
Qed.

Lemma copyMap_union dst src : copyMap dst src = src ∪ dst.
Proof. unfold copyMap. by rewrite foldl_insert_app, list_to_map_range by apply NoDup_fst_range. Qed.

Lemma foldl_tables l m :
  foldl (λ m t, mkTopicStatsTable (copyMap (ts_OffsetTable m) (ts_OffsetTable t))) m l =
  mkTopicStatsTable (foldl (λ m t, ts_OffsetTable t ∪ m) (ts_OffsetTable m) l).
Proof.
  revert m. induction l as [|t l IH]; intros m; [by destruct m|].
  cbn [foldl]. rewrite IH. cbn [ts_OffsetTable]. by rewrite copyMap_union.
Qed.

(** A topic's statistics are the union of the tables of the brokers on its
    route, a later broker's entry winning over an earlier one's; a broker that
    has no address or whose call fails is skipped and does not fail the
    operation; the operation fails only with the route lookup. *)
Theorem ExamineTopicStats_merge topic route :
  oblivious a net → (∀ addr, no_panic (reply (A := TopicStatsTable) addr RequestGetTopicStatsInfo (Some (topicHeader topic)))) →
  reply (ad_namesrv a) RequestGetRouteInfoByTopic (Some (topicHeader topic)) = Ret route →
  answers net (ExamineTopicStats a topic)
    (Ret (mkTopicStatsTable (foldl (λ m t, ts_OffsetTable t ∪ m) ∅
       (omap (brokerReply RequestGetTopicStatsInfo (topicHeader topic)) (tr_BrokerDatas route))))).
Proof.
  intros Ho Hp Hr. eapply answers_bind; [rewrite <- Hr; by apply answers_namesrv|].
  pose proof (answers_brokers (λ m t, mkTopicStatsTable (copyMap (ts_OffsetTable m) (ts_OffsetTable t)))
    RequestGetTopicStatsInfo (topicHeader topic) (tr_BrokerDatas route) (mkTopicStatsTable ∅) Ho Hp) as Ha.
  rewrite foldl_tables in Ha. exact Ha.
Qed.

(** Merging connections one broker after the other. *)
Definition mergeConn (m cc : ConsumerConnection) : ConsumerConnection :=
  mkConsumerConnection (cc_ConnectionSet m ++ cc_ConnectionSet cc)
    (if String.eqb (cc_MessageModel m) "" then cc_MessageModel cc else cc_MessageModel m).

Lemma foldl_mergeConn l m :
  foldl mergeConn m l = mkConsumerConnection (cc_ConnectionSet m ++ (l ≫= cc_ConnectionSet))
    (default "" (head (filter (λ x, x ≠ "") (cc_MessageModel m :: (cc_MessageModel <$> l))))).
Proof.
  revert m. induction l as [|cc l IH]; intros [cs mm]; cbn [foldl].
  - simpl. rewrite app_nil_r. f_equal. destruct (String.eqb_spec mm "") as [->|E]; [done|by rewrite filter_cons_True].
  - rewrite IH. unfold mergeConn. cbn [cc_ConnectionSet cc_MessageModel]. rewrite bind_cons, app_assoc. f_equal.
    rewrite fmap_cons. destruct (String.eqb_spec mm "") as [->|E].
    + by rewrite (filter_cons_False _ "") by (intros E; by apply E).
    + by rewrite !(filter_cons_True _ mm) by done.
Qed.

(** The connections of a group are those of all answering brokers of the
    retry topic's route, one per client, with the first non-empty message model;
    the operation reports CONSUMER_NOT_ONLINE exactly when there is none. *)
Theorem ExamineConsumerConnectionInfo_merge group route :
  oblivious a net →
  (∀ addr, no_panic (reply (A := ConsumerConnection) addr RequestGetConsumerConnectionList (Some (groupHeader group)))) →
  reply (ad_namesrv a) RequestGetRouteInfoByTopic (Some (topicHeader (retryTopic group))) = Ret route →
  let found := omap (brokerReply RequestGetConsumerConnectionList (groupHeader group)) (tr_BrokerDatas route) in
  let conns := dedupConnectionsByClientId (found ≫= cc_ConnectionSet) in
  let model := default "" (head (filter (λ x, x ≠ "") (cc_MessageModel <$> found))) in
  answers net (ExamineConsumerConnectionInfo a group)
    (Ret (Some (mkConsumerConnection conns model),
       if decide (conns = []) then Some (ERpc ResponseConsumerNotOnline "Not found the consumer group connection")
       else None)).
Proof.
  intros Ho Hp Hr found conns model.
  apply (answers_bind net _ _ (inr route));
    [apply (answers_attempt net _ (Ret route)); rewrite <- Hr; by apply answers_namesrv|].
  pose proof (answers_brokers mergeConn RequestGetConsumerConnectionList (groupHeader group) (tr_BrokerDatas route)
    (mkConsumerConnection [] "") Ho Hp) as Ha.
  eapply answers_bind; [exact Ha|]. rewrite foldl_mergeConn.
  cbn [cc_ConnectionSet cc_MessageModel app]. rewrite filter_cons_False by (intros Hn; by apply Hn).
  fold found. fold conns. fold model. cbv zeta. cbn [cc_ConnectionSet cc_MessageModel].
  destruct conns; [by rewrite decide_True|by rewrite decide_False].
Qed.
End routes.

(** ** Witnesses *)

Lemma firstStoreTimestamp_spec_witness :
  firstStoreTimestamp (messageRecord (replicate 36 x00) 16 7 (replicate 20 x00) 1700000000000 [x01])
  = Ret (Some 1700000000000).
Proof.
  apply (firstStoreTimestamp_spec (replicate 36 x00) (replicate 20 x00) [x01] 16 7 1700000000000).
  - reflexivity.
  - lia.
  - reflexivity.
  - unfold in_int. lia.
Defined.

(** Two brokers, the first of which is down, and one without an address. *)
Definition demoRoute : TopicRouteData :=
  mkTopicRouteData [] [mkBrokerData "c" "a" {[0 := "10.0.0.1"]}; mkBrokerData "c" "b" {[1 := "10.0.0.2"]};
    mkBrokerData "c" "d" ∅; mkBrokerData "c" "e" {[0 := "10.0.0.3"]}].

Definition demoConn (id : string) : Connection := mkConnection ("addr-" +:+ id) id "GO" 0.

(** The body of a response is its own decoding. *)
Definition demoClusters : ClusterInfo :=
  mkClusterInfo (Some {["c" := ["10.0.0.2"; "10.0.0.3"]]})
    (Some (<["10.0.0.2" := mkBrokerData "c" "10.0.0.2" (<[1 := "10.0.0.9"]> {[0 := "10.0.0.2"]})]>
           {["10.0.0.3" := mkBrokerData "c" "10.0.0.3" {[0 := "10.0.0.3"]}]})).

Definition demoJson : JsonLib := {|
  json_ClusterInfo := λ _, Ret demoClusters;
  json_TopicList := λ _, Ret (mkTopicList ["T1"; "%DLQ%g"] ∅);
  json_TopicRouteData := λ _, Ret demoRoute;
  json_TopicStatsTable := λ b, Ret (mkTopicStatsTable (<[str_of b := b]> {["shared" := b]}));
  json_ConsumeStats := λ b, Ret (mkConsumeStats {[str_of b := b]} fzero);
  json_GroupList := λ _, Ret (mkGroupList ["g"; "h"]);
  json_ConsumerConnection := λ b, Ret (mkConsumerConnection [demoConn "x"; demoConn (str_of b)] "CLUSTERING");
  json_BrokerStatsData := λ _, Ret (mkBrokerStatsData (Some (mkStatsItem fzero fzero fzero)) None None);
  json_ProducerTableInfo := λ _, Ret (mkProducerTableInfo {["p" := Some [tt; tt]]});
  json_ConsumerRunningInfo := λ _, Fail (EExternal "timeout");
  json_kvTable := λ _, Ret (mkKvTable (Some Model.fixture));
  json_MessageQueue := λ b, Ret (mkMessageQueue "T" (str_of b) 0);
  json_TopicOffset := λ b, Ret (mkTopicOffset 0 (len b) 5);
  json_OffsetWrapper := λ b, Ret (mkOffsetWrapper (len b) 1 0)
|}.

Definition demoNet : network := λ addr _,
  if String.eqb addr "10.0.0.1" then Fail (EExternal "connection refused")
  else Ret (mkCommand 0 0 0 0 1 "" None (bytes_of addr)).

Lemma demoNet_no_panic addr cmd : no_panic (demoNet addr cmd).
Proof. intros msg. unfold demoNet. by destruct (String.eqb _ _). Qed.

Definition demoAdmin : AdminClient := NewAdminClient " ; namesrv:9876" true "ak" "sk" 5000.

Lemma ExamineTopicStats_merge_witness :
  answers demoNet (@ExamineTopicStats std_goRange demoJson demoAdmin "T")
    (Ret (mkTopicStatsTable
      (<["10.0.0.3" := bytes_of "10.0.0.3"]> (<["10.0.0.2" := bytes_of "10.0.0.2"]> {["shared" := bytes_of "10.0.0.3"]})))).
Proof.
  refine (@ExamineTopicStats_merge std_goRange demoJson demoAdmin demoNet "T" demoRoute _ _ _).
  - intros addr code header o o'. reflexivity.
  - intros addr. apply reply_no_panic; [apply demoNet_no_panic|intros b msg; discriminate].
  - vm_compute. reflexivity.
Defined.

Lemma ExamineConsumerConnectionInfo_merge_witness :
  answers demoNet (@ExamineConsumerConnectionInfo std_goRange demoJson demoAdmin "g")
    (Ret (Some (mkConsumerConnection [demoConn "x"; demoConn "10.0.0.2"; demoConn "10.0.0.3"] "CLUSTERING"), None)).
Proof.
  refine (@ExamineConsumerConnectionInfo_merge std_goRange demoJson demoAdmin demoNet "g" demoRoute _ _ _).
  - intros addr code header o o'. reflexivity.
  - intros addr. apply reply_no_panic; [apply demoNet_no_panic|intros b msg; discriminate].
  - vm_compute. reflexivity.
Defined.
