(* ===== verification/Adapter.v ===== *)
(** * The client of the probes: internal/health/adapter.go

    The producer and the push consumers come from the RocketMQ client library,
    which is not under src/: the options they are built with are data, the
    library's constructors are parameters. *)

From Stdlib Require Import ZArith Lia Ascii String.
From S2P Require Import Prelude GoStrings GoFloat GoFlag Effects Config Service Store Health Prober.

Local Open Scope string_scope.
Local Open Scope Z_scope.

(** ** Options *)

Inductive clientOption : Type :=
| WithNameServer (addrs : list string)
| WithGroupName (group : string)
| WithInstanceName (name : string)
| WithRetry (n : Z)
| WithCredentials (accessKey secretKey : string).

Section adapter.
(** A producer and a consumer of the library, and how they are made. *)
Context {P C : Type}.
Variables (NewDefaultProducer : list clientOption → outcome P) (NewPushConsumer : list clientOption → outcome C).

Record Adapter : Type := mkAdapter {
  ap_namesrv : list string;
  ap_enableACL : bool;
  ap_accessKey : string;
  ap_secretKey : string;
  ap_prod : P
}.

Definition producerOptions (cfg : Config) : list clientOption :=
  let popts := [WithNameServer (splitNamesrv (cfg_Namesrv cfg));
                WithGroupName "rmq-exporter-health-producer";
                WithInstanceName "rmq-exporter-health-producer";
                WithRetry 2] in
  if cfg_EnableACL cfg then popts ++ [WithCredentials (cfg_AccessKey cfg) (cfg_SecretKey cfg)] else popts.

Definition NewAdapter (cfg : Config) : outcome Adapter :=
  p ← wrapErr "health producer: %w" [] (NewDefaultProducer (producerOptions cfg));
  Ret (mkAdapter (splitNamesrv (cfg_Namesrv cfg)) (cfg_EnableACL cfg) (cfg_AccessKey cfg) (cfg_SecretKey cfg) p).

Definition Producer (a : Adapter) : P := ap_prod a.

Definition consumerOptions (a : Adapter) (group : string) : list clientOption :=
  let copts := [WithNameServer (ap_namesrv a); WithGroupName group;
                WithInstanceName "rmq-exporter-health-consumer"] in
  if ap_enableACL a then copts ++ [WithCredentials (ap_accessKey a) (ap_secretKey a)] else copts.

Definition ConsumerFactory (a : Adapter) (group : string) : outcome C := NewPushConsumer (consumerOptions a group).
End adapter.

(** [adminLister.ListClusters]: the names in the topology the admin client
    reads. *)
Definition adminListClusters `{GR : GoRange} `{JL : JsonLib} (a : AdminClient) : prog rpcE (list string) :=
  ci ← ExamineBrokerClusterInfo a; mret (range (default ∅ (ci_ClusterAddrTable ci))).*1.

(** ** The pace of produceLoop *)

(** [time.Duration(float64(time.Second) / rate)], one second when that is not
    positive; [outOfRange] is the conversion of a float that does not fit. *)
Definition produceInterval (outOfRange : float64 → Z) (rate : float64) : Z :=
  let interval := toInt64 outOfRange (fdiv (floatOfZ Second) rate) in
  if decide (interval ≤ 0) then Second else interval.

(** The ticker of [produceLoop] is never given a duration it panics on. *)
Lemma produceInterval_positive outOfRange rate : 0 < produceInterval outOfRange rate.
Proof. unfold produceInterval. cbv zeta. case_decide; [done|lia]. Qed.

Example produceInterval_default : produceInterval (λ _, 0) (hc_Rate (cfg_HealthCheck Default)) = 500 * Millisecond.
Proof. vm_compute. reflexivity. Qed.
Example produceInterval_negative : produceInterval (λ _, 0) (floatOfZ (-1)) = Second.
Proof. vm_compute. reflexivity. Qed.

(** ** One cluster, two clients *)

Lemma splitNamesrv_loop ps out :
  foldl (λ out p, let t := TrimSpace p in if decide (t = "") then out else (out ++ [t])%list) out ps
  = (out ++ foldl (λ out p, let t := TrimSpace p in if decide (t = "") then out else (out ++ [t])%list) [] ps)%list.
Proof.
  revert out. induction ps as [|p ps IH]; intros out; cbn [foldl]; [by rewrite app_nil_r|].
  cbv zeta. case_decide; [apply IH|]. rewrite IH, (IH ([] ++ _)%list). by rewrite <- !app_assoc.
Qed.

(** The admin client dials the first address of the probes' list. *)
Lemma firstNamesrv_head s : firstNamesrv s = default "" (head (splitNamesrv s)).
Proof.
  unfold firstNamesrv, splitNamesrv. induction (Split "," (ReplaceAll s ";" ",")) as [|p ps IH]; [done|].
  cbn [firstNonEmpty foldl]. cbv zeta. destruct (String.eqb_spec (TrimSpace p) "") as [E|E].
  - rewrite decide_True by done. apply IH.
  - rewrite decide_False by done. by rewrite splitNamesrv_loop.
Qed.

Lemma credentials_in ak sk l b x y :
  (∀ ak sk, WithCredentials ak sk ∉ l) →
  WithCredentials ak sk ∈ (if b : bool then (l ++ [WithCredentials x y])%list else l)
  ↔ b = true ∧ ak = x ∧ sk = y.
Proof.
  intros Hl. destruct b.
  - rewrite elem_of_app, list_elem_of_singleton. split.
    + intros [?|[= -> ->]]; [by destruct (Hl ak sk)|done].
    + intros (_ & -> & ->). by right.
  - split; [intros ?; by destruct (Hl ak sk)|by intros []].
Qed.

(** The probes' client and the admin client are set up alike from one
    configuration: the admin client's name server is the first of the list the
    producer and the consumers get; the producer and every consumer carry
    credentials exactly when the admin client signs its requests, and they are
    the keys it signs with. *)
Theorem adapter_matches_admin {P} (NewDefaultProducer : list clientOption → outcome P) cfg ad timeout :
  NewAdapter NewDefaultProducer cfg = Ret ad →
  let admin := NewAdminClient (cfg_Namesrv cfg) (cfg_EnableACL cfg) (cfg_AccessKey cfg) (cfg_SecretKey cfg) timeout in
  let keys := λ ak sk, ad_enableACL admin = true ∧ ak = ad_accessKey admin ∧ sk = ad_secretKey admin in
  NewDefaultProducer (producerOptions cfg) = Ret (ap_prod ad) ∧
  WithNameServer (ap_namesrv ad) ∈ producerOptions cfg ∧
  default "" (head (ap_namesrv ad)) = ad_namesrv admin ∧
  (∀ ak sk, WithCredentials ak sk ∈ producerOptions cfg ↔ keys ak sk) ∧
  (∀ group, WithNameServer (ap_namesrv ad) ∈ consumerOptions ad group
     ∧ WithGroupName group ∈ consumerOptions ad group
     ∧ ∀ ak sk, WithCredentials ak sk ∈ consumerOptions ad group ↔ keys ak sk).
Proof.
  intros H admin keys. unfold NewAdapter in H. inv_bind. unfold producerOptions, consumerOptions. cbn [ap_namesrv ap_enableACL ap_accessKey ap_secretKey ap_prod].
  split; [done|]. split; [destruct (cfg_EnableACL cfg); set_solver|].
  split; [symmetry; apply firstNamesrv_head|]. split.
  - intros ak sk. apply credentials_in. intros ? ?. set_solver.
  - intros group. split; [destruct (cfg_EnableACL cfg); set_solver|].
    split; [destruct (cfg_EnableACL cfg); set_solver|]. intros ak sk. apply credentials_in. intros ? ?. set_solver.
Qed.

Definition aclConfig : Config := set SSecretKey "sk" (set SAccessKey "ak" (set SEnableACL true Default)).

Lemma adapter_matches_admin_witness :
  ∃ ad, NewAdapter (λ _, Ret tt) aclConfig = Ret ad ∧ WithCredentials "ak" "sk" ∈ consumerOptions ad "g".
Proof.
  eexists. split; [vm_compute; reflexivity|].
  destruct (adapter_matches_admin (λ _, Ret tt) aclConfig _ 10 ltac:(vm_compute; reflexivity)) as (_ & _ & _ & _ & H).
  apply (proj2 (proj2 (H "g"))). repeat split.
Defined.
