(* ===== verification/Main.v ===== *)
(** * The command: cmd/rmq-exporter/main.go and logging.go

    Start-up is [loadConfig], a function of the arguments, the environment and
    the file, followed by [serve], a program whose effects are the calls that
    start and stop the components, in the order of [run]; [defer] is [finally].
    Errors of third-party calls are answers of effects, so that a theorem about
    [serve] holds whatever fails.  The metrics page is a function of the
    collector. *)

From Stdlib Require Import ZArith Lia Ascii String.
From S2P Require Import Prelude GoStrings GoFloat GoFlag Effects Service Store Health Prober Collector Adapter Config.

Local Open Scope string_scope.
Local Open Scope Z_scope.

(** ** Logging *)

(** The levels of [log/slog] and of logrus, as their numbers. *)
Inductive slogLevel : Type := LevelDebug | LevelInfo | LevelWarn | LevelError.
Definition slogNumber (l : slogLevel) : Z :=
  match l with LevelDebug => -4 | LevelInfo => 0 | LevelWarn => 4 | LevelError => 8 end.

Inductive logrusLevel : Type := FatalLevel | ErrorLevel | WarnLevel | InfoLevel | DebugLevel.
Definition logrusNumber (l : logrusLevel) : Z :=
  match l with FatalLevel => 1 | ErrorLevel => 2 | WarnLevel => 3 | InfoLevel => 4 | DebugLevel => 5 end.

Definition parseSlogLevel (s : string) : slogLevel :=
  let l := lowerRunes s in
  if String.eqb l "debug" then LevelDebug
  else if String.eqb l "warn" then LevelWarn
  else if String.eqb l "error" then LevelError
  else LevelInfo.

(** The level [newLogrusLogger] sets. *)
Definition newLogrusLevel (level : slogLevel) : logrusLevel :=
  match level with
  | LevelDebug => DebugLevel
  | LevelWarn => WarnLevel
  | LevelError => ErrorLevel
  | LevelInfo => InfoLevel
  end.

(** Where the log goes: standard error or a rotated file. *)
Inductive logWriter : Type :=
| Stderr
| Lumberjack (filename : string) (maxSize maxBackups maxAge : Z) (compress localTime : bool).

Record logging : Type := mkLogging {
  slogOut : logWriter;
  slogMin : slogLevel;
  rlogOut : logWriter;
  rlogLevel : logrusLevel
}.

Definition setupLogging (cfg : Config) : logging :=
  let level := parseSlogLevel (cfg_LogLevel cfg) in
  let w := if String.eqb (cfg_LogFile cfg) "" then Stderr
           else Lumberjack (cfg_LogFile cfg) (cfg_LogMaxSizeMB cfg) (cfg_LogMaxBackups cfg)
                  (cfg_LogMaxAgeDays cfg) (cfg_LogCompress cfg) true in
  mkLogging w level w (newLogrusLevel level).

(** [Debug], [Info], [Warning], [Error] and [Fatal] of [sharedRlogLogger]: an
    empty record is dropped, any other goes to logrus with its level. *)
Definition rlogEntry {F} (level : logrusLevel) (msg : string) (fields : gmap string F)
    : option (logrusLevel * string * gmap string F) :=
  if String.eqb msg "" && bool_decide (size fields = 0%nat) then None else Some (level, msg, fields).

(** [sharedRlogLogger.Level]: the level the library asks for. *)
Definition rlogSetLevel (level : string) : logrusLevel :=
  let l := lowerRunes level in
  if String.eqb l "debug" then DebugLevel
  else if String.eqb l "warn" then WarnLevel
  else if String.eqb l "error" then ErrorLevel
  else if String.eqb l "fatal" then FatalLevel
  else InfoLevel.

(** ** The components run starts *)

(** The collection tasks, by the method of [CollectTask] a job calls. *)
Inductive job : Type :=
| JCollectTopicOffset
| JCollectProducer
| JCollectConsumerOffset
| JCollectBrokerStatsTopic
| JCollectBrokerStats
| JCollectBrokerRuntimeStats
| JCollectBrokerGroupStats.

Inductive handler : Type := HMetrics | HHealthz.

(** The calls of [run] that have an effect.  The answers of [AddFunc],
    [NewProducer] and [ProberStart] are their errors. *)
Inductive mainE : Type → Type :=
| SetMemoryLimit (limit : Z) : mainE unit
| SetLogger (l : logging) : mainE unit
| NotifyContext : mainE unit
| StopNotify : mainE unit
| AdminStart (a : AdminClient) : mainE unit
| AdminShutdown : mainE unit
| PoolStart (workers queue : Z) : mainE unit
| PoolShutdown : mainE unit
| AddFunc (spec : string) (j : job) : mainE (option error)
| SchedStart : mainE unit
| SchedStop : mainE unit
| Handle (pattern : string) (h : handler) : mainE unit
| NewProducer (opts : list clientOption) : mainE (option error)
| ProberStart (hc : HealthCheckConfig) : mainE (option error)
| ProberShutdown : mainE unit
| Serve (addr : string) : mainE unit
| ServerShutdown : mainE unit
| WaitDone : mainE unit.

(** [if err := call(); err != nil { return fmt.Errorf(fmt, err) }]. *)
Definition orReturn (e : mainE (option error)) (wrap : error → error) : prog mainE unit :=
  r ← trigger e;
  match r with Some err => Leaf (Fail (wrap err)) | None => mret tt end.

(** The rows of [registerJobs], in order; the group statistics share the cron
    of the broker statistics. *)
Definition jobTable (c : CronConfig) : list (string * job) :=
  [(cron_CollectTopicOffset c, JCollectTopicOffset);
   (cron_CollectProducer c, JCollectProducer);
   (cron_CollectConsumerOffset c, JCollectConsumerOffset);
   (cron_CollectBrokerStatsTopic c, JCollectBrokerStatsTopic);
   (cron_CollectBrokerStats c, JCollectBrokerStats);
   (cron_CollectBrokerRuntimeStats c, JCollectBrokerRuntimeStats)].

Definition registerJobs (c : CronConfig) : prog mainE unit :=
  forEach (λ '(spec, j), orReturn (AddFunc (TranslateCron spec) j) id) (jobTable c);;
  orReturn (AddFunc (TranslateCron (cron_CollectBrokerStats c)) JCollectBrokerGroupStats) id.

(** [http.ServeMux.Handle].  A plain pattern is a path without method, host,
    wildcard or escape: it panics when the path is registered already.  What any other
    pattern does is the parameter [muxOther]. *)
Definition plainPattern (p : string) : bool :=
  HasPrefix p "/" && forallb (λ c, match cut c p with None => true | Some _ => false end)
                       [" "%char; "009"%char; "{"%char; "%"%char].

Section command.
Variable (muxOther : list string → string → outcome unit).

Definition muxHandle (patterns : list string) (pattern : string) : outcome (list string) :=
  if String.eqb pattern "" then Panic "http: invalid pattern"
  else if plainPattern pattern then
    if bool_decide (pattern ∈ patterns) then Panic "http: multiple registrations" else Ret (pattern :: patterns)
  else _ ← muxOther patterns pattern; Ret (pattern :: patterns).

Definition handle (patterns : list string) (pattern : string) (h : handler) : prog mainE (list string) :=
  patterns' ← Leaf (muxHandle patterns pattern);
  trigger (Handle pattern h);;
  mret patterns'.

(** The end of [run]: the server until a signal. *)
Definition serveHTTP (cfg : Config) : prog mainE unit :=
  trigger (Serve (cfg_Listen cfg));;
  finally (trigger ServerShutdown) (trigger WaitDone).

Definition adminOf (cfg : Config) : AdminClient :=
  NewAdminClient (cfg_Namesrv cfg) (cfg_EnableACL cfg) (cfg_AccessKey cfg) (cfg_SecretKey cfg) (10 * Second).

(** The health prober, when enabled, then the server. *)
Definition serveHealth (cfg : Config) (patterns : list string) : prog mainE unit :=
  let hc := cfg_HealthCheck cfg in
  if hc_Enabled hc then
    orReturn (NewProducer (producerOptions cfg))
      (λ e, EWrap "health adapter: %w" [] (EWrap "health producer: %w" [] e));;
    orReturn (ProberStart hc) (EWrap "health prober start: %w" []);;
    finally (trigger ProberShutdown)
      (handle patterns (hc_Path hc) HHealthz;; serveHTTP cfg)
  else serveHTTP cfg.

(** [run] after the configuration is loaded and checked.  The error branch of
    [admin.Start] is left out: [Start] returns nil whatever happens. *)
Definition serve (cfg : Config) : prog mainE unit :=
  trigger NotifyContext;;
  finally (trigger StopNotify) (
    trigger (AdminStart (adminOf cfg));;
    finally (trigger AdminShutdown) (
      trigger (PoolStart (pool_Max (cfg_Pool cfg)) (pool_Queue (cfg_Pool cfg)));;
      finally (trigger PoolShutdown) (
        registerJobs (cfg_Cron cfg);;
        trigger SchedStart;;
        finally (trigger SchedStop) (
          patterns ← handle [] (cfg_TelemetryPath cfg) HMetrics;
          serveHealth cfg patterns)))).

(** ** Loading the configuration *)

(** [os.ReadFile], [yaml.Unmarshal], the cron parser of [ValidateCron], and the
    conversion of a float64 that does not fit an int64. *)
Variables (ReadFile : string → outcome string) (Unmarshal : string → outcome yamlConfig).
Variables (cronParse : string → option error) (outOfRange : float64 → Z).

(** How the first part of [run] ends: with a configuration and the memory limit
    to set, with an error, with an exit of the flag package, or with a panic. *)
Inductive loaded : Type :=
| Loaded (cfg : Config) (limit : Z)
| LoadError (e : error)
| LoadExit (status : Z)
| LoadPanic (msg : string).

(** [config.OverlayFile(&base, configPath)] when there is a path. *)
Definition loadBase (configPath : string) : outcome Config :=
  if String.eqb configPath "" then Ret Default
  else
    r ← OverlayFile ReadFile Unmarshal Default configPath;
    match r with
    | (base, None) => Ret base
    | (_, Some e) => Fail (EWrap "config file %s: %w" [configPath] e)
    end.

(** The checks after [flag.Parse]. *)
Definition checkConfig (cfg : Config) : loaded :=
  match ValidateAll cronParse cfg with
  | Some e => LoadError e
  | None =>
      match ParseMemLimit outOfRange (cfg_GoMemLimit cfg) with
      | Ret limit => Loaded cfg limit
      | Fail e => LoadError (EWrap "go-mem-limit: %w" [] e)
      | Panic m => LoadPanic m
      end
  end.

Definition loadConfig (osArgs : list string) (env : environ) : loaded :=
  let configPathVar := default "" (env !! "RMQ_CONFIG") in
  match Var "config" TConfigPath ∅ with
  | Ret fs =>
      match loadBase (FindConfigPath osArgs env) with
      | Ret base =>
          match RegisterFlags env fs "RMQ_" (Some base) with
          | Ret (fs', cfg) =>
              match Parse targetKind assignTarget fs' (tail osArgs) (configPathVar, cfg) with
              | Ret (_, (_, cfg')) => checkConfig cfg'
              | Fail e => LoadExit (if isHelp e then 0 else 2)
              | Panic m => LoadPanic m
              end
          | Fail e => LoadError e
          | Panic m => LoadPanic m
          end
      | Fail e => LoadError e
      | Panic m => LoadPanic m
      end
  | Fail e => LoadError e
  | Panic m => LoadPanic m
  end.

(** [main]: the exit status of the process. *)
Definition main (osArgs : list string) (env : environ) : prog mainE Z :=
  match loadConfig osArgs env with
  | Loaded cfg limit =>
      (if decide (0 < limit) then trigger (SetMemoryLimit limit) else mret tt);;
      trigger (SetLogger (setupLogging cfg));;
      r ← attempt (serve cfg);
      mret (match r with inl _ => 1 | inr _ => 0 end)
  | LoadError _ => mret 1
  | LoadExit status => mret status
  | LoadPanic m => Leaf (Panic m)
  end.

(** ** What the configuration is *)

(** The file that says nothing. *)
Definition noFile : yamlConfig := mkYaml None None None None None None None None None None None None None.

Definition configFile (configPath : string) : outcome yamlConfig :=
  if String.eqb configPath "" then Ret noFile else LoadYAML ReadFile Unmarshal configPath.

Lemma noFile_ok s : fileOK noFile s = true ∧ ∀ d, fileOr noFile s d = d.
Proof. by destruct s. Qed.

Lemma loadBase_ret path base :
  loadBase path = Ret base ↔
  ∃ y, configFile path = Ret y ∧ (∀ s, fileOK y s = true) ∧ ∀ s, get base s = fileOr y s (get Default s).
Proof.
  unfold loadBase, configFile, OverlayFile. destruct (String.eqb path "").
  - split.
    + intros [= <-]. exists noFile. split; [done|]. split; intros s; [by apply noFile_ok|symmetry; by apply noFile_ok].
    + intros (y & [= <-] & _ & H). f_equal. apply Config_ext. intros s. rewrite H. symmetry. apply noFile_ok.
  - destruct (LoadYAML ReadFile Unmarshal path) as [y|e|m]; cbn [mbind outcome_bind]; [|by split; [|intros (? & ? & _)]..].
    destruct (Overlay Default y) as [b [e|]] eqn:E.
    + split; [done|]. intros (y' & [= <-] & Hok & _). apply (Overlay_ok Default) in Hok as [Hn _].
      by rewrite E in Hn.
    + assert (∀ s, fileOK y s = true) as Hok by (apply (Overlay_none Default); by rewrite E).
      pose proof (Overlay_ok Default y Hok) as [_ Hb]. rewrite E in Hb. cbn in Hb. split.
      * intros [= <-]. eauto.
      * intros (y' & [= <-] & _ & H). f_equal. apply Config_ext. intros s. by rewrite H, Hb.
Qed.

Lemma checkConfig_loaded cfg cfg' limit :
  checkConfig cfg = Loaded cfg' limit ↔
  cfg' = cfg ∧ ValidateAll cronParse cfg = None ∧ ParseMemLimit outOfRange (cfg_GoMemLimit cfg) = Ret limit.
Proof.
  unfold checkConfig. destruct (ValidateAll cronParse cfg); [by split; [|intros (_ & ? & _)]|].
  destruct (ParseMemLimit outOfRange (cfg_GoMemLimit cfg)); split; try done; try by intros (_ & _ & ?).
  - by intros [= -> ->].
  - by intros (-> & _ & [= ->]).
Qed.

(** C8: the configuration [run] goes on with.  Its first part, up to the memory
    limit, yields a configuration exactly when the configuration file (if one is
    named) loads and its durations parse, the command line is a sequence of defined
    flags whose values parse, every cron expression passes [ValidateAll] and the
    memory limit parses; and then each of the 31 settings has the value of its last
    flag, else of its environment variable if that parses, else of the file, else
    the default.  (What [run] does with it, and how that can still fail, is
    [serve_outcome].) *)
Theorem config_precedence osArgs env cfg limit :
  loadConfig osArgs env = Loaded cfg limit ↔
  ∃ y l tl rest,
    configFile (FindConfigPath osArgs env) = Ret y ∧ (∀ s, fileOK y s = true) ∧
    tail osArgs = (commandLine l ++ tl)%list ∧ stops tl rest ∧ wellTyped l ∧
    (∀ s name e, (s, name, e) ∈ flagTable →
       get cfg s = flagOr (kindOf s) name l (envOr env (kindOf s) ("RMQ_" ++ e) (fileOr y s (get Default s)))) ∧
    ValidateAll cronParse cfg = None ∧
    ParseMemLimit outOfRange (cfg_GoMemLimit cfg) = Ret limit.
Proof.
  unfold loadConfig. change (Var "config" TConfigPath ∅) with (Ret ({[ "config" := TConfigPath ]} : gmap string target)).
  cbv iota beta zeta. split.
  - destruct (loadBase _) as [base|e|m] eqn:Eb; [|done..].
    apply loadBase_ret in Eb as (y & Hy & Hok & Hbase).
    destruct (RegisterFlags_run env base) as (c & -> & Hc). cbv iota beta.
    destruct (Parse _ _ _ _ _) as [[rest [p cfg']]|e|m] eqn:EP; [|done..].
    intros (-> & HV & HM)%checkConfig_loaded.
    apply Parse_iff in EP as (l & tl & Hl & Hargs & Hs); [|apply allFlags_wf].
    exists y, l, tl, rest. do 4 (split; [done|]). split; [by eapply assigns_wellTyped|]. split; [|done].
    intros s name e Hin. pose proof (assigns_get _ _ _ _ _ _ Hl Hin) as Hg. cbn [snd] in Hg.
    by rewrite Hg, (Hc _ _ _ Hin), Hbase.
  - intros (y & l & tl & rest & Hy & Hok & Hargs & Hs & Ht & Hcfg & HV & HM).
    assert (∃ base, loadBase (FindConfigPath osArgs env) = Ret base
              ∧ ∀ s, get base s = fileOr y s (get Default s)) as (base & Eb & Hbase).
    { exists (build (λ s, fileOr y s (get Default s))). split; [|intros; apply get_build].
      apply loadBase_ret. exists y. split; [done|]. split; [done|]. intros; apply get_build. }
    rewrite Eb. destruct (RegisterFlags_run env base) as (c & -> & Hc). cbv iota beta.
    destruct (wellTyped_assigns l (default "" (env !! "RMQ_CONFIG"), c) Ht) as [[p cfg'] Hl].
    assert (Parse targetKind assignTarget allFlags (tail osArgs) (default "" (env !! "RMQ_CONFIG"), c)
              = Ret (rest, (p, cfg'))) as ->.
    { apply Parse_iff; [apply allFlags_wf|]. eauto. }
    assert (cfg = cfg') as ->.
    { apply Config_ext. intros s. destruct (elem_of_flagTable s) as (name & e & Hin).
      rewrite (Hcfg _ _ _ Hin). pose proof (assigns_get _ _ _ _ _ _ Hl Hin) as Hg. cbn [snd] in Hg.
      by rewrite Hg, (Hc _ _ _ Hin), Hbase. }
    by apply checkConfig_loaded.
Qed.
End command.

(** ** Starting and stopping *)

Inductive component : Type := CNotify | CAdmin | CPool | CSched | CProber | CServer.

#[export] Instance component_eq_dec : EqDecision component.
Proof. solve_decision. Defined.

(** The component an event brings up, or takes down. *)
Definition opens (ev : event mainE) : option component :=
  match evCall _ ev in mainE X return X → option component with
  | NotifyContext => λ _, Some CNotify
  | AdminStart _ => λ _, Some CAdmin
  | PoolStart _ _ => λ _, Some CPool
  | SchedStart => λ _, Some CSched
  | ProberStart _ => λ err, match err with None => Some CProber | Some _ => None end
  | Serve _ => λ _, Some CServer
  | _ => λ _, None
  end (evAnswer _ ev).

Definition closes (ev : event mainE) : option component :=
  match evCall _ ev with
  | StopNotify => Some CNotify
  | AdminShutdown => Some CAdmin
  | PoolShutdown => Some CPool
  | SchedStop => Some CSched
  | ProberShutdown => Some CProber
  | ServerShutdown => Some CServer
  | _ => None
  end.

(** The components that are up, the latest first; taking down any but the
    latest fails. *)
Fixpoint upAfter (tr : list (event mainE)) (up : list component) : option (list component) :=
  match tr with
  | [] => Some up
  | ev :: tr' =>
      match opens ev, closes ev, up with
      | Some c, _, _ => upAfter tr' (c :: up)
      | None, Some c, c' :: up' => if decide (c = c') then upAfter tr' up' else None
      | None, Some _, [] => None
      | None, None, _ => upAfter tr' up
      end
  end.

Lemma upAfter_app tr1 tr2 up : upAfter (tr1 ++ tr2) up = upAfter tr1 up ≫= upAfter tr2.
Proof.
  revert up. induction tr1 as [|ev tr1 IH]; intros up; [done|]. simpl.
  destruct (opens ev); [apply IH|]. destruct (closes ev) as [c|]; [|apply IH].
  destruct up as [|c' up]; [done|]. case_decide; [apply IH|done].
Qed.

(** Every execution takes down what it brought up, in reverse order. *)
Definition balanced {A} (p : prog mainE A) : Prop :=
  ∀ tr r up, execs p tr r → upAfter tr up = Some up.

Lemma balanced_leaf {A} (r : outcome A) : balanced (Leaf r).
Proof. by intros tr r' up [-> _]. Qed.

Lemma balanced_bind {A B} (p : prog mainE A) (f : A → prog mainE B) :
  balanced p → (∀ a, balanced (f a)) → balanced (p ≫= f).
Proof.
  intros Hp Hf tr r up [(a & tr1 & tr2 & -> & H1 & H2)|[(e & _ & H)|(m & _ & H)]]%execs_bind;
    [|exact (Hp _ _ up H)..].
  rewrite upAfter_app, (Hp _ _ up H1). simpl. by eapply Hf.
Qed.

(** An effect that is neither a start nor a stop. *)
Lemma balanced_trigger {X} (e : mainE X) :
  (∀ x, opens (mkEvent e x) = None ∧ closes (mkEvent e x) = None) → balanced (trigger e).
Proof. intros He tr r up (x & -> & _)%execs_trigger. simpl. by destruct (He x) as [-> ->]. Qed.

Lemma balanced_orReturn (e : mainE (option error)) wrap :
  (∀ x, opens (mkEvent e x) = None ∧ closes (mkEvent e x) = None) → balanced (orReturn e wrap).
Proof.
  intros He. apply balanced_bind; [by apply balanced_trigger|]. intros [err|]; apply balanced_leaf.
Qed.

Lemma balanced_forEach {A} (f : A → prog mainE unit) l : (∀ x, balanced (f x)) → balanced (forEach f l).
Proof. intros Hf. induction l as [|x l IH]; [apply balanced_leaf|]. simpl. by apply balanced_bind. Qed.

(** [start(); defer stop(); ...]. *)
Lemma balanced_defer {A} (start stop : mainE unit) c (p : prog mainE A) :
  opens (mkEvent start tt) = Some c → opens (mkEvent stop tt) = None → closes (mkEvent stop tt) = Some c →
  balanced p → balanced (trigger start;; finally (trigger stop) p).
Proof.
  intros Ho Hn Hc Hp tr r up H. simpl in H. destruct H as ([] & tr' & -> & H).
  apply execs_finally in H as (tr1 & -> & H). simpl. rewrite Ho, upAfter_app, (Hp _ _ _ H). simpl.
  by rewrite Hn, Hc, decide_True.
Qed.

Section serve.
Variable (muxOther : list string → string → outcome unit).

Lemma balanced_handle patterns pattern h : balanced (handle muxOther patterns pattern h).
Proof.
  unfold handle. apply balanced_bind; [apply balanced_leaf|]. intros patterns'.
  apply balanced_bind; [by apply balanced_trigger|]. intros _. apply balanced_leaf.
Qed.

Lemma balanced_serveHTTP cfg : balanced (serveHTTP cfg).
Proof. by apply (balanced_defer _ _ CServer), balanced_trigger. Qed.

Lemma balanced_serveHealth cfg patterns : balanced (serveHealth muxOther cfg patterns).
Proof.
  unfold serveHealth. cbv zeta. destruct (hc_Enabled _); [|apply balanced_serveHTTP].
  apply balanced_bind; [by apply balanced_orReturn|]. intros _.
  intros tr r up H. simpl in H. destruct H as ([err|] & tr' & -> & H); simpl in H.
  - destruct H as [-> _]. done.
  - apply execs_finally in H as (tr1 & -> & H). simpl. rewrite upAfter_app.
    rewrite (balanced_bind _ (λ _, serveHTTP cfg) (balanced_handle patterns _ HHealthz)
               (λ _, balanced_serveHTTP cfg) _ _ (CProber :: up) H). done.
Qed.

(** C27: whatever fails or panics during start-up, [run] takes down exactly the
    components it brought up, in reverse order: the server before the prober,
    the prober before the scheduler, then the worker pool, the admin client and
    the signal handler; nothing is stopped that was not started. *)
Theorem serve_brackets cfg tr r : execs (serve muxOther cfg) tr r → upAfter tr [] = Some [].
Proof.
  intros H. revert tr r H.
  assert (balanced (serve muxOther cfg)) as Hb; [|intros tr r H; exact (Hb tr r [] H)].
  unfold serve. apply (balanced_defer _ _ CNotify); [done..|].
  apply (balanced_defer _ _ CAdmin); [done..|].
  apply (balanced_defer _ _ CPool); [done..|].
  apply balanced_bind.
  { apply balanced_bind; [|intros _; by apply balanced_orReturn].
    apply balanced_forEach. intros [spec j]. by apply balanced_orReturn. }
  intros _. apply (balanced_defer _ _ CSched); [done..|].
  apply balanced_bind; [apply balanced_handle|]. intros patterns. apply balanced_serveHealth.
Qed.

(** *** The successful run *)

(** Two concatenations of the same pieces. *)
Ltac list_normal := repeat (cbn [app]; rewrite <- app_assoc); cbn [app]; reflexivity.

Lemma execs_bind_ret {A B} (p : prog mainE A) (f : A → prog mainE B) tr b :
  execs (p ≫= f) tr (Ret b) ↔
  ∃ a tr1 tr2, tr = (tr1 ++ tr2)%list ∧ execs p tr1 (Ret a) ∧ execs (f a) tr2 (Ret b).
Proof.
  rewrite execs_bind. split; [|by left]. by intros [?|[(? & [=] & _)|(? & [=] & _)]].
Qed.

Lemma execs_defer {A} (start stop : mainE unit) (p : prog mainE A) tr r :
  execs (trigger start;; finally (trigger stop) p) tr r ↔
  ∃ tr1, tr = (mkEvent start tt :: tr1 ++ [mkEvent stop tt])%list ∧ execs p tr1 r.
Proof.
  simpl. split.
  - intros ([] & tr' & -> & (tr1 & -> & H)%execs_finally). eauto.
  - intros (tr1 & -> & H). exists tt, (tr1 ++ [mkEvent stop tt])%list. split; [done|].
    apply execs_finally. eauto.
Qed.

Lemma execs_orReturn e wrap tr : execs (orReturn e wrap) tr (Ret tt) ↔ tr = [mkEvent e None].
Proof.
  simpl. split.
  - intros ([err|] & tr' & -> & -> & [=]). done.
  - intros ->. by exists None, [].
Qed.

Lemma execs_jobs l tr :
  execs (forEach (λ '(spec, j), orReturn (AddFunc (TranslateCron spec) j) id) l) tr (Ret tt) ↔
  tr = ((λ '(spec, j), mkEvent (AddFunc (TranslateCron spec) j) None) <$> l).
Proof.
  revert tr. induction l as [|[spec j] l IH]; intros tr; [by split; [intros []|]|].
  cbn [forEach]. rewrite execs_bind_ret. split.
  - intros ([] & tr1 & tr2 & -> & ->%execs_orReturn & ->%IH). done.
  - intros ->. rewrite fmap_cons. eexists tt, [_], _.
    split; [done|]. split; [by apply execs_orReturn|by apply IH].
Qed.

Lemma muxHandle_ret ps p ps' : muxHandle muxOther ps p = Ret ps' → ps' = p :: ps.
Proof.
  unfold muxHandle. destruct (String.eqb p ""); [done|]. destruct (plainPattern p).
  - case_bool_decide; [done|]. by intros [= <-].
  - intros H. by inv_bind.
Qed.

Lemma execs_handle ps p h tr ps' :
  execs (handle muxOther ps p h) tr (Ret ps') ↔
  muxHandle muxOther ps p = Ret ps' ∧ tr = [mkEvent (Handle p h) tt].
Proof.
  unfold handle. destruct (muxHandle muxOther ps p) as [ps1|e|m]; simpl.
  - split.
    + intros ([] & tr' & -> & -> & [= ->]). done.
    + intros [[= ->] ->]. by exists tt, [].
  - split; [by intros [_ [=]]|by intros [[=] _]].
  - split; [by intros [_ [=]]|by intros [[=] _]].
Qed.

Definition jobEvents (c : CronConfig) : list (event mainE) :=
  ((λ '(spec, j), mkEvent (AddFunc (TranslateCron spec) j) None) <$> jobTable c) ++
  [mkEvent (AddFunc (TranslateCron (cron_CollectBrokerStats c)) JCollectBrokerGroupStats) None].

Definition healthEvents (cfg : Config) : list (event mainE) :=
  if hc_Enabled (cfg_HealthCheck cfg) then
    [mkEvent (NewProducer (producerOptions cfg)) None; mkEvent (ProberStart (cfg_HealthCheck cfg)) None;
     mkEvent (Handle (hc_Path (cfg_HealthCheck cfg)) HHealthz) tt]
  else [].

(** What a run that ends with a signal does. *)
Definition successTrace (cfg : Config) : list (event mainE) :=
  [mkEvent NotifyContext tt; mkEvent (AdminStart (adminOf cfg)) tt;
   mkEvent (PoolStart (pool_Max (cfg_Pool cfg)) (pool_Queue (cfg_Pool cfg))) tt] ++
  jobEvents (cfg_Cron cfg) ++
  [mkEvent SchedStart tt; mkEvent (Handle (cfg_TelemetryPath cfg) HMetrics) tt] ++
  healthEvents cfg ++
  [mkEvent (Serve (cfg_Listen cfg)) tt; mkEvent WaitDone tt; mkEvent ServerShutdown tt] ++
  (if hc_Enabled (cfg_HealthCheck cfg) then [mkEvent ProberShutdown tt] else []) ++
  [mkEvent SchedStop tt; mkEvent PoolShutdown tt; mkEvent AdminShutdown tt; mkEvent StopNotify tt].

(** The two paths can be registered. *)
Definition pathsOK (cfg : Config) : Prop :=
  is_ret (muxHandle muxOther [] (cfg_TelemetryPath cfg)) = true ∧
  (hc_Enabled (cfg_HealthCheck cfg) = true →
   is_ret (muxHandle muxOther [cfg_TelemetryPath cfg] (hc_Path (cfg_HealthCheck cfg))) = true).

Lemma execs_serveHTTP cfg tr :
  execs (serveHTTP cfg) tr (Ret tt) ↔
  tr = [mkEvent (Serve (cfg_Listen cfg)) tt; mkEvent WaitDone tt; mkEvent ServerShutdown tt].
Proof.
  unfold serveHTTP. rewrite execs_defer. split.
  - intros (tr1 & -> & ([] & -> & _)%execs_trigger). done.
  - intros ->. exists [mkEvent WaitDone tt]. split; [done|]. apply execs_trigger. by exists tt.
Qed.

Lemma execs_serveHealth cfg tr :
  execs (serveHealth muxOther cfg [cfg_TelemetryPath cfg]) tr (Ret tt) ↔
  (hc_Enabled (cfg_HealthCheck cfg) = true →
   is_ret (muxHandle muxOther [cfg_TelemetryPath cfg] (hc_Path (cfg_HealthCheck cfg))) = true) ∧
  tr = (healthEvents cfg ++
        [mkEvent (Serve (cfg_Listen cfg)) tt; mkEvent WaitDone tt; mkEvent ServerShutdown tt] ++
        (if hc_Enabled (cfg_HealthCheck cfg) then [mkEvent ProberShutdown tt] else []))%list.
Proof.
  unfold serveHealth, healthEvents. cbv zeta. destruct (hc_Enabled (cfg_HealthCheck cfg)).
  - rewrite execs_bind_ret. split.
    + intros ([] & tr1 & tr2 & -> & ->%execs_orReturn & H).
      apply execs_bind_ret in H as ([] & tr3 & tr4 & -> & ->%execs_orReturn & H).
      apply execs_finally in H as (tr5 & -> & H).
      apply execs_bind_ret in H as (ps & tr6 & tr7 & -> & [Hm ->]%execs_handle & ->%execs_serveHTTP).
      split; [|done]. intros _. by rewrite Hm.
    + intros [Hm ->]. specialize (Hm eq_refl).
      destruct (muxHandle _ _ _) as [ps|e|m] eqn:E; [|done..].
      eexists tt, [_], _. split; [reflexivity|]. split; [by apply execs_orReturn|].
      apply execs_bind_ret. eexists tt, [_], _. split; [reflexivity|]. split; [by apply execs_orReturn|].
      apply execs_finally. eexists (_ :: _ :: _ :: [_]). split; [reflexivity|].
      apply execs_bind_ret. eexists ps, [_], _. split; [reflexivity|].
      split; [by apply execs_handle|by apply execs_serveHTTP].
  - rewrite execs_serveHTTP. cbn [app]. naive_solver.
Qed.

(** The run that ends well, whatever the scheduler and the client answer. *)
Lemma serve_success cfg tr :
  execs (serve muxOther cfg) tr (Ret tt) ↔ pathsOK cfg ∧ tr = successTrace cfg.
Proof.
  unfold serve, pathsOK. rewrite execs_defer. split.
  - intros (t1 & -> & (t2 & -> & (t3 & -> & H)%execs_defer)%execs_defer).
    apply execs_bind_ret in H as ([] & t4 & t5 & -> & Hj & (t6 & -> & H)%execs_defer).
    apply execs_bind_ret in Hj as ([] & t7 & t8 & -> & ->%execs_jobs & ->%execs_orReturn).
    apply execs_bind_ret in H as (ps & t9 & t10 & -> & [Hm ->]%execs_handle & H).
    rewrite (muxHandle_ret _ _ _ Hm) in H. apply execs_serveHealth in H as [Hh ->].
    split; [split; [by rewrite Hm|done]|].
    unfold successTrace, jobEvents. by list_normal.
  - intros [[Hm Hh] ->]. destruct (muxHandle _ [] _) as [ps|e|m] eqn:E; [|done..].
    pose proof (muxHandle_ret _ _ _ E) as ->.
    set (H := (healthEvents cfg ++
      [mkEvent (Serve (cfg_Listen cfg)) tt; mkEvent WaitDone tt; mkEvent ServerShutdown tt] ++
      (if hc_Enabled (cfg_HealthCheck cfg) then [mkEvent ProberShutdown tt] else []))%list).
    set (S := (mkEvent SchedStart tt :: (mkEvent (Handle (cfg_TelemetryPath cfg) HMetrics) tt :: H)
                 ++ [mkEvent SchedStop tt])%list).
    set (P := (mkEvent (PoolStart (pool_Max (cfg_Pool cfg)) (pool_Queue (cfg_Pool cfg))) tt ::
                 (jobEvents (cfg_Cron cfg) ++ S) ++ [mkEvent PoolShutdown tt])%list).
    exists (mkEvent (AdminStart (adminOf cfg)) tt :: P ++ [mkEvent AdminShutdown tt])%list. split.
    { subst P S H. unfold successTrace. by list_normal. }
    apply execs_defer. exists P. split; [done|]. apply execs_defer. exists (jobEvents (cfg_Cron cfg) ++ S)%list.
    split; [done|]. apply execs_bind_ret. exists tt, (jobEvents (cfg_Cron cfg)), S. split; [done|]. split.
    { apply execs_bind_ret. eexists tt, _, [_]. split; [reflexivity|].
      split; [by apply execs_jobs|by apply execs_orReturn]. }
    apply execs_defer. eexists (_ :: H). split; [reflexivity|].
    apply execs_bind_ret. eexists _, [_], H. split; [reflexivity|].
    split; [by apply execs_handle|by apply execs_serveHealth].
Qed.

(** *** The result of a run *)

(** The environment as functions: the scheduler's parser (six fields, with the
    seconds), the producer of the client and the start of the prober, each with
    its error. *)
Variables (schedParse : string → option error) (newProducer : list clientOption → option error).
Variable (proberStart : HealthCheckConfig → option error).

Definition answerOf {X} (e : mainE X) : X :=
  match e in mainE X return X with
  | AddFunc spec _ => schedParse spec
  | NewProducer opts => newProducer opts
  | ProberStart hc => proberStart hc
  | SetMemoryLimit _ | SetLogger _ | NotifyContext | StopNotify | AdminStart _ | AdminShutdown | PoolStart _ _
  | PoolShutdown | SchedStart | SchedStop | Handle _ _ | ProberShutdown | Serve _ | ServerShutdown | WaitDone => tt
  end.

Definition answered (tr : list (event mainE)) : Prop := Forall (λ ev, evAnswer _ ev = answerOf (evCall _ ev)) tr.

Fixpoint resultOf {A} (p : prog mainE A) : outcome A :=
  match p with Leaf r => r | Vis e k => resultOf (k (answerOf e)) end.

Lemma execs_result {A} (p : prog mainE A) tr r : execs p tr r → answered tr → r = resultOf p.
Proof.
  revert tr. induction p as [r'|X e k IH]; intros tr; simpl; [by intros [_ ->]|].
  intros (x & tr' & -> & H) [Hx Htr]%Forall_cons. simpl in Hx. subst x. by eapply IH.
Qed.

Lemma result_execs {A} (p : prog mainE A) : ∃ tr, execs p tr (resultOf p) ∧ answered tr.
Proof.
  induction p as [r|X e k IH]; [by exists []; repeat constructor|]. destruct (IH (answerOf e)) as (tr & H & Ha).
  exists (mkEvent e (answerOf e) :: tr). simpl. split; [by exists (answerOf e), tr|by constructor].
Qed.

Lemma resultOf_bind {A B} (p : prog mainE A) (f : A → prog mainE B) :
  resultOf (p ≫= f) = resultOf p ≫= λ a, resultOf (f a).
Proof. induction p as [[a|e|m]|X e k IH]; [done..|]. apply IH. Qed.

Lemma resultOf_finally {A} (e : mainE unit) (p : prog mainE A) : resultOf (finally (trigger e) p) = resultOf p.
Proof. induction p as [r|X e' k IH]; [done|]. apply IH. Qed.

Lemma result_defer {A} (start stop : mainE unit) (p : prog mainE A) :
  resultOf (trigger start;; finally (trigger stop) p) = resultOf p.
Proof. rewrite resultOf_bind. exact (resultOf_finally stop p). Qed.

(** The checks a start-up has to pass, in their order: the seven translated cron
    expressions, the telemetry path and, with the health check, the producer, the
    prober and the health path beside the telemetry path. *)
Definition passes (wrap : error → error) (r : option error) : outcome unit :=
  match r with Some e => Fail (wrap e) | None => Ret tt end.
Definition registers (patterns : list string) (path : string) : outcome unit :=
  _ ← muxHandle muxOther patterns path; Ret tt.

Definition startChecks (cfg : Config) : list (outcome unit) :=
  let c := cfg_Cron cfg in
  let hc := cfg_HealthCheck cfg in
  ((λ spec, passes id (schedParse (TranslateCron spec))) <$>
     [cron_CollectTopicOffset c; cron_CollectProducer c; cron_CollectConsumerOffset c; cron_CollectBrokerStatsTopic c;
      cron_CollectBrokerStats c; cron_CollectBrokerRuntimeStats c; cron_CollectBrokerStats c]) ++
  [registers [] (cfg_TelemetryPath cfg)] ++
  (if hc_Enabled hc then
     [passes (λ e, EWrap "health adapter: %w" [] (EWrap "health producer: %w" [] e)) (newProducer (producerOptions cfg));
      passes (EWrap "health prober start: %w" []) (proberStart hc);
      registers [cfg_TelemetryPath cfg] (hc_Path hc)]
   else []).

(** The first check that does not pass. *)
Definition firstFailure (l : list (outcome unit)) : outcome unit :=
  foldr (λ r rest, match r with Ret _ => rest | _ => r end) (Ret tt) l.

Lemma firstFailure_cons r l : firstFailure (r :: l) = r ≫= λ _, firstFailure l.
Proof. by destruct r. Qed.
Lemma firstFailure_app l1 l2 : firstFailure (l1 ++ l2) = firstFailure l1 ≫= λ _, firstFailure l2.
Proof. induction l1 as [|r l1 IH]; [done|]. simpl. by destruct r. Qed.
Lemma firstFailure_ret l : firstFailure l = Ret tt ↔ Forall (λ r, r = Ret tt) l.
Proof.
  induction l as [|r l IH]; [by split; [constructor|]|]. rewrite Forall_cons, <- IH.
  destruct r as [[]|e|m]; simpl; split; [by auto|by intros [_ ?]|done|by intros [? _]|done|by intros [? _]].
Qed.

Lemma result_orReturn e wrap : resultOf (orReturn e wrap) = passes wrap (answerOf e).
Proof. simpl. by destruct (answerOf e). Qed.

Lemma result_jobs l :
  resultOf (forEach (λ '(spec, j), orReturn (AddFunc (TranslateCron spec) j) id) l) =
  firstFailure ((λ '(spec, j), passes id (schedParse (TranslateCron spec))) <$> l).
Proof.
  induction l as [|[spec j] l IH]; [done|]. cbn [forEach]. rewrite resultOf_bind, result_orReturn, fmap_cons, firstFailure_cons.
  cbn [answerOf]. destruct (passes id (schedParse (TranslateCron spec))); [exact IH|done..].
Qed.

Lemma result_handle ps p h : resultOf (handle muxOther ps p h) = muxHandle muxOther ps p.
Proof. unfold handle. by destruct (muxHandle muxOther ps p). Qed.

Lemma result_serveHealth cfg :
  resultOf (serveHealth muxOther cfg [cfg_TelemetryPath cfg]) =
  firstFailure (if hc_Enabled (cfg_HealthCheck cfg) then
     [passes (λ e, EWrap "health adapter: %w" [] (EWrap "health producer: %w" [] e)) (newProducer (producerOptions cfg));
      passes (EWrap "health prober start: %w" []) (proberStart (cfg_HealthCheck cfg));
      registers [cfg_TelemetryPath cfg] (hc_Path (cfg_HealthCheck cfg))] else []).
Proof.
  unfold serveHealth. cbv zeta. destruct (hc_Enabled (cfg_HealthCheck cfg)); [|done].
  rewrite resultOf_bind, result_orReturn, firstFailure_cons. cbn [answerOf].
  destruct (passes _ (newProducer _)) as [[]|e|m]; cbn [mbind outcome_bind]; [|done..].
  rewrite resultOf_bind, result_orReturn, firstFailure_cons. cbn [answerOf].
  destruct (passes _ (proberStart _)) as [[]|e|m]; cbn [mbind outcome_bind]; [|done..].
  rewrite resultOf_finally, resultOf_bind, result_handle. unfold registers. by destruct (muxHandle _ _ _).
Qed.

Lemma result_serve cfg : resultOf (serve muxOther cfg) = firstFailure (startChecks cfg).
Proof.
  unfold serve. rewrite !result_defer. unfold registerJobs. rewrite resultOf_bind, (resultOf_bind (forEach _ _)), result_jobs.
  unfold startChecks. cbv zeta.
  change [cron_CollectTopicOffset (cfg_Cron cfg); cron_CollectProducer (cfg_Cron cfg); cron_CollectConsumerOffset (cfg_Cron cfg);
    cron_CollectBrokerStatsTopic (cfg_Cron cfg); cron_CollectBrokerStats (cfg_Cron cfg);
    cron_CollectBrokerRuntimeStats (cfg_Cron cfg); cron_CollectBrokerStats (cfg_Cron cfg)]
    with ((jobTable (cfg_Cron cfg)).*1 ++ [cron_CollectBrokerStats (cfg_Cron cfg)])%list.
  rewrite fmap_app, <- app_assoc, firstFailure_app, <- list_fmap_compose.
  assert (∀ l : list (string * job), ((λ spec, passes id (schedParse (TranslateCron spec))) ∘ fst) <$> l =
    (λ '(spec, j), passes id (schedParse (TranslateCron spec))) <$> l) as -> by (intros l; by apply list_fmap_ext; intros ? []).
  destruct (firstFailure _) as [[]|e|m]; cbn [mbind outcome_bind]; [|done..].
  rewrite result_orReturn. cbn [answerOf fmap list_fmap app]. rewrite firstFailure_cons.
  destruct (passes _ (schedParse _)) as [[]|e|m]; cbn [mbind outcome_bind]; [|done..].
  rewrite result_defer, resultOf_bind, result_handle, firstFailure_cons.
  assert (registers [] (cfg_TelemetryPath cfg) = (_ ← muxHandle muxOther [] (cfg_TelemetryPath cfg); Ret tt)) as -> by done.
  destruct (muxHandle muxOther [] (cfg_TelemetryPath cfg)) as [ps|e|m] eqn:Em; cbn [mbind outcome_bind]; [|done..].
  rewrite (muxHandle_ret _ _ _ Em). apply result_serveHealth.
Qed.

(** C33: how [run] ends once the configuration is loaded.  When the scheduler, the
    client and the prober answer as functions of their arguments, every run ends
    with the first of these checks that does not pass, as its error or its panic:
    the seven cron expressions, translated, against the scheduler's own parser (the
    group statistics have the expression of the broker statistics), the telemetry
    path, and with the health check the producer, the prober and the health path
    beside the telemetry path.  It ends well exactly when all of them pass, and
    then it has done exactly this, in this order: admin client, pool, jobs,
    scheduler, metrics handler, prober and health handler, server; it has waited
    for the signal and taken everything down in reverse.  Such a run there is. *)
Theorem serve_outcome cfg :
  (∃ tr, execs (serve muxOther cfg) tr (firstFailure (startChecks cfg)) ∧ answered tr) ∧
  ∀ tr r, execs (serve muxOther cfg) tr r → answered tr →
    r = firstFailure (startChecks cfg) ∧
    (r = Ret tt ↔ Forall (λ check, check = Ret tt) (startChecks cfg)) ∧
    (r = Ret tt → tr = successTrace cfg).
Proof.
  rewrite <- result_serve. split; [apply result_execs|]. intros tr r He Ha.
  pose proof (execs_result _ _ _ He Ha) as Hr. split; [done|]. split.
  - rewrite <- firstFailure_ret, <- result_serve. by rewrite Hr.
  - intros ->. by apply serve_success in He as [_ ->].
Qed.
End serve.

(** ** The metrics page *)

Definition newline : string := String "010" "".

(** [strings.ToLower(mf.GetType().String())]. *)
Definition typeText (t : metricType) : string := match t with GAUGE => "gauge" | COUNTER => "counter" end.

(** The two comment lines of a family with the given name, help and type. *)
Definition headLines (name help : string) (t : metricType) : string :=
  "# HELP " ++ name ++ " " ++ help ++ newline ++ "# TYPE " ++ name ++ " " ++ typeText t ++ newline.

Record page : Type := mkPage { pageStatus : Z; pageType : string; pageBody : string }.

Section metrics.
Context `{GR : GoRange}.
(** [expfmt.NewEncoder(w, FmtText).Encode]: what it writes, and its error; and how
    it prints a value. *)
Variable (Encode : metricFamily → string * option error) (formatValue : float64 → string).

Fixpoint encodeMetricFamilies (families : list metricFamily) : string :=
  match families with
  | [] => ""
  | mf :: rest =>
      match famMetrics mf with
      | [] => headLines (famName mf) (famHelp mf) (famType mf) ++ encodeMetricFamilies rest
      | _ =>
          match Encode mf with
          | (out, None) => out ++ encodeMetricFamilies rest
          | (out, Some _) => out
          end
      end
  end.

(** The handler of the telemetry path. *)
Definition metricsHandler (clk : nat → Z) (c : MetricsCollector) : outcome page :=
  match Gather clk c with
  | Ret families => Ret (mkPage 200 "text/plain; version=0.0.4; charset=utf-8" (encodeMetricFamilies families))
  | Fail _ => Ret (mkPage 500 "text/plain; charset=utf-8" ("gather error" ++ newline))
  | Panic m => Panic m
  end.

(** The help text as the text format writes it: backslash and newline are
    escaped; in a label value the double quote too. *)
Definition escapeHelp (s : string) : string := ReplaceAll (ReplaceAll s "\" "\\") "010" "\n".
Definition quote : string := String "034" "".
Definition escapeValue (s : string) : string := ReplaceAll (escapeHelp s) "034" ("\" ++ quote).

(** The line of a sample: the name, the labels in braces unless there are none, and
    the value, which [strconv.AppendFloat] prints. *)
Definition labelText (l : string * string) : string := l.1 ++ "=" ++ quote ++ escapeValue l.2 ++ quote.
Definition sampleLine (name : string) (x : metric) : string :=
  name ++ match labelPairs x with [] => "" | ls => "{" ++ Join "," (labelText <$> ls) ++ "}" end
       ++ " " ++ formatValue (metricValue x) ++ newline.

Definition concatStr (l : list string) : string := foldr String.append "" l.

(** The documented form of a family that has a name and samples in the text format:
    its two comment lines, then one line per sample. *)
Definition textFormat : Prop :=
  ∀ mf, famName mf ≠ "" → famMetrics mf ≠ [] →
    Encode mf = (headLines (famName mf) (escapeHelp (famHelp mf)) (famType mf) ++
                 concatStr (sampleLine (famName mf) <$> famMetrics mf), None).

Definition familyHead (s : familySpec) : string * string * metricType := (spName s, spHelp s, spType s).

(** The name, help and type of every family, in the order of the page. *)
Definition familyHeads : list (string * string * metricType) := familyHead <$> familySpecs (NewWithClock 0).

Lemma heads_reachable T c : wf T c → familyHead <$> familySpecs c = familyHeads.
Proof.
  intros [H1 H2 _ _ _ _].
  assert (familyHead <$> distributeSpecs c = (λ '(n, h, _), (n, h, GAUGE)) <$> distributeCatalog) as Hd.
  { rewrite <- H2. unfold distributeSpecs. by rewrite <- !list_fmap_compose. }
  assert (familyHead <$> runtimeSpecs c = (λ '(n, h, _), (n, h, GAUGE)) <$> runtimeCatalog) as Hr.
  { rewrite <- H1. unfold runtimeSpecs. by rewrite <- !list_fmap_compose. }
  unfold familyHeads, familySpecs. rewrite !fmap_app, Hd, Hr. reflexivity.
Qed.

(** Every family has a name, and no help text needs escaping. *)
Lemma heads_plain : Forall (λ h, h.1.1 ≠ "" ∧ escapeHelp h.1.2 = h.1.2) familyHeads.
Proof.
  assert (forallb (λ h, negb (String.eqb h.1 "") && String.eqb (escapeHelp h.2) h.2) familyHeads.*1 = true) as H
    by (vm_compute; reflexivity).
  rewrite forallb_forall in H. apply Forall_forall. intros h Hh. specialize (H h.1).
  rewrite andb_true_iff, negb_true_iff, String.eqb_eq, String.eqb_neq in H. apply H, list_elem_of_In.
  apply list_elem_of_fmap. by exists h.
Qed.

Definition headOf (mf : metricFamily) : string * string * metricType := (famName mf, famHelp mf, famType mf).

(** A family on the page: its comment lines, then a line for each of its samples. *)
Definition famText (mf : metricFamily) : string :=
  headLines (famName mf) (famHelp mf) (famType mf) ++ concatStr (sampleLine (famName mf) <$> famMetrics mf).

Lemma encode_families fams :
  textFormat → Forall (λ mf, famName mf ≠ "" ∧ escapeHelp (famHelp mf) = famHelp mf) fams →
  encodeMetricFamilies fams = concatStr (famText <$> fams).
Proof.
  intros Hdoc Hf. induction Hf as [|mf fams [Hn Hh] Hf IH]; [done|]. rewrite fmap_cons.
  cbn [encodeMetricFamilies concatStr foldr]. fold (concatStr (famText <$> fams)). unfold famText at 1.
  destruct (famMetrics mf) as [|x xs] eqn:Em.
  - cbn [fmap list_fmap concatStr foldr]. by rewrite append_nil_r, IH.
  - rewrite Hdoc by (done || by rewrite Em). by rewrite Hh, Em, IH.
Qed.

(** C17: the metrics page is complete and exact.  For every collector the exporter
    can reach, and any text encoder that writes a family with samples as the
    format documents, the telemetry path answers 200 with the 94 families, each
    once and in the fixed order: its two comment lines, then one line for each of
    its samples and nothing else, also when it has none.  The samples of a family
    are exactly the series the collector exposes under its name, no two with the
    same labels but in the two families whose labels are not their key. *)
Theorem metrics_page T c clk :
  textFormat → collector_reachable T c →
  ∃ fams,
    metricsHandler clk c =
      Ret (mkPage 200 "text/plain; version=0.0.4; charset=utf-8" (concatStr (famText <$> fams))) ∧
    headOf <$> fams = familyHeads ∧ NoDup familyHeads.*1.*1 ∧ length familyHeads = 94%nat ∧
    ∀ f, f ∈ fams →
      (∀ lab v, mkMetric lab v ∈ famMetrics f ↔ exposes clk c (famName f) lab v) ∧
      (keyed (famName f) → NoDup (labelPairs <$> famMetrics f)).
Proof.
  intros Hdoc Hr. apply wf_reachable in Hr as Hwf. pose proof (heads_reachable T c Hwf) as Hh.
  destruct familyNames_NoDup as [Hnd Hlen].
  assert (familyHeads.*1.*1 = familyNames) as En.
  { unfold familyHeads, familyNames. by rewrite <- !list_fmap_compose. }
  assert (length familyHeads = 94%nat) as Hl by (by rewrite <- Hlen, <- En, !length_fmap).
  set (fams := imap (λ i s, familyOf (clk i) s) (familySpecs c)).
  assert (headOf <$> fams = familyHeads) as E by (rewrite <- Hh; by apply imap_const).
  assert (famName <$> fams = familyNames) as Ef.
  { rewrite <- En, <- E, <- !list_fmap_compose. by apply list_fmap_ext. }
  exists fams. split_and!; [|done|by rewrite En|done|].
  - unfold metricsHandler. rewrite Gather_families. fold fams. rewrite encode_families; [done|done|].
    pose proof heads_plain as H. rewrite <- E, Forall_fmap in H. eapply Forall_impl; [exact H|].
    intros mf [H1 H2]. done.
  - intros f Hf. split.
    + intros lab v. split; [intros Hm; exists fams, f; split_and!; [apply Gather_families|done..]|].
      intros (fams' & f' & Hg & Hf' & Hn & Hm). rewrite Gather_families in Hg. fold fams in Hg.
      assert (fams' = fams) as -> by congruence.
      apply list_elem_of_lookup in Hf as [i Hi], Hf' as [j Hj].
      assert (j = i) as -> by (apply (NoDup_lookup familyNames _ _ (famName f)); [done|..];
        rewrite <- Ef, list_lookup_fmap, ?Hi, ?Hj; simpl; congruence). by simplify_eq.
    + apply list_elem_of_lookup in Hf as [i Hi]. unfold fams in Hi. rewrite list_lookup_imap in Hi.
      destruct (familySpecs c !! i) as [sp|] eqn:Hs; [|done]. injection Hi as <-. intros Hk.
      by apply (familyOf_distinct T c i).
Qed.
End metrics.

(** ** Logging *)

Definition slogEnabled (min level : slogLevel) : bool := slogNumber min <=? slogNumber level.
Definition logrusEnabled (level entry : logrusLevel) : bool := logrusNumber entry <=? logrusNumber level.

(** The client library's messages go where the exporter's own go and are
    filtered alike, whatever the configured level. *)
Lemma logging_consistent cfg sev :
  rlogOut (setupLogging cfg) = slogOut (setupLogging cfg) ∧
  logrusEnabled (rlogLevel (setupLogging cfg)) (newLogrusLevel sev) = slogEnabled (slogMin (setupLogging cfg)) sev.
Proof. split; [done|]. cbn. by destruct (parseSlogLevel (cfg_LogLevel cfg)), sev. Qed.

Example parseSlogLevel_cases :
  parseSlogLevel <$> ["DEBUG"; "Warn"; "error"; "info"; "warning"; ""]
  = [LevelDebug; LevelWarn; LevelError; LevelInfo; LevelInfo; LevelInfo].
Proof. vm_compute. reflexivity. Qed.

(** ** Witnesses *)

(** The prober's producer does not start: the run ends with an error. *)
Definition proberFails : list (event mainE) :=
  [mkEvent NotifyContext tt; mkEvent (AdminStart (adminOf Default)) tt; mkEvent (PoolStart 10 5000) tt] ++
  jobEvents (cfg_Cron Default) ++
  [mkEvent SchedStart tt; mkEvent (Handle "/metrics" HMetrics) tt;
   mkEvent (NewProducer (producerOptions Default)) None;
   mkEvent (ProberStart (cfg_HealthCheck Default)) (Some EEOF);
   mkEvent SchedStop tt; mkEvent PoolShutdown tt; mkEvent AdminShutdown tt; mkEvent StopNotify tt].

(** The same run, as the outcome of its checks: a scheduler that takes everything
    and a prober that does not start. *)
Lemma serve_outcome_witness :
  firstFailure (startChecks (λ _ _, Ret tt) (λ _, None) (λ _, None) (λ _, Some EEOF) Default) =
    Fail (EWrap "health prober start: %w" [] EEOF) ∧
  ∃ tr, execs (serve (λ _ _, Ret tt) Default) tr (Fail (EWrap "health prober start: %w" [] EEOF)).
Proof.
  assert (firstFailure (startChecks (λ _ _, Ret tt) (λ _, None) (λ _, None) (λ _, Some EEOF) Default) =
    Fail (EWrap "health prober start: %w" [] EEOF)) as E by (vm_compute; reflexivity).
  split; [exact E|]. rewrite <- E.
  destruct (proj1 (serve_outcome (λ _ _, Ret tt) (λ _, None) (λ _, None) (λ _, Some EEOF) Default)) as (tr & H & _).
  exists tr. exact H.
Defined.

Lemma serve_brackets_witness : upAfter proberFails [] = Some [].
Proof.
  apply (serve_brackets (λ _ _, Ret tt) Default proberFails (Fail (EWrap "health prober start: %w" [] EEOF))).
  repeat (eexists _, _; split; [reflexivity|]). split; reflexivity.
Defined.

(** An encoder that writes the values rounded down. *)
Definition wholeValue (v : float64) : string :=
  match ratOf v with Some (n, d) => FormatInt (n / d) | None => "NaN" end.
Definition textEncoder (mf : metricFamily) : string * option error :=
  (headLines (famName mf) (escapeHelp (famHelp mf)) (famType mf) ++
   concatStr (sampleLine wholeValue (famName mf) <$> famMetrics mf), None).

Lemma metrics_page_witness :
  ∃ fams f, @metricsHandler std_goRange textEncoder (λ _, 5) one_offset
    = Ret (mkPage 200 "text/plain; version=0.0.4; charset=utf-8" (concatStr (famText wholeValue <$> fams)))
    ∧ f ∈ fams ∧ mkMetric [("cluster", "c"); ("broker", "b"); ("topic", "T")] (floatOfZ 1) ∈ famMetrics f
    ∧ famName f = "rocketmq_producer_offset".
Proof.
  assert (@exposes std_goRange (λ _, 5) one_offset "rocketmq_producer_offset"
    [("cluster", "c"); ("broker", "b"); ("topic", "T")] (floatOfZ 1)) as (fams & f & Hg & Hf & Hn & Hm).
  { destruct (@familySpecs std_goRange one_offset !! 5%nat) as [s|] eqn:E; [|discriminate].
    pose proof (list_elem_of_lookup_2 _ _ _ E) as Hs. injection E as <-.
    apply (@exposes_spec std_goRange (λ _, 5) one_offset _ ["c"; "b"; "T"] (floatOfZ 1) Hs).
    intros _. vm_compute. apply list_elem_of_here. }
  destruct (@metrics_page std_goRange textEncoder wholeValue 60 one_offset (λ _, 5)) as (fams' & E & Hh & _ & _ & Hx).
  - intros mf _ _. reflexivity.
  - apply one_offset_reachable.
  - assert ((headOf <$> fams') !! 5%nat = Some ("rocketmq_producer_offset", "TopicOffset", GAUGE)) as H5 by (rewrite Hh; reflexivity).
    rewrite list_lookup_fmap in H5. destruct (fams' !! 5%nat) as [f'|] eqn:E5; [|discriminate]. injection H5 as Hn' _ _.
    exists fams', f'. split; [exact E|]. pose proof (list_elem_of_lookup_2 _ _ _ E5) as Hf'. split; [exact Hf'|].
    split; [|exact Hn']. apply (proj1 (Hx f' Hf')). rewrite Hn'. exists fams, f. exact (conj Hg (conj Hf (conj Hn Hm))).
Defined.

(** A file, two environment variables (one malformed) and two flags. *)
Definition demoFile : yamlConfig :=
  mkYaml (Some "file:9876") (Some ":1") None None None None None (Some "90s") None None
    (Some (mkYamlPool (Some 4) (Some 5) None)) None None.
Definition demoEnv : environ := {[ "RMQ_LISTEN" := ":2"; "RMQ_POOL_MAX" := "many"; "RMQ_POOL_QUEUE" := "7" ]}.
Definition demoLoad : loaded :=
  loadConfig (λ _, Ret "yaml") (λ _, Ret demoFile) (λ _, None) (λ _, 0)
    ["rmq-exporter"; "--config"; "x.yml"; "-pool-queue=0x10"; "--enable-acl"] demoEnv.

Example demoLoad_values :
  match demoLoad with
  | Loaded cfg limit =>
      cfg_Namesrv cfg = "file:9876" ∧ cfg_Listen cfg = ":2" ∧ cfg_TelemetryPath cfg = "/metrics" ∧
      cfg_CacheTTL cfg = 90 * Second ∧ cfg_EnableACL cfg = true ∧
      cfg_Pool cfg = mkPool 4 5 16 ∧ limit = 0
  | _ => False
  end.
Proof. vm_compute. by repeat split. Qed.

(** [-config=V] is a flag to the parser and nothing to [FindConfigPath]: the
    file is not read. *)
Example single_dash_config :
  FindConfigPath ["rmq-exporter"; "-config=x.yml"] ∅ = "" ∧
  (λ r, r.2.1) <$> Parse targetKind assignTarget allFlags ["-config=x.yml"] ("", Default) = Ret "x.yml".
Proof. split; vm_compute; reflexivity. Qed.

(** The same path for the metrics and the health check: [run] panics after
    everything else is up, and takes it down again. *)
Example same_path_panics :
  is_ret (muxHandle (λ _ _, Ret tt) ["/metrics"] "/metrics") = false.
Proof. vm_compute. reflexivity. Qed.
