(* ===== verification/Task.v ===== *)
(** * The collection tasks: internal/task/collect.go, client_metric.go

    Every task is a [prog taskE]: RPCs, clock readings, metric writes and the
    critical sections of the two mutexes, in the order of the code.  A task that
    fans out returns the bodies of its [parallel] section; Parallel runs such a
    section with the semaphore, any interleaving of the bodies' effects and any
    answers, and Jobs puts the parts of a task together.  Log output is left
    out. *)

From Stdlib Require Import ZArith Lia Ascii String.
From S2P Require Import Prelude GoStrings GoFloat Util Effects Model Store Health Collector Service.

(** ** Effects *)

(** One call of a setter of the collector. *)
Inductive write : Type :=
| W_TopicOffset (cluster broker topic : string) (lastUpdateTimestamp : Z) (value : float64)
| W_ProducerCount (cluster broker group : string) (count : Z)
| W_GroupCount (group caddrs localaddrs : string) (count : Z)
| W_GroupDiff (countOfOnlineConsumers group topic msgModel : string) (value : Z)
| W_TopicPutNums (cluster brokerName brokerIP topic : string) (value : float64)
| W_TopicPutSize (cluster brokerName brokerIP topic : string) (value : float64)
| W_GroupBrokerTotalOffset (cluster broker topic group : string) (value : Z)
| W_GroupGetLatencyByStoreTime (cluster broker topic group : string) (value : Z)
| W_GroupGetNums (cluster broker topic group : string) (value : float64)
| W_GroupGetSize (cluster broker topic group : string) (value : float64)
| W_SendBackNums (cluster broker topic group : string) (value : float64)
| W_ConsumerClientFailedMsgCounts (group topic clientAddr clientId : string) (value : Z)
| W_ConsumerClientFailedTPS (group topic clientAddr clientId : string) (value : float64)
| W_ConsumerClientOKTPS (group topic clientAddr clientId : string) (value : float64)
| W_ConsumeRTMetric (group topic clientAddr clientId : string) (value : float64)
| W_PullRT (group topic clientAddr clientId : string) (value : float64)
| W_PullTPS (group topic clientAddr clientId : string) (value : float64)
| W_BrokerPutNums (cluster brokerIP brokerName : string) (value : float64)
| W_BrokerGetNums (cluster brokerIP brokerName : string) (value : float64)
| W_BrokerCommitLogDiff (cluster brokerIP brokerName : string) (value : float64)
| W_BrokerRuntimeStats (stats : BrokerRuntimeStats) (cluster brokerAddress brokerHost : string).

(** The write on the collector, with the clock readings it takes. *)
Definition applyWrite (clk : nat → Z) (w : write) (c : MetricsCollector) : MetricsCollector :=
  let now := clk 0%nat in
  match w with
  | W_TopicOffset cl b t ts v => AddTopicOffsetMetric now cl b t ts v c
  | W_ProducerCount cl b g n => AddProducerCountMetric now cl b g n c
  | W_GroupCount g ca la n => AddGroupCountMetric now g ca la n c
  | W_GroupDiff o g t m v => AddGroupDiffMetric now o g t m v c
  | W_TopicPutNums cl bn ip t v => AddTopicPutNumsMetric now cl bn ip t v c
  | W_TopicPutSize cl bn ip t v => AddTopicPutSizeMetric now cl bn ip t v c
  | W_GroupBrokerTotalOffset cl b t g v => AddGroupBrokerTotalOffsetMetric now cl b t g v c
  | W_GroupGetLatencyByStoreTime cl b t g v => AddGroupGetLatencyByStoreTimeMetric now cl b t g v c
  | W_GroupGetNums cl b t g v => AddGroupGetNumsMetric now cl b t g v c
  | W_GroupGetSize cl b t g v => AddGroupGetSizeMetric now cl b t g v c
  | W_SendBackNums cl b t g v => AddSendBackNumsMetric now cl b t g v c
  | W_ConsumerClientFailedMsgCounts g t ca ci v => AddConsumerClientFailedMsgCountsMetric now g t ca ci v c
  | W_ConsumerClientFailedTPS g t ca ci v => AddConsumerClientFailedTPSMetric now g t ca ci v c
  | W_ConsumerClientOKTPS g t ca ci v => AddConsumerClientOKTPSMetric now g t ca ci v c
  | W_ConsumeRTMetric g t ca ci v => AddConsumeRTMetricMetric now g t ca ci v c
  | W_PullRT g t ca ci v => AddPullRTMetric now g t ca ci v c
  | W_PullTPS g t ca ci v => AddPullTPSMetric now g t ca ci v c
  | W_BrokerPutNums cl ip bn v => AddBrokerPutNumsMetric now cl ip bn v c
  | W_BrokerGetNums cl ip bn v => AddBrokerGetNumsMetric now cl ip bn v c
  | W_BrokerCommitLogDiff cl ip bn v => AddBrokerCommitLogDiffMetric now cl ip bn v c
  | W_BrokerRuntimeStats st cl ad h => AddBrokerRuntimeStatsMetric clk st cl ad h c
  end.

(** A (topic, consumer group) pair. *)
Record topicGroup : Type := mkTopicGroup { tg_topic : string; tg_group : string }.

(** [ClaimGroup] is the critical section of [groupCollectedMu], [AppendPairs] that
    of [pairsMu]; [GetClusterName] and [SetClusterName] access the cached field. *)
Inductive taskE : Type → Type :=
| Rpc (X : Type) (e : rpcE X) : taskE X
| Put (w : write) : taskE unit
| UnixMilli : taskE Z
| GetClusterName : taskE string
| SetClusterName (name : string) : taskE unit
| ClaimGroup (group : string) : taskE bool
| AppendPairs (ps : list topicGroup) : taskE unit
| SubmitClient (group : string) (cc : ConsumerConnection) : taskE unit.

Definition lift {A} (p : prog rpcE A) : prog taskE A := translate Rpc p.

Notation "'rpc' p" := (attempt (lift p)) (at level 10).

Record CollectTask : Type := mkTask { ct_Admin : AdminClient; ct_EnableCollect : bool }.

Definition collectionConcurrency : nat := 30.
Definition taskRetryTopicPrefix : string := "%RETRY%".
Definition taskDlqTopicPrefix : string := "%DLQ%".

Section tasks.
Context `{GR : GoRange} `{JL : JsonLib}.

Definition emit (w : write) : prog taskE unit := trigger (Put w).

(** ** Shared helpers *)

(** [t.cluster()] *)
Definition cluster (t : CollectTask) : prog taskE string :=
  name ← trigger GetClusterName;
  if negb (String.eqb name "") then mret name
  else
    ci ← lift (ExamineBrokerClusterInfo (ct_Admin t));
    match range (default ∅ (ci_ClusterAddrTable ci)) with
    | (n, _) :: _ => trigger (SetClusterName n)
    | [] => mret tt
    end;;
    trigger GetClusterName.

Definition masterOf (bd : BrokerData) : string := default "" (bd_BrokerAddrs bd !! 0).

Definition brokerAddrTable (t : CollectTask) : prog taskE (gmap string string) :=
  ci ← lift (ExamineBrokerClusterInfo (ct_Admin t));
  mret (foldl (λ m '(name, bd), match bd_BrokerAddrs bd !! 0 with Some addr => <[name := addr]> m | None => m end)
          ∅ (range (default ∅ (ci_BrokerAddrTable ci)))).

Definition messageModelOrdinal (name : string) : string :=
  if EqualFold name "BROADCASTING" then "0" else "1".

(** ** collectTopicOffset *)

Definition topicOffsetStep (acc : gmap string Z * gmap string Z) (e : TopicStatsEntry)
    : gmap string Z * gmap string Z :=
  let '(brokerOffset, brokerTs) := acc in
  let bn := mq_BrokerName (te_Queue e) in
  (<[bn := int64 (default 0 (brokerOffset !! bn) + to_MaxOffset (te_Offset e))]> brokerOffset,
   if default 0 (brokerTs !! bn) <? to_LastUpdateTimestamp (te_Offset e)
   then <[bn := to_LastUpdateTimestamp (te_Offset e)]> brokerTs else brokerTs).

Definition topicOffsetBody (t : CollectTask) (cluster topic : string) : prog taskE unit :=
  r ← rpc (ExamineTopicStats (ct_Admin t) topic);
  match r with
  | inl _ => mret tt
  | inr tts =>
      r ← attempt (Leaf (TopicStatsTable_Entries tts));
      match r with
      | inl _ => mret tt
      | inr entries =>
          let '(brokerOffset, brokerTs) := foldl topicOffsetStep (∅, ∅) entries in
          forEach (λ '(bn, off), emit (W_TopicOffset cluster bn topic (default 0 (brokerTs !! bn)) (floatOfZ off)))
            (range brokerOffset)
      end
  end.

(** The bodies of the parallel section; none when the task returns early. *)
Definition CollectTopicOffset (t : CollectTask) : prog taskE (list (prog taskE unit)) :=
  if negb (ct_EnableCollect t) then mret []
  else
    r ← rpc (FetchAllTopicList (ct_Admin t));
    match r with
    | inl _ => mret []
    | inr tl =>
        if (length (tl_TopicList tl) =? 0)%nat then mret []
        else
          r ← attempt (cluster t);
          match r with
          | inl _ => mret []
          | inr cl => mret (topicOffsetBody t cl <$> tl_TopicList tl)
          end
    end.

(** ** collectProducer *)

Definition CollectProducer (t : CollectTask) : prog taskE unit :=
  if negb (ct_EnableCollect t) then mret tt
  else
    r ← rpc (ExamineBrokerClusterInfo (ct_Admin t));
    match r with
    | inl _ => mret tt
    | inr ci =>
        match ci_ClusterAddrTable ci, ci_BrokerAddrTable ci with
        | Some clusters, Some brokers =>
            forEach (λ '(clusterName, brokerNames),
              forEach (λ brokerName,
                let masterAddr := default "" (masterOf <$> brokers !! brokerName) in
                r ← rpc (GetAllProducerInfo (ct_Admin t) masterAddr);
                match r with
                | inl _ => mret tt
                | inr pt =>
                    forEach (λ '(producerGroup, list),
                      let count := match list with Some l => Z.of_nat (length l) | None => -1 end in
                      emit (W_ProducerCount clusterName brokerName producerGroup count)) (range (pt_Data pt))
                end) brokerNames) (range clusters)
        | _, _ => mret tt
        end
    end.

(** ** collectConsumerOffset *)

(** Pass 1: the groups of one topic. *)
Definition enumerateBody (t : CollectTask) (topic : string) : prog taskE unit :=
  if HasPrefix topic taskDlqTopicPrefix then mret tt
  else
    r ← rpc (QueryTopicConsumeByWho (ct_Admin t) topic);
    match r with
    | inl _ => mret tt
    | inr gl =>
        if (length (gl_GroupList gl) =? 0)%nat then mret tt
        else trigger (AppendPairs (mkTopicGroup topic <$> gl_GroupList gl))
    end.

(** The lag of one queue; [None] when a pull failed. *)
Definition queueLag (t : CollectTask) (addr : string) (e : ConsumeStatsEntry) : prog taskE (option Z) :=
  r ← rpc (QueryMsgByOffset (ct_Admin t) addr (ce_Queue e) (ow_ConsumerOffset (ce_Offset e)));
  match r with
  | inl _ => mret None
  | inr pr =>
      if String.eqb (pr_Status pr) "FOUND" then
        now ← trigger UnixMilli;
        let lag := int64 (now - pr_StoreTimestamp pr) in
        mret (Some (if ow_BrokerOffset (ce_Offset e) =? ow_ConsumerOffset (ce_Offset e) then 0 else lag))
      else if String.eqb (pr_Status pr) "OFFSET_ILLEGAL" then
        r2 ← rpc (QueryMsgByOffset (ct_Admin t) addr (ce_Queue e) (pr_MinOffset pr));
        match r2 with
        | inl _ => mret None
        | inr pr2 =>
            if String.eqb (pr_Status pr2) "FOUND" then
              now ← trigger UnixMilli; mret (Some (int64 (now - pr_StoreTimestamp pr2)))
            else mret (Some 0)
        end
      else mret (Some 0)
  end.

Definition latencyUpdate (latencyMap : gmap string Z) (bn : string) (lag : Z) : gmap string Z :=
  match latencyMap !! bn with
  | None => if 0 <? lag then <[bn := lag]> latencyMap else <[bn := 0]> latencyMap
  | Some cur => if cur <? lag then <[bn := lag]> latencyMap else latencyMap
  end.

(** The latency map, [None] when [latencyOK] is false. *)
Fixpoint latencyLoop (t : CollectTask) (brokerAddrs : gmap string string) (latencyMap : gmap string Z)
    (entries : list ConsumeStatsEntry) : prog taskE (option (gmap string Z)) :=
  match entries with
  | [] => mret (Some latencyMap)
  | e :: entries' =>
      let bn := mq_BrokerName (ce_Queue e) in
      let addr := default "" (brokerAddrs !! bn) in
      if String.eqb addr "" then latencyLoop t brokerAddrs latencyMap entries'
      else
        lag ← queueLag t addr e;
        match lag with
        | None => mret None
        | Some lag => latencyLoop t brokerAddrs (latencyUpdate latencyMap bn lag) entries'
        end
  end.

Definition consumeOffsetStep (m : gmap string Z) (e : ConsumeStatsEntry) : gmap string Z :=
  let bn := mq_BrokerName (ce_Queue e) in
  <[bn := int64 (default 0 (m !! bn) + ow_ConsumerOffset (ce_Offset e))]> m.

(** The online count and the submission of the client-metric task. *)
Definition groupOnline (t : CollectTask) (group : string) (cc : option ConsumerConnection) (countOfOnline : Z)
    : prog taskE unit :=
  let conns := default [] (cc_ConnectionSet <$> cc) in
  let '(cAddrs, localAddrs) :=
    if 0 <? countOfOnline then ClientAddresses (cn_ClientAddr <$> conns) (cn_ClientId <$> conns) else ("", "") in
  emit (W_GroupCount group cAddrs localAddrs countOfOnline);;
  if 0 <? countOfOnline then
    first ← trigger (ClaimGroup group);
    if (first : bool) then
      match cc with Some cc => trigger (SubmitClient group cc) | None => mret tt end
    else mret tt
  else mret tt.

(** The metrics that come from the consume statistics. *)
Definition groupStats (t : CollectTask) (cluster : string) (brokerAddrs : gmap string string) (topic group : string)
    (cc : option ConsumerConnection) (countOfOnline : Z) : prog taskE unit :=
  r ← rpc (ExamineConsumeStats (ct_Admin t) group topic);
  match r with
  | inl _ => mret tt
  | inr cs =>
      r ← attempt (Leaf (ConsumeStats_Entries cs));
      match r with
      | inl _ | inr [] => mret tt
      | inr entries =>
          d ← attempt (Leaf (ComputeTotalDiff cs));
          let diff := match d with inr d => d | inl _ => 0 end in
          let ord := match cc with
                     | Some cc => messageModelOrdinal (cc_MessageModel cc)
                     | None => messageModelOrdinal ""
                     end in
          emit (W_GroupDiff (FormatInt countOfOnline) group topic ord diff);;
          let consumeOffsetMap := foldl consumeOffsetStep ∅ entries in
          forEach (λ '(bn, off), emit (W_GroupBrokerTotalOffset cluster bn topic group off)) (range consumeOffsetMap);;
          latency ← latencyLoop t brokerAddrs ∅ entries;
          match latency with
          | None => mret tt
          | Some latencyMap =>
              forEach (λ '(bn, lag), emit (W_GroupGetLatencyByStoreTime cluster bn topic group lag)) (range latencyMap)
          end
      end
  end.

(** Pass 2: one (topic, group) pair. *)
Definition groupBody (t : CollectTask) (cluster : string) (brokerAddrs : gmap string string) (p : topicGroup)
    : prog taskE unit :=
  let topic := tg_topic p in
  let group := tg_group p in
  r ← lift (ExamineConsumerConnectionInfo (ct_Admin t) group);
  let '(cc, err) := r in
  let countOfOnline :=
    match err with
    | Some _ => 0
    | None => match cc with Some cc => Z.of_nat (length (cc_ConnectionSet cc)) | None => 0 end
    end in
  groupOnline t group cc countOfOnline;;
  groupStats t cluster brokerAddrs topic group cc countOfOnline.

(** The prologue: the topics, the cluster name and the master addresses the two
    parallel passes use; [None] when the task returns early. *)
Definition CollectConsumerOffset (t : CollectTask) : prog taskE (option (list string * string * gmap string string)) :=
  if negb (ct_EnableCollect t) then mret None
  else
    r ← rpc (FetchAllTopicList (ct_Admin t));
    match r with
    | inl _ => mret None
    | inr tl =>
        r ← attempt (cluster t);
        match r with
        | inl _ => mret None
        | inr cl =>
            r ← attempt (brokerAddrTable t);
            match r with
            | inl _ => mret None
            | inr brokerAddrs => mret (Some (tl_TopicList tl, cl, brokerAddrs))
            end
        end
    end.

Definition consumerOffsetPass1 (t : CollectTask) (topics : list string) : list (prog taskE unit) :=
  enumerateBody t <$> topics.
Definition consumerOffsetPass2 (t : CollectTask) (cluster : string) (brokerAddrs : gmap string string)
    (pairs : list topicGroup) : list (prog taskE unit) :=
  groupBody t cluster brokerAddrs <$> pairs.

(** ** collectBrokerStatsTopic *)

Definition statsTopicPutNums : string := "TOPIC_PUT_NUMS".
Definition statsTopicPutSize : string := "TOPIC_PUT_SIZE".
Definition statsGroupGetNums : string := "GROUP_GET_NUMS".
Definition statsGroupGetSize : string := "GROUP_GET_SIZE".
Definition statsSndBackPutNums : string := "SNDBCK_PUT_NUMS".
Definition statsBrokerPutNums : string := "BROKER_PUT_NUMS".
Definition statsBrokerGetNums : string := "BROKER_GET_NUMS".

(** The minute statistics when the call succeeded and carries them. *)
Definition minuteStats (t : CollectTask) (addr statsName statsKey : string) : prog taskE (option BrokerStatsItem) :=
  r ← rpc (ViewBrokerStatsData (ct_Admin t) addr statsName statsKey);
  mret (match r with inr bsd => bs_StatsMinute bsd | inl _ => None end).

(** [if bsd, err := ...; err == nil && bsd.StatsMinute != nil { emit rounded tps }] *)
Definition putTps (t : CollectTask) (addr statsName statsKey : string) (w : float64 → write) : prog taskE unit :=
  s ← minuteStats t addr statsName statsKey;
  match s with
  | Some item => v ← Leaf (GetFixedDouble (si_Tps item)); emit (w v)
  | None => mret tt
  end.

Definition putSum (t : CollectTask) (addr statsName statsKey : string) (w : float64 → write) : prog taskE unit :=
  s ← minuteStats t addr statsName statsKey;
  match s with
  | Some item => emit (w (si_Sum item))
  | None => mret tt
  end.

Definition brokerStatsBody (t : CollectTask) (ci : ClusterInfo) (topic : string) : prog taskE unit :=
  if HasPrefix topic taskRetryTopicPrefix || HasPrefix topic taskDlqTopicPrefix then mret tt
  else
    r ← rpc (ExamineTopicRouteInfo (ct_Admin t) topic);
    match r with
    | inl _ => mret tt
    | inr route =>
        forEach (λ bd,
          let masterAddr := masterOf bd in
          if String.eqb masterAddr "" then mret tt
          else
            let brokerIP :=
              match default ∅ (ci_BrokerAddrTable ci) !! bd_BrokerName bd with
              | Some mb => default masterAddr (bd_BrokerAddrs mb !! 0)
              | None => masterAddr
              end in
            putTps t masterAddr statsTopicPutNums topic (W_TopicPutNums (bd_Cluster bd) (bd_BrokerName bd) brokerIP topic);;
            putTps t masterAddr statsTopicPutSize topic (W_TopicPutSize (bd_Cluster bd) (bd_BrokerName bd) brokerIP topic))
          (tr_BrokerDatas route);;
        r ← rpc (QueryTopicConsumeByWho (ct_Admin t) topic);
        match r with
        | inl _ => mret tt
        | inr gl =>
            forEach (λ group,
              let statsKey := topic +:+ "@" +:+ group in
              forEach (λ bd,
                let masterAddr := masterOf bd in
                if String.eqb masterAddr "" then mret tt
                else
                  putTps t masterAddr statsGroupGetNums statsKey (W_GroupGetNums (bd_Cluster bd) (bd_BrokerName bd) topic group);;
                  putTps t masterAddr statsGroupGetSize statsKey (W_GroupGetSize (bd_Cluster bd) (bd_BrokerName bd) topic group);;
                  putSum t masterAddr statsSndBackPutNums statsKey (W_SendBackNums (bd_Cluster bd) (bd_BrokerName bd) topic group))
                (tr_BrokerDatas route)) (gl_GroupList gl)
        end
    end.

Definition CollectBrokerStatsTopic (t : CollectTask) : prog taskE (list (prog taskE unit)) :=
  if negb (ct_EnableCollect t) then mret []
  else
    r ← rpc (FetchAllTopicList (ct_Admin t));
    match r with
    | inl _ => mret []
    | inr tl =>
        if (length (tl_TopicList tl) =? 0)%nat then mret []
        else
          r ← rpc (ExamineBrokerClusterInfo (ct_Admin t));
          match r with
          | inl _ => mret []
          | inr ci => mret (brokerStatsBody t ci <$> tl_TopicList tl)
          end
    end.

(** ** collectBrokerStats, collectBrokerGroupStats, collectBrokerRuntimeStats *)

Definition CollectBrokerStats (t : CollectTask) : prog taskE unit :=
  if negb (ct_EnableCollect t) then mret tt
  else
    r ← rpc (ExamineBrokerClusterInfo (ct_Admin t));
    match r with
    | inl _ => mret tt
    | inr ci =>
        forEach (λ '(_, bd),
          let masterAddr := masterOf bd in
          if String.eqb masterAddr "" then mret tt
          else
            putTps t masterAddr statsBrokerPutNums (bd_Cluster bd) (W_BrokerPutNums (bd_Cluster bd) masterAddr (bd_BrokerName bd));;
            putTps t masterAddr statsBrokerGetNums (bd_Cluster bd) (W_BrokerGetNums (bd_Cluster bd) masterAddr (bd_BrokerName bd)))
          (range (default ∅ (ci_BrokerAddrTable ci)))
    end.

Definition fetchRuntime (t : CollectTask) (addr : string) : prog taskE (option BrokerRuntimeStats) :=
  if String.eqb addr "" then mret None
  else
    r ← rpc (FetchBrokerRuntimeStats (ct_Admin t) addr);
    mret (match r with inr s => Some s | inl _ => None end).

Definition CollectBrokerGroupStats (t : CollectTask) : prog taskE unit :=
  if negb (ct_EnableCollect t) then mret tt
  else
    r ← rpc (ExamineBrokerClusterInfo (ct_Admin t));
    match r with
    | inl _ => mret tt
    | inr ci =>
        forEach (λ '(_, bd),
          let masterAddr := masterOf bd in
          forEach (λ '(brokerID, addr),
            if brokerID =? 0 then mret tt
            else
              slave ← fetchRuntime t addr;
              master ← fetchRuntime t masterAddr;
              let diff := match master, slave with
                          | Some m, Some s => floatOfZ (int64 (Model.CommitLogMaxOffset m - Model.CommitLogMaxOffset s))
                          | _, _ => fzero
                          end in
              emit (W_BrokerCommitLogDiff (bd_Cluster bd) addr (bd_BrokerName bd) diff)) (range (bd_BrokerAddrs bd)))
          (range (default ∅ (ci_BrokerAddrTable ci)))
    end.

Definition CollectBrokerRuntimeStats (t : CollectTask) : prog taskE unit :=
  if negb (ct_EnableCollect t) then mret tt
  else
    r ← rpc (ExamineBrokerClusterInfo (ct_Admin t));
    match r with
    | inl _ => mret tt
    | inr ci =>
        forEach (λ '(_, bd),
          let masterAddr := masterOf bd in
          r ← rpc (FetchBrokerRuntimeStats (ct_Admin t) masterAddr);
          match r with
          | inl _ => mret tt
          | inr stats => emit (W_BrokerRuntimeStats stats (bd_Cluster bd) masterAddr "")
          end) (range (default ∅ (ci_BrokerAddrTable ci)))
    end.

(** ** Client metrics *)

Definition NewClientMetricTask (t : CollectTask) (group : string) (cc : option ConsumerConnection) : prog taskE unit :=
  match cc with
  | None => mret tt
  | Some cc =>
      forEach (λ conn,
        r ← rpc (GetConsumerRunningInfo (ct_Admin t) group (cn_ClientId conn) false);
        match r with
        | inl _ => mret tt
        | inr cri =>
            forEach (λ '(topic, st),
              emit (W_ConsumerClientFailedMsgCounts group topic (cn_ClientAddr conn) (cn_ClientId conn) (rs_ConsumeFailedMsgs st));;
              emit (W_ConsumerClientFailedTPS group topic (cn_ClientAddr conn) (cn_ClientId conn) (rs_ConsumeFailedTPS st));;
              emit (W_ConsumerClientOKTPS group topic (cn_ClientAddr conn) (cn_ClientId conn) (rs_ConsumeOKTPS st));;
              emit (W_ConsumeRTMetric group topic (cn_ClientAddr conn) (cn_ClientId conn) (rs_ConsumeRT st));;
              emit (W_PullRT group topic (cn_ClientAddr conn) (cn_ClientId conn) (rs_PullRT st));;
              emit (W_PullTPS group topic (cn_ClientAddr conn) (cn_ClientId conn) (rs_PullTPS st)))
              (range (ri_StatusTable cri))
        end) (cc_ConnectionSet cc)
  end.
End tasks.
