(* ===== verification/Parallel.v ===== *)
(** * Running the parallel sections: [parallel] of internal/task/collect.go

    [parallel] starts one goroutine per item, at most [collectionConcurrency] at a
    time, and returns when all have finished.  A [pool] is a state of such a
    section; [pstep] interleaves the effects of the goroutines in any order, with
    any answers of the peers and the clock.  The theorems hold for every run. *)

From Stdlib Require Import ZArith Lia String.
From S2P Require Import Prelude GoStrings GoFloat Codec Util Effects Model Store Health Collector Service Task.

(** ** The state the goroutines share *)

Record shared : Type := mkShared {
  sh_coll : MetricsCollector;
  sh_log : list write;
  sh_clusterName : string;
  sh_claimed : gset string;
  sh_pairs : list topicGroup;
  sh_submitted : list (string * ConsumerConnection)
}.

(** One effect: its answer and the state after it.  [sh_log] is the history of
    the writes to the collector. *)
Definition handles {X} (e : taskE X) : shared → X → shared → Prop :=
  match e in taskE X return shared → X → shared → Prop with
  | Rpc _ _ => λ s _ s', s' = s
  | Put w => λ s _ s', ∃ clk, s' = mkShared (applyWrite clk w (sh_coll s)) (sh_log s ++ [w]) (sh_clusterName s)
                                  (sh_claimed s) (sh_pairs s) (sh_submitted s)
  | UnixMilli => λ s _ s', s' = s
  | GetClusterName => λ s name s', name = sh_clusterName s ∧ s' = s
  | SetClusterName name => λ s _ s', s' = mkShared (sh_coll s) (sh_log s) name (sh_claimed s) (sh_pairs s) (sh_submitted s)
  | ClaimGroup g => λ s first s', first = bool_decide (g ∉ sh_claimed s) ∧
      s' = mkShared (sh_coll s) (sh_log s) (sh_clusterName s) ({[g]} ∪ sh_claimed s) (sh_pairs s) (sh_submitted s)
  | AppendPairs ps => λ s _ s', s' = mkShared (sh_coll s) (sh_log s) (sh_clusterName s) (sh_claimed s) (sh_pairs s ++ ps) (sh_submitted s)
  | SubmitClient g cc => λ s _ s', s' = mkShared (sh_coll s) (sh_log s) (sh_clusterName s) (sh_claimed s) (sh_pairs s)
                                         (sh_submitted s ++ [(g, cc)])
  end.

(** ** A parallel section *)

Record pool : Type := mkPool {
  waiting : list (prog taskE unit);   (** items the loop has not reached *)
  active : list (prog taskE unit);    (** goroutines holding the semaphore *)
  sh : shared
}.

(** [ok e x]: the environment may answer the effect [e] with [x]. *)
Inductive pstep (ok : ∀ X, taskE X → X → Prop) (s : pool) : pool → Prop :=
| P_spawn p ps :
    waiting s = p :: ps → (length (active s) < collectionConcurrency)%nat →
    pstep ok s (mkPool ps (active s ++ [p]) (sh s))
| P_effect i X (e : taskE X) k x s' :
    active s !! i = Some (Vis e k) → ok X e x → handles e (sh s) x s' →
    pstep ok s (mkPool (waiting s) (<[i := k x]> (active s)) s')
| P_finish i :
    active s !! i = Some (Leaf (Ret tt)) →
    pstep ok s (mkPool (waiting s) (delete i (active s)) (sh s)).

Definition parallel (items : list (prog taskE unit)) (s : shared) : pool := mkPool items [] s.
Definition finished (s : pool) : Prop := waiting s = [] ∧ active s = [].

(** A goroutine that panicked ends the process. *)
Definition crashed (s : pool) : Prop := ∃ i msg, active s !! i = Some (Leaf (Panic msg)).

(** ** Termination *)

(** What is left of a program after its next effect. *)
Definition child (p q : prog taskE unit) : Prop :=
  match p with Leaf _ => False | Vis e k => ∃ x, q = k x end.

(** One goroutine moves or ends. *)
Inductive astep (l : list (prog taskE unit)) : list (prog taskE unit) → Prop :=
| A_effect i p q : l !! i = Some p → child p q → astep l (<[i := q]> l)
| A_finish i p : l !! i = Some p → astep l (delete i l).

Lemma astep_cons_inv p l l' : astep (p :: l) l' →
  (∃ q, child p q ∧ l' = q :: l) ∨ l' = l ∨ (∃ l'', astep l l'' ∧ l' = p :: l'').
Proof.
  inversion 1 as [i p' q Hi Hc|i p' Hi]; subst; destruct i as [|i]; simpl in *.
  - injection Hi as ->. left. by exists q.
  - right; right. exists (<[i:=q]> l). split; [by econstructor|done].
  - by right; left.
  - right; right. exists (delete i l). split; [by econstructor|done].
Qed.

Lemma astep_cons_acc p l : Acc (flip astep) l → Acc (flip astep) (p :: l).
Proof.
  revert l. induction p as [r|X e k IH]; intros l Hl; induction Hl as [l Hl IHl];
    constructor; intros l' Hs; apply astep_cons_inv in Hs as [(q & Hc & ->)|[->|(l'' & Hs & ->)]].
  - destruct Hc.
  - constructor. exact Hl.
  - exact (IHl l'' Hs).
  - destruct Hc as [x ->]. apply IH. constructor. exact Hl.
  - constructor. exact Hl.
  - exact (IHl l'' Hs).
Qed.

Lemma astep_acc l : Acc (flip astep) l.
Proof.
  induction l as [|p l IH]; [|by apply astep_cons_acc].
  constructor. intros l' Hl. inversion Hl; done.
Qed.

Lemma pool_acc ok ws l s : Acc (flip (pstep ok)) (mkPool ws l s).
Proof.
  revert l s. induction ws as [|p ws IH]; intros l s; revert s;
    induction (astep_acc l) as [l _ IHl]; intros s; constructor;
    intros s' Hs; inversion Hs as [p' ps Hw Hlen|i X e k x s1 Hi Hok Hh|i Hi]; simpl in *; subst; simplify_eq.
  - apply IHl. econstructor; [exact Hi|]. by exists x.
  - apply IHl. by econstructor.
  - apply IH.
  - apply IHl. econstructor; [exact Hi|]. by exists x.
  - apply IHl. by econstructor.
Qed.

(** A goroutine body handles its errors: no leaf carries one. *)
Fixpoint no_fail {E A} (p : prog E A) : Prop :=
  match p with
  | Leaf (Fail _) => False
  | Leaf _ => True
  | Vis e k => ∀ x, no_fail (k x)
  end.

Lemma no_fail_bind {E A B} (p : prog E A) (f : A → prog E B) :
  no_fail p → (∀ x, no_fail (f x)) → no_fail (p ≫= f).
Proof. intros Hp Hf. induction p as [[]|X e k IH]; [apply Hf|done..|]. intros x. apply IH, Hp. Qed.

Lemma no_fail_attempt {E A} (p : prog E A) : no_fail (attempt p).
Proof. induction p as [[]|X e k IH]; [done..|]. exact IH. Qed.

Lemma no_fail_forEach {E A} (f : A → prog E unit) l : (∀ x, no_fail (f x)) → no_fail (forEach f l).
Proof. intros Hf. induction l as [|x l IH]; [done|]. apply no_fail_bind; [apply Hf|by intros]. Qed.

Lemma no_fail_foldProg {E A B} (f : B → A → prog E B) b l : (∀ b x, no_fail (f b x)) → no_fail (foldProg f b l).
Proof.
  intros Hf. revert b. induction l as [|x l IH]; intros b; [done|]. apply no_fail_bind; [apply Hf|apply IH].
Qed.

Lemma no_fail_translate {E F : Type → Type} (h : ∀ X, E X → F X) {A} (p : prog E A) :
  no_fail p → no_fail (translate h p).
Proof. induction p as [r|X e k IH]; [done|]. intros Hp x. apply IH, Hp. Qed.

(** Walk through a program by its binds, loops and matches. *)
Ltac walk_nofail :=
  repeat first
    [ exact I
    | progress intros
    | apply no_fail_attempt
    | apply no_fail_forEach
    | apply no_fail_foldProg
    | match goal with
      | |- no_fail (_ ≫= _) => apply no_fail_bind
      | |- no_fail (match ?x with _ => _ end) => destruct x
      | |- no_fail (if ?b then _ else _) => destruct b
      | |- no_fail (let '_ := ?x in _) => destruct x
      | |- no_fail (mret _) => exact I
      | |- no_fail (trigger _) => intros ?; exact I
      | |- no_fail (emit _) => intros ?; exact I
      end ].

Section bodies.
Context `{GR : GoRange} `{JL : JsonLib}.

Lemma no_fail_connection a g : no_fail (ExamineConsumerConnectionInfo a g).
Proof. unfold ExamineConsumerConnectionInfo. walk_nofail. Qed.

Lemma no_fail_putTps t addr n k w : no_fail (putTps t addr n k w).
Proof.
  unfold putTps, minuteStats. walk_nofail. unfold GetFixedDouble. by destruct (ratOf _) as [[]|]; [destruct (hundredths _ _)|].
Qed.

Lemma no_fail_putSum t addr n k w : no_fail (putSum t addr n k w).
Proof. unfold putSum, minuteStats. walk_nofail. Qed.

Lemma no_fail_topicOffsetBody t cl topic : no_fail (topicOffsetBody t cl topic).
Proof. unfold topicOffsetBody. walk_nofail. Qed.

Lemma no_fail_enumerateBody t topic : no_fail (enumerateBody t topic).
Proof. unfold enumerateBody. walk_nofail. Qed.

Lemma no_fail_brokerStatsBody t ci topic : no_fail (brokerStatsBody t ci topic).
Proof.
  unfold brokerStatsBody. walk_nofail; cbv zeta; walk_nofail; first [apply no_fail_putTps | apply no_fail_putSum].
Qed.

Lemma no_fail_queueLag t addr e : no_fail (queueLag t addr e).
Proof. unfold queueLag. walk_nofail. Qed.

Lemma no_fail_latencyLoop t addrs m es : no_fail (latencyLoop t addrs m es).
Proof.
  revert m. induction es as [|e es IH]; intros m; [done|]. cbn [latencyLoop]. cbv zeta.
  destruct (String.eqb _ _); [apply IH|]. apply no_fail_bind; [apply no_fail_queueLag|]. by intros [].
Qed.

Lemma no_fail_groupBody t cl addrs p : no_fail (groupBody t cl addrs p).
Proof.
  unfold groupBody. cbv zeta. apply no_fail_bind; [apply no_fail_translate, no_fail_connection|]. intros [cc err].
  apply no_fail_bind.
  - unfold groupOnline. cbv zeta. walk_nofail.
  - intros _. unfold groupStats. walk_nofail; cbv zeta; walk_nofail. apply no_fail_latencyLoop.
Qed.

(** The bodies the tasks hand to [parallel]. *)
Inductive taskBody : prog taskE unit → Prop :=
| B_topicOffset t cl topic : taskBody (topicOffsetBody t cl topic)
| B_enumerate t topic : taskBody (enumerateBody t topic)
| B_group t cl addrs p : taskBody (groupBody t cl addrs p)
| B_brokerStats t ci topic : taskBody (brokerStatsBody t ci topic).

Lemma taskBody_no_fail p : taskBody p → no_fail p.
Proof.
  destruct 1; [apply no_fail_topicOffsetBody|apply no_fail_enumerateBody|apply no_fail_groupBody|apply no_fail_brokerStatsBody].
Qed.
End bodies.

(** ** A section completes *)

Definition bounded (s : pool) : Prop :=
  (length (active s) ≤ collectionConcurrency)%nat ∧ Forall no_fail (waiting s) ∧ Forall no_fail (active s).

Lemma bounded_step ok s s' : bounded s → pstep ok s s' → bounded s'.
Proof.
  intros (Hl & Hw & Ha) Hs. inversion Hs as [p ps Hp Hlen|i X e k x s1 Hi Hok Hh|i Hi]; subst; simpl.
  - rewrite Hp in Hw. apply Forall_cons in Hw as [Hp' Hw]. split_and!; simpl.
    + rewrite length_app. simpl. lia.
    + done.
    + apply Forall_app. by split; [|constructor].
  - split_and!; simpl; [by rewrite length_insert|done|]. apply Forall_insert; [done|].
    apply (proj1 (Forall_lookup _ _) Ha i _ Hi).
  - split_and!; simpl; [|done|by apply Forall_delete].
    rewrite length_delete by (rewrite Hi; eauto). lia.
Qed.

(** ** The collector stays reachable *)

Lemma applyWrite_cstep `{GR : GoRange} clk w c : cstep c (applyWrite clk w c).
Proof. destruct w; constructor. Qed.

Lemma handles_reachable `{GR : GoRange} T X (e : taskE X) s x s' :
  collector_reachable T (sh_coll s) → handles e s x s' → collector_reachable T (sh_coll s').
Proof.
  intros Hr. destruct e; simpl; try (by intros ->); try (by intros [_ ->]).
  intros [clk ->]. simpl. eapply rtc_r; [exact Hr|apply applyWrite_cstep].
Qed.

(** Whatever the interleaving of a parallel section and the answers of the
    peers, the collector its goroutines write to stays in a state reachable by
    its own operations, so that every scrape during or after the section returns
    the 94 families with distinct series. *)
Theorem parallel_collector_reachable `{GR : GoRange} T ok items s0 s :
  collector_reachable T (sh_coll s0) → rtc (pstep ok) (parallel items s0) s → collector_reachable T (sh_coll (sh s)).
Proof.
  intros H0 Hr.
  refine (rtc_invariant (pstep ok) (λ s, collector_reachable T (sh_coll (sh s))) _ _ _ Hr H0).
  intros s1 s2 H1 Hs. inversion Hs; subst; simpl; [done| |done]. by eapply handles_reachable.
Qed.

(** ** One client-metric task per group *)

(** The group a goroutine has claimed and not yet submitted.  A program that
    starts with [held] claims only when it holds nothing, submits only the group
    it holds, and ends with nothing held. *)
Fixpoint disciplined {A} (held : option string) (p : prog taskE A) : Prop :=
  match p with
  | Leaf _ => held = None
  | Vis e k =>
      match e in taskE X return (X → prog taskE A) → Prop with
      | ClaimGroup g => λ k, held = None ∧ disciplined (Some g) (k true) ∧ disciplined None (k false)
      | SubmitClient g cc => λ k, held = Some g ∧ disciplined None (k tt)
      | _ => λ k, ∀ x, disciplined held (k x)
      end k
  end.

Lemma disciplined_bind {A B} h (p : prog taskE A) (f : A → prog taskE B) :
  disciplined h p → (∀ x, disciplined None (f x)) → disciplined h (p ≫= f).
Proof.
  intros Hp Hf. revert h Hp. induction p as [r|X e k IH]; intros h Hp.
  - simpl in Hp. subst. by destruct r; [apply Hf|..].
  - destruct e; try (intros x; by apply IH).
    + destruct Hp as (? & ? & ?). split_and!; [done|by apply IH..].
    + destruct Hp as [? ?]. split; [done|by apply IH].
Qed.

(** Effects other than claiming and submitting. *)
Definition plain (X : Type) (e : taskE X) : Prop :=
  match e with ClaimGroup _ | SubmitClient _ _ => False | _ => True end.

Lemma disciplined_plain {A} (p : prog taskE A) : all_events plain p → disciplined None p.
Proof.
  induction p as [r|X e k IH]; [done|]. intros [He Hk]. destruct e; try destruct He; intros x; by apply IH.
Qed.

Lemma plain_lift {A} (p : prog rpcE A) : all_events plain (lift p).
Proof. apply all_events_translate. induction p as [r|X e k IH]; [done|]. by split. Qed.

Section once.
Context `{GR : GoRange} `{JL : JsonLib}.

Lemma plain_rpc {A} (p : prog rpcE A) : all_events plain (rpc p).
Proof. apply all_events_attempt, plain_lift. Qed.

Lemma plain_queueLag t addr e : all_events plain (queueLag t addr e).
Proof.
  apply all_events_bind; [apply plain_rpc|]. intros [err|pr]; [done|].
  destruct (String.eqb _ _); [by split|]. destruct (String.eqb _ _); [|done].
  apply all_events_bind; [apply plain_rpc|]. intros [err|pr2]; [done|]. destruct (String.eqb _ _); [by split|done].
Qed.

Lemma plain_latencyLoop t addrs m es : all_events plain (latencyLoop t addrs m es).
Proof.
  revert m. induction es as [|e es IH]; intros m; [done|]. cbn [latencyLoop]. cbv zeta.
  destruct (String.eqb _ _); [apply IH|]. apply all_events_bind; [apply plain_queueLag|].
  intros [lag|]; [apply IH|done].
Qed.

Lemma plain_emits {A} (f : A → write) l : all_events plain (forEach (λ x, emit (f x)) l).
Proof. apply all_events_forEach. intros x. by split. Qed.

Lemma plain_groupStats t cl addrs topic group cc n : all_events plain (groupStats t cl addrs topic group cc n).
Proof.
  apply all_events_bind; [apply plain_rpc|]. intros [err|cs]; [done|].
  apply all_events_bind; [apply all_events_attempt; done|]. intros [err|[|e es]]; [done..|].
  apply all_events_bind; [apply all_events_attempt; done|]. intros d. cbv zeta.
  apply all_events_bind; [by split|]. intros _.
  apply all_events_bind; [apply all_events_forEach; intros []; by split|]. intros _.
  apply all_events_bind; [apply plain_latencyLoop|]. intros [m|]; [|done].
  apply all_events_forEach. intros []. by split.
Qed.

Lemma disciplined_groupOnline t group cc n : (cc = None → n ≤ 0) → disciplined None (groupOnline t group cc n).
Proof.
  intros Hn. unfold groupOnline. cbv zeta. destruct (if 0 <? n then _ else _) as [ca la].
  apply disciplined_bind; [by intros x|]. intros _. destruct (Z.ltb_spec 0 n); [|done].
  split_and!; [done| |done]. destruct cc; [by split|]. specialize (Hn eq_refl). lia.
Qed.

Lemma disciplined_groupBody t cl addrs p : disciplined None (groupBody t cl addrs p).
Proof.
  unfold groupBody. cbv zeta. apply disciplined_bind; [apply disciplined_plain, plain_lift|]. intros [cc err].
  apply disciplined_bind; [|intros _; apply disciplined_plain, plain_groupStats].
  apply disciplined_groupOnline. intros ->. by destruct err.
Qed.
End once.

(** The groups claimed and not yet submitted. *)
Definition tokens (hs : list (option string)) : list string := hs ≫= option_list.

(** The submissions since the section began, after [pre]. *)
Definition once_inv (pre : list (string * ConsumerConnection)) (s : pool) : Prop :=
  ∃ hs new, sh_submitted (sh s) = pre ++ new ∧ Forall2 disciplined hs (active s) ∧ Forall (disciplined None) (waiting s) ∧
    NoDup (tokens hs ++ new.*1) ∧ ∀ g, g ∈ sh_claimed (sh s) ↔ g ∈ tokens hs ++ new.*1.

(** One effect of a goroutine that holds [h] leaves it with some [h'] and keeps
    tokens and submissions in step. *)
Lemma disciplined_effect X (e : taskE X) (k : X → prog taskE unit) x s s' h hs i pre new :
  hs !! i = Some h → disciplined h (Vis e k) → handles e s x s' → sh_submitted s = pre ++ new →
  NoDup (tokens hs ++ new.*1) → (∀ g, g ∈ sh_claimed s ↔ g ∈ tokens hs ++ new.*1) →
  ∃ h' new', disciplined h' (k x) ∧ sh_submitted s' = pre ++ new' ∧
    NoDup (tokens (<[i := h']> hs) ++ new'.*1) ∧
    ∀ g, g ∈ sh_claimed s' ↔ g ∈ tokens (<[i := h']> hs) ++ new'.*1.
Proof.
  intros Hi Hd Hh Hsub Hnd Hcl.
  assert (∀ h', tokens (<[i := h']> hs) ++ option_list h ≡ₚ tokens hs ++ option_list h') as Hp
    by (intros h'; by apply bind_insert_perm).
  destruct e as [X e|w| | |n|g|ps|g cc]; simpl in Hh;
    try (exists h, new; rewrite list_insert_id by done; split; [apply Hd|];
         first [by subst | destruct Hh as [? ->]; by simpl | by destruct Hh as [-> ->]]).
  - destruct Hd as (-> & Ht & Hf), Hh as [-> ->]. simpl. case_bool_decide as Hg.
    + exists (Some g), new. specialize (Hp (Some g)). rewrite app_nil_r in Hp. simpl in Hp. split; [done|]. split; [done|].
      rewrite Hcl in Hg. setoid_rewrite Hp. split.
      * rewrite <- app_assoc. simpl. rewrite <- Permutation_middle. by constructor.
      * intros g'. rewrite elem_of_union, elem_of_singleton, Hcl, !elem_of_app, list_elem_of_singleton. tauto.
    + exists None, new. rewrite list_insert_id by done. split; [done|]. split; [done|]. split; [done|].
      intros g'. rewrite elem_of_union, elem_of_singleton, Hcl. split; [|by right]. intros [->|?]; [|done].
      by apply Hcl.
  - destruct Hd as [-> Hk]. subst s'. simpl. exists None, (new ++ [(g, cc)]). specialize (Hp None).
    rewrite app_nil_r in Hp. simpl in Hp. destruct x. split; [done|]. split; [by rewrite Hsub, app_assoc|].
    rewrite fmap_app. simpl.
    assert (tokens (<[i:=None]> hs) ++ new.*1 ++ [g] ≡ₚ tokens hs ++ new.*1) as Hq.
    { rewrite <- Hp. rewrite <- !app_assoc. apply Permutation_app_head, Permutation_app_comm. }
    rewrite Hq. split; [done|]. intros g'. by rewrite Hq.
Qed.

Lemma once_step ok pre s s' : once_inv pre s → pstep ok s s' → once_inv pre s'.
Proof.
  intros (hs & new & Hsub & Ha & Hw & Hnd & Hcl) Hs. inversion Hs as [p ps Hp Hlen|i X e k x s1 Hi Hok Hh|i Hi]; subst; simpl.
  - rewrite Hp in Hw. apply Forall_cons in Hw as [Hp' Hw]. exists (hs ++ [None]), new. simpl.
    unfold tokens. rewrite bind_app. simpl. rewrite app_nil_r. split_and!; try done.
    apply Forall2_app; [done|]. by constructor.
  - destruct (Forall2_lookup_r _ _ _ _ _ Ha Hi) as (h & Hhs & Hd).
    destruct (disciplined_effect X e k x (sh s) s1 h hs i pre new Hhs Hd Hh Hsub Hnd Hcl) as (h' & new' & Hk & Hs' & Hnd' & Hcl').
    exists (<[i := h']> hs), new'. split_and!; try done. by apply Forall2_insert.
  - destruct (Forall2_lookup_r _ _ _ _ _ Ha Hi) as (h & Hhs & Hd). simpl in Hd. subst h.
    exists (delete i hs), new. unfold tokens. rewrite (bind_delete_nil _ hs i None) by done. split_and!; try done. by apply Forall2_delete.
Qed.

(** In every interleaving of the second pass of [CollectConsumerOffset], with any
    answers, a group's client-metric task is submitted at most once, however many
    topics the group consumes, and when the pass is over the groups submitted are
    those that were claimed. *)
Lemma client_metric_once `{GR : GoRange} `{JL : JsonLib} ok t cl addrs pairs s0 s :
  sh_claimed s0 = ∅ → rtc (pstep ok) (parallel (consumerOffsetPass2 t cl addrs pairs) s0) s →
  ∃ new, sh_submitted (sh s) = sh_submitted s0 ++ new ∧ NoDup new.*1 ∧
    (finished s → ∀ g, g ∈ sh_claimed (sh s) ↔ g ∈ new.*1).
Proof.
  intros Hc Hr. assert (once_inv (sh_submitted s0) s) as (hs & new & Hsub & Ha & _ & Hnd & Hcl).
  { eapply rtc_invariant; [intros s1 s2; apply once_step|exact Hr|]. exists [], []. simpl. rewrite Hc, app_nil_r.
    split_and!; [done|constructor| |constructor|set_solver].
    apply Forall_fmap, Forall_true. intros p. apply disciplined_groupBody. }
  apply NoDup_app in Hnd as (_ & _ & Hnd). exists new. split_and!; [done|done|].
  intros [_ He] g. rewrite He in Ha. apply Forall2_nil_inv_r in Ha as ->. apply Hcl.
Qed.

(** A section of programs that neither claim nor submit. *)
Lemma plain_section ok items s0 s :
  Forall (all_events plain) items → rtc (pstep ok) (parallel items s0) s →
  sh_claimed (sh s) = sh_claimed s0 ∧ sh_submitted (sh s) = sh_submitted s0.
Proof.
  intros Hi Hr.
  set (inv s := Forall (all_events plain) (active s ++ waiting s) ∧
    sh_claimed (sh s) = sh_claimed s0 ∧ sh_submitted (sh s) = sh_submitted s0).
  assert (inv s) as [_ H]; [|exact H].
  refine (rtc_invariant (pstep ok) inv _ _ _ Hr (conj Hi (conj eq_refl eq_refl))).
  intros s1 s2 (Ha & Hc & Hsub) Hs. inversion Hs as [p ps Hp Hlen|i X e k x s3 Hl Hok Hh|i Hl]; subst; unfold inv; simpl.
  - rewrite <- app_assoc. simpl. by rewrite <- Hp.
  - apply Forall_app in Ha as [Ha Hw]. pose proof (proj1 (Forall_lookup _ _) Ha i _ Hl) as [He Hk].
    split; [apply Forall_app; split; [by apply Forall_insert|done]|]. rewrite <- Hc, <- Hsub.
    destruct e; try destruct He; simpl in Hh; try (by subst); try (by destruct Hh as [? ->]).
  - apply Forall_app in Ha as [Ha Hw]. split; [|done]. apply Forall_app. split; [by apply Forall_delete|done].
Qed.

(** *** Groups that are claimed for sure *)

Definition claimsNow (g : string) (X : Type) (e : taskE X) : Prop :=
  match e with ClaimGroup g' => g' = g | _ => False end.

(** Whatever the answers, the program claims [g]. *)
Fixpoint mustClaim (ok : ∀ X, taskE X → X → Prop) (g : string) {A} (p : prog taskE A) : Prop :=
  match p with
  | Leaf _ => False
  | Vis e k => claimsNow g _ e ∨ ∀ x, ok _ e x → mustClaim ok g (k x)
  end.

Lemma mustClaim_bind ok g {A B} (p : prog taskE A) (f : A → prog taskE B) : mustClaim ok g p → mustClaim ok g (p ≫= f).
Proof. induction p as [r|X e k IH]; [done|]. intros [H|H]; [by left|right]. intros x Hx. by apply IH, H. Qed.

Definition claim_inv (ok : ∀ X, taskE X → X → Prop) (g : string) (s : pool) : Prop :=
  g ∈ sh_claimed (sh s) ∨ ∃ p, p ∈ active s ++ waiting s ∧ mustClaim ok g p.

Lemma claimed_mono X (e : taskE X) s x s' : handles e s x s' → sh_claimed s ⊆ sh_claimed s'.
Proof. destruct e; simpl; try (by intros ->); try (by intros [_ ->]); [by intros [clk ->]|intros [_ ->]; set_solver]. Qed.

Lemma claim_step ok g s s' : claim_inv ok g s → pstep ok s s' → claim_inv ok g s'.
Proof.
  intros Hi Hs. inversion Hs as [p ps Hp Hlen|i X e k x s1 Hl Hok Hh|i Hl]; subst; destruct Hi as [Hi|(q & Hq & Hc)];
    try (by left).
  - right. exists q. split; [|done]. simpl. rewrite Hp in Hq. by rewrite <- app_assoc.
  - left. by apply (claimed_mono _ _ _ _ _ Hh).
  - apply elem_of_app in Hq as [[j Hj]%list_elem_of_lookup|Hq];
      [|right; exists q; split; [apply elem_of_app; by right|done]].
    destruct (decide (i = j)) as [->|Hne].
    + simplify_eq. destruct Hc as [Hc|Hc].
      * left. destruct e; try done. simpl in *. subst. destruct Hh as [_ ->]. simpl. set_solver.
      * right. exists (k x). split; [|by apply Hc]. apply elem_of_app. left. simpl.
        apply (list_elem_of_lookup_2 _ j). apply list_lookup_insert_eq. by eapply lookup_lt_Some.
    + right. exists q. split; [|done]. apply elem_of_app. left. simpl.
      apply (list_elem_of_lookup_2 _ j). by rewrite list_lookup_insert_ne.
  - right. exists q. split; [|done]. apply elem_of_app in Hq as [Hq|Hq]; apply elem_of_app; [left|by right]. simpl.
    rewrite <- (take_drop_middle (active s) i _ Hl) in Hq. rewrite delete_take_drop.
    apply elem_of_app in Hq as [Hq|[->|Hq]%elem_of_cons]; apply elem_of_app; [by left|done|by right].
Qed.

(** A section with a goroutine that claims the group for sure has claimed it at its
    end. *)
Lemma parallel_claims ok g items s0 s p :
  p ∈ items → mustClaim ok g p → rtc (pstep ok) (parallel items s0) s → finished s → g ∈ sh_claimed (sh s).
Proof.
  intros Hp Hc Hr [Hw Ha]. assert (claim_inv ok g s) as [H|(q & Hq & _)].
  - eapply rtc_invariant; [intros s1 s2; apply claim_step|exact Hr|]. right. exists p. by split.
  - done.
  - rewrite Hw, Ha in Hq. by apply elem_of_nil in Hq.
Qed.

(** ** Peers that are functions *)

(** The readings of [time.Now().UnixMilli()] a run may make; there is one at least. *)
Class Readings : Type := { reading : Z → Prop; someReading : Z; someReading_ok : reading someReading }.

(** The peers are [net], the clock is within the readings; identifiers are
    arbitrary. *)
Definition from `{RD : Readings} (net : network) (X : Type) (e : taskE X) : X → Prop :=
  match e in taskE X return X → Prop with
  | Rpc _ r => match r in rpcE X return X → Prop with
               | InvokeSync addr cmd => λ x, x = net addr cmd
               | AddOpaque => λ _, True
               end
  | UnixMilli => reading
  | _ => λ _, True
  end.

Lemma delete_app_left {A} (l1 l2 : list A) i : (i < length l1)%nat → delete i (l1 ++ l2) = delete i l1 ++ l2.
Proof.
  revert i. induction l1 as [|x l1 IH]; intros [|i] Hi; simpl in *; [lia..|done|]. f_equal. apply IH. lia.
Qed.

(** ** A section with a clock *)

(** A step whose clock readings are in the window. *)
Definition tstep (ok : ∀ X, taskE X → X → Prop) (lo hi : Z) (s s' : pool) : Prop :=
  pstep ok s s' ∧
  ((sh_coll (sh s') = sh_coll (sh s) ∧ sh_log (sh s') = sh_log (sh s)) ∨
   ∃ clk w, (∀ i, lo ≤ clk i ≤ hi) ∧ sh_log (sh s') = sh_log (sh s) ++ [w]
     ∧ sh_coll (sh s') = applyWrite clk w (sh_coll (sh s))).

Lemma tstep_pstep ok lo hi s s' : rtc (tstep ok lo hi) s s' → rtc (pstep ok) s s'.
Proof. induction 1 as [|s s1 s2 [H _] _ IH]; [constructor|]. by eapply rtc_l. Qed.

(** ** One goroutine after the other *)

Section sequential.
Context `{RD : Readings}.

(** Running the items in order is one of the interleavings. *)
Definition seqHandler (net : network) {X} (e : taskE X) : shared → X * shared :=
  match e in taskE X return shared → X * shared with
  | Rpc _ r => λ s, (match r in rpcE X return X with AddOpaque => 0 | InvokeSync addr cmd => net addr cmd end, s)
  | Put w => λ s, (tt, mkShared (applyWrite (λ _, 0) w (sh_coll s)) (sh_log s ++ [w]) (sh_clusterName s)
                         (sh_claimed s) (sh_pairs s) (sh_submitted s))
  | UnixMilli => λ s, (someReading, s)
  | GetClusterName => λ s, (sh_clusterName s, s)
  | SetClusterName n => λ s, (tt, mkShared (sh_coll s) (sh_log s) n (sh_claimed s) (sh_pairs s) (sh_submitted s))
  | ClaimGroup g => λ s, (bool_decide (g ∉ sh_claimed s),
      mkShared (sh_coll s) (sh_log s) (sh_clusterName s) ({[g]} ∪ sh_claimed s) (sh_pairs s) (sh_submitted s))
  | AppendPairs ps => λ s, (tt, mkShared (sh_coll s) (sh_log s) (sh_clusterName s) (sh_claimed s) (sh_pairs s ++ ps) (sh_submitted s))
  | SubmitClient g cc => λ s, (tt, mkShared (sh_coll s) (sh_log s) (sh_clusterName s) (sh_claimed s) (sh_pairs s)
                                     (sh_submitted s ++ [(g, cc)]))
  end.

Lemma seqHandler_ok net X (e : taskE X) s x s' :
  seqHandler net e s = (x, s') → handles e s x s' ∧ from net X e x.
Proof.
  destruct e as [X r|w| | |n|g|ps|g cc]; simpl; intros [= <- <-]; try done.
  - by destruct r.
  - split; [|done]. by exists (λ _, 0).
  - split; [done|]. apply someReading_ok.
Qed.

Lemma seqHandler_timed net X (e : taskE X) s x s' :
  seqHandler net e s = (x, s') →
  (sh_coll s' = sh_coll s ∧ sh_log s' = sh_log s) ∨
  ∃ clk w, (∀ i, 0 ≤ clk i ≤ 0) ∧ sh_log s' = sh_log s ++ [w] ∧ sh_coll s' = applyWrite clk w (sh_coll s).
Proof.
  destruct e as [X r|w| | |n|g|ps|g cc]; simpl; intros [= <- <-]; try (by left).
  right. exists (λ _, 0), w. by split.
Qed.

Lemma seq_thread net ws p s s' :
  run (@seqHandler net) p s = (Ret tt, s') → rtc (tstep (from net) 0 0) (mkPool ws [p] s) (mkPool ws [] s').
Proof.
  revert s. induction p as [r|X e k IH]; intros s Hr; simpl in Hr.
  - simplify_eq. apply rtc_once. split; [|by left]. by apply (P_finish _ (mkPool ws [Leaf (Ret tt)] s') 0).
  - destruct (seqHandler net e s) as [x s1] eqn:E. pose proof (seqHandler_timed _ _ _ _ _ _ E) as Ht.
    apply seqHandler_ok in E as [Hh Hok].
    eapply rtc_l; [|by apply IH]. split; [|exact Ht]. by apply (P_effect _ (mkPool ws [Vis e k] s) 0 X e k x s1).
Qed.

Fixpoint seqAll (net : network) (items : list (prog taskE unit)) (s : shared) : option shared :=
  match items with
  | [] => Some s
  | p :: items' => match run (@seqHandler net) p s with (Ret tt, s') => seqAll net items' s' | _ => None end
  end.

Lemma seqAll_run net items s s' :
  seqAll net items s = Some s' → rtc (tstep (from net) 0 0) (parallel items s) (mkPool [] [] s').
Proof.
  revert s. induction items as [|p items IH]; intros s Hs; simpl in Hs; [by simplify_eq|].
  destruct (run (@seqHandler net) p s) as [[[]|e|msg] s1] eqn:E; try done.
  eapply rtc_l; [split; [apply (P_spawn _ (parallel (p :: items) s) p items); [done|unfold collectionConcurrency; simpl; lia]|by left]|].
  etransitivity; [apply (seq_thread net items p s s1 E)|]. by apply IH.
Qed.

(** The end of a sequential run that completes. *)
Lemma seqAll_timed net items s d :
  is_Some (seqAll net items s) →
  rtc (tstep (from net) 0 0) (parallel items s) (mkPool [] [] (default d (seqAll net items s))).
Proof. intros [s' Hs]. rewrite Hs. by apply seqAll_run. Qed.

Lemma seqAll_end net items s d :
  is_Some (seqAll net items s) →
  rtc (pstep (from net)) (parallel items s) (mkPool [] [] (default d (seqAll net items s))).
Proof. intros Hs. eapply tstep_pstep, seqAll_timed, Hs. Qed.
End sequential.

(** ** Witnesses *)

(** A clock that stands still. *)
Definition demo_readings : Readings := {| reading := λ x, x = 1000; someReading := 1000; someReading_ok := eq_refl |}.
#[local] Existing Instance demo_readings.

Definition demoTask : CollectTask := mkTask (NewAdminClient "namesrv:9876" false "" "" 5000) true.
Definition demoShared : shared := mkShared (NewWithClock 60) [] "" ∅ [] [].
#[local] Instance demo_goRange : GoRange := std_goRange.
#[local] Existing Instance demoJson.

Definition offset_items : list (prog taskE unit) := topicOffsetBody demoTask "c" <$> ["T1"; "T2"].
Definition offset_end : shared := default demoShared (seqAll demoNet offset_items demoShared).

Definition completed {A} (o : option A) : bool := match o with Some _ => true | None => false end.
Lemma completed_is_Some {A} (o : option A) : completed o = true → is_Some o.
Proof. destruct o; [eauto|done]. Qed.

Lemma offset_run : is_Some (seqAll demoNet offset_items demoShared).
Proof. apply completed_is_Some. vm_compute. reflexivity. Qed.

(** Two topics of one group: the second goroutine does not submit again. *)
Definition group_items : list (prog taskE unit) :=
  consumerOffsetPass2 demoTask "c" ∅ [mkTopicGroup "T1" "g"; mkTopicGroup "T2" "g"; mkTopicGroup "T1" "h"].
Definition group_end : shared := default demoShared (seqAll demoNet group_items demoShared).

Lemma group_run : is_Some (seqAll demoNet group_items demoShared).
Proof. apply completed_is_Some. vm_compute. reflexivity. Qed.

Lemma parallel_collector_reachable_witness : collector_reachable 60 (sh_coll group_end).
Proof.
  apply (parallel_collector_reachable 60 (from demoNet) group_items demoShared (mkPool [] [] group_end)).
  - apply rtc_refl.
  - apply (seqAll_end (RD := demo_readings) demoNet group_items demoShared demoShared), group_run.
Defined.
