(* ===== verification/Wire.v ===== *)
(** * The admin client over the wire

    Service sees a call to a broker as one effect with any answer; here the
    effect is [InvokeSync] of rmqremote/remote_client.go, which takes a pooled
    connection or dials one, writes a frame, reads a frame and puts the
    connection back.  [world] is the other end: peers that answer each request
    frame with a frame, over connections that may have gone stale while they
    were in the pool.  Concurrent callers do not share a connection (shown in
    RemotingClient), so one caller at a time is enough. *)

From Stdlib Require Import ZArith Lia String.
From S2P Require Import Prelude GoStrings Codec Effects RemotingClient Service.

(** ** The client *)

Inductive wireE : Type → Type :=
| NextOpaque : wireE Z
| TakeConn (addr : string) : wireE (option nat)
| PutConn (addr : string) (cid : nat) : wireE unit
| DialContext (addr : string) : wireE (error + nat)
| ConnWrite (cid : nat) (b : bytes) : wireE (option error)
| ConnRead (cid n : nat) : wireE (outcome bytes)
| ConnClose (cid : nat) : wireE unit.

Section client.
Context (js rs : serializer) (codecType : Z).

Definition exchange (addr : string) (cid : nat) (enc : bytes) : prog wireE RemotingCommand :=
  werr ← trigger (ConnWrite cid enc);
  match werr with
  | Some e => Leaf (Fail (EWrap "remoting write %s: %w" [addr] e))
  | None =>
      r ← trigger (ConnRead cid 4);
      word ← Leaf (wrapErr "remoting read length %s: %w" [addr] r);
      let length := get_int word in
      if decide (length ≤ 0)
      then Leaf (Fail (EMsg "remoting %s: non-positive response length %d" [addr; FormatInt length]))
      else
        n ← Leaf (makeLen length);
        r ← trigger (ConnRead cid n);
        payload ← Leaf (wrapErr "remoting read payload %s: %w" [addr] r);
        Leaf (wrapErr "remoting decode %s: %w" [addr] (decode js rs payload))
  end.

(** The part of [InvokeSync] that tries a pooled connection. *)
Definition tryPooled (addr : string) (enc : bytes) : prog wireE (option RemotingCommand) :=
  conn ← trigger (TakeConn addr);
  match conn with
  | None => mret None
  | Some cid =>
      r ← attempt (exchange addr cid enc);
      match r with
      | inr resp => trigger (PutConn addr cid);; mret (Some resp)
      | inl _ => trigger (ConnClose cid);; mret None
      end
  end.

(** The part that dials. *)
Definition freshDial (addr : string) (enc : bytes) : prog wireE RemotingCommand :=
  d ← trigger (DialContext addr);
  match d with
  | inl e => Leaf (Fail (EWrap "remoting dial %s: %w" [addr] e))
  | inr cid =>
      r ← attempt (exchange addr cid enc);
      match r with
      | inl e => trigger (ConnClose cid);; Leaf (Fail e)
      | inr resp => trigger (PutConn addr cid);; mret resp
      end
  end.

Definition invokeSync (addr : string) (cmd : RemotingCommand) : prog wireE RemotingCommand :=
  enc ← Leaf (wrapErr "remoting encode: %w" [] (encode js rs codecType cmd));
  r ← tryPooled addr enc;
  match r with
  | Some resp => mret resp
  | None => freshDial addr enc
  end.

(** A call whose outcome is a value of the caller. *)
Fixpoint reify {E A} (p : prog E A) : prog E (outcome A) :=
  match p with
  | Leaf r => Leaf (Ret r)
  | Vis e k => Vis e (λ x, reify (k x))
  end.

(** An operation of the admin client with its calls made over the wire. *)
Fixpoint overWire {A} (p : prog rpcE A) : prog wireE A :=
  match p with
  | Leaf r => Leaf r
  | Vis e k =>
      match e in rpcE X return (X → prog rpcE A) → prog wireE A with
      | AddOpaque => λ k, Vis NextOpaque (λ o, overWire (k o))
      | InvokeSync addr cmd => λ k, r ← reify (invokeSync addr cmd); overWire (k r)
      end k
  end.
End client.

(** ** The other end *)

Record peerConn : Type := mkPeer {
  pc_addr : string;
  pc_in : bytes;     (** sent by the peer, not yet read *)
  pc_used : bool;    (** has carried an exchange *)
  pc_open : bool
}.

Record world : Type := mkWorld {
  w_opaque : Z;
  w_conns : list peerConn;
  w_pools : gmap string (list nat)
}.

Definition poolOf (addr : string) (s : world) : list nat := default [] (w_pools s !! addr).
Definition set_pool (addr : string) (l : list nat) (s : world) : world :=
  mkWorld (w_opaque s) (w_conns s) (<[addr := l]> (w_pools s)).
Definition set_conn (cid : nat) (c : peerConn) (s : world) : world :=
  mkWorld (w_opaque s) (<[cid := c]> (w_conns s)) (w_pools s).
Definition closed (c : peerConn) : peerConn := mkPeer (pc_addr c) (pc_in c) (pc_used c) false.

Section world.
Context (js rs : serializer) (peerCodec : Z).
(** The peers as functions from requests to responses, and what a dial says. *)
Context (server : string → RemotingCommand → RemotingCommand) (dialErr : string → option error).

(** The bytes a peer sends after it has received [b]. *)
Definition respond (addr : string) (b : bytes) : bytes :=
  match decode js rs (drop 4 b) with
  | Ret cmd => match encode js rs peerCodec (server addr cmd) with Ret f => f | _ => [] end
  | _ => []
  end.

(** A connection that has been used before may have been dropped by the peer:
    the write fails, or the response does not arrive in full. *)
Inductive delivers (c : peerConn) (b : bytes) : option error → bytes → Prop :=
| D_full : delivers c b None (respond (pc_addr c) b)
| D_refused e : pc_used c = true → delivers c b (Some e) []
| D_cut k : pc_used c = true → (k < length (respond (pc_addr c) b))%nat →
    delivers c b None (take k (respond (pc_addr c) b)).

Definition wireStep {X} (e : wireE X) : world → X → world → Prop :=
  match e in wireE X return world → X → world → Prop with
  | NextOpaque => λ s o s', o = w_opaque s ∧ s' = mkWorld (int32 (w_opaque s + 1)) (w_conns s) (w_pools s)
  | TakeConn addr => λ s x s',
      match poolOf addr s with
      | cid :: rest => x = Some cid ∧ s' = set_pool addr rest s
      | [] => x = None ∧ s' = s
      end
  | PutConn addr cid => λ s _ s',
      if decide (length (poolOf addr s) < connPoolSizePerAddr)%nat
      then s' = set_pool addr (poolOf addr s ++ [cid]) s
      else ∃ c, w_conns s !! cid = Some c ∧ s' = set_conn cid (closed c) s
  | DialContext addr => λ s x s',
      match dialErr addr with
      | Some e => x = inl e ∧ s' = s
      | None => x = inr (length (w_conns s)) ∧
          s' = mkWorld (w_opaque s) (w_conns s ++ [mkPeer addr [] false true]) (w_pools s)
      end
  | ConnWrite cid b => λ s x s', ∃ c got,
      w_conns s !! cid = Some c ∧ pc_open c = true ∧ delivers c b x got ∧
      s' = set_conn cid (mkPeer (pc_addr c) (pc_in c ++ got) true true) s
  | ConnRead cid n => λ s x s', ∃ c,
      w_conns s !! cid = Some c ∧ pc_open c = true ∧
      if decide (n ≤ length (pc_in c))%nat
      then x = Ret (take n (pc_in c)) ∧ s' = set_conn cid (mkPeer (pc_addr c) (drop n (pc_in c)) (pc_used c) true) s
      else ∃ e, x = Fail e ∧ s' = s
  | ConnClose cid => λ s _ s', ∃ c, w_conns s !! cid = Some c ∧ s' = set_conn cid (closed c) s
  end.

(** From [s] the program can end with [r] in [s']. *)
Fixpoint runs {A} (p : prog wireE A) (s : world) (r : outcome A) (s' : world) : Prop :=
  match p with
  | Leaf r' => r = r' ∧ s' = s
  | Vis e k => ∃ x s1, wireStep e s x s1 ∧ runs (k x) s1 r s'
  end.
End world.

Section runs.
Context {js rs : serializer} {peerCodec : Z}.
Context {server : string → RemotingCommand → RemotingCommand} {dialErr : string → option error}.
Abbreviation runs := (runs js rs peerCodec server dialErr).
Abbreviation wireStep := (wireStep js rs peerCodec server dialErr).

Lemma runs_bind {A B} (p : prog wireE A) (f : A → prog wireE B) s r s' :
  runs (p ≫= f) s r s' ↔
  ∃ r0 s1, runs p s r0 s1 ∧
    match r0 with
    | Ret a => runs (f a) s1 r s'
    | Fail e => r = Fail e ∧ s' = s1
    | Panic msg => r = Panic msg ∧ s' = s1
    end.
Proof.
  revert s. induction p as [[a|e|msg]|X e k IH]; intros s; simpl.
  - split; [intros H; by exists (Ret a), s|]. by intros (r0 & s1 & [-> ->] & H).
  - split; [intros [-> ->]; by exists (Fail e), s|]. by intros (r0 & s1 & [-> ->] & H).
  - split; [intros [-> ->]; by exists (Panic msg), s|]. by intros (r0 & s1 & [-> ->] & H).
  - split.
    + intros (x & s1 & Hs & (r0 & s2 & H1 & H2)%IH). exists r0, s2. eauto.
    + intros (r0 & s2 & (x & s1 & Hs & H1) & H2). exists x, s1. split; [done|]. apply IH. eauto.
Qed.

Lemma runs_trigger {X B} (e : wireE X) (f : X → prog wireE B) s r s' :
  runs (trigger e ≫= f) s r s' ↔ ∃ x s1, wireStep e s x s1 ∧ runs (f x) s1 r s'.
Proof. done. Qed.

Lemma runs_attempt {A} (p : prog wireE A) s r s' :
  runs (attempt p) s r s' ↔ ∃ r0, r = caught r0 ∧ runs p s r0 s'.
Proof.
  revert s. induction p as [r1|X e k IH]; intros s; simpl.
  - split.
    + intros H. exists r1. destruct r1; by destruct H as [-> ->].
    + intros (r0 & -> & -> & ->). by destruct r1.
  - split.
    + intros (x & s1 & Hs & (r0 & -> & H)%IH). exists r0. split; [done|]. by exists x, s1.
    + intros (r0 & -> & x & s1 & Hs & H). exists x, s1. split; [done|]. apply IH. eauto.
Qed.

Lemma runs_reify {A} (p : prog wireE A) s r s' :
  runs (reify p) s r s' ↔ ∃ r0, r = Ret r0 ∧ runs p s r0 s'.
Proof.
  revert s. induction p as [r1|X e k IH]; intros s; simpl.
  - split; [intros [-> ->]; by exists r1|by intros (r0 & -> & -> & ->)].
  - split.
    + intros (x & s1 & Hs & (r0 & -> & H)%IH). exists r0. split; [done|]. by exists x, s1.
    + intros (r0 & -> & x & s1 & Hs & H). exists x, s1. split; [done|]. apply IH. eauto.
Qed.

(** ** One exchange *)

(** The peer's answer to [enc] is a frame that decodes to [resp]. *)
Definition answersWith (addr : string) (enc : bytes) (resp : RemotingCommand) : Prop :=
  ∃ payload, respond js rs peerCodec server addr enc = be_bytes 4 (len payload) ++ payload ∧
    0 < len payload < 2 ^ 31 ∧ decode js rs payload = Ret resp.

Lemma lookup_set_conn cid c s : (cid < length (w_conns s))%nat → w_conns (set_conn cid c s) !! cid = Some c.
Proof. intros H. simpl. by apply list_lookup_insert_eq. Qed.

Lemma set_conn_twice cid c c' s : set_conn cid c (set_conn cid c' s) = set_conn cid c s.
Proof. unfold set_conn. simpl. by rewrite list_insert_insert_eq. Qed.

(** Reading after the response, or a proper part of it, has arrived. *)
Lemma read_response addr cid payload resp s a k r s' :
  0 < len payload < 2 ^ 31 → decode js rs payload = Ret resp →
  (cid < length (w_conns s))%nat →
  let f := be_bytes 4 (len payload) ++ payload in
  (k ≤ length f)%nat →
  runs (r ← trigger (ConnRead cid 4);
        word ← Leaf (wrapErr "remoting read length %s: %w" [addr] r);
        let length := get_int word in
        if decide (length ≤ 0)
        then Leaf (Fail (EMsg "remoting %s: non-positive response length %d" [addr; FormatInt length]))
        else
          n ← Leaf (makeLen length);
          r ← trigger (ConnRead cid n);
          payload ← Leaf (wrapErr "remoting read payload %s: %w" [addr] r);
          Leaf (wrapErr "remoting decode %s: %w" [addr] (decode js rs payload)))
    (set_conn cid (mkPeer a (take k f) true true) s) r s' →
  (k = length f ∧ r = Ret resp ∧ s' = set_conn cid (mkPeer a [] true true) s)
  ∨ ((k < length f)%nat ∧ ∃ e rest, r = Fail e ∧ s' = set_conn cid (mkPeer a rest true true) s).
Proof.
  intros Hlen Hdec Hcid f Hk. rewrite runs_trigger. intros (x & s1 & (c & Hc & _ & Hx) & H).
  rewrite lookup_set_conn in Hc by done. injection Hc as <-. cbn [pc_addr pc_in pc_used] in Hx.
  assert (length f = 4 + length payload)%nat as Hf by (unfold f; by rewrite length_app, length_be_bytes).
  rewrite length_take in Hx. case_decide as H4.
  2: { destruct Hx as (e & -> & ->). simpl in H. destruct H as [-> ->]. right. split; [lia|]. eauto. }
  destruct Hx as [-> ->]. rewrite set_conn_twice in H. rewrite take_take, skipn_firstn_comm in H.
  replace (4 `min` k)%nat with (length (be_bytes 4 (len payload))) in H by (rewrite length_be_bytes; lia).
  unfold f in H at 1. rewrite take_app_length in H. cbn [wrapErr mbind prog_bind prog_bind_aux] in H.
  rewrite get_be_bytes_id in H by (unfold in_int; simpl; lia).
  rewrite decide_False in H by lia. unfold makeLen in H. rewrite decide_False in H by lia.
  cbn [mbind prog_bind prog_bind_aux trigger] in H. destruct H as (x & s1 & (c & Hc & _ & Hx) & H).
  rewrite lookup_set_conn in Hc by done. injection Hc as <-. cbn [pc_addr pc_in pc_used] in Hx.
  replace (drop 4 f) with payload in Hx by (symmetry; unfold f; by rewrite drop_app_length' by (by rewrite length_be_bytes)).
  rewrite ?drop_0, length_take in Hx. unfold len in *. rewrite Nat2Z.id in Hx. case_decide as Hp.
  - destruct Hx as [-> ->]. left. rewrite set_conn_twice in H. simpl in H.
    replace (take (length payload) (take (k - 4) payload)) with payload in H by (rewrite take_take, take_ge by lia; done).
    replace (drop (length payload) (take (k - 4) payload)) with (@nil byte) in H
      by (symmetry; apply nil_length_inv; rewrite length_drop, length_take; lia).
    rewrite Hdec in H. simpl in H.
    split; [lia|]. by destruct H.
  - destruct Hx as (e & -> & ->). simpl in H. destruct H as [-> ->]. right. split; [lia|]. eauto.
Qed.
Lemma exchange_runs addr cid enc c s resp r s' :
  w_conns s !! cid = Some c → pc_addr c = addr → pc_in c = [] → answersWith addr enc resp →
  runs (exchange js rs addr cid enc) s r s' →
  (r = Ret resp ∧ s' = set_conn cid (mkPeer addr [] true true) s)
  ∨ (pc_used c = true ∧ ∃ e rest, r = Fail e ∧ s' = set_conn cid (mkPeer addr rest true true) s).
Proof.
  intros Hc Ha Hin (payload & Hresp & Hlen & Hdec). pose proof (lookup_lt_Some _ _ _ Hc) as Hlt.
  unfold exchange. rewrite runs_trigger. intros (x & s1 & (c' & got & Hc' & _ & Hd & ->) & H).
  rewrite Hc in Hc'. injection Hc' as <-. rewrite Hin, Ha in H. cbn [app] in H.
  destruct Hd as [|e Hu|k Hu Hk]; rewrite ?Ha, ?Hresp in *.
  - rewrite <- (firstn_all (be_bytes 4 _ ++ payload)) in H.
    apply (read_response addr cid payload resp) in H as [(_ & -> & ->)|[Hlt' _]]; [by left|lia|done..].
  - destruct H as [-> ->]. right. eauto.
  - apply (read_response addr cid payload resp) in H as [[Hk' _]|[_ He]]; [lia|by right|done..|lia].
Qed.

(** ** The invariant of the client's connections *)

(** Every open connection is in the pool of its address, at a frame boundary,
    except the one the caller holds. *)
Record winv (held : option nat) (s : world) : Prop := {
  wi_opaque : in_int 32 (w_opaque s);
  wi_pool : ∀ addr cid, cid ∈ poolOf addr s → w_conns s !! cid = Some (mkPeer addr [] true true) ∧ dialErr addr = None;
  wi_nodup : ∀ addr, NoDup (poolOf addr s);
  wi_size : ∀ addr, (length (poolOf addr s) ≤ connPoolSizePerAddr)%nat;
  wi_held : ∀ cid, held = Some cid → (cid < length (w_conns s))%nat ∧ ∀ addr, cid ∉ poolOf addr s;
  wi_leak : ∀ cid c, w_conns s !! cid = Some c → pc_open c = true → held = Some cid ∨ cid ∈ poolOf (pc_addr c) s
}.

Lemma poolOf_set_pool a b l s : poolOf a (set_pool b l s) = if decide (b = a) then l else poolOf a s.
Proof.
  unfold poolOf, set_pool. simpl. case_decide as E; [subst; by rewrite lookup_insert_eq|by rewrite lookup_insert_ne].
Qed.

Lemma winv_take addr cid rest s :
  winv None s → poolOf addr s = cid :: rest → winv (Some cid) (set_pool addr rest s).
Proof.
  intros [Ho Hp Hn Hs _ Hl] E. pose proof (Hn addr) as Hna. rewrite E in Hna. apply NoDup_cons in Hna as [Hni Hnr].
  assert (w_conns s !! cid = Some (mkPeer addr [] true true)) as Hc by (apply Hp; rewrite E; by constructor).
  split; [done|..]; intros a.
  - intros cid'. rewrite poolOf_set_pool. case_decide as Ea; [subst|apply Hp].
    intros Hin. apply Hp. rewrite E. by constructor.
  - rewrite poolOf_set_pool. case_decide; [done|apply Hn].
  - rewrite poolOf_set_pool. case_decide; [subst|apply Hs]. specialize (Hs a). rewrite E in Hs. simpl in Hs. lia.
  - intros [= <-]. split; [by eapply lookup_lt_Some|]. intros a. rewrite poolOf_set_pool.
    case_decide as Ea; [done|]. intros Hin. destruct (Hp a cid Hin) as [Hc' _]. rewrite Hc in Hc'. by injection Hc'.
  - intros c Hc' Hopen. rewrite poolOf_set_pool. destruct (Hl a c Hc' Hopen) as [?|Hin]; [done|].
    case_decide as Ea; [|by right]. rewrite <- Ea, E in Hin. apply elem_of_cons in Hin as [->|Hin]; [by left|by right].
Qed.

Lemma winv_use cid c s : winv (Some cid) s → winv (Some cid) (set_conn cid c s).
Proof.
  intros [Ho Hp Hn Hs Hh Hl]. destruct (Hh cid eq_refl) as [Hlt Hni].
  split; [done| |done|done| |].
  - intros addr cid' Hin. simpl. rewrite list_lookup_insert_ne; [by apply Hp|]. intros ->. by apply (Hni addr).
  - intros cid' [= <-]. simpl. by rewrite length_insert.
  - intros cid' c' Hc Hopen. simpl in Hc. destruct (decide (cid = cid')) as [->|Hne]; [by left|].
    rewrite list_lookup_insert_ne in Hc by done. by apply Hl.
Qed.

Lemma winv_release cid c s :
  winv (Some cid) s → w_conns s !! cid = Some c → pc_open c = false → winv None s.
Proof.
  intros [Ho Hp Hn Hs Hh Hl] Hc Hcl. split; try done.
  intros cid' c' Hc' Hopen. destruct (Hl cid' c' Hc' Hopen) as [[= <-]|?]; [congruence|by right].
Qed.

Lemma winv_close cid c s : winv (Some cid) s → winv None (set_conn cid (closed c) s).
Proof.
  intros H. destruct (wi_held _ _ H cid eq_refl) as [Hlt _].
  eapply winv_release; [by apply winv_use|by apply lookup_set_conn|done].
Qed.

Lemma winv_put addr cid s s' :
  winv (Some cid) s → w_conns s !! cid = Some (mkPeer addr [] true true) → dialErr addr = None →
  wireStep (PutConn addr cid) s tt s' → winv None s'.
Proof.
  intros H Hc Hd. cbn [Wire.wireStep]. case_decide as Hlen; [|intros (c & _ & ->); by apply winv_close].
  intros ->. destruct H as [Ho Hp Hn Hs Hh Hl]. destruct (Hh cid eq_refl) as [Hlt Hni].
  split; [done|..]; intros a.
  - intros cid'. rewrite poolOf_set_pool. case_decide as Ea; [subst|apply Hp].
    rewrite elem_of_app, list_elem_of_singleton. intros [Hin| ->]; [by apply Hp|done].
  - rewrite poolOf_set_pool. case_decide; [subst|apply Hn]. apply NoDup_app. split; [apply Hn|]. split; [|apply NoDup_singleton].
    intros x Hx Hx'. apply list_elem_of_singleton in Hx' as ->. by apply (Hni a).
  - rewrite poolOf_set_pool. case_decide; [subst|apply Hs]. rewrite length_app. simpl. lia.
  - done.
  - intros c Hc' Hopen. right. rewrite poolOf_set_pool. destruct (Hl a c Hc' Hopen) as [[= <-]|Hin].
    + simpl in Hc'. rewrite Hc in Hc'. injection Hc' as <-. rewrite decide_True by done. apply elem_of_app. right. by constructor.
    + case_decide as Ea; [|done]. rewrite Ea. apply elem_of_app. by left.
Qed.

Lemma winv_dial addr s :
  winv None s → dialErr addr = None →
  winv (Some (length (w_conns s))) (mkWorld (w_opaque s) (w_conns s ++ [mkPeer addr [] false true]) (w_pools s)).
Proof.
  intros [Ho Hp Hn Hs _ Hl] Hd. split; [done| |done|done| |].
  - intros a cid Hin. simpl. destruct (Hp a cid Hin) as [Hc ?]. rewrite lookup_app_l by (by eapply lookup_lt_Some). done.
  - intros cid [= <-]. simpl. rewrite length_app. simpl. split; [lia|]. intros a Hin.
    destruct (Hp a _ Hin) as [Hc%lookup_lt_Some _]. lia.
  - intros cid c Hc Hopen. simpl in Hc. apply lookup_app_Some in Hc as [Hc|[Hge Hc]].
    + right. by destruct (Hl cid c Hc Hopen).
    + left. destruct (cid - length (w_conns s))%nat as [|n] eqn:E; [|done]. f_equal. lia.
Qed.
(** ** One call *)

Definition dialed {A} (addr : string) (r : outcome A) : outcome A :=
  match dialErr addr with None => r | Some e => Fail (EWrap "remoting dial %s: %w" [addr] e) end.

(** What follows an exchange, with the connection the caller holds. *)
Lemma settle addr cid enc c resp s s1 r1 :
  winv (Some cid) s → w_conns s !! cid = Some c → pc_addr c = addr → pc_in c = [] → dialErr addr = None →
  answersWith addr enc resp → runs (attempt (exchange js rs addr cid enc)) s r1 s1 →
  (r1 = Ret (inr resp) ∧ ∀ s2, wireStep (PutConn addr cid) s1 tt s2 → winv None s2)
  ∨ (pc_used c = true ∧ ∃ e, r1 = Ret (inl e) ∧ ∀ s2, wireStep (ConnClose cid) s1 tt s2 → winv None s2).
Proof.
  intros Hi Hc Ha Hin Hd Hans (r0 & -> & H)%runs_attempt. pose proof (lookup_lt_Some _ _ _ Hc) as Hlt.
  apply (exchange_runs addr cid enc c s resp) in H as [[-> ->]|[Hu (e & rest & -> & ->)]]; try done; [left|right].
  - split; [done|]. intros s2. apply winv_put; [by apply winv_use|by apply lookup_set_conn|done].
  - split; [done|]. exists e. split; [done|]. intros s2 (c' & _ & ->). by apply winv_close, winv_use.
Qed.

Lemma tryPooled_runs addr enc resp s r s' :
  winv None s → (dialErr addr = None → answersWith addr enc resp) →
  runs (tryPooled js rs addr enc) s r s' →
  winv None s' ∧ (r = Ret None ∨ (r = Ret (Some resp) ∧ dialErr addr = None)).
Proof.
  intros Hi Hans. unfold tryPooled. rewrite runs_trigger. intros (x & s1 & Hs & H). cbn [Wire.wireStep] in Hs.
  destruct (poolOf addr s) as [|cid rest] eqn:E; destruct Hs as [-> ->].
  { destruct H as [-> ->]. auto. }
  destruct (wi_pool _ _ Hi addr cid) as [Hc Hd]; [rewrite E; by constructor|].
  apply runs_bind in H as (r1 & s1 & H1 & H).
  destruct (settle addr cid enc (mkPeer addr [] true true) resp (set_pool addr rest s) s1 r1)
    as [[-> Hput]|[_ (e & -> & Hcl)]]; [by apply winv_take|exact Hc|done..|by apply Hans|done| |].
  - destruct H as ([] & s2 & Hs & -> & ->). split; [by apply Hput|]. by right.
  - destruct H as ([] & s2 & Hs & -> & ->). split; [by apply Hcl|]. by left.
Qed.

Lemma freshDial_runs addr enc resp s r s' :
  winv None s → (dialErr addr = None → answersWith addr enc resp) →
  runs (freshDial js rs addr enc) s r s' → winv None s' ∧ r = dialed addr (Ret resp).
Proof.
  intros Hi Hans. unfold freshDial, dialed. rewrite runs_trigger. intros (x & s1 & Hs & H). cbn [Wire.wireStep] in Hs.
  destruct (dialErr addr) as [e|] eqn:Hd; destruct Hs as [-> ->]; [by destruct H as [-> ->]|].
  apply runs_bind in H as (r1 & s1 & H1 & H).
  destruct (settle addr (length (w_conns s)) enc (mkPeer addr [] false true) resp
    (mkWorld (w_opaque s) (w_conns s ++ [mkPeer addr [] false true]) (w_pools s)) s1 r1) as [[-> Hput]|[[=] _]];
    [by apply winv_dial|simpl; by rewrite lookup_app_r, Nat.sub_diag by lia|done..|by apply Hans|done|].
  destruct H as ([] & s2 & Hs & -> & ->). split; [by apply Hput|done].
Qed.

Lemma invokeSync_runs ct addr cmd enc resp s r s' :
  encode js rs ct cmd = Ret enc → winv None s → (dialErr addr = None → answersWith addr enc resp) →
  runs (invokeSync js rs ct addr cmd) s r s' → winv None s' ∧ r = dialed addr (Ret resp).
Proof.
  intros He Hi Hans. unfold invokeSync. rewrite He.
  intros (r1 & s1 & H1 & H)%(runs_bind (tryPooled js rs addr enc)).
  apply (tryPooled_runs addr enc resp) in H1 as [Hi1 [->|[-> Hd]]]; [| |done..].
  - by eapply freshDial_runs.
  - destruct H as [-> ->]. split; [done|]. unfold dialed. by rewrite Hd.
Qed.

(** ** A call always returns *)

Lemma step_exists {X B} (e : wireE X) (f : X → prog wireE B) s x s1 :
  wireStep e s x s1 → (∃ r s', runs (f x) s1 r s') → ∃ r s', runs (trigger e ≫= f) s r s'.
Proof. intros Hs (r & s' & H). exists r, s'. by exists x, s1. Qed.

Lemma leaf_exists {A} (r : outcome A) s : ∃ r' s', runs (Leaf r) s r' s'.
Proof. by exists r, s. Qed.

Lemma read_exists {B} cid n (f : outcome bytes → prog wireE B) s c :
  w_conns s !! cid = Some c → pc_open c = true →
  (∀ x s1 c1, w_conns s1 !! cid = Some c1 → pc_open c1 = true → ∃ r s', runs (f x) s1 r s') →
  ∃ r s', runs (trigger (ConnRead cid n) ≫= f) s r s'.
Proof.
  intros Hc Ho Hf. pose proof (lookup_lt_Some _ _ _ Hc) as Hlt.
  destruct (decide (n ≤ length (pc_in c))%nat) as [Hn|Hn].
  - eapply step_exists; [exists c; rewrite decide_True by done; by split_and!|].
    eapply Hf; [by apply lookup_set_conn|done].
  - eapply step_exists; [exists c; rewrite decide_False by done; split_and!; [done..|by exists EEOF]|]. by eapply Hf.
Qed.

Lemma exchange_exists addr cid enc s c :
  w_conns s !! cid = Some c → pc_open c = true → ∃ r s', runs (exchange js rs addr cid enc) s r s'.
Proof.
  intros Hc Ho. pose proof (lookup_lt_Some _ _ _ Hc) as Hlt. unfold exchange.
  set (got := respond js rs peerCodec server (pc_addr c) enc).
  assert (wireStep (ConnWrite cid enc) s None (set_conn cid (mkPeer (pc_addr c) (pc_in c ++ got) true true) s)) as Hw
    by (exists c, got; split_and!; [done..|constructor|done]).
  apply (step_exists _ _ _ _ _ Hw). eapply read_exists; [by apply lookup_set_conn|done|].
  intros [word|e|msg] s1 c1 Hc1 Ho1; cbn [wrapErr mbind prog_bind prog_bind_aux]; [|apply leaf_exists..]. cbv zeta.
  case_decide; [apply leaf_exists|]. unfold makeLen. rewrite decide_False by lia. cbn [mbind prog_bind prog_bind_aux].
  apply (read_exists cid _ _ s1 c1); [done..|]. intros [p|e|msg] s2 c2 _ _; apply leaf_exists.
Qed.

(** A connection stays open during an exchange. *)
Lemma attempt_exists {B} addr cid enc (f : error + RemotingCommand → prog wireE B) s c resp :
  w_conns s !! cid = Some c → pc_open c = true → pc_addr c = addr → pc_in c = [] → answersWith addr enc resp →
  (∀ x s1 c1, w_conns s1 !! cid = Some c1 → ∃ r s', runs (f x) s1 r s') →
  ∃ r s', runs (attempt (exchange js rs addr cid enc) ≫= f) s r s'.
Proof.
  intros Hc Ho Ha Hin Hans Hf. pose proof (lookup_lt_Some _ _ _ Hc) as Hlt.
  destruct (exchange_exists addr cid enc s c Hc Ho) as (r0 & s1 & H).
  destruct (exchange_runs addr cid enc c s resp r0 s1 Hc Ha Hin Hans H) as [[-> ->]|[_ (e & rest & -> & ->)]].
  - edestruct (Hf (inr resp)) as (r & s' & Hr); [by apply lookup_set_conn|]. exists r, s'. apply runs_bind.
    eexists (Ret (inr resp)), _. split; [|exact Hr]. apply runs_attempt. by exists (Ret resp).
  - edestruct (Hf (inl e)) as (r & s' & Hr); [by apply lookup_set_conn|]. exists r, s'. apply runs_bind.
    eexists (Ret (inl e)), _. split; [|exact Hr]. apply runs_attempt. by exists (Fail e).
Qed.

Lemma put_exists {B} addr cid (p : prog wireE B) s c :
  w_conns s !! cid = Some c → (∀ s1, ∃ r s', runs p s1 r s') → ∃ r s', runs (trigger (PutConn addr cid);; p) s r s'.
Proof.
  intros Hc Hp. destruct (decide (length (poolOf addr s) < connPoolSizePerAddr)%nat) as [Hl|Hl].
  - eapply (step_exists _ _ _ tt); [cbn [Wire.wireStep]; by rewrite decide_True|apply Hp].
  - eapply (step_exists _ _ _ tt); [cbn [Wire.wireStep]; rewrite decide_False by done; by exists c|apply Hp].
Qed.

Lemma close_exists {B} cid (p : prog wireE B) s c :
  w_conns s !! cid = Some c → (∀ s1, ∃ r s', runs p s1 r s') → ∃ r s', runs (trigger (ConnClose cid);; p) s r s'.
Proof.
  intros Hc Hp. eapply (step_exists _ _ _ tt); [by exists c|apply Hp].
Qed.

Lemma invokeSync_exists ct addr cmd enc resp s :
  encode js rs ct cmd = Ret enc → winv None s → (dialErr addr = None → answersWith addr enc resp) →
  ∃ r s', runs (invokeSync js rs ct addr cmd) s r s'.
Proof.
  intros He Hi Hans.
  assert (∀ s, ∃ r s', runs (freshDial js rs addr enc) s r s') as Hfresh.
  { intros s0. destruct (dialErr addr) as [e|] eqn:Hd.
    - eapply step_exists; [cbn [Wire.wireStep]; by rewrite Hd|apply leaf_exists].
    - eapply step_exists; [cbn [Wire.wireStep]; by rewrite Hd|].
      eapply attempt_exists; [simpl; by rewrite lookup_app_r, Nat.sub_diag by lia|done..|by apply Hans|].
      intros [e|resp'] s1 c1 Hc1; [eapply close_exists|eapply put_exists]; try done; intros; apply leaf_exists. }
  assert (∃ r s', runs (tryPooled js rs addr enc) s r s') as (r1 & s1 & H1).
  { destruct (poolOf addr s) as [|cid rest] eqn:E.
    - eapply step_exists; [cbn [Wire.wireStep]; by rewrite E|apply leaf_exists].
    - destruct (wi_pool _ _ Hi addr cid) as [Hc Hd]; [rewrite E; by constructor|].
      eapply step_exists; [cbn [Wire.wireStep]; by rewrite E|].
      eapply attempt_exists; [exact Hc|done..|by apply Hans|].
      intros [e|resp'] s1 c1 Hc1; [eapply close_exists|eapply put_exists]; try done; intros; apply leaf_exists. }
  unfold invokeSync. rewrite He. change (Leaf (wrapErr "remoting encode: %w" [] (Ret enc)) ≫= ?f) with (f enc).
  cbv beta. destruct (tryPooled_runs addr enc resp s r1 s1 Hi Hans H1) as [_ [->|[-> _]]].
  - destruct (Hfresh s1) as (r & s' & H). exists r, s'. apply runs_bind. by exists (Ret None), s1.
  - exists (Ret resp), s1. apply runs_bind. by exists (Ret (Some resp)), s1.
Qed.
End runs.

(** ** The refinement *)

Section refinement.
Context (js rs : serializer) (ct peerCodec : Z).
Context (server : string → RemotingCommand → RemotingCommand) (dialErr : string → option error).
Context {ok ok' : RemotingCommand → Prop} {norm norm' : RemotingCommand → RemotingCommand}.
Context (Hct : ct = JsonCodecs ∨ ct = RocketMQCodecs) (Hpc : peerCodec = JsonCodecs ∨ peerCodec = RocketMQCodecs).
Context `{!SerializerOk (selected js rs ct) ok norm} `{!SerializerOk (selected js rs peerCodec) ok' norm'}.

(** A command as the other side receives it. *)
Definition received (norm : RemotingCommand → RemotingCommand) (c : RemotingCommand) : RemotingCommand :=
  set_body (Body c) (norm c).

(** The network Service assumes, as it is over the wire. *)
Definition wireNet : network := λ addr cmd,
  match dialErr addr with
  | None => Ret (received norm' (server addr (received norm cmd)))
  | Some e => Fail (EWrap "remoting dial %s: %w" [addr] e)
  end.

(** A command that fits into a frame. *)
Definition fits (ct : Z) (ok : RemotingCommand → Prop) (c : RemotingCommand) : Prop :=
  ok c ∧ ∃ f, encode js rs ct c = Ret f ∧ len f < 4 + 2 ^ 31 ∧ len f < 8 + 2 ^ 24 + len (Body c).

(** All commands exchanged with these peers fit into frames. *)
Fixpoint sized {A} (p : prog rpcE A) : Prop :=
  match p with
  | Leaf _ => True
  | Vis e k =>
      match e in rpcE X return (X → prog rpcE A) → Prop with
      | AddOpaque => λ k, ∀ o, in_int 32 o → sized (k o)
      | InvokeSync addr cmd => λ k, fits ct ok cmd
          ∧ (dialErr addr = None → fits peerCodec ok' (server addr (received norm cmd)))
          ∧ sized (k (wireNet addr cmd))
      end k
  end.

Lemma fits_answers addr cmd :
  fits ct ok cmd → (dialErr addr = None → fits peerCodec ok' (server addr (received norm cmd))) →
  ∃ enc, encode js rs ct cmd = Ret enc ∧
    (dialErr addr = None →
     answersWith (js := js) (rs := rs) (peerCodec := peerCodec) (server := server) addr enc
       (received norm' (server addr (received norm cmd)))).
Proof.
  intros (Hok & enc & He & H1 & H2) Hr. exists enc. split; [done|]. intros Hd.
  destruct (Hr Hd) as (Hok' & f & Hf & H1' & H2').
  destruct (frame_roundtrip js rs ok norm ct cmd enc) as (payload & Henc & _ & Hdec); [done..|].
  destruct (frame_roundtrip js rs ok' norm' peerCodec (server addr (received norm cmd)) f) as (payload' & Hf' & Hl & Hdec');
    [done..|]. exists payload'. split; [|done]. unfold respond. rewrite Henc.
  rewrite drop_app_length' by (by rewrite length_be_bytes). rewrite Hdec. fold (received norm cmd). by rewrite Hf, <- Hf'.
Qed.

Abbreviation runs := (runs js rs peerCodec server dialErr).
Abbreviation winv := (winv (dialErr := dialErr)).

Lemma winv_opaque s o : winv None s → winv None (mkWorld (int32 o) (w_conns s) (w_pools s)).
Proof. intros [Ho Hp Hn Hs Hh Hl]. split; try done. apply swrap_range. lia. Qed.

(** C4: the admin client over the wire is the admin client of Service.  Against
    peers that answer every request frame with a frame, over connections that
    may have gone stale in the pool, an operation of the admin client whose
    commands fit into frames always returns, and every run of it returns exactly
    the outcome it has against the network that hands over the commands
    themselves: framing, pooling, the retry of a stale connection and dialling
    do not show.  Afterwards every open connection is in the pool of its
    address, at most 32 of them, with nothing left to read. *)
Theorem overWire_refines {A} (p : prog rpcE A) r s :
  sized p → answers wireNet p r → winv None s →
  (∃ r' s', runs (overWire js rs ct p) s r' s') ∧
  ∀ r' s', runs (overWire js rs ct p) s r' s' → r' = r ∧ winv None s'.
Proof.
  revert s. induction p as [r0|X e k IH]; intros s Hsz Ha Hi.
  { simpl in Ha. subst. split; [by exists r, s|]. by intros r' s' [-> ->]. }
  destruct e as [|addr cmd].
  - destruct (IH (w_opaque s) (mkWorld (int32 (w_opaque s + 1)) (w_conns s) (w_pools s))) as [(r1 & s1 & H1) Hall];
      [apply Hsz, (wi_opaque _ _ Hi)|apply Ha|by apply winv_opaque|].
    split; [exists r1, s1; by eexists _, _|]. intros r' s' (o & s2 & [-> ->] & H). by apply Hall.
  - destruct Hsz as (Hf & Hr & Hk). destruct (fits_answers addr cmd Hf Hr) as (enc & He & Hans).
    assert (dialed (dialErr := dialErr) addr (Ret (received norm' (server addr (received norm cmd)))) = wireNet addr cmd)
      as Hd by (unfold dialed, wireNet; by destruct (dialErr addr)).
    cbn [overWire]. split.
    + destruct (invokeSync_exists ct addr cmd enc _ s He Hi Hans) as (r0 & s0 & H0).
      destruct (invokeSync_runs ct addr cmd enc _ s r0 s0 He Hi Hans H0) as [Hi0 ->]. rewrite Hd in H0.
      destruct (IH (wireNet addr cmd) s0 Hk Ha Hi0) as [(r1 & s1 & H1) _]. exists r1, s1.
      apply runs_bind. exists (Ret (wireNet addr cmd)), s0. split; [|exact H1]. apply runs_reify. eauto.
    + intros r' s' (r0 & s0 & (r1 & -> & H1)%runs_reify & H)%runs_bind.
      destruct (invokeSync_runs ct addr cmd enc _ s r1 s0 He Hi Hans H1) as [Hi0 ->]. rewrite Hd in H.
      by apply (IH (wireNet addr cmd) s0 Hk Ha Hi0).
Qed.
End refinement.

(** ** Witness *)

(** A name server that answers every request with a route, and a client with one
    connection to it in the pool. *)
#[local] Existing Instance demoJson.
#[local] Existing Instance std_goRange.
Definition routeAdmin : AdminClient := NewAdminClient "ns:1" false "" "" 5000.
Definition routeServer (addr : string) (req : RemotingCommand) : RemotingCommand :=
  mkCommand 0 lang_Go 317 (Opaque req) 1 "" None (bytes_of "{}").
Definition pooledWorld : world := mkWorld 7 [mkPeer "ns:1" [] true true] {["ns:1" := [0%nat]]}.

Definition noDialErr (addr : string) : option error := None.
Definition routeCodec : serializer := @rmqCodec std_range.

Lemma pooledWorld_winv : winv (dialErr := noDialErr) None pooledWorld.
Proof.
  assert (∀ addr, poolOf addr pooledWorld = if decide ("ns:1" = addr) then [0%nat] else []) as Hp.
  { intros addr. unfold poolOf, pooledWorld. cbn [w_pools]. case_decide as E; [subst; by rewrite lookup_singleton_eq|].
    by rewrite lookup_singleton_ne. }
  split; try (intros addr; rewrite Hp; case_decide).
  - by vm_compute.
  - intros cid ->%list_elem_of_singleton. by subst.
  - intros cid []%elem_of_nil.
  - apply NoDup_singleton.
  - constructor.
  - unfold connPoolSizePerAddr. simpl. lia.
  - simpl. lia.
  - done.
  - intros [|cid] c [= <-] _. right. rewrite Hp. by constructor.
Qed.

Lemma topic_header_ok (o : Z) :
  @rmq_ok std_range (NewRemotingCommand 105 (Some {["topic" := "T"]}) [] o).1.
Proof.
  split; [by vm_compute|by vm_compute|apply swrap_range; lia|by vm_compute|by vm_compute|by vm_compute|].
  intros m k v [= <-] Hk. apply lookup_singleton_Some in Hk as [<- <-]. by vm_compute.
Qed.

Lemma overWire_refines_witness :
  (∃ r s', runs routeCodec routeCodec RocketMQCodecs routeServer noDialErr
     (overWire routeCodec routeCodec RocketMQCodecs (ExamineTopicRouteInfo routeAdmin "T")) pooledWorld r s') ∧
  ∀ r s', runs routeCodec routeCodec RocketMQCodecs routeServer noDialErr
     (overWire routeCodec routeCodec RocketMQCodecs (ExamineTopicRouteInfo routeAdmin "T")) pooledWorld r s' →
     r = Ret demoRoute ∧ winv (dialErr := noDialErr) None s'.
Proof.
  apply (overWire_refines routeCodec routeCodec RocketMQCodecs RocketMQCodecs routeServer noDialErr
    (ok := @rmq_ok std_range) (ok' := @rmq_ok std_range) (norm := rmq_norm) (norm' := rmq_norm)).
  - by right.
  - by right.
  - exact (@rmqCodec_ok std_range).
  - exact (@rmqCodec_ok std_range).
  - intros o Ho. split; [|split; [|exact I]].
    + split; [apply topic_header_ok|]. eexists. split; [reflexivity|]. split; vm_compute; reflexivity.
    + intros _. split; [|eexists; split; [reflexivity|]; split; vm_compute; reflexivity].
      split; [by vm_compute|by vm_compute|apply swrap_range; lia|by vm_compute|by vm_compute|by vm_compute|done].
  - intros o. vm_compute. reflexivity.
  - exact pooledWorld_winv.
Defined.
