(* ===== verification/Page.v ===== *)
(** * What a scrape shows of the writes before it

    Every setter of the collector writes one entry of one cache (the runtime
    statistics of a broker write one in each of their families).  [cell w] is that
    entry as a scrape renders it.  After any sequence of writes the entry is that
    of the last write to it, and a scrape within the TTL shows it in its family
    under its labels. *)

From Stdlib Require Import ZArith Lia String.
From S2P Require Import Prelude GoStrings GoFloat Util Model Store Health Collector Service Task Parallel.

(** ** Where a write goes *)

(** The families of [Gather] that one setter feeds, in its order, with their
    label names. *)
Definition staticFamilies : list (string * list string) :=
  [("rocketmq_group_diff", groupDiffLabels); ("rocketmq_group_retrydiff", groupDiffLabels);
   ("rocketmq_group_dlqdiff", groupDiffLabels); ("rocketmq_group_count", groupCountLabels);
   ("rocketmq_producer_count", producerCountLabels); ("rocketmq_producer_offset", topicOffsetLabels);
   ("rocketmq_topic_retry_offset", topicOffsetLabels); ("rocketmq_topic_dlq_offset", dlqOffsetLabels);
   ("rocketmq_producer_tps", topicNumsLabels); ("rocketmq_producer_message_size", topicNumsLabels);
   ("rocketmq_consumer_tps", groupNumsLabels); ("rocketmq_group_consume_tps", groupNumsLabels);
   ("rocketmq_consumer_offset", groupNumsLabels); ("rocketmq_group_consume_total_offset", groupNumsLabels);
   ("rocketmq_consumer_message_size", groupNumsLabels); ("rocketmq_send_back_nums", groupNumsLabels);
   ("rocketmq_group_get_latency_by_storetime", groupLatencyLabels);
   ("rocketmq_client_consume_fail_msg_count", clientLabels); ("rocketmq_client_consume_fail_msg_tps", clientLabels);
   ("rocketmq_client_consume_ok_msg_tps", clientLabels); ("rocketmq_client_consume_rt", clientLabels);
   ("rocketmq_client_consumer_pull_rt", clientLabels); ("rocketmq_client_consumer_pull_tps", clientLabels);
   ("rocketmq_broker_tps", brokerNumsLabels); ("rocketmq_broker_qps", brokerNumsLabels);
   ("rocketmq_broker_commitlog_diff", brokerNumsLabels)].

(** The family a topic's prefix selects: plain, retry or dead letter. *)
Definition byPrefix {A} (topic : string) (plain retry dlq : A) : A :=
  if HasPrefix topic retryTopicPrefix then retry
  else if HasPrefix topic dlqTopicPrefix then dlq else plain.

(** The position of the write's family in [staticFamilies]; [None] for the
    runtime statistics. *)
Definition slot (w : write) : option nat :=
  match w with
  | W_TopicOffset _ _ t _ _ => Some (byPrefix t 5 6 7)%nat
  | W_ProducerCount _ _ _ _ => Some 4%nat
  | W_GroupCount _ _ _ _ => Some 3%nat
  | W_GroupDiff _ _ t _ _ => Some (byPrefix t 0 1 2)%nat
  | W_TopicPutNums _ _ _ _ _ => Some 8%nat
  | W_TopicPutSize _ _ _ _ _ => Some 9%nat
  | W_GroupBrokerTotalOffset _ _ _ _ _ => Some 12%nat
  | W_GroupGetLatencyByStoreTime _ _ _ _ _ => Some 16%nat
  | W_GroupGetNums _ _ _ _ _ => Some 10%nat
  | W_GroupGetSize _ _ _ _ _ => Some 14%nat
  | W_SendBackNums _ _ _ _ _ => Some 15%nat
  | W_ConsumerClientFailedMsgCounts _ _ _ _ _ => Some 17%nat
  | W_ConsumerClientFailedTPS _ _ _ _ _ => Some 18%nat
  | W_ConsumerClientOKTPS _ _ _ _ _ => Some 19%nat
  | W_ConsumeRTMetric _ _ _ _ _ => Some 20%nat
  | W_PullRT _ _ _ _ _ => Some 21%nat
  | W_PullTPS _ _ _ _ _ => Some 22%nat
  | W_BrokerPutNums _ _ _ _ => Some 23%nat
  | W_BrokerGetNums _ _ _ _ => Some 24%nat
  | W_BrokerCommitLogDiff _ _ _ _ => Some 25%nat
  | W_BrokerRuntimeStats _ _ _ _ => None
  end.

(** The key of the write's entry, as strings. *)
Definition keyOf (w : write) : list string :=
  match w with
  | W_TopicOffset cl b t _ _ => [cl; b; byPrefix t t t (TrimPrefix t dlqTopicPrefix)]
  | W_ProducerCount cl b g _ => [g; cl; b]
  | W_GroupCount g _ _ _ => [g]
  | W_GroupDiff o g t m _ => [g; t; o; m]
  | W_TopicPutNums cl _ ip t _ | W_TopicPutSize cl _ ip t _ => [cl; ip; t]
  | W_GroupBrokerTotalOffset cl b t g _ | W_GroupGetLatencyByStoreTime cl b t g _ => [cl; b; t; g]
  | W_GroupGetNums cl b t g _ | W_GroupGetSize cl b t g _ | W_SendBackNums cl b t g _ => [cl; b; t; g]
  | W_ConsumerClientFailedMsgCounts g t ca _ _ => [g; t; ToLower ca]
  | W_ConsumerClientFailedTPS g t ca _ _ | W_ConsumerClientOKTPS g t ca _ _ | W_ConsumeRTMetric g t ca _ _
  | W_PullRT g t ca _ _ | W_PullTPS g t ca _ _ => [g; t; ToLower ca]
  | W_BrokerPutNums cl ip _ _ | W_BrokerGetNums cl ip _ _ | W_BrokerCommitLogDiff cl ip _ _ => [cl; ip]
  | W_BrokerRuntimeStats _ cl ad _ => [cl; ad]
  end.

(** The entry a write goes to. *)
Definition place (w : write) : option nat * list string := (slot w, keyOf w).

(** The label values and the value a scrape shows for the write. *)
Definition shown (w : write) : list string * float64 :=
  match w with
  | W_TopicOffset cl b t _ v => ([cl; b; byPrefix t t t (TrimPrefix t dlqTopicPrefix)], v)
  | W_ProducerCount cl b g n => ([cl; b; g], floatOfZ n)
  | W_GroupCount g ca la n => ([ca; la; g], floatOfZ n)
  | W_GroupDiff o g t m v => ([g; t; o; m], floatOfZ v)
  | W_TopicPutNums cl bn _ t v | W_TopicPutSize cl bn _ t v => ([cl; bn; t], v)
  | W_GroupBrokerTotalOffset cl b t g v | W_GroupGetLatencyByStoreTime cl b t g v => ([cl; b; t; g], floatOfZ v)
  | W_GroupGetNums cl b t g v | W_GroupGetSize cl b t g v | W_SendBackNums cl b t g v => ([cl; b; t; g], v)
  | W_ConsumerClientFailedMsgCounts g t ca ci v => ([ca; ci; g; t], floatOfZ v)
  | W_ConsumerClientFailedTPS g t ca ci v | W_ConsumerClientOKTPS g t ca ci v | W_ConsumeRTMetric g t ca ci v
  | W_PullRT g t ca ci v | W_PullTPS g t ca ci v => ([ca; ci; g; t], v)
  | W_BrokerPutNums cl ip bn v | W_BrokerGetNums cl ip bn v | W_BrokerCommitLogDiff cl ip bn v => ([cl; ip; bn], v)
  | W_BrokerRuntimeStats _ cl ad _ => ([cl; ad], fzero)
  end.

(** ** The entry in the collector *)

(** An entry of a cache as a scrape renders it, with the time of its write. *)
Definition look {K V} `{Countable K} (labels : K → V → list string) (num : V → float64) (k : K) (c : ttlCache K V)
    : option (list string * float64 * Z) :=
  (λ e, (labels k (value e), num (value e), writtenAt e)) <$> m c !! k.

Lemma look_put {K V} `{Countable K} labels num k k' v now (c : ttlCache K V) :
  look labels num k (put now k' v c) = if decide (k' = k) then Some (labels k v, num v, now) else look labels num k c.
Proof.
  unfold look, put. cbn [m]. case_decide as E; [subst; by rewrite lookup_insert_eq|by rewrite lookup_insert_ne].
Qed.

Abbreviation lookOffset := (look (λ k _, [pk_cluster k; pk_broker k; pk_topic k]) id).
Abbreviation lookDiff := (look (λ k _, [fk_group k; fk_topic k; fk_countOnline k; fk_msgModel k]) floatOfZ).
Abbreviation lookPut := (look (λ k v, [tk_cluster k; tv_brokerName v; tk_topic k]) tv_val).
Abbreviation lookInt := (look (λ k _, [ck_cluster k; ck_broker k; ck_topic k; ck_group k]) floatOfZ).
Abbreviation lookFloat := (look (λ k _, [ck_cluster k; ck_broker k; ck_topic k; ck_group k]) id).
Abbreviation lookClient := (look (λ k v, [cv_caddrs v; cv_localaddrs v; xk_group k; xk_topic k]) cv_val).
Abbreviation lookBroker := (look (λ k v, [bk_cluster k; bk_brokerIP k; bv_brokerName v]) bv_val).

Definition cell (w : write) (c : MetricsCollector) : option (list string * float64 * Z) :=
  match w with
  | W_TopicOffset cl b t _ _ =>
      byPrefix t (lookOffset (mk_producerKey cl b t) (topicOffset c)) (lookOffset (mk_producerKey cl b t) (topicRetryOffset c))
        (look (λ k _, [dk_cluster k; dk_broker k; dk_group k]) id (mk_dlqKey cl b (TrimPrefix t dlqTopicPrefix)) (topicDLQOffset c))
  | W_ProducerCount cl b g _ =>
      look (λ k _, [pck_cluster k; pck_broker k; pck_group k]) floatOfZ (mk_producerCountKey g cl b) (producerCounts c)
  | W_GroupCount g _ _ _ =>
      look (λ k v, [nv_caddrs v; nv_localaddrs v; k]) (λ v, floatOfZ (nv_count v)) g (consumerCounts c)
  | W_GroupDiff o g t mm _ =>
      byPrefix t (lookDiff (mk_diffKey g t o mm) (consumerDiff c)) (lookDiff (mk_diffKey g t o mm) (consumerRetryDiff c))
        (lookDiff (mk_diffKey g t o mm) (consumerDLQDiff c))
  | W_TopicPutNums cl _ ip t _ => lookPut (mk_topicPutNumKey cl ip t) (topicPutNums c)
  | W_TopicPutSize cl _ ip t _ => lookPut (mk_topicPutNumKey cl ip t) (topicPutSize c)
  | W_GroupBrokerTotalOffset cl b t g _ => lookInt (mk_consumerKey cl b t g) (groupBrokerTotalOffset c)
  | W_GroupGetLatencyByStoreTime cl b t g _ => lookInt (mk_consumerKey cl b t g) (groupLatencyByTime c)
  | W_GroupGetNums cl b t g _ => lookFloat (mk_consumerKey cl b t g) (groupGetNums c)
  | W_GroupGetSize cl b t g _ => lookFloat (mk_consumerKey cl b t g) (groupGetSize c)
  | W_SendBackNums cl b t g _ => lookFloat (mk_consumerKey cl b t g) (sendBackNums c)
  | W_ConsumerClientFailedMsgCounts g t ca _ _ => lookClient (mk_clientRuntimeKey g t (ToLower ca)) (consumerClientFailedMsgCounts c)
  | W_ConsumerClientFailedTPS g t ca _ _ => lookClient (mk_clientRuntimeKey g t (ToLower ca)) (consumerClientFailedTPS c)
  | W_ConsumerClientOKTPS g t ca _ _ => lookClient (mk_clientRuntimeKey g t (ToLower ca)) (consumerClientOKTPS c)
  | W_ConsumeRTMetric g t ca _ _ => lookClient (mk_clientRuntimeKey g t (ToLower ca)) (consumerClientRT c)
  | W_PullRT g t ca _ _ => lookClient (mk_clientRuntimeKey g t (ToLower ca)) (consumerClientPullRT c)
  | W_PullTPS g t ca _ _ => lookClient (mk_clientRuntimeKey g t (ToLower ca)) (consumerClientPullTPS c)
  | W_BrokerPutNums cl ip _ _ => lookBroker (mk_brokerKey cl ip) (brokerPutNums c)
  | W_BrokerGetNums cl ip _ _ => lookBroker (mk_brokerKey cl ip) (brokerGetNums c)
  | W_BrokerCommitLogDiff cl ip _ _ => lookBroker (mk_brokerKey cl ip) (brokerCommitLogDiff c)
  | W_BrokerRuntimeStats _ _ _ _ => None
  end.

#[local] Arguments look : simpl never.
#[local] Arguments put : simpl never.

(** A write sets its own entry. *)
Lemma cell_own clk w c : is_Some (slot w) → cell w (applyWrite clk w c) = Some (shown w, clk 0%nat).
Proof.
  intros Hs. destruct w; try (by destruct Hs); cbn;
    unfold AddTopicOffsetMetric, AddGroupDiffMetric, byPrefix; cbv zeta; repeat case_match;
    cbn; unfold addClient; by rewrite look_put, decide_True.
Qed.

(** A write to another entry leaves this one alone. *)
Lemma cell_other clk w w' c : place w ≠ place w' → cell w (applyWrite clk w' c) = cell w c.
Proof.
  intros Hne. destruct w'; destruct w; try reflexivity; cbn [cell applyWrite];
    unfold AddTopicOffsetMetric, AddGroupDiffMetric, AddBrokerRuntimeStatsMetric, byPrefix; cbv zeta;
    repeat case_match; try reflexivity; cbn; unfold addClient;
    (rewrite look_put, decide_False; [done|]); intros E; apply Hne; unfold place, slot, keyOf, byPrefix;
    simplify_eq; repeat case_match; congruence.
Qed.

(** The entry depends on its place only. *)
Lemma cell_place w w' c : place w = place w' → cell w c = cell w' c.
Proof.
  destruct w, w'; try done; unfold place, cell, slot, keyOf, byPrefix; repeat case_match; intros; simplify_eq; congruence.
Qed.

(** ** Sequences of writes *)

(** Writes with their clock readings, applied in order. *)
Definition applyAll (l : list ((nat → Z) * write)) (c : MetricsCollector) : MetricsCollector :=
  foldl (λ c x, applyWrite x.1 x.2 c) c l.

Lemma applyAll_app l1 l2 c : applyAll (l1 ++ l2) c = applyAll l2 (applyAll l1 c).
Proof. apply foldl_app. Qed.

Lemma cell_untouched l w c : Forall (λ x, place w ≠ place x.2) l → cell w (applyAll l c) = cell w c.
Proof.
  revert c. induction l as [|x l IH]; intros c Hl; [done|]. apply Forall_cons in Hl as [Hx Hl].
  change (applyAll (x :: l) c) with (applyAll l (applyWrite x.1 x.2 c)). rewrite IH by done. by apply cell_other.
Qed.

Lemma cell_last l1 l2 clk w c :
  is_Some (slot w) → Forall (λ x, place w ≠ place x.2) l2 →
  cell w (applyAll (l1 ++ (clk, w) :: l2) c) = Some (shown w, clk 0%nat).
Proof.
  intros Hs Hl. rewrite applyAll_app. change (applyAll ((clk, w) :: l2) ?c) with (applyAll l2 (applyWrite clk w c)).
  rewrite cell_untouched by done. by apply cell_own.
Qed.

Section scrape.
Context `{GR : GoRange}.

Lemma applyAll_reachable T l c : collector_reachable T c → collector_reachable T (applyAll l c).
Proof.
  revert c. induction l as [|x l IH]; intros c Hc; [done|]. apply (IH (applyWrite x.1 x.2 c)).
  eapply rtc_r; [exact Hc|apply applyWrite_cstep].
Qed.

(** ** On the page *)

Lemma exposes_slot clk c i s values v :
  staticSpecs c !! i = Some s → (∀ j, mkSample values v ∈ spSamples s (clk j)) →
  exposes clk c (spName s) (zip (spLabels s) values) v.
Proof.
  intros Hi. apply exposes_spec. apply elem_of_app. left. by eapply list_elem_of_lookup_2.
Qed.

Lemma look_sample {K V} `{Countable K} labels num k vals v now now' (c : ttlCache K V) f :
  look labels num k c = Some (vals, v, now) → 0 ≤ now' - now ≤ ttl c → ttl c < 2 ^ 63 →
  (∀ k x, f (k, x) = mkSample (labels k x) (num x)) →
  mkSample vals v ∈ f <$> snapshot now' c.
Proof.
  unfold look. intros Hl Hn HT Hf. destruct (m c !! k) as [[x t]|] eqn:E; simplify_eq/=.
  apply list_elem_of_fmap. exists (k, x). split; [by rewrite Hf|]. by eapply snapshot_live.
Qed.

(** The series of a write. *)
Definition showsAt (clk : nat → Z) (c : MetricsCollector) (w : write) : Prop :=
  ∃ i name labels, slot w = Some i ∧ staticFamilies !! i = Some (name, labels) ∧
    exposes clk c name (zip labels (shown w).1) (shown w).2.

Lemma cell_exposed T c clk w now :
  collector_reachable T c → T < 2 ^ 63 → (∀ i, 0 ≤ clk i - now ≤ T) → is_Some (slot w) →
  cell w c = Some (shown w, now) → showsAt clk c w.
Proof.
  intros Hr HT Hclk [i Hi] Hc. pose proof (wf_ttls T c (wf_reachable T c Hr)) as Httl.
  assert (∃ s, staticSpecs c !! i = Some s ∧ ∀ j, mkSample (shown w).1 (shown w).2 ∈ spSamples s (clk j)) as (s & Hs & Hin).
  { injection Httl as ?. destruct w; unfold slot, byPrefix in Hi; cbn [cell] in Hc; unfold byPrefix in Hc; repeat case_match; simplify_eq;
      (eexists; split; [reflexivity|]); intros j; cbn [spSamples];
      (eapply look_sample; [exact Hc| | |by intros]); specialize (Hclk j); lia. }
  exists i, (spName s), (spLabels s). split; [done|]. split; [|by eapply exposes_slot].
  assert ((λ s, (spName s, spLabels s)) <$> staticSpecs c = staticFamilies) as E by reflexivity.
  by rewrite <- E, list_lookup_fmap, Hs.
Qed.

(** *** The runtime statistics of a broker *)

(** The entries of a broker in the runtime and the distribution families. *)
Definition runtimeCells (k : brokerRuntimeKey) (c : MetricsCollector) : list (option (entry runtimeEntry)) :=
  (λ rm, m (rm_cache rm) !! k) <$> runtimeMetrics c.
Definition distributeCells (k : brokerRuntimeKey) (c : MetricsCollector) : list (option (entry runtimeEntry)) :=
  (λ dm, m (dm_cache dm) !! k) <$> distributeMetrics c.

Lemma runtimeCells_other clk w cl ad c :
  place w ≠ (None, [cl; ad]) →
  runtimeCells (mk_brokerRuntimeKey cl ad) (applyWrite clk w c) = runtimeCells (mk_brokerRuntimeKey cl ad) c ∧
  distributeCells (mk_brokerRuntimeKey cl ad) (applyWrite clk w c) = distributeCells (mk_brokerRuntimeKey cl ad) c.
Proof.
  intros Hw. destruct w; try (split; cbn [applyWrite];
    unfold AddTopicOffsetMetric, AddGroupDiffMetric; repeat case_match; reflexivity).
  assert (mk_brokerRuntimeKey cluster brokerAddress ≠ mk_brokerRuntimeKey cl ad) as Hk by (intros [= -> ->]; by apply Hw).
  cbn [applyWrite]. unfold AddBrokerRuntimeStatsMetric, runtimeCells, distributeCells. cbv zeta.
  by destruct (decide _); cbn [runtimeMetrics distributeMetrics set_runtimeMetrics set_distributeMetrics]; split; try done;
    apply imap_const; intros i x; apply lookup_insert_ne.
Qed.

Lemma runtimeCells_untouched l cl ad c :
  Forall (λ x, (None, [cl; ad]) ≠ place x.2) l →
  runtimeCells (mk_brokerRuntimeKey cl ad) (applyAll l c) = runtimeCells (mk_brokerRuntimeKey cl ad) c ∧
  distributeCells (mk_brokerRuntimeKey cl ad) (applyAll l c) = distributeCells (mk_brokerRuntimeKey cl ad) c.
Proof.
  revert c. induction l as [|x l IH]; intros c Hl; [done|]. apply Forall_cons in Hl as [Hx Hl].
  change (applyAll (x :: l) c) with (applyAll l (applyWrite x.1 x.2 c)). destruct (IH (applyWrite x.1 x.2 c) Hl) as [-> ->].
  apply runtimeCells_other. congruence.
Qed.

(** The 50 runtime gauges, and the 13 latency buckets when the broker reported a
    distribution. *)
Definition showsRuntime (clk : nat → Z) (c : MetricsCollector) (stats : BrokerRuntimeStats) (cl ad host : string) : Prop :=
  (∀ name help getVal, (name, help, getVal) ∈ runtimeCatalog →
     exposes clk c name (runtimeSeries stats cl ad host) (getVal stats)) ∧
  (Model.PutMessageDistributeTimeMap stats ≠ ∅ → ∀ name help key, (name, help, key) ∈ distributeCatalog →
     exposes clk c name (runtimeSeries stats cl ad host)
       (floatOfZ (default 0 (Model.PutMessageDistributeTimeMap stats !! key)))).

Lemma runtime_last T c clkw clk stats cl ad host l2 :
  collector_reachable T c → T < 2 ^ 63 → (∀ i j, 0 ≤ clk i - clkw j ≤ T) →
  Forall (λ x, (None, [cl; ad]) ≠ place x.2) l2 →
  showsRuntime clk (applyAll l2 (AddBrokerRuntimeStatsMetric clkw stats cl ad host c)) stats cl ad host.
Proof.
  intros Hr HT Hclk Hl2. set (k := mk_brokerRuntimeKey cl ad).
  set (c1 := AddBrokerRuntimeStatsMetric clkw stats cl ad host c). set (c2 := applyAll l2 c1).
  assert (collector_reachable T c1) as Hr1 by (eapply rtc_r; [exact Hr|constructor]).
  assert (collector_reachable T c2) as Hr2 by (by apply applyAll_reachable).
  destruct (runtimeCells_untouched l2 cl ad c1 Hl2) as [Ecr Ecd]. fold k c2 in Ecr, Ecd.
  destruct (wf_reachable T c Hr) as [H1 H2 _ _ _ _], (wf_reachable T c2 Hr2) as [K1 K2 K3 K4 _ _].
  rewrite Forall_lookup in K3. rewrite Forall_lookup in K4. split.
  - intros name help getVal [i Hi]%list_elem_of_lookup.
    pose proof Hi as Hi1. rewrite <- H1, list_lookup_fmap in Hi1. destruct (runtimeMetrics c !! i) as [rm|] eqn:Em; simplify_eq/=.
    rewrite <- K1, list_lookup_fmap in Hi. destruct (runtimeMetrics c2 !! i) as [rm2|] eqn:Em2; simplify_eq/=.
    pose proof (runtimeStats_runtime clkw stats cl ad host c i rm Em) as Em1. fold c1 in Em1.
    assert (runtimeCells k c2 !! i = Some (m (rm_cache rm2) !! k)) as Hc by (unfold runtimeCells; by rewrite list_lookup_fmap, Em2).
    rewrite Ecr in Hc. unfold runtimeCells in Hc. rewrite list_lookup_fmap, Em1 in Hc. simpl in Hc. rewrite lookup_insert_eq in Hc.
    simplify_eq. match goal with H : rm_name rm2 = _ |- _ => rewrite <- H end.
    eapply exposes_runtime; [by eapply list_elem_of_lookup_2|..]; [rewrite (K3 i rm2 Em2); eauto..|by symmetry].
  - intros Hd name help key [i Hi]%list_elem_of_lookup.
    pose proof Hi as Hi1. rewrite <- H2, list_lookup_fmap in Hi1. destruct (distributeMetrics c !! i) as [dm|] eqn:Em; simplify_eq/=.
    rewrite <- K2, list_lookup_fmap in Hi. destruct (distributeMetrics c2 !! i) as [dm2|] eqn:Em2; simplify_eq/=.
    destruct (runtimeStats_distribute clkw stats cl ad host c i dm Hd Em) as [j Em1]. fold c1 in Em1.
    assert (distributeCells k c2 !! i = Some (m (dm_cache dm2) !! k)) as Hc by (unfold distributeCells; by rewrite list_lookup_fmap, Em2).
    rewrite Ecd in Hc. unfold distributeCells in Hc. rewrite list_lookup_fmap, Em1 in Hc. simpl in Hc. rewrite lookup_insert_eq in Hc.
    simplify_eq. match goal with H : dm_name dm2 = _ |- _ => rewrite <- H end.
    eapply exposes_distribute; [by eapply list_elem_of_lookup_2|..]; [rewrite (K4 i dm2 Em2); eauto..|by symmetry].
Qed.

(** *** Any write *)

Definition visible (clk : nat → Z) (c : MetricsCollector) (w : write) : Prop :=
  match w with
  | W_BrokerRuntimeStats stats cl ad host => showsRuntime clk c stats cl ad host
  | _ => showsAt clk c w
  end.

Lemma last_visible T c l1 l2 clkw w clk :
  collector_reachable T c → T < 2 ^ 63 → (∀ i j, 0 ≤ clk i - clkw j ≤ T) →
  Forall (λ x, place w ≠ place x.2) l2 → visible clk (applyAll (l1 ++ (clkw, w) :: l2) c) w.
Proof.
  intros Hr HT Hclk Hl2.
  assert (is_Some (slot w) → showsAt clk (applyAll (l1 ++ (clkw, w) :: l2) c) w) as Hs.
  { intros Hs. apply (cell_exposed T _ clk w (clkw 0%nat)); [by apply applyAll_reachable|done|done|done|by apply cell_last]. }
  destruct w; try (apply Hs; by eexists).
  rewrite applyAll_app. apply (runtime_last T); [by apply applyAll_reachable|done..].
Qed.

(** Whatever the setters of the collector have been called with before, the
    last write to an entry is what a scrape within the TTL shows: its value, in
    its family and under its labels, for each of the 20 setters of one series;
    and for the runtime statistics of a broker all 50 gauges, with the 13 latency
    buckets when the broker reported a distribution. *)
Theorem last_write_shown T c l1 l2 clkw w clk :
  collector_reachable T c → T < 2 ^ 63 → (∀ i j, 0 ≤ clk i - clkw j ≤ T) →
  Forall (λ x, place w ≠ place x.2) l2 → visible clk (applyAll (l1 ++ (clkw, w) :: l2) c) w.
Proof. apply last_visible. Qed.
End scrape.

(** ** Witness *)

#[local] Existing Instance demo_goRange.

(** The lag of a group written twice, then another group's. *)
Definition demoWrites : list ((nat → Z) * write) :=
  [((λ _, 1), W_GroupDiff "1" "g" "T" "1" 7); ((λ _, 2), W_GroupDiff "1" "g" "T" "1" 9);
   ((λ _, 3), W_GroupDiff "1" "h" "T" "1" 5)].

Lemma last_write_shown_witness :
  exposes (λ _, 50) (applyAll demoWrites (NewWithClock 60)) "rocketmq_group_diff"
    [("group", "g"); ("topic", "T"); ("countOfOnlineConsumers", "1"); ("msgModel", "1")] (floatOfZ 9).
Proof.
  destruct (last_write_shown 60 (NewWithClock 60) [((λ _, 1), W_GroupDiff "1" "g" "T" "1" 7)]
    [((λ _, 3), W_GroupDiff "1" "h" "T" "1" 5)] (λ _, 2) (W_GroupDiff "1" "g" "T" "1" 9) (λ _, 50))
    as (i & name & labels & Hi & Hn & He).
  - apply rtc_refl.
  - lia.
  - intros _ _. lia.
  - repeat constructor. discriminate.
  - injection Hi as <-. injection Hn as <- <-. exact He.
Defined.
