(* ===== verification/Entries.v ===== *)
(** * The critical sections of the collector: internal/collector

    Every cache of the collector has its own [sync.RWMutex], and the health store
    one more.  A setter is one [put] under one lock, except that
    [AddBrokerRuntimeStatsMetric] is up to 63 of them, and [Sweep] sweeps 88 caches
    one after another.  [atom] is one critical section and [atomsOf] the critical
    sections of a call in order; run without interruption they are the operation of
    [Collector].

    [entryAt] is the entry of any of the 89 cached families under one key type, a
    [series]: an atom other than a sweep changes the one entry [effect] names, a
    sweep drops only entries older than the TTL, and the samples of a family are its
    entries that are not. *)

From Stdlib Require Import ZArith Lia String.
From S2P Require Import Prelude GoStrings GoFloat Util Model Store Health Collector Service Task Parallel Page.

#[local] Arguments look : simpl never.
#[local] Arguments put : simpl never.
#[local] Arguments sweep : simpl never.

(** ** Critical sections *)

Inductive atom : Type :=
| A_set (w : write)
| A_GroupConsumeTPS (cluster broker topic group : string) (value : float64)
| A_runtime (i : nat) (stats : BrokerRuntimeStats) (cluster brokerAddress brokerHost : string)
| A_distribute (i : nat) (stats : BrokerRuntimeStats) (cluster brokerAddress brokerHost : string)
| A_health (f : healthStore → healthStore)
| A_sweep (i : nat).

(** One [rm.cache.put] and one [dm.cache.put] of [AddBrokerRuntimeStatsMetric]. *)
Definition putRuntime (now : Z) (stats : BrokerRuntimeStats) (cluster addr host : string) (rm : runtimeMetric) : runtimeMetric :=
  mkRuntimeMetric (rm_name rm) (rm_help rm)
    (runtimeWrite now stats cluster addr host (rm_getVal rm stats) (rm_cache rm)) (rm_getVal rm).
Definition putDistribute (now : Z) (stats : BrokerRuntimeStats) (cluster addr host : string) (dm : distributeMetric)
    : distributeMetric :=
  mkDistributeMetric (dm_name dm) (dm_help dm) (dm_distKey dm)
    (runtimeWrite now stats cluster addr host
       (floatOfZ (default 0 (Model.PutMessageDistributeTimeMap stats !! dm_distKey dm))) (dm_cache dm)).

Section atoms.
Context `{GR : GoRange}.

Definition sweepRuntime (now : Z) (rm : runtimeMetric) : runtimeMetric :=
  mkRuntimeMetric (rm_name rm) (rm_help rm) (sweep now (rm_cache rm)) (rm_getVal rm).
Definition sweepDistribute (now : Z) (dm : distributeMetric) : distributeMetric :=
  mkDistributeMetric (dm_name dm) (dm_help dm) (dm_distKey dm) (sweep now (dm_cache dm)).

(** The [i]-th sweep of [Sweep]. *)
Definition sweepAt (i : nat) (now : Z) (c : MetricsCollector) : MetricsCollector :=
  match i with
  | 0 => set_topicOffset (sweep now (topicOffset c)) c
  | 1 => set_topicRetryOffset (sweep now (topicRetryOffset c)) c
  | 2 => set_topicDLQOffset (sweep now (topicDLQOffset c)) c
  | 3 => set_producerCounts (sweep now (producerCounts c)) c
  | 4 => set_topicPutNums (sweep now (topicPutNums c)) c
  | 5 => set_topicPutSize (sweep now (topicPutSize c)) c
  | 6 => set_consumerDiff (sweep now (consumerDiff c)) c
  | 7 => set_consumerRetryDiff (sweep now (consumerRetryDiff c)) c
  | 8 => set_consumerDLQDiff (sweep now (consumerDLQDiff c)) c
  | 9 => set_consumerCounts (sweep now (consumerCounts c)) c
  | 10 => set_consumerClientFailedMsgCounts (sweep now (consumerClientFailedMsgCounts c)) c
  | 11 => set_consumerClientFailedTPS (sweep now (consumerClientFailedTPS c)) c
  | 12 => set_consumerClientOKTPS (sweep now (consumerClientOKTPS c)) c
  | 13 => set_consumerClientRT (sweep now (consumerClientRT c)) c
  | 14 => set_consumerClientPullRT (sweep now (consumerClientPullRT c)) c
  | 15 => set_consumerClientPullTPS (sweep now (consumerClientPullTPS c)) c
  | 16 => set_groupBrokerTotalOffset (sweep now (groupBrokerTotalOffset c)) c
  | 17 => set_groupConsumeTPS (sweep now (groupConsumeTPS c)) c
  | 18 => set_groupGetNums (sweep now (groupGetNums c)) c
  | 19 => set_groupGetSize (sweep now (groupGetSize c)) c
  | 20 => set_sendBackNums (sweep now (sendBackNums c)) c
  | 21 => set_groupLatencyByTime (sweep now (groupLatencyByTime c)) c
  | 22 => set_brokerPutNums (sweep now (brokerPutNums c)) c
  | 23 => set_brokerGetNums (sweep now (brokerGetNums c)) c
  | 24 => set_brokerCommitLogDiff (sweep now (brokerCommitLogDiff c)) c
  | _ =>
      let j := (i - 25)%nat in
      if decide (j < length (runtimeMetrics c))%nat
      then set_runtimeMetrics (alter (sweepRuntime now) j (runtimeMetrics c)) c
      else set_distributeMetrics (alter (sweepDistribute now) (j - length (runtimeMetrics c))%nat (distributeMetrics c)) c
  end%nat.

(** One critical section, with its clock reading. *)
Definition runAtom (now : Z) (a : atom) (c : MetricsCollector) : MetricsCollector :=
  match a with
  | A_set w => applyWrite (λ _, now) w c
  | A_GroupConsumeTPS cl b t g v => AddGroupConsumeTPSMetric now cl b t g v c
  | A_runtime i stats cl ad host => set_runtimeMetrics (alter (putRuntime now stats cl ad host) i (runtimeMetrics c)) c
  | A_distribute i stats cl ad host =>
      set_distributeMetrics (alter (putDistribute now stats cl ad host) i (distributeMetrics c)) c
  | A_health f => set_health (f (health c)) c
  | A_sweep i => sweepAt i now c
  end.

(** The calls other goroutines make. *)
Inductive call : Type :=
| C_write (w : write)
| C_GroupConsumeTPS (cluster broker topic group : string) (value : float64)
| C_health (f : healthStore → healthStore)
| C_Sweep.

Definition runtimeAtoms (stats : BrokerRuntimeStats) (cl ad host : string) : list atom :=
  ((λ i, A_runtime i stats cl ad host) <$> seq 0 (length runtimeCatalog)) ++
  (if decide (0 < size (Model.PutMessageDistributeTimeMap stats))%nat
   then (λ i, A_distribute i stats cl ad host) <$> seq 0 (length distributeCatalog) else []).

Definition atomsOf (o : call) : list atom :=
  match o with
  | C_write (W_BrokerRuntimeStats stats cl ad host) => runtimeAtoms stats cl ad host
  | C_write w => [A_set w]
  | C_GroupConsumeTPS cl b t g v => [A_GroupConsumeTPS cl b t g v]
  | C_health f => [A_health f]
  | C_Sweep => A_sweep <$> seq 0 (25 + length runtimeCatalog + length distributeCatalog)
  end.

(** The same calls as the operations of [Collector]. *)
Definition runCall (clk : nat → Z) (o : call) (c : MetricsCollector) : MetricsCollector :=
  match o with
  | C_write w => applyWrite clk w c
  | C_GroupConsumeTPS cl b t g v => AddGroupConsumeTPSMetric (clk 0%nat) cl b t g v c
  | C_health f => set_health (f (health c)) c
  | C_Sweep => Sweep clk c
  end.

(** The atoms of a list one after another, the [i]-th at reading [clk (k + i)]. *)
Fixpoint runAtoms (clk : nat → Z) (k : nat) (l : list atom) (c : MetricsCollector) : MetricsCollector :=
  match l with
  | [] => c
  | a :: l' => runAtoms clk (S k) l' (runAtom (clk k) a c)
  end.

Lemma runAtoms_app clk k l1 l2 c :
  runAtoms clk k (l1 ++ l2) c = runAtoms clk (k + length l1) l2 (runAtoms clk k l1 c).
Proof.
  revert k c. induction l1 as [|a l1 IH]; intros k c; simpl; [by rewrite Nat.add_0_r|].
  rewrite IH. f_equal. lia.
Qed.

(** Altering every position in turn is [imap]. *)
Lemma alter_middle {A} (f : A → A) (l1 l2 : list A) x : alter f (length l1) (l1 ++ x :: l2) = l1 ++ f x :: l2.
Proof. induction l1 as [|y l1 IH]; [done|]. simpl. f_equal. exact IH. Qed.

Lemma alter_ge {A} (f : A → A) (l : list A) i : l !! i = None → alter f i l = l.
Proof. revert i. induction l as [|x l IH]; intros [|i] Hi; try done. simpl. f_equal. by apply IH. Qed.

Lemma alter_fmap {A B} (f : A → B) (g : A → A) i (l : list A) :
  (∀ x, f (g x) = f x) → f <$> alter g i l = f <$> l.
Proof.
  intros Hg. revert i. induction l as [|x l IH]; intros [|i]; try done.
  - change (f (g x) :: (f <$> l) = f x :: (f <$> l)). by rewrite Hg.
  - change (f x :: (f <$> alter g i l) = f x :: (f <$> l)). by rewrite IH.
Qed.

(** A run of atoms that alter the positions of a list of the state in turn. *)
Section alter.
Context {A : Type} (sel : MetricsCollector → list A) (upd : list A → MetricsCollector → MetricsCollector).
Context (P : MetricsCollector → Prop) (F : nat → atom) (f : Z → A → A).
Hypothesis sel_upd : ∀ c l, sel (upd l c) = l.
Hypothesis upd_sel : ∀ c, upd (sel c) c = c.
Hypothesis upd_upd : ∀ c l l', upd l (upd l' c) = upd l c.
Hypothesis P_upd : ∀ c l, P c → P (upd l c).
Hypothesis run_F : ∀ c j now, P c → (j < length (sel c))%nat → runAtom now (F j) c = upd (alter (f now) j (sel c)) c.

Lemma runAtoms_alter_from clk k c pre todo :
  P c → sel c = pre ++ todo →
  runAtoms clk k (F <$> seq (length pre) (length todo)) c = upd (pre ++ imap (λ i, f (clk (k + i)%nat)) todo) c.
Proof.
  revert k c pre. induction todo as [|x todo IH]; intros k c pre HP Hc; simpl.
  - by rewrite <- Hc, upd_sel.
  - rewrite run_F by (rewrite ?Hc, ?length_app; simpl; auto; lia). rewrite Hc, alter_middle.
    set (x' := f _ x). replace (S (length pre)) with (length (pre ++ [x'])) by (rewrite length_app; simpl; lia).
    rewrite (IH _ _ (pre ++ [x'])); [|auto|by rewrite sel_upd, <- app_assoc].
    rewrite upd_upd. f_equal. rewrite <- app_assoc. simpl. f_equal. unfold x'. rewrite Nat.add_0_r. f_equal.
    apply imap_ext. intros. simpl. by rewrite Nat.add_succ_r.
Qed.

Lemma runAtoms_alter clk k c n :
  P c → length (sel c) = n → runAtoms clk k (F <$> seq 0 n) c = upd (imap (λ i, f (clk (k + i)%nat)) (sel c)) c.
Proof. intros HP <-. by apply (runAtoms_alter_from clk k c []). Qed.
End alter.

Lemma set_runtimeMetrics_id c : set_runtimeMetrics (runtimeMetrics c) c = c.
Proof. by destruct c. Qed.
Lemma set_distributeMetrics_id c : set_distributeMetrics (distributeMetrics c) c = c.
Proof. by destruct c. Qed.

(** The catalogues give the lengths. *)
Lemma runtime_length T c : wf T c → length (runtimeMetrics c) = 50%nat.
Proof. intros [H _ _ _ _ _]. apply (f_equal length) in H. rewrite length_fmap in H. exact H. Qed.
Lemma distribute_length T c : wf T c → length (distributeMetrics c) = 13%nat.
Proof. intros [_ H _ _ _ _]. apply (f_equal length) in H. rewrite length_fmap in H. exact H. Qed.

(** A report, put by put. *)
Lemma runtimeAtoms_run T clk stats cl ad host c :
  wf T c → runAtoms clk 0 (runtimeAtoms stats cl ad host) c = AddBrokerRuntimeStatsMetric clk stats cl ad host c.
Proof.
  intros Hw. pose proof (runtime_length T c Hw) as Hr. pose proof (distribute_length T c Hw) as Hd.
  unfold runtimeAtoms. rewrite runAtoms_app, length_fmap, length_seq.
  rewrite (runAtoms_alter runtimeMetrics set_runtimeMetrics (λ _, True) _ (λ now, putRuntime now stats cl ad host))
    by (done || apply set_runtimeMetrics_id).
  unfold AddBrokerRuntimeStatsMetric. cbv zeta. destruct (decide _); [|done].
  rewrite (runAtoms_alter distributeMetrics set_distributeMetrics (λ _, True) _ (λ now, putDistribute now stats cl ad host))
    by (done || apply set_distributeMetrics_id).
  cbn [runtimeMetrics distributeMetrics set_runtimeMetrics]. by rewrite length_imap, Hr.
Qed.

(** A sweep, cache by cache. *)
Lemma sweepAtoms_run T clk c : wf T c → runAtoms clk 0 (atomsOf C_Sweep) c = Sweep clk c.
Proof.
  intros Hw. pose proof (runtime_length T c Hw) as Hr. pose proof (distribute_length T c Hw) as Hd.
  assert (atomsOf C_Sweep = (A_sweep <$> seq 0 25) ++ ((λ i, A_sweep (25 + i)) <$> seq 0 50)
            ++ ((λ i, A_sweep (75 + i)) <$> seq 0 13)) as -> by reflexivity.
  rewrite !runAtoms_app, !length_fmap, !length_seq. set (c1 := runAtoms clk 0 (A_sweep <$> seq 0 25) c).
  rewrite (runAtoms_alter runtimeMetrics set_runtimeMetrics (λ _, True) (λ i, A_sweep (25 + i)) sweepRuntime);
    [|done|apply set_runtimeMetrics_id|done|done| |done|exact Hr].
  2:{ intros c' j now _ Hj. cbn -[decide]. rewrite decide_True by lia. do 2 f_equal. lia. }
  rewrite (runAtoms_alter distributeMetrics set_distributeMetrics (λ c, length (runtimeMetrics c) = 50%nat)
    (λ i, A_sweep (75 + i)) sweepDistribute);
    [|done|apply set_distributeMetrics_id|done|done| | |exact Hd].
  2:{ intros c' j now Hc' Hj. cbn -[decide]. rewrite decide_False by lia. do 2 f_equal. lia. }
  2:{ cbn [runtimeMetrics set_runtimeMetrics]. by rewrite length_imap. }
  unfold c1, Sweep. cbn. by rewrite Hr.
Qed.

(** A call whose critical sections run without interruption is the operation
    [Collector] models as one step, with the same clock readings: each setter is the
    one [put] of its family, a broker's report the puts of its 50 gauges and, when
    the broker sent a distribution, of its 13 buckets, and [Sweep] the sweeps of all
    88 caches. *)
Lemma call_atoms T clk o c : collector_reachable T c → runAtoms clk 0 (atomsOf o) c = runCall clk o c.
Proof.
  intros Hw%wf_reachable. destruct o as [w| | |]; [|done|done|by apply (sweepAtoms_run T)].
  destruct w; try done. by apply (runtimeAtoms_run T).
Qed.

End atoms.

(** ** The writes as one list *)

(** A series: the family's position in [Gather] and the key of the entry. *)
Definition series : Type := nat * list string.

(** What a critical section writes: the series, and what a scrape shows of it. *)
Definition effect (a : atom) : option (series * (list string * float64)) :=
  match a with
  | A_set w => i ← slot w; Some ((i, keyOf w), shown w)
  | A_GroupConsumeTPS cl b t g v => Some ((11%nat, [cl; b; t; g]), ([cl; b; t; g], v))
  | A_distribute i stats cl ad host =>
      '(_, key) ← distributeCatalog !! i;
      Some (((26 + i)%nat, [cl; ad]), ((runtimeSeries stats cl ad host).*2,
        floatOfZ (default 0 (Model.PutMessageDistributeTimeMap stats !! key))))
  | A_runtime i stats cl ad host =>
      '(_, getVal) ← runtimeCatalog !! i;
      Some (((39 + i)%nat, [cl; ad]), ((runtimeSeries stats cl ad host).*2, getVal stats))
  | A_health _ | A_sweep _ => None
  end.

Abbreviation lookRuntime := (look runtimeLabels re_num).

(** The entry of a series in its cache, as a scrape renders it. *)
Definition entryAt (s : series) (c : MetricsCollector) : option (list string * float64 * Z) :=
  match s with
  | (0, [g; t; o; mm]) => lookDiff (mk_diffKey g t o mm) (consumerDiff c)
  | (1, [g; t; o; mm]) => lookDiff (mk_diffKey g t o mm) (consumerRetryDiff c)
  | (2, [g; t; o; mm]) => lookDiff (mk_diffKey g t o mm) (consumerDLQDiff c)
  | (3, [g]) => look (λ k v, [nv_caddrs v; nv_localaddrs v; k]) (λ v, floatOfZ (nv_count v)) g (consumerCounts c)
  | (4, [g; cl; b]) =>
      look (λ k _, [pck_cluster k; pck_broker k; pck_group k]) floatOfZ (mk_producerCountKey g cl b) (producerCounts c)
  | (5, [cl; b; t]) => lookOffset (mk_producerKey cl b t) (topicOffset c)
  | (6, [cl; b; t]) => lookOffset (mk_producerKey cl b t) (topicRetryOffset c)
  | (7, [cl; b; g]) => look (λ k _, [dk_cluster k; dk_broker k; dk_group k]) id (mk_dlqKey cl b g) (topicDLQOffset c)
  | (8, [cl; ip; t]) => lookPut (mk_topicPutNumKey cl ip t) (topicPutNums c)
  | (9, [cl; ip; t]) => lookPut (mk_topicPutNumKey cl ip t) (topicPutSize c)
  | (10, [cl; b; t; g]) => lookFloat (mk_consumerKey cl b t g) (groupGetNums c)
  | (11, [cl; b; t; g]) => lookFloat (mk_consumerKey cl b t g) (groupConsumeTPS c)
  | (12, [cl; b; t; g]) => lookInt (mk_consumerKey cl b t g) (groupBrokerTotalOffset c)
  | (14, [cl; b; t; g]) => lookFloat (mk_consumerKey cl b t g) (groupGetSize c)
  | (15, [cl; b; t; g]) => lookFloat (mk_consumerKey cl b t g) (sendBackNums c)
  | (16, [cl; b; t; g]) => lookInt (mk_consumerKey cl b t g) (groupLatencyByTime c)
  | (17, [g; t; ca]) => lookClient (mk_clientRuntimeKey g t ca) (consumerClientFailedMsgCounts c)
  | (18, [g; t; ca]) => lookClient (mk_clientRuntimeKey g t ca) (consumerClientFailedTPS c)
  | (19, [g; t; ca]) => lookClient (mk_clientRuntimeKey g t ca) (consumerClientOKTPS c)
  | (20, [g; t; ca]) => lookClient (mk_clientRuntimeKey g t ca) (consumerClientRT c)
  | (21, [g; t; ca]) => lookClient (mk_clientRuntimeKey g t ca) (consumerClientPullRT c)
  | (22, [g; t; ca]) => lookClient (mk_clientRuntimeKey g t ca) (consumerClientPullTPS c)
  | (23, [cl; ip]) => lookBroker (mk_brokerKey cl ip) (brokerPutNums c)
  | (24, [cl; ip]) => lookBroker (mk_brokerKey cl ip) (brokerGetNums c)
  | (25, [cl; ip]) => lookBroker (mk_brokerKey cl ip) (brokerCommitLogDiff c)
  | (i, [cl; ad]) =>
      if decide (26 ≤ i < 39) then dm ← distributeMetrics c !! (i - 26); lookRuntime (mk_brokerRuntimeKey cl ad) (dm_cache dm)
      else if decide (39 ≤ i) then rm ← runtimeMetrics c !! (i - 39); lookRuntime (mk_brokerRuntimeKey cl ad) (rm_cache rm)
      else None
  | _ => None
  end%nat.

(** A runtime statistics write is many atoms, any other one. *)
Definition atomic (a : atom) : Prop := match a with A_set w => is_Some (slot w) | _ => True end.

Lemma atomsOf_atomic o : Forall atomic (atomsOf o).
Proof.
  destruct o as [w| | |]; try (by repeat constructor); cbn [atomsOf].
  destruct w; try (apply Forall_singleton; by eexists). cbn [atomsOf]. unfold runtimeAtoms.
  apply Forall_app. split; [|case_decide; [|constructor]]; by apply Forall_fmap, Forall_true.
Qed.


(** The entry of a series after a write to its or another series. *)
Definition written (now : Z) (e : option (series * (list string * float64))) (s : series) (c : MetricsCollector)
    : option (list string * float64 * Z) :=
  match e with
  | Some (s', x) => if decide (s' = s) then Some (x, now) else entryAt s c
  | None => entryAt s c
  end.

Section entry.
Context `{GR : GoRange}.

Lemma entryAt_set now w s c : is_Some (slot w) → entryAt s (runAtom now (A_set w) c) = written now (effect (A_set w)) s c.
Proof.
  intros [j Hj]. destruct s as [i key].
  destruct w; unfold slot, byPrefix in Hj; cbn [runAtom applyWrite effect slot];
    unfold AddTopicOffsetMetric, AddGroupDiffMetric, keyOf, shown, byPrefix; cbv zeta; repeat case_match; simplify_eq;
    cbn [mbind option_bind written]; do 26 (try destruct i as [|i]).
  all: try (rewrite decide_False by congruence; reflexivity).
  all: do 5 (try destruct key as [|? key]); try (rewrite decide_False by congruence; reflexivity).
  all: cbn; unfold addClient; rewrite look_put; repeat case_decide; simplify_eq; done.
Qed.

Lemma entryAt_report i key c :
  (26 ≤ i)%nat →
  entryAt (i, key) c =
  match key with
  | [cl; ad] =>
      if decide (i < 39)%nat then dm ← distributeMetrics c !! (i - 26)%nat; lookRuntime (mk_brokerRuntimeKey cl ad) (dm_cache dm)
      else rm ← runtimeMetrics c !! (i - 39)%nat; lookRuntime (mk_brokerRuntimeKey cl ad) (rm_cache rm)
  | _ => None
  end.
Proof.
  intros Hi. do 26 (destruct i as [|i]; [lia|]). destruct key as [|cl [|ad [|? ?]]]; try reflexivity. unfold entryAt.
  repeat case_decide; try reflexivity; lia.
Qed.

Lemma entryAt_static i key c c' :
  (i < 26)%nat → set_runtimeMetrics [] (set_distributeMetrics [] (set_health newHealthStore c)) =
                 set_runtimeMetrics [] (set_distributeMetrics [] (set_health newHealthStore c')) →
  entryAt (i, key) c = entryAt (i, key) c'.
Proof.
  intros Hs E. destruct c, c'. injection E as ?. subst. do 26 (destruct i as [|i]; [reflexivity|]). lia.
Qed.

Lemma lookRuntime_put stats host v now k k' (ca : ttlCache brokerRuntimeKey runtimeEntry) :
  lookRuntime k (put now k' (runtimeEntryOf stats host v) ca) =
  if decide (k' = k) then Some ((runtimeSeries stats (rk_cluster k) (rk_brokerAddress k) host).*2, v, now) else lookRuntime k ca.
Proof. by rewrite look_put. Qed.

Lemma entryAt_distribute T now j stats cl ad host s c :
  wf T c → entryAt s (runAtom now (A_distribute j stats cl ad host) c) =
           written now (effect (A_distribute j stats cl ad host)) s c.
Proof.
  intros Hw. destruct s as [i key]. cbn [effect runAtom].
  assert ((λ d, (dm_name d, dm_help d, dm_distKey d)) <$> distributeMetrics c !! j = distributeCatalog !! j) as Hj
    by (rewrite <- list_lookup_fmap; by rewrite (wf_distribute T c Hw)).
  destruct (distributeMetrics c !! j) as [dm|] eqn:Ej; rewrite <- Hj; cbn [fmap option_fmap option_map mbind option_bind written].
  - destruct (decide (i < 26)%nat) as [Hi|Hi].
    { rewrite decide_False; [by apply entryAt_static|]. intros [= <- _]. lia. }
    rewrite !entryAt_report by lia. cbn [distributeMetrics runtimeMetrics set_distributeMetrics].
    destruct key as [|cl' [|ad' [|? ?]]]; try (rewrite decide_False by congruence; reflexivity).
    destruct (decide (i < 39)%nat).
    + destruct (decide (j = (i - 26)%nat)) as [->|Hne].
      * rewrite list_lookup_alter_eq, Ej. cbn [fmap option_fmap option_map mbind option_bind].
        unfold putDistribute, runtimeWrite. cbn [dm_cache].
        rewrite lookRuntime_put. replace (26 + (i - 26))%nat with i by lia.
        repeat case_decide; simplify_eq; try done.
      * rewrite list_lookup_alter_ne by done. rewrite decide_False; [done|]. intros [= <- _]. lia.
    + rewrite decide_False; [done|]. intros [= <- _].
      apply lookup_lt_Some in Ej. rewrite (distribute_length T c Hw) in Ej. lia.
  - f_equal. by rewrite alter_ge, ?set_distributeMetrics_id, ?set_runtimeMetrics_id.
Qed.

Lemma entryAt_runtime T now j stats cl ad host s c :
  wf T c → entryAt s (runAtom now (A_runtime j stats cl ad host) c) =
           written now (effect (A_runtime j stats cl ad host)) s c.
Proof.
  intros Hw. destruct s as [i key]. cbn [effect runAtom].
  assert ((λ r, (rm_name r, rm_help r, rm_getVal r)) <$> runtimeMetrics c !! j = runtimeCatalog !! j) as Hj
    by (rewrite <- list_lookup_fmap; by rewrite (wf_runtime T c Hw)).
  destruct (runtimeMetrics c !! j) as [rm|] eqn:Ej; rewrite <- Hj; cbn [fmap option_fmap option_map mbind option_bind written].
  - destruct (decide (i < 26)%nat) as [Hi|Hi].
    { rewrite decide_False; [by apply entryAt_static|]. intros [= <- _]. lia. }
    rewrite !entryAt_report by lia. cbn [distributeMetrics runtimeMetrics set_runtimeMetrics].
    destruct key as [|cl' [|ad' [|? ?]]]; try (rewrite decide_False by congruence; reflexivity).
    destruct (decide (i < 39)%nat); [rewrite decide_False; [done|]; intros [= <- _]; lia|].
    destruct (decide (j = (i - 39)%nat)) as [->|Hne].
    + rewrite list_lookup_alter_eq, Ej. cbn [fmap option_fmap option_map mbind option_bind].
      unfold putRuntime, runtimeWrite. cbn [rm_cache].
      rewrite lookRuntime_put. replace (39 + (i - 39))%nat with i by lia.
      repeat case_decide; simplify_eq; try done.
    + rewrite list_lookup_alter_ne by done. rewrite decide_False; [done|]. intros [= <- _]. lia.
  - f_equal. by rewrite alter_ge, ?set_distributeMetrics_id, ?set_runtimeMetrics_id.
Qed.

Definition isSweep (a : atom) : bool := match a with A_sweep _ => true | _ => false end.

(** A critical section that is not a sweep changes the entry it writes and no other. *)
Lemma entryAt_atom T now a s c :
  wf T c → atomic a → isSweep a = false → entryAt s (runAtom now a c) = written now (effect a) s c.
Proof.
  intros Hw Ha Hn. destruct a; try done.
  - by apply entryAt_set.
  - destruct s as [i key]. cbn [runAtom effect written]. do 26 (try destruct i as [|i]).
    all: try (rewrite decide_False by congruence; reflexivity).
    do 5 (try destruct key as [|? key]); try (rewrite decide_False by congruence; reflexivity).
    cbn. rewrite look_put; repeat case_decide; simplify_eq; done.
  - by apply (entryAt_runtime T).
  - by apply (entryAt_distribute T).
Qed.
End entry.

Section invariants.
Context `{GR : GoRange}.

Lemma look_new {K V} `{Countable K} labels num k T : look labels num k (newCache T : ttlCache K V) = None.
Proof. unfold look. cbn [m newCache]. by rewrite lookup_empty. Qed.

Lemma entryAt_new T s : entryAt s (NewWithClock T) = None.
Proof.
  destruct s as [i key]. destruct (decide (i < 26)%nat) as [Hi|Hi].
  - do 26 (destruct i as [|i]; [do 5 (try destruct key as [|? key]); try reflexivity; apply look_new|]). lia.
  - rewrite entryAt_report by lia. destruct key as [|cl [|ad [|? ?]]]; try done.
    cbn [distributeMetrics runtimeMetrics NewWithClock]. unfold buildDistributeMetrics, buildRuntimeMetrics.
    rewrite !list_lookup_fmap. case_decide.
    + destruct (distributeCatalog !! _) as [[[? ?] ?]|]; [apply look_new|done].
    + destruct (runtimeCatalog !! _) as [[[? ?] ?]|]; [apply look_new|done].
Qed.

Lemma wf_sweepAt T i now c : wf T c → wf T (sweepAt i now c).
Proof.
  intros [H1 H2 H3 H4 H6 H5].
  assert (∀ j, wf T (set_runtimeMetrics (alter (sweepRuntime now) j (runtimeMetrics c)) c)) as Hr.
  { intros j. split; try done; cbn [runtimeMetrics set_runtimeMetrics]; [by rewrite <- H1; apply alter_fmap|by apply Forall_alter]. }
  assert (∀ j, wf T (set_distributeMetrics (alter (sweepDistribute now) j (distributeMetrics c)) c)) as Hd.
  { intros j. split; try done; cbn [distributeMetrics set_distributeMetrics]; [by rewrite <- H2; apply alter_fmap|by apply Forall_alter]. }
  do 25 (destruct i as [|i]; [split; try done;
    (repeat (apply Forall_cons in H5 as [? H5]); repeat constructor; try done; by apply client_ok_sweep)|]).
  cbn -[decide alter]. case_decide; auto.
Qed.

Lemma wf_atom T now a c : atomic a → wf T c → wf T (runAtom now a c).
Proof.
  intros Ha Hw. destruct a; cbn [runAtom].
  - eapply wf_step; [exact Hw|]. apply applyWrite_cstep.
  - eapply wf_step; [exact Hw|]. constructor.
  - destruct Hw as [H1 H2 H3 H4 H6 H5]. split; try done; cbn [runtimeMetrics set_runtimeMetrics];
      [by rewrite <- H1; apply alter_fmap|by apply Forall_alter].
  - destruct Hw as [H1 H2 H3 H4 H6 H5]. split; try done; cbn [distributeMetrics set_distributeMetrics];
      [by rewrite <- H2; apply alter_fmap|by apply Forall_alter].
  - eapply wf_step; [exact Hw|]. constructor.
  - by apply wf_sweepAt.
Qed.

(** A sweep at reading [t] drops the entry if it is older than the TTL, or leaves
    it alone. *)
Definition sweptTo (T t : Z) (e e' : option (list string * float64 * Z)) : Prop :=
  e' = e ∨ e' = None ∧ ∃ x tw, e = Some (x, tw) ∧ T < timeSub t tw.

Lemma look_sweep {K V} `{Countable K} `{!MapRange K (entry V)} labels num k T t (ca : ttlCache K V) :
  ttl ca = T → sweptTo T t (look labels num k ca) (look labels num k (sweep t ca)).
Proof.
  intros <-. unfold look. rewrite lookup_sweep. destruct (m ca !! k) as [e|]; [|by left]. cbn.
  destruct (expired t ca e) eqn:E; [right|by left]. split; [done|]. eexists _, _. split; [done|]. by apply Z.ltb_lt in E.
Qed.

Lemma entryAt_sweep T i t s c : wf T c → sweptTo T t (entryAt s c) (entryAt s (sweepAt i t c)).
Proof.
  intros Hw. destruct Hw as [H1 H2 H3 H4 H6 H5]. injection H6 as ?. destruct s as [j key].
  rewrite Forall_lookup in H3. rewrite Forall_lookup in H4.
  destruct (decide (i < 25)%nat) as [Hi|Hi].
  - do 25 (destruct i as [|i]; [do 26 (try destruct j as [|j]); try (by left);
      do 5 (try destruct key as [|? key]); try (by left); by apply look_sweep|]). lia.
  - assert (sweepAt i t c = if decide (i - 25 < length (runtimeMetrics c))%nat
      then set_runtimeMetrics (alter (sweepRuntime t) (i - 25)%nat (runtimeMetrics c)) c
      else set_distributeMetrics (alter (sweepDistribute t) (i - 25 - length (runtimeMetrics c))%nat (distributeMetrics c)) c) as ->
      by (do 25 (destruct i as [|i]; [lia|]); reflexivity).
    destruct (decide (j < 26)%nat) as [Hj|Hj]; [left; case_decide; by apply entryAt_static|].
    rewrite !entryAt_report by lia. destruct key as [|cl [|ad [|? ?]]]; try (by left).
    destruct (decide (i - 25 < _)%nat); cbn [runtimeMetrics distributeMetrics set_runtimeMetrics set_distributeMetrics];
      destruct (decide (j < 39)%nat); try (by left); rewrite list_lookup_alter;
      (destruct (decide (_ = _)) as [<-|]; [|by left]).
    + destruct (runtimeMetrics c !! _) as [rm|] eqn:E; [|by left]. apply look_sweep. by eapply H3.
    + destruct (distributeMetrics c !! _) as [dm|] eqn:E; [|by left]. apply look_sweep. by eapply H4.
Qed.

(** The samples of a family at a reading are its entries that are not older than
    the TTL. *)
Lemma look_snapshot {K V} `{Countable K} labels num T t (ca : ttlCache K V) f vals v :
  ttl ca = T → (∀ k x, f (k, x) = mkSample (labels k x) (num x)) →
  mkSample vals v ∈ f <$> snapshot t ca ↔ ∃ k tw, look labels num k ca = Some (vals, v, tw) ∧ timeSub t tw ≤ T.
Proof.
  intros <- Hf. rewrite list_elem_of_fmap. unfold look. split.
  - intros ([k x] & E & Hin). rewrite Hf in E. simplify_eq. apply elem_of_snapshot in Hin. unfold get, expired in Hin.
    exists k. destruct (m ca !! k) as [e|]; [|done]. destruct (ttl ca <? _) eqn:Ex; [done|]. simplify_eq.
    eexists. split; [done|]. by apply Z.ltb_ge in Ex.
  - intros (k & tw & Hl & Ht). destruct (m ca !! k) as [e|] eqn:E; simplify_eq/=. exists (k, value e). rewrite Hf. split; [done|].
    apply elem_of_snapshot. unfold get, expired. rewrite E. by rewrite (proj2 (Z.ltb_ge _ _)).
Qed.

Ltac entry_key Hl Ht tw :=
  first [ eexists [_], tw; exact (conj Hl Ht) | eexists [_; _], tw; exact (conj Hl Ht)
        | eexists [_; _; _], tw; exact (conj Hl Ht) | eexists [_; _; _; _], tw; exact (conj Hl Ht) ].
Ltac sample_slot HT :=
  unfold diffSamples, countSamples, producerCountSamples, producerOffsetSamples, dlqOffsetSamples, topicPutSamples,
    consumerSamplesInt64, consumerSamplesFloat, clientSamples, brokerSamples;
  rewrite look_snapshot by (exact HT || done); split;
  [ intros (k & tw & Hl & Ht); first [entry_key Hl Ht tw | destruct k; entry_key Hl Ht tw]
  | intros (key & tw & Hl & Ht); do 5 (try destruct key as [|? key]); try discriminate; eexists _, tw; exact (conj Hl Ht) ].

Lemma sample_report T t (ca : ttlCache brokerRuntimeKey runtimeEntry) vals v e :
  ttl ca = T → (∀ key, e key = match key with [cl; ad] => lookRuntime (mk_brokerRuntimeKey cl ad) ca | _ => None end) →
  mkSample vals v ∈ runtimeSamples t ca ↔ ∃ key tw, e key = Some (vals, v, tw) ∧ timeSub t tw ≤ T.
Proof.
  intros HT He. unfold runtimeSamples. rewrite (look_snapshot runtimeLabels re_num T) by done. split.
  - intros ([cl ad] & tw & Hl & Ht). exists [cl; ad], tw. by rewrite He.
  - intros (key & tw & Hl & Ht). rewrite He in Hl. destruct key as [|cl [|ad [|? ?]]]; try discriminate. eauto.
Qed.

Lemma sample_entry T i s t c vals v :
  wf T c → (i < 89)%nat → familySpecs c !! i = Some s →
  mkSample vals v ∈ spSamples s t ↔ ∃ key tw, entryAt (i, key) c = Some (vals, v, tw) ∧ timeSub t tw ≤ T.
Proof.
  intros Hw Hi Hs. pose proof Hw as [H1 H2 H3 H4 H6 H5]. injection H6 as ?.
  rewrite Forall_lookup in H3. rewrite Forall_lookup in H4.
  destruct (decide (i < 26)%nat) as [Hi'|Hi'].
  - clear H1 H2 H3 H4 H5 Hw Hi.
    do 26 (destruct i as [|i]; [injection Hs as <-; cbn [spSamples];
      first [ match goal with HT : ttl ?ca = T |- _ ∈ _ t ?ca ↔ _ => sample_slot HT end
            | split; [by intros ?%elem_of_nil|intros (key & tw & Hl & _); do 5 (try destruct key as [|? key]); discriminate] ]|]). lia.
  - destruct (decide (i < 39)%nat) as [Hi2|Hi2].
    + unfold familySpecs in Hs. rewrite lookup_app_r in Hs by (simpl; lia). rewrite lookup_app_l in Hs.
      2:{ unfold distributeSpecs. rewrite length_fmap, (distribute_length T c Hw). simpl. lia. }
      unfold distributeSpecs in Hs. rewrite list_lookup_fmap in Hs. simpl length in Hs.
      destruct (distributeMetrics c !! _) as [dm|] eqn:E; [|done]. injection Hs as <-. cbn [spSamples].
      apply (sample_report T); [by eapply H4|]. intros key. rewrite entryAt_report by lia.
      destruct key as [|? [|? [|? ?]]]; try done. by rewrite decide_True, E by lia.
    + unfold familySpecs in Hs. rewrite app_assoc, lookup_app_r, lookup_app_l in Hs;
        unfold distributeSpecs, runtimeSpecs in *;
        rewrite ?length_app, ?length_fmap, ?(distribute_length T c Hw), ?(runtime_length T c Hw) in *; simpl length in *; try lia.
      rewrite list_lookup_fmap in Hs.
      destruct (runtimeMetrics c !! _) as [rm|] eqn:E; [|done]. injection Hs as <-. cbn [spSamples].
      apply (sample_report T); [by eapply H3|]. intros key. rewrite entryAt_report by lia.
      destruct key as [|? [|? [|? ?]]]; try done. rewrite decide_False by lia.
      replace (i - (26 + 13))%nat with (i - 39)%nat in E by lia. by rewrite E.
Qed.
End invariants.
