(* ===== verification/Scrape.v ===== *)
(** * Scrapes among writers: internal/collector

    The interleaving of setters, sweeps and scrapes at the grain of their critical
    sections, over the atoms of [Entries].  [Gather] takes the lock of one cache
    after another, so other goroutines write between its 94 reads; [snapshot] and
    [sweep] read the clock before they take the lock, so other goroutines also write
    between a reading and its use.

    A critical section is one step, so what is not modelled is the waiting for a
    lock: that every section releases its lock is taken from the code.

    The theorem: a finished scrape has all 94 families, none of them torn; each series it
    shows was the newest of its entry at some moment of the scrape and not older
    than the TTL when the scrape began; and each series written before the scrape,
    not overwritten during it and within the TTL at its end is shown. *)

From Stdlib Require Import ZArith Lia String.
From S2P Require Import Prelude GoStrings GoFloat Util Model Store Health Collector Service Task Parallel Page Entries.

(** ** Threads *)

(** The writes so far, newest first: the abstract state of the caches. *)
Abbreviation history := (list (series * (list string * float64) * Z)).

Definition newest (s : series) (h : history) : option (list string * float64 * Z) :=
  (λ e, (e.1.2, e.2)) <$> head (filter (λ e, e.1.1 = s) h).

(** A family as a scrape read it; its clock reading, the time and the writes when
    it held the lock. *)
Record read : Type := mkRead { rFam : metricFamily; rClock : Z; rNow : Z; rHist : history }.

(** A goroutine in a call, or in [Gather]: what it has left to do or what it has
    read so far, and the clock reading it holds.  A scrape also records when it began and
    the writes before it. *)
Inductive thread : Type :=
| Caller (todo : list atom) (reading : option Z)
| Scraper (since : Z) (before : history) (page : list read) (reading : option Z).

Record world : Type := mkWorld { now : Z; coll : MetricsCollector; hist : history; threads : list thread }.

(** The abstract effect of a critical section. *)
Definition record (t : Z) (a : atom) (h : history) : history :=
  match effect a with Some (s, x) => (s, x, t) :: h | None => h end.

Section machine.
Context `{GR : GoRange}.

(** The five health families and the one that is never filled read no clock: their
    reading is not used. *)
Inductive wstep (W : world) : world → Prop :=
| W_tick t : now W ≤ t → wstep W (mkWorld t (coll W) (hist W) (threads W))
| W_call o : wstep W (mkWorld (now W) (coll W) (hist W) (threads W ++ [Caller (atomsOf o) None]))
| W_scrape : wstep W (mkWorld (now W) (coll W) (hist W) (threads W ++ [Scraper (now W) (hist W) [] None]))
| W_put i a todo :
    threads W !! i = Some (Caller (a :: todo) None) → isSweep a = false →
    wstep W (mkWorld (now W) (runAtom (now W) a (coll W)) (record (now W) a (hist W)) (<[i := Caller todo None]> (threads W)))
| W_sweepClock i j todo :
    threads W !! i = Some (Caller (A_sweep j :: todo) None) →
    wstep W (mkWorld (now W) (coll W) (hist W) (<[i := Caller (A_sweep j :: todo) (Some (now W))]> (threads W)))
| W_sweep i j todo t :
    threads W !! i = Some (Caller (A_sweep j :: todo) (Some t)) →
    wstep W (mkWorld (now W) (runAtom t (A_sweep j) (coll W)) (hist W) (<[i := Caller todo None]> (threads W)))
| W_readClock i since before page :
    threads W !! i = Some (Scraper since before page None) →
    wstep W (mkWorld (now W) (coll W) (hist W) (<[i := Scraper since before page (Some (now W))]> (threads W)))
| W_read i since before page t s f :
    threads W !! i = Some (Scraper since before page (Some t)) →
    familySpecs (coll W) !! length page = Some s → buildFamily t s = Ret f →
    wstep W (mkWorld (now W) (coll W) (hist W)
      (<[i := Scraper since before (page ++ [mkRead f t (now W) (hist W)]) None]> (threads W))).

Definition start (T t : Z) : world := mkWorld t (NewWithClock T) [] [].

Definition world_reachable (T : Z) (W : world) : Prop := ∃ t, rtc wstep (start T t) W.

(** ** The invariant *)

(** The caches hold the newest write of every series, or have swept it after its
    TTL. *)
Definition tracks (T t : Z) (h : history) (c : MetricsCollector) : Prop :=
  ∀ s, sweptTo T t (newest s h) (entryAt s c).

(** A family is that of the collector at the moment of its read. *)
Definition read_ok (T since : Z) (before : history) (j : nat) (rd : read) : Prop :=
  ∃ c s, wf T c ∧ tracks T (rNow rd) (rHist rd) c ∧ familySpecs c !! j = Some s ∧
    rFam rd = familyOf (rClock rd) s ∧ since ≤ rClock rd ≤ rNow rd ∧ before `suffix_of` rHist rd.

Definition thread_ok (T t : Z) (h : history) (th : thread) : Prop :=
  match th with
  | Caller todo r => Forall atomic todo ∧ ∀ x, r = Some x → x ≤ t
  | Scraper since before page r =>
      since ≤ t ∧ before `suffix_of` h ∧ (∀ x, r = Some x → since ≤ x ≤ t) ∧
      ∀ j rd, page !! j = Some rd → read_ok T since before j rd ∧ rNow rd ≤ t ∧ rHist rd `suffix_of` h
  end.

Definition inv (T : Z) (W : world) : Prop :=
  wf T (coll W) ∧ tracks T (now W) (hist W) (coll W) ∧ Forall (thread_ok T (now W) (hist W)) (threads W).

Lemma sweptTo_later T t t' e e' : t ≤ t' → sweptTo T t e e' → sweptTo T t' e e'.
Proof.
  intros Ht [->|(-> & x & tw & -> & Hx)]; [by left|right]. split; [done|]. eexists _, _. split; [done|].
  pose proof (timeSub_mono t t' tw Ht). lia.
Qed.

Lemma newest_cons s s' x t h : newest s ((s', x, t) :: h) = if decide (s' = s) then Some (x, t) else newest s h.
Proof. unfold newest. rewrite filter_cons. cbn [fst snd]. by destruct (decide (s' = s)). Qed.

Lemma newest_app s h1 h2 : Forall (λ e, e.1.1 ≠ s) h1 → newest s (h1 ++ h2) = newest s h2.
Proof.
  induction 1 as [|[[s' x] t] h1 Hs _ IH]; [done|]. cbn [app]. rewrite newest_cons. cbn [fst] in Hs.
  by rewrite decide_False.
Qed.

Lemma record_suffix t a h : h `suffix_of` record t a h.
Proof. unfold record. destruct (effect a) as [[s x]|]; [by apply suffix_cons_r|done]. Qed.

(** A put is its abstract effect. *)
Lemma tracks_put T t a h c :
  wf T c → atomic a → isSweep a = false → tracks T t h c → tracks T t (record t a h) (runAtom t a c).
Proof.
  intros Hw Ha Hn Htr s. rewrite (entryAt_atom T) by done. unfold record, written.
  destruct (effect a) as [[s' x]|]; [|apply Htr]. rewrite newest_cons. case_decide; [by left|apply Htr].
Qed.

(** A sweep has none, once its reading is past. *)
Lemma tracks_sweep T t t' i h c : wf T c → t ≤ t' → tracks T t' h c → tracks T t' h (sweepAt i t c).
Proof.
  intros Hw Ht Htr s. destruct (entryAt_sweep T i t s c Hw) as [->|(-> & x & tw & E & Hx)]; [apply Htr|].
  right. split; [done|]. exists x, tw. pose proof (timeSub_mono t t' tw Ht). split; [|lia].
  destruct (Htr s) as [<-|[E' _]]; congruence.
Qed.

Lemma thread_later T t t' h h' th : t ≤ t' → h `suffix_of` h' → thread_ok T t h th → thread_ok T t' h' th.
Proof.
  intros Ht Hh. destruct th as [todo r|since before page r]; simpl.
  - intros [? Hr]. split; [done|]. intros x Hx. specialize (Hr x Hx). lia.
  - intros (? & ? & Hr & Hp). split_and!; [lia|by trans h|intros x Hx; specialize (Hr x Hx); lia|].
    intros j rd Hj. destruct (Hp j rd Hj) as (? & ? & ?). split_and!; [done|lia|by trans h].
Qed.

Lemma threads_later T t t' h h' l :
  t ≤ t' → h `suffix_of` h' → Forall (thread_ok T t h) l → Forall (thread_ok T t' h') l.
Proof. intros Ht Hh Hl. eapply Forall_impl; [exact Hl|]. intros. by eapply thread_later. Qed.

Lemma threads_snoc T t h l th : Forall (thread_ok T t h) l → thread_ok T t h th → Forall (thread_ok T t h) (l ++ [th]).
Proof. intros. apply Forall_app. by repeat constructor. Qed.

Lemma inv_step T W W' : inv T W → wstep W W' → inv T W'.
Proof.
  intros (Hw & Htr & Hth) Hs. pose proof (proj1 (Forall_lookup _ _) Hth) as Hl. unfold inv.
  destruct Hs as [t Ht|o| |i a todo Hi Ha|i j todo Hi|i j todo t Hi|i since before page Hi|i since before page t s f Hi Hsp Hf];
    cbn [now coll hist threads]; try specialize (Hl _ _ Hi) as Hok; cbn [thread_ok] in *.
  - split; [done|]. split; [|by eapply threads_later]. intros s. by eapply sweptTo_later.
  - split_and!; [done..|]. apply threads_snoc; [done|]. split; [apply atomsOf_atomic|done].
  - split_and!; [done..|]. apply threads_snoc; [done|]. by split_and!.
  - destruct Hok as [[Hat Hto]%Forall_cons _]. split; [by apply wf_atom|]. split; [by apply tracks_put|].
    apply Forall_insert; [|by split]. eapply threads_later; [reflexivity|apply record_suffix|done].
  - destruct Hok as [Hto _]. split_and!; [done..|]. apply Forall_insert; [done|]. split; [done|]. intros x [= <-]. lia.
  - destruct Hok as [[_ Hto]%Forall_cons Hr]. specialize (Hr t eq_refl). split; [by apply wf_atom|].
    split; [by apply tracks_sweep|]. apply Forall_insert; [done|]. by split.
  - destruct Hok as (? & ? & _ & ?). split_and!; [done..|]. apply Forall_insert; [done|]. split_and!; try done.
    intros x [= <-]. lia.
  - destruct Hok as (Hsi & Hb & Hr & Hp). specialize (Hr t eq_refl). split_and!; [done..|]. apply Forall_insert; [done|].
    split_and!; [lia|done|done|]. intros j rd [Hj|[Hj E]]%lookup_app_Some; [by apply Hp|].
    apply list_lookup_singleton_Some in E as [Ej <-]. replace j with (length page) by lia. cbn [rNow rHist].
    split_and!; [|lia|done]. exists (coll W), s. split_and!; try done; [|cbn; lia..].
    rewrite buildFamily_ok in Hf by exact (proj1 (Forall_lookup _ _) (specs_arity (coll W)) _ _ Hsp). by injection Hf.
Qed.

Lemma inv_reachable T W : world_reachable T W → inv T W.
Proof.
  intros [t Hr]. eapply rtc_invariant; [apply inv_step|exact Hr|]. split; [apply wf_new|]. split; [|constructor].
  intros s. left. apply entryAt_new.
Qed.

(** ** The page *)

(** The label names of the families, in the order of the page. *)
Definition familyLabels : list (list string) := spLabels <$> familySpecs (NewWithClock 0).

Lemma labels_wf T c : wf T c → spLabels <$> familySpecs c = familyLabels.
Proof.
  assert (∀ T c, wf T c → spLabels <$> familySpecs c =
    (spLabels <$> staticSpecs c) ++ replicate 63 brokerRuntimeLabels ++ (spLabels <$> healthSpecs c)) as H.
  { intros T' c' Hw. unfold familySpecs, distributeSpecs, runtimeSpecs. rewrite !fmap_app, <- !list_fmap_compose.
    assert (∀ A (l : list A), (λ _, brokerRuntimeLabels) <$> l = replicate (length l) brokerRuntimeLabels) as Hc
      by (intros A l; by induction l; f_equal/=).
    unfold compose. cbn [spLabels]. rewrite !Hc, (distribute_length T' c' Hw), (runtime_length T' c' Hw). done. }
  intros Hw. unfold familyLabels. by rewrite (H T c Hw), (H 0 _ (wf_new 0)).
Qed.

(** The newest write of an entry that is not written between two moments. *)
Lemma newest_between s before h h1 :
  before `suffix_of` h → h `suffix_of` h1 ++ before → Forall (λ e, e.1.1 ≠ s) h1 → newest s h = newest s before.
Proof.
  intros [k1 ->] [k2 E] Hh1. rewrite app_assoc in E. apply app_inv_tail in E as ->.
  apply Forall_app in Hh1 as [_ Hk]. by rewrite newest_app.
Qed.

(** What a family read during a scrape shows: only newest writes not older than the
    TTL at its clock reading, and all that are not older when it held the lock. *)
Lemma read_shows T since before j labels rd :
  read_ok T since before j rd → (j < 89)%nat → familyLabels !! j = Some labels →
  (∀ x, x ∈ famMetrics (rFam rd) → ∃ key vals v tw, x = mkMetric (zip labels vals) v ∧
     newest (j, key) (rHist rd) = Some (vals, v, tw) ∧ timeSub (rClock rd) tw ≤ T) ∧
  (∀ key vals v tw, newest (j, key) (rHist rd) = Some (vals, v, tw) → timeSub (rNow rd) tw ≤ T →
     mkMetric (zip labels vals) v ∈ famMetrics (rFam rd)).
Proof.
  intros (c & s & Hw & Htr & Hs & Hf & Hcl & _) Hj Hl.
  assert (spLabels s = labels) as El.
  { rewrite <- (labels_wf T c Hw), list_lookup_fmap, Hs in Hl. by injection Hl. }
  rewrite Hf. cbn [familyOf famMetrics]. rewrite El. split.
  - intros x (y & -> & Hy)%list_elem_of_fmap. destruct y as [vals v]. apply (sample_entry T j s _ c) in Hy as (key & tw & He & Ht); [|done..].
    exists key, vals, v, tw. split_and!; [done| |done]. destruct (Htr (j, key)) as [E|[E _]]; congruence.
  - intros key vals v tw Hn Ht. apply list_elem_of_fmap. exists (mkSample vals v). split; [done|].
    apply (sample_entry T j s _ c); [done..|]. exists key, tw.
    pose proof (timeSub_mono (rClock rd) (rNow rd) tw). split; [|lia].
    destruct (Htr (j, key)) as [->|(_ & x & tw' & E & Hx)]; [done|]. rewrite Hn in E. simplify_eq. lia.
Qed.

(** *** Progress *)

(** A scrape can read its next families whatever the others are doing. *)
Lemma scrape_reads T n W i since before page r :
  inv T W → threads W !! i = Some (Scraper since before page r) → (length page + n ≤ 94)%nat → (0 < n)%nat ∨ r = None →
  ∃ more, length more = n ∧ Forall (λ rd, rNow rd = now W ∧ rHist rd = hist W) more ∧
    rtc wstep W (mkWorld (now W) (coll W) (hist W) (<[i := Scraper since before (page ++ more) None]> (threads W))).
Proof.
  revert W page r. induction n as [|n IH]; intros W page r Hinv Hi Hle Hr.
  - destruct Hr as [?| ->]; [lia|]. exists []. split_and!; [done|constructor|]. rewrite app_nil_r, list_insert_id by done.
    by destruct W.
  - assert (∃ t, rtc wstep W (mkWorld (now W) (coll W) (hist W)
      (<[i := Scraper since before page (Some t)]> (threads W)))) as [t Hc].
    { destruct r as [t|]; [exists t; rewrite list_insert_id by done; by destruct W|].
      exists (now W). apply rtc_once. by apply W_readClock. }
    destruct (lookup_lt_is_Some_2 (familySpecs (coll W)) (length page)) as [s Hs].
    { pose proof (f_equal length (names_reachable T _ (proj1 Hinv))) as E. rewrite length_fmap in E. rewrite E.
      rewrite (proj2 familyNames_NoDup). lia. }
    pose proof (lookup_lt_Some _ _ _ Hi) as Hlt.
    pose proof (buildFamily_ok t s (proj1 (Forall_lookup _ _) (specs_arity (coll W)) _ _ Hs)) as Hf.
    set (W1 := mkWorld (now W) (coll W) (hist W) (<[i := Scraper since before page (Some t)]> (threads W))) in *.
    pose proof (W_read W1 i since before page t s _ (list_lookup_insert_eq _ _ _ Hlt) Hs Hf) as Hst.
    set (rd := mkRead _ t (now W1) (hist W1)) in Hst. cbn [threads W1] in Hst. rewrite list_insert_insert_eq in Hst.
    set (W2 := mkWorld _ _ _ _) in Hst.
    assert (rtc wstep W W2) as Hr2 by (eapply rtc_r; [exact Hc|exact Hst]).
    destruct (IH W2 (page ++ [rd]) None) as (more & Hm & Hall & Hrun).
    + eapply rtc_invariant; [apply inv_step|exact Hr2|done].
    + by apply list_lookup_insert_eq.
    + rewrite length_app. simpl. lia.
    + by right.
    + exists (rd :: more). split_and!; [simpl; lia|by constructor|]. etrans; [exact Hr2|].
      cbn [now coll hist threads W2] in Hrun. by rewrite list_insert_insert_eq, <- app_assoc in Hrun.
Qed.

(** C7: what a finished scrape shows, however the setters, sweeps and scrapes of
    other goroutines ran between its reads and between a clock reading and its use:
    the 94 families in order, no two metrics of a keyed family with the same labels;
    every metric of a cached family is the newest write of its entry at some moment
    of the scrape, and was not older than the TTL when the scrape began; and a write
    that was the newest of its entry when the scrape began, was not overwritten since
    and is not older than the TTL now is shown. *)
Theorem concurrent_page T W i since before page h1 :
  world_reachable T W → threads W !! i = Some (Scraper since before page None) → length page = 94%nat →
  hist W = h1 ++ before →
  famName ∘ rFam <$> page = familyNames ∧
  Forall (λ rd, keyed (famName (rFam rd)) → NoDup (labelPairs <$> famMetrics (rFam rd))) page ∧
  ∀ j labels rd, (j < 89)%nat → familyLabels !! j = Some labels → page !! j = Some rd →
    (∀ x, x ∈ famMetrics (rFam rd) → ∃ h key vals v tw, x = mkMetric (zip labels vals) v ∧
       before `suffix_of` h ∧ h `suffix_of` hist W ∧ newest (j, key) h = Some (vals, v, tw) ∧ timeSub since tw ≤ T) ∧
    (∀ key vals v tw, newest (j, key) before = Some (vals, v, tw) → timeSub (now W) tw ≤ T →
       Forall (λ e, e.1.1 ≠ (j, key)) h1 → mkMetric (zip labels vals) v ∈ famMetrics (rFam rd)).
Proof.
  intros Hr Hi Hlen Hh. destruct (inv_reachable T W Hr) as (_ & _ & Hth).
  destruct (proj1 (Forall_lookup _ _) Hth _ _ Hi) as (_ & _ & _ & Hp). split_and!.
  - apply list_eq_same_length with 94%nat; [apply familyNames_NoDup|by rewrite length_fmap|].
    intros j x y _ Hx Hy. rewrite list_lookup_fmap in Hx. destruct (page !! j) as [rd|] eqn:Hj; [|done]. injection Hx as <-.
    destruct (Hp j rd Hj) as ((c & s & Hw & _ & Hs & Hf & _) & _). cbn. rewrite Hf. cbn.
    rewrite <- (names_reachable T c Hw), list_lookup_fmap, Hs in Hy. by injection Hy.
  - apply Forall_lookup. intros j rd Hj. destruct (Hp j rd Hj) as ((c & s & Hw & _ & Hs & Hf & _) & _).
    rewrite Hf. by apply (familyOf_distinct T c j).
  - intros j labels rd Hj Hl Hrd. destruct (Hp j rd Hrd) as (Hok & Hnow & Hsuf).
    destruct (read_shows T since before j labels rd Hok Hj Hl) as [Hsound Hcomp].
    destruct Hok as (_ & _ & _ & _ & _ & _ & Hcl & Hb). split.
    + intros x Hx. destruct (Hsound x Hx) as (key & vals & v & tw & ? & ? & ?). exists (rHist rd), key, vals, v, tw.
      pose proof (timeSub_mono since (rClock rd) tw). split_and!; try done. lia.
    + intros key vals v tw Hn Ht Hf. apply (Hcomp key vals v tw); [|pose proof (timeSub_mono (rNow rd) (now W) tw); lia].
      rewrite Hh in Hsuf. by rewrite (newest_between _ before _ h1).
Qed.

(** *** A report seen in halves *)

(** Critical sections that write elsewhere. *)
Lemma newest_elsewhere s t l h :
  Forall (λ a, fst <$> effect a ≠ Some s) l → newest s (foldl (λ h a, record t a h) h l) = newest s h.
Proof.
  intros Hl. revert h. induction Hl as [|a l Ha _ IH]; intros h; [done|]. cbn [foldl]. rewrite IH. unfold record.
  destruct (effect a) as [[s' x]|]; [|done]. rewrite newest_cons, decide_False; [done|]. intros ->. by apply Ha.
Qed.

(** A call in progress can finish by its own steps. *)
Lemma caller_runs W i todo :
  threads W !! i = Some (Caller todo None) → Forall (λ a, isSweep a = false) todo →
  ∃ c, rtc wstep W (mkWorld (now W) c (foldl (λ h a, record (now W) a h) (hist W) todo) (<[i := Caller [] None]> (threads W))).
Proof.
  intros Hi Hn. revert W Hi. induction Hn as [|a todo Ha _ IH]; intros W Hi.
  - exists (coll W). rewrite list_insert_id by done. by destruct W.
  - pose proof (W_put W i a todo Hi Ha) as Hs. set (W1 := mkWorld _ _ _ _) in Hs.
    destruct (IH W1) as [c Hr]; [apply list_lookup_insert_eq; by eapply lookup_lt_Some|].
    exists c. eapply rtc_l; [exact Hs|]. cbn [now hist threads W1] in Hr. by rewrite list_insert_insert_eq in Hr.
Qed.

(** The newest write of a runtime gauge after a report. *)
Lemma newest_report t stats cl ad host h i name getVal :
  runtimeCatalog !! i = Some (name, getVal) →
  newest ((39 + i)%nat, [cl; ad]) (foldl (λ h a, record t a h) h (runtimeAtoms stats cl ad host)) =
    Some ((runtimeSeries stats cl ad host).*2, getVal stats, t).
Proof.
  intros Hi. pose proof (lookup_lt_Some _ _ _ Hi) as Hlt. unfold runtimeAtoms.
  replace (length runtimeCatalog) with (i + S (length runtimeCatalog - S i))%nat by lia. rewrite seq_app, Nat.add_0_l. cbn [seq].
  rewrite fmap_app, fmap_cons, <- app_assoc, foldl_app. cbn [app foldl]. rewrite newest_elsewhere.
  - unfold record. cbn [effect]. rewrite Hi. cbn [mbind option_bind]. rewrite newest_cons. by rewrite decide_True.
  - apply Forall_app. split.
    + apply Forall_fmap, Forall_forall. intros k Hk%elem_of_seq. cbn. destruct (runtimeCatalog !! k) as [[? ?]|]; [|done].
      cbn. intros [= ?]. lia.
    + case_decide; [|constructor]. apply Forall_fmap, Forall_forall. intros k Hk%elem_of_seq. cbn.
      destruct (distributeCatalog !! k) as [[? ?]|]; [|done]. cbn. change (length distributeCatalog) with 13%nat in Hk.
      intros [= ?]. lia.
Qed.

Lemma runtimeAtoms_put stats cl ad host : Forall (λ a, isSweep a = false) (runtimeAtoms stats cl ad host).
Proof.
  unfold runtimeAtoms. apply Forall_app. split; [|case_decide; [|constructor]]; by apply Forall_fmap, Forall_true.
Qed.

Lemma labels_runtime i : (i < 50)%nat → familyLabels !! (39 + i)%nat = Some brokerRuntimeLabels.
Proof. intros Hi. do 50 (destruct i as [|i]; [reflexivity|]). lia. Qed.

(** A read right after a report shows it. *)
Lemma read_report T since before i name getVal rd stats cl ad host t h :
  0 ≤ T → read_ok T since before (39 + i) rd → runtimeCatalog !! i = Some (name, getVal) →
  rNow rd = t ∧ rHist rd = foldl (λ h a, record t a h) h (runtimeAtoms stats cl ad host) →
  mkMetric (runtimeSeries stats cl ad host) (getVal stats) ∈ famMetrics (rFam rd).
Proof.
  intros HT Hok Hi [Hn Hh]. pose proof (lookup_lt_Some _ _ _ Hi) as Hlt. change (length runtimeCatalog) with 50%nat in Hlt.
  destruct (read_shows T since before (39 + i) brokerRuntimeLabels rd Hok) as [_ Hc]; [lia|by apply labels_runtime|].
  assert (runtimeSeries stats cl ad host = zip brokerRuntimeLabels (runtimeSeries stats cl ad host).*2) as -> by reflexivity.
  apply (Hc [cl; ad] _ _ t); [rewrite Hh; by eapply newest_report|].
  rewrite Hn, timeSub_exact by lia. lia.
Qed.

(** Two neighbouring runtime gauges of a page may come from two reports of the
    broker: the second report's puts ran between the two reads. *)
Lemma report_torn (T t : Z) (s1 s2 : BrokerRuntimeStats) cl ad host i name1 g1 name2 g2 :
  0 ≤ T → runtimeCatalog !! i = Some (name1, g1) → runtimeCatalog !! S i = Some (name2, g2) →
  ∃ W k since before page rd1 rd2, world_reachable T W ∧
    threads W !! k = Some (Scraper since before page None) ∧ length page = 94%nat ∧
    page !! (39 + i)%nat = Some rd1 ∧ mkMetric (runtimeSeries s1 cl ad host) (g1 s1) ∈ famMetrics (rFam rd1) ∧
    page !! (39 + S i)%nat = Some rd2 ∧ mkMetric (runtimeSeries s2 cl ad host) (g2 s2) ∈ famMetrics (rFam rd2).
Proof.
  intros HT H1 H2. pose proof (lookup_lt_Some _ _ _ H2) as Hlt. change (length runtimeCatalog) with 50%nat in Hlt.
  set (report s := C_write (W_BrokerRuntimeStats s cl ad host)).
  set (W1 := mkWorld t (NewWithClock T) [] [Caller (atomsOf (report s1)) None]).
  assert (rtc wstep (start T t) W1) as R1 by apply rtc_once, (W_call (start T t) (report s1)).
  destruct (caller_runs W1 0 _ eq_refl (runtimeAtoms_put _ _ _ _)) as [c2 R2].
  cbn [now hist threads W1 insert list_insert] in R2. set (h2 := foldl _ _ _) in R2. set (W2 := mkWorld _ _ _ _) in R2.
  set (W3 := mkWorld t c2 h2 [Caller [] None; Scraper t h2 [] None]).
  assert (rtc wstep (start T t) W3) as R3 by (etrans; [exact R1|]; etrans; [exact R2|]; apply rtc_once, (W_scrape W2)).
  destruct (scrape_reads T (40 + i) W3 1 t h2 [] None) as (p1 & L1 & F1 & R4);
    [apply inv_reachable; by exists t|done|simpl; lia|left; lia|].
  cbn [now coll hist threads app W3 insert list_insert] in R4. set (W4 := mkWorld _ _ _ _) in R4.
  set (W5 := mkWorld t c2 h2 [Caller [] None; Scraper t h2 p1 None; Caller (atomsOf (report s2)) None]).
  assert (rtc wstep (start T t) W5) as R5 by (etrans; [exact R3|]; etrans; [exact R4|]; apply rtc_once, (W_call W4 (report s2))).
  destruct (caller_runs W5 2 _ eq_refl (runtimeAtoms_put _ _ _ _)) as [c6 R6].
  cbn [now hist threads W5 insert list_insert] in R6. set (h6 := foldl _ h2 _) in R6. set (W6 := mkWorld _ _ _ _) in R6.
  destruct (scrape_reads T (54 - i) W6 1 t h2 p1 None) as (p2 & L2 & F2 & R7);
    [apply inv_reachable; exists t; by etrans|done|lia|left; lia|].
  set (W7 := mkWorld _ _ _ _) in R7.
  assert (world_reachable T W7) as Hr by (exists t; etrans; [exact R5|]; by etrans).
  assert (threads W7 !! 1%nat = Some (Scraper t h2 (p1 ++ p2) None)) as Hi by reflexivity.
  destruct (lookup_lt_is_Some_2 p1 (39 + i)%nat) as [rd1 E1]; [lia|]. destruct (lookup_lt_is_Some_2 p2 0%nat) as [rd2 E2]; [lia|].
  assert ((p1 ++ p2) !! (39 + i)%nat = Some rd1) as K1 by (by apply lookup_app_l_Some).
  assert ((p1 ++ p2) !! (39 + S i)%nat = Some rd2) as K2
    by (rewrite lookup_app_r by lia; replace (39 + S i - length p1)%nat with 0%nat by lia; done).
  destruct (inv_reachable T W7 Hr) as (_ & _ & Hth). destruct (proj1 (Forall_lookup _ _) Hth _ _ Hi) as (_ & _ & _ & Hp).
  exists W7, 1%nat, t, h2, (p1 ++ p2), rd1, rd2. split_and!; try done; [rewrite length_app; lia|..].
  - eapply (read_report T); [done|apply (Hp _ _ K1)|exact H1|apply (proj1 (Forall_lookup _ _) F1 _ _ E1)].
  - eapply (read_report T); [done|apply (Hp _ _ K2)|exact H2|apply (proj1 (Forall_lookup _ _) F2 _ _ E2)].
Qed.
End machine.

(** ** Witnesses *)

#[local] Existing Instance demo_goRange.

(** The lag of a group is written; a scrape begins and reads five families; the
    group's member count is written, and the scrape has yet to read the rest. *)
Definition lagWrite : write := W_GroupDiff "1" "g" "T" "1" 9.
Definition countWrite : write := W_GroupCount "g" "10.0.0.1" "client" 2.
Definition lagHist : history := [((0%nat, ["g"; "T"; "1"; "1"]), (["g"; "T"; "1"; "1"], floatOfZ 9), 10)].
Definition countHist : history := [((3%nat, ["g"]), (["10.0.0.1"; "client"; "g"], floatOfZ 2), 20)].

Lemma half_read :
  ∃ W page, world_reachable 60 W ∧ now W = 20 ∧ hist W = countHist ++ lagHist ∧ length page = 5%nat ∧
    threads W !! 1%nat = Some (Scraper 10 lagHist page None).
Proof.
  set (W1 := mkWorld 10 (NewWithClock 60) [] [Caller [A_set lagWrite] None]).
  set (W2 := mkWorld 10 (runAtom 10 (A_set lagWrite) (NewWithClock 60)) lagHist [Caller [] None; Scraper 10 lagHist [] None]).
  assert (rtc wstep (start 60 10) W2) as H2.
  { eapply rtc_l; [apply (W_call _ (C_write lagWrite))|]. eapply rtc_l; [by apply (W_put W1 0 (A_set lagWrite) [])|].
    apply rtc_once, W_scrape. }
  destruct (scrape_reads 60 5 W2 1 10 lagHist [] None) as (page & Hlen & _ & Hrun);
    [apply inv_reachable; by exists 10|done|simpl; lia|by left; lia|].
  cbn [app threads W2 insert list_insert] in Hrun. set (W3 := mkWorld _ _ _ _) in Hrun.
  set (W4 := mkWorld 20 (coll W3) lagHist [Caller [] None; Scraper 10 lagHist page None; Caller [A_set countWrite] None]).
  exists (mkWorld 20 (runAtom 20 (A_set countWrite) (coll W3)) (countHist ++ lagHist)
    [Caller [] None; Scraper 10 lagHist page None; Caller [] None]), page.
  split_and!; try done. exists 10. etrans; [exact H2|]. etrans; [exact Hrun|].
  eapply rtc_l; [apply (W_tick _ 20); simpl; lia|]. eapply rtc_l; [apply (W_call _ (C_write countWrite))|].
  apply rtc_once. by apply (W_put W4 2 (A_set countWrite) []).
Qed.

Lemma concurrent_page_witness :
  ∃ page rd, length page = 94%nat ∧ page !! 0%nat = Some rd ∧
    mkMetric [("group", "g"); ("topic", "T"); ("countOfOnlineConsumers", "1"); ("msgModel", "1")] (floatOfZ 9)
      ∈ famMetrics (rFam rd).
Proof.
  destruct half_read as (W & page & Hr & Hnow & Hh & Hlen & Hi).
  destruct (scrape_reads 60 89 W 1 10 lagHist page None) as (more & Hm & _ & Hrun);
    [by apply inv_reachable|done|lia|left; lia|].
  assert (length (page ++ more) = 94%nat) as Hl by (rewrite length_app; lia).
  set (W' := mkWorld _ _ _ _) in Hrun.
  assert (world_reachable 60 W') as Hr' by (destruct Hr as [t Hr]; exists t; by etrans).
  destruct (concurrent_page 60 W' 1 10 lagHist (page ++ more) countHist Hr') as (_ & _ & Hp).
  - apply list_lookup_insert_eq. by eapply lookup_lt_Some.
  - exact Hl.
  - exact Hh.
  - destruct (lookup_lt_is_Some_2 (page ++ more) 0%nat) as [rd Hrd]; [lia|].
    exists (page ++ more), rd. split; [exact Hl|]. split; [exact Hrd|].
    destruct (Hp 0%nat groupDiffLabels rd) as [_ Hc]; [lia|reflexivity|exact Hrd|].
    apply (Hc ["g"; "T"; "1"; "1"] ["g"; "T"; "1"; "1"] (floatOfZ 9) 10); [reflexivity| |repeat constructor; discriminate].
    cbn [now W']. rewrite Hnow. vm_compute. discriminate.
Defined.
