(* ===== verification/Peers.v ===== *)
(** * Answers of the admin client

    Two ways to constrain what the operations of Service answer.  [yields p P]:
    against peers that may answer anything but never make the client panic, [p]
    never panics and what it returns satisfies [P].  [determined net p]: against
    the peers [net] the answer of [p] does not depend on the request identifiers,
    and is [ask net p].  Both follow the syntax of programs and hold for every
    operation. *)

From Stdlib Require Import ZArith Lia String.
From S2P Require Import Prelude GoStrings GoFloat Codec FastJson Util Model Effects Service.

(** ** What is relied on of encoding/json *)

(** It reports errors and does not panic, and a JSON number is finite. *)
Class JsonOk `{JL : JsonLib} : Prop := {
  ok_ClusterInfo : ∀ b, no_panic (json_ClusterInfo b);
  ok_TopicList : ∀ b, no_panic (json_TopicList b);
  ok_TopicRouteData : ∀ b, no_panic (json_TopicRouteData b);
  ok_TopicStatsTable : ∀ b, no_panic (json_TopicStatsTable b);
  ok_ConsumeStats : ∀ b, no_panic (json_ConsumeStats b);
  ok_GroupList : ∀ b, no_panic (json_GroupList b);
  ok_ConsumerConnection : ∀ b, no_panic (json_ConsumerConnection b);
  ok_BrokerStatsData : ∀ b, no_panic (json_BrokerStatsData b);
  ok_ProducerTableInfo : ∀ b, no_panic (json_ProducerTableInfo b);
  ok_ConsumerRunningInfo : ∀ b, no_panic (json_ConsumerRunningInfo b);
  ok_kvTable : ∀ b, no_panic (json_kvTable b);
  ok_MessageQueue : ∀ b, no_panic (json_MessageQueue b);
  ok_TopicOffset : ∀ b, no_panic (json_TopicOffset b);
  ok_OffsetWrapper : ∀ b, no_panic (json_OffsetWrapper b);
  ok_finite : ∀ b d item, json_BrokerStatsData b = Ret d → bs_StatsMinute d = Some item → isFinite (si_Tps item) = true
}.

(** ** Peers that may answer anything *)

(** Which answers a peer may give; none of them makes the client panic. *)
Class Tolerable (good : outcome RemotingCommand → Prop) : Prop := tolerable_calm : ∀ x, good x → no_panic x.
#[export] Instance no_panic_tolerable : Tolerable no_panic.
Proof. by intros x. Qed.

Section yields.
Variable good : outcome RemotingCommand → Prop.

(** The result of a call: a value in [P] or an error. *)
Definition fine {A} (P : A → Prop) (r : outcome A) : Prop :=
  match r with Ret a => P a | Fail _ => True | Panic _ => False end.

Fixpoint yields {A} (p : prog rpcE A) (P : A → Prop) : Prop :=
  match p with
  | Leaf r => fine P r
  | Vis e k =>
      match e in rpcE X return (X → prog rpcE A) → Prop with
      | AddOpaque => λ k, ∀ o, yields (k o) P
      | InvokeSync addr cmd => λ k, ∀ x, good x → yields (k x) P
      end k
  end.

Lemma yields_mono {A} (p : prog rpcE A) (P P' : A → Prop) : (∀ a, P a → P' a) → yields p P → yields p P'.
Proof.
  intros HP. induction p as [r|X e k IH]; [destruct r; simpl; auto|].
  destruct e; simpl; intros H x; [apply IH, H|]. intros Hx. by apply IH, H.
Qed.

Lemma yields_bind {A B} (p : prog rpcE A) (f : A → prog rpcE B) (P : A → Prop) Q :
  yields p P → (∀ a, P a → yields (f a) Q) → yields (p ≫= f) Q.
Proof.
  intros Hp Hf. induction p as [r|X e k IH]; [destruct r; simpl in *; auto; done|].
  destruct e; simpl in *; intros x; [apply IH, Hp|]. intros Hx. by apply IH, Hp.
Qed.

Lemma yields_attempt {A} (p : prog rpcE A) (P : A → Prop) :
  yields p P → yields (attempt p) (λ r, match r with inr a => P a | inl _ => True end).
Proof.
  intros Hp. induction p as [r|X e k IH]; [by destruct r|].
  destruct e; simpl in *; intros x; [apply IH, Hp|]. intros Hx. by apply IH, Hp.
Qed.

Lemma yields_foldProg {A B} (f : B → A → prog rpcE B) b l :
  (∀ b x, yields (f b x) (λ _, True)) → yields (foldProg f b l) (λ _, True).
Proof.
  intros Hf. revert b. induction l as [|x l IH]; intros b; [done|].
  eapply yields_bind; [apply Hf|]. intros b' _. apply IH.
Qed.

Lemma calm_bind {A B} (p : prog rpcE A) (f : A → prog rpcE B) Q :
  yields p (λ _, True) → (∀ a, yields (f a) Q) → yields (p ≫= f) Q.
Proof. intros Hp Hf. eapply yields_bind; [exact Hp|]. auto. Qed.

Lemma calm_attempt {A} (p : prog rpcE A) : yields p (λ _, True) → yields (attempt p) (λ _, True).
Proof. intros Hp. eapply yields_mono; [|by apply yields_attempt]. done. Qed.

Lemma yields_leaf {A} (r : outcome A) : no_panic r → yields (Leaf r) (λ _, True).
Proof. intros Hr. destruct r; simpl; [done..|]. by destruct (Hr msg). Qed.
End yields.

(** Walk through a program by its binds, loops and matches. *)
Ltac walk_yields :=
  repeat first
    [ exact I
    | progress intros
    | apply yields_foldProg
    | match goal with
      | |- yields _ (mret _) _ => exact I
      | |- yields _ (_ ≫= _) _ => apply calm_bind
      | |- yields _ (attempt _) _ => apply calm_attempt
      | |- yields _ (match ?x with _ => _ end) _ => destruct x
      | |- yields _ (if ?b then _ else _) _ => destruct b
      end ].

Section calm.
Context `{GR : GoRange} `{JL : JsonLib} {JO : JsonOk} {good : outcome RemotingCommand → Prop} {Tol : Tolerable good}.
Implicit Types a : AdminClient.

Lemma UnmarshalJSON_fine {A} `{JsonBody A} (P : A → Prop) b :
  (∀ b, fine P (jsonUnmarshal b)) → fine P (UnmarshalJSON (A := A) b).
Proof.
  intros Hj. unfold UnmarshalJSON. destruct (normalizeKeys_some b) as [n ->]. apply Hj.
Qed.

(** A call to one address. *)
Lemma yields_invoke {A} `{JsonBody A} a addr code header (P : A → Prop) :
  P zeroBody → (∀ b, fine P (jsonUnmarshal b)) → yields good (invokeSyncBroker (A := A) a addr code header) P.
Proof.
  intros Hz Hj o x Hx. simpl. destruct x as [resp|e|msg]; simpl; [|done|by destruct (tolerable_calm _ Hx msg)].
  unfold decodeResponse. destruct (negb _); [done|]. destruct (decide _); [|done].
  pose proof (UnmarshalJSON_fine P (Body resp) Hj) as Hf. by destruct (UnmarshalJSON (Body resp)).
Qed.

Lemma fine_true {A} (r : outcome A) : no_panic r → fine (λ _, True) r.
Proof. apply (yields_leaf no_panic). Qed.

Lemma calm_invoke {A} `{JsonBody A} a addr code header :
  (∀ b, no_panic (jsonUnmarshal (A := A) b)) → yields good (invokeSyncBroker (A := A) a addr code header) (λ _, True).
Proof. intros Hj. apply yields_invoke; [done|]. intros b. apply fine_true, Hj. Qed.

Lemma calm_namesrv {A} `{JsonBody A} a code header :
  (∀ b, no_panic (jsonUnmarshal (A := A) b)) → yields good (invokeSyncNamesrv (A := A) a code header) (λ _, True).
Proof. intros Hj. by apply calm_invoke. Qed.

Lemma calm_ClusterInfo a : yields good (ExamineBrokerClusterInfo a) (λ _, True).
Proof. apply calm_namesrv, ok_ClusterInfo. Qed.
Lemma calm_TopicList a : yields good (FetchAllTopicList a) (λ _, True).
Proof. apply calm_namesrv, ok_TopicList. Qed.
Lemma calm_Route a topic : yields good (ExamineTopicRouteInfo a topic) (λ _, True).
Proof. apply calm_namesrv, ok_TopicRouteData. Qed.
Lemma calm_Producers a addr : yields good (GetAllProducerInfo a addr) (λ _, True).
Proof. apply calm_invoke, ok_ProducerTableInfo. Qed.

Lemma calm_TopicStats a topic : yields good (ExamineTopicStats a topic) (λ _, True).
Proof. unfold ExamineTopicStats. walk_yields; [apply calm_Route|apply calm_invoke, ok_TopicStatsTable]. Qed.

Lemma calm_ConsumeStats a group topic : yields good (ExamineConsumeStats a group topic) (λ _, True).
Proof. unfold ExamineConsumeStats. walk_yields; [apply calm_Route|apply calm_invoke, ok_ConsumeStats]. Qed.

Lemma calm_Connections a group : yields good (ExamineConsumerConnectionInfo a group) (λ _, True).
Proof.
  unfold ExamineConsumerConnectionInfo. walk_yields; try apply calm_Route; try (apply calm_invoke, ok_ConsumerConnection).
Qed.

Lemma calm_Groups a topic : yields good (QueryTopicConsumeByWho a topic) (λ _, True).
Proof. unfold QueryTopicConsumeByWho. walk_yields; [apply calm_Route|apply calm_invoke, ok_GroupList]. Qed.

Lemma calm_Running a group id j : yields good (GetConsumerRunningInfo a group id j) (λ _, True).
Proof. unfold GetConsumerRunningInfo. walk_yields; [apply calm_Route|apply calm_invoke, ok_ConsumerRunningInfo]. Qed.

Lemma calm_Pull a addr mq offset : yields good (QueryMsgByOffset a addr mq offset) (λ _, True).
Proof.
  unfold QueryMsgByOffset. cbv zeta. intros o x Hx. simpl. destruct x as [resp|e|msg]; simpl; [|done|by destruct (tolerable_calm _ Hx msg)].
  destruct (_ && _); [|done]. by destruct (firstStoreTimestamp_total (Body resp)) as [r ->].
Qed.

(** The minute statistics, when there are any, have a finite rate. *)
Definition finiteTps (d : BrokerStatsData) : Prop :=
  ∀ item, bs_StatsMinute d = Some item → isFinite (si_Tps item) = true.

Lemma yields_StatsData a addr name key : yields good (ViewBrokerStatsData a addr name key) finiteTps.
Proof.
  apply yields_invoke; [done|]. intros b. pose proof (ok_BrokerStatsData b) as Hn.
  simpl. destruct (json_BrokerStatsData b) as [d|e|msg] eqn:E; simpl; [|done|by destruct (Hn msg)].
  intros item. by eapply ok_finite.
Qed.

(** The one operation that can panic: a runtime table with a malformed capacity. *)
Definition reports (resp : RemotingCommand) : Prop :=
  ∀ table, UnmarshalJSON (Body resp) = Ret (mkKvTable (Some table)) → no_panic (NewBrokerRuntimeStats (Some table)).

Lemma calm_Runtime a addr : (∀ resp, good (Ret resp) → reports resp) → yields good (FetchBrokerRuntimeStats a addr) (λ _, True).
Proof.
  intros Hc o x Hx. simpl. destruct x as [resp|e|msg]; simpl; [|done|by destruct (tolerable_calm _ Hx msg)].
  specialize (Hc resp Hx). unfold decodeResponse. destruct (negb _); [done|]. destruct (decide _); [|done].
  pose proof (UnmarshalJSON_fine (λ _, True) (Body resp) (λ b, fine_true _ (ok_kvTable b))) as Hf.
  unfold reports in Hc. destruct (UnmarshalJSON (Body resp)) as [[[table|]]|e|msg]; simpl in *; [|done..].
  by apply yields_leaf, Hc.
Qed.
End calm.

(** ** Peers that are functions *)

(** What a program of the admin client answers against [net], with identifier 0
    throughout. *)
Fixpoint ask {A} (net : network) (p : prog rpcE A) : outcome A :=
  match p with
  | Leaf r => r
  | Vis e k =>
      match e in rpcE X return (X → prog rpcE A) → outcome A with
      | AddOpaque => λ k, ask net (k 0)
      | InvokeSync addr cmd => λ k, ask net (k (net addr cmd))
      end k
  end.

(** The identifiers do not matter. *)
Definition determined {A} (net : network) (p : prog rpcE A) : Prop := answers net p (ask net p).

Lemma answers_ask {A} net (p : prog rpcE A) r : answers net p r → ask net p = r.
Proof. induction p as [r'|X e k IH]; [done|]. destruct e; simpl; intros H; apply IH, H. Qed.

Lemma ask_bind {A B} net (p : prog rpcE A) (f : A → prog rpcE B) :
  ask net (p ≫= f) = (ask net p ≫= λ x, ask net (f x)).
Proof. induction p as [[]|X e k IH]; [done..|]. destruct e; apply IH. Qed.

Lemma answers_then {A B} net (p : prog rpcE A) (f : A → prog rpcE B) r :
  answers net p r → (∀ x, determined net (f x)) → answers net (p ≫= f) (r ≫= λ x, ask net (f x)).
Proof.
  intros Hp Hf. induction p as [r'|X e k IH].
  - simpl in Hp. subst. destruct r; [apply Hf|done..].
  - destruct e; [intros o; apply IH, Hp|apply IH, Hp].
Qed.

Section determined.
Variable net : network.

Lemma determined_leaf {A} (r : outcome A) : determined net (Leaf r).
Proof. done. Qed.

Lemma determined_bind {A B} (p : prog rpcE A) (f : A → prog rpcE B) :
  determined net p → (∀ x, determined net (f x)) → determined net (p ≫= f).
Proof. intros Hp Hf. unfold determined. rewrite ask_bind. by apply answers_then. Qed.

Lemma determined_attempt {A} (p : prog rpcE A) : determined net p → determined net (attempt p).
Proof.
  intros Hp. apply answers_attempt in Hp. unfold determined. by rewrite (answers_ask net _ _ Hp).
Qed.

Lemma determined_foldProg {A B} (f : B → A → prog rpcE B) b l :
  (∀ b x, determined net (f b x)) → determined net (foldProg f b l).
Proof.
  intros Hf. revert b. induction l as [|x l IH]; intros b; [done|]. by apply determined_bind.
Qed.
End determined.

Ltac walk_determined :=
  repeat first
    [ progress intros
    | apply determined_foldProg
    | match goal with
      | |- determined _ (mret _) => apply determined_leaf
      | |- determined _ (Leaf _) => apply determined_leaf
      | |- determined _ (_ ≫= _) => apply determined_bind
      | |- determined _ (attempt _) => apply determined_attempt
      | |- determined _ (match ?x with _ => _ end) => destruct x
      | |- determined _ (if ?b then _ else _) => destruct b
      end ].

Section operations.
Context `{GR : GoRange} `{JL : JsonLib}.
Variables (a : AdminClient) (net : network).
Hypothesis Ho : oblivious a net.

(** One command and its answer. *)
Lemma determined_call {A} addr code header (f : outcome RemotingCommand → prog rpcE A) :
  (∀ r, determined net (f r)) →
  determined net (cmd ← newCommand code header; r ← trigger (InvokeSync addr (signIfACL a cmd)); f r).
Proof.
  intros Hf o. change (answers net (f (net addr (signIfACL a (NewRemotingCommand code header [] o).1)))
    (ask net (f (net addr (signIfACL a (NewRemotingCommand code header [] 0).1))))).
  rewrite (Ho addr code header o 0). apply Hf.
Qed.

Lemma determined_invoke {A} `{JsonBody A} addr code header :
  determined net (invokeSyncBroker (A := A) a addr code header).
Proof. unfold invokeSyncBroker. apply determined_call. walk_determined. Qed.

Lemma determined_namesrv {A} `{JsonBody A} code header :
  determined net (invokeSyncNamesrv (A := A) a code header).
Proof. apply determined_invoke. Qed.

Lemma determined_ClusterInfo : determined net (ExamineBrokerClusterInfo a).
Proof. apply determined_namesrv. Qed.
Lemma determined_TopicList : determined net (FetchAllTopicList a).
Proof. apply determined_namesrv. Qed.
Lemma determined_Route topic : determined net (ExamineTopicRouteInfo a topic).
Proof. apply determined_namesrv. Qed.
Lemma determined_Producers addr : determined net (GetAllProducerInfo a addr).
Proof. apply determined_invoke. Qed.
Lemma determined_StatsData addr name key : determined net (ViewBrokerStatsData a addr name key).
Proof. apply determined_invoke. Qed.
Lemma determined_Runtime addr : determined net (FetchBrokerRuntimeStats a addr).
Proof. unfold FetchBrokerRuntimeStats. walk_determined. apply determined_invoke. Qed.
Lemma determined_TopicStats topic : determined net (ExamineTopicStats a topic).
Proof. unfold ExamineTopicStats. walk_determined; [apply determined_Route|apply determined_invoke]. Qed.
Lemma determined_ConsumeStats group topic : determined net (ExamineConsumeStats a group topic).
Proof. unfold ExamineConsumeStats. walk_determined; [apply determined_Route|apply determined_invoke]. Qed.
Lemma determined_Connections group : determined net (ExamineConsumerConnectionInfo a group).
Proof. unfold ExamineConsumerConnectionInfo. walk_determined; first [apply determined_Route|apply determined_invoke]. Qed.
Lemma determined_Groups topic : determined net (QueryTopicConsumeByWho a topic).
Proof. unfold QueryTopicConsumeByWho. walk_determined; [apply determined_Route|apply determined_invoke]. Qed.
Lemma determined_Running group id j : determined net (GetConsumerRunningInfo a group id j).
Proof. unfold GetConsumerRunningInfo. walk_determined; [apply determined_Route|apply determined_invoke]. Qed.

Lemma determined_Pull addr mq offset : determined net (QueryMsgByOffset a addr mq offset).
Proof. unfold QueryMsgByOffset. cbv zeta. apply determined_call. walk_determined. Qed.
End operations.

(** An operation that never panics does not panic against [net]. *)
Lemma ask_fine {A} net (p : prog rpcE A) (P : A → Prop) :
  (∀ addr cmd, no_panic (net addr cmd)) → yields no_panic p P → fine P (ask net p).
Proof.
  intros Hn. induction p as [r|X e k IH]; [done|].
  destruct e; simpl; intros Hy; [apply IH, Hy|]. by apply IH, Hy.
Qed.

Lemma ask_no_panic {A} net (p : prog rpcE A) (P : A → Prop) :
  (∀ addr cmd, no_panic (net addr cmd)) → yields no_panic p P → no_panic (ask net p).
Proof. intros Hn Hy msg E. pose proof (ask_fine net p P Hn Hy) as H. by rewrite E in H. Qed.

(** *** Answers as values *)


(** The value of a call that succeeded. *)
Definition got {A} (r : outcome A) : option A := match r with Ret a => Some a | _ => None end.

(** Peers that answer a request as a function of it, and never make the client
    panic. *)
Class Stable `{GR : GoRange} (a : AdminClient) (net : network) : Prop := {
  stable_oblivious : oblivious a net;
  stable_calm : ∀ addr cmd, no_panic (net addr cmd)
}.

(** One of the operations, by name. *)
Ltac calm :=
  lazymatch goal with
  | |- yields _ (ExamineBrokerClusterInfo _) _ => apply calm_ClusterInfo
  | |- yields _ (FetchAllTopicList _) _ => apply calm_TopicList
  | |- yields _ (ExamineTopicRouteInfo _ _) _ => apply calm_Route
  | |- yields _ (GetAllProducerInfo _ _) _ => apply calm_Producers
  | |- yields _ (ExamineTopicStats _ _) _ => apply calm_TopicStats
  | |- yields _ (ExamineConsumeStats _ _ _) _ => apply calm_ConsumeStats
  | |- yields _ (ExamineConsumerConnectionInfo _ _) _ => apply calm_Connections
  | |- yields _ (QueryTopicConsumeByWho _ _) _ => apply calm_Groups
  | |- yields _ (GetConsumerRunningInfo _ _ _ _) _ => apply calm_Running
  | |- yields _ (QueryMsgByOffset _ _ _ _) _ => apply calm_Pull
  | |- yields _ (FetchBrokerRuntimeStats _ _) _ => apply calm_Runtime
  | |- yields _ (ViewBrokerStatsData _ _ _ _) _ => apply yields_StatsData
  end.
Ltac determinate :=
  lazymatch goal with
  | |- determined _ (ExamineBrokerClusterInfo _) => apply determined_ClusterInfo
  | |- determined _ (FetchAllTopicList _) => apply determined_TopicList
  | |- determined _ (ExamineTopicRouteInfo _ _) => apply determined_Route
  | |- determined _ (GetAllProducerInfo _ _) => apply determined_Producers
  | |- determined _ (ExamineTopicStats _ _) => apply determined_TopicStats
  | |- determined _ (ExamineConsumeStats _ _ _) => apply determined_ConsumeStats
  | |- determined _ (ExamineConsumerConnectionInfo _ _) => apply determined_Connections
  | |- determined _ (QueryTopicConsumeByWho _ _) => apply determined_Groups
  | |- determined _ (GetConsumerRunningInfo _ _ _ _) => apply determined_Running
  | |- determined _ (QueryMsgByOffset _ _ _ _) => apply determined_Pull
  | |- determined _ (FetchBrokerRuntimeStats _ _) => apply determined_Runtime
  | |- determined _ (ViewBrokerStatsData _ _ _ _) => apply determined_StatsData
  end; first [assumption | apply stable_oblivious].
