(* ===== verification/Logic.v ===== *)
(** * Reasoning about the tasks

    What a task does to the state its goroutines share is a list of
    observations: the writes to the collector, the pairs it collects, the client
    tasks it submits.  [post ok p Q] says that whatever the environment answers,
    as long as [ok] admits it, the program [p] ends with an outcome and
    observations that satisfy [Q]; its rules follow the syntax of programs.
    [parallel_post] lifts it to a parallel section: the observations of the
    bodies, in some order. *)

From Stdlib Require Import ZArith Lia String.
From S2P Require Import Prelude GoStrings Codec Effects Service Peers Task Parallel.

(** ** Observations *)

(** What an effect adds to a part of the shared state. *)
Class Observer (Ob : Type) := {
  sel : ∀ X, taskE X → list Ob;
  view : shared → list Ob;
  sel_rpc : ∀ X (e : rpcE X), sel X (Rpc X e) = [];
  view_step : ∀ X (e : taskE X) s x s', handles e s x s' → view s' = view s ++ sel X e
}.
Arguments sel {_ _} X e.
Arguments view {_ _} s.

#[export, refine] Instance observe_writes : Observer write := {
  sel X e := match e with Put w => [w] | _ => [] end;
  view := sh_log
}.
Proof.
  - done.
  - intros X e s x s' Hh. destruct e; simpl in *; rewrite ?app_nil_r; try (by subst); try (by destruct Hh as [_ ->]).
    by destruct Hh as [clk ->].
Defined.

(** The writes in [P] only. *)
#[refine] Definition observe_if (P : write → Prop) `{∀ w, Decision (P w)} : Observer write := {|
  sel X e := match e with Put w => filter P [w] | _ => [] end;
  view s := filter P (sh_log s)
|}.
Proof.
  - done.
  - intros X e s x s' Hh. destruct e; simpl in *; rewrite ?app_nil_r; try (by subst); try (by destruct Hh as [_ ->]).
    destruct Hh as [clk ->]. apply filter_app.
Defined.

#[export, refine] Instance observe_pairs : Observer topicGroup := {
  sel X e := match e with AppendPairs ps => ps | _ => [] end;
  view := sh_pairs
}.
Proof.
  - done.
  - intros X e s x s' Hh. destruct e; simpl in *; rewrite ?app_nil_r; try (by subst); try (by destruct Hh as [_ ->]).
    by destruct Hh as [clk ->].
Defined.

#[export, refine] Instance observe_submitted : Observer (string * ConsumerConnection) := {
  sel X e := match e with SubmitClient g cc => [(g, cc)] | _ => [] end;
  view := sh_submitted
}.
Proof.
  - done.
  - intros X e s x s' Hh. destruct e; simpl in *; rewrite ?app_nil_r; try (by subst); try (by destruct Hh as [_ ->]).
    by destruct Hh as [clk ->].
Defined.

(** ** Postconditions *)

Section post.
Context {Ob : Type} `{Obs : Observer Ob} (ok : ∀ X, taskE X → X → Prop).

Fixpoint post {A} (p : prog taskE A) (Q : outcome A → list Ob → Prop) : Prop :=
  match p with
  | Leaf r => Q r []
  | Vis e k => ∀ x, ok _ e x → post (k x) (λ r l, Q r (sel _ e ++ l))
  end.

Lemma post_mono {A} (p : prog taskE A) (Q Q' : outcome A → list Ob → Prop) :
  (∀ r l, Q r l → Q' r l) → post p Q → post p Q'.
Proof.
  revert Q Q'. induction p as [r|X e k IH]; intros Q Q' HQ Hp; [by apply HQ|].
  intros x Hx. eapply IH; [|by apply Hp]. intros r l. apply HQ.
Qed.

(** The outcome of the second part, with the observations of the first before. *)
Definition thenPost {A B} (f : A → prog taskE B) (Q : outcome B → list Ob → Prop) (r : outcome A) (l : list Ob) : Prop :=
  match r with
  | Ret a => post (f a) (λ r' l', Q r' (l ++ l'))
  | Fail e => Q (Fail e) l
  | Panic m => Q (Panic m) l
  end.

Lemma post_bind {A B} (p : prog taskE A) (f : A → prog taskE B) Q :
  post p (thenPost f Q) → post (p ≫= f) Q.
Proof.
  revert Q. induction p as [r|X e k IH]; intros Q Hp.
  - by destruct r.
  - intros x Hx. apply IH. eapply post_mono; [|by apply Hp]. intros [a|err|m] l; simpl; [|done..].
    apply post_mono. intros r l'. by rewrite app_assoc.
Qed.

Lemma post_leaf {A} (r : outcome A) (Q : outcome A → list Ob → Prop) : Q r [] → post (Leaf r) Q.
Proof. done. Qed.

Lemma post_trigger {X} (e : taskE X) (Q : outcome X → list Ob → Prop) :
  (∀ x, ok X e x → Q (Ret x) (sel X e)) → post (trigger e) Q.
Proof. intros H x Hx. simpl. rewrite app_nil_r. by apply H. Qed.

Lemma post_attempt {A} (p : prog taskE A) Q :
  post p (λ r l, Q (caught r) l) → post (attempt p) Q.
Proof.
  revert Q. induction p as [r|X e k IH]; intros Q Hp; [by destruct r|].
  intros x Hx. apply (IH x (λ r l, Q r (sel X e ++ l))), Hp, Hx.
Qed.

Lemma post_and {A} (p : prog taskE A) (Q Q' : outcome A → list Ob → Prop) :
  post p Q → post p Q' → post p (λ r l, Q r l ∧ Q' r l).
Proof.
  revert Q Q'. induction p as [r|X e k IH]; intros Q Q' H H'; [done|].
  intros x Hx. by apply IH; [apply H|apply H'].
Qed.

(** *** Programs with one result *)

(** The program ends with [a] after exactly the observations [l]. *)
Definition gives {A} (p : prog taskE A) (a : A) (l : list Ob) : Prop := post p (λ r l', r = Ret a ∧ l' = l).

Lemma gives_ret {A} (a : A) : gives (mret a) a [].
Proof. done. Qed.

Lemma gives_bind {A B} (p : prog taskE A) (f : A → prog taskE B) a b l1 l2 :
  gives p a l1 → gives (f a) b l2 → gives (p ≫= f) b (l1 ++ l2).
Proof.
  intros Hp Hf. apply post_bind. eapply post_mono; [|exact Hp]. intros r l [-> ->]. simpl.
  eapply post_mono; [|exact Hf]. by intros r' l' [-> ->].
Qed.

Lemma post_after {A B} (p : prog taskE A) (f : A → prog taskE B) a l Q :
  gives p a l → post (f a) (λ r l', Q r (l ++ l')) → post (p ≫= f) Q.
Proof. intros Hp Hf. apply post_bind. eapply post_mono; [|exact Hp]. by intros r l' [-> ->]. Qed.

(** A first part without observations. *)
Lemma gives_after {A B} (p : prog taskE A) (f : A → prog taskE B) a b l :
  gives p a [] → gives (f a) b l → gives (p ≫= f) b l.
Proof. apply (gives_bind p f a b [] l). Qed.

Lemma gives_forEach {A} (f : A → prog taskE unit) (g : A → list Ob) xs :
  (∀ x, x ∈ xs → gives (f x) tt (g x)) → gives (forEach f xs) tt (xs ≫= g).
Proof.
  induction xs as [|x xs IH]; intros H; [done|]. simpl.
  eapply gives_bind; [apply H; by constructor|]. apply IH. intros y Hy. apply H. by constructor.
Qed.

Lemma gives_trigger {X} (e : taskE X) x :
  (∀ y, ok X e y → y = x) → gives (trigger e) x (sel X e).
Proof. intros H. apply post_trigger. intros y Hy. by rewrite (H y Hy). Qed.

(** An error becomes a value. *)
Lemma gives_attempt {A} (p : prog taskE A) r :
  post p (λ r' l, r' = r ∧ l = []) → no_panic r →
  gives (attempt p) (match r with Ret a => inr a | Fail e => inl e | Panic _ => inl EEOF end) [].
Proof.
  intros Hp Hn. apply post_attempt. eapply post_mono; [|exact Hp]. intros r' l [-> ->].
  split; [|done]. destruct r; [done..|by destruct (Hn msg)].
Qed.
End post.
Arguments post {_ _} ok {_} p Q.
Arguments gives {_ _} ok {_} p a l.

(** ** Peers that are functions *)

Lemma post_rpc `{RD : Readings} {Ob} `{Observer Ob} {A} net (p : prog rpcE A) r :
  answers net p r → post (from net) (lift p) (λ r' l, r' = r ∧ l = []).
Proof.
  induction p as [r'|X e k IH]; intros Ha; [done|].
  destruct e; simpl in *; intros x Hx; (eapply post_mono; [|apply IH]); simpl.
  - intros r0 l [-> ->]. by rewrite sel_rpc.
  - apply Ha.
  - intros r0 l [-> ->]. by rewrite sel_rpc.
  - by subst.
Qed.

(** What the caller of [rpc] sees. *)
Definition result {A} (r : outcome A) : error + A :=
  match r with Ret a => inr a | Fail e => inl e | Panic _ => inl EEOF end.

Lemma gives_rpc `{RD : Readings} {Ob} `{Observer Ob} {A} net (p : prog rpcE A) :
  determined net p → no_panic (ask net p) → gives (from net) (attempt (lift p)) (result (ask net p)) [].
Proof. intros Hd Hn. by apply gives_attempt; [apply post_rpc|]. Qed.

Lemma post_filter {A} (P : write → Prop) `{∀ w, Decision (P w)} ok (p : prog taskE A) Q :
  post (Obs := observe_writes) ok p Q →
  post (Obs := observe_if P) ok p (λ r l, ∃ l0, l = filter P l0 ∧ Q r l0).
Proof.
  revert Q. induction p as [r|X e k IH]; intros Q Hp; [by exists []|]. intros x Hx.
  eapply post_mono; [|apply IH, Hp, Hx]. intros r l (l0 & -> & Hq). eexists. split; [|exact Hq].
  rewrite filter_app. by destruct e.
Qed.

(** ** Parallel sections *)

(** The section runs in a process: between its own steps the shared state may
    change, as long as what is observed does not. *)
Definition undisturbed {Ob} (Obs : Observer Ob) (ok : ∀ X, taskE X → X → Prop) (step : pool → pool → Prop) : Prop :=
  ∀ s s', step s s' → pstep ok s s' ∨ (waiting s' = waiting s ∧ active s' = active s ∧ view (sh s') = view (sh s)).

Lemma undisturbed_pstep {Ob} (Obs : Observer Ob) ok : undisturbed Obs ok (pstep ok).
Proof. intros s s' Hs. by left. Qed.

Section parallel.
Context {Ob : Type} `{Obs : Observer Ob} (ok : ∀ X, taskE X → X → Prop).

(** A goroutine body that ends normally, with observations in [Q]. *)
Definition body (p : prog taskE unit) (Q : list Ob → Prop) : Prop := post ok p (λ r l, r = Ret tt ∧ Q l).

Definition chosen (Qs : list (list Ob → Prop)) (ls : list (list Ob)) : Prop := Forall2 (λ Q l, Q l) Qs ls.

(** What is still to be observed completes what has been observed. *)
Definition obs_inv (Qs : list (list Ob → Prop)) (l0 : list Ob) (s : pool) : Prop :=
  ∃ Qs', Forall2 body (active s ++ waiting s) Qs' ∧
    ∀ ls', chosen Qs' ls' → ∃ ls, chosen Qs ls ∧ view (sh s) ++ (ls' ≫= id) ≡ₚ l0 ++ (ls ≫= id).

Lemma obs_pstep Qs l0 s s' : obs_inv Qs l0 s → pstep ok s s' → obs_inv Qs l0 s'.
Proof.
  intros (Qs' & Hb & Hc) Hs. inversion Hs as [p ps Hq Hlen|i X e k x s1 Hi Hok Hh|i Hi]; subst; simpl.
  - exists Qs'. simpl. rewrite <- app_assoc. simpl. by rewrite <- Hq.
  - pose proof (lookup_lt_Some _ _ _ Hi) as Hlt.
    assert ((active s ++ waiting s) !! i = Some (Vis e k)) as Hi' by (by rewrite lookup_app_l).
    destruct (Forall2_lookup_l _ _ _ _ _ Hb Hi') as (Q & HQ & Hp).
    exists (<[i := λ l, Q (sel X e ++ l)]> Qs'). simpl. split.
    { rewrite <- insert_app_l by done. apply Forall2_insert; [done|]. apply Hp, Hok. }
    intros ls' Hls. assert (i < length Qs')%nat as HiQ by (by eapply lookup_lt_Some).
    destruct (Forall2_lookup_l _ _ _ _ _ Hls (list_lookup_insert_eq Qs' i _ HiQ)) as (l & Hl & HQl).
    destruct (Hc (<[i := sel X e ++ l]> ls')) as (ls & Hch & Hp').
    { assert (Qs' = <[i := Q]> (<[i := λ l, Q (sel X e ++ l)]> Qs')) as E
        by (by rewrite list_insert_insert_eq, list_insert_id).
      unfold chosen. rewrite E. by apply Forall2_insert. }
    exists ls. split; [done|]. rewrite <- Hp', (view_step _ _ _ _ _ Hh), <- app_assoc. f_equiv.
    apply (Permutation_app_inv_r l). rewrite <- app_assoc.
    pose proof (bind_insert_perm id ls' i l (sel X e ++ l) Hl) as Hperm. simpl in Hperm. rewrite Hperm.
    rewrite (Permutation_app_comm (ls' ≫= id) (sel X e ++ l)), <- app_assoc. f_equiv. apply Permutation_app_comm.
  - pose proof (lookup_lt_Some _ _ _ Hi) as Hlt.
    assert ((active s ++ waiting s) !! i = Some (Leaf (Ret tt))) as Hi' by (by rewrite lookup_app_l).
    destruct (Forall2_lookup_l _ _ _ _ _ Hb Hi') as (Q & HQ & [_ HQ0]).
    exists (delete i Qs'). simpl. split; [rewrite <- delete_app_left by done; by apply Forall2_delete|].
    intros ls' Hls. rewrite delete_take_drop in Hls. apply Forall2_app_inv_l in Hls as (l1 & l2 & H1 & H2 & ->).
    destruct (Hc (l1 ++ [] :: l2)) as (ls & Hch & Hp).
    { unfold chosen. rewrite <- (take_drop_middle Qs' i Q HQ). apply Forall2_app; [done|]. by constructor. }
    exists ls. split; [done|]. by rewrite <- Hp, !bind_app, bind_cons.
Qed.

Lemma obs_step step Qs l0 s s' : undisturbed Obs ok step → obs_inv Qs l0 s → step s s' → obs_inv Qs l0 s'.
Proof.
  intros Hu Hi Hs. destruct (Hu s s' Hs) as [Hp|(Hw & Ha & Hv)]; [by eapply obs_pstep|].
  unfold obs_inv. by rewrite Hw, Ha, Hv.
Qed.

(** The observations of a section are those of its bodies, in some order; and no
    body panics. *)
Lemma parallel_post step items Qs s0 s :
  undisturbed Obs ok step → Forall2 body items Qs → rtc step (parallel items s0) s →
  ¬ crashed s ∧ (finished s → ∃ ls, chosen Qs ls ∧ view (sh s) ≡ₚ view s0 ++ (ls ≫= id)).
Proof.
  intros Hu Hb Hr. assert (obs_inv Qs (view s0) s) as (Qs' & Hb' & Hc).
  { refine (rtc_invariant step (obs_inv Qs (view s0)) (λ s s', obs_step step Qs (view s0) s s' Hu) _ _ Hr _).
    exists Qs. split; [done|]. intros ls' Hls. by exists ls'. }
  split.
  - intros (i & msg & Hi).
    assert ((active s ++ waiting s) !! i = Some (Leaf (Panic msg))) as Hi'
      by (rewrite lookup_app_l; [done|by eapply lookup_lt_Some]).
    by destruct (Forall2_lookup_l _ _ _ _ _ Hb' Hi') as (Q & _ & [? _]).
  - intros [Hf1 Hf2]. rewrite Hf1, Hf2 in Hb'. apply Forall2_nil_inv_l in Hb' as ->.
    destruct (Hc []) as (ls & Hch & Hp); [constructor|]. exists ls. split; [done|]. by rewrite app_nil_r in Hp.
Qed.

(** Bodies with one result each. *)
Lemma gives_body p l l' : gives ok p tt l → l ≡ₚ l' → body p (λ l, l ≡ₚ l').
Proof. intros Hp Hl. unfold body. eapply post_mono; [|exact Hp]. by intros r l0 [-> ->]. Qed.

Lemma parallel_gives {A} step (f : A → prog taskE unit) (g : A → list Ob) xs s0 s :
  undisturbed Obs ok step → (∀ x, x ∈ xs → body (f x) (λ l, l ≡ₚ g x)) →
  rtc step (parallel (f <$> xs) s0) s → finished s → view (sh s) ≡ₚ view s0 ++ (xs ≫= g).
Proof.
  intros Hu Hx Hr Hf.
  destruct (parallel_post step (f <$> xs) ((λ x l, l ≡ₚ g x) <$> xs) s0 s) as [_ H]; [done| |done|].
  - apply Forall2_fmap_2. apply Forall_Forall2_diag, Forall_forall. exact Hx.
  - destruct (H Hf) as (ls & Hch & ->). f_equiv. clear -Hch. revert ls Hch.
    induction xs as [|x xs IH]; intros ls Hch.
    + by apply Forall2_nil_inv_l in Hch as ->.
    + apply Forall2_cons_inv_l in Hch as (l & ls' & Hl & Hch & ->). rewrite !bind_cons. by rewrite Hl, (IH ls' Hch).
Qed.
End parallel.

(** Bodies known by all their writes, observed by some. *)
Lemma body_filter (P : write → Prop) `{∀ w, Decision (P w)} ok p (Q : list write → Prop) :
  body (Obs := observe_writes) ok p Q → body (Obs := observe_if P) ok p (λ l, ∃ l0, l = filter P l0 ∧ Q l0).
Proof.
  intros Hb. apply (post_filter P) in Hb. unfold body. eapply post_mono; [|exact Hb].
  intros r l (l0 & -> & -> & Hq). eauto.
Qed.
