(* ===== verification/Tame.v ===== *)
(** * The tasks never crash

    Against peers that may answer anything, as long as the client itself does not
    panic on an answer, every task of a collection cycle and every goroutine of
    its parallel sections returns normally: errors are handled, no index is out
    of range, no rate is rounded that cannot be.  A parallel section therefore
    always runs to its end. *)

From Stdlib Require Import ZArith Lia String.
From S2P Require Import Prelude GoStrings GoFloat Codec Util Model Effects Service Peers Task Parallel Logic.

Section rules.
Context {good : outcome RemotingCommand → Prop}.

(** The peers answer in [good]; clock and identifiers are arbitrary. *)
Definition calmE (X : Type) (e : taskE X) : X → Prop :=
  match e in taskE X return X → Prop with
  | Rpc _ r => match r in rpcE X return X → Prop with
               | InvokeSync _ _ => λ x, good x
               | AddOpaque => λ _, True
               end
  | _ => λ _, True
  end.

(** The program returns normally, with a value in [P]. *)
Definition tame {A} (p : prog taskE A) (P : A → Prop) : Prop :=
  post (Ob := write) calmE p (λ r _, ∃ a, r = Ret a ∧ P a).

(** ** Rules *)

Lemma tame_ret {A} (a : A) (P : A → Prop) : P a → tame (mret a) P.
Proof. intros H. by exists a. Qed.

Lemma tame_mono {A} (p : prog taskE A) (P P' : A → Prop) : (∀ a, P a → P' a) → tame p P → tame p P'.
Proof. intros HP. apply post_mono. intros r _ (a & -> & Ha). eauto. Qed.

Lemma tame_bind {A B} (p : prog taskE A) (f : A → prog taskE B) (P : A → Prop) Q :
  tame p P → (∀ a, P a → tame (f a) Q) → tame (p ≫= f) Q.
Proof.
  intros Hp Hf. apply post_bind. eapply post_mono; [|exact Hp]. intros r l (a & -> & Ha). by apply Hf.
Qed.

Lemma tame_trigger {X} (e : taskE X) : tame (trigger e) (λ _, True).
Proof. apply post_trigger. intros x _. by exists x. Qed.

Lemma post_lift_calm {A} (p : prog rpcE A) (P : A → Prop) :
  yields good p P → post (Ob := write) calmE (lift p) (λ r _, fine P r).
Proof.
  induction p as [r|X e k IH]; [done|]. destruct e; simpl; intros Hy x Hx; apply IH, Hy; done.
Qed.

(** A call whose error is handled. *)
Lemma tame_rpc {A} (p : prog rpcE A) (P : A → Prop) :
  yields good p P → tame (attempt (lift p)) (λ r, match r with inr a => P a | inl _ => True end).
Proof.
  intros Hy. apply post_attempt. eapply post_mono; [|by apply post_lift_calm].
  intros [a|e|msg] _ Hr; simpl in *; [by exists (inr a)|by exists (inl e)|done].
Qed.

(** A call that handles its own errors. *)
Lemma tame_lift {A} (p : prog rpcE A) (P : A → Prop) : yields good p P → no_fail p → tame (lift p) P.
Proof.
  induction p as [r|X e k IH]; intros Hy Hn; [destruct r; simpl in *; [by exists a|done..]|].
  destruct e; simpl in *; intros x Hx; apply IH; try apply Hy; try apply Hn; done.
Qed.

Lemma tame_outcome {A} (r : outcome A) : no_panic r → tame (attempt (Leaf r)) (λ _, True).
Proof. intros Hr. destruct r; [by exists (inr a)|by exists (inl e)|by destruct (Hr msg)]. Qed.

Lemma tame_forEach {A} (f : A → prog taskE unit) l :
  (∀ x, tame (f x) (λ _, True)) → tame (forEach f l) (λ _, True).
Proof.
  intros Hf. induction l as [|x l IH]; [by apply tame_ret|]. eapply tame_bind; [apply Hf|]. by intros [] _.
Qed.

(** *** Programs that may return an error *)

Definition mild {A} (p : prog taskE A) : Prop := post (Ob := write) calmE p (λ r _, fine (λ _, True) r).

Lemma mild_bind {A B} (p : prog taskE A) (f : A → prog taskE B) : mild p → (∀ a, mild (f a)) → mild (p ≫= f).
Proof.
  intros Hp Hf. apply post_bind. eapply post_mono; [|exact Hp]. intros [a|e|msg] l Hr; [apply Hf|done..].
Qed.

Lemma mild_trigger {X} (e : taskE X) : mild (trigger e).
Proof. apply post_trigger. done. Qed.

Lemma mild_lift {A} (p : prog rpcE A) : yields good p (λ _, True) → mild (lift p).
Proof. apply post_lift_calm. Qed.

Lemma tame_mild {A} (p : prog taskE A) : mild p → tame (attempt p) (λ _, True).
Proof.
  intros Hp. apply post_attempt. eapply post_mono; [|exact Hp].
  intros [a|e|msg] _ Hr; simpl in *; [by exists (inr a)|by exists (inl e)|done].
Qed.

(** *** Without a condition on the values *)

Lemma tame_seq {A B} (p : prog taskE A) (f : A → prog taskE B) Q :
  tame p (λ _, True) → (∀ a, tame (f a) Q) → tame (p ≫= f) Q.
Proof. intros Hp Hf. eapply tame_bind; [exact Hp|]. auto. Qed.

Lemma tame_call {A} (p : prog rpcE A) : yields good p (λ _, True) → tame (attempt (lift p)) (λ _, True).
Proof. intros Hy. eapply tame_mono; [|by apply tame_rpc]. done. Qed.

End rules.
Arguments calmE : clear implicits.
Arguments tame good {A} p P : rename.

(** Walk through a program by its binds, loops and matches. *)
Ltac walk_tame :=
  repeat first
    [ progress intros
    | apply tame_forEach
    | match goal with
      | |- tame _ (mret _) _ => apply tame_ret; exact I
      | |- tame _ (trigger _) _ => apply tame_trigger
      | |- tame _ (emit _) _ => apply tame_trigger
      | |- tame _ (attempt (lift _)) _ => apply tame_call
      | |- tame _ (attempt (Leaf _)) _ => apply tame_outcome
      | |- tame _ (_ ≫= _) _ => apply tame_seq
      | |- tame _ (match ?x with _ => _ end) _ => destruct x
      | |- tame _ (if ?b then _ else _) _ => destruct b
      end ].

(** ** The tasks *)

Section tasks.
Context `{GR : GoRange} `{JL : JsonLib} {JO : JsonOk} {good : outcome RemotingCommand → Prop} {Tol : Tolerable good}.
Variable t : CollectTask.

Lemma GetFixedDouble_finite v : isFinite v = true → ∃ r, GetFixedDouble v = Ret r.
Proof.
  intros [[num den] E]%ratOf_finite. unfold GetFixedDouble. rewrite E. destruct (hundredths num den). eauto.
Qed.

Lemma parseConsumeStats_no_panic l : no_panic (parseConsumeStats l).
Proof.
  induction l as [|[k v] l IH]; intros msg; [done|]. simpl. intros E.
  apply bind_panic in E as [E|(q & _ & E)]; [by apply (wrapErr_no_panic _ _ _ (ok_MessageQueue _)) in E|].
  apply bind_panic in E as [E|(o & _ & E)]; [by apply (wrapErr_no_panic _ _ _ (ok_OffsetWrapper _)) in E|].
  apply bind_panic in E as [E|(r & _ & E)]; [by eapply IH|done].
Qed.

Lemma parseTopicStats_no_panic l : no_panic (parseTopicStats l).
Proof.
  induction l as [|[k v] l IH]; intros msg; [done|]. simpl. intros E.
  apply bind_panic in E as [E|(q & _ & E)]; [by apply (wrapErr_no_panic _ _ _ (ok_MessageQueue _)) in E|].
  apply bind_panic in E as [E|(o & _ & E)]; [by apply (wrapErr_no_panic _ _ _ (ok_TopicOffset _)) in E|].
  apply bind_panic in E as [E|(r & _ & E)]; [by eapply IH|done].
Qed.

Lemma ComputeTotalDiff_no_panic cs : no_panic (ComputeTotalDiff cs).
Proof. intros msg E. apply bind_panic in E as [E|(es & _ & E)]; [by apply parseConsumeStats_no_panic in E|done]. Qed.

Lemma tame_minuteStats addr name key :
  tame good (minuteStats t addr name key) (λ s, ∀ item, s = Some item → isFinite (si_Tps item) = true).
Proof.
  unfold minuteStats. eapply tame_bind; [apply tame_rpc, yields_StatsData|].
  intros [e|d] Hd; apply tame_ret; [done|]. exact Hd.
Qed.

Lemma tame_putTps addr name key w : tame good (putTps t addr name key w) (λ _, True).
Proof.
  unfold putTps. eapply tame_bind; [apply tame_minuteStats|]. intros [item|] Hs; [|by apply tame_ret].
  destruct (GetFixedDouble_finite (si_Tps item)) as [v ->]; [by apply Hs|]. apply tame_trigger.
Qed.

Lemma tame_putSum addr name key w : tame good (putSum t addr name key w) (λ _, True).
Proof.
  unfold putSum. eapply tame_bind; [apply tame_minuteStats|]. intros [item|] _; walk_tame.
Qed.

Lemma tame_topicOffsetBody cl topic : tame good (topicOffsetBody t cl topic) (λ _, True).
Proof.
  unfold topicOffsetBody. walk_tame; [calm|].
  apply parseTopicStats_no_panic.
Qed.

Lemma tame_enumerateBody topic : tame good (enumerateBody t topic) (λ _, True).
Proof. unfold enumerateBody. walk_tame. calm. Qed.

Lemma tame_queueLag addr e : tame good (queueLag t addr e) (λ _, True).
Proof. unfold queueLag. cbv zeta. walk_tame; calm. Qed.

Lemma tame_latencyLoop addrs m es : tame good (latencyLoop t addrs m es) (λ _, True).
Proof.
  revert m. induction es as [|e es IH]; intros m; [by apply tame_ret|]. cbn [latencyLoop]. cbv zeta.
  destruct (String.eqb _ _); [apply IH|]. apply tame_seq; [apply tame_queueLag|]. intros [lag|]; [apply IH|by apply tame_ret].
Qed.

Lemma tame_groupOnline group cc n : tame good (groupOnline t group cc n) (λ _, True).
Proof. unfold groupOnline. cbv zeta. walk_tame. Qed.

Lemma tame_groupStats cl addrs topic group cc n : tame good (groupStats t cl addrs topic group cc n) (λ _, True).
Proof.
  unfold groupStats. walk_tame; try calm; try apply tame_latencyLoop.
  - apply parseConsumeStats_no_panic.
  - apply ComputeTotalDiff_no_panic.
Qed.

Lemma tame_groupBody cl addrs p : tame good (groupBody t cl addrs p) (λ _, True).
Proof.
  unfold groupBody. cbv zeta. apply tame_seq.
  - apply tame_lift; [calm|apply no_fail_connection].
  - intros [cc err]. apply tame_seq; [apply tame_groupOnline|]. intros _. apply tame_groupStats.
Qed.

Lemma tame_brokerStatsBody ci topic : tame good (brokerStatsBody t ci topic) (λ _, True).
Proof.
  unfold brokerStatsBody. walk_tame; cbv zeta; walk_tame; first [calm|apply tame_putTps|apply tame_putSum].
Qed.

(** *** The tasks of the schedule *)

Lemma tame_cluster : tame good (attempt (cluster t)) (λ _, True).
Proof.
  apply tame_mild. unfold cluster. apply mild_bind; [apply mild_trigger|]. intros name.
  destruct (negb _); [done|]. apply mild_bind; [apply mild_lift; calm|]. intros ci.
  apply mild_bind; [|intros _; apply mild_trigger]. destruct (range _) as [|[n ?] ?]; [done|apply mild_trigger].
Qed.

Lemma tame_brokerAddrTable : tame good (attempt (brokerAddrTable t)) (λ _, True).
Proof. apply tame_mild, mild_bind; [apply mild_lift; calm|done]. Qed.

(** The jobs of the scheduler and the client-metric task; the two that read
    broker runtime tables apart. *)
Inductive cronTask : ∀ A, prog taskE A → Prop :=
| T_TopicOffset : cronTask _ (CollectTopicOffset t)
| T_Producer : cronTask _ (CollectProducer t)
| T_ConsumerOffset : cronTask _ (CollectConsumerOffset t)
| T_BrokerStatsTopic : cronTask _ (CollectBrokerStatsTopic t)
| T_BrokerStats : cronTask _ (CollectBrokerStats t)
| T_ClientMetric group cc : cronTask _ (NewClientMetricTask t group cc).
Inductive runtimeTask : prog taskE unit → Prop :=
| T_BrokerGroupStats : runtimeTask (CollectBrokerGroupStats t)
| T_BrokerRuntimeStats : runtimeTask (CollectBrokerRuntimeStats t).

Lemma tame_cronTask A (p : prog taskE A) : cronTask A p → tame good p (λ _, True).
Proof.
  intros Hp. destruct Hp.
  - unfold CollectTopicOffset. walk_tame; try calm. apply tame_cluster.
  - unfold CollectProducer. walk_tame; cbv zeta; walk_tame; calm.
  - unfold CollectConsumerOffset. walk_tame; first [apply tame_cluster|apply tame_brokerAddrTable|calm].
  - unfold CollectBrokerStatsTopic. walk_tame; calm.
  - unfold CollectBrokerStats. walk_tame; cbv zeta; walk_tame; first [calm|apply tame_putTps].
  - unfold NewClientMetricTask. walk_tame; calm.
Qed.

Lemma tame_runtimeTask p : (∀ resp, good (Ret resp) → reports resp) → runtimeTask p → tame good p (λ _, True).
Proof.
  intros Hc Hp. destruct Hp.
  - unfold CollectBrokerGroupStats, fetchRuntime. walk_tame; cbv zeta; walk_tame; try calm; done.
  - unfold CollectBrokerRuntimeStats. walk_tame; cbv zeta; walk_tame; calm; done.
Qed.
End tasks.

(** ** Sections run to their end *)

Abbreviation calmly := (calmE no_panic).

Lemma calm_total X (e : taskE X) s : ∃ x s', calmly X e x ∧ handles e s x s'.
Proof.
  destruct e as [X e|w| | |n|g|ps|g cc]; simpl.
  - destruct e; [by exists 0, s|by exists (Fail EEOF), s].
  - exists tt. eexists. split; [done|]. by exists (λ _, 0).
  - by exists 0, s.
  - by eexists _, s.
  - exists tt. by eexists.
  - by eexists _, _.
  - exists tt. by eexists.
  - exists tt. by eexists.
Qed.

Lemma pool_calm_progress s : bounded s → ¬ crashed s → finished s ∨ ∃ s', pstep calmly s s'.
Proof.
  intros (Hl & Hw & Ha) Hn. destruct (active s) as [|p l] eqn:E.
  - destruct (waiting s) as [|q qs] eqn:Ew; [by left|]. right. eexists.
    eapply P_spawn; [exact Ew|]. rewrite E. simpl. unfold collectionConcurrency. lia.
  - apply Forall_cons in Ha as [Hp _]. right. destruct p as [[[]|err|msg]|X e k].
    + eexists. eapply (P_finish _ _ 0). by rewrite E.
    + destruct Hp.
    + destruct Hn. exists 0%nat, msg. by rewrite E.
    + destruct (calm_total X e (sh s)) as (x & s' & Hx & Hh). eexists.
      eapply (P_effect _ _ 0); [by rewrite E|exact Hx|exact Hh].
Qed.

Section never.
Context `{GR : GoRange} `{JL : JsonLib} {JO : JsonOk}.

Lemma tame_taskBody p : taskBody p → tame no_panic p (λ _, True).
Proof.
  destruct 1; [apply tame_topicOffsetBody|apply tame_enumerateBody|apply tame_groupBody|apply tame_brokerStatsBody].
Qed.

(** Peers whose answers do not make the client panic, and whose runtime tables
    have well-formed disk capacities. *)
Definition reporting (x : outcome RemotingCommand) : Prop := no_panic x ∧ ∀ resp, x = Ret resp → reports resp.
#[export] Instance reporting_tolerable : Tolerable reporting.
Proof. by intros x [? _]. Qed.

(** C12: a collection cycle does not crash the process and always ends, on these
    conditions: decoding an answer does not panic ([no_panic]; a frame with a
    negative key length, for one, does make it panic), encoding/json keeps its
    documented promises ([JsonOk]), and, for the two jobs that read runtime tables,
    every table that decodes has well-formed disk capacities ([reporting]).  Whatever
    the peers answer within them, (1) the jobs of the scheduler and the client-metric
    task return normally, (2) so do the two jobs that read runtime tables, and (3) a
    parallel section of the jobs never contains a panicking goroutine, runs at most
    30 of them at a time, can always go on until it is finished, and has no infinite
    run. *)
Theorem cycle_never_crashes t items s0 :
  Forall taskBody items →
  (∀ A p, cronTask t A p → tame no_panic p (λ _, True)) ∧
  (∀ p, runtimeTask t p → tame reporting p (λ _, True)) ∧
  Acc (flip (pstep calmly)) (parallel items s0) ∧
  ∀ s, rtc (pstep calmly) (parallel items s0) s →
    ¬ crashed s ∧ (length (active s) ≤ collectionConcurrency)%nat ∧ (finished s ∨ ∃ s', pstep calmly s s').
Proof.
  intros Hi. split; [intros A p; by apply tame_cronTask|]. split.
  { intros p. apply tame_runtimeTask. intros resp [_ H]. by apply H. }
  split; [apply pool_acc|]. intros s Hr.
  assert (bounded s) as Hb.
  { eapply rtc_invariant; [apply bounded_step|exact Hr|]. split_and!; simpl; [lia| |constructor].
    eapply Forall_impl; [exact Hi|apply taskBody_no_fail]. }
  destruct (parallel_post (Ob := write) calmly (pstep calmly) items (replicate (length items) (λ _, True)) s0 s) as [Hn _];
    [apply undisturbed_pstep| |done|].
  { apply Forall2_replicate_r; [done|]. eapply Forall_impl; [exact Hi|]. intros p Hp.
    eapply post_mono; [|by apply tame_taskBody]. intros r l ([] & -> & _). done. }
  split; [done|]. split; [apply Hb|]. by apply pool_calm_progress.
Qed.
End never.

(** ** Witness *)

#[local] Existing Instance demo_goRange.
#[local] Existing Instance demoJson.

Lemma demoJson_ok : JsonOk.
Proof.
  split; intros; try (intros msg); try discriminate.
  simpl in *. simplify_eq/=. reflexivity.
Qed.

Lemma cycle_never_crashes_witness :
  Acc (flip (pstep calmly)) (parallel offset_items demoShared) ∧
  tame no_panic (CollectProducer demoTask) (λ _, True) ∧ tame reporting (CollectBrokerRuntimeStats demoTask) (λ _, True).
Proof.
  assert (Forall taskBody offset_items) as Hi by (repeat constructor).
  destruct (cycle_never_crashes (JO := demoJson_ok) demoTask offset_items demoShared Hi) as (H1 & H2 & H3 & _).
  split; [exact H3|]. split; [exact (H1 _ _ (T_Producer demoTask))|exact (H2 _ (T_BrokerRuntimeStats demoTask))].
Defined.
