(* ===== verification/Cycle.v ===== *)
(** * What a collection cycle writes

    Against peers that answer a request as a function of it, the writes of every
    job are a function of the answers, whatever the interleaving of the
    goroutines: [topicWrites], [groupWrites], [statsWrites] and so on say which.
    The clock enters only in the store-time latencies.  [ask net p] is what the
    operation [p] of the admin client answers. *)

From Stdlib Require Import ZArith Lia String.
From S2P Require Import Prelude GoStrings GoFloat Codec Util Model Effects Store Health Collector Service Peers Task Parallel Logic Tame.

(** ** Sums per broker *)

(** Go accumulates into a map: [m[key] += val]. *)
Section sums.
Context {E : Type} (key : E → string) (val : E → Z).

Definition addAt (m : gmap string Z) (e : E) : gmap string Z :=
  <[key e := int64 (default 0 (m !! key e) + val e)]> m.
Definition sumAt (k : string) (es : list E) : Z := foldr Z.add 0 (val <$> filter (λ e, key e = k) es).

Lemma sumAt_cons k e es : sumAt k (e :: es) = (if decide (key e = k) then val e else 0) + sumAt k es.
Proof. unfold sumAt. rewrite filter_cons. by destruct (decide (key e = k)). Qed.

Lemma sumAt_absent k es : k ∉ key <$> es → sumAt k es = 0.
Proof.
  induction es as [|e es IH]; [done|]. rewrite fmap_cons, not_elem_of_cons. intros [Hne Hn].
  rewrite sumAt_cons, decide_False by congruence. by apply IH.
Qed.

Lemma lookup_sums es m k :
  foldl addAt m es !! k =
  if decide (k ∈ key <$> es) then Some (int64 (default 0 (m !! k) + sumAt k es)) else m !! k.
Proof.
  revert m. induction es as [|e es IH]; intros m; cbn [foldl].
  { by rewrite decide_False by (intros []%elem_of_nil). }
  rewrite IH, sumAt_cons. unfold addAt.
  assert (k ∈ key <$> (e :: es) ↔ k = key e ∨ k ∈ key <$> es) as Hin by apply elem_of_cons.
  destruct (decide (key e = k)) as [E0|Hne]; [rewrite E0 in *|].
  - rewrite lookup_insert_eq, (decide_True (P := k ∈ key <$> (e :: es))) by (apply Hin; left; done). cbn [default].
    simpl. destruct (decide (k ∈ key <$> es)) as [|Hn].
    + unfold int64. rewrite swrap_add_l by lia. by rewrite Z.add_assoc.
    + by rewrite (sumAt_absent k es Hn), Z.add_0_r.
  - rewrite lookup_insert_ne by done.
    assert (k ∈ key <$> (e :: es) ↔ k ∈ key <$> es) as Hin' by (rewrite Hin; split; [by intros [->|?]|by right]).
    destruct (decide (k ∈ key <$> es)), (decide (k ∈ key <$> (e :: es))); try done; exfalso; tauto.
Qed.
End sums.

(** A map that is a function on the keys of a list. *)
Lemma range_keyed `{GR : GoRange} {V} (m : gmap string V) (keys : list string) (f : string → V) :
  (∀ k, m !! k = if decide (k ∈ keys) then Some (f k) else None) →
  range m ≡ₚ (λ k, (k, f k)) <$> remove_dups keys.
Proof.
  intros Hm. apply NoDup_Permutation.
  - eapply NoDup_fmap_1. apply NoDup_fst_range.
  - apply NoDup_fmap_2; [intros ? ? [=]; done|apply NoDup_remove_dups].
  - intros [k v]. rewrite elem_of_range, list_elem_of_fmap, Hm. setoid_rewrite elem_of_remove_dups.
    destruct (decide (k ∈ keys)) as [Hk|Hk]; split; [intros [= <-]; eauto|by intros (? & [= -> ->] & _)|done|by intros (? & [= -> ->] & ?)].
Qed.

Lemma range_sums `{GR : GoRange} {E} (key : E → string) (val : E → Z) es :
  range (foldl (addAt key val) ∅ es) ≡ₚ (λ k, (k, int64 (sumAt key val k es))) <$> remove_dups (key <$> es).
Proof. apply range_keyed. intros k. rewrite lookup_sums, lookup_empty. done. Qed.

Lemma bind_const_nil {A B} (l : list A) : (l ≫= λ _, []) = @nil B.
Proof. induction l; [done|by rewrite bind_cons]. Qed.

(** ** Answers of the peers *)

Section cycle.
Context `{GR : GoRange} `{JL : JsonLib} {JO : JsonOk} `{RD : Readings}.
Variables (t : CollectTask) (net : network).
Context {St : Stable (ct_Admin t) net}.
Implicit Types (cl topic group : string).

Abbreviation a := (ct_Admin t).
Abbreviation ok := (from net).

(** A call of an operation whose error is handled. *)
Lemma gives_call {Ob} `{Observer Ob} {A} (p : prog rpcE A) P :
  determined net p → yields no_panic p P → gives ok (attempt (lift p)) (result (ask net p)) [].
Proof. intros Hd Hy. apply gives_rpc; [done|]. eapply ask_no_panic; [apply stable_calm|exact Hy]. Qed.

(** Parsing that cannot panic. *)
Lemma gives_outcome {Ob} `{Observer Ob} {A} (r : outcome A) :
  no_panic r → gives ok (attempt (Leaf r)) (result r) [].
Proof. intros Hn. by apply gives_attempt. Qed.

Lemma gives_emit w : gives ok (emit w) tt [w].
Proof. intros [] _. done. Qed.

Lemma gives_emits {A} (f : A → prog taskE unit) (g : A → write) xs :
  (∀ x, f x = emit (g x)) → gives ok (forEach f xs) tt (g <$> xs).
Proof.
  intros Hf. assert (g <$> xs = xs ≫= λ x, [g x]) as ->.
  { clear Hf. induction xs as [|x xs IH]; [done|]. rewrite fmap_cons, bind_cons. simpl. by rewrite IH. }
  apply gives_forEach. intros x _. rewrite Hf. apply gives_emit.
Qed.

(** The next statement is a call: its result is known. *)
Ltac call := eapply gives_after; [eapply gives_call; [determinate|calm]|cbv beta].

(** ** [CollectTopicOffset] *)

Definition brokerOf (e : TopicStatsEntry) : string := mq_BrokerName (te_Queue e).

(** The entries of a topic, when its statistics arrive and parse. *)
Definition topicEntries topic : list TopicStatsEntry :=
  default [] (got (tts ← ask net (ExamineTopicStats a topic); TopicStatsTable_Entries tts)).

(** Per broker the 64-bit sum of the maximum offsets of its queues, and the
    newest update. *)
Definition sumMax (bn : string) (es : list TopicStatsEntry) : Z := sumAt brokerOf (λ e, to_MaxOffset (te_Offset e)) bn es.
Definition lastUpdate (bn : string) (es : list TopicStatsEntry) : Z :=
  foldr Z.max 0 ((λ e, to_LastUpdateTimestamp (te_Offset e)) <$> filter (λ e, brokerOf e = bn) es).

Definition topicWrites cl topic : list write :=
  (λ bn, W_TopicOffset cl bn topic (lastUpdate bn (topicEntries topic)) (floatOfZ (int64 (sumMax bn (topicEntries topic)))))
    <$> remove_dups (brokerOf <$> topicEntries topic).

Definition tsStep (ts : gmap string Z) (e : TopicStatsEntry) : gmap string Z :=
  let bn := brokerOf e in
  if default 0 (ts !! bn) <? to_LastUpdateTimestamp (te_Offset e)
  then <[bn := to_LastUpdateTimestamp (te_Offset e)]> ts else ts.

Lemma topicOffset_split es o ts :
  foldl topicOffsetStep (o, ts) es = (foldl (addAt brokerOf (λ e, to_MaxOffset (te_Offset e))) o es, foldl tsStep ts es).
Proof. revert o ts. induction es as [|e es IH]; intros o ts; [done|]. apply IH. Qed.

Lemma foldr_max d x l : foldr Z.max (Z.max d x) l = Z.max x (foldr Z.max d l).
Proof. induction l as [|y l IH]; simpl; lia. Qed.

Lemma lookup_ts es ts bn :
  default 0 (foldl tsStep ts es !! bn) =
  foldr Z.max (default 0 (ts !! bn)) ((λ e, to_LastUpdateTimestamp (te_Offset e)) <$> filter (λ e, brokerOf e = bn) es).
Proof.
  revert ts. induction es as [|e es IH]; intros ts; cbn [foldl]; [done|].
  rewrite IH, filter_cons. unfold tsStep. cbv zeta. destruct (decide (brokerOf e = bn)) as [->|Hne].
  - cbn [fmap list_fmap foldr]. rewrite <- foldr_max. f_equal.
    destruct (Z.ltb_spec (default 0 (ts !! bn)) (to_LastUpdateTimestamp (te_Offset e)));
      [rewrite lookup_insert_eq; simpl|]; lia.
  - f_equal. f_equal. destruct (_ <? _); [by rewrite lookup_insert_ne|done].
Qed.

Lemma topicOffsetBody_writes cl topic : body ok (topicOffsetBody t cl topic) (λ l, l ≡ₚ topicWrites cl topic).
Proof.
  assert (∃ l, gives ok (topicOffsetBody t cl topic) tt l ∧ l ≡ₚ topicWrites cl topic) as (l & Hl & Hp).
  2:{ by eapply gives_body. }
  unfold topicWrites, topicEntries, topicOffsetBody.
  pose proof (gives_call (Ob := write) (ExamineTopicStats a topic) _ (determined_TopicStats a net stable_oblivious topic)
    (calm_TopicStats a topic)) as Hc.
  destruct (ask net (ExamineTopicStats a topic)) as [tts|e|msg]; [|exists []; by split; [eapply gives_after; [exact Hc|]|]..].
  pose proof (gives_outcome (Ob := write) (TopicStatsTable_Entries tts) (parseTopicStats_no_panic _)) as Hd. cbn [mbind outcome_bind].
  destruct (TopicStatsTable_Entries tts) as [es|e|msg] eqn:E; cbn [got default].
  2,3: exists []; split; [|done]; eapply gives_after; [exact Hc|]; cbn [result]; rewrite E; by eapply gives_after.
  eexists. split.
  - eapply gives_after; [exact Hc|]. cbn [result]. rewrite E. eapply gives_after; [exact Hd|]. cbn [result].
    rewrite topicOffset_split.
    apply (gives_emits _ (λ x, W_TopicOffset cl x.1 topic (default 0 (foldl tsStep ∅ es !! x.1)) (floatOfZ x.2))).
    by intros [bn off].
  - rewrite range_sums, <- list_fmap_compose. apply Permutation_refl', list_fmap_ext.
    intros i bn _. simpl. rewrite lookup_ts. done.
Qed.

(** ** [CollectConsumerOffset] *)

(** *** Pass 1: the groups of the topics *)

Definition topicPairs topic : list topicGroup :=
  if HasPrefix topic taskDlqTopicPrefix then []
  else mkTopicGroup topic <$> default [] (gl_GroupList <$> got (ask net (QueryTopicConsumeByWho a topic))).

Lemma enumerateBody_pairs topic : gives (Ob := topicGroup) ok (enumerateBody t topic) tt (topicPairs topic).
Proof.
  unfold enumerateBody, topicPairs. destruct (HasPrefix topic taskDlqTopicPrefix); [apply gives_ret|]. call.
  destruct (ask net (QueryTopicConsumeByWho a topic)) as [gl|e|msg]; cbn [result got]; [|apply gives_ret..].
  simpl. destruct (gl_GroupList gl) as [|g gs]; [apply gives_ret|]. intros [] _. split; [done|]. apply app_nil_r.
Qed.

(** *** Pass 2: one (topic, group) pair *)

Definition connection group : option ConsumerConnection * option error :=
  default (None, None) (got (ask net (ExamineConsumerConnectionInfo a group))).

(** The clients online, 0 when the group has none or the lookup failed. *)
Definition online group : Z :=
  match connection group with (Some cc, None) => Z.of_nat (length (cc_ConnectionSet cc)) | _ => 0 end.

Definition countWrite group : write :=
  let conns := default [] (cc_ConnectionSet <$> (connection group).1) in
  let addrs := if 0 <? online group then ClientAddresses (cn_ClientAddr <$> conns) (cn_ClientId <$> conns) else ("", "") in
  W_GroupCount group addrs.1 addrs.2 (online group).

(** The entries of a pair, when its statistics arrive and parse. *)
Definition stats (p : topicGroup) : list ConsumeStatsEntry :=
  default [] (got (cs ← ask net (ExamineConsumeStats a (tg_group p) (tg_topic p)); ConsumeStats_Entries cs)).

Definition consumerBroker (e : ConsumeStatsEntry) : string := mq_BrokerName (ce_Queue e).
Definition consumed (e : ConsumeStatsEntry) : Z := ow_ConsumerOffset (ce_Offset e).

(** The messages of all queues that the group has not consumed. *)
Definition totalLag (es : list ConsumeStatsEntry) : Z := foldr Z.add 0 (diffOf <$> es).

Definition lagWrite (p : topicGroup) : write :=
  W_GroupDiff (FormatInt (online (tg_group p))) (tg_group p) (tg_topic p)
    (messageModelOrdinal (default "" (cc_MessageModel <$> (connection (tg_group p)).1))) (int64 (totalLag (stats p))).

Definition consumedWrites cl (p : topicGroup) : list write :=
  (λ bn, W_GroupBrokerTotalOffset cl bn (tg_topic p) (tg_group p) (int64 (sumAt consumerBroker consumed bn (stats p))))
    <$> remove_dups (consumerBroker <$> stats p).

(** The writes of a pair that do not depend on the clock. *)
Definition groupWrites cl (p : topicGroup) : list write :=
  countWrite (tg_group p) :: match stats p with [] => [] | _ => lagWrite p :: consumedWrites cl p end.

(** *** Store-time latency *)

(** The lag of a queue at time [now]: the age of the message at the consumer's
    offset, or of the oldest message when that offset is gone; 0 when the
    consumer has caught up or there is no such message; [None] when a pull
    fails. *)
Definition lagAt (addr : string) (e : ConsumeStatsEntry) (now : Z) : option Z :=
  pr ← got (ask net (QueryMsgByOffset a addr (ce_Queue e) (consumed e)));
  if String.eqb (pr_Status pr) "FOUND" then
    Some (if ow_BrokerOffset (ce_Offset e) =? consumed e then 0 else int64 (now - pr_StoreTimestamp pr))
  else if String.eqb (pr_Status pr) "OFFSET_ILLEGAL" then
    pr2 ← got (ask net (QueryMsgByOffset a addr (ce_Queue e) (pr_MinOffset pr)));
    Some (if String.eqb (pr_Status pr2) "FOUND" then int64 (now - pr_StoreTimestamp pr2) else 0)
  else Some 0.

(** Whether a pull fails does not depend on the clock. *)
Lemma lagAt_None addr e now now' : lagAt addr e now = None → lagAt addr e now' = None.
Proof.
  unfold lagAt. destruct (got (ask net (QueryMsgByOffset a addr (ce_Queue e) (consumed e)))) as [pr|]; [|done]. cbn [mbind option_bind].
  destruct (String.eqb _ _); [done|]. destruct (String.eqb _ _); [|done].
  destruct (got (ask net (QueryMsgByOffset a addr (ce_Queue e) (pr_MinOffset pr)))); cbn; [discriminate|done].
Qed.

Lemma queueLag_post addr e :
  post ok (queueLag t addr e) (λ r (l : list write), l = [] ∧ ∃ now, reading now ∧ r = Ret (lagAt addr e now)).
Proof.
  unfold queueLag, lagAt, consumed. apply post_bind.
  eapply post_mono; [|eapply gives_call; [determinate|calm]]. intros r l [-> ->]. cbn [thenPost].
  destruct (ask net (QueryMsgByOffset a addr (ce_Queue e) _)) as [pr|err|msg]; cbn [result got mbind option_bind];
    [|split; [done|exists someReading; by split; [apply someReading_ok|]]..].
  destruct (String.eqb (pr_Status pr) "FOUND").
  { intros now Hnow. split; [done|]. by exists now. }
  destruct (String.eqb (pr_Status pr) "OFFSET_ILLEGAL"); [|split; [done|exists someReading; by split; [apply someReading_ok|]]].
  apply post_bind. eapply post_mono; [|eapply gives_call; [determinate|calm]]. intros r l [-> ->]. cbn [thenPost].
  destruct (ask net (QueryMsgByOffset a addr (ce_Queue e) (pr_MinOffset pr))) as [pr2|err|msg];
    cbn [result got mbind option_bind]; [|split; [done|exists someReading; by split; [apply someReading_ok|]]..].
  destruct (String.eqb (pr_Status pr2) "FOUND"); [|split; [done|exists someReading; by split; [apply someReading_ok|]]].
  intros now Hnow. split; [done|]. by exists now.
Qed.

(** The lags of one broker. *)
Definition lagsOf (bn : string) (lags : list (string * Z)) : list Z := (filter (λ x, x.1 = bn) lags).*2.

Definition recordLags (m : gmap string Z) (lags : list (string * Z)) : gmap string Z :=
  foldl (λ m x, latencyUpdate m x.1 x.2) m lags.

Lemma lookup_latencyUpdate m bn lag bn' :
  latencyUpdate m bn lag !! bn' = if decide (bn = bn') then Some (Z.max (default 0 (m !! bn)) lag) else m !! bn'.
Proof.
  unfold latencyUpdate. destruct (m !! bn) as [cur|] eqn:E; simpl.
  - destruct (Z.ltb_spec cur lag); case_decide as Hb; subst; rewrite ?lookup_insert_eq, ?lookup_insert_ne by done;
      try done; [|rewrite E]; f_equal; lia.
  - destruct (Z.ltb_spec 0 lag); case_decide as Hb; subst; rewrite ?lookup_insert_eq, ?lookup_insert_ne by done;
      try done; f_equal; lia.
Qed.

Lemma lagsOf_cons bn b lag lags : lagsOf bn ((b, lag) :: lags) = (if decide (b = bn) then [lag] else []) ++ lagsOf bn lags.
Proof. unfold lagsOf. rewrite filter_cons. simpl. by destruct (decide (b = bn)). Qed.

Lemma lagsOf_absent bn lags : bn ∉ lags.*1 → lagsOf bn lags = [].
Proof.
  induction lags as [|[b lag] lags IH]; [done|]. rewrite fmap_cons, not_elem_of_cons. intros [Hne Hn].
  rewrite lagsOf_cons, decide_False by (simpl in *; congruence). by apply IH.
Qed.

Lemma lookup_recordLags lags m bn :
  recordLags m lags !! bn =
  if decide (bn ∈ lags.*1) then Some (foldr Z.max (default 0 (m !! bn)) (lagsOf bn lags)) else m !! bn.
Proof.
  revert m. induction lags as [|[b lag] lags IH]; intros m.
  { by rewrite decide_False by (intros []%elem_of_nil). }
  unfold recordLags in *. cbn [foldl fst snd]. rewrite IH, lookup_latencyUpdate, lagsOf_cons.
  assert (bn ∈ ((b, lag) :: lags).*1 ↔ bn = b ∨ bn ∈ lags.*1) as Hin by apply elem_of_cons.
  destruct (decide (b = bn)) as [->|Hne].
  - rewrite (decide_True (P := bn ∈ ((bn, lag) :: lags).*1)) by (apply Hin; by left).
    destruct (decide (bn ∈ lags.*1)) as [|Hn]; [|rewrite (lagsOf_absent bn lags Hn)]; cbn [from_option id app foldr].
    + by rewrite foldr_max.
    + f_equal. apply Z.max_comm.
  - assert (bn ∈ ((b, lag) :: lags).*1 ↔ bn ∈ lags.*1) as Hin' by (rewrite Hin; split; [by intros [->|?]|by right]).
    destruct (decide (bn ∈ lags.*1)) as [H1|H1], (decide (bn ∈ ((b, lag) :: lags).*1)) as [H2|H2]; try done;
      exfalso; tauto.
Qed.

(** The address of the queue's broker, empty when it is unknown. *)
Definition queueAddr (addrs : gmap string string) (e : ConsumeStatsEntry) : string :=
  default "" (addrs !! consumerBroker e).
Definition located (addrs : gmap string string) (e : ConsumeStatsEntry) : Prop := queueAddr addrs e ≠ "".
#[export] Instance located_dec addrs e : Decision (located addrs e).
Proof. unfold located. apply _. Defined.

(** One lag per queue with a known address, each at a reading of the clock. *)
Definition measured (addrs : gmap string string) (es : list ConsumeStatsEntry) (lags : list (string * Z)) : Prop :=
  Forall2 (λ e x, x.1 = consumerBroker e ∧ ∃ now, reading now ∧ lagAt (queueAddr addrs e) e now = Some x.2) (filter (located addrs) es) lags.

Lemma measured_brokers addrs es lags bn :
  measured addrs es lags → bn ∈ lags.*1 ↔ ∃ e, e ∈ es ∧ located addrs e ∧ consumerBroker e = bn.
Proof.
  intros Hm. assert (lags.*1 = consumerBroker <$> filter (located addrs) es) as ->.
  { revert Hm. unfold measured. generalize (filter (located addrs) es) as l. intros l Hm.
    induction Hm as [|e x l lags' [E _] _ IH]; [done|]. by rewrite !fmap_cons, E, IH. }
  rewrite list_elem_of_fmap. setoid_rewrite list_elem_of_filter. naive_solver.
Qed.

(** A pull that fails, at some reading of the clock. *)
Definition pullFails (addrs : gmap string string) (es : list ConsumeStatsEntry) : Prop :=
  ∃ e now, e ∈ es ∧ located addrs e ∧ lagAt (queueAddr addrs e) e now = None.

Lemma latencyLoop_post addrs es m0 :
  post ok (latencyLoop t addrs m0 es) (λ r (l : list write), l = [] ∧
    ((r = Ret None ∧ pullFails addrs es) ∨ ∃ lags, r = Ret (Some (recordLags m0 lags)) ∧ measured addrs es lags)).
Proof.
  revert m0. induction es as [|e es IH]; intros m0.
  { split; [done|]. right. exists []. split; [done|]. constructor. }
  cbn [latencyLoop]. cbv zeta. fold (consumerBroker e). fold (queueAddr addrs e).
  assert (pullFails addrs es → pullFails addrs (e :: es)) as Hf
    by (intros (e' & now & ? & ?); exists e', now; split; [by apply list_elem_of_further|done]).
  unfold measured. rewrite filter_cons. destruct (String.eqb_spec (queueAddr addrs e) "") as [E|E].
  - rewrite decide_False by (intros H; by apply H). eapply post_mono; [|apply IH].
    intros r l [-> [[-> H]|H]]; split; auto.
  - rewrite decide_True by done. apply post_bind. eapply post_mono; [|apply queueLag_post].
    intros r l [-> (now & Hnow & ->)]. cbn [thenPost]. destruct (lagAt (queueAddr addrs e) e now) as [lag|] eqn:El.
    + eapply post_mono; [|apply IH]. intros r l [-> [[-> H]|(lags & -> & H)]]; split; auto.
      right. exists ((consumerBroker e, lag) :: lags). split; [done|]. constructor; [|done]. split; [done|]. by exists now.
    + split; [done|]. left. split; [done|]. exists e, now. by split; [constructor|].
Qed.

(** The writes of a pair that depend on the clock: all or nothing, and then for
    each broker with a located queue the largest lag of its queues, at least 0. *)
Definition latencies cl addrs (p : topicGroup) (l : list write) : Prop :=
  (l = [] ∧ (stats p = [] ∨ pullFails addrs (stats p))) ∨
  ∃ lags, measured addrs (stats p) lags ∧
    l ≡ₚ (λ bn, W_GroupGetLatencyByStoreTime cl bn (tg_topic p) (tg_group p) (foldr Z.max 0 (lagsOf bn lags)))
           <$> remove_dups lags.*1.

(** *** The body *)

Lemma groupOnline_gives group cc n :
  let conns := default [] (cc_ConnectionSet <$> cc) in
  let addrs := if 0 <? n then ClientAddresses (cn_ClientAddr <$> conns) (cn_ClientId <$> conns) else ("", "") in
  gives ok (groupOnline t group cc n) tt [W_GroupCount group addrs.1 addrs.2 n].
Proof.
  intros conns addrs. unfold groupOnline. cbv zeta. fold conns. fold addrs. destruct addrs as [ca la].
  apply (gives_bind ok (emit _) _ tt tt [_] []); [apply gives_emit|]. destruct (0 <? n); [|apply gives_ret].
  intros [] _; [|done]. destruct cc; [|done]. by intros [] _.
Qed.

Lemma latency_range lags :
  range (recordLags ∅ lags) ≡ₚ (λ bn, (bn, foldr Z.max 0 (lagsOf bn lags))) <$> remove_dups lags.*1.
Proof. apply range_keyed. intros bn. by rewrite lookup_recordLags. Qed.

(** The writes after the consume statistics have been parsed. *)
Lemma groupEntries_post cl addrs p w es :
  stats p = es → es ≠ [] →
  body ok (emit w;;
      forEach (λ '(bn, off), emit (W_GroupBrokerTotalOffset cl bn (tg_topic p) (tg_group p) off))
        (range (foldl consumeOffsetStep ∅ es));;
      latency ← latencyLoop t addrs ∅ es;
      match latency with
      | None => mret tt
      | Some latencyMap =>
          forEach (λ '(bn, lag), emit (W_GroupGetLatencyByStoreTime cl bn (tg_topic p) (tg_group p) lag)) (range latencyMap)
      end)
    (λ l, ∃ lat, latencies cl addrs p lat ∧ l ≡ₚ (w :: consumedWrites cl p) ++ lat).
Proof.
  intros Hes Hne. unfold body. eapply post_after; [apply gives_emit|].
  eapply post_after.
  { apply (gives_emits _ (λ x, W_GroupBrokerTotalOffset cl x.1 (tg_topic p) (tg_group p) x.2)). by intros []. }
  assert ((λ x, W_GroupBrokerTotalOffset cl x.1 (tg_topic p) (tg_group p) x.2) <$> range (foldl consumeOffsetStep ∅ es)
    ≡ₚ consumedWrites cl p) as Hc.
  { unfold consumedWrites. rewrite Hes. change consumeOffsetStep with (addAt consumerBroker consumed).
    rewrite range_sums, <- list_fmap_compose. done. }
  apply post_bind. eapply post_mono; [|apply latencyLoop_post].
  intros r l [-> [[-> Hf]|(lags & -> & Hm)]]; cbn [thenPost].
  - split; [done|]. exists []. split; [left; rewrite Hes; auto|]. cbn [app]. by rewrite !app_nil_r, Hc.
  - eapply post_mono; [|apply (gives_emits _ (λ x, W_GroupGetLatencyByStoreTime cl x.1 (tg_topic p) (tg_group p) x.2)); by intros []].
    intros r l [-> ->]. split; [done|]. eexists. split.
    + right. exists lags. rewrite Hes. split; [exact Hm|reflexivity].
    + cbn [app]. rewrite Hc, latency_range, <- list_fmap_compose. done.
Qed.

Lemma groupStats_post cl addrs p cc n :
  body ok (groupStats t cl addrs (tg_topic p) (tg_group p) cc n)
    (λ l, ∃ lat, latencies cl addrs p lat ∧
       l ≡ₚ match stats p with
            | [] => []
            | _ => W_GroupDiff (FormatInt n) (tg_group p) (tg_topic p)
                     (messageModelOrdinal (default "" (cc_MessageModel <$> cc))) (int64 (totalLag (stats p))) :: consumedWrites cl p
            end ++ lat).
Proof.
  unfold body, groupStats.
  assert (∀ Q : list write → Prop, Q [] → post ok (mret tt) (λ r l, r = Ret tt ∧ Q l)) as Hret by done.
  assert (stats p = [] → ∃ lat, latencies cl addrs p lat ∧ [] ≡ₚ lat) as Hnil by (intros E; exists []; by split; [left; auto|]).
  eapply post_after; [eapply gives_call; [determinate|calm]|]. remember (stats p) as es eqn:Hes. pose proof Hes as Hes'.
  unfold stats in Hes. destruct (ask net (ExamineConsumeStats a _ _)) as [cs|e|msg]; cbn [result];
    [|apply Hret; subst; by apply Hnil..]. cbn [mbind outcome_bind] in Hes.
  eapply post_after; [apply gives_outcome, parseConsumeStats_no_panic|].
  destruct (ConsumeStats_Entries cs) as [es'|e|msg] eqn:E; cbn [result got from_option id] in *;
    [|apply Hret; subst; by apply Hnil..]. subst es'.
  destruct es as [|e es]; [apply Hret; by apply Hnil|].
  assert (ComputeTotalDiff cs = Ret (int64 (totalLag (e :: es)))) as Ht
    by (unfold ComputeTotalDiff; rewrite E; cbn [mbind outcome_bind]; f_equal; apply (foldl_diff (e :: es) 0)).
  eapply post_after; [apply gives_outcome, ComputeTotalDiff_no_panic|]. rewrite Ht. cbn [result app].
  replace (match cc with Some cc => messageModelOrdinal (cc_MessageModel cc) | None => messageModelOrdinal "" end)
    with (messageModelOrdinal (default "" (cc_MessageModel <$> cc))) by (by destruct cc).
  apply (groupEntries_post cl addrs p); [by rewrite <- Hes'|done].
Qed.

(** An operation that handles its own errors. *)
Lemma gives_lift {Ob} `{Observer Ob} {A} (p : prog rpcE A) d :
  determined net p → yields no_panic p (λ _, True) → no_fail p → gives ok (lift p) (default d (got (ask net p))) [].
Proof.
  intros Hd Hy Hn. assert (∃ x, ask net p = Ret x) as [x Hx].
  { clear Hd. induction p as [r|X e k IH]; [destruct r; simpl in *; [eauto|done..]|].
    destruct e; simpl in *; apply IH; try apply Hy; try apply Hn. apply stable_calm. }
  rewrite Hx. simpl. eapply post_mono; [|apply (post_rpc net p (Ret x)); unfold determined in Hd; by rewrite Hx in Hd].
  by intros r l [-> ->].
Qed.

Lemma groupBody_post cl addrs p :
  body ok (groupBody t cl addrs p) (λ l, ∃ lat, latencies cl addrs p lat ∧ l ≡ₚ groupWrites cl p ++ lat).
Proof.
  unfold body, groupBody. cbv zeta. eapply post_after.
  { apply (gives_lift _ (None, None)); [determinate|calm|apply no_fail_connection]. }
  fold (connection (tg_group p)). unfold groupWrites, countWrite, lagWrite. cbv zeta.
  assert (online (tg_group p) = let '(cc, err) := connection (tg_group p) in
    match err with Some _ => 0 | None => match cc with Some cc => Z.of_nat (length (cc_ConnectionSet cc)) | None => 0 end end) as Ho
    by (unfold online; by destruct (connection (tg_group p)) as [[cc|] [err|]]).
  destruct (connection (tg_group p)) as [cc err]. rewrite <- Ho. cbn [fst app].
  eapply post_after; [apply groupOnline_gives|]. eapply post_mono; [|apply (groupStats_post cl addrs p)].
  intros r l [-> (lat & Hl & Hp)]. split; [done|]. exists lat. split; [done|]. rewrite Hp. by destruct (stats p).
Qed.

Lemma chosen_split cl addrs pairs ls :
  Forall2 (λ p l, ∃ lat, latencies cl addrs p lat ∧ l ≡ₚ groupWrites cl p ++ lat) pairs ls →
  ∃ lats, Forall2 (latencies cl addrs) pairs lats ∧ (ls ≫= id) ≡ₚ (pairs ≫= groupWrites cl) ++ (lats ≫= id).
Proof.
  induction 1 as [|p l pairs ls (lat & Hlat & Hl) _ (lats & Hlats & Hls)]; [by exists []|].
  exists (lat :: lats). split; [by constructor|]. rewrite !bind_cons. cbn [id]. rewrite Hl, Hls. solve_Permutation.
Qed.

Lemma enumerateBody_silent topic : gives (Ob := write) ok (enumerateBody t topic) tt [].
Proof.
  unfold enumerateBody. destruct (HasPrefix topic taskDlqTopicPrefix); [apply gives_ret|]. call.
  destruct (ask net (QueryTopicConsumeByWho a topic)) as [gl|e|msg]; cbn [result]; [|apply gives_ret..].
  destruct (_ =? _)%nat; [apply gives_ret|]. by intros [] _.
Qed.

(** ** The jobs that run in one goroutine *)

Definition whenEnabled (l : list write) : list write := if ct_EnableCollect t then l else [].
Definition clusterInfo : option ClusterInfo := got (ask net (ExamineBrokerClusterInfo a)).
Definition brokers : list (string * BrokerData) := range (default ∅ (clusterInfo ≫= ci_BrokerAddrTable)).

(** [collectProducer]: the connections of every producer group on every master. *)
Definition producerWrites : list write :=
  match clusterInfo with
  | Some (mkClusterInfo (Some clusters) (Some table)) =>
      range clusters ≫= λ c, c.2 ≫= λ bn,
        (λ x, W_ProducerCount c.1 bn x.1 (match x.2 with Some l => Z.of_nat (length l) | None => -1 end))
          <$> range (default ∅ (pt_Data <$> got (ask net (GetAllProducerInfo a (default "" (masterOf <$> table !! bn))))))
  | _ => []
  end.

(** The rate of the last minute, rounded, when the broker reports one. *)
Definition rate (addr name key : string) : option float64 :=
  item ← got (ask net (ViewBrokerStatsData a addr name key)) ≫= bs_StatsMinute; got (GetFixedDouble (si_Tps item)).
Definition minuteSum (addr name key : string) : option float64 :=
  si_Sum <$> (got (ask net (ViewBrokerStatsData a addr name key)) ≫= bs_StatsMinute).
Definition written (w : float64 → write) (v : option float64) : list write := option_list (w <$> v).

(** [collectBrokerStats]: the rates of every broker with a master. *)
Definition brokerWrites : list write :=
  brokers ≫= λ x, let master := masterOf x.2 in
    if String.eqb master "" then []
    else written (W_BrokerPutNums (bd_Cluster x.2) master (bd_BrokerName x.2)) (rate master statsBrokerPutNums (bd_Cluster x.2))
      ++ written (W_BrokerGetNums (bd_Cluster x.2) master (bd_BrokerName x.2)) (rate master statsBrokerGetNums (bd_Cluster x.2)).

(** No broker reports a malformed disk capacity. *)
Definition runtimesOk : Prop := ∀ addr, no_panic (ask net (FetchBrokerRuntimeStats a addr)).

(** [collectBrokerGroupStats]: how far every slave is behind its master, 0 when
    one of the two does not answer. *)
Definition runtimeOf (addr : string) : option BrokerRuntimeStats :=
  if String.eqb addr "" then None else got (ask net (FetchBrokerRuntimeStats a addr)).
Definition behind (master slave : string) : float64 :=
  match runtimeOf master, runtimeOf slave with
  | Some m, Some s => floatOfZ (int64 (Model.CommitLogMaxOffset m - Model.CommitLogMaxOffset s))
  | _, _ => fzero
  end.
Definition slaveWrites : list write :=
  brokers ≫= λ x, (λ y, W_BrokerCommitLogDiff (bd_Cluster x.2) y.2 (bd_BrokerName x.2) (behind (masterOf x.2) y.2))
    <$> filter (λ y, y.1 ≠ 0) (range (bd_BrokerAddrs x.2)).

(** [collectBrokerRuntimeStats]: the statistics of every master that answers. *)
Definition runtimeWrites : list write :=
  brokers ≫= λ x, option_list
    ((λ st, W_BrokerRuntimeStats st (bd_Cluster x.2) (masterOf x.2) "") <$> got (ask net (FetchBrokerRuntimeStats a (masterOf x.2)))).

(** [NewClientMetricTask]: six values for every topic of every client that
    answers. *)
Definition clientValues group (conn : Connection) (topic : string) (st : ConsumerRunningStatusTable) : list write :=
  let addr := cn_ClientAddr conn in let id := cn_ClientId conn in
  [W_ConsumerClientFailedMsgCounts group topic addr id (rs_ConsumeFailedMsgs st);
   W_ConsumerClientFailedTPS group topic addr id (rs_ConsumeFailedTPS st);
   W_ConsumerClientOKTPS group topic addr id (rs_ConsumeOKTPS st);
   W_ConsumeRTMetric group topic addr id (rs_ConsumeRT st);
   W_PullRT group topic addr id (rs_PullRT st);
   W_PullTPS group topic addr id (rs_PullTPS st)].
Definition clientWrites group (cc : option ConsumerConnection) : list write :=
  default [] (cc_ConnectionSet <$> cc) ≫= λ conn,
    range (default ∅ (ri_StatusTable <$> got (ask net (GetConsumerRunningInfo a group (cn_ClientId conn) false))))
      ≫= λ x, clientValues group conn x.1 x.2.

(** *** They write exactly that *)

Lemma gives_putTps addr name key w : gives ok (putTps t addr name key w) tt (written w (rate addr name key)).
Proof.
  unfold putTps, minuteStats, rate. eapply gives_after; [eapply gives_after; [eapply gives_call; [determinate|calm]|apply gives_ret]|].
  pose proof (ask_fine net _ _ stable_calm (yields_StatsData (good := no_panic) a addr name key)) as Hf.
  destruct (ask net (ViewBrokerStatsData a addr name key)) as [d|e|msg]; cbn [result got mbind option_bind]; [|apply gives_ret..].
  simpl in Hf. destruct (bs_StatsMinute d) as [item|] eqn:E; cbn [mbind option_bind]; [|apply gives_ret].
  destruct (GetFixedDouble_finite (si_Tps item)) as [v ->]; [by apply Hf|]. apply gives_emit.
Qed.

Lemma gives_putSum addr name key w : gives ok (putSum t addr name key w) tt (written w (minuteSum addr name key)).
Proof.
  unfold putSum, minuteStats, minuteSum. eapply gives_after; [eapply gives_after; [eapply gives_call; [determinate|calm]|apply gives_ret]|].
  destruct (ask net (ViewBrokerStatsData a addr name key)) as [d|e|msg]; cbn [result got mbind option_bind]; [|apply gives_ret..].
  destruct (bs_StatsMinute d) as [item|]; [apply gives_emit|apply gives_ret].
Qed.

(** A job that starts with the cluster information and loops over the brokers. *)
Lemma gives_brokers (f : string * BrokerData → prog taskE unit) g :
  (∀ x, gives ok (f x) tt (g x)) →
  gives ok (if negb (ct_EnableCollect t) then mret tt
            else r ← rpc (ExamineBrokerClusterInfo a);
                 match r with
                 | inl _ => mret tt
                 | inr ci => forEach f (range (default ∅ (ci_BrokerAddrTable ci)))
                 end) tt (whenEnabled (brokers ≫= g)).
Proof.
  intros Hf. unfold whenEnabled, brokers, clusterInfo. destruct (ct_EnableCollect t); [|apply gives_ret]. simpl negb. cbv iota. call.
  destruct (ask net (ExamineBrokerClusterInfo a)) as [ci|e|msg]; cbn [result got mbind option_bind from_option id].
  - apply gives_forEach. intros x _. apply Hf.
  - rewrite range_empty. apply gives_ret.
  - rewrite range_empty. apply gives_ret.
Qed.

Lemma CollectBrokerStats_gives : gives ok (CollectBrokerStats t) tt (whenEnabled brokerWrites).
Proof.
  apply gives_brokers. intros [name bd]. cbn [snd]. destruct (String.eqb (masterOf bd) ""); [apply gives_ret|].
  apply (gives_bind ok _ _ tt tt); apply gives_putTps.
Qed.

Lemma gives_fetchRuntime addr : runtimesOk → gives (Ob := write) ok (fetchRuntime t addr) (runtimeOf addr) [].
Proof.
  intros Hc. unfold fetchRuntime, runtimeOf. destruct (String.eqb addr ""); [apply gives_ret|].
  eapply gives_after; [apply gives_rpc; [determinate|apply Hc]|].
  destruct (ask net (FetchBrokerRuntimeStats a addr)); apply gives_ret.
Qed.

Lemma CollectBrokerGroupStats_gives : runtimesOk → gives ok (CollectBrokerGroupStats t) tt (whenEnabled slaveWrites).
Proof.
  intros Hc. apply gives_brokers. intros [name bd]. cbn [snd]. cbv zeta.
  generalize (range (bd_BrokerAddrs bd)) as l. induction l as [|[id addr] l IH]; [apply gives_ret|].
  rewrite filter_cons. cbn [forEach]. destruct (Z.eqb_spec id 0) as [->|Hne].
  - rewrite decide_False by (intros H; by apply H). by eapply gives_after; [apply gives_ret|].
  - rewrite decide_True by done. apply (gives_bind ok _ _ tt tt [_]); [|exact IH].
    eapply gives_after; [by apply gives_fetchRuntime|]. eapply gives_after; [by apply gives_fetchRuntime|]. apply gives_emit.
Qed.

Lemma CollectBrokerRuntimeStats_gives : runtimesOk → gives ok (CollectBrokerRuntimeStats t) tt (whenEnabled runtimeWrites).
Proof.
  intros Hc. apply gives_brokers. intros [name bd]. cbn [snd]. cbv zeta.
  eapply gives_after; [apply gives_rpc; [determinate|apply Hc]|].
  destruct (ask net (FetchBrokerRuntimeStats a (masterOf bd))); [apply gives_emit|apply gives_ret..].
Qed.

Lemma CollectProducer_gives : gives ok (CollectProducer t) tt (whenEnabled producerWrites).
Proof.
  unfold CollectProducer, whenEnabled, producerWrites, clusterInfo. destruct (ct_EnableCollect t); [|apply gives_ret].
  simpl negb. cbv iota. call.
  destruct (ask net (ExamineBrokerClusterInfo a)) as [[[clusters|] [table|]]|e|msg]; cbn [result got]; try apply gives_ret.
  apply gives_forEach. intros [cn bns] _. cbn [fst snd]. apply gives_forEach. intros bn _. cbv zeta. call.
  destruct (ask net (GetAllProducerInfo a _)) as [pt|e|msg]; cbn [result got fmap option_fmap option_map from_option id].
  - apply gives_emits. by intros [g l].
  - rewrite range_empty. apply gives_ret.
  - rewrite range_empty. apply gives_ret.
Qed.

Lemma NewClientMetricTask_gives group cc : gives ok (NewClientMetricTask t group cc) tt (clientWrites group cc).
Proof.
  unfold NewClientMetricTask, clientWrites. destruct cc as [cc|]; [|apply gives_ret]. apply gives_forEach. intros conn _. call.
  destruct (ask net (GetConsumerRunningInfo a group _ false)) as [cri|e|msg]; cbn [result got fmap option_fmap option_map from_option id].
  - apply gives_forEach. intros [topic st] _. cbn [fst snd]. unfold clientValues. cbv zeta.
    do 5 (apply (gives_bind ok _ _ tt tt [_]); [apply gives_emit|]). apply gives_emit.
  - rewrite range_empty. apply gives_ret.
  - rewrite range_empty. apply gives_ret.
Qed.

(** ** [CollectBrokerStatsTopic] *)

(** The brokers of a topic's route that have a master. *)
Definition routeMasters topic : list BrokerData :=
  filter (λ bd, masterOf bd ≠ "") (default [] (tr_BrokerDatas <$> got (ask net (ExamineTopicRouteInfo a topic)))).

(** The address the put rates are labelled with: the one of the cluster
    information when it has the broker. *)
Definition labelAddr (ci : ClusterInfo) (bd : BrokerData) : string :=
  default (masterOf bd) (mb ← default ∅ (ci_BrokerAddrTable ci) !! bd_BrokerName bd; bd_BrokerAddrs mb !! 0).

Definition putWrites (ci : ClusterInfo) topic (bd : BrokerData) : list write :=
  let master := masterOf bd in
  written (W_TopicPutNums (bd_Cluster bd) (bd_BrokerName bd) (labelAddr ci bd) topic) (rate master statsTopicPutNums topic)
  ++ written (W_TopicPutSize (bd_Cluster bd) (bd_BrokerName bd) (labelAddr ci bd) topic) (rate master statsTopicPutSize topic).

Definition getWrites topic group (bd : BrokerData) : list write :=
  let master := masterOf bd in let key := topic +:+ "@" +:+ group in
  written (W_GroupGetNums (bd_Cluster bd) (bd_BrokerName bd) topic group) (rate master statsGroupGetNums key)
  ++ written (W_GroupGetSize (bd_Cluster bd) (bd_BrokerName bd) topic group) (rate master statsGroupGetSize key)
  ++ written (W_SendBackNums (bd_Cluster bd) (bd_BrokerName bd) topic group) (minuteSum master statsSndBackPutNums key).

(** Retry and dead letter topics are left out; a topic whose route fails too. *)
Definition statsWrites (ci : ClusterInfo) topic : list write :=
  if HasPrefix topic taskRetryTopicPrefix || HasPrefix topic taskDlqTopicPrefix then []
  else (routeMasters topic ≫= putWrites ci topic) ++
       (default [] (gl_GroupList <$> got (ask net (QueryTopicConsumeByWho a topic)))
          ≫= λ group, routeMasters topic ≫= getWrites topic group).

Lemma gives_masters (f : BrokerData → prog taskE unit) (g : BrokerData → list write) bds :
  (∀ bd, gives ok (f bd) tt (g bd)) →
  gives ok (forEach (λ bd, if String.eqb (masterOf bd) "" then mret tt else f bd) bds) tt
    (filter (λ bd, masterOf bd ≠ "") bds ≫= g).
Proof.
  intros Hf. induction bds as [|bd bds IH]; [apply gives_ret|]. rewrite filter_cons. cbn [forEach].
  destruct (String.eqb_spec (masterOf bd) "") as [E|E].
  - rewrite decide_False by (intros H; by apply H). by eapply gives_after; [apply gives_ret|].
  - rewrite decide_True, bind_cons by done. by apply (gives_bind ok _ _ tt tt); [apply Hf|].
Qed.

Lemma brokerStatsBody_gives ci topic : gives ok (brokerStatsBody t ci topic) tt (statsWrites ci topic).
Proof.
  unfold brokerStatsBody, statsWrites. destruct (_ || _); [apply gives_ret|]. call. unfold routeMasters.
  destruct (ask net (ExamineTopicRouteInfo a topic)) as [route|e|msg]; cbn [result got fmap option_fmap option_map from_option id];
    [|rewrite filter_nil; simpl; rewrite bind_const_nil; apply gives_ret..].
  apply (gives_bind ok _ _ tt tt).
  - apply gives_masters. intros bd. unfold putWrites, labelAddr. cbv zeta.
    replace (default (masterOf bd) (mb ← default ∅ (ci_BrokerAddrTable ci) !! bd_BrokerName bd; bd_BrokerAddrs mb !! 0))
      with (match default ∅ (ci_BrokerAddrTable ci) !! bd_BrokerName bd with
            | Some mb => default (masterOf bd) (bd_BrokerAddrs mb !! 0) | None => masterOf bd end)
      by (by destruct (default ∅ (ci_BrokerAddrTable ci) !! bd_BrokerName bd)).
    apply (gives_bind ok _ _ tt tt); apply gives_putTps.
  - call. destruct (ask net (QueryTopicConsumeByWho a topic)) as [gl|e|msg];
      cbn [result got fmap option_fmap option_map from_option id]; [|apply gives_ret..].
    apply gives_forEach. intros group _. apply gives_masters. intros bd. unfold getWrites. cbv zeta.
    apply (gives_bind ok _ _ tt tt); [apply gives_putTps|]. apply (gives_bind ok _ _ tt tt); [apply gives_putTps|apply gives_putSum].
Qed.
End cycle.
