(* ===== verification/Jobs.v ===== *)
(** * The scheduled jobs

    A job is a call: a first part in the scheduler's goroutine ([calls]) that
    asks the name server what there is to collect, then its parallel sections.
    [jobRun] composes the two as the code does; [jobSpec] is what the job writes,
    as a function of the peers' answers.  [consumerRun] is the one job with two
    sections, the second over what the first collected. *)

From Stdlib Require Import ZArith Lia String.
From S2P Require Import Prelude GoStrings GoFloat Codec Util Model Effects Store Health Collector Service Peers Task Parallel Logic Tame Cycle.

(** ** One goroutine *)

Section calls.
Variable ok : ∀ X, taskE X → X → Prop.

(** The program takes the shared state from [s] to [s'] and ends with [r]. *)
Fixpoint calls {A} (p : prog taskE A) (s : shared) (r : outcome A) (s' : shared) : Prop :=
  match p with
  | Leaf r' => r = r' ∧ s' = s
  | Vis e k => ∃ x s1, ok _ e x ∧ handles e s x s1 ∧ calls (k x) s1 r s'
  end.

Lemma calls_bind {A B} (p : prog taskE A) (f : A → prog taskE B) s r s' :
  calls (p ≫= f) s r s' →
  ∃ r1 s1, calls p s r1 s1 ∧
    match r1 with
    | Ret a => calls (f a) s1 r s'
    | Fail e => r = Fail e ∧ s' = s1
    | Panic m => r = Panic m ∧ s' = s1
    end.
Proof.
  revert s. induction p as [r1|X e k IH]; intros s; cbn.
  - intros H. exists r1, s. split; [done|]. by destruct r1.
  - intros (x & s1 & Hok & Hh & H). destruct (IH x s1 H) as (r1 & s2 & H1 & H2). exists r1, s2. split; [|done]. eauto.
Qed.

Lemma calls_attempt {A} (p : prog taskE A) s r s' :
  calls (attempt p) s r s' → ∃ r1, calls p s r1 s' ∧ r = caught r1.
Proof.
  revert s. induction p as [r1|X e k IH]; intros s; cbn.
  - intros H. exists r1. by destruct r1, H as [-> ->].
  - intros (x & s1 & Hok & Hh & H). destruct (IH x s1 H) as (r1 & H1 & ->). eauto 10.
Qed.
End calls.

(** A call of the client does not touch the shared state. *)
Lemma calls_lift `{RD : Readings} {A} net (p : prog rpcE A) s r s' :
  determined net p → calls (from net) (lift p) s r s' → r = ask net p ∧ s' = s.
Proof.
  unfold determined. generalize (ask net p) as r0. intros r0. revert s.
  induction p as [r1|X e k IH]; intros s Ha; [by intros [-> ->]|].
  intros (x & s1 & Hok & Hh & H). simpl in Hh. subst s1. destruct e; simpl in *; subst; by eapply IH.
Qed.

Lemma calls_rpc `{RD : Readings} {A} net (p : prog rpcE A) s r s' :
  determined net p → no_panic (ask net p) → calls (from net) (attempt (lift p)) s r s' →
  r = Ret (result (ask net p)) ∧ s' = s.
Proof.
  intros Hd Hn (r1 & H & ->)%calls_attempt. destruct (calls_lift net p s r1 s' Hd H) as [-> ->].
  split; [|done]. destruct (ask net p); [done..|]. by destruct (Hn msg).
Qed.

(** [brokerAddrTable] keeps the brokers that have a master. *)
Lemma foldl_masters `{GR : GoRange} (table : gmap string BrokerData) :
  foldl (λ m '(name, bd), match bd_BrokerAddrs bd !! 0 with Some addr => <[name := addr]> m | None => m end)
    ∅ (range table) = omap (λ bd, bd_BrokerAddrs bd !! 0) table.
Proof.
  rewrite <- (list_to_map_range table) at 2. pose proof (NoDup_fst_range table) as Hnd.
  rewrite <- (map_union_empty (omap _ _)). generalize (∅ : gmap string string) as acc. revert Hnd.
  generalize (range table) as l. induction l as [|[k bd] l IH]; intros Hnd acc; cbn [foldl].
  { by rewrite list_to_map_nil, omap_empty, map_empty_union. }
  rewrite list_to_map_cons.
  rewrite fmap_cons in Hnd. apply NoDup_cons in Hnd as [Hk Hnd]. rewrite IH by done.
  assert (omap (λ bd, bd_BrokerAddrs bd !! 0) (list_to_map l : gmap string BrokerData) !! k = None) as Hn
    by (rewrite lookup_omap, not_elem_of_list_to_map_1 by done; done).
  destruct (bd_BrokerAddrs bd !! 0) as [addr|] eqn:E.
  - rewrite (omap_insert_Some _ _ _ _ addr) by done. by rewrite <- insert_union_l, <- insert_union_r.
  - rewrite omap_insert_None by done. f_equal. by rewrite delete_id.
Qed.

(** ** The first part of a job *)

Section jobs.
Context `{GR : GoRange} `{JL : JsonLib} {JO : JsonOk} `{RD : Readings}.
Variables (t : CollectTask) (net : network).
Context {St : Stable (ct_Admin t) net}.
Implicit Types (cl topic : string).

Abbreviation a := (ct_Admin t).
Abbreviation ok := (from net).

(** The topics of the name server. *)
Definition topics : option (list string) := tl_TopicList <$> got (ask net (FetchAllTopicList a)).

(** The cluster name: the cached one, or the first of the cluster information. *)
Definition clusterOf (s : shared) : option string :=
  if negb (String.eqb (sh_clusterName s) "") then Some (sh_clusterName s)
  else (λ ci, match range (default ∅ (ci_ClusterAddrTable ci)) with (n, _) :: _ => n | [] => "" end) <$> clusterInfo t net.

Definition masters (ci : ClusterInfo) : gmap string string :=
  omap (λ bd, bd_BrokerAddrs bd !! 0) (default ∅ (ci_BrokerAddrTable ci)).

(** The cluster name is all that a first part may change. *)
Definition quiet (s s' : shared) : Prop := s' = mkShared (sh_coll s) (sh_log s) (sh_clusterName s') (sh_claimed s) (sh_pairs s) (sh_submitted s).

Lemma quiet_refl s : quiet s s.
Proof. by destruct s. Qed.

Lemma quiet_log s s' : quiet s s' → sh_log s = sh_log s'.
Proof. by intros ->. Qed.

(** A call whose error is handled, then the rest. *)
Lemma calls_then {A B} (p : prog rpcE A) (f : error + A → prog taskE B) s r s' :
  determined net p → yields no_panic p (λ _, True) →
  calls ok (attempt (lift p) ≫= f) s r s' → calls ok (f (result (ask net p))) s r s'.
Proof.
  intros Hd Hy (r1 & s1 & H1 & H2)%calls_bind.
  destruct (calls_rpc net p s r1 s1 Hd) as [-> ->]; [|done..]. eapply ask_no_panic; [apply stable_calm|exact Hy].
Qed.

Lemma calls_cluster s r s' :
  calls ok (cluster t) s r s' →
  quiet s s' ∧ match r with Ret cl => clusterOf s = Some cl | Fail _ => clusterOf s = None | Panic _ => False end.
Proof.
  unfold cluster, clusterOf, clusterInfo. intros (r1 & s1 & H1 & H2)%calls_bind.
  destruct H1 as (x & s2 & _ & [-> ->] & -> & ->).
  destruct (String.eqb_spec (sh_clusterName s) "") as [E|E]; cbn [negb] in *.
  2:{ destruct H2 as [-> ->]. by split; [apply quiet_refl|]. }
  apply calls_bind in H2 as (r1 & s1 & H1 & H2). destruct (calls_lift net (ExamineBrokerClusterInfo a) s r1 s1) as [-> ->]; [determinate|done|]. clear H1.
  pose proof (ask_no_panic net _ _ stable_calm (calm_ClusterInfo (good := no_panic) a)) as Hn.
  destruct (ask net (ExamineBrokerClusterInfo a)) as [ci|e|msg]; [|destruct H2 as [-> ->]..]; cbn [got];
    [|by split; [apply quiet_refl|]|by destruct (Hn msg)].
  apply calls_bind in H2 as (r1 & s1 & H1 & H2). cbn [fmap option_fmap option_map].
  destruct (range (default ∅ (ci_ClusterAddrTable ci))) as [|[n ns] l].
  - destruct H1 as [-> ->]. destruct H2 as (x & s2 & _ & [-> ->] & -> & ->). split; [apply quiet_refl|by rewrite E].
  - destruct H1 as (x & s2 & _ & -> & -> & ->). destruct H2 as (y & s3 & _ & [-> ->] & -> & ->). done.
Qed.

Lemma topicOffset_items s items s' :
  calls ok (CollectTopicOffset t) s (Ret items) s' →
  quiet s s' ∧ items = if ct_EnableCollect t then
                         match topics, clusterOf s with Some l, Some cl => topicOffsetBody t cl <$> l | _, _ => [] end
                       else [].
Proof.
  unfold CollectTopicOffset, topics. destruct (ct_EnableCollect t); cbn [negb]; [|by intros [[= ->] ->]; split; [apply quiet_refl|]].
  intros H. apply calls_then in H; [|determinate|calm].
  destruct (ask net (FetchAllTopicList a)) as [tl|e|msg]; cbn [result got fmap option_fmap option_map] in *;
    [|destruct H as [[= ->] ->]; by split; [apply quiet_refl|]..].
  destruct (tl_TopicList tl) as [|topic l]; cbn [length Nat.eqb] in H.
  { destruct H as [[= ->] ->]. split; [apply quiet_refl|]. by destruct (clusterOf s). }
  apply calls_bind in H as (r & s1 & (r1 & H1 & ->)%calls_attempt & H2). apply calls_cluster in H1 as [Hq Hc].
  destruct r1 as [cl|e|msg]; cbn [caught] in H2; [rewrite Hc..|done]; destruct H2 as [[= ->] ->]; done.
Qed.

Lemma brokerStatsTopic_items s items s' :
  calls ok (CollectBrokerStatsTopic t) s (Ret items) s' →
  quiet s s' ∧ items = if ct_EnableCollect t then
                         match topics, clusterInfo t net with Some l, Some ci => brokerStatsBody t ci <$> l | _, _ => [] end
                       else [].
Proof.
  unfold CollectBrokerStatsTopic, topics, clusterInfo.
  destruct (ct_EnableCollect t); cbn [negb]; [|by intros [[= ->] ->]; split; [apply quiet_refl|]].
  intros H. apply calls_then in H; [|determinate|calm].
  destruct (ask net (FetchAllTopicList a)) as [tl|e|msg]; cbn [result got fmap option_fmap option_map] in *;
    [|destruct H as [[= ->] ->]; by split; [apply quiet_refl|]..].
  destruct (tl_TopicList tl) as [|topic l]; cbn [length Nat.eqb] in H.
  { destruct H as [[= ->] ->]. split; [apply quiet_refl|]. by destruct (got _). }
  apply calls_then in H; [|determinate|calm].
  destruct (ask net (ExamineBrokerClusterInfo a)) as [ci|e|msg]; destruct H as [[= ->] ->]; by split; [apply quiet_refl|].
Qed.

(** What [collectConsumerOffset] works on. *)
Definition consumerPlan (s : shared) : option (list string * string * gmap string string) :=
  if ct_EnableCollect t then
    match topics, clusterOf s, clusterInfo t net with
    | Some l, Some cl, Some ci => Some (l, cl, masters ci)
    | _, _, _ => None
    end
  else None.

Lemma consumerOffset_start s r s' :
  calls ok (CollectConsumerOffset t) s (Ret r) s' → quiet s s' ∧ r = consumerPlan s.
Proof.
  unfold CollectConsumerOffset, consumerPlan, topics, clusterInfo.
  destruct (ct_EnableCollect t); cbn [negb]; [|by intros [[= ->] ->]; split; [apply quiet_refl|]].
  intros H. apply calls_then in H; [|determinate|calm].
  destruct (ask net (FetchAllTopicList a)) as [tl|e|msg]; cbn [result got fmap option_fmap option_map] in *;
    [|destruct H as [[= ->] ->]; by split; [apply quiet_refl|]..].
  apply calls_bind in H as (r0 & s1 & (r1 & H1 & ->)%calls_attempt & H2). apply calls_cluster in H1 as [Hq Hc].
  destruct r1 as [cl|e|msg]; cbn [caught] in H2; [rewrite Hc..|done]; [|destruct H2 as [[= ->] ->]; done].
  apply calls_bind in H2 as (r0 & s2 & (r1 & H1 & ->)%calls_attempt & H2). unfold brokerAddrTable in H1.
  apply calls_bind in H1 as (r2 & s3 & H1 & H3). destruct (calls_lift net (ExamineBrokerClusterInfo a) s1 r2 s3) as [-> ->]; [determinate|done|]. clear H1.
  destruct (ask net (ExamineBrokerClusterInfo a)) as [ci|e|msg]; destruct H3 as [-> ->]; cbn [caught got] in *.
  - destruct H2 as [[= ->] ->]. unfold masters. by rewrite foldl_masters.
  - by destruct H2 as [[= ->] ->].
  - by destruct H2 as [[=] _].
Qed.

(** ** Whole jobs *)

(** The jobs of the scheduler with one section at most, and the client-metric
    task. *)
Inductive jobName : Type :=
| TopicOffset | Producer | BrokerStatsTopic | BrokerStats | BrokerGroupStats | BrokerRuntimeStats
| ClientMetric (group : string) (cc : option ConsumerConnection).

Section runs.
Variable step : pool → pool → Prop.

Definition inSection (p : prog taskE (list (prog taskE unit))) (s0 : shared) (s : pool) : Prop :=
  ∃ items s1, calls ok p s0 (Ret items) s1 ∧ rtc step (parallel items s1) s ∧ finished s.
(** A job without a section, as one goroutine. *)
Definition alone (p : prog taskE unit) (s0 : shared) (s : pool) : Prop := rtc step (parallel [p] s0) s ∧ finished s.

(** A complete run of a job. *)
Definition jobRun (j : jobName) : shared → pool → Prop :=
  match j with
  | TopicOffset => inSection (CollectTopicOffset t)
  | Producer => alone (CollectProducer t)
  | BrokerStatsTopic => inSection (CollectBrokerStatsTopic t)
  | BrokerStats => alone (CollectBrokerStats t)
  | BrokerGroupStats => alone (CollectBrokerGroupStats t)
  | BrokerRuntimeStats => alone (CollectBrokerRuntimeStats t)
  | ClientMetric group cc => alone (NewClientMetricTask t group cc)
  end.

(** [pairs] and [groupCollected] are variables of the call. *)
Definition fresh (s : shared) : shared := mkShared (sh_coll s) (sh_log s) (sh_clusterName s) ∅ [] (sh_submitted s).

(** A complete run of [collectConsumerOffset]: pass 2 works on the pairs that
    pass 1 collected. *)
Definition consumerRun (s0 : shared) (s : pool) : Prop :=
  ∃ plan s1, calls ok (CollectConsumerOffset t) s0 (Ret plan) s1 ∧
    match plan with
    | None => s = mkPool [] [] s1
    | Some (l, cl, addrs) =>
        ∃ s2, rtc step (parallel (consumerOffsetPass1 t l) (fresh s1)) s2 ∧ finished s2 ∧
          rtc step (parallel (consumerOffsetPass2 t cl addrs (sh_pairs (sh s2))) (sh s2)) s ∧ finished s
    end.
End runs.

Lemma jobRun_mono (step step' : pool → pool → Prop) j s0 s :
  (∀ s s', rtc step s s' → rtc step' s s') → jobRun step j s0 s → jobRun step' j s0 s.
Proof.
  intros Hm. assert (∀ p, alone step p s0 s → alone step' p s0 s) as H1 by (intros p []; split; auto).
  assert (∀ p, inSection step p s0 s → inSection step' p s0 s) as H2
    by (intros p (items & s1 & ? & ? & ?); exists items, s1; auto).
  destruct j; [apply H2|apply H1|apply H2|apply H1..].
Qed.

Lemma consumerRun_mono (step step' : pool → pool → Prop) s0 s :
  (∀ s s', rtc step s s' → rtc step' s s') → consumerRun step s0 s → consumerRun step' s0 s.
Proof.
  intros Hm (plan & s1 & Hc & H). exists plan, s1. split; [done|]. destruct plan as [[[l cl] addrs]|]; [|done].
  destruct H as (s2 & ? & ? & ? & ?). exists s2. auto.
Qed.

(** *** A run of a job, one goroutine after the other *)

Lemma run_calls {A} (p : prog taskE A) s r s' : run (@seqHandler _ net) p s = (r, s') → calls ok p s r s'.
Proof.
  revert s. induction p as [r0|X e k IH]; intros s Hr; [by simplify_eq/=|].
  simpl in Hr. destruct (seqHandler net e s) as [x s1] eqn:E. apply seqHandler_ok in E as [Hh Hok].
  exists x, s1. split; [done|]. split; [done|]. by apply IH.
Qed.

Definition seqSection (p : prog taskE (list (prog taskE unit))) (s0 : shared) : option shared :=
  match run (@seqHandler _ net) p s0 with (Ret items, s1) => seqAll net items s1 | _ => None end.
Definition seqConsumer (s0 : shared) : option shared :=
  match run (@seqHandler _ net) (CollectConsumerOffset t) s0 with
  | (Ret None, s1) => Some s1
  | (Ret (Some (l, cl, addrs)), s1) =>
      s2 ← seqAll net (consumerOffsetPass1 t l) (fresh s1);
      seqAll net (consumerOffsetPass2 t cl addrs (sh_pairs s2)) s2
  | _ => None
  end.

Lemma seqSection_run p s0 s :
  seqSection p s0 = Some s → inSection (tstep ok 0 0) p s0 (mkPool [] [] s).
Proof.
  unfold seqSection. destruct (run (@seqHandler _ net) p s0) as [[items|e|msg] s1] eqn:E; [|done..]. intros Hs.
  exists items, s1. split; [by apply run_calls|]. split; [by apply seqAll_run|done].
Qed.

Lemma seqConsumer_run s0 s : seqConsumer s0 = Some s → consumerRun (tstep ok 0 0) s0 (mkPool [] [] s).
Proof.
  unfold seqConsumer. destruct (run (@seqHandler _ net) (CollectConsumerOffset t) s0) as [[[[[l cl] addrs]|]|e|msg] s1] eqn:E; [| |done..].
  - destruct (seqAll net (consumerOffsetPass1 t l) (fresh s1)) as [s2|] eqn:E1; [|done]. intros Hs.
    exists (Some (l, cl, addrs)), s1. split; [by apply run_calls|]. exists (mkPool [] [] s2).
    split; [by apply seqAll_run|]. split; [done|]. split; [by apply seqAll_run|done].
  - intros [= ->]. exists None, s. split; [by apply run_calls|done].
Qed.

(** ** What they write *)

Definition overTopics {B} (known : option B) (f : B → string → list write) : list write :=
  whenEnabled t (match topics, known with Some l, Some b => l ≫= f b | _, _ => [] end).

Definition jobSpec (s0 : shared) (j : jobName) : list write :=
  match j with
  | TopicOffset => overTopics (clusterOf s0) (topicWrites t net)
  | Producer => whenEnabled t (producerWrites t net)
  | BrokerStatsTopic => overTopics (clusterInfo t net) (statsWrites t net)
  | BrokerStats => whenEnabled t (brokerWrites t net)
  | BrokerGroupStats => whenEnabled t (slaveWrites t net)
  | BrokerRuntimeStats => whenEnabled t (runtimeWrites t net)
  | ClientMetric group cc => clientWrites t net group cc
  end.

(** Two jobs read the brokers' runtime tables, which must be well formed. *)
Definition readable (j : jobName) : Prop :=
  match j with BrokerGroupStats | BrokerRuntimeStats => runtimesOk t net | _ => True end.

(** *** In a process that does other things meanwhile *)

Lemma filter_bind {A B} (P : B → Prop) `{∀ x, Decision (P x)} (f : A → list B) l :
  filter P (l ≫= f) = l ≫= λ x, filter P (f x).
Proof. induction l as [|x l IH]; [done|]. by rewrite !bind_cons, filter_app, IH. Qed.

Section logs.
Context (P : write → Prop) `{HP : ∀ w, Decision (P w)} (step : pool → pool → Prop).
Hypothesis Hw : undisturbed (observe_if P) ok step.
Hypothesis Hpairs : undisturbed observe_pairs ok step.

Lemma section_log {A} (f : A → prog taskE unit) (g : A → list write) l s0 s :
  (∀ x, body ok (f x) (λ ws, ws ≡ₚ g x)) →
  rtc step (parallel (f <$> l) s0) s → finished s →
  filter P (sh_log (sh s)) ≡ₚ filter P (sh_log s0) ++ filter P (l ≫= g).
Proof.
  intros Hf. rewrite filter_bind.
  apply (parallel_gives (Obs := observe_if P) ok step f (λ x, filter P (g x)) l s0 s Hw).
  intros x _. unfold body. eapply post_mono; [|apply (body_filter P), Hf].
  intros r ws (-> & ws0 & -> & Hp). split; [done|]. by rewrite Hp.
Qed.

Lemma single_log p ws s0 s :
  gives ok p tt ws → alone step p s0 s → filter P (sh_log (sh s)) ≡ₚ filter P (sh_log s0) ++ filter P ws.
Proof.
  intros Hp [Hr Hf]. pose proof (section_log (λ _ : unit, p) (λ _, ws) [tt] s0 s) as H. simpl in H.
  rewrite app_nil_r in H. apply H; [|exact Hr|exact Hf]. intros _. by eapply gives_body.
Qed.

Lemma job_log j s0 s :
  readable j → jobRun step j s0 s →
  filter P (sh_log (sh s)) ≡ₚ filter P (sh_log s0) ++ filter P (jobSpec s0 j).
Proof.
  assert (∀ s1 s, rtc step (parallel [] s1) s → finished s → filter P (sh_log (sh s)) ≡ₚ filter P (sh_log s1) ++ []) as H0
    by (intros s1 s'; by apply (section_log (λ x : Empty_set, match x with end) (λ _, []) [])).
  intros Hj. destruct j; cbn [jobRun jobSpec].
  - intros (items & s1 & [Hq ->]%topicOffset_items & Hr & Hf). rewrite (quiet_log _ _ Hq). unfold overTopics, whenEnabled.
    repeat case_match; try (by apply H0). revert Hr Hf.
    apply (section_log (topicOffsetBody t _)). intros topic. by apply topicOffsetBody_writes.
  - apply single_log. by apply CollectProducer_gives.
  - intros (items & s1 & [Hq ->]%brokerStatsTopic_items & Hr & Hf). rewrite (quiet_log _ _ Hq). unfold overTopics, whenEnabled.
    repeat case_match; try (by apply H0). revert Hr Hf.
    apply (section_log (brokerStatsBody t _)). intros topic. by eapply gives_body; [apply brokerStatsBody_gives|].
  - apply single_log. by apply CollectBrokerStats_gives.
  - apply single_log. by apply CollectBrokerGroupStats_gives.
  - apply single_log. by apply CollectBrokerRuntimeStats_gives.
  - apply single_log. by apply NewClientMetricTask_gives.
Qed.

(** The two passes of [collectConsumerOffset]. *)
Lemma pass1_pairs l s0 s :
  rtc step (parallel (consumerOffsetPass1 t l) s0) s → finished s →
  sh_pairs (sh s) ≡ₚ sh_pairs s0 ++ (l ≫= topicPairs t net).
Proof.
  unfold consumerOffsetPass1. apply (parallel_gives (Obs := observe_pairs) ok step (enumerateBody t) (topicPairs t net) l s0 s Hpairs).
  intros topic _. by eapply gives_body; [apply enumerateBody_pairs|].
Qed.

Lemma pass1_log l s0 s :
  rtc step (parallel (consumerOffsetPass1 t l) s0) s → finished s → filter P (sh_log (sh s)) ≡ₚ filter P (sh_log s0).
Proof.
  unfold consumerOffsetPass1. intros Hr Hf. rewrite (section_log (enumerateBody t) (λ _, []) l s0 s); [|intros topic|done..].
  - by rewrite bind_const_nil, app_nil_r.
  - by eapply gives_body; [apply enumerateBody_silent|].
Qed.

Lemma pass2_log cl addrs pairs s0 s :
  rtc step (parallel (consumerOffsetPass2 t cl addrs pairs) s0) s → finished s →
  ∃ lats, Forall2 (latencies t net cl addrs) pairs lats ∧
    filter P (sh_log (sh s)) ≡ₚ filter P (sh_log s0) ++ filter P ((pairs ≫= groupWrites t net cl) ++ (lats ≫= id)).
Proof.
  unfold consumerOffsetPass2. intros Hr Hf. set (Q p l := ∃ lat, latencies t net cl addrs p lat ∧ l ≡ₚ groupWrites t net cl p ++ lat).
  destruct (parallel_post (Obs := observe_if P) ok step (groupBody t cl addrs <$> pairs)
    ((λ p l, ∃ l0, l = filter P l0 ∧ Q p l0) <$> pairs) s0 s Hw) as [_ H]; [|done|].
  - apply Forall2_fmap_2, Forall_Forall2_diag, Forall_forall. intros p _. apply (body_filter P). by apply groupBody_post.
  - destruct (H Hf) as (ls & Hch & Hv). unfold chosen in Hch. apply Forall2_fmap_l in Hch.
    assert (∃ ls0, ls = filter P <$> ls0 ∧ Forall2 Q pairs ls0) as (ls0 & -> & Hq).
    { clear -Hch. induction Hch as [|p l pairs ls (l0 & -> & Hl) _ (ls0 & -> & IH)]; [by exists []|].
      exists (l0 :: ls0). split; [done|]. by constructor. }
    destruct (chosen_split t net cl addrs _ _ Hq) as (lats & Hl & Hp). exists lats. split; [done|].
    rewrite <- Hp, filter_bind. cbn [view observe_if] in Hv. rewrite Hv. f_equiv.
    apply Permutation_refl'. clear. induction ls0 as [|l ls0 IH]; [done|]. cbn. by f_equal.
Qed.

Lemma consumer_log s0 s :
  consumerRun step s0 s →
  match consumerPlan s0 with
  | None => filter P (sh_log (sh s)) = filter P (sh_log s0)
  | Some (l, cl, addrs) =>
      ∃ pairs lats, pairs ≡ₚ (l ≫= topicPairs t net) ∧ Forall2 (latencies t net cl addrs) pairs lats ∧
        filter P (sh_log (sh s)) ≡ₚ filter P (sh_log s0) ++ filter P ((pairs ≫= groupWrites t net cl) ++ (lats ≫= id))
  end.
Proof.
  intros (plan & s1 & [Hq ->]%consumerOffset_start & H). destruct (consumerPlan s0) as [[[l cl] addrs]|].
  2:{ by rewrite H, (quiet_log _ _ Hq). }
  destruct H as (s2 & H1 & Hf1 & H2 & Hf2). rewrite (quiet_log _ _ Hq).
  destruct (pass2_log cl addrs _ _ _ H2 Hf2) as (lats & Hl & Hlog).
  exists (sh_pairs (sh s2)), lats. split; [by rewrite (pass1_pairs l _ s2 H1 Hf1)|]. split; [done|].
  by rewrite Hlog, (pass1_log l _ s2 H1 Hf1).
Qed.
End logs.

Lemma filter_true (l : list write) : filter (λ _, True) l = l.
Proof. by apply filter_all, Forall_true. Qed.

(** C21: What a job of the scheduler writes is a function of what the peers
    answer.  A complete run of a job, from the call to the end of its parallel
    section and in any interleaving of its goroutines, writes exactly (up to
    order) the list the answers determine: per topic and broker the 64-bit sum of
    the maximum offsets of the broker's queues; per cluster, broker and producer
    group the number of connections; per broker with a master the rounded minute
    rates; per slave the distance to its master; per master that answers its
    runtime statistics; per topic, group and master the rates and sums of the last
    minute; per client and topic its six values.  An answer that fails removes the
    writes that depend on it and no others, and nothing is written when
    collection is disabled. *)
Theorem job_writes j s0 s : readable j → jobRun (pstep ok) j s0 s → sh_log (sh s) ≡ₚ sh_log s0 ++ jobSpec s0 j.
Proof.
  intros Hj Hr. pose proof (job_log (λ _, True) _ (undisturbed_pstep _ ok) j s0 s Hj Hr) as H.
  by rewrite !filter_true in H.
Qed.

(** C18: a complete run of [collectConsumerOffset].  Pass 1 collects exactly the
    pairs of the name server's topics (dead letter topics excluded) with the
    groups that consume them; pass 2 writes for each pair the number of clients
    online and, when its statistics arrive, the lag (the 64-bit sum over all
    queues of broker offset minus consumer offset) and per broker the consumed
    offset; and for each pair either, per broker with a located queue, the largest
    age of the next message of its queues, or no latency at all when a pull
    failed.  Nothing else is written, and nothing at all when the job is disabled
    or the topics, the cluster name or the broker table cannot be had. *)
Theorem CollectConsumerOffset_writes s0 s :
  consumerRun (pstep ok) s0 s →
  match consumerPlan s0 with
  | None => sh_log (sh s) = sh_log s0
  | Some (l, cl, addrs) =>
      ∃ pairs lats, pairs ≡ₚ (l ≫= topicPairs t net) ∧ Forall2 (latencies t net cl addrs) pairs lats ∧
        sh_log (sh s) ≡ₚ sh_log s0 ++ (pairs ≫= groupWrites t net cl) ++ (lats ≫= id)
  end.
Proof.
  intros Hr. pose proof (consumer_log (λ _, True) _ (undisturbed_pstep _ ok) (undisturbed_pstep _ ok) s0 s Hr) as H.
  destruct (consumerPlan s0) as [[[l cl] addrs]|]; [|by rewrite !filter_true in H].
  destruct H as (pairs & lats & ? & ? & H). exists pairs, lats. by rewrite !filter_true in H.
Qed.
(** *** Client-metric tasks *)

(** The first part of a program is done and the second is left. *)
Lemma mustClaim_after {A B} (p : prog taskE A) (f : A → prog taskE B) x g l :
  gives (Ob := write) ok p x l → mustClaim ok g (f x) → mustClaim ok g (p ≫= f).
Proof.
  intros Hp Hf. unfold gives in Hp. revert Hp.
  assert (∀ Q : outcome A → list write → Prop, (∀ r l, Q r l → r = Ret x) → post ok p Q → mustClaim ok g (p ≫= f)) as H.
  { induction p as [r|X e k IH]; intros Q HQ Hp.
    - specialize (HQ _ _ Hp). by subst r.
    - right. intros y Hy. apply (IH y (λ r l, Q r (sel X e ++ l))); [|by apply Hp]. intros r l'. apply HQ. }
  apply H. by intros r l' [? _].
Qed.

Lemma online_connection group :
  0 < online t net group ↔ ∃ cc, connection t net group = (Some cc, None) ∧ cc_ConnectionSet cc ≠ [].
Proof.
  unfold online. destruct (connection t net group) as [[cc|] [e|]]; split; try (by intros (? & ? & ?)); try lia.
  - intros H. exists cc. split; [done|]. intros E. rewrite E in H. simpl in H. lia.
  - intros (cc' & [= ->] & H). destruct (cc_ConnectionSet cc'); [done|]. simpl. lia.
Qed.

(** The lookup of the connections, then the rest of the body. *)
Lemma groupBody_connection {Ob} `{Observer Ob} group :
  gives ok (lift (ExamineConsumerConnectionInfo a group)) (connection t net group) [].
Proof.
  apply (gives_lift t net _ (None, None)); [determinate|calm|apply no_fail_connection].
Qed.

Lemma groupBody_claims cl addrs p : 0 < online t net (tg_group p) → mustClaim ok (tg_group p) (groupBody t cl addrs p).
Proof.
  intros Ho. unfold groupBody. cbv zeta. eapply mustClaim_after; [apply groupBody_connection|].
  pose proof Ho as (cc & E & Hc)%online_connection. unfold online in Ho. rewrite E in *.
  apply mustClaim_bind. unfold groupOnline. cbv zeta. apply Z.ltb_lt in Ho. rewrite !Ho.
  destruct (ClientAddresses _ _) as [ca la]. right. intros [] _. by left.
Qed.

(** What the body of a pair submits. *)
Definition submits (p : topicGroup) (l : list (string * ConsumerConnection)) : Prop :=
  ∀ x, x ∈ l → x.1 = tg_group p ∧ connection t net x.1 = (Some x.2, None) ∧ cc_ConnectionSet x.2 ≠ [].

(** A program that neither claims nor submits. *)
Lemma plain_silent {A} (p : prog taskE A) (Q : list (string * ConsumerConnection) → Prop) :
  all_events plain p → Q [] → post (Obs := observe_submitted) ok p (λ _ l, Q l).
Proof.
  intros Hp HQ. apply (post_mono ok p (λ _ l, l = [])); [by intros _ l ->|]. clear HQ.
  induction p as [r|X e k IH]; [done|]. destruct Hp as [He Hk]. intros x _. eapply post_mono; [|apply IH, Hk].
  intros _ l ->. destruct e; try destruct He; done.
Qed.

Lemma groupOnline_submits group cc n :
  0 < n → connection t net group = (Some cc, None) → cc_ConnectionSet cc ≠ [] →
  post (Obs := observe_submitted) ok (groupOnline t group (Some cc) n)
    (λ _ l, l = [] ∨ l = [(group, cc)]).
Proof.
  intros Hn Hc Hne. unfold groupOnline. cbv zeta. apply Z.ltb_lt in Hn. rewrite !Hn.
  destruct (ClientAddresses _ _) as [ca la]. intros [] _ [] _; [|by left]. intros [] _. by right.
Qed.

Lemma groupBody_submits cl addrs p :
  post (Obs := observe_submitted) ok (groupBody t cl addrs p) (λ _ l, submits p l).
Proof.
  unfold groupBody. cbv zeta. eapply post_after; [apply groupBody_connection|].
  assert (∀ (cc : option ConsumerConnection) n l0, submits p l0 → post (Obs := observe_submitted) ok
    (groupStats t cl addrs (tg_topic p) (tg_group p) cc n) (λ _ l, submits p ([] ++ l0 ++ l))) as Hst.
  { intros cc n l0 Hl0. apply (plain_silent _ (λ l, submits p ([] ++ l0 ++ l))); [apply plain_groupStats|].
    by rewrite app_nil_r. }
  assert (submits p []) as H0 by (by intros x []%elem_of_nil).
  destruct (decide (0 < online t net (tg_group p))) as [Ho|Ho].
  - pose proof Ho as (cc & E & Hc)%online_connection. unfold online in Ho. rewrite E in *.
    apply post_bind. eapply post_mono; [|by apply groupOnline_submits].
    intros [[]|e|msg] l Hl; cbn [thenPost]; [apply Hst|..];
      destruct Hl as [-> | ->]; try done; intros x ->%list_elem_of_singleton; done.
  - unfold online in Ho. destruct (connection t net (tg_group p)) as [cc err].
    set (n := match err with Some _ => 0 | None => match cc with Some cc => Z.of_nat (length (cc_ConnectionSet cc)) | None => 0 end end).
    assert ((0 <? n) = false) as En by (apply Z.ltb_ge; unfold n; destruct cc, err; lia).
    apply post_bind. unfold groupOnline. cbv zeta. rewrite !En. intros [] _. apply (Hst cc n []), H0.
Qed.

(** The outcome of a program does not depend on what is observed. *)
Lemma post_outcome {A Ob Ob'} (O : Observer Ob) (O' : Observer Ob') (p : prog taskE A) (R : outcome A → Prop) :
  post (Obs := O) ok p (λ r _, R r) → post (Obs := O') ok p (λ r _, R r).
Proof. induction p as [r|X e k IH]; [done|]. intros Hp x Hx. apply IH, Hp, Hx. Qed.

Lemma pass2_submits cl addrs pairs s0 s new :
  rtc (pstep ok) (parallel (consumerOffsetPass2 t cl addrs pairs) s0) s → finished s →
  sh_submitted (sh s) = sh_submitted s0 ++ new → ∀ x, x ∈ new → ∃ p, p ∈ pairs ∧ submits p [x].
Proof.
  intros Hr Hf Hsub. unfold consumerOffsetPass2 in Hr.
  destruct (parallel_post (Obs := observe_submitted) ok _ (groupBody t cl addrs <$> pairs) (submits <$> pairs) s0 s
    (undisturbed_pstep _ ok)) as [_ H]; [|done|].
  - apply Forall2_fmap_2, Forall_Forall2_diag, Forall_forall. intros p _. unfold body.
    apply (post_and (Obs := observe_submitted)); [|apply groupBody_submits].
    apply (post_outcome observe_writes). eapply post_mono; [|by apply (groupBody_post t net cl addrs p)]. by intros r l [? _].
  - destruct (H Hf) as (ls & Hch & Hv). cbn [view observe_submitted] in Hv. rewrite Hsub in Hv.
    apply Permutation_app_inv_l in Hv. intros x Hx. rewrite Hv in Hx.
    apply list_elem_of_bind in Hx as (lx & Hx & [i Hi]%list_elem_of_lookup).
    unfold chosen in Hch. apply Forall2_fmap_l in Hch. destruct (Forall2_lookup_r _ _ _ _ _ Hch Hi) as (p & Hp & Hq).
    exists p. split; [by eapply list_elem_of_lookup_2|]. intros y ->%list_elem_of_singleton. by apply Hq.
Qed.

Lemma plain_enumerateBody topic : all_events plain (enumerateBody t topic).
Proof.
  unfold enumerateBody. destruct (HasPrefix _ _); [done|]. apply all_events_bind; [apply plain_rpc|].
  intros [e|gl]; [done|]. destruct (_ =? _)%nat; [done|]. by split.
Qed.

Lemma pass1_quiet l s0 s :
  rtc (pstep ok) (parallel (consumerOffsetPass1 t l) s0) s →
  sh_claimed (sh s) = sh_claimed s0 ∧ sh_submitted (sh s) = sh_submitted s0.
Proof.
  apply plain_section. apply Forall_fmap, Forall_true. intros topic. apply plain_enumerateBody.
Qed.

(** C13: client-metric tasks.  A complete run of [collectConsumerOffset] submits the
    client-metric task of exactly the groups with clients: in any interleaving of
    its goroutines it submits a task for a group and a connection set if and only
    if the group consumes a topic of the name server (dead letter topics excluded)
    and that is its connection set, without an error and not empty; and once per
    group, however many topics the group consumes. *)
Theorem client_tasks_submitted s0 s :
  consumerRun (pstep ok) s0 s →
  ∃ new, sh_submitted (sh s) = sh_submitted s0 ++ new ∧ NoDup new.*1 ∧
    ∀ g cc, (g, cc) ∈ new ↔
      ∃ l cl addrs, consumerPlan s0 = Some (l, cl, addrs) ∧ g ∈ tg_group <$> (l ≫= topicPairs t net) ∧
        connection t net g = (Some cc, None) ∧ cc_ConnectionSet cc ≠ [].
Proof.
  intros (plan & s1 & [Hq ->]%consumerOffset_start & H). destruct (consumerPlan s0) as [[[l cl] addrs]|].
  2:{ exists []. subst s. rewrite Hq, app_nil_r. split; [done|]. split; [constructor|]. intros g cc.
      split; [by intros []%elem_of_nil|by intros (? & ? & ? & ? & _)]. }
  destruct H as (s2 & H1 & Hf1 & H2 & Hf2).
  pose proof (pass1_pairs _ (undisturbed_pstep _ ok) l _ s2 H1 Hf1) as Hpairs. cbn [fresh sh_pairs app] in Hpairs.
  assert (sh_claimed (sh s2) = ∅ ∧ sh_submitted (sh s2) = sh_submitted s0) as [Hc2 Hs2].
  { destruct (pass1_quiet l _ s2 H1) as [-> ->]. split; [done|]. by rewrite Hq. }
  destruct (client_metric_once ok t cl addrs _ _ s Hc2 H2) as (new & Hsub & Hnd & Hcl). rewrite Hs2 in Hsub.
  specialize (Hcl Hf2). exists new. split; [done|]. split; [done|].
  assert (∀ x, x ∈ new → ∃ p, p ∈ sh_pairs (sh s2) ∧ submits p [x]) as Hnew
    by (apply (pass2_submits cl addrs _ (sh s2) s new H2 Hf2); by rewrite Hs2).
  intros g cc. split.
  - intros Hin. destruct (Hnew _ Hin) as (p & Hp & Hx). destruct (Hx _ (list_elem_of_here _ _)) as (Eg & E & Hne).
    exists l, cl, addrs. split_and!; try done. simpl in Eg. subst g. apply list_elem_of_fmap. exists p. by rewrite <- Hpairs.
  - intros (l' & cl' & addrs' & [= <- <- <-] & (p & -> & Hp)%list_elem_of_fmap & E & Hne).
    rewrite <- Hpairs in Hp.
    assert (tg_group p ∈ new.*1) as ([g' cc'] & Eg & Hin)%list_elem_of_fmap.
    { apply Hcl. apply (parallel_claims ok _ (consumerOffsetPass2 t cl addrs (sh_pairs (sh s2))) (sh s2) s (groupBody t cl addrs p)); try done.
      - apply list_elem_of_fmap. by exists p.
      - apply groupBody_claims, online_connection. eauto. }
    simpl in Eg. subst g'. destruct (Hnew _ Hin) as (p' & _ & Hx). destruct (Hx _ (list_elem_of_here _ _)) as (_ & E' & _).
    simpl in E'. rewrite E in E'. by injection E' as <-.
Qed.
End jobs.

(** ** Witnesses *)

#[local] Existing Instance demo_goRange.
#[local] Existing Instance demoJson.
#[local] Existing Instance demoJson_ok.
#[local] Existing Instance demo_readings.

(** All brokers are up. *)
Definition liveNet : network := λ addr _, Ret (mkCommand 0 0 0 0 1 "" None (bytes_of addr)).

#[export] Instance demo_stable : Stable (ct_Admin demoTask) liveNet.
Proof. by split; [intros addr code header o o'|intros addr cmd msg]. Qed.

Definition offsetJob_end : shared := default demoShared (seqSection liveNet (CollectTopicOffset demoTask) demoShared).
Definition consumerJob_end : shared := default demoShared (seqConsumer demoTask liveNet demoShared).

Lemma completed_default {A} (d : A) o : completed o = true → o = Some (default d o).
Proof. by destruct o. Qed.

Lemma offsetJob_run : inSection liveNet (tstep (from liveNet) 0 0) (CollectTopicOffset demoTask) demoShared (mkPool [] [] offsetJob_end).
Proof. apply seqSection_run, completed_default. vm_compute. reflexivity. Qed.

Lemma consumerJob_run : consumerRun demoTask liveNet (tstep (from liveNet) 0 0) demoShared (mkPool [] [] consumerJob_end).
Proof. apply seqConsumer_run, completed_default. vm_compute. reflexivity. Qed.

Lemma job_writes_witness :
  sh_log offsetJob_end ≡ₚ
  bn ← ["10.0.0.1"; "10.0.0.2"; "10.0.0.3"; "shared"];
  [W_TopicOffset "c" bn "T1" 5 (floatOfZ 8); W_TopicOffset "c" bn "%DLQ%g" 5 (floatOfZ 8)].
Proof.
  etransitivity.
  - apply (job_writes demoTask liveNet TopicOffset demoShared (mkPool [] [] offsetJob_end) I).
    eapply (jobRun_mono demoTask liveNet); [apply tstep_pstep|apply offsetJob_run].
  - vm_compute. solve_Permutation.
Defined.

Lemma CollectConsumerOffset_writes_witness :
  ∃ pairs lats, pairs ≡ₚ [mkTopicGroup "T1" "g"; mkTopicGroup "T1" "h"] ∧
    sh_log consumerJob_end ≡ₚ (pairs ≫= groupWrites demoTask liveNet "c") ++ (lats ≫= id).
Proof.
  pose proof (CollectConsumerOffset_writes demoTask liveNet demoShared (mkPool [] [] consumerJob_end)
    (consumerRun_mono demoTask liveNet _ _ _ _ (tstep_pstep _ _ _) consumerJob_run)) as H.
  assert ((λ x : list string * string * gmap string string, x.1) <$> consumerPlan demoTask liveNet demoShared
    = Some (["T1"; "%DLQ%g"], "c")) as E by (vm_compute; reflexivity).
  destruct (consumerPlan demoTask liveNet demoShared) as [[[l cl] addrs]|]; [|discriminate].
  injection E as -> ->. destruct H as (pairs & lats & Hp & _ & Hl). exists pairs, lats. split; [|exact Hl].
  rewrite Hp. vm_compute. reflexivity.
Defined.

(** The groups of the demonstration network, each once. *)
Lemma client_tasks_submitted_witness :
  NoDup (sh_submitted consumerJob_end).*1 ∧
  ∃ cc, ("h", cc) ∈ sh_submitted consumerJob_end ∧ length (cc_ConnectionSet cc) = 4%nat.
Proof.
  destruct (client_tasks_submitted demoTask liveNet demoShared (mkPool [] [] consumerJob_end)
    (consumerRun_mono demoTask liveNet _ _ _ _ (tstep_pstep _ _ _) consumerJob_run)) as (new & Hs & Hnd & Hin).
  assert (Hs' : sh_submitted consumerJob_end = new) by exact Hs. rewrite Hs'. split; [exact Hnd|].
  destruct (connection demoTask liveNet "h") as [[cc|] e] eqn:E; [|vm_compute in E; discriminate].
  assert (e = None) as -> by (vm_compute in E; congruence).
  assert (length (cc_ConnectionSet cc) = 4%nat) as Hl by (vm_compute in E; injection E as <-; reflexivity).
  exists cc. split; [|exact Hl]. apply Hin.
  exists ["T1"; "%DLQ%g"], "c", (default ∅ (snd <$> consumerPlan demoTask liveNet demoShared)).
  split; [vm_compute; reflexivity|]. split; [|split; [exact E|]].
  - vm_compute. apply list_elem_of_further, list_elem_of_here.
  - intros E0. rewrite E0 in Hl. discriminate.
Defined.
