(* ===== verification/EndToEnd.v ===== *)
(** * From the peers' answers to the metrics page

    The pieces put together: what the peers answer, what a job writes (Jobs),
    what the caches keep and what [Gather] emits (Page).  The clock readings of a
    run lie in a window, so that a scrape knows the age of what was written; and
    a job runs beside other goroutines that write entries of their own
    ([beside]), as the other jobs do ([jobs_apart]). *)

From Stdlib Require Import ZArith Lia Ascii String.
From S2P Require Import Prelude GoStrings GoFloat Codec Util Effects Model Store Health Collector Service Peers Task Parallel Page Logic Tame Cycle Jobs.

Local Open Scope Z_scope.

(** ** The collector after a run *)

(** [s'] is [s] after the writes [l]. *)
Definition after (l : list ((nat → Z) * write)) (s s' : shared) : Prop :=
  sh_log s' = sh_log s ++ l.*2 ∧ sh_coll s' = applyAll l (sh_coll s).

Lemma after_trans l1 l2 s s1 s2 : after l1 s s1 → after l2 s1 s2 → after (l1 ++ l2) s s2.
Proof.
  intros [H1 H2] [H3 H4]. split; [by rewrite H3, H1, fmap_app, app_assoc|by rewrite H4, H2, applyAll_app].
Qed.

(** Writes with clock readings in a window. *)
Abbreviation within lo hi := (Forall (λ x : (nat → Z) * write, ∀ i, lo ≤ x.1 i ≤ hi)).

(** A job runs beside the other goroutines of the process, which write to the
    collector too: writes of [others], such as those [elsewhere] than [ws], to
    entries that [ws] does not write. *)
Definition elsewhere (ws : list write) (w : write) : Prop := place w ∉ place <$> ws.

Definition wrote (clk : nat → Z) (w : write) (s : shared) : shared :=
  mkShared (applyWrite clk w (sh_coll s)) (sh_log s ++ [w]) (sh_clusterName s) (sh_claimed s) (sh_pairs s) (sh_submitted s).

Definition beside (others : write → Prop) (ok : ∀ X, taskE X → X → Prop) (lo hi : Z) (s s' : pool) : Prop :=
  tstep ok lo hi s s' ∨
  ∃ clk w, others w ∧ (∀ i, lo ≤ clk i ≤ hi) ∧ s' = mkPool (waiting s) (active s) (wrote clk w (sh s)).

Lemma beside_applied others ok lo hi s s' :
  rtc (beside others ok lo hi) s s' → ∃ l, after l (sh s) (sh s') ∧ within lo hi l.
Proof.
  induction 1 as [s|s s1 s2 H _ (l & Ha & Hl)].
  { exists []. split; [|done]. split; [by rewrite app_nil_r|done]. }
  destruct H as [[_ [[Hc Hg]|(clk & w & Hclk & Hg & Hc)]]|(clk & w & _ & Hclk & ->)].
  - exists l. split; [|done]. destruct Ha as [H1 H2]. split; [by rewrite <- Hg|by rewrite <- Hc].
  - exists ((clk, w) :: l). split; [|by constructor]. by apply (after_trans [(clk, w)] l _ (sh s1)).
  - exists ((clk, w) :: l). split; [|by constructor]. by apply (after_trans [(clk, w)] l _ (wrote clk w (sh s))).
Qed.

Lemma tstep_beside others ok lo hi s s' : rtc (tstep ok lo hi) s s' → rtc (beside others ok lo hi) s s'.
Proof. apply rtc_subrel. intros s1 s2 H. by left. Qed.

(** The entries of [ws], and what the others leave alone. *)
Abbreviation entriesOf ws := (λ w, place w ∈ place <$> (ws : list write)).

Lemma beside_writes (P : write → Prop) `{∀ w, Decision (P w)} others ok lo hi :
  (∀ w, others w → ¬ P w) → undisturbed (observe_if P) ok (beside others ok lo hi).
Proof.
  intros Ho s s' [[H' _]|(clk & w & He & _ & ->)]; [by left|]. right. split; [done|]. split; [done|].
  cbn [view observe_if sh wrote sh_log]. rewrite filter_app, filter_cons_False, app_nil_r by (by apply Ho). done.
Qed.

Lemma beside_entries ws ok lo hi : undisturbed (observe_if (entriesOf ws)) ok (beside (elsewhere ws) ok lo hi).
Proof. apply beside_writes. intros w Hw. exact Hw. Qed.

Lemma beside_pairs others ok lo hi : undisturbed observe_pairs ok (beside others ok lo hi).
Proof. intros s s' [[H _]|(clk & w & He & _ & ->)]; [by left|by right]. Qed.

(** The last of the writes to an entry. *)
Lemma last_at (l : list ((nat → Z) * write)) pl :
  pl ∈ place <$> l.*2 → ∃ l1 clk w l2, l = l1 ++ (clk, w) :: l2 ∧ place w = pl ∧ Forall (λ x, place w ≠ place x.2) l2.
Proof.
  induction l as [|[clk w0] l IH] using rev_ind; [by intros []%elem_of_nil|].
  rewrite !fmap_app. intros Hin. destruct (decide (place w0 = pl)) as [E|E]; [by exists l, clk, w0, []|].
  destruct IH as (l1 & clk1 & w & l2 & -> & Hw & Hl2).
  - apply elem_of_app in Hin as [Hin|Hin%list_elem_of_singleton]; [done|by destruct E].
  - exists l1, clk1, w, (l2 ++ [(clk, w0)]). split_and!; [by rewrite <- app_assoc|done|].
    apply Forall_app. split; [done|]. constructor; [cbn; congruence|constructor].
Qed.

(** An entry that has been written is on the page with one of its writes. *)
Lemma place_visible `{GR : GoRange} T lo hi l s s' clk pl :
  after l s s' → within lo hi l → collector_reachable T (sh_coll s) → T < 2 ^ 63 → (∀ i, hi ≤ clk i ≤ lo + T) →
  pl ∈ place <$> l.*2 → ∃ w, w ∈ l.*2 ∧ place w = pl ∧ visible clk (sh_coll s') w.
Proof.
  intros [_ ->] Hl Hr HT Hclk Hin. destruct (last_at l pl Hin) as (l1 & clkw & w & l2 & -> & Hw & Hl2).
  exists w. split_and!; [rewrite fmap_app; apply elem_of_app; right; apply list_elem_of_here|done|].
  apply Forall_app in Hl as [_ [Hc _]%Forall_cons]. apply (last_visible T); [done..| |done].
  intros i j. specialize (Hclk i). specialize (Hc j). simpl in Hc. lia.
Qed.

(** Entries that are only written with one value are on the page. *)
Lemma written_visible `{GR : GoRange} T lo hi l s s' clk w :
  after l s s' → within lo hi l → collector_reachable T (sh_coll s) → T < 2 ^ 63 → (∀ i, hi ≤ clk i ≤ lo + T) →
  w ∈ l.*2 → (∀ w', w' ∈ l.*2 → place w' = place w → w' = w) → visible clk (sh_coll s') w.
Proof.
  intros Ha Hl Hr HT Hclk Hin Hw. destruct (place_visible T lo hi l s s' clk (place w)) as (w' & Hin' & Hp & Hv); try done.
  - apply list_elem_of_fmap. by exists w.
  - by rewrite <- (Hw w' Hin' Hp).
Qed.

(** ** Jobs *)

Section page.
Context `{GR : GoRange} `{JL : JsonLib} {JO : JsonOk} `{RD : Readings}.
Variables (t : CollectTask) (net : network).
Context {St : Stable (ct_Admin t) net}.

Abbreviation ok := (from net).

Lemma jobRun_timed others lo hi j s0 s :
  jobRun t net (beside others ok lo hi) j s0 s → ∃ l, after l s0 (sh s) ∧ within lo hi l.
Proof.
  assert (∀ p, alone (beside others ok lo hi) p s0 s → ∃ l, after l s0 (sh s) ∧ within lo hi l) as H1
    by (intros p [Hr _]; by apply beside_applied in Hr).
  assert (∀ p, (∀ items s1, calls ok p s0 (Ret items) s1 → quiet s0 s1) →
    inSection net (beside others ok lo hi) p s0 s → ∃ l, after l s0 (sh s) ∧ within lo hi l) as H2.
  { intros p Hq (items & s1 & Hc & Hr & Hf). apply beside_applied in Hr as (l & Ha & Hl). exists l. split; [|done].
    specialize (Hq _ _ Hc). by rewrite Hq in Ha. }
  destruct j; [apply H2|apply H1|apply H2|apply H1..]; intros items s1 Hc;
    [by apply topicOffset_items in Hc as [? _]|by apply brokerStatsTopic_items in Hc as [? _]].
Qed.

(** Of the writes [l], those to the entries of [ws] are [ws]; then the entries of
    [ws] that it writes once are on the page. *)
Lemma entries_visible T lo hi ws l s0 s clk w :
  after l s0 s → within lo hi l → filter (entriesOf ws) (sh_log s) ≡ₚ filter (entriesOf ws) (sh_log s0) ++ ws →
  collector_reachable T (sh_coll s0) → T < 2 ^ 63 → (∀ i, hi ≤ clk i ≤ lo + T) →
  w ∈ ws → (∀ w', w' ∈ ws → place w' = place w → w' = w) → visible clk (sh_coll s) w.
Proof.
  intros Ha Hl Hlog Hr HT Hclk Hin Hw. pose proof Ha as [Ha1 _]. rewrite Ha1, filter_app in Hlog.
  apply Permutation_app_inv_l in Hlog. apply (written_visible T lo hi l s0); try done.
  - rewrite <- Hlog in Hin. by apply list_elem_of_filter in Hin as [_ Hin].
  - intros w' Hin' Hp. apply Hw; [|done]. rewrite <- Hlog. apply list_elem_of_filter. split; [|done].
    rewrite Hp. apply list_elem_of_fmap. by exists w.
Qed.

Lemma filter_none {A} (P : A → Prop) `{∀ x, Decision (P x)} l : (∀ x, x ∈ l → ¬ P x) → filter P l = [].
Proof.
  induction l as [|x l IH]; intros Hl; [done|]. rewrite filter_cons_False by (apply Hl, list_elem_of_here).
  apply IH. intros y Hy. by apply Hl, list_elem_of_further.
Qed.

Lemma filter_entries ws : filter (entriesOf ws) ws = ws.
Proof. apply filter_all, Forall_forall. intros w Hw. apply list_elem_of_fmap. by exists w. Qed.

Lemma job_visible T lo hi j s0 s clk w :
  readable t net j → jobRun t net (beside (elsewhere (jobSpec t net s0 j)) ok lo hi) j s0 s →
  collector_reachable T (sh_coll s0) → T < 2 ^ 63 → (∀ i, hi ≤ clk i ≤ lo + T) →
  w ∈ jobSpec t net s0 j → (∀ w', w' ∈ jobSpec t net s0 j → place w' = place w → w' = w) →
  visible clk (sh_coll (sh s)) w.
Proof.
  intros Hj Hrun. pose proof (job_log t net _ _ (beside_entries _ ok lo hi) j s0 s Hj Hrun) as Hlog.
  apply jobRun_timed in Hrun as (l & Ha & Hl). rewrite filter_entries in Hlog. by apply (entries_visible T lo hi _ l s0).
Qed.

(** *** Entries the answers determine once *)

Lemma elem_of_whenEnabled l w : w ∈ whenEnabled t l → w ∈ l.
Proof. unfold whenEnabled. destruct (ct_EnableCollect t); [done|by intros []%elem_of_nil]. Qed.

Lemma elem_of_topicWrites cl topic w :
  w ∈ topicWrites t net cl topic ↔
  ∃ bn, bn ∈ brokerOf <$> topicEntries t net topic ∧
    w = W_TopicOffset cl bn topic (lastUpdate bn (topicEntries t net topic)) (floatOfZ (int64 (sumMax bn (topicEntries t net topic)))).
Proof.
  unfold topicWrites. rewrite list_elem_of_fmap. setoid_rewrite elem_of_remove_dups. split; intros (bn & ? & ?); eauto.
Qed.

Lemma topicOffset_place cl b b' topic topic' ts ts' v v' :
  place (W_TopicOffset cl b topic ts v) = place (W_TopicOffset cl b' topic' ts' v') → b = b' ∧ topic = topic'.
Proof.
  unfold place, slot, keyOf, byPrefix. intros E.
  destruct (HasPrefix topic retryTopicPrefix), (HasPrefix topic' retryTopicPrefix);
    destruct (HasPrefix topic dlqTopicPrefix) eqn:E1, (HasPrefix topic' dlqTopicPrefix) eqn:E2; simplify_eq; try done.
  split; [done|]. by eapply TrimPrefix_inj.
Qed.

Definition onceOnly (j : jobName) : Prop :=
  match j with TopicOffset | Producer | BrokerRuntimeStats => True | _ => False end.

Lemma onceOnly_unique j s0 w w' :
  onceOnly j → w ∈ jobSpec t net s0 j → w' ∈ jobSpec t net s0 j → place w' = place w → w' = w.
Proof.
  destruct j; intros []; cbn [jobSpec]; unfold overTopics; intros H%elem_of_whenEnabled H'%elem_of_whenEnabled.
  - destruct (topics t net) as [l|], (clusterOf t net s0) as [cl|]; [|by apply elem_of_nil in H..].
    apply list_elem_of_bind in H as (topic & (bn & _ & ->)%elem_of_topicWrites & _).
    apply list_elem_of_bind in H' as (topic' & (bn' & _ & ->)%elem_of_topicWrites & _). by intros [-> ->]%topicOffset_place.
  - unfold producerWrites in *. destruct (clusterInfo t net) as [[[cs|] [tb|]]|]; try (by apply elem_of_nil in H).
    apply list_elem_of_bind in H as (c1 & (b1 & (x1 & -> & Hx1)%list_elem_of_fmap & _)%list_elem_of_bind & _).
    apply list_elem_of_bind in H' as (c2 & (b2 & (x2 & -> & Hx2)%list_elem_of_fmap & _)%list_elem_of_bind & _).
    intros [= E1 E2 ->]. destruct x1 as [g l1], x2 as [g' l2]. simpl in *. subst.
    rewrite E2. apply elem_of_range in Hx1, Hx2. by simplify_eq.
  - unfold runtimeWrites in *. apply list_elem_of_bind in H as (x1 & H1 & _). apply list_elem_of_bind in H' as (x2 & H2 & _).
    destruct (got (ask net (FetchBrokerRuntimeStats (ct_Admin t) (masterOf x1.2)))) as [s1|] eqn:E1; simpl in H1; [|by apply elem_of_nil in H1].
    destruct (got (ask net (FetchBrokerRuntimeStats (ct_Admin t) (masterOf x2.2)))) as [s2|] eqn:E2; simpl in H2; [|by apply elem_of_nil in H2].
    apply list_elem_of_singleton in H1 as ->, H2 as ->. intros [= Ec Ea]. rewrite Ea in E2. rewrite Ea, Ec. congruence.
Qed.

(** C19: from the peers to the page, for every job of the scheduler with one
    section at most.  After a complete run, in any interleaving and whatever other
    goroutines write to other entries meanwhile, every scrape whose clock readings
    are within the TTL of the run's shows each value the answers determine, in its
    family and under its labels (for the two jobs that read runtime tables, when
    none of the tables makes its parser panic, [readable]): all of them for the
    topic offsets, the producer counts and the runtime statistics; for the other
    jobs, those whose entry the answers do not determine twice with different
    labels or values (two brokers of a cluster with one master address). *)
Theorem job_on_page T lo hi j s0 s clk w :
  readable t net j → jobRun t net (beside (elsewhere (jobSpec t net s0 j)) ok lo hi) j s0 s →
  collector_reachable T (sh_coll s0) → T < 2 ^ 63 → (∀ i, hi ≤ clk i ≤ lo + T) →
  w ∈ jobSpec t net s0 j → (onceOnly j ∨ ∀ w', w' ∈ jobSpec t net s0 j → place w' = place w → w' = w) →
  visible clk (sh_coll (sh s)) w.
Proof.
  intros Hj Hrun Hr HT Hclk Hin Hw. apply (job_visible T lo hi j s0); try done. destruct Hw as [Ho|Hw]; [|done].
  intros w' Hin'. by apply (onceOnly_unique j s0).
Qed.

(** *** Topic offsets *)

Lemma visible_offset clk c cl bn topic ts v :
  visible clk c (W_TopicOffset cl bn topic ts v) → exposes clk c (topicOffsetFamily topic) (topicOffsetSeries cl bn topic) v.
Proof.
  intros (i & name & labels & Hi & Hn & He). unfold topicOffsetFamily, topicOffsetSeries. cbn [slot shown] in *.
  unfold byPrefix in *. destruct (HasPrefix topic retryTopicPrefix); [|destruct (HasPrefix topic dlqTopicPrefix)];
    injection Hi as <-; injection Hn as <- <-; exact He.
Qed.

(** C11: from the brokers to the page.  After a complete run of
    [CollectTopicOffset], from the call of the scheduler, in any interleaving of its
    goroutines and whatever others write to other entries meanwhile, every scrape whose clock readings are within the TTL of the
    run's shows, for each topic of the name server and each broker that reports
    queues of it, the 64-bit sum of the maximum offsets of those queues, in the
    family the topic's prefix selects and under exactly its labels. *)
Theorem topic_offset_on_page T lo hi s0 s clk l cl topic bn :
  ct_EnableCollect t = true → topics t net = Some l → clusterOf t net s0 = Some cl →
  jobRun t net (beside (elsewhere (jobSpec t net s0 TopicOffset)) ok lo hi) TopicOffset s0 s →
  collector_reachable T (sh_coll s0) → T < 2 ^ 63 → (∀ i, hi ≤ clk i ≤ lo + T) →
  topic ∈ l → bn ∈ brokerOf <$> topicEntries t net topic →
  exposes clk (sh_coll (sh s)) (topicOffsetFamily topic) (topicOffsetSeries cl bn topic)
    (floatOfZ (int64 (sumMax bn (topicEntries t net topic)))).
Proof.
  intros He Hl Hcl Hrun Hr HT Hclk Ht Hbn. set (es := topicEntries t net topic).
  assert (W_TopicOffset cl bn topic (lastUpdate bn es) (floatOfZ (int64 (sumMax bn es))) ∈ jobSpec t net s0 TopicOffset) as Hin.
  { cbn [jobSpec]. unfold overTopics, whenEnabled. rewrite He, Hl, Hcl. apply list_elem_of_bind. exists topic.
    split; [|done]. apply elem_of_topicWrites. by exists bn. }
  eapply visible_offset, (job_visible T lo hi TopicOffset s0); try done.
  intros w' Hw'. by apply (onceOnly_unique TopicOffset s0).
Qed.

(** ** Consumer groups *)

Lemma consumerRun_timed others lo hi s0 s :
  consumerRun t net (beside others ok lo hi) s0 s → ∃ l, after l s0 (sh s) ∧ within lo hi l.
Proof.
  intros (plan & s1 & Hc & H). destruct (consumerOffset_start t net _ _ _ Hc) as [Hq _].
  destruct plan as [[[l cl] addrs]|].
  2:{ exists []. split; [|done]. subst s. rewrite Hq. by split; [rewrite app_nil_r|]. }
  destruct H as (s2 & H1 & Hf1 & H2 & Hf2).
  apply beside_applied in H1 as (l1 & Ha1 & Hl1). apply beside_applied in H2 as (l2 & Ha2 & Hl2).
  exists (l1 ++ l2). split; [|by apply Forall_app]. eapply after_trans; [|exact Ha2].
  cbn [parallel sh] in Ha1. unfold after, fresh in Ha1. rewrite Hq in Ha1. exact Ha1.
Qed.

(** What a pair writes, by kind. *)
Lemma elem_of_groupWrites cl p w :
  w ∈ groupWrites t net cl p ↔
  w = countWrite t net (tg_group p) ∨
  (stats t net p ≠ [] ∧
    (w = lagWrite t net p ∨
     ∃ bn, bn ∈ consumerBroker <$> stats t net p ∧
       w = W_GroupBrokerTotalOffset cl bn (tg_topic p) (tg_group p) (int64 (sumAt consumerBroker consumed bn (stats t net p))))).
Proof.
  assert (w ∈ consumedWrites t net cl p ↔ ∃ bn, bn ∈ consumerBroker <$> stats t net p ∧
    w = W_GroupBrokerTotalOffset cl bn (tg_topic p) (tg_group p) (int64 (sumAt consumerBroker consumed bn (stats t net p)))) as Hc.
  { unfold consumedWrites. rewrite list_elem_of_fmap. setoid_rewrite elem_of_remove_dups. split; intros (bn & ? & ?); eauto. }
  unfold groupWrites. rewrite elem_of_cons, <- Hc. destruct (stats t net p) as [|e es].
  - split; [intros [H|[]%elem_of_nil]; auto|]. intros [H|[[] _]]; auto.
  - rewrite elem_of_cons. split; [|tauto]. intros [H|H]; [by left|]. by right.
Qed.

Lemma latencies_kind cl addrs p l w :
  latencies t net cl addrs p l → w ∈ l → slot w = Some 16%nat.
Proof.
  intros [[-> _]|(lags & _ & Hl)] Hin; [by apply elem_of_nil in Hin|].
  rewrite Hl in Hin. by apply list_elem_of_fmap in Hin as (bn & -> & _).
Qed.

(** The entries of the pairs are determined once. *)
Lemma groupWrites_unique cl p p' w w' :
  w ∈ groupWrites t net cl p → w' ∈ groupWrites t net cl p' → place w' = place w → w' = w.
Proof.
  rewrite !elem_of_groupWrites.
  intros [->|[_ [->|(bn & _ & ->)]]] [->|[_ [->|(bn' & _ & ->)]]] E;
    try (exfalso; apply (f_equal fst) in E; cbn in E; unfold byPrefix in E; repeat case_match; discriminate);
    apply (f_equal snd) in E; cbn in E.
  - injection E as E. by rewrite E.
  - injection E as Eg Et _ _. destruct p, p'. simpl in *. by subst.
  - injection E as Eb Et Eg. destruct p, p'. simpl in *. by subst.
Qed.

(** What [collectConsumerOffset] writes but for the latencies. *)
Definition consumerSpec (l : list string) (cl : string) : list write := (l ≫= topicPairs t net) ≫= groupWrites t net cl.

Lemma groupWrites_kind cl p w : w ∈ groupWrites t net cl p → slot w ≠ Some 16%nat.
Proof.
  intros [->|[_ [->|(bn & _ & ->)]]]%elem_of_groupWrites; unfold countWrite, lagWrite, slot, byPrefix; by repeat case_match.
Qed.

Lemma consumer_filter l cl addrs pairs lats :
  pairs ≡ₚ (l ≫= topicPairs t net) → Forall2 (latencies t net cl addrs) pairs lats →
  filter (entriesOf (consumerSpec l cl)) ((pairs ≫= groupWrites t net cl) ++ (lats ≫= id)) ≡ₚ consumerSpec l cl.
Proof.
  intros Hp Hl. rewrite filter_app, Hp. fold (consumerSpec l cl). rewrite filter_entries.
  assert (filter (entriesOf (consumerSpec l cl)) (lats ≫= id) = []) as ->; [|by rewrite app_nil_r].
  apply filter_none. intros w (lat & Hw & [i Hi]%list_elem_of_lookup)%list_elem_of_bind.
  destruct (Forall2_lookup_r _ _ _ _ _ Hl Hi) as (p & _ & Hlat). pose proof (latencies_kind _ _ _ _ _ Hlat Hw) as Hs.
  intros (w' & Hpl & (p' & Hw' & _)%list_elem_of_bind)%list_elem_of_fmap.
  apply groupWrites_kind in Hw'. unfold place in Hpl. congruence.
Qed.

Lemma consumer_visible T lo hi s0 s clk l cl addrs p w :
  consumerPlan t net s0 = Some (l, cl, addrs) → consumerRun t net (beside (elsewhere (consumerSpec l cl)) ok lo hi) s0 s →
  collector_reachable T (sh_coll s0) → T < 2 ^ 63 → (∀ i, hi ≤ clk i ≤ lo + T) →
  p ∈ (l ≫= topicPairs t net) → w ∈ groupWrites t net cl p → visible clk (sh_coll (sh s)) w.
Proof.
  intros Hplan Hrun Hr HT Hclk Hp Hw.
  pose proof (consumer_log t net _ _ (beside_entries _ ok lo hi) (beside_pairs _ ok lo hi) s0 s Hrun) as Hlog.
  apply consumerRun_timed in Hrun as (ws & Ha & Hws). rewrite Hplan in Hlog.
  destruct Hlog as (pairs & lats & Hpairs & Hlats & Hlog). rewrite (consumer_filter l cl addrs) in Hlog by done.
  apply (entries_visible T lo hi (consumerSpec l cl) ws s0); try done.
  - apply list_elem_of_bind. by exists p.
  - intros w' (p' & Hw' & _)%list_elem_of_bind. by apply (groupWrites_unique cl p p').
Qed.

(** *** Store-time latencies *)

(** The entries of the latencies; their values depend on the clock. *)
Definition latencySpec (l : list string) (cl : string) : list write :=
  p ← l ≫= topicPairs t net; e ← stats t net p; [W_GroupGetLatencyByStoreTime cl (consumerBroker e) (tg_topic p) (tg_group p) 0].

Lemma latencySpec_entry l cl p e v :
  p ∈ (l ≫= topicPairs t net) → e ∈ stats t net p →
  place (W_GroupGetLatencyByStoreTime cl (consumerBroker e) (tg_topic p) (tg_group p) v) ∈ place <$> latencySpec l cl.
Proof.
  intros Hp He. apply list_elem_of_fmap.
  exists (W_GroupGetLatencyByStoreTime cl (consumerBroker e) (tg_topic p) (tg_group p) 0). split; [done|].
  apply list_elem_of_bind. exists p. split; [|done]. apply list_elem_of_bind. exists e. split; [apply list_elem_of_here|done].
Qed.

Lemma elem_of_latencies cl addrs p lat w :
  latencies t net cl addrs p lat → w ∈ lat →
  ∃ lags bn, measured t net addrs (stats t net p) lags ∧ bn ∈ lags.*1 ∧
    w = W_GroupGetLatencyByStoreTime cl bn (tg_topic p) (tg_group p) (foldr Z.max 0 (lagsOf bn lags)).
Proof.
  intros [[-> _]|(lags & Hm & Hl)] Hw; [by apply elem_of_nil in Hw|]. rewrite Hl in Hw.
  apply list_elem_of_fmap in Hw as (bn & -> & Hbn). rewrite elem_of_remove_dups in Hbn. eauto.
Qed.

Lemma latency_entry l cl addrs pairs lats w :
  pairs ≡ₚ (l ≫= topicPairs t net) → Forall2 (latencies t net cl addrs) pairs lats →
  w ∈ filter (entriesOf (latencySpec l cl)) ((pairs ≫= groupWrites t net cl) ++ (lats ≫= id)) ↔ w ∈ lats ≫= id.
Proof.
  intros Hp Hl. rewrite list_elem_of_filter, elem_of_app. split.
  - intros [(w' & E & (q & Hq & _)%list_elem_of_bind)%list_elem_of_fmap [(p' & Hw & _)%list_elem_of_bind|Hw]]; [|done].
    apply groupWrites_kind in Hw. apply list_elem_of_bind in Hq as (e & ->%list_elem_of_singleton & _). by injection E.
  - intros Hin. split; [|by right]. apply list_elem_of_bind in Hin as (lat & Hw & [i Hi]%list_elem_of_lookup).
    destruct (Forall2_lookup_r _ _ _ _ _ Hl Hi) as (q & Hq & Hlat).
    destruct (elem_of_latencies _ _ _ _ _ Hlat Hw) as (lags & bn & Hm & Hbn & ->).
    apply (measured_brokers t net _ _ _ _ Hm) in Hbn as (e & He & _ & <-).
    apply latencySpec_entry; [|done]. rewrite <- Hp. by eapply list_elem_of_lookup_2.
Qed.

(** C16: the store-time latency of a consumer group, from the brokers to the page.
    After a complete run of [collectConsumerOffset], in any interleaving and
    whatever others write to other entries meanwhile, every scrape within the TTL
    of the run shows, for each pair whose pulls succeed and each broker with a
    located queue of it, the largest age of the next message of those queues, at
    least 0: each age is that of the message the broker holds at the consumer's
    offset, or of its oldest one when that offset is gone, taken at a reading the
    clock made during the run, and 0 for a queue that is caught up or empty. *)
Theorem latency_on_page T lo hi s0 s clk l cl addrs p e :
  consumerPlan t net s0 = Some (l, cl, addrs) → consumerRun t net (beside (elsewhere (latencySpec l cl)) ok lo hi) s0 s →
  collector_reachable T (sh_coll s0) → T < 2 ^ 63 → (∀ i, hi ≤ clk i ≤ lo + T) →
  p ∈ (l ≫= topicPairs t net) → ¬ pullFails t net addrs (stats t net p) → e ∈ stats t net p → located addrs e →
  ∃ lags, measured t net addrs (stats t net p) lags ∧
    exposes clk (sh_coll (sh s)) "rocketmq_group_get_latency_by_storetime"
      [("cluster", cl); ("broker", consumerBroker e); ("topic", tg_topic p); ("group", tg_group p)]
      (floatOfZ (foldr Z.max 0 (lagsOf (consumerBroker e) lags))).
Proof.
  intros Hplan Hrun Hr HT Hclk Hp Hpull He Hloc.
  pose proof (consumer_log t net _ _ (beside_entries _ ok lo hi) (beside_pairs _ ok lo hi) s0 s Hrun) as Hlog.
  apply consumerRun_timed in Hrun as (ws & Ha & Hws). rewrite Hplan in Hlog.
  destruct Hlog as (pairs & lats & Hpairs & Hlats & Hlog). pose proof Ha as [Ha1 _].
  rewrite Ha1, filter_app in Hlog. apply Permutation_app_inv_l in Hlog.
  assert (∀ w, w ∈ filter (entriesOf (latencySpec l cl)) ws.*2 ↔ w ∈ lats ≫= id) as Hin
    by (intros w; rewrite Hlog; by eapply latency_entry).
  set (pl := (Some 16%nat, [cl; consumerBroker e; tg_topic p; tg_group p])).
  assert (pl ∈ place <$> ws.*2) as Hpl.
  { rewrite <- Hpairs in Hp. apply list_elem_of_lookup in Hp as [i Hi]. destruct (Forall2_lookup_l _ _ _ _ _ Hlats Hi) as (lat & Hl & Hlat).
    destruct Hlat as [[_ [E|E]]|(lags & Hm & Hperm)]; [by rewrite E in He; apply elem_of_nil in He|done|].
    apply list_elem_of_fmap. eexists (W_GroupGetLatencyByStoreTime cl (consumerBroker e) (tg_topic p) (tg_group p) _). split; [done|].
    eapply (proj1 (list_elem_of_filter _ _ _)), Hin, list_elem_of_bind. exists lat. split; [|by eapply list_elem_of_lookup_2].
    unfold id. rewrite Hperm. apply list_elem_of_fmap. eexists. split; [reflexivity|]. rewrite elem_of_remove_dups.
    apply (measured_brokers t net addrs (stats t net p)); [done|]. eauto. }
  destruct (place_visible T lo hi ws s0 (sh s) clk pl Ha Hws Hr HT Hclk Hpl) as (w & Hw & Ew & Hv).
  assert (w ∈ lats ≫= id) as (lat & Hwl & [i Hi]%list_elem_of_lookup)%list_elem_of_bind.
  { apply Hin, list_elem_of_filter. split; [|done]. rewrite Ew. by apply (latencySpec_entry l cl p e 0). }
  destruct (Forall2_lookup_r _ _ _ _ _ Hlats Hi) as (q & _ & Hlat).
  destruct (elem_of_latencies _ _ _ _ _ Hlat Hwl) as (lags & bn & Hm & _ & ->). injection Ew as -> Et Eg.
  assert (q = p) as -> by (destruct p, q; simpl in *; congruence). exists lags. split; [done|].
  destruct Hv as (k & name & labels & Hk & Hn & Hv). injection Hk as <-. injection Hn as <- <-. exact Hv.
Qed.

(** *** The jobs do not meet *)

Inductive jobKind : Type :=
| KTopicOffset | KProducer | KConsumer | KBrokerStatsTopic | KBrokerStats | KGroupStats | KRuntime | KClient (group : string).

Definition kindOf (j : jobName) : jobKind :=
  match j with
  | TopicOffset => KTopicOffset | Producer => KProducer | BrokerStatsTopic => KBrokerStatsTopic
  | BrokerStats => KBrokerStats | BrokerGroupStats => KGroupStats | BrokerRuntimeStats => KRuntime
  | ClientMetric group _ => KClient group
  end.

(** The job that writes an entry; the client metrics have one per group. *)
Definition ownerOf (pl : option nat * list string) : jobKind :=
  match pl.1 with
  | None => KRuntime
  | Some (0 | 1 | 2 | 3 | 12 | 16)%nat => KConsumer
  | Some 4%nat => KProducer
  | Some (5 | 6 | 7)%nat => KTopicOffset
  | Some (8 | 9 | 10 | 14 | 15)%nat => KBrokerStatsTopic
  | Some (23 | 24)%nat => KBrokerStats
  | Some 25%nat => KGroupStats
  | Some _ => KClient (default "" (head pl.2))
  end.

Lemma owner_offset cl bn topic ts v : ownerOf (place (W_TopicOffset cl bn topic ts v)) = KTopicOffset.
Proof. unfold place, slot, byPrefix. by repeat case_match. Qed.
Lemma owner_diff o g topic m v : ownerOf (place (W_GroupDiff o g topic m v)) = KConsumer.
Proof. unfold place, slot, byPrefix. by repeat case_match. Qed.

Lemma elem_of_written f v w : w ∈ written f v → ∃ x, w = f x.
Proof. unfold written. destruct v as [x|]; simpl; [intros ->%list_elem_of_singleton; eauto|by intros []%elem_of_nil]. Qed.

Lemma owner_stats ci topic w : w ∈ statsWrites t net ci topic → ownerOf (place w) = KBrokerStatsTopic.
Proof.
  unfold statsWrites. destruct (_ || _); [by intros []%elem_of_nil|]. rewrite elem_of_app.
  intros [(bd & Hw & _)%list_elem_of_bind|(g & (bd & Hw & _)%list_elem_of_bind & _)%list_elem_of_bind]; revert Hw;
    unfold putWrites, getWrites; cbv zeta; rewrite ?elem_of_app.
  - by intros [[x ->]%elem_of_written|[x ->]%elem_of_written].
  - by intros [[x ->]%elem_of_written|[[x ->]%elem_of_written|[x ->]%elem_of_written]].
Qed.

Lemma owner_client group cc w : w ∈ clientWrites t net group cc → ownerOf (place w) = KClient group.
Proof.
  unfold clientWrites, clientValues. cbv zeta. intros (conn & (x & Hw & _)%list_elem_of_bind & _)%list_elem_of_bind.
  repeat (apply elem_of_cons in Hw as [->|Hw]; [done|]). by apply elem_of_nil in Hw.
Qed.

Lemma owner_job s0 j w : w ∈ jobSpec t net s0 j → ownerOf (place w) = kindOf j.
Proof.
  destruct j; cbn [jobSpec kindOf]; unfold overTopics; [intros H%elem_of_whenEnabled..|]; [..|apply owner_client].
  - destruct (topics t net), (clusterOf t net s0); [|by apply elem_of_nil in H..].
    apply list_elem_of_bind in H as (topic & (bn & _ & ->)%elem_of_topicWrites & _).
    apply owner_offset.
  - unfold producerWrites in H. destruct (clusterInfo t net) as [[[cs|] [tb|]]|]; try (by apply elem_of_nil in H).
    by apply list_elem_of_bind in H as (c1 & (b1 & (x1 & -> & _)%list_elem_of_fmap & _)%list_elem_of_bind & _).
  - destruct (topics t net), (clusterInfo t net); [|by apply elem_of_nil in H..].
    apply list_elem_of_bind in H as (topic & Hw & _). by eapply owner_stats.
  - apply list_elem_of_bind in H as (x & Hw & _). cbv zeta in Hw. destruct (String.eqb _ _); [by apply elem_of_nil in Hw|].
    by apply elem_of_app in Hw as [[y ->]%elem_of_written|[y ->]%elem_of_written].
  - by apply list_elem_of_bind in H as (x & (y & -> & _)%list_elem_of_fmap & _).
  - apply list_elem_of_bind in H as (x & Hw & _). destruct (got _); simpl in Hw;
      [by apply list_elem_of_singleton in Hw as ->|by apply elem_of_nil in Hw].
Qed.

Lemma owner_consumer cl p w : w ∈ groupWrites t net cl p → ownerOf (place w) = KConsumer.
Proof.
  intros [->|[_ [->|(bn & _ & ->)]]]%elem_of_groupWrites; [done|apply owner_diff|done].
Qed.

Lemma owner_elsewhere ws w k :
  (∀ w', w' ∈ ws → ownerOf (place w') = k) → ownerOf (place w) ≠ k → elsewhere ws w.
Proof. intros Hws Hk (w' & Hp & Hin)%list_elem_of_fmap. apply Hk. rewrite Hp. by apply Hws. Qed.

(** The programs of the jobs, by job. *)
Inductive jobCode : jobKind → prog taskE unit → Prop :=
| C_topicOffset cl topic : jobCode KTopicOffset (topicOffsetBody t cl topic)
| C_producer : jobCode KProducer (CollectProducer t)
| C_pass1 topic : jobCode KConsumer (enumerateBody t topic)
| C_pass2 cl addrs p : jobCode KConsumer (groupBody t cl addrs p)
| C_brokerStatsTopic ci topic : jobCode KBrokerStatsTopic (brokerStatsBody t ci topic)
| C_brokerStats : jobCode KBrokerStats (CollectBrokerStats t)
| C_groupStats : jobCode KGroupStats (CollectBrokerGroupStats t)
| C_runtime : jobCode KRuntime (CollectBrokerRuntimeStats t)
| C_client group cc : jobCode (KClient group) (NewClientMetricTask t group cc).

(** The program writes [w] on some path, with some answers. *)
Fixpoint canWrite {A} (p : prog taskE A) (w : write) : Prop :=
  match p with
  | Leaf _ => False
  | Vis e k => (match e with Put w' => w' = w | _ => False end) ∨ ∃ x, canWrite (k x) w
  end.

(** Its writes belong to [k]. *)
Definition puts (k : jobKind) (X : Type) (e : taskE X) : Prop :=
  match e with Put w => ownerOf (place w) = k | _ => True end.

Lemma canWrite_owner {A} k (p : prog taskE A) w : all_events (puts k) p → canWrite p w → ownerOf (place w) = k.
Proof.
  induction p as [r|X e f IH]; [done|]. intros [He Hf] [Hw|[x Hw]]; [|by eapply IH].
  destruct e; try done. simpl in *. by subst.
Qed.

Lemma puts_lift {A} k (p : prog rpcE A) : all_events (puts k) (lift p).
Proof. apply all_events_translate. induction p as [r|X e f IH]; [done|]. by split. Qed.

Ltac walk_puts :=
  repeat first
    [ exact I
    | progress intros
    | apply all_events_forEach
    | match goal with
      | |- all_events _ (mret _) => exact I
      | |- all_events _ (lift _) => apply puts_lift
      | |- all_events _ (attempt _) => apply all_events_attempt
      | |- all_events _ (Leaf _) => exact I
      | |- all_events _ (emit _) => split; [|intros ?; exact I]
      | |- all_events _ (trigger _) => split; [exact I|intros ?; exact I]
      | |- all_events _ (_ ≫= _) => apply all_events_bind
      | |- all_events _ (match ?x with _ => _ end) => destruct x
      | |- all_events _ (if ?b then _ else _) => destruct b
      end
    | reflexivity ].

Lemma puts_latencyLoop addrs m es : all_events (puts KConsumer) (latencyLoop t addrs m es).
Proof.
  revert m. induction es as [|e es IH]; intros m; [done|]. cbn [latencyLoop]. cbv zeta.
  destruct (String.eqb _ _); [apply IH|]. apply all_events_bind; [unfold queueLag; cbv zeta; walk_puts|].
  intros [lag|]; [apply IH|done].
Qed.

Lemma puts_code k p : jobCode k p → all_events (puts k) p.
Proof.
  destruct 1.
  - unfold topicOffsetBody. walk_puts. apply owner_offset.
  - unfold CollectProducer. walk_puts; cbv zeta; walk_puts.
  - unfold enumerateBody. walk_puts.
  - unfold groupBody, groupOnline, groupStats. cbv zeta. walk_puts; first [apply puts_latencyLoop|apply owner_diff].
  - unfold brokerStatsBody, putTps, putSum, minuteStats. walk_puts; cbv zeta; walk_puts.
  - unfold CollectBrokerStats, putTps, minuteStats. walk_puts; cbv zeta; walk_puts.
  - unfold CollectBrokerGroupStats, fetchRuntime. walk_puts; cbv zeta; walk_puts.
  - unfold CollectBrokerRuntimeStats. walk_puts; cbv zeta; walk_puts.
  - unfold NewClientMetricTask. walk_puts.
Qed.

(** C20: the jobs do not write to each other's entries, whatever the peers answer
    and whatever path their goroutines take: the programs of two different jobs,
    and those of the client-metric tasks of two groups, write to different
    entries.  So each job is undisturbed by the others: their writes are elsewhere
    than those its answers determine. *)
Theorem jobs_apart k p w :
  jobCode k p → canWrite p w →
  (∀ k' p' w', jobCode k' p' → canWrite p' w' → k ≠ k' → place w ≠ place w') ∧
  (∀ s0 j, k ≠ kindOf j → elsewhere (jobSpec t net s0 j) w) ∧
  (∀ l cl, k ≠ KConsumer → elsewhere (consumerSpec l cl) w).
Proof.
  intros Hp Hw. pose proof (canWrite_owner _ _ _ (puts_code _ _ Hp) Hw) as Ho. split; [|split].
  - intros k' p' w' Hp' Hw' Hk E. apply Hk. rewrite <- Ho, E. exact (canWrite_owner _ _ _ (puts_code _ _ Hp') Hw').
  - intros s0 j Hk. apply (owner_elsewhere _ _ (kindOf j)); [apply owner_job|congruence].
  - intros l cl Hk. apply (owner_elsewhere _ _ KConsumer); [|congruence].
    intros w' (q & Hw' & _)%list_elem_of_bind. by eapply owner_consumer.
Qed.

(** *** On the page *)

Definition lagFamily (topic : string) : string :=
  byPrefix topic "rocketmq_group_diff" "rocketmq_group_retrydiff" "rocketmq_group_dlqdiff".

Lemma visible_lag clk c p :
  visible clk c (lagWrite t net p) →
  exposes clk c (lagFamily (tg_topic p))
    [("group", tg_group p); ("topic", tg_topic p); ("countOfOnlineConsumers", FormatInt (online t net (tg_group p)));
     ("msgModel", messageModelOrdinal (default "" (cc_MessageModel <$> (connection t net (tg_group p)).1)))]
    (floatOfZ (int64 (totalLag (stats t net p)))).
Proof.
  intros (i & name & labels & Hi & Hn & He). unfold lagFamily, lagWrite in *. cbn [slot shown] in *.
  unfold byPrefix in *. destruct (HasPrefix (tg_topic p) retryTopicPrefix); [|destruct (HasPrefix (tg_topic p) dlqTopicPrefix)];
    injection Hi as <-; injection Hn as <- <-; exact He.
Qed.

(** The clients of a group: those of its connections, when the lookup succeeds. *)
Definition members (group : string) : list Connection :=
  match connection t net group with (Some cc, None) => cc_ConnectionSet cc | _ => [] end.

Lemma online_members group : online t net group = Z.of_nat (length (members group)).
Proof. unfold online, members. by destruct (connection t net group) as [[cc|] [e|]]. Qed.

Lemma countWrite_members group :
  countWrite t net group =
  W_GroupCount group (Join "," (cn_ClientAddr <$> members group)) (Join "," (cn_ClientId <$> members group))
    (Z.of_nat (length (members group))).
Proof.
  unfold countWrite. cbv zeta. rewrite online_members. destruct (members group) as [|m ms] eqn:E; [done|].
  unfold members in E. destruct (connection t net group) as [[cc|] [e|]]; try done. cbn [fst fmap option_fmap option_map default].
  unfold id. by rewrite E.
Qed.

Lemma visible_count clk c group :
  visible clk c (countWrite t net group) →
  exposes clk c "rocketmq_group_count"
    [("caddr", Join "," (cn_ClientAddr <$> members group)); ("localaddr", Join "," (cn_ClientId <$> members group));
     ("group", group)] (floatOfZ (Z.of_nat (length (members group)))).
Proof.
  rewrite countWrite_members. intros (i & name & labels & Hi & Hn & He). injection Hi as <-. injection Hn as <- <-. exact He.
Qed.

(** C5: the lag of a consumer group, from the brokers to the page.  After a
    complete run of [collectConsumerOffset], from the call of the scheduler,
    through both passes, in any interleaving of their goroutines and whatever others
    write to other entries meanwhile, every scrape
    whose clock readings are within the TTL of the run's shows, for each group the
    brokers list for a topic of the name server (dead letter topics excluded) and
    whose statistics arrive: the messages it has not consumed, the 64-bit sum over
    all queues of broker offset minus consumer offset, under its topic, the number
    of its clients online and its message model; the number of its clients, under
    their addresses and under their ids, each joined by commas in the order of the
    answer; and per broker the sum of its consumer offsets. *)
Theorem consumer_lag_on_page T lo hi s0 s clk l cl addrs p :
  consumerPlan t net s0 = Some (l, cl, addrs) → consumerRun t net (beside (elsewhere (consumerSpec l cl)) ok lo hi) s0 s →
  collector_reachable T (sh_coll s0) → T < 2 ^ 63 → (∀ i, hi ≤ clk i ≤ lo + T) →
  p ∈ (l ≫= topicPairs t net) → stats t net p ≠ [] →
  exposes clk (sh_coll (sh s)) (lagFamily (tg_topic p))
    [("group", tg_group p); ("topic", tg_topic p); ("countOfOnlineConsumers", FormatInt (Z.of_nat (length (members (tg_group p)))));
     ("msgModel", messageModelOrdinal (default "" (cc_MessageModel <$> (connection t net (tg_group p)).1)))]
    (floatOfZ (int64 (totalLag (stats t net p)))) ∧
  exposes clk (sh_coll (sh s)) "rocketmq_group_count"
    [("caddr", Join "," (cn_ClientAddr <$> members (tg_group p)));
     ("localaddr", Join "," (cn_ClientId <$> members (tg_group p))); ("group", tg_group p)]
    (floatOfZ (Z.of_nat (length (members (tg_group p))))) ∧
  ∀ bn, bn ∈ consumerBroker <$> stats t net p →
    exposes clk (sh_coll (sh s)) "rocketmq_consumer_offset"
      [("cluster", cl); ("broker", bn); ("topic", tg_topic p); ("group", tg_group p)]
      (floatOfZ (int64 (sumAt consumerBroker consumed bn (stats t net p)))).
Proof.
  intros Hplan Hrun Hr HT Hclk Hp Hs.
  assert (∀ w, w ∈ groupWrites t net cl p → visible clk (sh_coll (sh s)) w) as Hv
    by (intros w; by apply (consumer_visible T lo hi s0 s clk l cl addrs p w)).
  setoid_rewrite elem_of_groupWrites in Hv. split_and!.
  - rewrite <- online_members. apply visible_lag, Hv. auto.
  - apply visible_count, Hv. by left.
  - intros bn Hbn. destruct (Hv (W_GroupBrokerTotalOffset cl bn (tg_topic p) (tg_group p)
      (int64 (sumAt consumerBroker consumed bn (stats t net p))))) as (i & name & labels & Hi & Hn & He); [eauto 10|].
    injection Hi as <-. injection Hn as <- <-. exact He.
Qed.
End page.

(** ** Witnesses *)

#[local] Existing Instance demo_goRange.
#[local] Existing Instance demoJson.
#[local] Existing Instance demoJson_ok.
#[local] Existing Instance demo_readings.
#[local] Existing Instance demo_stable.

Lemma topic_offset_on_page_witness :
  exposes (λ _, 30) (sh_coll offsetJob_end) "rocketmq_topic_dlq_offset"
    [("cluster", "c"); ("broker", "10.0.0.2"); ("group", "g")] (floatOfZ 8).
Proof.
  assert (floatOfZ (int64 (sumMax "10.0.0.2" (topicEntries demoTask liveNet "%DLQ%g"))) = floatOfZ 8) as Hv
    by (vm_compute; reflexivity).
  rewrite <- Hv. change "rocketmq_topic_dlq_offset" with (topicOffsetFamily "%DLQ%g").
  change [("cluster", "c"); ("broker", "10.0.0.2"); ("group", "g")] with (topicOffsetSeries "c" "10.0.0.2" "%DLQ%g").
  change (sh_coll offsetJob_end) with (sh_coll (sh (mkPool [] [] offsetJob_end))).
  apply (topic_offset_on_page demoTask liveNet 60 0 0 demoShared _ _ ["T1"; "%DLQ%g"] "c").
  - reflexivity.
  - vm_compute. reflexivity.
  - vm_compute. reflexivity.
  - eapply (jobRun_mono demoTask liveNet); [apply tstep_beside|apply offsetJob_run].
  - apply rtc_refl.
  - lia.
  - intros _. lia.
  - apply list_elem_of_further, list_elem_of_here.
  - apply (bool_decide_unpack _). vm_compute. exact I.
Defined.

Lemma job_on_page_witness :
  exposes (λ _, 30) (sh_coll offsetJob_end) "rocketmq_producer_offset"
    [("cluster", "c"); ("broker", "shared"); ("topic", "T1")] (floatOfZ 8).
Proof.
  change (sh_coll offsetJob_end) with (sh_coll (sh (mkPool [] [] offsetJob_end))).
  destruct (job_on_page demoTask liveNet 60 0 0 TopicOffset demoShared (mkPool [] [] offsetJob_end) (λ _, 30)
    (W_TopicOffset "c" "shared" "T1" 5 (floatOfZ 8))) as (i & name & labels & Hi & Hn & He).
  - exact I.
  - eapply (jobRun_mono demoTask liveNet); [apply tstep_beside|apply offsetJob_run].
  - apply rtc_refl.
  - lia.
  - intros _. lia.
  - vm_compute. repeat (apply list_elem_of_here || apply list_elem_of_further).
  - left. exact I.
  - injection Hi as <-. injection Hn as <- <-. exact He.
Defined.

Lemma consumer_lag_on_page_witness :
  exposes (λ _, 30) (sh_coll consumerJob_end) "rocketmq_group_diff"
    [("group", "h"); ("topic", "T1"); ("countOfOnlineConsumers", "4"); ("msgModel", "1")] (floatOfZ 21) ∧
  exposes (λ _, 30) (sh_coll consumerJob_end) "rocketmq_group_count"
    [("caddr", "addr-x,addr-10.0.0.1,addr-10.0.0.2,addr-10.0.0.3"); ("localaddr", "x,10.0.0.1,10.0.0.2,10.0.0.3"); ("group", "h")]
    (floatOfZ 4).
Proof.
  destruct (consumerPlan demoTask liveNet demoShared) as [[[l cl] addrs]|] eqn:E; [|vm_compute in E; discriminate].
  assert (l = ["T1"; "%DLQ%g"]) as -> by (vm_compute in E; congruence).
  destruct (consumer_lag_on_page demoTask liveNet 60 0 0 demoShared (mkPool [] [] consumerJob_end) (λ _, 30) ["T1"; "%DLQ%g"] cl addrs
    (mkTopicGroup "T1" "h")) as (H & Hc & _).
  - exact E.
  - eapply (consumerRun_mono demoTask liveNet); [apply tstep_beside|apply consumerJob_run].
  - apply rtc_refl.
  - lia.
  - intros _. lia.
  - vm_compute. apply list_elem_of_further, list_elem_of_here.
  - vm_compute. discriminate.
  - split; [exact H|exact Hc].
Defined.

(** The clock stands at 1000 and the messages carry timestamp 0. *)
Definition demoAddrs : gmap string string := default ∅ (snd <$> consumerPlan demoTask liveNet demoShared).
Definition demoPair : topicGroup := mkTopicGroup "T1" "h".
Definition demoQueue (broker : string) : ConsumeStatsEntry :=
  mkConsumeStatsEntry (mkMessageQueue "T" broker 0) (mkOffsetWrapper 8 1 0).

Lemma demo_pulls e now : e ∈ stats demoTask liveNet demoPair → lagAt demoTask liveNet (queueAddr demoAddrs e) e now ≠ None.
Proof.
  assert (stats demoTask liveNet demoPair = [demoQueue "10.0.0.3"; demoQueue "10.0.0.1"; demoQueue "10.0.0.2"]) as ->
    by (vm_compute; reflexivity).
  intros He Hn. apply (lagAt_None demoTask liveNet _ _ _ 0) in Hn. revert Hn.
  repeat (apply elem_of_cons in He as [->|He]; [vm_compute; discriminate|]). by apply elem_of_nil in He.
Qed.

Lemma demo_measured lags :
  measured demoTask liveNet demoAddrs (stats demoTask liveNet demoPair) lags → lags = [("10.0.0.3", 1000); ("10.0.0.2", 1000)].
Proof.
  unfold measured.
  assert (filter (located demoAddrs) (stats demoTask liveNet demoPair) = [demoQueue "10.0.0.3"; demoQueue "10.0.0.2"]) as ->
    by (vm_compute; reflexivity).
  intros ([b1 v1] & l1 & [E1 (n1 & -> & L1)] & ([b2 v2] & l2 & [E2 (n2 & -> & L2)] & ->%Forall2_nil_inv_l & ->)%Forall2_cons_inv_l & ->)%Forall2_cons_inv_l.
  simpl in E1, E2. subst. vm_compute in L1, L2.
  injection L1 as <-. injection L2 as <-. reflexivity.
Qed.

Lemma latency_on_page_witness :
  exposes (λ _, 30) (sh_coll consumerJob_end) "rocketmq_group_get_latency_by_storetime"
    [("cluster", "c"); ("broker", "10.0.0.3"); ("topic", "T1"); ("group", "h")] (floatOfZ 1000).
Proof.
  destruct (latency_on_page demoTask liveNet 60 0 0 demoShared (mkPool [] [] consumerJob_end) (λ _, 30) ["T1"; "%DLQ%g"] "c" demoAddrs
    demoPair (demoQueue "10.0.0.3")) as (lags & Hm & H).
  - vm_compute. reflexivity.
  - eapply (consumerRun_mono demoTask liveNet); [apply tstep_beside|apply consumerJob_run].
  - apply rtc_refl.
  - lia.
  - intros _. lia.
  - vm_compute. apply list_elem_of_further, list_elem_of_here.
  - intros (e & now & He & _ & Hn). exact (demo_pulls e now He Hn).
  - vm_compute. apply list_elem_of_here.
  - vm_compute. discriminate.
  - rewrite (demo_measured lags Hm) in H. exact H.
Defined.

(** A run shows what a program can write. *)
Lemma run_canWrite {A} net (p : prog taskE A) s w :
  w ∈ sh_log (run (@seqHandler _ net) p s).2 → w ∈ sh_log s ∨ canWrite p w.
Proof.
  revert s. induction p as [r|X e k IH]; intros s Hw; [by left|]. simpl in Hw.
  destruct (seqHandler net e s) as [x s1] eqn:E. destruct (IH x s1 Hw) as [H|H]; [|by right; right; exists x].
  destruct e; simpl in E; simplify_eq/=; try (by left).
  apply elem_of_app in H as [H| ->%list_elem_of_singleton]; [by left|by right; left].
Qed.

Lemma jobs_apart_witness :
  elsewhere (jobSpec demoTask liveNet demoShared TopicOffset) (W_BrokerCommitLogDiff "c" "10.0.0.9" "10.0.0.2" fzero).
Proof.
  refine (proj1 (proj2 (jobs_apart demoTask liveNet KGroupStats (CollectBrokerGroupStats demoTask) _ _ _)) _ TopicOffset _).
  - constructor.
  - destruct (run_canWrite liveNet (CollectBrokerGroupStats demoTask) demoShared
      (W_BrokerCommitLogDiff "c" "10.0.0.9" "10.0.0.2" fzero)) as [H|H]; [|by apply elem_of_nil in H|exact H].
    vm_compute. apply list_elem_of_here.
  - discriminate.
Defined.
