(* ===== verification/Exact.v ===== *)
(** * The page shows what the peers answer, and nothing else

    EndToEnd shows that the values a run of a job determines are on the page; here
    the other direction is added.  After a run of a job, the families that the job
    alone writes ([ownerOf], [jobs_apart]) show exactly the series the peers'
    answers determine: nothing of a topic, group or broker that is gone survives
    the TTL, and nothing is made up. *)

From Stdlib Require Import ZArith Lia Ascii String.
From S2P Require Import Prelude GoStrings GoFloat Codec FastJson Util Effects Model Store Health Collector Service Task Parallel Page Entries Scrape Peers Logic Tame Cycle Jobs EndToEnd.

Local Open Scope Z_scope.

(** ** Series and entries *)

Section entries.
Context `{GR : GoRange}.

(** The 89 families that are read from caches, in the order of [Gather]. *)
Definition cachedFamilies : list (string * list string) :=
  staticFamilies ++ ((λ '(name, _, _), (name, brokerRuntimeLabels)) <$> distributeCatalog) ++
  ((λ '(name, _, _), (name, brokerRuntimeLabels)) <$> runtimeCatalog).

Lemma cached_static i x : staticFamilies !! i = Some x → cachedFamilies !! i = Some x.
Proof. apply lookup_app_l_Some. Qed.

Lemma names_labels i name labels :
  cachedFamilies !! i = Some (name, labels) →
  (i < 89)%nat ∧ familyNames !! i = Some name ∧ familyLabels !! i = Some labels.
Proof.
  intros Hi. split; [by apply lookup_lt_Some in Hi|].
  assert (cachedFamilies.*1 ++ (spName <$> healthSpecs (NewWithClock 0)) = familyNames) as <- by reflexivity.
  assert (cachedFamilies.*2 ++ (spLabels <$> healthSpecs (NewWithClock 0)) = familyLabels) as <- by reflexivity.
  split; apply lookup_app_l_Some; by rewrite list_lookup_fmap, Hi.
Qed.

(** A family exposes exactly its entries that are not older than the TTL. *)
Lemma exposes_entry T c clk i name labels lab v :
  wf T c → cachedFamilies !! i = Some (name, labels) →
  exposes clk c name lab v ↔
  ∃ key vals tw, entryAt (i, key) c = Some (vals, v, tw) ∧ timeSub (clk i) tw ≤ T ∧ lab = zip labels vals.
Proof.
  intros Hw Hi. destruct (names_labels i name labels Hi) as (Hlt & Hn & Hl).
  assert (∃ s, familySpecs c !! i = Some s ∧ spName s = name ∧ spLabels s = labels) as (s & Hs & <- & <-).
  { rewrite <- (names_reachable T c Hw), list_lookup_fmap in Hn. rewrite <- (labels_wf T c Hw), list_lookup_fmap in Hl.
    destruct (familySpecs c !! i) as [s|]; [|done]. exists s. by simplify_eq/=. }
  unfold exposes. split.
  - intros (fams & f & Hg & Hf & Hname & Hm). rewrite Gather_families in Hg.
    assert (fams = imap (λ i s, familyOf (clk i) s) (familySpecs c)) as -> by congruence.
    apply list_elem_of_lookup in Hf as [k Hk]. rewrite list_lookup_imap in Hk.
    destruct (familySpecs c !! k) as [s'|] eqn:Hs'; [|done]. injection Hk as <-. cbn in Hname.
    assert (k = i) as ->.
    { destruct familyNames_NoDup as [Hnd _]. apply (NoDup_lookup _ k i (spName s) Hnd); [|done].
      by rewrite <- (names_reachable T c Hw), list_lookup_fmap, Hs', <- Hname. }
    simplify_eq. cbn in Hm. apply list_elem_of_fmap in Hm as ([vals v'] & [= -> ->] & Hm).
    apply (sample_entry T i s _ c) in Hm as (key & tw & ? & ?); [|done|lia|done]. eauto 10.
  - intros (key & vals & tw & He & Ht & ->). eexists _, (familyOf (clk i) s). split; [apply Gather_families|].
    split_and!; [|done|].
    + apply list_elem_of_lookup. exists i. by rewrite list_lookup_imap, Hs.
    + apply list_elem_of_fmap. exists (mkSample vals v). split; [done|]. apply (sample_entry T i s _ c); [done|lia|done|]. eauto.
Qed.

(** ** What a write shows in a family *)

(** The entry of family [i] that the write changes, and what a scrape shows of it:
    the report of a broker changes one entry in each of the 50 runtime families,
    and in each of the 13 of the put latencies when it has a distribution. *)
Definition shownIn (w : write) (i : nat) : option (list string * (list string * float64)) :=
  match w with
  | W_BrokerRuntimeStats stats cl ad host =>
      let entry v := Some ([cl; ad], ((runtimeSeries stats cl ad host).*2, v)) in
      if decide (39 ≤ i)%nat then '(_, _, getVal) ← runtimeCatalog !! (i - 39)%nat; entry (getVal stats)
      else if decide (26 ≤ i ∧ Model.PutMessageDistributeTimeMap stats ≠ ∅)%nat then
        '(_, _, key) ← distributeCatalog !! (i - 26)%nat;
        entry (floatOfZ (default 0 (Model.PutMessageDistributeTimeMap stats !! key)))
      else None
  | _ => if decide (slot w = Some i) then Some (keyOf w, shown w) else None
  end.

Lemma shownIn_static w i :
  (i < 26)%nat → shownIn w i = if decide (slot w = Some i) then Some (keyOf w, shown w) else None.
Proof.
  intros Hi. destruct w; try done. cbn [shownIn slot]. rewrite (decide_False (P := None = Some i)) by done.
  rewrite decide_False by lia. rewrite decide_False by lia. done.
Qed.

Lemma shownIn_other w i : is_Some (slot w) → shownIn w i = if decide (slot w = Some i) then Some (keyOf w, shown w) else None.
Proof. intros [k Hk]. by destruct w. Qed.

(** The key of the entry and the place of the write name each other. *)
Lemma shownIn_place w w' i key x x' :
  shownIn w i = Some (key, x) → shownIn w' i = Some (key, x') → place w' = place w.
Proof.
  destruct (decide (i < 26)%nat) as [Hi|Hi].
  - rewrite !shownIn_static by done. unfold place. intros H1 H2.
    destruct (decide (slot w = Some i)), (decide (slot w' = Some i)); try done. congruence.
  - assert (∀ w key x, shownIn w i = Some (key, x) → place w = (None, key)) as H;
      [|intros H1%H H2%H; congruence].
    clear -Hi. intros w key x. destruct (slot w) as [k|] eqn:Hk.
    + rewrite shownIn_other by eauto. case_decide as E; [|done]. exfalso. rewrite E in Hk. simplify_eq.
      destruct w; unfold slot, byPrefix in E; repeat case_match; simplify_eq; lia.
    + destruct w; try (unfold slot, byPrefix in Hk; repeat case_match; discriminate). cbn [shownIn].
      repeat case_decide; [destruct (runtimeCatalog !! _) as [[[? ?] ?]|]|destruct (distributeCatalog !! _) as [[[? ?] ?]|]|done];
        intros [= <- _] || intros [=]; done.
Qed.

(** A broker's report, family by family. *)
Lemma entryAt_report_write T clk stats cl ad host i key c :
  wf T c → (i < 89)%nat →
  ∃ j, entryAt (i, key) (applyWrite clk (W_BrokerRuntimeStats stats cl ad host) c) =
    match shownIn (W_BrokerRuntimeStats stats cl ad host) i with
    | Some (key', x) => if decide (key' = key) then Some (x, clk j) else entryAt (i, key) c
    | None => entryAt (i, key) c
    end.
Proof.
  intros Hw Hi. cbn [shownIn applyWrite]. unfold AddBrokerRuntimeStatsMetric. cbv zeta.
  destruct (decide (i < 26)%nat) as [Hs|Hs].
  { exists 0%nat. rewrite (decide_False (P := (39 ≤ i)%nat)) by lia.
    rewrite (decide_False (P := (26 ≤ i ∧ _)%nat)) by lia. apply entryAt_static; [done|]. by case_decide. }
  rewrite !entryAt_report by lia.
  destruct key as [|cl' [|ad' [|? ?]]]; try (exists 0%nat;
    repeat case_decide; first [done | destruct (runtimeCatalog !! _) as [[[? ?] ?]|] | destruct (distributeCatalog !! _) as [[[? ?] ?]|]];
    cbn [mbind option_bind]; by rewrite ?decide_False by congruence).
  destruct (decide (39 ≤ i)%nat) as [Hr|Hr].
  - exists (i - 39)%nat.
    assert ((λ r, (rm_name r, rm_help r, rm_getVal r)) <$> runtimeMetrics c !! (i - 39)%nat = runtimeCatalog !! (i - 39)%nat) as Hj
      by (rewrite <- list_lookup_fmap; by rewrite (wf_runtime T c Hw)).
    rewrite !(decide_False (P := (i < 39)%nat)) by lia.
    destruct (decide (0 < _)%nat); cbn [runtimeMetrics set_runtimeMetrics set_distributeMetrics];
      rewrite list_lookup_imap; destruct (runtimeMetrics c !! _) as [rm|]; rewrite <- Hj;
      cbn [fmap option_fmap option_map mbind option_bind rm_cache]; try done;
      rewrite look_put; repeat case_decide; simplify_eq; done.
  - rewrite !(decide_True (P := (i < 39)%nat)) by lia.
    destruct (decide (0 < size (Model.PutMessageDistributeTimeMap stats))%nat) as [Hd|Hd].
    + rewrite (decide_True (P := (26 ≤ i ∧ _)%nat)) by (split; [lia|intros E; rewrite E, map_size_empty in Hd; lia]).
      cbn [runtimeMetrics distributeMetrics set_runtimeMetrics set_distributeMetrics]. rewrite length_imap.
      exists (length (runtimeMetrics c) + (i - 26))%nat.
      assert ((λ d, (dm_name d, dm_help d, dm_distKey d)) <$> distributeMetrics c !! (i - 26)%nat = distributeCatalog !! (i - 26)%nat) as Hj
        by (rewrite <- list_lookup_fmap; by rewrite (wf_distribute T c Hw)).
      rewrite list_lookup_imap. destruct (distributeMetrics c !! _) as [dm|]; rewrite <- Hj;
        cbn [fmap option_fmap option_map mbind option_bind dm_cache]; try done.
      rewrite look_put. repeat case_decide; simplify_eq; done.
    + rewrite (decide_False (P := (26 ≤ i ∧ _)%nat)) by (intros [_ E]; apply map_size_non_empty_iff in E; lia).
      by exists 0%nat.
Qed.

Lemma entryAt_shownIn T clk w i key c :
  wf T c → (i < 89)%nat →
  ∃ j, entryAt (i, key) (applyWrite clk w c) =
    match shownIn w i with
    | Some (key', x) => if decide (key' = key) then Some (x, clk j) else entryAt (i, key) c
    | None => entryAt (i, key) c
    end.
Proof.
  intros Hw Hi. destruct (slot w) as [k|] eqn:Hk.
  - exists 0%nat. rewrite shownIn_other by eauto.
    assert (applyWrite clk w c = runAtom (clk 0%nat) (A_set w) c) as -> by (destruct w; done || discriminate).
    rewrite entryAt_set by (by eexists). unfold effect. rewrite Hk. cbn [mbind option_bind Entries.written].
    repeat case_decide; try done; congruence.
  - destruct w as [| | | | | | | | | | | | | | | | | | | |stats cl ad host];
      try (by unfold slot, byPrefix in Hk; repeat case_match; discriminate). clear Hk.
    apply (entryAt_report_write T); done.
Qed.

(** The entry after a sequence of writes is that of the last write to it. *)
Lemma entryAt_applyAll T l i key c :
  collector_reachable T c → (i < 89)%nat →
  (∃ clk j w x, (clk, w) ∈ l ∧ shownIn w i = Some (key, x) ∧ entryAt (i, key) (applyAll l c) = Some (x, clk j)) ∨
  ((∀ w x, w ∈ l.*2 → shownIn w i ≠ Some (key, x)) ∧ entryAt (i, key) (applyAll l c) = entryAt (i, key) c).
Proof.
  intros Hr Hi. induction l as [|[clk w] l IH] using rev_ind; [right; by split; [intros ? ? []%elem_of_nil|]|].
  rewrite applyAll_app. change (applyAll [(clk, w)] ?x) with (applyWrite clk w x).
  destruct (entryAt_shownIn T clk w i key (applyAll l c)) as [j ->]; [by apply wf_reachable, applyAll_reachable|done|].
  setoid_rewrite elem_of_app.
  assert ((∃ x, shownIn w i = Some (key, x)) ∨ ∀ x, shownIn w i ≠ Some (key, x)) as [[x E]|E].
  { destruct (shownIn w i) as [[k x]|]; [|by right]. destruct (decide (k = key)) as [->|]; [left; eauto|right; congruence]. }
  - left. exists clk, j, w, x. rewrite E, decide_True by done. split_and!; [right; apply list_elem_of_here|done|done].
  - assert (∀ (y z : option (list string * float64 * Z)),
      match shownIn w i with Some (key', x) => if decide (key' = key) then Some (x, clk j) else z | None => z end = z) as Hz.
    { intros _ z. destruct (shownIn w i) as [[k x]|]; [|done]. rewrite decide_False; [done|]. intros ->. by apply (E x). }
    rewrite (Hz None). destruct IH as [(clk' & j' & w' & x & Hin & Hp & He)|[Hn He]]; [left; eauto 12|right]. split; [|done].
    intros w' x Hin. rewrite fmap_app in Hin. apply elem_of_app in Hin as [Hin|Hin]; [by apply Hn|].
    cbn in Hin. apply list_elem_of_singleton in Hin as ->. apply E.
Qed.

(** After writes in a window, a series of a family that would not be shown without
    them is shown exactly when the last write to an entry shows it. *)
Lemma exposes_shown T lo hi l c clk i name labels lab v :
  collector_reachable T c → T < 2 ^ 63 → within lo hi l → (∀ k, hi ≤ clk k ≤ lo + T) →
  cachedFamilies !! i = Some (name, labels) →
  ((∀ v, ¬ exposes clk c name lab v) → exposes clk (applyAll l c) name lab v →
     ∃ w key vals, w ∈ l.*2 ∧ shownIn w i = Some (key, (vals, v)) ∧ lab = zip labels vals) ∧
  (∀ w key vals, w ∈ l.*2 → shownIn w i = Some (key, (vals, v)) → lab = zip labels vals →
     (∀ w', w' ∈ l.*2 → place w' = place w → w' = w) → exposes clk (applyAll l c) name lab v).
Proof.
  intros Hr HT Hl Hclk Hi. destruct (names_labels _ _ _ Hi) as (Hlt & _).
  pose proof (wf_reachable T _ (applyAll_reachable T l c Hr)) as Hw. split.
  - intros Hst. rewrite (exposes_entry T) by done. intros (key & vals & tw & He & Ht & ->).
    destruct (entryAt_applyAll T l i key c Hr Hlt) as [(clkw & j & w & x & Hin & Hp & E)|[_ E]]; rewrite E in He.
    + injection He as -> _. exists w, key, vals. split_and!; try done. apply list_elem_of_fmap. by exists (clkw, w).
    + exfalso. apply (Hst v). rewrite (exposes_entry T) by (done || by apply wf_reachable). by exists key, vals, tw.
  - intros w key vals Hin Hs -> Hu. rewrite (exposes_entry T) by done.
    destruct (entryAt_applyAll T l i key c Hr Hlt) as [(clkw & j & w' & x & Hin' & Hp & E)|[Hn _]].
    + assert (w' = w) as ->.
      { apply Hu; [apply list_elem_of_fmap; by exists (clkw, w')|]. by eapply shownIn_place. }
      rewrite Hs in Hp. injection Hp as <-. exists key, vals, (clkw j). split_and!; [done| |done].
      pose proof (proj1 (Forall_forall _ _) Hl _ Hin' j) as Hc. cbn in Hc. specialize (Hclk i).
      rewrite timeSub_exact by lia. lia.
    + by destruct (Hn w (vals, v) Hin).
Qed.

(** The entries of a family are older than the TTL at the scrape, as those of a new
    collector are. *)
Definition stale (T : Z) (clk : nat → Z) (i : nat) (c : MetricsCollector) : Prop :=
  ∀ key x tw, entryAt (i, key) c = Some (x, tw) → T < timeSub (clk i) tw.

Lemma stale_new T clk i : stale T clk i (NewWithClock T).
Proof. intros key x tw. by rewrite entryAt_new. Qed.

Lemma stale_hidden T clk i c name labels lab v :
  collector_reachable T c → cachedFamilies !! i = Some (name, labels) → stale T clk i c → ¬ exposes clk c name lab v.
Proof.
  intros Hr Hi Hst. rewrite (exposes_entry T) by (done || by apply wf_reachable).
  intros (key & vals & tw & He & Ht & _). apply Hst in He. lia.
Qed.

(** The same for a family that one setter feeds and whose entries were all stale. *)
Lemma exposes_writes T lo hi l c clk i name labels lab v :
  collector_reachable T c → T < 2 ^ 63 → within lo hi l → (∀ k, hi ≤ clk k ≤ lo + T) →
  staticFamilies !! i = Some (name, labels) → stale T clk i c →
  (exposes clk (applyAll l c) name lab v → ∃ w, w ∈ l.*2 ∧ slot w = Some i ∧ lab = zip labels (shown w).1 ∧ v = (shown w).2) ∧
  (∀ w, w ∈ l.*2 → slot w = Some i → (∀ w', w' ∈ l.*2 → place w' = place w → w' = w) →
     exposes clk (applyAll l c) name (zip labels (shown w).1) (shown w).2).
Proof.
  intros Hr HT Hl Hclk Hi Hst. pose proof (lookup_lt_Some _ _ _ Hi) as Hlt. cbn in Hlt. apply cached_static in Hi.
  split.
  - intros (w & key & vals & Hw & Hs & ->)%(exposes_shown T lo hi l c clk i name labels lab v);
      [|done..|intros v'; by eapply stale_hidden].
    rewrite shownIn_static in Hs by done. case_decide; [|done]. injection Hs as _ Hs. exists w. by rewrite Hs.
  - intros w Hin Hs Hu. eapply (exposes_shown T lo hi l c clk i name labels); try done.
    rewrite shownIn_static, decide_True by done. by destruct (shown w).
Qed.
End entries.

(** ** Jobs *)

#[export] Instance jobKind_eq_dec : EqDecision jobKind.
Proof. solve_decision. Defined.

(** The job is the only writer of the family, as [collectConsumerOffset] is of its
    six; for the jobs whose series are told apart by more than the family, see
    [feeds]. *)
Definition owns (k : jobKind) (i : nat) : Prop := ∀ key, ownerOf (Some i, key) = k.

(** The series of family [i] that a job feeds: the job owns the family, but for the
    six client families, in which the task of a group owns the series of its group. *)
Definition feeds (k : jobKind) (i : nat) (lab : list (string * string)) : Prop :=
  match k with
  | KTopicOffset => i ∈ [5; 6; 7]%nat
  | KProducer => i = 4%nat
  | KConsumer => i ∈ [0; 1; 2; 3; 12; 16]%nat
  | KBrokerStatsTopic => i ∈ [8; 9; 10; 14; 15]%nat
  | KBrokerStats => i ∈ [23; 24]%nat
  | KGroupStats => i = 25%nat
  | KRuntime => (26 ≤ i < 89)%nat
  | KClient group => (17 ≤ i ≤ 22)%nat ∧ ("group", group) ∈ lab
  end.

Lemma feeds_owner k i labels key vals v w name :
  cachedFamilies !! i = Some (name, labels) → shownIn w i = Some (key, (vals, v)) → feeds k i (zip labels vals) →
  ownerOf (place w) = k.
Proof.
  intros Hi Hs Hf. destruct (decide (i < 26)%nat) as [Hlt|Hge].
  - rewrite shownIn_static in Hs by done. destruct (decide (slot w = Some i)) as [E|]; [|done]. injection Hs as Hk Hv.
    unfold ownerOf, place. cbn [fst snd]. rewrite E.
    destruct k; cbn [feeds] in Hf; try (subst i; reflexivity); try lia;
      try (repeat (apply elem_of_cons in Hf as [->|Hf]; [reflexivity|]); by apply elem_of_nil in Hf).
    destruct Hf as [Hr Hg]. assert (labels = clientLabels) as ->.
    { do 17 (destruct i as [|i]; [lia|]). do 6 (destruct i as [|i]; [by injection Hi as _ <-|]). lia. }
    assert (head (keyOf w) = Some group) as Hh.
    { destruct w; unfold slot, byPrefix in E; repeat case_match; simplify_eq; try lia; cbn in Hv; injection Hv as <- <-;
        cbn in Hg; rewrite !elem_of_cons, elem_of_nil in Hg; cbn;
        destruct Hg as [[=]|[[=]|[[= ->]|[[=]|[]]]]]; reflexivity. }
    do 17 (destruct i as [|i]; [lia|]). do 6 (destruct i as [|i]; [by cbn; rewrite Hh|]). lia.
  - assert (place w = (None, key)) as ->.
    { destruct (slot w) as [n|] eqn:E.
      - rewrite shownIn_other in Hs by eauto. case_decide as E'; [|done]. exfalso. rewrite E in E'. injection E' as ->.
        destruct w; unfold slot, byPrefix in E; repeat case_match; simplify_eq; lia.
      - unfold place. rewrite E. f_equal. destruct w; try (unfold slot, byPrefix in E; repeat case_match; discriminate).
        cbn [shownIn keyOf] in *. repeat case_decide; try done;
          [destruct (runtimeCatalog !! _) as [[[? ?] ?]|]|destruct (distributeCatalog !! _) as [[[? ?] ?]|]]; try done;
          by injection Hs as <- _ _. }
    destruct k; cbn [feeds] in Hf; try lia; try done;
      repeat (apply elem_of_cons in Hf as [->|Hf]; [lia|]); by apply elem_of_nil in Hf.
Qed.

(** Writes of the other jobs. *)
Definition notOf (k : jobKind) (w : write) : Prop := ownerOf (place w) ≠ k.

Section exact.
Context `{GR : GoRange} `{JL : JsonLib} {JO : JsonOk} `{RD : Readings}.
Variables (t : CollectTask) (net : network).
Context {St : Stable (ct_Admin t) net}.

Abbreviation ok := (from net).

(** Of the writes of a run, those to the job's entries are [ws]. *)
Lemma owned_log k l (ws : list write) s0 s :
  after l s0 s →
  filter (λ w, ownerOf (place w) = k) (sh_log s) ≡ₚ filter (λ w, ownerOf (place w) = k) (sh_log s0) ++ ws →
  ∀ w, ownerOf (place w) = k → w ∈ l.*2 ↔ w ∈ ws.
Proof.
  intros [Ha _] Hlog w Ho. rewrite Ha, filter_app in Hlog. apply Permutation_app_inv_l in Hlog.
  rewrite <- Hlog, list_elem_of_filter. tauto.
Qed.

Lemma owned_writes k i l (ws : list write) s0 s :
  owns k i → after l s0 s →
  filter (λ w, ownerOf (place w) = k) (sh_log s) ≡ₚ filter (λ w, ownerOf (place w) = k) (sh_log s0) ++ ws →
  ∀ w, slot w = Some i → w ∈ l.*2 ↔ w ∈ ws.
Proof.
  intros Ho Ha Hlog w Hs. apply (owned_log k l ws s0 s Ha Hlog). unfold place. rewrite Hs. apply Ho.
Qed.

Lemma filter_owner k (ws : list write) :
  (∀ w, w ∈ ws → ownerOf (place w) = k) → filter (λ w, ownerOf (place w) = k) ws = ws.
Proof. intros Hw. by apply filter_all, Forall_forall. Qed.

(** The page of a family, from the writes of a run. *)
Lemma family_exact T lo hi k i name labels lab v l ws s0 s clk :
  owns k i → after l s0 s → within lo hi l →
  filter (λ w, ownerOf (place w) = k) (sh_log s) ≡ₚ filter (λ w, ownerOf (place w) = k) (sh_log s0) ++ ws →
  collector_reachable T (sh_coll s0) → T < 2 ^ 63 → (∀ x, hi ≤ clk x ≤ lo + T) →
  staticFamilies !! i = Some (name, labels) → stale T clk i (sh_coll s0) →
  (exposes clk (sh_coll s) name lab v → ∃ w, w ∈ ws ∧ slot w = Some i ∧ lab = zip labels (shown w).1 ∧ v = (shown w).2) ∧
  (∀ w, w ∈ ws → slot w = Some i → (∀ w', w' ∈ ws → place w' = place w → w' = w) →
     exposes clk (sh_coll s) name (zip labels (shown w).1) (shown w).2).
Proof.
  intros Ho Ha Hl Hlog Hr HT Hclk Hi Hst. pose proof (owned_writes k i l ws s0 s Ho Ha Hlog) as Hin. destruct Ha as [_ ->].
  destruct (exposes_writes T lo hi l (sh_coll s0) clk i name labels lab v Hr HT Hl Hclk Hi Hst) as [H1 H2]. split.
  - intros (w & Hw & Hs & E)%H1. exists w. split; [by apply Hin|done].
  - intros w Hw Hs Hu. apply H2; [by apply Hin|done|]. intros w' Hw' Hp. apply Hu; [|done]. apply Hin; [|done].
    unfold place in Hp. congruence.
Qed.

(** C10: from the peers to the page, exactly.  After a complete run of a job with one
    section at most, in any interleaving and whatever the other jobs write
    meanwhile, take a scrape within the TTL of the run and a series of a family the
    job feeds ([feeds]: the topic offset, producer, broker, slave and minute
    families, the 63 runtime families, and the series of the task's group in the six
    client families) that the scrape would not show without the run, such as one
    that is older than the TTL or was never written.  Whenever the scrape shows it,
    with a value, the peers' answers determine that series with that value: nothing
    of a topic, group or broker that is gone is left, and nothing is made up.
    Conversely every series the answers determine is shown with its value, for the
    topic offset, producer and runtime jobs always, and for the other jobs when the
    answers do not determine one entry twice with different values. *)
Theorem job_page_exact T lo hi j s0 s clk i name labels lab v :
  readable t net j → jobRun t net (beside (notOf (kindOf j)) ok lo hi) j s0 s →
  collector_reachable T (sh_coll s0) → T < 2 ^ 63 → (∀ x, hi ≤ clk x ≤ lo + T) →
  cachedFamilies !! i = Some (name, labels) → feeds (kindOf j) i lab →
  let determined :=
    ∃ w key vals, w ∈ jobSpec t net s0 j ∧ shownIn w i = Some (key, (vals, v)) ∧ lab = zip labels vals in
  ((∀ v, ¬ exposes clk (sh_coll s0) name lab v) → exposes clk (sh_coll (sh s)) name lab v → determined) ∧
  (onceOnly j ∨ (∀ w w', w ∈ jobSpec t net s0 j → w' ∈ jobSpec t net s0 j → place w' = place w → w' = w) →
   determined → exposes clk (sh_coll (sh s)) name lab v).
Proof.
  intros Hj Hrun Hr HT Hclk Hi Hf determined.
  assert (undisturbed (observe_if (λ w, ownerOf (place w) = kindOf j)) ok (beside (notOf (kindOf j)) ok lo hi)) as Hu
    by (apply beside_writes; done).
  pose proof (job_log t net _ _ Hu j s0 s Hj Hrun) as Hlog. rewrite (filter_owner (kindOf j) (jobSpec t net s0 j)) in Hlog
    by (intros w; apply owner_job).
  destruct (jobRun_timed t net _ lo hi j s0 s Hrun) as (l & Ha & Hl).
  assert (∀ w, ownerOf (place w) = kindOf j → w ∈ l.*2 ↔ w ∈ jobSpec t net s0 j) as Hin
    by (by apply owned_log with (s0 := s0) (s := sh s)).
  destruct Ha as [_ ->].
  destruct (exposes_shown T lo hi l (sh_coll s0) clk i name labels lab v Hr HT Hl Hclk Hi) as [H1 H2]. split.
  - intros Hst (w & key & vals & Hw & Hs & ->)%H1; [|done]. exists w, key, vals. split_and!; try done.
    apply Hin; [|done]. by eapply feeds_owner.
  - intros Honce (w & key & vals & Hw & Hs & El). pose proof (owner_job t net s0 j w Hw) as Ho.
    apply (H2 w key vals); try done; [by apply Hin|]. intros w' Hw' Hp.
    assert (w' ∈ jobSpec t net s0 j) as Hw'' by (apply Hin; [by rewrite Hp|done]).
    destruct Honce as [Hon|Hon]; [by apply (onceOnly_unique t net j s0)|by apply Hon].
Qed.

(** C6: consumer groups, exactly.  After a complete run of [collectConsumerOffset],
    in any interleaving and whatever the other jobs write meanwhile, a scrape within
    the TTL shows in the lag, member count and consumer offset families exactly the
    series of the pairs of a topic of the name server and a group the brokers list
    for it, when what the families held before is stale; and every latency it shows
    is the largest measured age of the queues of such a pair on one broker. *)
Theorem consumer_page_exact T lo hi s0 s clk l cl addrs i name labels lab v :
  consumerPlan t net s0 = Some (l, cl, addrs) → consumerRun t net (beside (notOf KConsumer) ok lo hi) s0 s →
  collector_reachable T (sh_coll s0) → T < 2 ^ 63 → (∀ x, hi ≤ clk x ≤ lo + T) →
  staticFamilies !! i = Some (name, labels) → owns KConsumer i → stale T clk i (sh_coll s0) →
  (i ≠ 16%nat →
     exposes clk (sh_coll (sh s)) name lab v ↔
     ∃ p w, p ∈ (l ≫= topicPairs t net) ∧ w ∈ groupWrites t net cl p ∧ slot w = Some i ∧
       lab = zip labels (shown w).1 ∧ v = (shown w).2) ∧
  (i = 16%nat → exposes clk (sh_coll (sh s)) name lab v →
     ∃ p bn lags, p ∈ (l ≫= topicPairs t net) ∧ measured t net addrs (stats t net p) lags ∧ bn ∈ lags.*1 ∧
       lab = zip labels [cl; bn; tg_topic p; tg_group p] ∧ v = floatOfZ (foldr Z.max 0 (lagsOf bn lags))).
Proof.
  intros Hplan Hrun Hr HT Hclk Hi Ho Hst.
  assert (undisturbed (observe_if (λ w, ownerOf (place w) = KConsumer)) ok (beside (notOf KConsumer) ok lo hi)) as Hu
    by (apply beside_writes; done).
  pose proof (consumer_log t net _ _ Hu (beside_pairs _ ok lo hi) s0 s Hrun) as Hlog. rewrite Hplan in Hlog.
  destruct Hlog as (pairs & lats & Hpairs & Hlats & Hlog). destruct (consumerRun_timed t net _ lo hi s0 s Hrun) as (ws & Ha & Hws).
  assert (∀ w, w ∈ lats ≫= id → ∃ p bn lags, p ∈ (l ≫= topicPairs t net) ∧ measured t net addrs (stats t net p) lags ∧ bn ∈ lags.*1 ∧
    w = W_GroupGetLatencyByStoreTime cl bn (tg_topic p) (tg_group p) (foldr Z.max 0 (lagsOf bn lags))) as Hlat.
  { intros w (lat & Hw & [k Hk]%list_elem_of_lookup)%list_elem_of_bind. destruct (Forall2_lookup_r _ _ _ _ _ Hlats Hk) as (p & Hp & Hl).
    destruct (elem_of_latencies t net _ _ _ _ _ Hl Hw) as (lags & bn & Hm & Hbn & ->). exists p, bn, lags. split_and!; try done.
    rewrite <- Hpairs. by eapply list_elem_of_lookup_2. }
  rewrite (filter_owner KConsumer ((pairs ≫= groupWrites t net cl) ++ (lats ≫= id))) in Hlog.
  2:{ intros w [(p & Hw & _)%list_elem_of_bind|(p & bn & lags & _ & _ & _ & ->)%Hlat]%elem_of_app; [by eapply owner_consumer|done]. }
  destruct (family_exact T lo hi KConsumer i name labels lab v ws _ s0 (sh s) clk Ho Ha Hws Hlog Hr HT Hclk Hi Hst) as [H1 H2].
  split.
  - intros Hne. split.
    + intros (w & [(p & Hw & Hp)%list_elem_of_bind|(p & bn & lags & _ & _ & _ & ->)%Hlat]%elem_of_app & Hs & -> & ->)%H1.
      * exists p, w. split_and!; try done. by rewrite <- Hpairs.
      * by injection Hs as <-.
    + intros (p & w & Hp & Hw & Hs & -> & ->). rewrite <- Hpairs in Hp. apply H2; [|done|].
      * apply elem_of_app. left. apply list_elem_of_bind. by exists p.
      * intros w' [(p' & Hw' & _)%list_elem_of_bind|(p' & bn & lags & _ & _ & _ & ->)%Hlat]%elem_of_app E;
          [by apply (groupWrites_unique t net cl p p')|].
        exfalso. apply Hne. unfold place in E. rewrite Hs in E. by injection E.
  - intros -> (w & [(p & Hw & Hp)%list_elem_of_bind|Hw]%elem_of_app & Hs & -> & ->)%H1.
    + by apply groupWrites_kind in Hw.
    + apply Hlat in Hw as (p & bn & lags & ? & ? & ? & ->). by exists p, bn, lags.
Qed.
End exact.

(** ** Witnesses *)

#[local] Existing Instance demo_goRange.
#[local] Existing Instance demoJson.
#[local] Existing Instance demoJson_ok.
#[local] Existing Instance demo_readings.
#[local] Existing Instance demo_stable.

(** Every broker of the demonstration network sends the fixture's runtime table. *)
Lemma demo_runtimesOk : runtimesOk demoTask liveNet.
Proof.
  assert (H : NewBrokerRuntimeStats (Some fixture) = Ret fixture_stats) by (vm_compute; reflexivity).
  intros addr msg. unfold FetchBrokerRuntimeStats, invokeSyncBroker. cbn -[NewBrokerRuntimeStats fixture fixture_stats].
  destruct (decide (0 < len (bytes_of addr))); [|discriminate].
  unfold UnmarshalJSON. destruct (normalizeKeys_some (bytes_of addr)) as [n ->].
  cbn -[NewBrokerRuntimeStats fixture fixture_stats]. rewrite H. discriminate.
Qed.

Definition runtimeJob_end : shared := default demoShared (seqAll liveNet [CollectBrokerRuntimeStats demoTask] demoShared).

Lemma runtimeJob_run : jobRun demoTask liveNet (tstep (from liveNet) 0 0) BrokerRuntimeStats demoShared (mkPool [] [] runtimeJob_end).
Proof.
  split; [|done]. apply (seqAll_timed liveNet [CollectBrokerRuntimeStats demoTask] demoShared demoShared).
  apply completed_is_Some. vm_compute. reflexivity.
Qed.

(** The mean message size of a broker of the demonstration network, in the family and under
    the labels of its report, and of no other broker. *)
Lemma job_page_exact_witness :
  exposes (λ _, 30) (sh_coll runtimeJob_end) "rocketmq_brokeruntime_put_message_average_size"
    (runtimeSeries fixture_stats "c" "10.0.0.2" "") (PutMessageAverageSize fixture_stats) ∧
  ¬ exposes (λ _, 30) (sh_coll runtimeJob_end) "rocketmq_brokeruntime_put_message_average_size"
    (runtimeSeries fixture_stats "c" "10.0.0.9" "") (PutMessageAverageSize fixture_stats).
Proof.
  change (sh_coll runtimeJob_end) with (sh_coll (sh (mkPool [] [] runtimeJob_end))).
  assert (jobSpec demoTask liveNet demoShared BrokerRuntimeStats =
    [W_BrokerRuntimeStats fixture_stats "c" "10.0.0.3" ""; W_BrokerRuntimeStats fixture_stats "c" "10.0.0.2" ""]) as Hspec
    by (vm_compute; reflexivity).
  assert (jobRun demoTask liveNet (beside (notOf (kindOf BrokerRuntimeStats)) (from liveNet) 0 0) BrokerRuntimeStats demoShared
    (mkPool [] [] runtimeJob_end)) as Hrun by (eapply (jobRun_mono demoTask liveNet); [apply tstep_beside|apply runtimeJob_run]).
  assert (∀ _ : nat, 0 ≤ 30 ≤ 0 + 60) as Hclk by (intros _; lia).
  assert (cachedFamilies !! 43%nat = Some ("rocketmq_brokeruntime_put_message_average_size", brokerRuntimeLabels)) as Hi by reflexivity.
  pose proof (λ lab v, job_page_exact demoTask liveNet 60 0 0 BrokerRuntimeStats demoShared (mkPool [] [] runtimeJob_end) (λ _, 30)
    43 _ _ lab v demo_runtimesOk Hrun (rtc_refl _ _) eq_refl Hclk Hi ltac:(simpl; lia)) as Hx.
  rewrite Hspec in Hx. split.
  - apply (proj2 (Hx _ _)); [by left|]. exists (W_BrokerRuntimeStats fixture_stats "c" "10.0.0.2" ""), ["c"; "10.0.0.2"],
      (runtimeSeries fixture_stats "c" "10.0.0.2" "").*2.
    split_and!; [|reflexivity..]. repeat (apply list_elem_of_here || apply list_elem_of_further).
  - intros H. apply (proj1 (Hx _ _)) in H as (w & key & vals & Hw & Hs & Hl).
    + assert (∃ ad, ad ≠ "10.0.0.9" ∧ w = W_BrokerRuntimeStats fixture_stats "c" ad "") as (ad & Had & ->)
        by (apply elem_of_cons in Hw as [Hw|Hw]; [exists "10.0.0.3"; split; [discriminate|exact Hw]|];
            apply list_elem_of_singleton in Hw; exists "10.0.0.2"; split; [discriminate|exact Hw]).
      clear -Had Hs Hl. revert Hs Hl. generalize fixture_stats. intros st Hs Hl.
      assert (vals = (runtimeSeries st "c" ad "").*2) as -> by (cbn in Hs; injection Hs as _ <-; reflexivity).
      apply Had. cbn in Hl. injection Hl as E. by symmetry.
    + intros v. eapply (stale_hidden 60); [apply rtc_refl|exact Hi|apply stale_new].
Defined.

(** The lag of the groups of the demonstration network, and of no other. *)
Lemma consumer_page_exact_witness :
  exposes (λ _, 30) (sh_coll consumerJob_end) "rocketmq_group_diff"
    [("group", "h"); ("topic", "T1"); ("countOfOnlineConsumers", "4"); ("msgModel", "1")] (floatOfZ 21) ∧
  ¬ exposes (λ _, 30) (sh_coll consumerJob_end) "rocketmq_group_diff"
    [("group", "h"); ("topic", "T2"); ("countOfOnlineConsumers", "4"); ("msgModel", "1")] (floatOfZ 21).
Proof.
  change (sh_coll consumerJob_end) with (sh_coll (sh (mkPool [] [] consumerJob_end))).
  assert (consumerRun demoTask liveNet (beside (notOf KConsumer) (from liveNet) 0 0) demoShared (mkPool [] [] consumerJob_end))
    as Hrun by (eapply (consumerRun_mono demoTask liveNet); [apply tstep_beside|apply consumerJob_run]).
  assert (consumerPlan demoTask liveNet demoShared = Some (["T1"; "%DLQ%g"], "c", demoAddrs)) as Hplan by (vm_compute; reflexivity).
  assert (∀ _ : nat, 0 ≤ 30 ≤ 0 + 60) as Hclk by (intros _; lia).
  pose proof (λ lab v, proj1 (consumer_page_exact demoTask liveNet 60 0 0 demoShared (mkPool [] [] consumerJob_end) (λ _, 30)
    ["T1"; "%DLQ%g"] "c" demoAddrs 0 "rocketmq_group_diff" groupDiffLabels lab v Hplan Hrun (rtc_refl _ _) eq_refl Hclk eq_refl
    (λ _, eq_refl) (stale_new _ _ _)) ltac:(discriminate)) as Hx.
  assert ((["T1"; "%DLQ%g"] ≫= topicPairs demoTask liveNet) = [mkTopicGroup "T1" "g"; mkTopicGroup "T1" "h"]) as Hpairs
    by (vm_compute; reflexivity).
  rewrite Hpairs in Hx. split.
  - apply Hx. exists demoPair, (W_GroupDiff "4" "h" "T1" "1" 21). split_and!; [|vm_compute|reflexivity..].
    + apply list_elem_of_further, list_elem_of_here.
    + apply list_elem_of_further, list_elem_of_here.
  - intros H. apply Hx in H as (p & w & Hp & Hw & Hs & Hl & _).
    repeat (apply elem_of_cons in Hp as [->|Hp]; [vm_compute in Hw; repeat (apply elem_of_cons in Hw as [->|Hw];
      [vm_compute in Hs, Hl; discriminate|]); by apply elem_of_nil in Hw|]). by apply elem_of_nil in Hp.
Defined.
